(* ===== verification/_CoqProject ===== *)
-Q . S2P
Prelude.v
Bytes.v
Decimal.v
BaseNix32.v
BaseN.v
Hashing.v
CanonPath.v
StorePath.v
ContentAddress.v
StoreDir.v
Serialise.v
HashSink.v
AsyncHash.v
References.v
Archive.v
Disk.v
HashPath.v
DiskCalls.v
Restore.v
World.v
Delete.v
Canonicalise.v
Optimise.v
Graph.v
ThreadPool.v
Pool.v
Sort.v
PathLocks.v
LRUCache.v
FileSystemAt.v
PosixAccessor.v
FileHasher.v
Strings.v
PathInfo.v
LocalStore.v
Verify.v
AddToStore.v
AddFromDump.v
Settings.v
Schema.v
GCStore.v
GC.v
GCComplete.v
LocalStoreGC.v
TempRoots.v
