(* ===== verification/Prelude.v ===== *)
(** * Verification of the local Nix store

    The program is the local part of Nix: a store directory of immutable
    objects (libstore), the database that records which of them are valid and
    what they refer to, the garbage collector, and under them the general
    library (libutil): hashes and their encodings, paths, the wire format and
    the archive format.  This development translates them to functions and
    step relations on explicit state and proves what makes them correct.

    ** Conventions

    A [std::string] is [bytes], a list of eight-bit [ascii]s.  A fallible
    function returns [result A]: [Ok] or [Throw] of an exception ([exn]); an
    exception is its class and, where the code reads them again, its
    arguments.  Code that changes state and can throw runs in the monad
    [ST St A] (end of this file): the state survives a throw, as objects of
    C++ do, and [finally] and [scatch] are destructors and handlers.
    Integers are [Z] with the wrap-around of their width written out where it
    can happen ([u32], [u64], [i32]); [size_t] counters of data in memory are
    [nat].  A [std::set] or [std::map] is a [gmap]/[gset] where only
    membership matters and a sorted list where the code iterates over it.
    Loops that are not structural carry fuel; each of them has a theorem
    that the fuel its caller passes is enough, so running out is not a
    result.  (The depth to which configuration files include each other
    has no bound: [Settings].)

    ** Parts

    libutil:
    - [Bytes], [Strings]: [std::string] primitives, util.cc prefix tests,
      split.hh, strings-inline.hh (tokenizing, splitting, joining);
      [Strings.split_join] is the round trip.
    - [BaseNix32], [BaseN]: base-nix-32.cc, base-n.cc, with round trips and
      the accepted inputs; the [int] accumulators are at their width.
    - [Hashing]: hash.cc over the digest libraries as the class [HashLib]:
      every textual form is parsed back, the parsers throw nothing but
      [BadHash] where they are total, [compressHash] is the xor fold.
    - [CanonPath]: file-path-impl.hh, canon-path.cc, and [canonPath] of
      file-system.cc with symbolic links; canonical paths correspond to lists
      of names; the loop ends on every file system.
    - [Serialise]: serialise.cc.  [Sink] and [Source] are classes, a lawful
      source is its remaining bytes, and each reader is refined to a parser;
      framing, buffering, errors and string lists round trip.
    - [Decimal], [HashSink], [AsyncHash]: std::to_string and its parsing;
      the hashing sink of hash.cc; its variant on a thread of its own, as a
      step relation over the mutex and the condition variable: under every
      schedule it returns the hash of the stream, and it never hangs.
    - [References]: references.cc and rewriteStrings of util.cc: rewriting a
      stream in pieces, scanning it for hashes, hashing it modulo them.
    - [Archive]: archive.cc, memory-source-accessor.cc, fs-sink.hh.  The
      parser equals a grammar-like reference parser, and inverts the writer.
    - [HashPath]: file-content-address.cc.
    - [Disk], [Restore]: what a file system keeps and the system calls on
      descriptors; over it RestoreSink of fs-sink.cc and restorePath of
      archive.cc: which archives are restored, and that what is written
      reads back with the permissions and times the code means.
    - [DiskCalls], [World]: the system calls by name (lstat, chmod, link,
      unlink, rename), what a path shows before and after each, and a monad
      of such calls among other processes that change the disk between any
      two of them, with the logic [keeps] of what survives both.
    - [Graph]: topo-sort.hh and closure.hh.  The order of topological sorting
      and its cycles; the coroutine closure as a step relation over handlers
      run in any order.
    - [ThreadPool]: thread-pool.cc and processGraph of thread-pool.hh as threads
      taking turns at their atomic sections: what a node refers to is
      processed before it, every run ends, and with the right outcome.
    - [Sort]: the sorting functions of sort.hh on arrays of elements that are
      moved about: safe for any comparator, stable sorts for an order.
    - [LRUCache]: lru-cache.hh refines a list of entries in order of use.
    - [FileSystemAt], [PosixAccessor]: opening files beneath a directory
      without following links (unix/file-system-at.cc), in two ways that
      agree, and the accessors of posix-source-accessor.cc with their caches
      of directory descriptors, which refine the accessor of [Archive].

    libstore:
    - [StorePath], [ContentAddress], [StoreDir]: path.cc,
      content-address.cc, store-dir-config.cc and the path functions of
      store-api.cc: names, their parsers and printers, and which store path
      a content gets.
    - [Canonicalise], [Optimise]: posix-fs-canonicalise.cc and
      optimise-store.cc over [World]: no interleaving, refused call or
      exception changes what a path of the store shows.
    - [FileHasher]: the part of local-store.cc that hashes files while an
      archive is restored, on a thread ([AsyncHash]) or inline, and replaces
      them by links into the farm: it restores what [Restore] does, and what
      it captures are the hashes [Optimise] relies on.
    - [Delete]: deletePath of unix/file-system.cc: never anything elsewhere,
      and undisturbed all of the tree.
    - [PathInfo]: path-info.cc and signature.cc.
    - [LocalStore]: the database side of local-store.cc and schema.sql, with
      the path info cache of store-api.cc ([LRUCache]).  Invariant: the
      tables satisfy their constraints and references have no cycles but
      self-references.  Registration is all or nothing and its paths can be
      queried back; invalidation fails exactly when referrers are left.
    - [Verify]: verifyAllValidPaths of local-store.cc: what it removes from
      the database and when it reports errors.
    - [AddToStore]: addToStore of local-store.cc, the composition of
      [Delete], [Restore], [HashSink], [Canonicalise], [Optimise] and
      [LocalStore]: whatever fails and whatever others do meanwhile, the
      object of every valid path has the hash and size of its row.
    - [AddFromDump]: addToStoreFromDump of local-store.cc and what it uses of
      file-system.cc (createTempDir, writeFile, moveFile): the same for an
      object whose path is its contents' address, in memory or through a
      temporary directory of the store.
    - [Settings]: configuration.cc, config-global.cc, config-impl.hh and
      [loadConfFile]: settings and their names, the files that assign to them,
      late registration.  The global configuration that is written to a file
      and read back is restored.
    - [Schema]: the constructor of LocalStore from the big lock on, getSchema,
      openDB and upgradeDBSchema: any number of processes that open a store
      and upgrade its database; the last two are interleaved statements and
      system calls.
    - [Pool]: pool.hh: threads that share a bounded number of resources:
      exclusion, capacity, and no lost wake-up.
    - [PathLocks]: unix/pathlocks.cc: any number of processes that lock sets of
      paths by lock files, which are deleted: exclusion, and no deadlock.
    - [GCStore]: the queries the collector makes, as the class [GCStore] with
      laws [GCStoreLaws], and misc.cc ([computeFSClosure], [topoSortPaths])
      over it, on top of [Graph].
    - [GC]: gc.cc [collectGarbage] over any [GCStoreLaws], with other
      processes interleaved: they register temporary roots, wake the
      collector and change the store between any two atomic actions.  Safety:
      nothing a root reaches is deleted.  Liveness: whoever waits for the
      collector is answered.  [GCComplete]: undisturbed, it deletes all and
      only what no root reaches.
    - [TempRoots]: the other side of that: addTempRoot, the files and the
      socket through which processes tell the collector what they use, and
      findTempRoots, as steps between system calls: a root is safe when
      addTempRoot returns, but for two races, which are exhibited.
    - [LocalStoreGC]: [LocalStore] is an instance of [GCStoreLaws], so the
      theorems hold of it; concrete collections are evaluated there.

    ** Fuel

    [canonPath] ends within the number of links it may follow (1024) times
    the length of their targets, plus the length of the path; the readers of
    [Serialise] are given the number of bytes to read and one more, as each
    read of a lawful source delivers a byte or throws; the archive writer and
    parser the depth limit of the format, which the code checks itself, and
    one more, and the loop over the entries of a directory the length of the
    input; [topoSort] the number of items plus two; [closure.hh] is a relation
    whose runs are shown to be finite, and so is that of [ThreadPool] but for
    spurious wake-ups; [verifyPath] the number of valid paths
    and one more; [rewriteStrings] any number, as it may not end, and then it
    ends with enough of it or never; canonicalising, optimising and deleting
    trees the depth of the tree; the traversals of the collector are
    bounded by the number of paths.

    ** Not modelled

    Messages, traces, logging and progress; terminals; processes, signals,
    descriptors and sockets; JSON.  They have no
    effect on what is proved here, or are the operating system.  The digest
    libraries, SQLite and the file system of the machine are parameters or
    abstract state with their documented behaviour: the calls of the C library
    are modelled as POSIX documents them, without owners, access control
    lists, extended attributes, fsync, and disks that are full or fail
    (other than by refusing a call). *)

From stdpp Require Export base tactics list option numbers strings.
From stdpp Require Export gmap.
From Stdlib Require Export Ascii Lia.

#[export] Set Default Proof Using "Type".

(** ** Bytes and strings

    A [std::string] is a [list ascii] (an [ascii] is eight bits).  [ #"text"]
    is the string literal.  [Zb] and [bZ] pass between a [char] read as
    [unsigned char] and its value; [bZ] truncates like a C++ conversion. *)

Declare Scope nix_scope.
Delimit Scope nix_scope with nix.
Abbreviation bytes := (list ascii).
Definition lit (s : string) : bytes := String.list_ascii_of_string s.
Notation "# s" := (lit s%string) (at level 8, s at level 0, format "# s") : nix_scope.
Open Scope nix_scope.

Definition Zb (c : ascii) : Z := Z.of_N (N_of_ascii c).
Definition bZ (z : Z) : ascii := ascii_of_N (Z.to_N (z mod 256)).

(** The value of a plain [char] on the supported (x86-64, AArch64 with
    [-fsigned-char]) platforms, where [char] is signed. *)
Definition sb (c : ascii) : Z := if decide (Zb c < 128)%Z then Zb c else (Zb c - 256)%Z.

Lemma Zb_range c : (0 <= Zb c < 256)%Z.
Proof.
  unfold Zb. split; [lia|].
  change 256%Z with (Z.of_N 256). apply N2Z.inj_lt.
  destruct c as [[] [] [] [] [] [] [] []]; reflexivity.
Qed.

Lemma bZ_Zb c : bZ (Zb c) = c.
Proof.
  unfold bZ, Zb. rewrite Z.mod_small by apply Zb_range.
  rewrite N2Z.id. apply ascii_N_embedding.
Qed.

Lemma Zb_bZ z : Zb (bZ z) = (z mod 256)%Z.
Proof.
  unfold bZ, Zb.
  assert (0 <= z mod 256 < 256)%Z by (apply Z.mod_pos_bound; lia).
  rewrite N_ascii_embedding; lia.
Qed.

Lemma Zb_inj a b : Zb a = Zb b -> a = b.
Proof. intros H. rewrite <- (bZ_Zb a), <- (bZ_Zb b). by rewrite H. Qed.

#[export] Instance Zb_Inj : Inj (=) (=) Zb.
Proof. intros a b. apply Zb_inj. Qed.

(** Characters are compared by value in the range tests of the code. *)
Definition char_leb (a b : ascii) : bool := (Zb a <=? Zb b)%Z.
Definition in_range (lo hi c : ascii) : bool := char_leb lo c && char_leb c hi.

(** A property of all characters is checked by running through them. *)
Lemma forall_char (P : ascii -> bool) :
  forallb P (ascii_of_nat <$> seq 0 256) = true -> forall c, P c = true.
Proof.
  rewrite forallb_forall. intros HP c. apply HP, list_elem_of_In, list_elem_of_fmap.
  exists (nat_of_ascii c). rewrite ascii_nat_embedding. split; [done|].
  apply elem_of_seq. pose proof (Zb_range c) as Hr. unfold Zb in Hr. unfold nat_of_ascii. lia.
Qed.

(** Closes a decidable goal about the character [c] that way. *)
Ltac by_chars c :=
  match goal with |- ?P => refine (proj1 (bool_decide_eq_true P) _) end;
  revert c;
  match goal with |- forall c, @?P c = true => apply (forall_char P) end;
  vm_cast_no_check (eq_refl true).

(** ** Fixed-width integers *)

Definition u32 (z : Z) : Z := (z mod 2 ^ 32)%Z.
Definition u64 (z : Z) : Z := (z mod 2 ^ 64)%Z.
Definition i32 (z : Z) : Z := let r := u32 z in if decide (r < 2 ^ 31)%Z then r else (r - 2 ^ 32)%Z.

Lemma u32_small z : (0 <= z < 2 ^ 32)%Z -> u32 z = z.
Proof. intros H. by apply Z.mod_small. Qed.

Lemma u64_small z : (0 <= z < 2 ^ 64)%Z -> u64 z = z.
Proof. intros H. by apply Z.mod_small. Qed.

Lemma i32_small z : (0 <= z < 2 ^ 31)%Z -> i32 z = z.
Proof. intros H. unfold i32. rewrite u32_small by lia. case_decide; lia. Qed.

Lemma u64_range z : (0 <= u64 z < 2 ^ 64)%Z.
Proof. apply Z.mod_pos_bound. lia. Qed.

(** ** Exceptions and the error monad

    One constructor per exception class the modelled code throws; the
    formatted messages are not modelled.  [AssertFailed] is a failing
    [assert] or [unreachable()]: the process aborts and no handler runs. *)

Inductive exn :=
  | Error | UsageError | FormatError | BadHash
  | BadStorePath | BadStorePathName | BadCanonPath
  | SerialisationError | EndOfFile
  | InvalidPath | PathInUse | GCLimitReached | SQLiteError | SystemError | Unsupported
  | FileNotFound | NotASymlink | NotADirectory | NotARegularFile | SymlinkNotAllowed
  | OutOfRange
  | AssertFailed.

#[export] Instance exn_eq_dec : EqDecision exn.
Proof. solve_decision. Defined.

(** [catch (C & e)] selects the classes derived from [C]
    ([MakeError (newClass, superClass)]); [GCLimitReached] derives from none. *)
Definition is_Error (e : exn) : bool :=
  match e with OutOfRange | GCLimitReached | AssertFailed => false | _ => true end.
Definition is_BadStorePath (e : exn) : bool :=
  match e with BadStorePath | BadStorePathName => true | _ => false end.
Definition is_SourceAccessorError (e : exn) : bool :=
  match e with
  | FileNotFound | NotASymlink | NotADirectory | NotARegularFile => true
  | _ => false
  end.

Inductive result (A : Type) := Ok (a : A) | Throw (e : exn).
Arguments Ok {A} a.
Arguments Throw {A} e.

#[export] Instance result_eq_dec `{EqDecision A} : EqDecision (result A).
Proof. solve_decision. Defined.

#[export] Instance result_ret : MRet result := fun A => @Ok A.
#[export] Instance result_bind : MBind result := fun A B f m =>
  match m with Ok a => f a | Throw e => Throw e end.
#[export] Instance result_fmap : FMap result := fun A B f m =>
  match m with Ok a => Ok (f a) | Throw e => Throw e end.

(** [if (b) throw e;] *)
Definition throw_if (b : bool) (e : exn) : result unit := if b then Throw e else Ok ().
(** [assert(b)] *)
Definition assertb (b : bool) : result unit := throw_if (negb b) AssertFailed.
Definition catch {A} (m : result A) (p : exn -> bool) (h : exn -> result A) : result A :=
  match m with Ok a => Ok a | Throw e => if p e then h e else Throw e end.
Definition from_opt {A} (e : exn) (o : option A) : result A :=
  match o with Some a => Ok a | None => Throw e end.

(** A range-for over a container whose body may throw. *)
Fixpoint foreach {A S} (f : S -> A -> result S) (s : S) (l : list A) : result S :=
  match l with
  | [] => Ok s
  | x :: l => s' ← f s x; foreach f s' l
  end.

Lemma bind_Ok {A B} (m : result A) (f : A -> result B) b :
  (m ≫= f) = Ok b <-> exists a, m = Ok a /\ f a = Ok b.
Proof. destruct m as [a|e]; simpl; split; [eauto|by intros (?&[= ->]&?)|done|by intros (?&?&?)]. Qed.

Lemma throw_if_Ok b e u : throw_if b e = Ok u <-> b = false.
Proof. by destruct b, u. Qed.

Lemma assertb_Ok b u : assertb b = Ok u <-> b = true.
Proof. by destruct b, u. Qed.

Lemma from_opt_Ok {A} e (o : option A) a : from_opt e o = Ok a <-> o = Some a.
Proof. destruct o; simpl; split; congruence. Qed.

Lemma foreach_app {A S} (f : S -> A -> result S) s l1 l2 :
  foreach f s (l1 ++ l2) = (foreach f s l1 ≫= fun s' => foreach f s' l2).
Proof.
  revert s; induction l1 as [|x l1 IH]; intros s; simpl; [done|].
  destruct (f s x); simpl; auto.
Qed.

(** An invariant of the accumulator is kept by a loop that returns. *)
Lemma foreach_inv {A S} (P : S -> Prop) (f : S -> A -> result S) l s s' :
  (forall s x s', x ∈ l -> P s -> f s x = Ok s' -> P s') ->
  P s -> foreach f s l = Ok s' -> P s'.
Proof.
  revert s; induction l as [|x l IH]; intros s Hf Hs Hr; simpl in Hr; [by simplify_eq|].
  apply bind_Ok in Hr as (s1 & H1 & Hr).
  eapply (IH s1); eauto; intros; eapply Hf; eauto; set_solver.
Qed.

Lemma tc_mono {A} (R Q : A -> A -> Prop) x y : (forall a b, R a b -> Q a b) -> tc R x y -> tc Q x y.
Proof. intros HRQ. induction 1; [apply tc_once|eapply tc_l]; eauto. Qed.

Lemma rtc_mono {A} (R Q : A -> A -> Prop) x y : (forall a b, R a b -> Q a b) -> rtc R x y -> rtc Q x y.
Proof. intros HRQ. induction 1; [done|eapply rtc_l]; eauto. Qed.

(** ** State and exceptions

    A computation on a state of type [St] that may throw: the changes made
    before an exception stay. *)

Definition ST (St A : Type) : Type := St -> result A * St.
#[export] Instance ST_ret {St} : MRet (ST St) := fun A a s => (Ok a, s).
#[export] Instance ST_bind {St} : MBind (ST St) := fun A B f m s =>
  match m s with (Ok a, s) => f a s | (Throw e, s) => (Throw e, s) end.
Definition slift {St A} (r : result A) : ST St A := fun s => (r, s).
Definition gets {St A} (f : St -> A) : ST St A := fun s => (Ok (f s), s).
Definition modify {St} (f : St -> St) : ST St unit := fun s => (Ok (), f s).

Fixpoint sforeach {St A} (f : A -> ST St unit) (l : list A) : ST St unit :=
  match l with [] => mret () | x :: l => _ ← f x; sforeach f l end.

(** [try { m } catch (e : p) { h }] *)
Definition scatch {St A} (m : ST St A) (p : exn -> bool) (h : exn -> ST St A) : ST St A := fun s =>
  match m s with (Throw e, s') => if p e then h e s' else (Throw e, s') | r => r end.
(** [Finally]: [f] is run however [m] is left. *)
Definition finally {St A} (m : ST St A) (f : St -> St) : ST St A := fun s => let '(r, s') := m s in (r, f s').

Lemma ST_bind_Ok {St A B} (m : ST St A) (f : A -> ST St B) s a s' : m s = (Ok a, s') -> (m ≫= f) s = f a s'.
Proof. unfold mbind, ST_bind. by intros ->. Qed.
Lemma ST_bind_Throw {St A B} (m : ST St A) (f : A -> ST St B) s e s' : m s = (Throw e, s') -> (m ≫= f) s = (Throw e, s').
Proof. unfold mbind, ST_bind. by intros ->. Qed.
Lemma slift_bind_Ok {St A B} (a : A) (f : A -> ST St B) s : (slift (Ok a) ≫= f) s = f a s.
Proof. done. Qed.
Lemma slift_bind_Throw {St A B} e (f : A -> ST St B) s : (slift (Throw e) ≫= f) s = (Throw e, s).
Proof. done. Qed.
Lemma gets_bind {St A B} g (f : A -> ST St B) s : (gets g ≫= f) s = f (g s) s.
Proof. done. Qed.
Lemma modify_bind {St B} g (f : unit -> ST St B) (s : St) : (modify g ≫= f) s = f () (g s).
Proof. done. Qed.

(** What a computation leads to from a state: [Q] of what it returns, [E] of
    what it throws. *)
Definition leads {St A} (m : ST St A) (s : St) (Q : A -> St -> Prop) (E : exn -> St -> Prop) : Prop :=
  match m s with (Ok a, s') => Q a s' | (Throw e, s') => E e s' end.

Lemma leads_bind {St A B} (m : ST St A) (f : A -> ST St B) s Q E :
  leads m s (fun a s' => leads (f a) s' Q E) E -> leads (m ≫= f) s Q E.
Proof. unfold leads, mbind, ST_bind. by destruct (m s) as [[a|e] s']. Qed.

Lemma leads_mono {St A} (m : ST St A) s (Q Q' : A -> St -> Prop) (E E' : exn -> St -> Prop) :
  leads m s Q E -> (forall a s', Q a s' -> Q' a s') -> (forall e s', E e s' -> E' e s') -> leads m s Q' E'.
Proof. unfold leads. destruct (m s) as [[a|e] s']; auto. Qed.

Lemma leads_scatch {St A : Type} (m : ST St A) (p : exn -> bool) (h : exn -> ST St A) s (Q : A -> St -> Prop) (E : exn -> St -> Prop) :
  leads m s Q (fun e s' => if p e then leads (h e) s' Q E else E e s') -> leads (scatch m p h) s Q E.
Proof. unfold leads, scatch. destruct (m s) as [[a|e] s']; [done|]. by destruct (p e). Qed.

Lemma leads_finally {St A} (m : ST St A) f s (Q : A -> St -> Prop) (E : exn -> St -> Prop) :
  leads m s (fun a s' => Q a (f s')) (fun e s' => E e (f s')) -> leads (finally m f) s Q E.
Proof. unfold leads, finally. by destruct (m s) as [[a|e] s']. Qed.

(** A computation on a part of the state. *)
Definition zoom {St T A} (part : St -> T) (put : T -> St -> St) (m : ST T A) : ST St A := fun s =>
  let '(r, t) := m (part s) in (r, put t s).
Lemma leads_zoom {St T A} (part : St -> T) put (m : ST T A) s (Q : A -> St -> Prop) (E : exn -> St -> Prop) :
  leads m (part s) (fun a t => Q a (put t s)) (fun e t => E e (put t s)) -> leads (zoom part put m) s Q E.
Proof. unfold leads, zoom. by destruct (m (part s)) as [[a|e] t]. Qed.

(** A loop whose body keeps [P] or fails with [E]. *)
Lemma leads_sforeach {St A} (P : list A -> St -> Prop) (E : exn -> St -> Prop) f (l : list A) s :
  P [] s ->
  (forall before x rest s, l = before ++ x :: rest -> P before s -> leads (f x) s (fun _ => P (before ++ [x])) E) ->
  leads (sforeach f l) s (fun _ => P l) E.
Proof.
  intros Hs Hf. enough (forall l' before s, l = before ++ l' -> P before s ->
    leads (sforeach f l') s (fun _ => P (before ++ l')) E) as Hl by (by apply (Hl l [] s)).
  clear Hs s. induction l' as [|x l' IH]; intros before s Hl Hs; cbn [sforeach].
  - unfold leads. cbn. by rewrite app_nil_r.
  - apply leads_bind. eapply leads_mono; [by eapply Hf| |done]. intros u s1 Hs1; cbn beta in Hs1.
    replace (before ++ x :: l') with ((before ++ [x]) ++ l') in Hl |- * by (by rewrite <- app_assoc). by apply IH.
Qed.

Create HintDb nix.
#[export] Hint Resolve Zb_range : nix.

(** ** Tactics

    [inv_result] decomposes the equations of a monadic run that returned;
    [step] evaluates one [match]/[if]/[decide] of the goal. *)

Ltac inv_result :=
  repeat match goal with
  | H : (_ ≫= _) = Ok _ |- _ => apply bind_Ok in H as (? & ? & H)
  | H : throw_if _ _ = Ok _ |- _ => apply throw_if_Ok in H
  | H : assertb _ = Ok _ |- _ => apply assertb_Ok in H
  | H : from_opt _ _ = Ok _ |- _ => apply from_opt_Ok in H
  | H : Ok _ = Ok _ |- _ => injection H as H; subst
  | H : Throw _ = Ok _ |- _ => discriminate H
  end.

Ltac step :=
  match goal with
  | |- context [decide ?P] => destruct (decide P)
  | |- context [match ?x with _ => _ end] => destruct x eqn:?
  end.

(** Case analysis on the boolean connectives left in the context. *)
Ltac bool_cases :=
  repeat match goal with
  | H : _ && _ = true |- _ => apply andb_true_iff in H as [? ?]
  | H : _ || _ = false |- _ => apply orb_false_iff in H as [? ?]
  | H : negb _ = true |- _ => apply negb_true_iff in H
  | H : negb _ = false |- _ => apply negb_false_iff in H
  | H : bool_decide _ = true |- _ => apply bool_decide_eq_true in H
  | H : bool_decide _ = false |- _ => apply bool_decide_eq_false in H
  end.
