(* ===== verification/Bytes.v ===== *)
(** * Bytes: strings as sequences of bytes

    The [std::string] primitives the components share: searching
    ([find], [rfind]), prefixes and suffixes ([hasPrefix], [hasSuffix] of
    util.cc), [splitPrefixTo]/[splitPrefix] of split.hh, the lexicographic
    order of [std::string] (unsigned bytes), sets of strings in iteration
    order, and the little-endian reading of a byte string. *)

From S2P Require Export Prelude.
From stdpp Require Export sorting.
Local Open Scope Z_scope.

(** ** Little-endian numbers *)

Fixpoint le_num (s : bytes) : Z :=
  match s with
  | [] => 0
  | c :: s => Zb c + 256 * le_num s
  end.

Fixpoint le_bytes (n : nat) (z : Z) : bytes :=
  match n with
  | O => []
  | S n => bZ z :: le_bytes n (z / 256)
  end.

Lemma length_le_bytes n z : length (le_bytes n z) = n.
Proof. revert z; induction n; intros; simpl; auto. Qed.

Lemma le_num_range s : 0 <= le_num s < 2 ^ (8 * Z.of_nat (length s)).
Proof.
  induction s as [|c s IH]; [simpl; lia|].
  pose proof (Zb_range c). cbn [le_num length].
  replace (8 * Z.of_nat (S (length s))) with (8 + 8 * Z.of_nat (length s)) by lia.
  rewrite Z.pow_add_r by lia. change (2 ^ 8) with 256. lia.
Qed.

Lemma le_num_le_bytes n z : 0 <= z < 2 ^ (8 * Z.of_nat n) -> le_num (le_bytes n z) = z.
Proof.
  revert z; induction n as [|n IH]; intros z Hz; [simpl in *; lia|].
  cbn [le_num le_bytes]. rewrite Zb_bZ.
  replace (8 * Z.of_nat (S n)) with (8 + 8 * Z.of_nat n) in Hz by lia.
  rewrite Z.pow_add_r in Hz by lia. change (2 ^ 8) with 256 in Hz.
  rewrite IH.
  - pose proof (Z.div_mod z 256). lia.
  - split; [apply Z.div_pos; lia|]. apply Z.div_lt_upper_bound; lia.
Qed.

Lemma le_bytes_le_num s : le_bytes (length s) (le_num s) = s.
Proof.
  induction s as [|c s IH]; [done|]. cbn [le_num le_bytes length].
  pose proof (Zb_range c).
  replace ((Zb c + 256 * le_num s) / 256) with (le_num s).
  2: { rewrite Z.mul_comm, Z.div_add by lia. rewrite Z.div_small; lia. }
  rewrite IH. f_equal. apply Zb_inj. rewrite Zb_bZ.
  rewrite Z.mul_comm, Z.mod_add by lia. by apply Z.mod_small.
Qed.

Lemma le_num_inj s t : length s = length t -> le_num s = le_num t -> s = t.
Proof.
  intros Hl Hn. rewrite <- (le_bytes_le_num s), <- (le_bytes_le_num t). by rewrite Hl, Hn.
Qed.

Lemma le_num_app s t : le_num (s ++ t) = le_num s + 2 ^ (8 * Z.of_nat (length s)) * le_num t.
Proof.
  induction s as [|c s IH]; [cbn; lia|].
  cbn [le_num app length]. rewrite IH.
  replace (8 * Z.of_nat (S (length s))) with (8 + 8 * Z.of_nat (length s)) by lia.
  rewrite (Z.pow_add_r 2 8) by lia. change (2 ^ 8) with 256. lia.
Qed.

Lemma le_num_replicate_0 n : le_num (replicate n (bZ 0)) = 0.
Proof. induction n as [|n IH]; [done|]. cbn [replicate le_num]. rewrite IH, Zb_bZ. done. Qed.

(** Bit [8 i + k] of the number is bit [k] of byte [i]. *)
Lemma le_num_testbit s i k :
  0 <= k < 8 ->
  Z.testbit (le_num s) (8 * Z.of_nat i + k) =
  match s !! i with Some c => Z.testbit (Zb c) k | None => false end.
Proof.
  intros Hk. revert i; induction s as [|c s IH]; intros i.
  { by rewrite lookup_nil, Z.testbit_0_l. }
  pose proof (Zb_range c). cbn [le_num].
  assert (Hlow : forall x, Zb c + 256 * x = Z.lor (Zb c) (Z.shiftl x 8)).
  { intros x. rewrite Z.shiftl_mul_pow2 by lia. change (2 ^ 8) with 256.
    pose proof (Z.add_lor_land (Zb c) (x * 256)) as Hadd.
    assert (Z.land (Zb c) (x * 256) = 0) as Hz; [|lia].
    apply Z.bits_inj'. intros n Hn. rewrite Z.land_spec, Z.bits_0.
    change 256 with (2 ^ 8). destruct (decide (n < 8)).
    - by rewrite (Z.mul_pow2_bits_low x) by lia; rewrite andb_false_r.
    - rewrite (Z.bits_above_log2 (Zb c)); [done|lia|].
      destruct (decide (Zb c = 0)) as [->|]; [cbn; lia|].
      apply Z.log2_lt_pow2; [lia|].
      assert (2 ^ 8 <= 2 ^ n) by (apply Z.pow_le_mono_r; lia).
      change (2 ^ 8) with 256 in *. lia. }
  rewrite Hlow, Z.lor_spec. destruct i as [|i].
  - cbn [lookup list_lookup]. replace (8 * Z.of_nat 0 + k) with k by lia.
    rewrite Z.shiftl_spec_low by lia. by rewrite orb_false_r.
  - rewrite Z.shiftl_spec by lia.
    replace (8 * Z.of_nat (S i) + k - 8) with (8 * Z.of_nat i + k) by lia.
    rewrite IH. cbn [lookup list_lookup].
    rewrite (Z.bits_above_log2 (Zb c)); [done|lia|].
    destruct (decide (Zb c = 0)) as [->|]; [cbn; lia|].
    apply Z.log2_lt_pow2; [lia|].
    assert (2 ^ 8 <= 2 ^ (8 * Z.of_nat (S i) + k)) by (apply Z.pow_le_mono_r; lia).
    change (2 ^ 8) with 256 in *. lia.
Qed.

(** Two byte strings of the same length are equal when they have the same bits. *)
Lemma le_num_testbit' s n :
  0 <= n ->
  Z.testbit (le_num s) n =
  match s !! Z.to_nat (n / 8) with Some c => Z.testbit (Zb c) (n mod 8) | None => false end.
Proof.
  intros Hn. rewrite <- (le_num_testbit s (Z.to_nat (n / 8)) (n mod 8)).
  2: apply Z.mod_pos_bound; lia.
  f_equal. pose proof (Z.div_mod n 8). rewrite Z2Nat.id; [lia|]. apply Z.div_pos; lia.
Qed.

(** ** Searching and splitting *)

(** [s.find(c)] *)
Fixpoint find_char (c : ascii) (s : bytes) : option nat :=
  match s with
  | [] => None
  | x :: s => if decide (x = c) then Some O else S <$> find_char c s
  end.

(** [s.rfind(c)] *)
Fixpoint rfind_char (c : ascii) (s : bytes) : option nat :=
  match s with
  | [] => None
  | x :: s =>
      match rfind_char c s with
      | Some i => Some (S i)
      | None => if decide (x = c) then Some O else None
      end
  end.

(** [hasPrefix] and [hasSuffix] of util.cc *)
Definition hasPrefix (s prefix : bytes) : bool :=
  bool_decide (take (length prefix) s = prefix).
Definition hasSuffix (s suffix : bytes) : bool :=
  (length suffix <=? length s)%nat && bool_decide (drop (length s - length suffix) s = suffix).

(** [s.find(pat, pos)] *)
Fixpoint find_sub_from (pat s : bytes) (pos : nat) (skip : nat) : option nat :=
  match skip with
  | S skip => match s with [] => None | _ :: s => find_sub_from pat s (S pos) skip end
  | O => if hasPrefix s pat then Some pos
         else match s with [] => None | _ :: s => find_sub_from pat s (S pos) O end
  end.
Definition find_sub (pat s : bytes) (pos : nat) : option nat := find_sub_from pat s 0 pos.

(** split.hh: on success the prefix and what is left of the view. *)
Definition splitPrefixTo (s : bytes) (separator : ascii) : option (bytes * bytes) :=
  match find_char separator s with
  | Some i => Some (take i s, drop (S i) s)
  | None => None
  end.
Definition splitPrefix (s prefix : bytes) : option bytes :=
  if hasPrefix s prefix then Some (drop (length prefix) s) else None.

Lemma find_char_app c p r : c ∉ p -> find_char c (p ++ c :: r) = Some (length p).
Proof.
  induction p as [|x p IH]; intros Hp; simpl.
  - by rewrite decide_True.
  - apply not_elem_of_cons in Hp as [Hx Hp].
    rewrite decide_False by congruence. by rewrite IH.
Qed.

Lemma find_char_Some c s i :
  find_char c s = Some i ->
  s = take i s ++ c :: drop (S i) s /\ c ∉ take i s /\ (i < length s)%nat.
Proof.
  revert i; induction s as [|x s IH]; intros i; simpl; [done|].
  case_decide; [intros [= <-]; subst; simpl; split_and!; [done|set_solver|lia]|].
  destruct (find_char c s) as [j|]; [|done]. intros [= <-].
  destruct (IH j eq_refl) as (Hs & Hc & Hl). simpl.
  split_and!; [by f_equal|set_solver|lia].
Qed.

Lemma find_char_split c s i :
  find_char c s = Some i -> exists p r, s = p ++ c :: r /\ c ∉ p /\ i = length p.
Proof.
  intros (Hs & Hc & Hl)%find_char_Some. exists (take i s), (drop (S i) s).
  rewrite length_take, Nat.min_l by lia. done.
Qed.

Lemma find_char_None c s : find_char c s = None <-> c ∉ s.
Proof.
  induction s as [|x s IH]; simpl; [set_solver|].
  case_decide; [split; [done|set_solver]|].
  rewrite fmap_None, IH. set_solver.
Qed.

Lemma rfind_char_app c p r : c ∉ r -> rfind_char c (p ++ c :: r) = Some (length p).
Proof.
  assert (forall r, c ∉ r -> rfind_char c r = None) as Hnone.
  { induction r0 as [|x r0 IH]; simpl; [done|]. intros [? ?]%not_elem_of_cons.
    rewrite IH by done. by rewrite decide_False. }
  intros Hr. induction p as [|x p IH]; simpl.
  - rewrite Hnone by done. by rewrite decide_True.
  - by rewrite IH.
Qed.

Lemma rfind_char_Some c s i :
  rfind_char c s = Some i ->
  s = take i s ++ c :: drop (S i) s /\ c ∉ drop (S i) s /\ (i < length s)%nat.
Proof.
  assert (forall r, rfind_char c r = None -> c ∉ r) as Hnone.
  { induction r as [|x r IH]; simpl; [set_solver|].
    destruct (rfind_char c r); [done|]. case_decide; [done|]. set_solver. }
  revert i; induction s as [|x s IH]; intros i; simpl; [done|].
  destruct (rfind_char c s) as [j|] eqn:E.
  - intros [= <-]. destruct (IH j eq_refl) as (Hs & Hc & Hl).
    split_and!; [simpl; by f_equal|done|lia].
  - case_decide; [|done]. intros [= <-]. subst. simpl. rewrite drop_0.
    split_and!; [done|by apply Hnone|lia].
Qed.

Lemma rfind_char_split c s i :
  rfind_char c s = Some i -> exists p r, s = p ++ c :: r /\ c ∉ r /\ i = length p.
Proof.
  intros (Hs & Hc & Hl)%rfind_char_Some. exists (take i s), (drop (S i) s).
  rewrite length_take, Nat.min_l by lia. done.
Qed.

Lemma drop_S_app (c : ascii) p r : drop (S (length p)) (p ++ c :: r) = r.
Proof.
  by rewrite (cons_middle c p r), app_assoc, drop_app_length' by (rewrite length_app; simpl; lia).
Qed.

Lemma splitPrefixTo_app c p r : c ∉ p -> splitPrefixTo (p ++ c :: r) c = Some (p, r).
Proof.
  intros Hp. unfold splitPrefixTo. rewrite find_char_app by done.
  rewrite take_app_length. f_equal. f_equal.
  by rewrite (cons_middle c p r), app_assoc, drop_app_length' by (rewrite length_app; simpl; lia).
Qed.

Lemma splitPrefixTo_None s c : splitPrefixTo s c = None <-> c ∉ s.
Proof. unfold splitPrefixTo. rewrite <- find_char_None. destruct (find_char c s); split; congruence. Qed.

Lemma splitPrefixTo_Some s c p r :
  splitPrefixTo s c = Some (p, r) -> s = p ++ c :: r /\ c ∉ p.
Proof.
  unfold splitPrefixTo. destruct (find_char c s) as [i|] eqn:E; [|done].
  intros [= <- <-]. apply find_char_Some in E as (? & ? & ?). done.
Qed.

Lemma hasPrefix_app p s : hasPrefix (p ++ s) p = true.
Proof. unfold hasPrefix. rewrite take_app_length. by apply bool_decide_eq_true. Qed.

Lemma hasPrefix_true s p : hasPrefix s p = true <-> exists r, s = p ++ r.
Proof.
  split.
  - unfold hasPrefix. intros Hp%bool_decide_eq_true.
    exists (drop (length p) s). rewrite <- Hp at 1. by rewrite take_drop.
  - intros [r ->]. apply hasPrefix_app.
Qed.

Lemma splitPrefix_app p s : splitPrefix (p ++ s) p = Some s.
Proof. unfold splitPrefix. by rewrite hasPrefix_app, drop_app_length. Qed.

Lemma splitPrefix_Some s p r : splitPrefix s p = Some r -> s = p ++ r.
Proof.
  unfold splitPrefix. destruct (hasPrefix s p) eqn:E; [|done].
  apply hasPrefix_true in E as [r' ->]. rewrite drop_app_length. congruence.
Qed.

(** ** The order of [std::string]: lexicographic on unsigned bytes *)

Fixpoint bytes_compare (s t : bytes) : comparison :=
  match s, t with
  | [], [] => Eq
  | [], _ :: _ => Lt
  | _ :: _, [] => Gt
  | a :: s, b :: t => match (Zb a ?= Zb b)%Z with Eq => bytes_compare s t | c => c end
  end.

Definition bytes_lt (s t : bytes) : Prop := bytes_compare s t = Lt.
Definition bytes_le (s t : bytes) : Prop := bytes_compare s t <> Gt.

#[export] Instance bytes_lt_dec s t : Decision (bytes_lt s t).
Proof. unfold bytes_lt. apply _. Defined.
#[export] Instance bytes_le_dec s t : Decision (bytes_le s t).
Proof. unfold bytes_le. apply _. Defined.

Lemma bytes_compare_refl s : bytes_compare s s = Eq.
Proof. induction s; simpl; [done|]. by rewrite Z.compare_refl. Qed.

Lemma bytes_compare_eq s t : bytes_compare s t = Eq -> s = t.
Proof.
  revert t; induction s as [|a s IH]; intros [|b t]; simpl; try done.
  destruct (Z.compare_spec (Zb a) (Zb b)); try done.
  intros ?. f_equal; [by apply Zb_inj|auto].
Qed.

Lemma bytes_compare_antisym s t : bytes_compare t s = CompOpp (bytes_compare s t).
Proof.
  revert t; induction s as [|a s IH]; intros [|b t]; simpl; try done.
  rewrite (Z.compare_antisym (Zb a) (Zb b)). destruct (Zb a ?= Zb b)%Z; simpl; auto.
Qed.

#[export] Instance bytes_lt_trans : Transitive bytes_lt.
Proof.
  unfold bytes_lt. intros s; induction s as [|a s IH]; intros [|b t] [|c u]; simpl; try done.
  destruct (Z.compare_spec (Zb a) (Zb b)), (Z.compare_spec (Zb b) (Zb c)),
    (Z.compare_spec (Zb a) (Zb c)); try lia; try done; eauto.
Qed.

#[export] Instance bytes_lt_irrefl : Irreflexive bytes_lt.
Proof. intros s. unfold complement, bytes_lt. by rewrite bytes_compare_refl. Qed.

Lemma bytes_le_lt s t : bytes_le s t <-> bytes_lt s t \/ s = t.
Proof.
  unfold bytes_le, bytes_lt. split.
  - destruct (bytes_compare s t) eqn:E; [right; by apply bytes_compare_eq|by left|done].
  - intros [->| ->]; [done|by rewrite bytes_compare_refl].
Qed.

#[export] Instance bytes_le_po : PartialOrder bytes_le.
Proof.
  split; [split|].
  - intros s. apply bytes_le_lt. by right.
  - intros s t u Hst Htu. apply bytes_le_lt in Hst as [Hst| ->]; [|done].
    apply bytes_le_lt in Htu as [Htu| <-]; apply bytes_le_lt; left; [|done]. by etrans.
  - intros s t Hst Hts. apply bytes_le_lt in Hst as [Hst| ->]; [|done].
    exfalso. apply Hts. rewrite bytes_compare_antisym, Hst. done.
Qed.

#[export] Instance bytes_le_total : Total bytes_le.
Proof.
  intros s t. unfold bytes_le. rewrite (bytes_compare_antisym s t).
  destruct (bytes_compare s t); simpl; auto.
Qed.

Lemma bytes_lt_not_le s t : bytes_lt s t <-> ~ bytes_le t s.
Proof.
  unfold bytes_lt, bytes_le. rewrite (bytes_compare_antisym s t).
  destruct (bytes_compare s t); simpl; split; try done; intros H; by contradict H.
Qed.

(** ** [std::set<std::string>]: iteration is in increasing order *)

Definition set_iter (X : gset bytes) : list bytes := merge_sort bytes_le (elements X).

Lemma elem_of_set_iter x X : x ∈ set_iter X <-> x ∈ X.
Proof. unfold set_iter. rewrite merge_sort_Permutation. apply elem_of_elements. Qed.

Lemma NoDup_set_iter X : NoDup (set_iter X).
Proof. unfold set_iter. rewrite merge_sort_Permutation. apply NoDup_elements. Qed.

Lemma set_iter_sorted X : Sorted bytes_le (set_iter X).
Proof. apply Sorted_merge_sort, _. Qed.

Lemma set_iter_singleton x : set_iter {[ x ]} = [x].
Proof. unfold set_iter. by rewrite elements_singleton. Qed.

(** A strictly increasing list is determined by its elements. *)
Lemma set_iter_of_list l : Sorted bytes_le l -> NoDup l -> set_iter (list_to_set l) = l.
Proof.
  intros Hs Hn. apply (Sorted_unique bytes_le); [apply set_iter_sorted|done|].
  unfold set_iter. rewrite merge_sort_Permutation. by apply elements_list_to_set.
Qed.

(** A sorted list has no duplicates. *)
Lemma sorted_NoDup (l : list bytes) : StronglySorted bytes_lt l -> NoDup l.
Proof.
  induction l as [|x l IH]; [constructor|]. intros [Hx Hs]%StronglySorted_cons. constructor; [|by apply IH].
  intros Hin. rewrite Forall_forall in Hx. by apply (irreflexivity bytes_lt x), Hx.
Qed.
