(* ===== verification/Decimal.v ===== *)
(** * Decimal: numbers in decimal notation

    What [fmt("%d", n)] prints for an unsigned number, and reading it back:
    [string2Int] of util.cc over [boost::lexical_cast], which is the class
    [LexicalCast]. *)

From S2P Require Export Bytes.
Local Open Scope Z_scope.

(** ** Printing *)

Definition digit (d : Z) : ascii := bZ (48 + d).
Definition is_digit (c : ascii) : bool := (48 <=? Zb c) && (Zb c <=? 57).

(** [fuel] bounds the number of digits. *)
Fixpoint dec_digits (fuel : nat) (n : Z) : bytes :=
  match fuel with
  | O => []
  | S fuel => (if n <? 10 then [] else dec_digits fuel (n / 10)) ++ [digit (n mod 10)]
  end.
(** [fmt("%d", n)] for an [n] of at most 64 bits. *)
Definition dec (n : Z) : bytes := dec_digits 20 n.

(** The number a string of digits denotes. *)
Definition undec (s : bytes) : Z := foldl (fun a c => 10 * a + (Zb c - 48)) 0 s.

Lemma Zb_digit d : 0 <= d < 10 -> Zb (digit d) = 48 + d.
Proof. intros Hd. unfold digit. rewrite Zb_bZ. apply Z.mod_small. lia. Qed.

Lemma is_digit_digit d : 0 <= d < 10 -> is_digit (digit d) = true.
Proof. intros Hd. unfold is_digit. rewrite Zb_digit by done. apply andb_true_iff; split; apply Z.leb_le; lia. Qed.

Lemma undec_app s t : undec (s ++ t) = foldl (fun a c => 10 * a + (Zb c - 48)) (undec s) t.
Proof. apply foldl_app. Qed.

Lemma undec_digits fuel n : 0 <= n < 10 ^ Z.of_nat fuel -> undec (dec_digits fuel n) = n.
Proof.
  revert n; induction fuel as [|fuel IH]; intros n Hn; [cbn in Hn |- *; lia|].
  cbn [dec_digits]. rewrite undec_app. cbn [foldl].
  pose proof (Z.mod_pos_bound n 10). rewrite Zb_digit by lia.
  destruct (Z.ltb_spec n 10) as [Hlt|Hge].
  - rewrite Z.mod_small by lia. cbn. lia.
  - replace (Z.of_nat (S fuel)) with (Z.of_nat fuel + 1) in Hn by lia. rewrite Z.pow_add_r in Hn by lia.
    rewrite IH; [|split; [apply Z.div_pos; lia|apply Z.div_lt_upper_bound; lia]].
    pose proof (Z.div_mod n 10). lia.
Qed.

Lemma undec_dec n : 0 <= n < 2 ^ 64 -> undec (dec n) = n.
Proof. intros Hn. apply undec_digits. change (10 ^ Z.of_nat 20) with 100000000000000000000. lia. Qed.

Lemma dec_digits_all fuel n : 0 <= n -> Forall (fun c => is_digit c = true) (dec_digits fuel n).
Proof.
  revert n; induction fuel as [|fuel IH]; intros n Hn; [constructor|]. cbn [dec_digits].
  apply Forall_app; split.
  - destruct (n <? 10); [constructor|]. apply IH, Z.div_pos; lia.
  - repeat constructor. apply is_digit_digit, Z.mod_pos_bound. lia.
Qed.

Lemma dec_all n : 0 <= n -> Forall (fun c => is_digit c = true) (dec n).
Proof. apply dec_digits_all. Qed.

Lemma dec_inj m n : 0 <= m < 2 ^ 64 -> 0 <= n < 2 ^ 64 -> dec m = dec n -> m = n.
Proof. intros Hm Hn He. by rewrite <- (undec_dec m), He, undec_dec. Qed.

Lemma dec_not_nil n : dec n <> [].
Proof. unfold dec. cbn [dec_digits]. by intros [_ ?]%app_eq_nil. Qed.

(** ** Reading *)

(** [boost::lexical_cast<N>] to an unsigned type with the values below [max],
    [None] where it throws [bad_lexical_cast]. *)
Class LexicalCast := lexical_cast : forall max : Z, bytes -> option Z.
Class LexicalCastLaws `{LexicalCast} : Prop := {
  lexical_cast_dec : forall max n, 0 <= n < max -> max <= 2 ^ 64 -> lexical_cast max (dec n) = Some n;
  lexical_cast_range : forall max s n, lexical_cast max s = Some n -> 0 <= n < max;
}.

(** [string2Int<N>] for an unsigned [N]. *)
Definition string2Int `{LexicalCast} (max : Z) (s : bytes) : option Z :=
  if bool_decide (take 1 s = #"-") then None else lexical_cast max s.

(** A model of the laws: digits only, in range. *)
Definition digits_cast : LexicalCast := fun max s =>
  if negb (forallb is_digit s) || bool_decide (s = []) || (max <=? undec s) then None else Some (undec s).

Lemma undec_nonneg s : Forall (fun c => is_digit c = true) s -> 0 <= undec s.
Proof.
  unfold undec. intros Hs. assert (forall a, 0 <= a -> 0 <= foldl (fun a c => 10 * a + (Zb c - 48)) a s) as H; [|by apply H].
  induction Hs as [|c s Hc Hs IH]; intros a Ha; cbn [foldl]; [done|]. apply IH.
  unfold is_digit in Hc. apply andb_true_iff in Hc as [?%Z.leb_le _]. lia.
Qed.

Lemma forallb_digits s : forallb is_digit s = true <-> Forall (fun c => is_digit c = true) s.
Proof. rewrite forallb_forall, Forall_forall. by setoid_rewrite list_elem_of_In. Qed.

Lemma digits_cast_laws : @LexicalCastLaws digits_cast.
Proof.
  split; unfold lexical_cast, digits_cast.
  - intros max n Hn Hm. rewrite (proj2 (forallb_digits _)) by (apply dec_all; lia).
    rewrite bool_decide_eq_false_2 by apply dec_not_nil. rewrite undec_dec by lia. cbn.
    by rewrite (proj2 (Z.leb_gt _ _)) by lia.
  - intros max s n. destruct (forallb is_digit s) eqn:Hs; cbn; [|done].
    destruct (bool_decide (s = [])); cbn; [done|]. destruct (Z.leb_spec max (undec s)); [done|]. intros [= <-].
    split; [by apply undec_nonneg, forallb_digits|done].
Qed.

Lemma string2Int_dec `{LexicalCastLaws} max n : 0 <= n < max -> max <= 2 ^ 64 -> string2Int max (dec n) = Some n.
Proof.
  intros Hn Hm. unfold string2Int. rewrite bool_decide_eq_false_2; [by apply lexical_cast_dec|].
  intros Ht. pose proof (dec_all n ltac:(lia)) as Hd. destruct (dec n) as [|c s]; [done|].
  cbn in Ht. injection Ht as ->. apply Forall_inv in Hd. done.
Qed.
