(* ===== verification/BaseNix32.v ===== *)
(** * BaseNix32: the base-32 encoding of store path hashes

    libutil/base-nix-32.cc and base-nix-32.hh.  Loop counters keep the widths
    of the source ([unsigned int], [int], [size_t]).  [decode_encode] is the
    round trip, [decode_error] says which inputs are refused. *)

From S2P Require Export Bytes.
Local Open Scope Z_scope.

Ltac Zify.zify_post_hook ::= Z.to_euclidean_division_equations.

(** [bs.data()[i]] for an index the callers keep in range. *)
Definition byte_at (s : bytes) (i : nat) : Z := default 0 (Zb <$> s !! i).

(** [res[i] |= x] on a [std::string] *)
Definition or_at (i : nat) (x : Z) (s : bytes) : bytes :=
  alter (fun c => bZ (Z.lor (Zb c) x)) i s.

Lemma byte_at_range s i : 0 <= byte_at s i < 256.
Proof. unfold byte_at. destruct (s !! i) as [c|]; simpl; [apply Zb_range|lia]. Qed.

Lemma byte_testbit_high x k : 0 <= x < 256 -> 8 <= k -> Z.testbit x k = false.
Proof.
  intros Hx Hk. apply Z.bits_above_log2; [lia|].
  destruct (decide (x = 0)) as [->|]; [cbn; lia|].
  apply Z.log2_lt_pow2; [lia|]. assert (2 ^ 8 <= 2 ^ k) by (apply Z.pow_le_mono_r; lia).
  change (2 ^ 8) with 256 in *. lia.
Qed.

Lemma testbit_mod256 x k : 0 <= k -> Z.testbit (x mod 256) k = bool_decide (k < 8) && Z.testbit x k.
Proof.
  intros Hk. change 256 with (2 ^ 8). case_bool_decide.
  - by rewrite Z.mod_pow2_bits_low.
  - by rewrite Z.mod_pow2_bits_high by lia.
Qed.

Lemma lor_ge_r a b : 0 <= a -> 0 <= b -> b <= Z.lor a b.
Proof.
  intros Ha Hb. apply Z.ldiff_le; [by apply Z.lor_nonneg|].
  apply Z.bits_inj'. intros k Hk. rewrite Z.ldiff_spec, Z.lor_spec, Z.bits_0.
  by destruct (Z.testbit a k), (Z.testbit b k).
Qed.

Lemma length_or_at i x s : length (or_at i x s) = length s.
Proof. apply length_alter. Qed.

Lemma le_num_or_at i x s :
  0 <= x < 256 -> (i < length s)%nat ->
  le_num (or_at i x s) = Z.lor (le_num s) (Z.shiftl x (8 * Z.of_nat i)).
Proof.
  intros Hx Hi. apply Z.bits_inj'. intros n Hn.
  rewrite Z.lor_spec, Z.shiftl_spec by done. rewrite !le_num_testbit' by done.
  unfold or_at. pose proof (Z.div_mod n 8). pose proof (Z.mod_pos_bound n 8).
  destruct (decide (i = Z.to_nat (n / 8))) as [->|Hne].
  - rewrite list_lookup_alter_eq. apply lookup_lt_is_Some in Hi as [c Hc].
    rewrite Hc. simpl. rewrite Zb_bZ, testbit_mod256 by lia.
    rewrite bool_decide_eq_true_2 by lia. rewrite andb_true_l, Z.lor_spec.
    f_equal. f_equal. rewrite Z2Nat.id by (apply Z.div_pos; lia). lia.
  - rewrite list_lookup_alter_ne by done.
    assert (Z.testbit x (n - 8 * Z.of_nat i) = false) as ->; [|by rewrite orb_false_r].
    destruct (decide (n < 8 * Z.of_nat i)).
    + by rewrite Z.testbit_neg_r by lia.
    + apply byte_testbit_high; [done|]. lia.
Qed.

Lemma le_num_resize n s :
  (length s <= n)%nat -> le_num (resize n (bZ 0) s) = le_num s.
Proof.
  intros Hn. rewrite resize_ge by done. rewrite le_num_app, le_num_replicate_0. lia.
Qed.

Module BaseNix32.

Definition characters : bytes := #"0123456789abcdfghijklmnpqrsvwxyz".

Definition invalid : Z := 0xFF.

Definition reverseMap : list Z :=
  foldl (fun map i =>
           match characters !! i with
           | Some c => <[Z.to_nat (Zb c) := Z.of_nat i]> map
           | None => map
           end)
        (replicate 256 invalid) (seq 0 32).

Definition lookupReverse (base32 : ascii) : option Z :=
  let digit := default invalid (reverseMap !! Z.to_nat (Zb base32)) in
  if decide (digit = invalid) then None else Some digit.

Arguments lookupReverse : simpl never.

(** [size_t] arithmetic: an [originalLength] of 0 wraps around. *)
Definition encodedLength (originalLength : nat) : Z :=
  u64 (u64 (Z.of_nat originalLength * 8 - 1) / 5 + 1).

(** The character pushed for the counter value [n]. *)
Definition encode_char (bs : bytes) (n : nat) : ascii :=
  let b := u32 (Z.of_nat n * 5) in
  let i := Z.to_nat (b / 8) in
  let j := b mod 8 in
  let c := Z.lor (Z.shiftr (byte_at bs i) j)
             (if (length bs - 1 <=? i)%nat then 0
              else Z.shiftl (byte_at bs (S i)) (8 - j) mod 256) in
  default zero (characters !! Z.to_nat (Z.land c 0x1f)).

Definition encode (bs : bytes) : result bytes :=
  if decide (length bs = 0%nat) then Ok []
  else
    let len := encodedLength (length bs) in
    _ ← assertb (negb (len =? 0));
    Ok (encode_char bs <$> reverse (seq 0 (Z.to_nat (i32 len)))).

Definition decode_step (res : bytes) (nc : nat * ascii) : result bytes :=
  digit ← from_opt FormatError (lookupReverse nc.2);
  let b := u32 (Z.of_nat nc.1 * 5) in
  let i := Z.to_nat (b / 8) in
  let j := b mod 8 in
  let res := or_at i (Z.shiftl digit j mod 256) (resize (i + 1) (bZ 0) res) in
  if decide (Z.shiftr digit (8 - j) = 0) then Ok res
  else Ok (or_at (i + 1) (Z.shiftr digit (8 - j) mod 256) (resize (i + 2) (bZ 0) res)).

Definition decode (s : bytes) : result bytes :=
  foreach decode_step [] (zip (seq 0 (length s)) (reverse s)).

(** *** The alphabet and its reverse map *)

Lemma lookupReverse_characters d c :
  lookupReverse c = Some d <-> 0 <= d < 32 /\ characters !! Z.to_nat d = Some c.
Proof.
  assert (forall c, match lookupReverse c with
               | Some d => ((0 <=? d) && (d <? 32))%Z && bool_decide (characters !! Z.to_nat d = Some c)
               | None => bool_decide (c ∉ characters)
               end = true) as Hrev by (apply forall_char; vm_cast_no_check (eq_refl true)).
  assert (forallb (fun k => bool_decide (lookupReverse (default zero (characters !! k)) = Some (Z.of_nat k)))
            (seq 0 32) = true) as Hfwd by vm_cast_no_check (eq_refl true).
  split.
  - intros Hd. specialize (Hrev c). rewrite Hd in Hrev. bool_cases. split; [lia|done].
  - intros [Hd Hc]. rewrite forallb_forall in Hfwd.
    specialize (Hfwd (Z.to_nat d)). rewrite in_seq, Hc in Hfwd.
    change (default zero (Some c)) with c in Hfwd.
    assert (bool_decide (lookupReverse c = Some (Z.of_nat (Z.to_nat d))) = true)
      as ->%bool_decide_eq_true by (apply Hfwd; lia).
    by rewrite Z2Nat.id by lia.
Qed.

Lemma characters_length : length characters = 32%nat.
Proof. reflexivity. Qed.

Lemma encodedLength_small n :
  (n <> 0)%nat -> Z.of_nat n < 2 ^ 32 -> encodedLength n = (Z.of_nat n * 8 - 1) / 5 + 1.
Proof.
  intros Hn Hb. unfold encodedLength. rewrite (u64_small (Z.of_nat n * 8 - 1)) by lia.
  rewrite u64_small; [done|]. lia.
Qed.

(** *** Encoding extracts 5-bit digits of the little-endian number *)

Definition digit (v : Z) (n : nat) : Z := Z.land (Z.shiftr v (5 * Z.of_nat n)) 31.

Lemma digit_range v n : 0 <= digit v n < 32.
Proof.
  unfold digit. change 31 with (Z.ones 5). rewrite Z.land_ones by lia.
  apply Z.mod_pos_bound. lia.
Qed.

Lemma digit_testbit v n k :
  0 <= k -> Z.testbit (digit v n) k = bool_decide (k < 5) && Z.testbit v (k + 5 * Z.of_nat n).
Proof.
  intros Hk. unfold digit. rewrite Z.land_spec, Z.shiftr_spec by done.
  change 31 with (Z.ones 5). case_bool_decide.
  - by rewrite Z.ones_spec_low, andb_true_r by lia.
  - by rewrite Z.ones_spec_high, andb_false_r by lia.
Qed.

Lemma encode_char_digit bs n :
  5 * Z.of_nat n < 2 ^ 32 -> (5 * Z.of_nat n) / 8 < Z.of_nat (length bs) ->
  characters !! Z.to_nat (digit (le_num bs) n) = Some (encode_char bs n).
Proof.
  intros Hn Hi. unfold encode_char. rewrite u32_small by lia.
  rewrite (Z.mul_comm (Z.of_nat n) 5).
  set (b := 5 * Z.of_nat n) in *. set (j := b mod 8).
  set (i := Z.to_nat (b / 8)) in *.
  assert (Hb : b = 8 * Z.of_nat i + j) by (unfold i, j; lia).
  assert (Hj : 0 <= j < 8) by (unfold j; lia).
  match goal with |- context [Z.land ?c 31] => assert (Z.land c 31 = digit (le_num bs) n) as -> end.
  { apply Z.bits_inj'. intros k Hk. rewrite digit_testbit by done. rewrite Z.land_spec.
    change 31 with (Z.ones 5). case_bool_decide; cycle 1.
    { by rewrite Z.ones_spec_high, andb_false_r by lia. }
    rewrite Z.ones_spec_low, andb_true_r, andb_true_l by lia.
    rewrite Z.lor_spec, Z.shiftr_spec by done. fold b. unfold byte_at.
    destruct (decide (k + j < 8)).
    - replace (k + b) with (8 * Z.of_nat i + (k + j)) by lia.
      rewrite le_num_testbit by lia.
      destruct (bs !! i) as [c|] eqn:Hc; [|apply lookup_ge_None in Hc; lia]. simpl.
      assert (Z.testbit (if (length bs - 1 <=? i)%nat then 0 else
        Z.shiftl (default 0 (Zb <$> bs !! S i)) (8 - j) mod 256) k = false) as ->;
        [|by rewrite orb_false_r].
      destruct (Nat.leb_spec (length bs - 1) i); [apply Z.testbit_0_l|].
      rewrite testbit_mod256, Z.shiftl_spec_low by lia. by rewrite andb_false_r.
    - replace (k + b) with (8 * Z.of_nat (S i) + (k + j - 8)) by lia.
      rewrite le_num_testbit by lia.
      rewrite byte_testbit_high; [|apply byte_at_range|lia]. simpl.
      destruct (Nat.leb_spec (length bs - 1) i).
      + rewrite Z.testbit_0_l. destruct (bs !! S i) eqn:Hc; [|done].
        apply lookup_lt_Some in Hc. lia.
      + rewrite testbit_mod256 by lia. rewrite bool_decide_eq_true_2 by lia.
        rewrite Z.shiftl_spec by lia. replace (k - (8 - j)) with (k + j - 8) by lia.
        destruct (bs !! S i); simpl; [done|by rewrite Z.testbit_0_l]. }
  pose proof (digit_range (le_num bs) n).
  destruct (characters !! Z.to_nat (digit (le_num bs) n)) eqn:Hc; [done|].
  apply lookup_ge_None in Hc. rewrite characters_length in Hc. lia.
Qed.

Lemma lookupReverse_encode_char bs n :
  5 * Z.of_nat n < 2 ^ 32 -> (5 * Z.of_nat n) / 8 < Z.of_nat (length bs) ->
  lookupReverse (encode_char bs n) = Some (digit (le_num bs) n).
Proof.
  intros. apply lookupReverse_characters. split; [apply digit_range|by apply encode_char_digit].
Qed.

(** *** Decoding accumulates the digits

    After the digits [0 .. n-1] of [v] the buffer holds [v mod 2^(5n)] and is
    as long as the last digit needs. *)

Definition decoded (v : Z) (n : nat) (res : bytes) : Prop :=
  le_num res = v mod 2 ^ (5 * Z.of_nat n) /\
  match n with
  | O => res = []
  | S m =>
      let i := (5 * Z.of_nat m) / 8 in
      Z.of_nat (length res) =
      i + 1 + (if decide (v mod 2 ^ (5 * Z.of_nat n) < 2 ^ (8 * (i + 1))) then 0 else 1)
  end.

Lemma mod_pow_digit v n :
  v mod 2 ^ (5 * Z.of_nat (S n)) =
  Z.lor (v mod 2 ^ (5 * Z.of_nat n)) (Z.shiftl (digit v n) (5 * Z.of_nat n)).
Proof.
  apply Z.bits_inj'. intros k Hk.
  rewrite Z.lor_spec, Z.shiftl_spec by done.
  destruct (decide (k < 5 * Z.of_nat n)).
  - rewrite !Z.mod_pow2_bits_low by lia. rewrite (Z.testbit_neg_r (digit v n)) by lia.
    by rewrite orb_false_r.
  - rewrite (Z.mod_pow2_bits_high _ (5 * Z.of_nat n)) by lia. rewrite orb_false_l.
    rewrite digit_testbit by lia. case_bool_decide.
    + rewrite Z.mod_pow2_bits_low by lia. simpl. f_equal. lia.
    + by rewrite Z.mod_pow2_bits_high by lia.
Qed.

(** The two bytes touched by a digit carry the shifted digit. *)
Lemma digit_split d j i :
  0 <= d < 32 -> 0 <= j < 8 -> 0 <= i ->
  Z.shiftl d (8 * i + j) =
  Z.lor (Z.shiftl (Z.shiftl d j mod 256) (8 * i))
        (Z.shiftl (Z.shiftr d (8 - j) mod 256) (8 * (i + 1))).
Proof.
  intros Hd Hj Hi. apply Z.bits_inj'. intros k Hk.
  rewrite Z.lor_spec, !Z.shiftl_spec by done.
  destruct (decide (k < 8 * i)).
  { rewrite (Z.testbit_neg_r _ (k - (8 * i + j))), (Z.testbit_neg_r _ (k - 8 * i)),
      (Z.testbit_neg_r _ (k - 8 * (i + 1))) by lia. done. }
  rewrite testbit_mod256 by lia. rewrite Z.shiftl_spec by lia.
  replace (k - 8 * i - j) with (k - (8 * i + j)) by lia.
  destruct (decide (k < 8 * (i + 1))).
  - rewrite bool_decide_eq_true_2 by lia. rewrite (Z.testbit_neg_r _ (k - 8 * (i + 1))) by lia.
    by rewrite orb_false_r.
  - rewrite bool_decide_eq_false_2 by lia. simpl.
    rewrite testbit_mod256 by lia. rewrite Z.shiftr_spec by lia.
    replace (k - 8 * (i + 1) + (8 - j)) with (k - (8 * i + j)) by lia.
    case_bool_decide; [done|]. apply byte_testbit_high; lia.
Qed.

Lemma decode_step_decoded v n res c :
  5 * Z.of_nat n < 2 ^ 32 -> decoded v n res -> lookupReverse c = Some (digit v n) ->
  exists res', decode_step res (n, c) = Ok res' /\ decoded v (S n) res'.
Proof.
  intros Hn [Hnum Hlen] Hc. unfold decode_step. simpl fst. simpl snd. rewrite Hc. simpl.
  rewrite u32_small by lia. rewrite (Z.mul_comm (Z.of_nat n) 5).
  pose proof (digit_range v n) as Hd.
  set (b := 5 * Z.of_nat n) in *. set (j := b mod 8). set (i := Z.to_nat (b / 8)).
  assert (Hb : b = 8 * Z.of_nat i + j) by (unfold i, j; lia).
  assert (Hj : 0 <= j < 8) by (unfold j; lia).
  assert (Hfit : (length res <= i + 1)%nat).
  { destruct n as [|m]; [subst res; simpl; lia|]. cbv zeta in Hlen.
    case_decide as Hlt; [unfold i, b; lia|].
    assert (v mod 2 ^ b < 2 ^ b) by (apply Z.mod_pos_bound; lia).
    assert (8 * (5 * Z.of_nat m / 8 + 1) < b); [|unfold i; lia].
    apply (Z.pow_lt_mono_r_iff 2); lia. }
  set (r1 := or_at i (Z.shiftl (digit v n) j mod 256) (resize (i + 1) (bZ 0) res)).
  assert (H1 : le_num r1 = Z.lor (le_num res) (Z.shiftl (Z.shiftl (digit v n) j mod 256) (8 * Z.of_nat i))).
  { unfold r1. rewrite le_num_or_at; [|lia|rewrite length_resize; lia]. by rewrite le_num_resize. }
  assert (L1 : length r1 = (i + 1)%nat) by (unfold r1; by rewrite length_or_at, length_resize).
  assert (Hhi : forall x, le_num x =
     Z.lor (le_num r1) (Z.shiftl (Z.shiftr (digit v n) (8 - j) mod 256) (8 * (Z.of_nat i + 1))) ->
     le_num x = v mod 2 ^ (5 * Z.of_nat (S n))).
  { intros x ->. rewrite mod_pow_digit. fold b. rewrite Hb at 2.
    rewrite digit_split by lia. by rewrite H1, Hnum, Z.lor_assoc. }
  assert (Hi : 5 * Z.of_nat n / 8 = Z.of_nat i) by (unfold i, b; lia).
  unfold decoded. cbv zeta. rewrite Hi. case_decide as Hz.
  - exists r1. split; [done|].
    rewrite <- (Hhi r1); [|by rewrite Hz, Z.mod_0_l, Z.shiftl_0_l, Z.lor_0_r by lia].
    split; [done|]. pose proof (le_num_range r1) as Hr. rewrite L1 in *.
    rewrite decide_True; [lia|]. replace (Z.of_nat i + 1) with (Z.of_nat (i + 1)) by lia. lia.
  - set (r2 := or_at (i + 1) _ _). exists r2. split; [done|].
    assert (L2 : length r2 = (i + 2)%nat) by (unfold r2; by rewrite length_or_at, length_resize).
    assert (H2 : le_num r2 =
      Z.lor (le_num r1) (Z.shiftl (Z.shiftr (digit v n) (8 - j) mod 256) (8 * (Z.of_nat i + 1)))).
    { unfold r2. rewrite le_num_or_at; [|lia|rewrite length_resize; lia].
      rewrite le_num_resize by lia. do 2 f_equal. lia. }
    rewrite <- (Hhi r2 H2). split; [done|]. rewrite L2, decide_False; [lia|].
    rewrite H2. apply Zle_not_lt.
    assert (0 <= Z.shiftr (digit v n) (8 - j)) by (apply Z.shiftr_nonneg; lia).
    assert (Z.shiftr (digit v n) (8 - j) <= digit v n) by (rewrite Z.shiftr_div_pow2 by lia;
      apply Z.div_le_upper_bound; [lia|]; nia).
    rewrite (Z.mod_small (Z.shiftr _ _)) by lia.
    transitivity (Z.shiftl (Z.shiftr (digit v n) (8 - j)) (8 * (Z.of_nat i + 1))).
    + rewrite Z.shiftl_mul_pow2 by lia.
      assert (0 < 2 ^ (8 * (Z.of_nat i + 1))) by (apply Z.pow_pos_nonneg; lia). nia.
    + pose proof (le_num_range r1). apply lor_ge_r; [|apply Z.shiftl_nonneg]; lia.
Qed.

Lemma decode_digits v n0 res l :
  (forall k c, l !! k = Some c -> lookupReverse c = Some (digit v (n0 + k))) ->
  5 * Z.of_nat (n0 + length l) < 2 ^ 32 -> decoded v n0 res ->
  exists res', foreach decode_step res (zip (seq n0 (length l)) l) = Ok res' /\
               decoded v (n0 + length l) res'.
Proof.
  revert n0 res; induction l as [|c l IH]; intros n0 res Hl Hb Hdec.
  { exists res. simpl. by rewrite Nat.add_0_r. }
  simpl in Hb. destruct (decode_step_decoded v n0 res c) as (r1 & H1 & D1); [lia|done| |].
  { specialize (Hl 0%nat c eq_refl). by rewrite Nat.add_0_r in Hl. }
  destruct (IH (S n0) r1) as (r2 & H2 & D2); [|lia|done|].
  { intros k c' Hk. rewrite Nat.add_succ_comm. by apply Hl. }
  exists r2. cbn [length seq zip_with foreach]. rewrite H1. simpl mbind. rewrite H2.
  split; [done|]. by rewrite <- Nat.add_succ_comm.
Qed.

Lemma decoded_full bs res :
  (length bs <> 0)%nat -> Z.of_nat (length bs) < 2 ^ 28 ->
  decoded (le_num bs) (Z.to_nat (encodedLength (length bs))) res -> res = bs.
Proof.
  intros Hne Hb Hd. rewrite encodedLength_small in Hd by lia.
  set (L := Z.of_nat (length bs)) in *.
  replace (Z.to_nat ((L * 8 - 1) / 5 + 1)) with (S (Z.to_nat ((L * 8 - 1) / 5))) in Hd by lia.
  destruct Hd as [Hnum Hlen]. cbv zeta in Hlen.
  pose proof (le_num_range bs) as Hr. fold L in Hr.
  assert (Hmod : le_num bs mod 2 ^ (5 * Z.of_nat (S (Z.to_nat ((L * 8 - 1) / 5)))) = le_num bs).
  { apply Z.mod_small. split; [lia|]. eapply Z.lt_le_trans; [apply Hr|].
    apply Z.pow_le_mono_r; lia. }
  rewrite Hmod in *.
  assert (Hi : 5 * Z.of_nat (Z.to_nat ((L * 8 - 1) / 5)) / 8 + 1 = L) by lia.
  rewrite Hi in Hlen. rewrite decide_True in Hlen by lia.
  apply le_num_inj; lia.
Qed.

Lemma encode_Ok bs :
  (length bs <> 0)%nat -> Z.of_nat (length bs) < 2 ^ 28 ->
  encode bs = Ok (encode_char bs <$> reverse (seq 0 (Z.to_nat (encodedLength (length bs))))).
Proof.
  intros Hne Hb. unfold encode. rewrite decide_False by done.
  pose proof (encodedLength_small (length bs)).
  assert (encodedLength (length bs) <> 0) by lia.
  rewrite (proj2 (Z.eqb_neq _ _)) by done. simpl. rewrite i32_small by lia. done.
Qed.

Lemma length_encode bs s :
  Z.of_nat (length bs) < 2 ^ 28 -> (length bs <> 0)%nat -> encode bs = Ok s ->
  Z.of_nat (length s) = (Z.of_nat (length bs) * 8 - 1) / 5 + 1.
Proof.
  intros Hb Hne He. rewrite encode_Ok in He by done. injection He as <-.
  rewrite length_fmap, length_reverse, length_seq, encodedLength_small by lia. lia.
Qed.

(** Every character produced is one of the alphabet. *)
Lemma encode_chars bs s c : Z.of_nat (length bs) < 2 ^ 28 -> encode bs = Ok s -> c ∈ s -> c ∈ characters.
Proof.
  intros Hb He Hc. destruct (decide (length bs = 0%nat)) as [Hz|Hne].
  { unfold encode in He. rewrite decide_True in He by done. injection He as <-. set_solver. }
  rewrite encode_Ok in He by done. injection He as <-.
  apply list_elem_of_fmap in Hc as (n & -> & Hn).
  rewrite elem_of_reverse, elem_of_seq in Hn. rewrite encodedLength_small in Hn by lia.
  eapply list_elem_of_lookup_2. apply encode_char_digit; lia.
Qed.

Lemma encode_nil : encode [] = Ok [].
Proof. reflexivity. Qed.

Lemma decode_encode bs :
  Z.of_nat (length bs) < 2 ^ 28 -> (encode bs ≫= decode) = Ok bs.
Proof.
  intros Hb. destruct (decide (length bs = 0%nat)) as [Hz|Hne].
  { apply nil_length_inv in Hz as ->. reflexivity. }
  rewrite encode_Ok by done. simpl. unfold decode.
  rewrite length_fmap, length_reverse, length_seq.
  set (n := Z.to_nat (encodedLength (length bs))).
  rewrite <- fmap_reverse, reverse_involutive.
  assert (Hn : Z.of_nat n = (Z.of_nat (length bs) * 8 - 1) / 5 + 1)
    by (unfold n; rewrite encodedLength_small by lia; lia).
  destruct (decode_digits (le_num bs) 0 [] (encode_char bs <$> seq 0 n)) as (r & Hr & Hd).
  - intros k c Hk. rewrite list_lookup_fmap in Hk.
    destruct (seq 0 n !! k) as [m|] eqn:Hm; [|done].
    apply lookup_seq in Hm as [-> Hk']. injection Hk as <-. simpl.
    apply lookupReverse_encode_char; lia.
  - rewrite length_fmap, length_seq. lia.
  - split; [|done]. by rewrite Z.mod_1_r.
  - rewrite length_fmap, length_seq in *. rewrite Hr. f_equal. by apply decoded_full.
Qed.

(** A string is refused exactly when it has a character outside the alphabet. *)
Lemma decode_step_error res n c :
  decode_step res (n, c) = Throw FormatError /\ lookupReverse c = None \/
  exists res', decode_step res (n, c) = Ok res' /\ lookupReverse c <> None.
Proof.
  unfold decode_step; cbn [fst snd]. destruct (lookupReverse c); [|by left].
  right. cbn [from_opt mbind result_bind]. case_decide; eauto.
Qed.

Lemma decode_error s :
  decode s = Throw FormatError <-> Exists (fun c => c ∉ characters) s.
Proof.
  assert (Hl : forall c, lookupReverse c = None <-> c ∉ characters).
  { intros c. split.
    - intros Hn [k Hk]%list_elem_of_lookup.
      assert (lookupReverse c = Some (Z.of_nat k)); [|congruence].
      apply lookupReverse_characters. rewrite Nat2Z.id.
      apply lookup_lt_Some in Hk as Hk'. rewrite characters_length in Hk'. split; [lia|done].
    - destruct (lookupReverse c) eqn:E; [|done].
      apply lookupReverse_characters in E as [_ E]. by apply list_elem_of_lookup_2 in E. }
  assert (Hg : forall n0 res l,
    foreach decode_step res (zip (seq n0 (length l)) l) = Throw FormatError <->
    Exists (fun c => c ∉ characters) l).
  { intros n0 res l. revert n0 res. induction l as [|c l IH]; intros n0 res.
    { simpl. split; [done|by intros ?%Exists_nil]. }
    cbn [length seq zip_with foreach]. rewrite Exists_cons, <- Hl.
    destruct (decode_step_error res n0 c) as [[-> ?]|(r & -> & ?)]; simpl; [tauto|].
    rewrite IH. tauto. }
  unfold decode. rewrite <- (length_reverse s) at 1. rewrite Hg.
  rewrite !Exists_exists. by setoid_rewrite elem_of_reverse.
Qed.

Lemma decode_throws s e : decode s = Throw e -> e = FormatError.
Proof.
  unfold decode. generalize (zip (seq 0 (length s)) (reverse s)) ([] : bytes).
  intros l; induction l as [|[n c] l IH]; intros res; [done|]. cbn [foreach].
  destruct (decode_step_error res n c) as [[-> _]|(r & -> & _)]; cbn; [congruence|apply IH].
Qed.

End BaseNix32.
