(* ===== verification/BaseN.v ===== *)
(** * BaseN: base 16 and base 64

    libutil/base-n.cc and base-n.hh: the encoders and decoders, with the
    [int] and [unsigned] accumulators of the base-64 loops kept at 32 bits,
    and their round trips. *)

From S2P Require Export BaseNix32.
From Stdlib Require Import ZifyNat.
Local Open Scope Z_scope.

(** ** Base 16 *)
Module base16.

Definition base16Chars : bytes := #"0123456789abcdef".

Definition encodedLength (origSize : nat) : Z := u64 (Z.of_nat origSize * 2).

Fixpoint encode (b : bytes) : bytes :=
  match b with
  | [] => []
  | c :: b =>
      default zero (base16Chars !! Z.to_nat (Z.shiftr (Zb c) 4))
      :: default zero (base16Chars !! Z.to_nat (Z.land (Zb c) 0x0f))
      :: encode b
  end.

Definition parseHexDigit (c : ascii) : result Z :=
  if in_range "0" "9" c then Ok (Zb c - Zb "0")
  else if in_range "A" "F" c then Ok (Zb c - Zb "A" + 10)
  else if in_range "a" "f" c then Ok (Zb c - Zb "a" + 10)
  else Throw FormatError.

(** The loop over [i < decodedSize] reads [s] two characters at a time. *)
Fixpoint decode_pairs (s : bytes) : result bytes :=
  match s with
  | c1 :: c2 :: s =>
      d1 ← parseHexDigit c1;
      d2 ← parseHexDigit c2;
      res ← decode_pairs s;
      Ok (bZ (Z.lor (Z.shiftl d1 4) d2) :: res)
  | _ => Ok []
  end.

Definition decode (s : bytes) : result bytes :=
  _ ← assertb (length s mod 2 =? 0)%nat;
  decode_pairs s.

Lemma length_encode16 b : length (encode b) = (2 * length b)%nat.
Proof. induction b; simpl; lia. Qed.

Lemma parse_encoded_byte c :
  (d1 ← parseHexDigit (default zero (base16Chars !! Z.to_nat (Z.shiftr (Zb c) 4)));
   d2 ← parseHexDigit (default zero (base16Chars !! Z.to_nat (Z.land (Zb c) 0x0f)));
   Ok (bZ (Z.lor (Z.shiftl d1 4) d2))) = Ok c.
Proof.
  by_chars c.
Qed.

Lemma decode_encode16 b : decode (encode b) = Ok b.
Proof.
  unfold decode. rewrite length_encode16, Nat.mul_comm, Nat.Div0.mod_mul. simpl.
  induction b as [|c b IH]; [done|]. cbn [encode decode_pairs].
  pose proof (parse_encoded_byte c) as Hc.
  set (r1 := parseHexDigit (default zero (base16Chars !! Z.to_nat (Z.shiftr _ _)))) in *.
  set (r2 := parseHexDigit (default zero (base16Chars !! Z.to_nat (Z.land _ _)))) in *.
  destruct r1 as [d1|], r2 as [d2|]; cbn [mbind result_bind] in *; try done.
  rewrite IH. by injection Hc as ->.
Qed.

Lemma decode_pairs_throws s e : decode_pairs s = Throw e -> e = FormatError.
Proof.
  assert (forall c e, parseHexDigit c = Throw e -> e = FormatError) as Hp.
  { intros c e'. unfold parseHexDigit. repeat case_match; congruence. }
  remember (length s) as n eqn:Hn. revert s Hn.
  induction n as [n IH] using lt_wf_ind; intros [|c1 [|c2 s]] ->; try done.
  cbn [decode_pairs].
  destruct (parseHexDigit c1) eqn:H1; cbn [mbind result_bind]; [|intros [= <-]; eauto].
  destruct (parseHexDigit c2) eqn:H2; cbn [mbind result_bind]; [|intros [= <-]; eauto].
  destruct (decode_pairs s) eqn:H3; [done|]. intros [= <-].
  apply (IH (length s)) in H3; [done|simpl; lia|done].
Qed.

Lemma decode_throws16 s e : decode s = Throw e -> e = FormatError \/ (length s mod 2 <> 0)%nat /\ e = AssertFailed.
Proof.
  unfold decode. destruct (Nat.eqb_spec (length s mod 2) 0); cbn.
  - intros ?%decode_pairs_throws. by left.
  - intros [= <-]. by right.
Qed.

End base16.

(** ** Base 64 *)
Module base64.

Definition base64Chars : bytes :=
  #"ABCDEFGHIJKLMNOPQRSTUVWXYZabcdefghijklmnopqrstuvwxyz0123456789+/".

(** [size_t] arithmetic; [& ~3] clears the two low bits. *)
Definition encodedLength (origSize : nat) : Z :=
  Z.land (u64 (u64 (4 * Z.of_nat origSize) / 3 + 3)) (u64 (Z.lnot 3)).

Definition base64_char (x : Z) : ascii := default zero (base64Chars !! Z.to_nat (Z.land x 0x3f)).

(** [while (nbits >= 6) { nbits -= 6; ... }]; [fuel = nbits] is enough. *)
Fixpoint emit (fuel : nat) (data nbits : Z) : bytes * Z :=
  match fuel with
  | O => ([], nbits)
  | S fuel =>
      if 6 <=? nbits then
        let nbits := nbits - 6 in
        let '(res, nbits') := emit fuel data nbits in
        (base64_char (Z.shiftr data nbits) :: res, nbits')
      else ([], nbits)
  end.

(** [data] is an [int]: the left shift keeps its low 32 bits. *)
Fixpoint encode_loop (s : bytes) (data nbits : Z) : bytes :=
  match s with
  | [] => if decide (nbits = 0) then [] else [base64_char (i32 (Z.shiftl data (6 - nbits)))]
  | c :: s =>
      let data := i32 (Z.lor (i32 (Z.shiftl data 8)) (Zb c)) in
      let nbits := nbits + 8 in
      let '(res, nbits) := emit (Z.to_nat nbits) data nbits in
      res ++ encode_loop s data nbits
  end.

(** [while (res.size() % 4) res.push_back('=')]; at most three rounds. *)
Fixpoint pad (fuel : nat) (res : bytes) : bytes :=
  match fuel with
  | O => res
  | S fuel => if decide (length res mod 4 = 0)%nat then res else pad fuel (res ++ ["="%char])
  end.

Definition encode (s : bytes) : bytes := pad 4 (encode_loop s 0 0).

Definition npos : Z := -1.

Definition base64DecodeChars : list Z :=
  foldl (fun result i =>
           match base64Chars !! i with
           | Some c => <[Z.to_nat (Zb c) := Z.of_nat i]> result
           | None => result
           end)
        (replicate 256 npos) (seq 0 64).

Definition digit_of (c : ascii) : Z := default npos (base64DecodeChars !! Z.to_nat (Zb c)).
Arguments digit_of : simpl never.

Fixpoint decode_loop (s : bytes) (d bits : Z) (res : bytes) : result bytes :=
  match s with
  | [] => Ok res
  | c :: s =>
      if decide (c = "="%char) then Ok res
      else if decide (c = "010"%char) then decode_loop s d bits res
      else
        let digit := digit_of c in
        if decide (digit = npos) then Throw FormatError
        else
          let bits := bits + 6 in
          let d := u32 (Z.lor (u32 (Z.shiftl d 6)) digit) in
          if 8 <=? bits
          then decode_loop s d (bits - 8) (res ++ [bZ (Z.land (Z.shiftr d (bits - 8)) 0xff)])
          else decode_loop s d bits res
  end.

Definition decode (s : bytes) : result bytes := decode_loop s 0 0 [].

Lemma shiftl_lor x y n : 0 <= n -> 0 <= y < 2 ^ n -> Z.lor (Z.shiftl x n) y = x * 2 ^ n + y.
Proof.
  intros Hn Hy. rewrite Z.shiftl_mul_pow2 by done.
  pose proof (Z.add_lor_land (x * 2 ^ n) y) as Ha.
  assert (Z.land (x * 2 ^ n) y = 0) as Hz; [|lia].
  apply Z.bits_inj'. intros k Hk. rewrite Z.land_spec, Z.bits_0.
  destruct (decide (k < n)); [by rewrite Z.mul_pow2_bits_low by done|].
  rewrite <- (Z.mod_small y (2 ^ n)) by done.
  rewrite Z.mod_pow2_bits_high by lia. by rewrite andb_false_r.
Qed.

Lemma i32_eq z : exists q, i32 z = z + q * 4294967296.
Proof.
  unfold i32, u32. change (2 ^ 32) with 4294967296. change (2 ^ 31) with 2147483648.
  case_decide; [exists (- (z / 4294967296))|exists (- (z / 4294967296) - 1)]; lia.
Qed.

Lemma u32_eq z : exists q, u32 z = z + q * 4294967296.
Proof. unfold u32. change (2 ^ 32) with 4294967296. exists (- (z / 4294967296)). lia. Qed.

Lemma land_63 x : Z.land x 0x3f = x mod 64.
Proof. change 0x3f with (Z.ones 6). by rewrite Z.land_ones by lia. Qed.

Lemma encode_data data c :
  exists q, i32 (Z.lor (i32 (Z.shiftl data 8)) (Zb c)) = 256 * (data + q * 16777216) + Zb c.
Proof.
  pose proof (Zb_range c).
  destruct (i32_eq (Z.shiftl data 8)) as [q1 H1]. rewrite H1.
  replace (Z.shiftl data 8 + q1 * 4294967296) with (Z.shiftl (data + q1 * 16777216) 8)
    by (rewrite !Z.shiftl_mul_pow2 by lia; change (2 ^ 8) with 256; lia).
  rewrite shiftl_lor by (change (2 ^ 8) with 256; lia). change (2 ^ 8) with 256.
  destruct (i32_eq ((data + q1 * 16777216) * 256 + Zb c)) as [q2 ->].
  exists (q1 + q2). lia.
Qed.

(** *** Three bytes give four digits *)

Lemma emit_step fuel data nbits :
  6 <= nbits -> (0 < fuel)%nat ->
  emit fuel data nbits =
  let '(res, n') := emit (pred fuel) data (nbits - 6) in
  (base64_char (Z.shiftr data (nbits - 6)) :: res, n').
Proof. intros Hn Hf. destruct fuel; [lia|]. cbn [emit pred]. by rewrite (proj2 (Z.leb_le _ _)). Qed.

Lemma emit_stop fuel data nbits : nbits < 6 -> emit fuel data nbits = ([], nbits).
Proof. intros Hn. destruct fuel; [done|]. cbn [emit]. by rewrite (proj2 (Z.leb_gt _ _)). Qed.

(** One round of the outer loop from each reachable number of pending bits:
    [x] is the value of the pending bits. *)
Lemma encode_round0 c s data :
  exists data', data' mod 4 = Zb c mod 4 /\
  encode_loop (c :: s) data 0 = base64_char (Zb c / 4) :: encode_loop s data' 2.
Proof.
  cbn [encode_loop]. change (0 + 8) with 8. destruct (encode_data data c) as [q ->].
  set (d := 256 * _ + _). exists d. split; [unfold d; lia|].
  rewrite emit_step, emit_stop by lia. change (8 - 6) with 2. cbn [app].
  f_equal. unfold base64_char. rewrite !land_63, Z.shiftr_div_pow2 by lia. change (2 ^ 2) with 4.
  do 3 f_equal. unfold d. pose proof (Zb_range c). lia.
Qed.

Lemma encode_round2 c s data :
  exists data', data' mod 16 = Zb c mod 16 /\
  encode_loop (c :: s) data 2 = base64_char (data mod 4 * 16 + Zb c / 16) :: encode_loop s data' 4.
Proof.
  cbn [encode_loop]. change (2 + 8) with 10. destruct (encode_data data c) as [q ->].
  set (d := 256 * _ + _). exists d. split; [unfold d; lia|].
  rewrite emit_step, emit_stop by lia. change (10 - 6) with 4. cbn [app].
  f_equal. unfold base64_char. rewrite !land_63, Z.shiftr_div_pow2 by lia. change (2 ^ 4) with 16.
  do 3 f_equal. unfold d. pose proof (Zb_range c). lia.
Qed.

Lemma encode_round4 c s data :
  exists data',
  encode_loop (c :: s) data 4 =
  base64_char (data mod 16 * 4 + Zb c / 64) :: base64_char (Zb c mod 64) :: encode_loop s data' 0.
Proof.
  cbn [encode_loop]. change (4 + 8) with 12. destruct (encode_data data c) as [q ->].
  set (d := 256 * _ + _). exists d.
  rewrite emit_step by lia. change (12 - 6) with 6.
  rewrite emit_step, emit_stop by lia. change (6 - 6) with 0. cbn [app].
  unfold base64_char. rewrite !land_63, !Z.shiftr_div_pow2 by lia.
  change (2 ^ 6) with 64. change (2 ^ 0) with 1. pose proof (Zb_range c).
  f_equal; [do 3 f_equal; unfold d; lia|]. f_equal. do 3 f_equal. unfold d. lia.
Qed.

(** *** Four digits give back three bytes *)

Lemma base64_char_digit x :
  0 <= x < 64 -> digit_of (base64_char x) = x /\ base64_char x <> "="%char /\ base64_char x <> "010"%char.
Proof.
  assert (forallb (fun k => bool_decide (digit_of (base64_char (Z.of_nat k)) = Z.of_nat k /\
      base64_char (Z.of_nat k) <> "="%char /\ base64_char (Z.of_nat k) <> "010"%char)) (seq 0 64) = true)
    as Hall by vm_cast_no_check (eq_refl true).
  intros Hx. rewrite forallb_forall in Hall. specialize (Hall (Z.to_nat x)).
  rewrite Z2Nat.id in Hall by lia. refine (proj1 (bool_decide_eq_true _) (Hall _)). apply in_seq. lia.
Qed.

Lemma base64_char_mod x y : x mod 64 = y mod 64 -> base64_char x = base64_char y.
Proof. unfold base64_char. rewrite !land_63. by intros ->. Qed.

Definition next_d (d x : Z) : Z := u32 (Z.lor (u32 (Z.shiftl d 6)) x).

Lemma decode_data d x : 0 <= x < 64 -> exists q, next_d d x = 64 * (d + q * 67108864) + x.
Proof.
  intros Hx. unfold next_d. destruct (u32_eq (Z.shiftl d 6)) as [q1 ->].
  replace (Z.shiftl d 6 + q1 * 4294967296) with (Z.shiftl (d + q1 * 67108864) 6)
    by (rewrite !Z.shiftl_mul_pow2 by lia; change (2 ^ 6) with 64; lia).
  rewrite shiftl_lor by (change (2 ^ 6) with 64; lia). change (2 ^ 6) with 64.
  destruct (u32_eq ((d + q1 * 67108864) * 64 + x)) as [q2 ->].
  exists (q1 + q2). lia.
Qed.

Lemma decode_round x s d bits res :
  0 <= x < 64 ->
  decode_loop (base64_char x :: s) d bits res =
  if 8 <=? bits + 6
  then decode_loop s (next_d d x) (bits + 6 - 8)
         (res ++ [bZ (Z.shiftr (next_d d x) (bits + 6 - 8))])
  else decode_loop s (next_d d x) (bits + 6) res.
Proof.
  intros Hx. destruct (base64_char_digit x Hx) as (Hd & Heq & Hnl).
  cbn [decode_loop]. rewrite (decide_False (P := _ = "="%char)), (decide_False (P := _ = "010"%char)) by done.
  rewrite Hd, decide_False by (unfold npos; lia). fold (next_d d x).
  destruct (8 <=? bits + 6); [|done]. do 3 f_equal. apply Zb_inj. rewrite !Zb_bZ.
  change 0xff with (Z.ones 8). rewrite Z.land_ones by lia. apply Z.mod_mod. done.
Qed.

(** A first digit, then a second one, a third and a fourth. *)
Lemma decode_pair x1 x2 s d res :
  0 <= x1 < 64 -> 0 <= x2 < 64 ->
  exists d', d' mod 16 = x2 mod 16 /\
  decode_loop (base64_char x1 :: base64_char x2 :: s) d 0 res =
  decode_loop s d' 4 (res ++ [bZ (x1 * 4 + x2 / 16)]).
Proof.
  intros H1 H2. rewrite !decode_round by done. cbn.
  destruct (decode_data d x1 H1) as [q1 E1]. destruct (decode_data (next_d d x1) x2 H2) as [q2 E2].
  exists (next_d (next_d d x1) x2). split; [lia|]. do 3 f_equal.
  apply Zb_inj. rewrite !Zb_bZ, Z.shiftr_div_pow2 by lia. change (2 ^ 4) with 16. lia.
Qed.

Lemma decode_third x s d res :
  0 <= x < 64 ->
  exists d', d' mod 4 = x mod 4 /\
  decode_loop (base64_char x :: s) d 4 res =
  decode_loop s d' 2 (res ++ [bZ (d mod 16 * 16 + x / 4)]).
Proof.
  intros H1. rewrite !decode_round by done. cbn.
  destruct (decode_data d x H1) as [q1 E1]. exists (next_d d x). split; [lia|]. do 3 f_equal.
  apply Zb_inj. rewrite !Zb_bZ, Z.shiftr_div_pow2 by lia. change (2 ^ 2) with 4. lia.
Qed.

Lemma decode_fourth x s d res :
  0 <= x < 64 ->
  decode_loop (base64_char x :: s) d 2 res =
  decode_loop s (next_d d x) 0 (res ++ [bZ (d mod 4 * 64 + x)]).
Proof.
  intros H1. rewrite !decode_round by done. cbn.
  destruct (decode_data d x H1) as [q1 E1]. do 3 f_equal.
  apply Zb_inj. rewrite !Zb_bZ, Z.shiftr_div_pow2 by lia. change (2 ^ 0) with 1. lia.
Qed.

Lemma pad_eq fuel res : exists k, pad fuel res = res ++ replicate k "="%char.
Proof.
  revert res; induction fuel as [|fuel IH]; intros res; simpl.
  { exists 0%nat. by rewrite app_nil_r. }
  case_decide; [exists 0%nat; by rewrite app_nil_r|].
  destruct (IH (res ++ ["="%char])) as [k ->]. exists (S k). by rewrite <- app_assoc.
Qed.

Lemma decode_padding k d bits res : decode_loop (replicate k "="%char) d bits res = Ok res.
Proof. by destruct k. Qed.

Lemma bZ_eq c x : x = Zb c -> bZ x = c.
Proof. intros ->. apply bZ_Zb. Qed.

Lemma decode_encode_loop s data d k res :
  decode_loop (encode_loop s data 0 ++ replicate k "="%char) d 0 res = Ok (res ++ s).
Proof.
  revert data d res. remember (length s) as n eqn:Hn.
  revert s Hn. induction n as [n IH] using lt_wf_ind; intros s -> data d res.
  destruct s as [|a s].
  { cbn [encode_loop]. rewrite decide_True by done. cbn [app]. by rewrite app_nil_r, decode_padding. }
  pose proof (Zb_range a). destruct (encode_round0 a s data) as (data1 & M1 & ->).
  destruct s as [|b s].
  { cbn [encode_loop app]. rewrite decide_False by done.
    rewrite (base64_char_mod (i32 (Z.shiftl data1 (6 - 2))) (data1 mod 4 * 16)).
    2: { change (6 - 2) with 4. destruct (i32_eq (Z.shiftl data1 4)) as [q ->].
         rewrite Z.shiftl_mul_pow2 by lia. change (2 ^ 4) with 16. lia. }
    cbn [app]. destruct (decode_pair (Zb a / 4) (data1 mod 4 * 16) (replicate k "="%char) d res) as (d1 & _ & ->); [lia..|].
    rewrite decode_padding. do 3 f_equal. apply bZ_eq. lia. }
  pose proof (Zb_range b). destruct (encode_round2 b s data1) as (data2 & M2 & ->). cbn [app].
  edestruct (decode_pair (Zb a / 4)) as (d1 & D1 & ->); [lia..|].
  destruct s as [|c s].
  { cbn [encode_loop app]. rewrite decide_False by done.
    rewrite (base64_char_mod (i32 (Z.shiftl data2 (6 - 4))) (data2 mod 16 * 4)).
    2: { change (6 - 4) with 2. destruct (i32_eq (Z.shiftl data2 2)) as [q ->].
         rewrite Z.shiftl_mul_pow2 by lia. change (2 ^ 2) with 4. lia. }
    cbn [app]. edestruct (decode_third (data2 mod 16 * 4)) as (d2 & _ & ->); [lia|].
    rewrite decode_padding, <- app_assoc. do 2 f_equal. cbn [app].
    f_equal; [|f_equal]; apply bZ_eq; lia. }
  pose proof (Zb_range c). destruct (encode_round4 c s data2) as (data3 & ->). cbn [app].
  edestruct (decode_third (data2 mod 16 * 4 + Zb c / 64)) as (d2 & D2 & ->); [lia|].
  rewrite decode_fourth by lia. rewrite (IH (length s)) by (simpl; lia || done).
  rewrite <- !app_assoc. do 2 f_equal. cbn [app].
  f_equal; [|f_equal; [|f_equal]]; apply bZ_eq; lia.
Qed.

Lemma decode_encode64 s : decode (encode s) = Ok s.
Proof.
  unfold decode, encode. destruct (pad_eq 4 (encode_loop s 0 0)) as [k ->].
  apply decode_encode_loop.
Qed.

Lemma decode_loop_throws s d bits res e : decode_loop s d bits res = Throw e -> e = FormatError.
Proof.
  revert d bits res; induction s as [|c s IH]; intros d bits res; [done|].
  cbn [decode_loop]. repeat case_match; naive_solver.
Qed.

(** *** Shape of the encoded text *)

Lemma emit_length fuel data nbits :
  0 <= nbits -> nbits <= Z.of_nat fuel ->
  Z.of_nat (length (emit fuel data nbits).1) = nbits / 6 /\ (emit fuel data nbits).2 = nbits mod 6.
Proof.
  revert nbits; induction fuel as [|fuel IH]; intros nbits Hn Hf; [simpl; lia|].
  cbn [emit]. destruct (Z.leb_spec 6 nbits); [|simpl; lia].
  specialize (IH (nbits - 6)). destruct (emit fuel data (nbits - 6)) as [res n'].
  cbn [fst snd length] in *. lia.
Qed.

Lemma length_encode_loop s data nbits :
  0 <= nbits < 6 ->
  Z.of_nat (length (encode_loop s data nbits)) = (8 * Z.of_nat (length s) + nbits + 5) / 6.
Proof.
  revert data nbits; induction s as [|c s IH]; intros data nbits Hn.
  { cbn [encode_loop]. case_decide; simpl; lia. }
  cbn [encode_loop]. set (data' := i32 _).
  pose proof (emit_length (Z.to_nat (nbits + 8)) data' (nbits + 8)) as He.
  destruct (emit _ _ _) as [res n']. cbn [fst snd] in He.
  rewrite length_app, Nat2Z.inj_add, IH by lia. cbn [length]. lia.
Qed.

Lemma length_pad res : length (pad 4 res) = ((length res + 3) / 4 * 4)%nat.
Proof.
  cbn [pad]. repeat case_decide; rewrite ?length_app in *; cbn [length] in *; lia.
Qed.

Lemma length_encode64 s :
  Z.of_nat (length (encode s)) = (Z.of_nat (length s) + 2) / 3 * 4.
Proof.
  unfold encode. rewrite length_pad.
  pose proof (length_encode_loop s 0 0 ltac:(lia)) as Hl.
  rewrite Nat2Z.inj_mul, Nat2Z.inj_div, Nat2Z.inj_add, Hl.
  pose proof (Z.div_mod (Z.of_nat (length s)) 3) as Hd.
  set (m := Z.of_nat (length s) / 3) in *. set (r := Z.of_nat (length s) mod 3) in *.
  assert (r = 0 \/ r = 1 \/ r = 2) as Hr by (unfold r; lia). clearbody m r.
  change (Z.of_nat 3) with 3. change (Z.of_nat 4) with 4.
  rewrite Hd by done. clear Hd Hl. destruct Hr as [->|[->| ->]]; lia.
Qed.

Lemma land_not_3 x : 0 <= x < 2 ^ 64 -> Z.land x (u64 (Z.lnot 3)) = x / 4 * 4.
Proof.
  intros Hx. change (u64 (Z.lnot 3)) with (Z.shiftl (Z.ones 62) 2).
  apply Z.bits_inj'. intros k Hk. rewrite Z.land_spec, Z.shiftl_spec by done.
  change 4 with (2 ^ 2). rewrite <- Z.shiftr_div_pow2, <- Z.shiftl_mul_pow2 by lia.
  rewrite Z.shiftl_spec by done.
  destruct (decide (k < 2)).
  { rewrite !(Z.testbit_neg_r _ (k - 2)) by lia. apply andb_false_r. }
  rewrite Z.shiftr_spec by lia. replace (k - 2 + 2) with k by lia.
  destruct (decide (k < 64)); [rewrite Z.ones_spec_low by lia; apply andb_true_r|].
  rewrite <- (Z.mod_small x (2 ^ 64)) by done. by rewrite Z.mod_pow2_bits_high by lia.
Qed.

(** The length computed for a hash is the length of its encoding. *)
Lemma encodedLength_encode s :
  Z.of_nat (length s) < 2 ^ 60 -> Z.of_nat (length (encode s)) = encodedLength (length s).
Proof.
  intros Hs. rewrite length_encode64. unfold encodedLength.
  rewrite (u64_small (4 * _)) by lia. rewrite u64_small by lia.
  rewrite land_not_3 by lia. lia.
Qed.

Lemma emit_chars fuel data nbits c : c ∈ (emit fuel data nbits).1 -> exists x, c = base64_char x.
Proof.
  revert nbits; induction fuel as [|fuel IH]; intros nbits; cbn [emit].
  { by intros ?%not_elem_of_nil. }
  destruct (6 <=? nbits); [|by intros ?%not_elem_of_nil].
  specialize (IH (nbits - 6)). destruct (emit _ _ _). cbn [fst] in *.
  intros [->|?]%elem_of_cons; eauto.
Qed.

Lemma encode_loop_chars s data nbits c : c ∈ encode_loop s data nbits -> exists x, c = base64_char x.
Proof.
  revert data nbits; induction s as [|a s IH]; intros data nbits; cbn [encode_loop].
  { case_decide; [by intros ?%not_elem_of_nil|]. intros ->%list_elem_of_singleton. eauto. }
  set (data' := i32 _). pose proof (emit_chars (Z.to_nat (nbits + 8)) data' (nbits + 8) c) as He.
  destruct (emit _ _ _). intros [?|?]%elem_of_app; eauto.
Qed.

(** Which characters occur in an encoding. *)
Lemma encode_no_char c s :
  c <> "="%char ->
  forallb (fun k => bool_decide (base64_char (Z.of_nat k) <> c)) (seq 0 64) = true -> c ∉ encode s.
Proof.
  intros Hc Hall. unfold encode. destruct (pad_eq 4 (encode_loop s 0 0)) as [k ->].
  rewrite elem_of_app. intros [[x Hx]%encode_loop_chars|[Hx _]%elem_of_replicate]; [|done].
  rewrite forallb_forall in Hall. specialize (Hall (Z.to_nat (x mod 64))).
  rewrite in_seq, bool_decide_eq_true in Hall. apply Hall; [lia|].
  rewrite Hx. apply base64_char_mod. lia.
Qed.

Lemma encode_no_colon s : ":"%char ∉ encode s.
Proof. apply encode_no_char; [done|]. vm_cast_no_check (eq_refl true). Qed.
Lemma encode_no_space s : " "%char ∉ encode s.
Proof. apply encode_no_char; [done|]. vm_cast_no_check (eq_refl true). Qed.

End base64.
