(* ===== verification/Hashing.v ===== *)
(** * Hashing: cryptographic hashes and their textual forms

    libutil/hash.cc and hash.hh.  The digest libraries (OpenSSL, BLAKE3) are
    the interface [HashLib]; [HashLibLaws] states what their documentation
    promises: streaming updates concatenate and the digest of an algorithm
    has its fixed size. *)

From S2P Require Export BaseN.
Local Open Scope Z_scope.

Inductive HashAlgorithm := MD5 | SHA1 | SHA256 | SHA512 | BLAKE3.
#[export] Instance HashAlgorithm_eq_dec : EqDecision HashAlgorithm.
Proof. solve_decision. Defined.

Inductive HashFormat := Base64 | Nix32 | Base16 | SRI.
#[export] Instance HashFormat_eq_dec : EqDecision HashFormat.
Proof. solve_decision. Defined.

Definition regularHashSize (type : HashAlgorithm) : nat :=
  match type with BLAKE3 => 32 | MD5 => 16 | SHA1 => 20 | SHA256 => 32 | SHA512 => 64 end.

Definition maxHashSize : nat := 64.
Arguments maxHashSize : simpl never.

(** [hash] is the whole 64-byte buffer; only [hashSize] bytes are the digest. *)
Record Hash := mkHash { hashSize : nat; hash : bytes; algo : HashAlgorithm }.
#[export] Instance Hash_eq_dec : EqDecision Hash.
Proof. solve_decision. Defined.

(** The bytes of the digest. *)
Definition digest_of (h : Hash) : bytes := take (hashSize h) (hash h).

(** [Hash::Hash(HashAlgorithm)]: zero-filled. *)
Definition new_Hash (a : HashAlgorithm) : result Hash :=
  let h := mkHash (regularHashSize a) (replicate maxHashSize (bZ 0)) a in
  _ ← assertb (hashSize h <=? maxHashSize)%nat;
  Ok h.

(** [memcpy(res.hash, d.data(), ...)] or a digest written over the buffer. *)
Definition set_digest (h : Hash) (d : bytes) : Hash :=
  mkHash (hashSize h) (take maxHashSize (d ++ drop (length d) (hash h))) (algo h).

(** A hash object as every operation leaves it: the digest has the size of
    the algorithm and the rest of the buffer is zero. *)
Record wf_Hash (h : Hash) : Prop := {
  wf_size : hashSize h = regularHashSize (algo h);
  wf_hash : exists d, length d = hashSize h /\ hash h = d ++ replicate (maxHashSize - hashSize h) (bZ 0);
}.

(** [operator==] *)
Definition Hash_eqb (h1 h2 : Hash) : bool :=
  if negb (hashSize h1 =? hashSize h2)%nat then false
  else forallb (fun i => bool_decide (hash h1 !! i = hash h2 !! i)) (seq 0 (hashSize h1)).

Definition HashAlgorithm_value (a : HashAlgorithm) : Z :=
  match a with MD5 => 42 | SHA1 => 43 | SHA256 => 44 | SHA512 => 45 | BLAKE3 => 46 end.

(** [operator<=>]: size, then the bytes, then the algorithm. *)
Fixpoint compare_upto (s t : bytes) (n : nat) : comparison :=
  match n, s, t with
  | S n, a :: s, b :: t => match Zb a ?= Zb b with Eq => compare_upto s t n | c => c end
  | _, _, _ => Eq
  end.
Definition Hash_compare (h1 h2 : Hash) : comparison :=
  match (hashSize h1 ?= hashSize h2)%nat with
  | Eq =>
      match compare_upto (hash h1) (hash h2) (hashSize h1) with
      | Eq => HashAlgorithm_value (algo h1) ?= HashAlgorithm_value (algo h2)
      | c => c
      end
  | c => c
  end.

(** ** Names of algorithms and formats *)

Definition parseHashFormatOpt (hashFormatName : bytes) : option HashFormat :=
  if decide (hashFormatName = #"base16") then Some Base16
  else if decide (hashFormatName = #"nix32") then Some Nix32
  else if decide (hashFormatName = #"base32") then Some Nix32
  else if decide (hashFormatName = #"base64") then Some Base64
  else if decide (hashFormatName = #"sri") then Some SRI
  else None.

Definition parseHashFormat (hashFormatName : bytes) : result HashFormat :=
  from_opt UsageError (parseHashFormatOpt hashFormatName).

Definition printHashFormat (f : HashFormat) : bytes :=
  match f with Base64 => #"base64" | Nix32 => #"nix32" | Base16 => #"base16" | SRI => #"sri" end.

Definition parseHashAlgoOpt (s : bytes) : option HashAlgorithm :=
  if decide (s = #"blake3") then Some BLAKE3
  else if decide (s = #"md5") then Some MD5
  else if decide (s = #"sha1") then Some SHA1
  else if decide (s = #"sha256") then Some SHA256
  else if decide (s = #"sha512") then Some SHA512
  else None.

Definition parseHashAlgo (s : bytes) : result HashAlgorithm :=
  from_opt UsageError (parseHashAlgoOpt s).

Definition printHashAlgo (ha : HashAlgorithm) : bytes :=
  match ha with
  | BLAKE3 => #"blake3" | MD5 => #"md5" | SHA1 => #"sha1"
  | SHA256 => #"sha256" | SHA512 => #"sha512"
  end.

(** ** Rendering *)

Definition to_string (h : Hash) (hashFormat : HashFormat) (includeAlgo : bool) : result bytes :=
  let s := if bool_decide (hashFormat = SRI) || includeAlgo
           then printHashAlgo (algo h) ++ (if decide (hashFormat = SRI) then #"-" else #":")
           else [] in
  let bs := take (hashSize h) (hash h) in
  _ ← assertb (negb (hashSize h =? 0)%nat);
  match hashFormat with
  | Base16 => Ok (s ++ base16.encode bs)
  | Nix32 => e ← BaseNix32.encode bs; Ok (s ++ e)
  | Base64 | SRI => Ok (s ++ base64.encode bs)
  end.

(** ** Parsing *)

(** [baseExplicit]: SRI is not an explicit base. *)
Definition baseExplicit (format : HashFormat) : result (bytes -> result bytes) :=
  match format with
  | Base16 => Ok base16.decode
  | Nix32 => Ok BaseNix32.decode
  | Base64 => Ok base64.decode
  | SRI => Throw AssertFailed
  end.

Definition baseFromSize (rest : bytes) (a : HashAlgorithm) : result HashFormat :=
  let hashSize := regularHashSize a in
  let size := Z.of_nat (length rest) in
  if size =? base16.encodedLength hashSize then Ok Base16
  else if size =? BaseNix32.encodedLength hashSize then Ok Nix32
  else if size =? base64.encodedLength hashSize then Ok Base64
  else Throw BadHash.

(** A decoding error is caught, annotated and dropped: [d] stays empty and
    the length test below reports it. *)
Definition parseLowLevel (rest : bytes) (a : HashAlgorithm) (decode : bytes -> result bytes) : result Hash :=
  res ← new_Hash a;
  d ← catch (decode rest) is_Error (fun _ => Ok []);
  _ ← throw_if (negb (length d =? hashSize res)%nat) BadHash;
  _ ← assertb (negb (hashSize res =? 0)%nat);
  Ok (set_digest res d).

Definition parseSRI (original : bytes) : result Hash :=
  '(hashRaw, rest) ← from_opt BadHash (splitPrefixTo original "-");
  parsedType ← parseHashAlgo hashRaw;
  parseLowLevel rest parsedType base64.decode.

Definition parseAnyHelper (rest : bytes)
    (resolveAlgo : option HashAlgorithm -> result HashAlgorithm) : result (Hash * HashFormat) :=
  let '(hashRaw, isSRI, rest) :=
    match splitPrefixTo rest ":" with
    | Some (p, r) => (Some p, false, r)
    | None =>
        match splitPrefixTo rest "-" with
        | Some (p, r) => (Some p, true, r)
        | None => (None, false, rest)
        end
    end in
  optParsedAlgo ← match hashRaw with
                  | Some p => Some <$> parseHashAlgo p
                  | None => Ok None
                  end;
  a ← resolveAlgo optParsedAlgo;
  '(decode, format) ←
    (if isSRI : bool then Ok (base64.decode, SRI)
     else format ← baseFromSize rest a; decode ← baseExplicit format; Ok (decode, format));
  h ← parseLowLevel rest a decode;
  Ok (h, format).

Definition parseAnyPrefixed (original : bytes) : result Hash :=
  fst <$> parseAnyHelper original (from_opt BadHash).

Definition parseAnyReturningFormat (original : bytes) (optAlgo : option HashAlgorithm)
    : result (Hash * HashFormat) :=
  parseAnyHelper original (fun optParsedAlgo =>
    match optParsedAlgo, optAlgo with
    | None, None => Throw BadHash
    | Some p, Some o => if decide (p = o) then Ok p else Throw BadHash
    | Some p, None => Ok p
    | None, Some o => Ok o
    end).

Definition parseAny (original : bytes) (optAlgo : option HashAlgorithm) : result Hash :=
  fst <$> parseAnyReturningFormat original optAlgo.

Definition parseExplicitFormatUnprefixed (s : bytes) (a : HashAlgorithm) (format : HashFormat) : result Hash :=
  decode ← baseExplicit format;
  parseLowLevel s a decode.

Definition parseNonSRIUnprefixed (s : bytes) (a : HashAlgorithm) : result Hash :=
  format ← baseFromSize s a;
  parseExplicitFormatUnprefixed s a format.

Definition newHashAllowEmpty (hashStr : bytes) (ha : option HashAlgorithm) : result Hash :=
  if decide (hashStr = []) then
    a ← from_opt BadHash ha;
    h ← new_Hash a;
    _ ← to_string h SRI true;
    Ok h
  else parseAny hashStr ha.

(** [compressHash]: cyclic XOR of the digest into [newSize] bytes. *)
Definition xor_at (i : nat) (x : Z) (s : bytes) : bytes :=
  alter (fun c => bZ (Z.lxor (Zb c) x)) i s.

Definition compressHash (h0 : Hash) (newSize : nat) : result Hash :=
  h ← new_Hash (algo h0);
  Ok (mkHash newSize
        (foldl (fun buf i => xor_at (i mod newSize) (byte_at (hash h0) i) buf)
           (hash h) (seq 0 (hashSize h0)))
        (algo h)).

(** ** Digests *)

Class HashLib := {
  Ctx : Type;
  start : HashAlgorithm -> Ctx;
  update : HashAlgorithm -> Ctx -> bytes -> Ctx;
  final : HashAlgorithm -> Ctx -> bytes;
}.

Class HashLibLaws (L : HashLib) : Prop := {
  update_nil : forall a c, update a c [] = c;
  update_app : forall a c s t, update a (update a c s) t = update a c (s ++ t);
  length_final : forall a c, length (final a c) = regularHashSize a;
}.

Definition finish `{HashLib} (ha : HashAlgorithm) (ctx : Ctx) (h : Hash) : Hash :=
  set_digest h (final ha ctx).

Definition hashString `{HashLib} (ha : HashAlgorithm) (s : bytes) : result Hash :=
  h ← new_Hash ha;
  Ok (finish ha (update ha (start ha) s) h).

(** The laws are consistent: digests that are the input, cut or padded. *)
Definition prefix_HashLib : HashLib := {|
  Ctx := bytes;
  start := fun _ => [];
  update := fun _ c s => c ++ s;
  final := fun a c => resize (regularHashSize a) (bZ 0) c;
|}.

Lemma prefix_HashLib_laws : HashLibLaws prefix_HashLib.
Proof.
  split; simpl; [intros; apply app_nil_r|intros; by rewrite app_assoc|intros; apply length_resize].
Qed.

(** ** Lemmas *)

Lemma new_Hash_Ok a : new_Hash a = Ok (mkHash (regularHashSize a) (replicate maxHashSize (bZ 0)) a).
Proof. by destruct a. Qed.

Lemma regularHashSize_bounds a : (0 < regularHashSize a <= maxHashSize)%nat.
Proof. unfold maxHashSize. destruct a; simpl; lia. Qed.

Lemma parseHashAlgo_print a : parseHashAlgo (printHashAlgo a) = Ok a.
Proof. by destruct a. Qed.

Lemma printHashAlgo_inj a b : printHashAlgo a = printHashAlgo b -> a = b.
Proof. by destruct a, b. Qed.

Lemma printHashAlgo_no c a : c ∈ [":"%char; "-"%char] -> c ∉ printHashAlgo a.
Proof.
  intros Hc. assert (bool_decide (Forall (fun c => c ∉ printHashAlgo a) [":"%char; "-"%char]) = true)
    as Hall%bool_decide_eq_true by (by destruct a).
  rewrite Forall_forall in Hall. by apply Hall.
Qed.

Lemma length_digest h : wf_Hash h -> length (digest_of h) = regularHashSize (algo h).
Proof.
  intros [Hs (d & Hd & He)]. unfold digest_of. rewrite He, <- Hs, <- Hd.
  by rewrite take_app_length.
Qed.

(** A well-formed hash is determined by its algorithm and its digest. *)
Lemma wf_Hash_eta h :
  wf_Hash h ->
  h = mkHash (regularHashSize (algo h))
        (digest_of h ++ replicate (maxHashSize - regularHashSize (algo h)) (bZ 0)) (algo h).
Proof.
  destruct h as [n b a]. intros [Hs (d & Hd & He)]; simpl in *. subst.
  unfold digest_of; simpl. rewrite <- Hd, take_app_length. by rewrite Hd.
Qed.

(** Well-formed hashes of one algorithm that [operator==] takes for equal. *)
Lemma Hash_eqb_eq h1 h2 : wf_Hash h1 -> wf_Hash h2 -> algo h1 = algo h2 -> Hash_eqb h1 h2 = true -> h1 = h2.
Proof.
  intros Hw1 Hw2 Ha He. rewrite (wf_Hash_eta h1 Hw1), (wf_Hash_eta h2 Hw2), Ha. do 2 f_equal.
  unfold Hash_eqb in He. unfold digest_of. destruct (hashSize h1 =? hashSize h2)%nat eqn:Hs; [|done]. apply Nat.eqb_eq in Hs. rewrite <- Hs.
  cbn [negb] in He. rewrite forallb_forall in He. apply list_eq. intros i.
  destruct (decide (i < hashSize h1)%nat) as [Hi|Hi].
  - rewrite !lookup_take_lt by done. apply (bool_decide_eq_true_1 (hash h1 !! i = hash h2 !! i)), He, in_seq. lia.
  - by rewrite !lookup_take_ge by lia.
Qed.

Lemma set_new_Hash a d :
  length d = regularHashSize a ->
  set_digest (mkHash (regularHashSize a) (replicate maxHashSize (bZ 0)) a) d =
  mkHash (regularHashSize a) (d ++ replicate (maxHashSize - regularHashSize a) (bZ 0)) a.
Proof.
  intros Hd. unfold set_digest; cbn [hashSize hash algo]. f_equal. rewrite drop_replicate, Hd.
  apply take_ge. rewrite length_app, length_replicate, Hd.
  pose proof (regularHashSize_bounds a). lia.
Qed.

Lemma wf_mkHash a d :
  length d = regularHashSize a ->
  wf_Hash (mkHash (regularHashSize a) (d ++ replicate (maxHashSize - regularHashSize a) (bZ 0)) a).
Proof. intros Hd. split; simpl; [done|]. by exists d. Qed.

Lemma digest_of_mkHash a d r :
  length d = regularHashSize a -> digest_of (mkHash (regularHashSize a) (d ++ r) a) = d.
Proof. intros Hd. unfold digest_of; simpl. by rewrite <- Hd, take_app_length. Qed.

Lemma hash_size_small h : wf_Hash h -> Z.of_nat (length (digest_of h)) < 2 ^ 28.
Proof. intros Hwf. rewrite length_digest by done. pose proof (regularHashSize_bounds (algo h)). unfold maxHashSize in *. lia. Qed.

(** The low-level parser either builds a well-formed hash of the requested
    algorithm or reports a bad hash, unless the decoder aborts. *)
Lemma parseLowLevel_spec s a decode :
  (exists d, decode s = Ok d /\ length d = regularHashSize a /\
     parseLowLevel s a decode =
     Ok (mkHash (regularHashSize a) (d ++ replicate (maxHashSize - regularHashSize a) (bZ 0)) a)) \/
  parseLowLevel s a decode = Throw BadHash \/
  (exists e, decode s = Throw e /\ is_Error e = false /\ parseLowLevel s a decode = Throw e).
Proof.
  unfold parseLowLevel. rewrite new_Hash_Ok. cbn [mbind result_bind hashSize].
  pose proof (regularHashSize_bounds a) as Hb.
  destruct (decode s) as [d|e] eqn:Hd; cbn [catch].
  - cbn [mbind result_bind]. destruct (Nat.eqb_spec (length d) (regularHashSize a)) as [He|He].
    + left. exists d. split; [done|]. split; [done|]. cbn.
      rewrite (proj2 (Nat.eqb_neq _ _)) by lia. cbn. by rewrite set_new_Hash.
    + right. left. done.
  - destruct (is_Error e) eqn:He; cbn [mbind result_bind].
    + right. left. cbn [length hashSize]. by rewrite (proj2 (Nat.eqb_neq 0 _)) by lia.
    + right. right. eauto.
Qed.

Lemma parseLowLevel_Ok h s decode :
  wf_Hash h -> decode s = Ok (digest_of h) -> parseLowLevel s (algo h) decode = Ok h.
Proof.
  intros Hwf Hd. unfold parseLowLevel. rewrite new_Hash_Ok, Hd. cbn.
  rewrite length_digest by done. rewrite Nat.eqb_refl. cbn.
  pose proof (regularHashSize_bounds (algo h)). rewrite (proj2 (Nat.eqb_neq _ _)) by lia. cbn.
  rewrite set_new_Hash by (by apply length_digest). f_equal. symmetry. by apply wf_Hash_eta.
Qed.

(** The unprefixed rendering of a digest. *)
Definition encode_as (f : HashFormat) (d : bytes) : result bytes :=
  match f with
  | Base16 => Ok (base16.encode d)
  | Nix32 => BaseNix32.encode d
  | Base64 | SRI => Ok (base64.encode d)
  end.

Lemma to_string_eq h f b :
  (0 < hashSize h)%nat ->
  to_string h f b =
  e ← encode_as f (digest_of h);
  Ok ((if bool_decide (f = SRI) || b
       then printHashAlgo (algo h) ++ (if decide (f = SRI) then #"-" else #":") else []) ++ e).
Proof.
  intros Hs. unfold to_string, digest_of. rewrite (proj2 (Nat.eqb_neq _ _)) by lia.
  cbn [negb assertb throw_if mbind result_bind]. by destruct f.
Qed.

Lemma encode_as_Ok f h :
  wf_Hash h ->
  exists e, encode_as f (digest_of h) = Ok e /\
    match f with
    | SRI => base64.decode e = Ok (digest_of h)
    | _ => baseFromSize e (algo h) = Ok f /\
           exists dec, baseExplicit f = Ok dec /\ dec e = Ok (digest_of h)
    end.
Proof.
  intros Hwf. pose proof (length_digest h Hwf) as Hl. pose proof (hash_size_small h Hwf) as Hsm.
  destruct f; simpl.
  - exists (base64.encode (digest_of h)). split; [done|]. split.
    + unfold baseFromSize. rewrite base64.encodedLength_encode, Hl by lia. by destruct (algo h).
    + exists base64.decode. split; [done|apply base64.decode_encode64].
  - pose proof (BaseNix32.decode_encode (digest_of h) Hsm) as Hrt.
    destruct (BaseNix32.encode (digest_of h)) as [e|] eqn:He; [|done]. exists e. split; [done|].
    split; [|exists BaseNix32.decode; done].
    assert (length (digest_of h) <> 0%nat) as Hne
      by (pose proof (regularHashSize_bounds (algo h)); lia).
    pose proof (BaseNix32.length_encode _ _ Hsm Hne He) as Hle.
    unfold baseFromSize. rewrite Hle, Hl. by destruct (algo h).
  - exists (base16.encode (digest_of h)). split; [done|]. split.
    + unfold baseFromSize. rewrite base16.length_encode16, Hl. by destruct (algo h).
    + exists base16.decode. split; [done|apply base16.decode_encode16].
  - exists (base64.encode (digest_of h)). split; [done|apply base64.decode_encode64].
Qed.

Lemma to_string_Ok h f b : wf_Hash h -> exists s, to_string h f b = Ok s.
Proof.
  intros Hwf. destruct (encode_as_Ok f h Hwf) as (e & He & _).
  rewrite to_string_eq, He; [cbn; eauto|].
  destruct Hwf as [-> _]. apply regularHashSize_bounds.
Qed.

(** Every parser accepts only well-formed hashes of the expected algorithm. *)
Lemma parseLowLevel_wf s a decode h :
  parseLowLevel s a decode = Ok h -> wf_Hash h /\ algo h = a.
Proof.
  destruct (parseLowLevel_spec s a decode) as [(d & _ & Hd & ->)|[->|(e & _ & _ & ->)]]; [|done..].
  intros [= <-]. split; [by apply wf_mkHash|done].
Qed.

(** A decoder that only reports errors leaves two outcomes. *)
Lemma parseLowLevel_total s a decode :
  (forall e, decode s = Throw e -> is_Error e = true) ->
  (exists h, parseLowLevel s a decode = Ok h /\ wf_Hash h /\ algo h = a) \/
  parseLowLevel s a decode = Throw BadHash.
Proof.
  intros Hd. destruct (parseLowLevel s a decode) as [h|e] eqn:He.
  - left. exists h. split; [done|]. by eapply parseLowLevel_wf.
  - right. destruct (parseLowLevel_spec s a decode) as [(d & _ & _ & H)|[H|(x & Hx & Hn & H)]];
      [congruence..|]. apply Hd in Hx. congruence.
Qed.

Lemma base64_decode_error s e : base64.decode s = Throw e -> is_Error e = true.
Proof. intros H%base64.decode_loop_throws. by subst. Qed.

(** The format guessed from the length never trips the decoder's assertion. *)
Lemma baseFromSize_total s a :
  (exists f dec, baseFromSize s a = Ok f /\ baseExplicit f = Ok dec /\
                 forall e, dec s = Throw e -> is_Error e = true) \/
  baseFromSize s a = Throw BadHash.
Proof.
  unfold baseFromSize.
  destruct (Z.eqb_spec (Z.of_nat (length s)) (base16.encodedLength (regularHashSize a))) as [Hl|_].
  - left. exists Base16, base16.decode. repeat split.
    intros e [->|[Hodd _]]%base16.decode_throws16; [done|]. exfalso. apply Hodd.
    rewrite Nat.Div0.mod_divides. exists (regularHashSize a).
    pose proof (regularHashSize_bounds a) as Hb. unfold maxHashSize, base16.encodedLength in *.
    rewrite u64_small in Hl by lia. lia.
  - step; [|step; [|by right]]; left.
    + exists Nix32, BaseNix32.decode. repeat split. by intros e ->%BaseNix32.decode_throws.
    + exists Base64, base64.decode. repeat split. apply base64_decode_error.
Qed.

Lemma length_xor_at i x s : length (xor_at i x s) = length s.
Proof. apply length_alter. Qed.

Lemma byte_at_xor_at i x s j :
  0 <= x < 256 -> (i < length s)%nat ->
  byte_at (xor_at i x s) j = if decide (i = j) then Z.lxor (byte_at s j) x else byte_at s j.
Proof.
  intros Hx Hi. unfold byte_at, xor_at. case_decide as Hj.
  - subst j. rewrite list_lookup_alter. destruct (lookup_lt_is_Some_2 s i Hi) as [c ->].
    rewrite decide_True by done.
    cbn [fmap option_fmap option_map default from_option id].
    rewrite Zb_bZ. pose proof (Zb_range c). apply Z.mod_small. split.
    + apply Z.lxor_nonneg. lia.
    + destruct (Z.eq_dec (Z.lxor (Zb c) x) 0) as [->|Hn]; [lia|].
      apply (Z.log2_lt_pow2 _ 8).
      * pose proof (proj2 (Z.lxor_nonneg (Zb c) x)). lia.
      * pose proof (Z.log2_lxor (Zb c) x ltac:(lia) ltac:(lia)).
        assert (forall y, 0 <= y < 256 -> Z.log2 y < 8) as Hl.
        { intros y Hy. destruct (Z.eq_dec y 0) as [->|]; [done|].
          apply (Z.log2_lt_pow2 y 8); lia. }
        pose proof (Hl (Zb c)). pose proof (Hl x). lia.
  - rewrite list_lookup_alter. by rewrite decide_False.
Qed.

(** The XOR of the bytes of [s] at the positions of [l]. *)
Definition xor_bytes (s : bytes) (l : list nat) : Z := foldl (fun x i => Z.lxor x (byte_at s i)) 0 l.

Lemma xor_fold s n j l buf :
  (0 < n <= length buf)%nat ->
  byte_at (foldl (fun buf i => xor_at (i mod n) (byte_at s i) buf) buf l) j =
  foldl (fun x i => Z.lxor x (byte_at s i)) (byte_at buf j) (filter (fun i => (i mod n)%nat = j) l).
Proof.
  revert buf. induction l as [|i l IH]; intros buf Hn; [done|]. cbn [foldl].
  rewrite IH by (by rewrite length_xor_at).
  pose proof (Nat.mod_upper_bound i n) as Hi.
  rewrite byte_at_xor_at by (apply byte_at_range || lia). rewrite filter_cons. by case_decide.
Qed.

Lemma hashString_Ok `{HashLibLaws} ha s :
  exists h, hashString ha s = Ok h /\ wf_Hash h /\ algo h = ha /\
            digest_of h = final ha (update ha (start ha) s).
Proof.
  unfold hashString. rewrite new_Hash_Ok. cbn. eexists. split; [done|].
  unfold finish. rewrite set_new_Hash by apply length_final.
  split; [|split; [done|]]; [apply wf_mkHash|apply digest_of_mkHash]; apply length_final.
Qed.

(** The compressed digest of [compressHash]. *)
Lemma compressHash_Ok h n :
  (0 < n <= maxHashSize)%nat ->
  exists h', compressHash h n = Ok h' /\ hashSize h' = n /\ algo h' = algo h /\
             length (digest_of h') = n.
Proof.
  intros Hn. unfold compressHash. rewrite new_Hash_Ok. cbn [mbind result_bind]. eexists.
  split; [done|]. split; [done|]. split; [done|]. unfold digest_of; cbn [hashSize hash].
  rewrite length_take. rewrite Nat.min_l; [done|].
  assert (forall l buf, length (foldl (fun buf i => xor_at (i mod n) (byte_at (hash h) i) buf) buf l) = length buf) as ->.
  { induction l as [|i l IH]; intros buf; [done|]. cbn [foldl]. by rewrite IH, length_xor_at. }
  rewrite length_replicate. lia.
Qed.

Lemma parseAnyHelper_to_string h f r :
  wf_Hash h -> r (Some (algo h)) = Ok (algo h) ->
  (s ← to_string h f true; parseAnyHelper s r) = Ok (h, f).
Proof.
  intros Hwf Hr. destruct (encode_as_Ok f h Hwf) as (e & He & Hdec).
  assert (0 < hashSize h)%nat as Hs by (destruct Hwf as [-> _]; apply regularHashSize_bounds).
  rewrite to_string_eq, He by done. rewrite orb_true_r. cbn [mbind result_bind].
  unfold parseAnyHelper. rewrite <- app_assoc.
  destruct (decide (f = SRI)) as [->|Hf]; cbn [lit String.list_ascii_of_string app].
  - rewrite (proj2 (splitPrefixTo_None _ _)).
    + rewrite splitPrefixTo_app by (apply printHashAlgo_no; set_solver).
      rewrite parseHashAlgo_print. cbn [fmap result_fmap mbind result_bind]. rewrite Hr. cbn [mbind result_bind].
      by rewrite (parseLowLevel_Ok h).
    + rewrite elem_of_app, elem_of_cons. intros [Hc|[Hc|Hc]].
      * revert Hc. apply printHashAlgo_no. set_solver.
      * done.
      * simpl in He. injection He as <-. revert Hc. apply base64.encode_no_colon.
  - rewrite splitPrefixTo_app by (apply printHashAlgo_no; set_solver).
    rewrite parseHashAlgo_print. cbn [fmap result_fmap mbind result_bind]. rewrite Hr. cbn [mbind result_bind].
    assert (baseFromSize e (algo h) = Ok f /\ exists dec, baseExplicit f = Ok dec /\ dec e = Ok (digest_of h))
      as [-> (dec & Hb & Hd)] by (by destruct f).
    cbn [mbind result_bind]. rewrite Hb. cbn [mbind result_bind]. by rewrite (parseLowLevel_Ok h).
Qed.

Lemma parseAnyPrefixed_to_string h f :
  wf_Hash h -> (s ← to_string h f true; parseAnyPrefixed s) = Ok h.
Proof.
  intros Hwf. pose proof (parseAnyHelper_to_string h f (from_opt BadHash) Hwf eq_refl) as Hp.
  unfold parseAnyPrefixed. destruct (to_string h f true) as [s|]; cbn [mbind result_bind] in *; [|done].
  by rewrite Hp.
Qed.

(** ** Properties *)

(** C38: Rendering a hash in any of the four formats with its algorithm
    prefix and parsing the text back (with no algorithm given) returns the
    same hash and recognises the format. *)
Theorem parse_to_string h f :
  wf_Hash h -> (s ← to_string h f true; parseAnyReturningFormat s None) = Ok (h, f).
Proof. intros Hwf. unfold parseAnyReturningFormat. by apply parseAnyHelper_to_string. Qed.

Lemma parse_to_string_witness : exists h,
  wf_Hash h /\ (s ← to_string h SRI true; parseAnyReturningFormat s None) = Ok (h, SRI).
Proof.
  exists (mkHash 16 (replicate 16 "a"%char ++ replicate (maxHashSize - 16) (bZ 0)) MD5).
  assert (wf_Hash (mkHash 16 (replicate 16 "a"%char ++ replicate (maxHashSize - 16) (bZ 0)) MD5)) as Hwf
    by (by apply (wf_mkHash MD5)).
  split; [exact Hwf|]. apply parse_to_string. exact Hwf.
Defined.

(** Parsing any text as a hash returns a well-formed hash (of the
    requested algorithm when one is given) or throws [BadHash] or
    [UsageError]; no input makes the parser abort. *)
Theorem parseAny_total s optAlgo :
  match parseAny s optAlgo with
  | Ok h => wf_Hash h /\ (forall a, optAlgo = Some a -> algo h = a)
  | Throw e => e = BadHash \/ e = UsageError
  end.
Proof.
  unfold parseAny, parseAnyReturningFormat, parseAnyHelper.
  match goal with |- context [let '(_, _) := ?x in _] => destruct x as [[hashRaw isSRI] rest] end.
  match goal with |- context [?m ≫= _] =>
    assert ((exists o, m = Ok o) \/ m = Throw UsageError) as [[o ->]| ->] end.
  { destruct hashRaw as [p|]; [|by left; eauto]. unfold parseHashAlgo.
    destruct (parseHashAlgoOpt p); [left; by eauto|by right]. }
  2: { cbn. by right. }
  cbn [mbind result_bind].
  match goal with |- context [?m ≫= _] =>
    assert ((exists a, m = Ok a /\ forall a', optAlgo = Some a' -> a = a') \/ m = Throw BadHash)
      as [(a & -> & Ha)| ->] end.
  { destruct o as [o|], optAlgo as [a'|]; try case_decide; subst; eauto; left; eexists;
      (split; [done|]); congruence. }
  2: { cbn. by left. }
  cbn [mbind result_bind]. destruct isSRI.
  - cbn [mbind result_bind].
    destruct (parseLowLevel_total rest a base64.decode (base64_decode_error _)) as [(h & -> & Hwf & <-)| ->];
      cbn; eauto.
  - destruct (baseFromSize_total rest a) as [(f & dec & -> & Hb & Hd)| ->]; [|cbn; by left].
    cbn [mbind result_bind]. rewrite Hb. cbn [mbind result_bind].
    destruct (parseLowLevel_total rest a dec Hd) as [(h & -> & Hwf & <-)| ->]; cbn; eauto.
Qed.

(** Byte [j] of a compressed hash is the XOR of exactly the digest bytes
    whose position is [j] modulo the new size. *)
Theorem compressHash_spec h n j :
  (0 < n <= maxHashSize)%nat -> (j < n)%nat ->
  exists h', compressHash h n = Ok h' /\ hashSize h' = n /\ algo h' = algo h /\
    byte_at (hash h') j =
      xor_bytes (hash h) (filter (fun i => (i mod n)%nat = j) (seq 0 (hashSize h))).
Proof.
  intros Hn Hj. unfold compressHash. rewrite new_Hash_Ok. cbn [mbind result_bind]. eexists.
  split; [done|]. cbn [hashSize algo hash]. split; [done|]. split; [done|].
  rewrite xor_fold by (rewrite length_replicate; lia). unfold xor_bytes. f_equal.
  unfold byte_at. by rewrite lookup_replicate_2 by lia.
Qed.

Lemma compressHash_spec_witness : exists h',
  compressHash (mkHash 32 (replicate 64 "a"%char) SHA256) 20 = Ok h' /\ hashSize h' = 20%nat /\
  algo h' = SHA256 /\
  byte_at (hash h') 12 =
    xor_bytes (replicate 64 "a"%char) (filter (fun i => (i mod 20)%nat = 12%nat) (seq 0 32)).
Proof.
  apply (compressHash_spec (mkHash 32 (replicate 64 "a"%char) SHA256) 20 12); unfold maxHashSize; lia.
Defined.
