(* ===== verification/CanonPath.v ===== *)
(** * CanonPath: canonical paths

    libutil/file-path-impl.hh (the canonicalisation loop), canon-path.cc and
    canon-path.hh (the [CanonPath] class), and the path functions of
    file-system.cc.  The specification is in terms of the list of components
    of a path; [join_path] and [components] pass between the two. *)

From S2P Require Export Bytes.

Definition slash : ascii := "/"%char.
Definition NUL : ascii := Ascii.zero.

(** ** The canonicalisation loop (Unix paths) *)

Fixpoint skip_slashes (s : bytes) : bytes :=
  match s with
  | c :: s' => if decide (c = slash) then skip_slashes s' else s
  | [] => []
  end.

(** [result.erase(pos)] *)
Definition erase_from (s : bytes) (pos : option nat) : result bytes :=
  match pos with Some i => Ok (take i s) | None => Throw OutOfRange end.

Section canonPathInner.
(** The callback gets the result so far and the remaining path and may
    change both; [S] is what it captures by reference. *)
Context {S : Type} (hookComponent : S -> bytes -> bytes -> result (S * bytes * bytes)).

(** One run of the [while (true)] body; [None] is the [break]. *)
Definition canon_iter (s : S) (result remaining : bytes) : Prelude.result (option (S * bytes * bytes)) :=
  let remaining := skip_slashes remaining in
  if decide (remaining = []) then Ok None
  else
    let nextComp := match find_char slash remaining with
                    | None => remaining | Some i => take i remaining end in
    if decide (nextComp = #".") then Ok (Some (s, result, drop 1 remaining))
    else if decide (nextComp = #"..") then
      result ← (if decide (result = []) then Ok result
                else erase_from result (rfind_char slash result));
      Ok (Some (s, result, drop 2 remaining))
    else
      let '(result, remaining) :=
        match find_char slash remaining with
        | None => (result ++ slash :: remaining, [])
        | Some i => (result ++ slash :: take i remaining, drop i remaining)
        end in
      Some <$> hookComponent s result remaining.

Fixpoint canon_loop (fuel : nat) (s : S) (result remaining : bytes) : option (Prelude.result bytes) :=
  match fuel with
  | O => None
  | Datatypes.S fuel =>
      match canon_iter s result remaining with
      | Throw e => Some (Throw e)
      | Ok None => Some (Ok result)
      | Ok (Some (s, result, remaining)) => canon_loop fuel s result remaining
      end
  end.

Definition canonPathInner (fuel : nat) (s : S) (remaining : bytes) : option (Prelude.result bytes) :=
  match assertb (bool_decide (remaining <> [])) with
  | Throw e => Some (Throw e)
  | Ok _ =>
      (fun r => result ← r; Ok (if decide (result = []) then [slash] else result)) <$>
      canon_loop fuel s [] remaining
  end.
End canonPathInner.

(** Every iteration consumes input when the callback does nothing, so the
    length of the path is enough fuel ([absPathPure_spec] below). *)
Definition absPathPure (path : bytes) : result bytes :=
  default (Throw AssertFailed)
    (canonPathInner (fun _ r m => Ok ((), r, m)) (S (length path)) () path).

(** ** The class *)

Record CanonPath := unchecked { path : bytes }.
#[export] Instance CanonPath_eq_dec : EqDecision CanonPath.
Proof. solve_decision. Defined.

Definition root : CanonPath := unchecked [slash].
Definition abs (p : CanonPath) : bytes := path p.
Definition isRoot (p : CanonPath) : bool := (length (path p) <=? 1)%nat.
Definition absOrEmpty (p : CanonPath) : bytes := if isRoot p then [] else path p.
Definition rel (p : CanonPath) : bytes := drop 1 (path p).

Definition ensureNoNullBytes (s : bytes) : result unit :=
  throw_if (bool_decide (NUL ∈ s)) BadCanonPath.

(** [CanonPath::CanonPath(std::string_view)] *)
Definition CanonPath_new (raw : bytes) : result CanonPath :=
  p ← absPathPure (#"/" ++ raw);
  _ ← ensureNoNullBytes raw;
  Ok (unchecked p).

(** [CanonPath::CanonPath(std::string_view, const CanonPath &)] *)
Definition CanonPath_at (raw : bytes) (root : CanonPath) : result CanonPath :=
  p ← absPathPure (if bool_decide (head raw = Some slash) then raw
                   else abs root ++ #"/" ++ raw);
  _ ← ensureNoNullBytes raw;
  Ok (unchecked p).

Definition push (p : CanonPath) (c : bytes) : result CanonPath :=
  _ ← assertb (bool_decide (slash ∉ c));
  _ ← assertb (bool_decide (c <> #"." /\ c <> #".."));
  _ ← ensureNoNullBytes c;
  Ok (unchecked (path p ++ (if isRoot p then [] else [slash]) ++ c)).

(** [CanonPath::CanonPath(const std::vector<std::string> &)] *)
Definition CanonPath_of_elems (elems : list bytes) : result CanonPath := foreach push root elems.

(** *** Iteration *)

Record Iterator := mkIterator { remaining : bytes; it_slash : option nat }.

Definition Iterator_new (remaining : bytes) : Iterator :=
  mkIterator remaining (find_char slash remaining).

(** Two iterators over one path point into the same string: their [data()]
    pointers agree iff as much of it remains. *)
Definition it_eq (a b : Iterator) : bool :=
  (length (remaining a) =? length (remaining b))%nat.

Definition it_deref (a : Iterator) : bytes :=
  match it_slash a with Some i => take i (remaining a) | None => remaining a end.

Definition it_next (a : Iterator) : Iterator :=
  match it_slash a with
  | None => mkIterator (drop (length (remaining a)) (remaining a)) None
  | Some i => Iterator_new (drop (S i) (remaining a))
  end.

Definition it_begin (p : CanonPath) : Iterator := Iterator_new (rel p).
Definition it_end (p : CanonPath) : Iterator := Iterator_new (drop (length (path p) - 1) (rel p)).

Fixpoint elems_from (fuel : nat) (i e : Iterator) : list bytes :=
  match fuel with
  | O => []
  | S fuel => if it_eq i e then [] else it_deref i :: elems_from fuel (it_next i) e
  end.
(** A range-for over the path. *)
Definition elems (p : CanonPath) : list bytes :=
  elems_from (S (length (path p))) (it_begin p) (it_end p).

Definition fromFilename (segment : bytes) : result CanonPath :=
  res ← CanonPath_new segment;
  _ ← throw_if (bool_decide (segment <> rel res) || negb (length (elems res) =? 1)%nat) BadCanonPath;
  Ok res.

(** *** Parents and base names *)

Definition parent (p : CanonPath) : option CanonPath :=
  if isRoot p then None
  else Some (unchecked match rfind_char slash (path p) with
                       | Some i => take (1 `max` i) (path p)
                       | None => path p
                       end).

Definition pop (p : CanonPath) : result CanonPath :=
  _ ← assertb (negb (isRoot p));
  match rfind_char slash (path p) with
  | Some i => Ok (unchecked (take (1 `max` i) (path p)))
  | None => Throw OutOfRange
  end.

Definition dirOf (p : CanonPath) : option bytes :=
  if isRoot p then None
  else Some match rfind_char slash (path p) with Some i => take i (path p) | None => path p end.

(** [npos + 1] is 0. *)
Definition baseName (p : CanonPath) : option bytes :=
  if isRoot p then None
  else Some match rfind_char slash (path p) with Some i => drop (S i) (path p) | None => path p end.

(** *** Comparison, containment *)

(** A path separator counts as the character 0; characters are signed. *)
Definition char_key (c : ascii) : Z := if decide (c = slash) then 0 else sb c.

Fixpoint path_compare (s t : bytes) : comparison :=
  match s, t with
  | a :: s, b :: t =>
      match (char_key a ?= char_key b)%Z with Eq => path_compare s t | c => c end
  | [], [] => Eq
  | [], _ => Lt
  | _, [] => Gt
  end.
Definition CanonPath_compare (p q : CanonPath) : comparison := path_compare (path p) (path q).
Definition CanonPath_lt (p q : CanonPath) : Prop := CanonPath_compare p q = Lt.
#[export] Instance CanonPath_lt_dec p q : Decision (CanonPath_lt p q).
Proof. unfold CanonPath_lt. apply _. Defined.

Definition isWithin (p parent : CanonPath) : bool :=
  negb ((length (path p) <? length (path parent))%nat
        || bool_decide (take (length (path parent)) (path p) <> path parent)
        || ((1 <? length (path parent))%nat && (length (path parent) <? length (path p))%nat
            && bool_decide (path p !! length (path parent) <> Some slash))).

Definition removePrefix (p prefix : CanonPath) : result CanonPath :=
  _ ← assertb (isWithin p prefix);
  if isRoot prefix then Ok p
  else if (length (path p) =? length (path prefix))%nat then Ok root
  else Ok (unchecked (drop (length (path prefix)) (path p))).

Definition extend (p x : CanonPath) : CanonPath :=
  if isRoot x then p
  else if isRoot p then unchecked (path p ++ rel x)
  else unchecked (path p ++ abs x).

(** [operator/] on two paths, and on a path and a component. *)
Definition concat_path (p x : CanonPath) : CanonPath := extend p x.
Definition concat_comp (p : CanonPath) (c : bytes) : result CanonPath := push p c.

(** A [std::set<CanonPath>] is the list of its elements in order. *)
Definition lower_bound (s : list CanonPath) (p : CanonPath) : option CanonPath :=
  List.find (fun x => negb (bool_decide (CanonPath_lt x p))) s.

Fixpoint parent_allowed (fuel : nat) (p : CanonPath) (allowed : list CanonPath) : result bool :=
  match fuel with
  | O => Ok false
  | S fuel =>
      if isRoot p then Ok false
      else
        p ← pop p;
        if bool_decide (p ∈ allowed) then Ok true
        else parent_allowed fuel p allowed
  end.

(** Each [pop] shortens the path: its length bounds the loop. *)
Definition isAllowed (p : CanonPath) (allowed : list CanonPath) : result bool :=
  if match lower_bound allowed p with Some lb => isWithin lb p | None => false end
  then Ok true
  else parent_allowed (length (path p)) p allowed.

(** *** Relative paths *)

Fixpoint skip_common (fuel : nat) (p1 e1 p2 e2 : Iterator) : Iterator * Iterator :=
  match fuel with
  | O => (p1, p2)
  | S fuel =>
      if negb (it_eq p1 e1) && negb (it_eq p2 e2) && bool_decide (it_deref p1 = it_deref p2)
      then skip_common fuel (it_next p1) e1 (it_next p2) e2
      else (p1, p2)
  end.

Fixpoint dotdots (fuel : nat) (p1 e1 : Iterator) (res : bytes) : bytes :=
  match fuel with
  | O => res
  | S fuel =>
      if it_eq p1 e1 then res
      else dotdots fuel (it_next p1) e1 (res ++ (if decide (res = []) then [] else #"/") ++ #"..")
  end.

Definition makeRelative (this path' : CanonPath) : bytes :=
  let n := S (length (path this)) in
  let '(p1, p2) := skip_common n (it_begin this) (it_end this) (it_begin path') (it_end path') in
  if it_eq p1 (it_end this) && it_eq p2 (it_end path') then #"."
  else if it_eq p1 (it_end this) then remaining p2
  else
    let res := dotdots n p1 (it_end this) [] in
    if it_eq p2 (it_end path') then res
    else res ++ (if decide (res = []) then [] else #"/") ++ remaining p2.

(** ** [canonPath] of file-system.cc

    The file system is the parameter [readLink]: the target when the path is
    a symbolic link ([std::filesystem::is_symlink] and [readLink]). *)

(** [std::filesystem::path::parent_path] of a path without repeated slashes. *)
Definition parent_path (s : bytes) : bytes :=
  match rfind_char slash s with
  | Some 0%nat => [slash]
  | Some i => take i s
  | None => []
  end.
Definition is_absolute (s : bytes) : bool := bool_decide (head s = Some slash).

Section canonPath.
Context (readLink : bytes -> option bytes) (resolveSymlinks : bool).

Definition maxFollow : Z := 1024.

(** The callback of [canonPath]; the state is [followCount]. *)
Definition follow_hook (followCount : Z) (result remaining : bytes) : Prelude.result (Z * bytes * bytes) :=
  match (if resolveSymlinks then readLink result else None) with
  | None => Ok (followCount, result, remaining)
  | Some target =>
      let followCount := u32 (followCount + 1) in
      _ ← throw_if (maxFollow <=? followCount)%Z Error;
      let remaining := target ++ remaining in
      if is_absolute remaining then Ok (followCount, [], remaining)
      else
        let result := parent_path result in
        Ok (followCount, if decide (result = [slash]) then [] else result, remaining)
  end.

Definition canonPath (fuel : nat) (path : bytes) : option (Prelude.result bytes) :=
  match (_ ← throw_if (bool_decide (path = [])) Error; throw_if (negb (is_absolute path)) Error) with
  | Throw e => Some (Throw e)
  | Ok _ => canonPathInner follow_hook fuel 0%Z path
  end.
End canonPath.

(** ** Specification: paths as lists of components *)

(** [s] cut at every slash, empty pieces included. *)
Fixpoint pieces (s : bytes) : list bytes :=
  match s with
  | [] => [[]]
  | c :: s =>
      if decide (c = slash) then [] :: pieces s
      else match pieces s with p :: ps => (c :: p) :: ps | [] => [[c]] end
  end.

Definition components (s : bytes) : list bytes := filter (fun p => p <> []) (pieces s).

Definition joinE (cs : list bytes) : bytes := mjoin (cons slash <$> cs).
Definition join_path (cs : list bytes) : bytes := if decide (cs = []) then [slash] else joinE cs.

(** What [.] and [..] mean. *)
Definition resolve1 (cs : list bytes) (c : bytes) : list bytes :=
  if decide (c = #".") then cs
  else if decide (c = #"..") then take (length cs - 1) cs
  else cs ++ [c].
Definition resolve (cs l : list bytes) : list bytes := foldl resolve1 cs l.

Definition good (c : bytes) : Prop :=
  c <> [] /\ c <> #"." /\ c <> #".." /\ slash ∉ c /\ NUL ∉ c.
#[export] Instance good_dec c : Decision (good c).
Proof. unfold good. apply _. Defined.

(** The class invariant. *)
Definition canonical (p : CanonPath) : Prop :=
  exists cs, Forall good cs /\ path p = join_path cs.

(** *** Lemmas on pieces and joining *)

Lemma pieces_cons s : exists p ps, pieces s = p :: ps.
Proof.
  induction s as [|c s (p & ps & IH)]; simpl; [by eauto|]. rewrite IH. case_decide; eauto.
Qed.

Lemma pieces_no_slash p : slash ∉ p -> pieces p = [p].
Proof.
  induction p as [|c p IH]; intros Hp; [done|]. simpl. apply not_elem_of_cons in Hp as [Hc Hp].
  rewrite decide_False by done. by rewrite IH.
Qed.

Lemma pieces_app p r : slash ∉ p -> pieces (p ++ slash :: r) = p :: pieces r.
Proof.
  induction p as [|c p IH]; intros Hp; simpl; [done|]. apply not_elem_of_cons in Hp as [Hc Hp].
  rewrite decide_False by done. by rewrite IH.
Qed.

Lemma components_no_slash p : slash ∉ p -> p <> [] -> components p = [p].
Proof. intros Hp Hn. unfold components. rewrite pieces_no_slash by done. by rewrite filter_cons_True. Qed.

Lemma components_app p r : slash ∉ p -> p <> [] -> components (p ++ slash :: r) = p :: components r.
Proof. intros Hp Hn. unfold components. rewrite pieces_app by done. by rewrite filter_cons_True. Qed.

Lemma components_slash r : components (slash :: r) = components r.
Proof.
  unfold components. change (slash :: r) with ([] ++ slash :: r).
  rewrite pieces_app by apply not_elem_of_nil. by rewrite filter_cons_False by auto.
Qed.

Lemma components_skip s : components (skip_slashes s) = components s.
Proof.
  induction s as [|c s IH]; [done|]. simpl. case_decide as Hc; [|done]. subst c.
  by rewrite components_slash.
Qed.

Lemma skip_slashes_head c s s' : skip_slashes s = c :: s' -> c <> slash.
Proof. induction s as [|a s IH]; [done|]. simpl. case_decide; [done|]. intros [= -> _]. done. Qed.

Lemma length_skip_slashes s : (length (skip_slashes s) <= length s)%nat.
Proof. induction s as [|a s IH]; simpl; [done|]. case_decide; simpl; lia. Qed.

Lemma elem_of_pieces s p : p ∈ pieces s -> slash ∉ p /\ forall c, c ∈ p -> c ∈ s.
Proof.
  revert p. induction s as [|a s IH]; intros p; simpl.
  { intros ->%list_elem_of_singleton. split; [apply not_elem_of_nil|by intros c ?%elem_of_nil]. }
  destruct (pieces_cons s) as (q & qs & Hq). rewrite Hq in IH |- *. case_decide as Ha.
  - rewrite elem_of_cons. intros [->|Hp].
    + split; [apply not_elem_of_nil|by intros c ?%elem_of_nil].
    + destruct (IH p Hp) as [H1 H2]. split; [done|]. intros c Hc. right. by apply H2.
  - rewrite elem_of_cons. intros [->|Hp].
    + destruct (IH q) as [H1 H2]; [by left|]. split; [by apply not_elem_of_cons|].
      intros c. rewrite !elem_of_cons. naive_solver.
    + destruct (IH p) as [H1 H2]; [by right|]. split; [done|]. intros c Hc. right. by apply H2.
Qed.

Lemma components_pieces s c : c ∈ components s -> c <> [] /\ slash ∉ c /\ forall x, x ∈ c -> x ∈ s.
Proof. unfold components. rewrite list_elem_of_filter. intros [Hc ?%elem_of_pieces]. naive_solver. Qed.

Lemma joinE_app cs ds : joinE (cs ++ ds) = joinE cs ++ joinE ds.
Proof. unfold joinE. by rewrite fmap_app, join_app. Qed.

Lemma joinE_snoc cs c : joinE (cs ++ [c]) = joinE cs ++ slash :: c.
Proof. rewrite joinE_app. unfold joinE; simpl. by rewrite app_nil_r. Qed.

Lemma joinE_nil cs : joinE cs = [] <-> cs = [].
Proof. destruct cs; simpl; split; [done..|]. unfold joinE; simpl. done. Qed.

Lemma joinE_cons c cs : joinE (c :: cs) = slash :: c ++ joinE cs.
Proof. done. Qed.

Definition plain (c : bytes) : Prop := c <> [] /\ slash ∉ c.

Lemma good_plain c : good c -> plain c.
Proof. unfold good, plain. naive_solver. Qed.

Lemma components_joinE cs t :
  Forall plain cs -> (t = [] \/ head t = Some slash) ->
  components (joinE cs ++ t) = cs ++ components t.
Proof.
  intros Hcs Ht. induction Hcs as [|c cs [Hn Hs] _ IH]; [done|].
  rewrite joinE_cons. simpl. rewrite components_slash, <- app_assoc.
  assert (joinE cs ++ t = [] \/ exists r, joinE cs ++ t = slash :: r) as [He|[r He]].
  { destruct cs as [|d cs]; [|right; by rewrite joinE_cons; eauto].
    destruct t as [|x t]; [by left|]. right. destruct Ht as [|[= ->]]; [done|]. by eauto. }
  - rewrite He, app_nil_r. rewrite components_no_slash by done. f_equal.
    rewrite He in IH. by rewrite <- IH.
  - rewrite He in *. rewrite components_app, <- components_slash, IH by done. done.
Qed.

Lemma components_join cs : Forall plain cs -> components (join_path cs) = cs.
Proof.
  intros Hcs. unfold join_path. case_decide as Hn; [by subst|].
  pose proof (components_joinE cs [] Hcs (or_introl eq_refl)) as H. rewrite app_nil_r in H.
  by rewrite H, app_nil_r.
Qed.

Lemma join_inj cs ds : Forall plain cs -> Forall plain ds -> join_path cs = join_path ds -> cs = ds.
Proof. intros Hc Hd H. rewrite <- (components_join cs), <- (components_join ds) by done. by rewrite H. Qed.

Lemma length_join cs : (1 <= length (join_path cs))%nat.
Proof. unfold join_path. case_decide; [done|]. destruct cs; [done|]. rewrite joinE_cons. simpl. lia. Qed.

Lemma head_join cs : exists r, join_path cs = slash :: r.
Proof. unfold join_path. case_decide; [by exists []|]. destruct cs; [done|]. rewrite joinE_cons. eauto. Qed.

Lemma isRoot_join cs : Forall plain cs -> isRoot (unchecked (join_path cs)) = bool_decide (cs = []).
Proof.
  intros Hcs. unfold isRoot; simpl. unfold join_path. case_decide as Hn; [by rewrite bool_decide_true|].
  rewrite bool_decide_false by done. destruct Hcs as [|c cs [Hc _] _]; [done|]. rewrite joinE_cons.
  by destruct c.
Qed.

(** *** The canonicalisation loop computes [resolve] *)

Definition no_hook (_ : unit) (r m : bytes) : result (unit * bytes * bytes) := Ok ((), r, m).

Lemma resolve1_plain cs c : Forall plain cs -> plain c -> Forall plain (resolve1 cs c).
Proof.
  intros Hcs Hc. unfold resolve1. repeat case_decide; [done|by apply Forall_take|].
  apply Forall_app. auto.
Qed.

Lemma erase_last cs :
  Forall plain cs ->
  (if decide (joinE cs = []) then Ok (joinE cs) else erase_from (joinE cs) (rfind_char slash (joinE cs)))
  = Ok (joinE (take (length cs - 1) cs)).
Proof.
  intros Hcs. destruct cs as [|c cs _] using rev_ind; [done|].
  rewrite decide_False by (rewrite joinE_nil; by destruct cs).
  apply Forall_app in Hcs as [_ [[_ Hc] _]%Forall_cons].
  rewrite joinE_snoc, rfind_char_app by done. simpl. rewrite take_app_length. do 2 f_equal.
  rewrite length_app. simpl. rewrite Nat.add_sub. by rewrite take_app_length.
Qed.

(** The first component of a path that does not start with a separator. *)
Lemma first_component x m :
  x <> slash ->
  exists c s', x :: m = c ++ s' /\ plain c /\ components (x :: m) = c :: components s' /\
    (find_char slash (x :: m) = None /\ s' = [] \/
     find_char slash (x :: m) = Some (length c) /\ s' <> []).
Proof.
  intros Hx. destruct (find_char slash (x :: m)) as [i|] eqn:Hf.
  - apply find_char_split in Hf as (p & r & He & Hp & Hi). rewrite He.
    exists p, (slash :: r). assert (p <> []) by (intros ->; injection He as ? ?; done).
    rewrite components_app, components_slash by done. subst i.
    split; [done|]. split; [done|]. split; [done|]. by right.
  - apply find_char_None in Hf. exists (x :: m), []. rewrite app_nil_r.
    rewrite components_no_slash by done.
    split; [done|]. split; [done|]. split; [done|]. by left.
Qed.

(** One iteration, whatever the callback: it takes the first component off. *)
Lemma canon_iter_hook {S} (hook : S -> bytes -> bytes -> result (S * bytes * bytes)) st cs s :
  Forall plain cs ->
  match components s with
  | [] => canon_iter hook st (joinE cs) s = Ok None
  | c :: l =>
      exists s', components s' = l /\ (length s' < length s)%nat /\
        canon_iter hook st (joinE cs) s =
        if decide (c = #"." \/ c = #"..") then Ok (Some (st, joinE (resolve1 cs c), s'))
        else Some <$> hook st (joinE (cs ++ [c])) s'
  end.
Proof.
  intros Hcs. rewrite <- components_skip. pose proof (length_skip_slashes s) as Hl.
  unfold canon_iter. destruct (skip_slashes s) as [|x m] eqn:Hs; [done|].
  apply skip_slashes_head in Hs as Hx. rewrite decide_False by done.
  destruct (first_component x m Hx) as (c & s' & He & [Hn Hp] & Hc & Hf).
  rewrite Hc. cbn match. rewrite He in *. exists s'. split; [done|]. rewrite length_app in Hl.
  assert (0 < length c)%nat by (destruct c; [done|simpl; lia]). split; [lia|].
  assert (match find_char slash (c ++ s') with Some i => take i (c ++ s') | None => c ++ s' end = c) as ->.
  { destruct Hf as [[-> ->]|[-> _]]; [by rewrite app_nil_r|by rewrite take_app_length]. }
  unfold resolve1. case_decide as H1; [by subst c|]. case_decide as H2.
  { subst c. rewrite erase_last by done. done. }
  rewrite (decide_False (P := _ \/ _)) by (by intros []). rewrite joinE_snoc. f_equal.
  destruct Hf as [[-> ->]|[-> _]].
  - by rewrite app_nil_r.
  - by rewrite take_app_length, drop_app_length.
Qed.

Lemma canon_iter_spec cs s :
  Forall plain cs ->
  match components s with
  | [] => canon_iter no_hook () (joinE cs) s = Ok None
  | c :: l =>
      exists s', components s' = l /\ (length s' < length s)%nat /\
        canon_iter no_hook () (joinE cs) s = Ok (Some ((), joinE (resolve1 cs c), s'))
  end.
Proof.
  intros Hcs. pose proof (canon_iter_hook no_hook () cs s Hcs) as H.
  destruct (components s) as [|c l]; [done|]. destruct H as (s' & Hs & Hl & ->). exists s'.
  split; [done|]. split; [done|]. case_decide as Hc; [done|]. unfold resolve1.
  by rewrite !decide_False by tauto.
Qed.

Lemma canon_loop_spec fuel cs s :
  Forall plain cs -> (length s < fuel)%nat ->
  canon_loop no_hook fuel () (joinE cs) s = Some (Ok (joinE (resolve cs (components s)))).
Proof.
  revert cs s. induction fuel as [|fuel IH]; intros cs s Hcs Hf; [lia|]. cbn [canon_loop].
  pose proof (canon_iter_spec cs s Hcs) as H.
  destruct (components s) as [|c l] eqn:Hc; [by rewrite H|].
  destruct H as (s' & <- & Hl & ->). apply IH; [|lia].
  apply resolve1_plain; [done|]. destruct (components_pieces s c) as (? & ? & _); [rewrite Hc; by left|done].
Qed.

Lemma absPathPure_spec s : s <> [] -> absPathPure s = Ok (join_path (resolve [] (components s))).
Proof.
  intros Hs. unfold absPathPure, canonPathInner. rewrite bool_decide_true by done.
  pose proof (canon_loop_spec (S (length s)) [] s) as H. change (joinE []) with (@nil ascii) in H.
  cbn [assertb throw_if negb].
  change (fun _ r m => Ok ((), r, m)) with no_hook. rewrite H by (done || lia). cbn. unfold join_path.
  destruct (resolve [] (components s)) as [|c cs] eqn:Hr; [done|].
  by rewrite !decide_False by (rewrite ?joinE_nil; done).
Qed.

(** *** The constructors *)

Lemma resolve_app cs l m : resolve cs (l ++ m) = resolve (resolve cs l) m.
Proof. apply foldl_app. Qed.

Lemma resolve_good cs l : Forall good l -> resolve cs l = cs ++ l.
Proof.
  intros Hl. revert cs. induction Hl as [|c l (_ & H1 & H2 & _) _ IH]; intros cs; simpl.
  - by rewrite app_nil_r.
  - unfold resolve in *; simpl. rewrite IH. unfold resolve1. rewrite !decide_False by done.
    by rewrite <- app_assoc.
Qed.

(** Resolving drops [.] and [..] and keeps the rest of the components. *)
Lemma resolve_Forall (P : bytes -> Prop) cs l :
  Forall P cs -> Forall (fun c => c <> #"." -> c <> #".." -> P c) l -> Forall P (resolve cs l).
Proof.
  intros Hcs Hl. revert cs Hcs. induction Hl as [|c l Hc _ IH]; intros cs Hcs; [done|].
  apply IH. unfold resolve1. repeat case_decide; [done|by apply Forall_take|].
  apply Forall_app. auto.
Qed.

Lemma good_resolve s : NUL ∉ s -> Forall good (resolve [] (components s)).
Proof.
  intros Hs. apply resolve_Forall; [done|]. apply Forall_forall. intros c Hc H1 H2.
  destruct (components_pieces s c Hc) as (Hn & Hsl & Hin). repeat split; auto.
Qed.

Lemma Forall_good_plain cs : Forall good cs -> Forall plain cs.
Proof. intros H. eapply Forall_impl; [done|]. apply good_plain. Qed.
#[local] Hint Resolve Forall_good_plain : core.

Lemma NUL_join cs : Forall good cs -> NUL ∉ join_path cs.
Proof.
  intros Hcs. unfold join_path. case_decide as Hn; [by apply not_elem_of_cons; split; [|apply not_elem_of_nil]|].
  clear Hn. induction Hcs as [|c cs Hc _ IH]; [apply not_elem_of_nil|].
  rewrite joinE_cons, not_elem_of_cons, not_elem_of_app. split; [done|]. split; [apply Hc|done].
Qed.

Lemma CanonPath_new_eq raw :
  CanonPath_new raw =
  if decide (NUL ∈ raw) then Throw BadCanonPath
  else Ok (unchecked (join_path (resolve [] (components raw)))).
Proof.
  unfold CanonPath_new. rewrite absPathPure_spec by done. cbn [mbind result_bind].
  change (#"/" ++ raw) with (slash :: raw). rewrite components_slash. unfold ensureNoNullBytes.
  case_decide; [by rewrite bool_decide_true|by rewrite bool_decide_false].
Qed.

Lemma components_below cs raw :
  Forall plain cs -> components (join_path cs ++ #"/" ++ raw) = cs ++ components raw.
Proof.
  intros Hcs. change (#"/" ++ raw) with (slash :: raw). unfold join_path. case_decide as Hn.
  - subst. simpl. by rewrite !components_slash.
  - rewrite components_joinE by auto. by rewrite components_slash.
Qed.

Lemma CanonPath_at_eq raw cs :
  Forall good cs -> head raw <> Some slash ->
  CanonPath_at raw (unchecked (join_path cs)) =
  if decide (NUL ∈ raw) then Throw BadCanonPath
  else Ok (unchecked (join_path (resolve cs (components raw)))).
Proof.
  intros Hcs Hr. unfold CanonPath_at. rewrite bool_decide_false by done. unfold abs; cbn [path].
  rewrite absPathPure_spec by (by destruct (head_join cs) as [? ->]). cbn [mbind result_bind].
  rewrite components_below, resolve_app, (resolve_good [] cs) by auto. unfold ensureNoNullBytes.
  case_decide; [by rewrite bool_decide_true|by rewrite bool_decide_false].
Qed.

(** *** Iteration visits the components *)

Definition it_of (cs : list bytes) : Iterator := Iterator_new (drop 1 (joinE cs)).

Lemma it_begin_join cs : it_begin (unchecked (join_path cs)) = it_of cs.
Proof. unfold it_begin, it_of, rel, join_path; simpl. by case_decide; [subst|]. Qed.

Lemma it_end_join cs : it_end (unchecked (join_path cs)) = it_of [].
Proof.
  unfold it_end, it_of, rel; simpl. f_equal. rewrite drop_drop.
  pose proof (length_join cs). apply drop_ge. lia.
Qed.

Lemma it_eq_end cs : Forall plain cs -> it_eq (it_of cs) (it_of []) = bool_decide (cs = []).
Proof. intros [|c cs' [Hc _] _]; [done|]. by destruct c. Qed.

Lemma tail_cons c cs : drop 1 (joinE (c :: cs)) = c ++ joinE cs.
Proof. done. Qed.

Lemma it_deref_of c cs : plain c -> it_deref (it_of (c :: cs)) = c.
Proof.
  intros [_ Hc]. unfold it_of, Iterator_new, it_deref. rewrite tail_cons. cbn [it_slash remaining].
  destruct cs as [|d cs]; [rewrite app_nil_r|rewrite joinE_cons].
  - by rewrite (proj2 (find_char_None _ _)).
  - rewrite find_char_app by done. by rewrite take_app_length.
Qed.

Lemma it_next_of c cs : plain c -> it_next (it_of (c :: cs)) = it_of cs.
Proof.
  intros [_ Hc]. unfold it_of, Iterator_new, it_next. rewrite tail_cons. cbn [it_slash remaining].
  destruct cs as [|d cs]; [rewrite app_nil_r|rewrite joinE_cons].
  - rewrite (proj2 (find_char_None _ _)) by done. by rewrite drop_all.
  - rewrite find_char_app by done. by rewrite drop_S_app.
Qed.

Lemma length_joinE cs : (length cs <= length (joinE cs))%nat.
Proof. induction cs; [done|]. rewrite joinE_cons. simpl. rewrite length_app. lia. Qed.

Lemma length_le_join cs : (length cs <= length (join_path cs))%nat.
Proof. unfold join_path. case_decide; [subst; simpl; lia|]. apply length_joinE. Qed.

Lemma elems_from_of fuel cs :
  Forall plain cs -> (length cs < fuel)%nat -> elems_from fuel (it_of cs) (it_of []) = cs.
Proof.
  intros Hcs. revert fuel. induction Hcs as [|c cs Hc Hcs IH]; intros [|fuel] Hf; [simpl in *; lia|done|simpl in *; lia|].
  cbn [elems_from]. rewrite it_eq_end by auto. rewrite bool_decide_false by done.
  rewrite it_deref_of, it_next_of by done. rewrite IH by (simpl in *; lia). done.
Qed.

Lemma elems_join cs : Forall plain cs -> elems (unchecked (join_path cs)) = cs.
Proof.
  intros Hcs. unfold elems. rewrite it_begin_join, it_end_join. apply elems_from_of; [done|].
  simpl. pose proof (length_le_join cs). lia.
Qed.

(** *** Relative paths *)

Lemma skip_common_of fuel a b :
  Forall plain a -> Forall plain b -> (length a < fuel)%nat ->
  exists pre a' b', a = pre ++ a' /\ b = pre ++ b' /\
    skip_common fuel (it_of a) (it_of []) (it_of b) (it_of []) = (it_of a', it_of b').
Proof.
  revert a b. induction fuel as [|fuel IH]; intros a b Ha Hb Hf; [lia|]. cbn [skip_common].
  rewrite !it_eq_end by done.
  destruct Ha as [|x a Hx Ha]; [by exists [], [], b|].
  destruct Hb as [|y b Hy Hb]; [by exists [], (x :: a), []|].
  rewrite !bool_decide_false by done. cbn [negb andb]. rewrite !it_deref_of by done.
  destruct (decide (x = y)) as [->|Hxy].
  - rewrite bool_decide_true, !it_next_of by done.
    destruct (IH a b Ha Hb) as (pre & a' & b' & -> & -> & ->); [simpl in *; lia|].
    by exists (y :: pre), a', b'.
  - rewrite bool_decide_false by done. by exists [], (x :: a), (y :: b).
Qed.

Lemma tail_snoc cs c :
  Forall plain cs ->
  drop 1 (joinE cs) ++ (if decide (drop 1 (joinE cs) = []) then [] else #"/") ++ c =
  drop 1 (joinE (cs ++ [c])).
Proof.
  intros [|x cs' [Hx _] _]; [simpl; by rewrite app_nil_r|].
  rewrite joinE_app, tail_cons. destruct x; [done|]. simpl. unfold joinE; simpl. by rewrite app_nil_r.
Qed.

Lemma plain_dotdots k : Forall plain (replicate k #"..").
Proof.
  apply Forall_replicate. split; [done|].
  refine (proj1 (bool_decide_eq_true _) _). reflexivity.
Qed.

Lemma dotdots_of fuel a k :
  Forall plain a -> (length a < fuel)%nat ->
  dotdots fuel (it_of a) (it_of []) (drop 1 (joinE (replicate k #".."))) =
  drop 1 (joinE (replicate (k + length a) #"..")).
Proof.
  intros Ha. revert fuel k. induction Ha as [|x a Hx Ha IH]; intros [|fuel] k Hf; [lia| |lia|];
    cbn [dotdots]; rewrite it_eq_end by auto.
  - simpl. by rewrite Nat.add_0_r.
  - rewrite bool_decide_false by done. rewrite it_next_of by done.
    rewrite (tail_snoc _ #"..") by apply plain_dotdots.
    rewrite <- replicate_S_end, IH by (simpl in *; lia). do 3 f_equal. simpl. lia.
Qed.

Lemma resolve_dotdots cs a : resolve (cs ++ a) (replicate (length a) #"..") = cs.
Proof.
  induction a as [|c a IH] using rev_ind; [by rewrite app_nil_r|].
  rewrite length_app, Nat.add_comm. cbn [length Nat.add replicate].
  unfold resolve in *; cbn [foldl]. rewrite <- IH at 2. f_equal.
  change (resolve1 (cs ++ a ++ [c]) #"..") with (take (length (cs ++ a ++ [c]) - 1) (cs ++ a ++ [c])).
  rewrite app_assoc, (length_app (cs ++ a)). cbn [length]. by rewrite Nat.add_sub, take_app_length.
Qed.

Lemma makeRelative_of a b :
  Forall plain a -> Forall plain b ->
  exists pre a' b' ds, a = pre ++ a' /\ b = pre ++ b' /\ ds <> [] /\
    makeRelative (unchecked (join_path a)) (unchecked (join_path b)) = drop 1 (joinE ds) /\
    (ds = [ #"."] /\ a' = [] /\ b' = [] \/ ds = replicate (length a') #".." ++ b').
Proof.
  intros Ha Hb. unfold makeRelative. rewrite !it_begin_join, !it_end_join.
  destruct (skip_common_of (S (length (join_path a))) a b Ha Hb) as (pre & a' & b' & -> & -> & Hs).
  { pose proof (length_le_join a). lia. }
  cbn [path]. rewrite Hs. apply Forall_app in Ha as [_ Ha], Hb as [Hp Hb].
  exists pre, a', b'. rewrite !it_eq_end by done. destruct Ha as [|x a' Hx Ha].
  - destruct Hb as [|y b' Hy Hb]; [exists [ #"."]; by eauto 10|].
    exists (y :: b'). simpl. by eauto 10.
  - rewrite bool_decide_false by done. cbn [andb].
    exists (replicate (length (x :: a')) #".." ++ b'). do 2 (split; [done|]). split; [by destruct b'|].
    split; [|by right].
    pose proof (dotdots_of (S (length (join_path (pre ++ x :: a')))) (x :: a') 0) as Hd.
    change (drop 1 (joinE (replicate 0 #".."))) with (@nil ascii) in Hd. rewrite Hd; [|by auto|].
    2: { pose proof (length_le_join (pre ++ x :: a')) as Hl. rewrite length_app in Hl. lia. }
    destruct Hb as [|y b' Hy Hb]; [by rewrite bool_decide_true, app_nil_r|].
    rewrite bool_decide_false by done. rewrite joinE_app. done.
Qed.

(** *** Containment *)

Lemma isWithin_join cs ds :
  Forall plain cs -> Forall plain ds ->
  isWithin (unchecked (join_path cs)) (unchecked (join_path ds)) = bool_decide (ds `prefix_of` cs).
Proof.
  intros Hc Hd. apply Bool.eq_iff_eq_true. rewrite bool_decide_eq_true. unfold isWithin; cbn [path].
  rewrite negb_true_iff, !orb_false_iff, bool_decide_eq_false, Nat.ltb_ge.
  destruct (decide (ds = [])) as [->|Hdn].
  { destruct (head_join cs) as [r ->]. simpl. split; [intros _; apply prefix_nil|].
    intros _. split; [|done]. split; [lia|]. by intros []. }
  split.
  - intros [[Hl Ht%dec_stable] Hs]. unfold join_path in *. rewrite (decide_False (P := ds = [])) in * by done.
    destruct (decide (cs = [])) as [->|Hcn].
    { destruct Hd as [|d ds [Hx _] _]; [done|]. rewrite joinE_cons in Hl. destruct d; simpl in *; [done|lia]. }
    rewrite <- (take_drop (length (joinE ds)) (joinE cs)), Ht in Hs. rewrite length_app in Hs.
    set (t := drop (length (joinE ds)) (joinE cs)) in *.
    assert (joinE cs = joinE ds ++ t) as He by (by rewrite <- (take_drop (length (joinE ds)) (joinE cs)) at 1; rewrite Ht).
    assert (t = [] \/ head t = Some slash) as Hh.
    { destruct t as [|x t]; [by left|]. right.
      rewrite !andb_false_iff, bool_decide_eq_false, lookup_app_r, Nat.sub_diag in Hs by lia.
      destruct Hs as [[Hs|Hs]|Hs]; [..|apply dec_stable in Hs; by injection Hs as ->];
        apply Nat.ltb_ge in Hs; [|simpl in Hs; lia].
      destruct Hd as [|d ds [Hx _] _]; [done|]. rewrite joinE_cons in Hs. destruct d; simpl in *; [done|lia]. }
    pose proof (components_joinE ds t Hd Hh) as Hcomp.
    pose proof (components_joinE cs [] Hc (or_introl eq_refl)) as Hc'.
    rewrite app_nil_r in Hc'. rewrite <- He, Hc', app_nil_r in Hcomp. rewrite Hcomp. by apply prefix_app_r.
  - intros [es ->]. unfold join_path. rewrite !decide_False by (by destruct ds).
    rewrite joinE_app, length_app, take_app_length. split; [split; [lia|by intros []]|].
    destruct es as [|e es]; [rewrite Nat.add_0_r, Nat.ltb_irrefl; by destruct (1 <? _)%nat|].
    rewrite joinE_cons, lookup_app_r, Nat.sub_diag by lia.
    rewrite (bool_decide_false (_ <> _)); [by rewrite andb_false_r|]. by intros [].
Qed.

(** ** Ordering *)

Lemma char_key_inj a b : a <> NUL -> b <> NUL -> char_key a = char_key b -> a = b.
Proof.
  assert (forall c, c <> NUL -> Zb c <> 0%Z) as Hz.
  { intros c Hc H. apply Hc, Zb_inj. by rewrite H. }
  intros Ha%Hz Hb%Hz. pose proof (Zb_range a). pose proof (Zb_range b). unfold char_key, sb.
  repeat case_decide; subst; try done; intros He; try lia; apply Zb_inj; lia.
Qed.

Lemma path_compare_refl s : path_compare s s = Eq.
Proof. induction s; simpl; [done|]. by rewrite Z.compare_refl. Qed.

Lemma path_compare_antisym s t : path_compare t s = CompOpp (path_compare s t).
Proof.
  revert t; induction s as [|a s IH]; intros [|b t]; simpl; try done.
  rewrite (Z.compare_antisym (char_key a)), IH. by destruct (char_key a ?= char_key b)%Z.
Qed.

Lemma path_compare_trans s t u : path_compare s t = Lt -> path_compare t u = Lt -> path_compare s u = Lt.
Proof.
  revert t u; induction s as [|a s IH]; intros [|b t] [|c u]; simpl; try done.
  destruct (Z.compare_spec (char_key a) (char_key b)) as [->|Hab|Hab]; [|intros _|done].
  - destruct (Z.compare_spec (char_key b) (char_key c)); [apply IH|done..].
  - destruct (Z.compare_spec (char_key b) (char_key c)) as [<-|Hbc|Hbc]; [intros _|intros _|done];
      rewrite (proj2 (Z.compare_lt_iff _ _)) by lia; done.
Qed.

Lemma path_compare_eq s t : NUL ∉ s -> NUL ∉ t -> path_compare s t = Eq -> s = t.
Proof.
  revert t; induction s as [|a s IH]; intros [|b t]; simpl; try done.
  rewrite !not_elem_of_cons. intros [Ha Hs] [Hb Ht].
  destruct (Z.compare_spec (char_key a) (char_key b)) as [He| |]; [|done..].
  intros H. rewrite (char_key_inj a b), (IH t) by done. done.
Qed.

(** What sorts between a path and an ASCII path starting with it. *)
Definition ascii_char (c : ascii) : Prop := (Zb c < 128)%Z.
#[export] Instance ascii_char_dec c : Decision (ascii_char c).
Proof. unfold ascii_char. apply _. Defined.

Lemma char_key_low c : ascii_char c -> c <> NUL -> (char_key c <= 0)%Z -> c = slash.
Proof.
  intros Ha Hn. unfold char_key, sb, ascii_char in *. repeat case_decide; [done| |done].
  pose proof (Zb_range c). intros Hl. exfalso. apply Hn, Zb_inj. change (Zb NUL) with 0%Z. lia.
Qed.

Lemma between s t u :
  NUL ∉ s -> NUL ∉ t -> Forall ascii_char t -> (u = [] \/ head u = Some slash) ->
  path_compare s t <> Gt -> path_compare t (s ++ u) <> Gt ->
  exists v, t = s ++ v /\ (v = [] \/ head v = Some slash).
Proof.
  revert t; induction s as [|a s IH]; intros t Hs Ht Ha Hu H1 H2.
  - exists t. split; [done|]. destruct t as [|b t]; [by left|]. right. simpl. f_equal.
    apply not_elem_of_cons in Ht as [Hb _]. apply Forall_cons in Ha as [Ha _].
    apply char_key_low; [done..|]. destruct Hu as [->|Hu]; [done|]. destruct u as [|c u]; [done|].
    simpl in Hu. injection Hu as ->. simpl in H2.
    destruct (Z.compare_spec (char_key b) (char_key slash)) as [Hk|Hk|Hk]; [..|done];
      change (char_key slash) with 0%Z in *; lia.
  - destruct t as [|b t]; [done|]. simpl in H1, H2.
    apply not_elem_of_cons in Hs as [Hna Hs], Ht as [Hnb Ht]. apply Forall_cons in Ha as [_ Ha].
    destruct (Z.compare_spec (char_key a) (char_key b)) as [Hk|Hk|Hk]; [| |done].
    + rewrite Hk, Z.compare_refl in H2. apply char_key_inj in Hk as ->; [|done..].
      destruct (IH t) as (v & -> & Hv); eauto.
    + rewrite (proj2 (Z.compare_gt_iff _ _)) in H2 by lia. done.
Qed.

(** ** Access by ancestors *)

Lemma pop_join cs c : Forall plain (cs ++ [c]) -> pop (unchecked (join_path (cs ++ [c]))) = Ok (unchecked (join_path cs)).
Proof.
  intros Hcs. unfold pop. rewrite isRoot_join by done. rewrite bool_decide_false by (by destruct cs).
  cbn [negb assertb throw_if mbind result_bind path].
  apply Forall_app in Hcs as [Hcs [[Hn Hc] _]%Forall_cons].
  unfold join_path. rewrite (decide_False (P := cs ++ [c] = [])) by (by destruct cs).
  rewrite joinE_snoc, rfind_char_app by done. do 2 f_equal.
  case_decide as Hcn; [by subst|]. rewrite Nat.max_r; [by rewrite take_app_length|].
  destruct cs; [done|]. rewrite joinE_cons. simpl. lia.
Qed.

Lemma prefix_snoc_inv {A} (ds cs : list A) c : ds `prefix_of` cs ++ [c] -> ds `prefix_of` cs \/ ds = cs ++ [c].
Proof.
  intros [k Hk]. destruct k as [|x k _] using rev_ind; [right; by rewrite app_nil_r in Hk|].
  rewrite app_assoc in Hk. apply app_inj_tail in Hk as [-> _]. left. by apply prefix_app_r.
Qed.

Lemma parent_allowed_join fuel cs allowed :
  Forall plain cs -> (length cs < fuel)%nat ->
  exists b, parent_allowed fuel (unchecked (join_path cs)) allowed = Ok b /\
    (b = true <-> exists ds, unchecked (join_path ds) ∈ allowed /\ ds `prefix_of` cs /\ ds <> cs).
Proof.
  revert cs. induction fuel as [|fuel IH]; intros cs Hcs Hf; [lia|].
  cbn [parent_allowed]. rewrite isRoot_join by done.
  destruct cs as [|c cs _] using rev_ind.
  - exists false. split; [done|]. split; [done|]. intros (ds & _ & ->%prefix_nil_inv & Hn). done.
  - rewrite bool_decide_false by (by destruct cs). rewrite pop_join by done. cbn [mbind result_bind].
    apply Forall_app in Hcs as [Hcs _]. rewrite length_app in Hf. simpl in Hf.
    case_bool_decide as Hin.
    + exists true. split; [done|]. split; [intros _|done]. exists cs. split; [done|].
      split; [by apply prefix_app_r|]. intros He%(f_equal length). rewrite length_app in He. simpl in He. lia.
    + destruct (IH cs Hcs) as (b & -> & Hb); [lia|]. exists b. split; [done|]. rewrite Hb.
      split; intros (ds & Ha & Hp & Hn).
      * exists ds. split; [done|]. split; [by apply prefix_app_r|].
        intros ->. apply prefix_length in Hp. rewrite length_app in Hp. simpl in Hp. lia.
      * exists ds. split; [done|]. apply prefix_snoc_inv in Hp as [Hp|Hp]; [|done]. split; [done|].
        by intros ->.
Qed.

Lemma lower_bound_Some s p x :
  lower_bound s p = Some x <->
  exists s1 s2, s = s1 ++ x :: s2 /\ Forall (fun y => CanonPath_lt y p) s1 /\ ~ CanonPath_lt x p.
Proof.
  unfold lower_bound. induction s as [|y s IH]; simpl.
  - split; [done|]. by intros ([|??] & ? & ? & _).
  - case_bool_decide as Hy; simpl.
    + rewrite IH. split; intros (s1 & s2 & Hs & Hf & Hx).
      * exists (y :: s1), s2. rewrite Hs. auto.
      * destruct s1 as [|z s1]; [by simplify_eq/=|]. simplify_eq/=. apply Forall_cons in Hf as [_ Hf].
        by exists s1, s2.
    + split.
      * intros [= ->]. exists [], s. auto.
      * intros ([|z s1] & s2 & Hs & Hf & Hx); simplify_eq/=; [done|].
        by apply Forall_cons in Hf as [? _].
Qed.

Lemma lower_bound_None s p : lower_bound s p = None -> Forall (fun y => CanonPath_lt y p) s.
Proof.
  unfold lower_bound. induction s as [|y s IH]; simpl; [done|].
  case_bool_decide as Hy; simpl; [|done]. eauto.
Qed.

Lemma CanonPath_lt_canonical p q :
  canonical p -> canonical q -> ~ CanonPath_lt p q -> CanonPath_compare q p <> Gt.
Proof.
  intros _ _ Hn. unfold CanonPath_lt, CanonPath_compare in *. rewrite path_compare_antisym.
  by destruct (path_compare (path p) (path q)).
Qed.

Lemma isWithin_compare p q : canonical p -> canonical q -> isWithin p q = true -> ~ CanonPath_lt p q.
Proof.
  intros (cs & Hc & Hp) (ds & Hd & Hq). destruct p as [p], q as [q]; simpl in *; subst.
  rewrite isWithin_join, bool_decide_eq_true by auto. intros [es ->].
  unfold CanonPath_lt, CanonPath_compare; simpl.
  assert (forall s t, path_compare (s ++ t) s <> Lt) as Happ.
  { intros s t. induction s as [|a s IH]; simpl; [by destruct t|]. by rewrite Z.compare_refl. }
  unfold join_path. destruct (decide (ds = [])) as [->|Hn].
  - rewrite app_nil_l. case_decide; [done|]. destruct es; [done|]. rewrite joinE_cons.
    apply (Happ [slash]).
  - rewrite decide_False by (by destruct ds). rewrite joinE_app. apply Happ.
Qed.

(** [lower_bound] finds a path inside [p] if there is one. *)
Lemma lower_bound_within s p :
  canonical p -> Forall canonical s -> Forall (fun x => Forall ascii_char (path x)) s ->
  StronglySorted CanonPath_lt s ->
  (match lower_bound s p with Some lb => isWithin lb p | None => false end) = true <->
  exists x, x ∈ s /\ isWithin x p = true.
Proof.
  intros Hp Hs Ha Hsort. rewrite Forall_forall in Hs, Ha. split.
  - destruct (lower_bound s p) as [x|] eqn:Hl; [|done]. intros Hx. exists x. split; [|done].
    apply lower_bound_Some in Hl as (s1 & s2 & -> & _). set_solver.
  - intros (x & Hin & Hx). pose proof (isWithin_compare x p (Hs x Hin) Hp Hx) as Hge.
    destruct (lower_bound s p) as [lb|] eqn:Hl.
    2: { apply lower_bound_None in Hl. rewrite Forall_forall in Hl. naive_solver. }
    apply lower_bound_Some in Hl as (s1 & s2 & -> & Hf & Hlb).
    rewrite elem_of_app, elem_of_cons in Hin. destruct Hin as [Hin|[->|Hin]]; [|done|].
    { rewrite Forall_forall in Hf. naive_solver. }
    apply StronglySorted_app_1_r in Hsort as [_ Hlt]%StronglySorted_inv.
    rewrite Forall_forall in Hlt. specialize (Hlt x Hin).
    assert (canonical lb) as Hclb by (apply Hs; set_solver).
    assert (canonical x) as Hcx by (apply Hs; set_solver).
    assert (Forall ascii_char (path lb)) as Halb by (apply Ha; set_solver).
    pose proof (CanonPath_lt_canonical lb p Hclb Hp Hlb) as H1.
    destruct lb as [lb], x as [x], p as [p].
    destruct Hclb as (l & Hl & Hle), Hcx as (cs & Hc & Hce), Hp as (ds & Hd & Hde); simpl in *; subst.
    rewrite isWithin_join, bool_decide_eq_true in Hx |- * by auto. destruct Hx as [es ->].
    destruct (decide (ds = [])) as [->|Hn]; [apply prefix_nil|].
    unfold CanonPath_lt, CanonPath_compare in *; simpl in *.
    pose proof (NUL_join _ Hd) as Nd. pose proof (NUL_join _ Hl) as Nl.
    assert (join_path ds = joinE ds) as Ed by (unfold join_path; by rewrite decide_False).
    assert (join_path (ds ++ es) = joinE ds ++ joinE es) as Ec
      by (unfold join_path; rewrite decide_False by (by destruct ds); apply joinE_app).
    rewrite Ec, Ed in *.
    destruct (between (joinE ds) (join_path l) (joinE es)) as (v & Hv & Hh); try done.
    { destruct es; [by left|]. right. done. }
    { by rewrite Hlt. }
    destruct (decide (l = [])) as [->|Hln].
    { exfalso. change (join_path []) with [slash] in Hv. destruct Hd as [|d ds [Hdn _] _]; [done|].
      rewrite joinE_cons in Hv. destruct d; [done|]. done. }
    unfold join_path in Hv. rewrite decide_False in Hv by done.
    apply (f_equal components) in Hv.
    pose proof (components_joinE l [] (Forall_good_plain _ Hl) (or_introl eq_refl)) as Hc'.
    rewrite app_nil_r in Hc'. rewrite Hc', components_joinE, app_nil_r in Hv by auto.
    rewrite Hv. by apply prefix_app_r.
Qed.

(** ** Properties *)

(** C36: Constructing a path from any text either rejects it, exactly when it
    holds a NUL byte, or yields a canonical path whose components are those
    of the text with [.] dropped and [..] resolved, never leaving the root. *)
Theorem CanonPath_new_spec raw :
  match CanonPath_new raw with
  | Ok p => canonical p /\ NUL ∉ raw /\ elems p = resolve [] (components raw)
  | Throw e => e = BadCanonPath /\ NUL ∈ raw
  end.
Proof.
  rewrite CanonPath_new_eq. case_decide as Hn; [done|].
  pose proof (good_resolve raw Hn). split; [|split; [done|]].
  - eexists. split; [done|]. reflexivity.
  - apply elems_join. auto.
Qed.

(** Canonical paths are fixed points of the constructor. *)
Lemma CanonPath_new_canonical p : canonical p -> CanonPath_new (abs p) = Ok p.
Proof.
  intros (cs & Hcs & He). destruct p as [p]; simpl in *; subst. rewrite CanonPath_new_eq.
  rewrite decide_False by (by apply NUL_join). unfold abs; cbn [path].
  by rewrite components_join, resolve_good by auto.
Qed.

(** The relative path computed between two canonical paths leads, read
    from the first one, back to the second. *)
Theorem makeRelative_spec this p :
  canonical this -> canonical p -> CanonPath_at (makeRelative this p) this = Ok p.
Proof.
  intros (a & Ha & Hae) (b & Hb & Hbe). destruct this as [?], p as [?]; simpl in *; subst.
  destruct (makeRelative_of a b) as (pre & a' & b' & ds & -> & -> & Hn & -> & Hds); [auto..|].
  apply Forall_app in Ha as [Hp Ha], Hb as [_ Hb].
  assert (Forall plain ds /\ Forall (fun c => NUL ∉ c) ds /\ resolve (pre ++ a') ds = pre ++ b')
    as (Hpl & Hnul & Hres).
  { destruct Hds as [(-> & -> & ->)| ->].
    - split; [|split; [|done]]; apply Forall_singleton;
        refine (proj1 (bool_decide_eq_true _) _); reflexivity.
    - split; [apply Forall_app; split; [apply plain_dotdots|auto]|]. split.
      + apply Forall_app. split; [apply Forall_replicate;
          refine (proj1 (bool_decide_eq_true _) _); reflexivity|].
        eapply Forall_impl; [exact Hb|]. by intros c (?&?&?&?&?).
      + rewrite resolve_app, resolve_dotdots. by apply resolve_good. }
  rewrite CanonPath_at_eq; [| |].
  - rewrite decide_False.
    + do 3 f_equal. rewrite <- (components_slash (drop 1 _)).
      destruct ds as [|d ds]; [done|]. rewrite tail_cons. change (slash :: d ++ joinE ds) with (joinE (d :: ds)).
      rewrite <- (app_nil_r (joinE _)), components_joinE, app_nil_r by auto. done.
    + destruct ds as [|d ds]; [done|]. rewrite tail_cons. intros [Hd|Hj]%elem_of_app.
      * apply Forall_cons in Hnul as [? _]. done.
      * clear -Hj Hnul. apply Forall_cons in Hnul as [_ Hnul].
        induction Hnul as [|x xs Hx _ IH]; [by apply elem_of_nil in Hj|].
        rewrite joinE_cons, elem_of_cons, elem_of_app in Hj. naive_solver.
  - apply Forall_app. done.
  - destruct ds as [|d ds]; [done|]. apply Forall_cons in Hpl as [[Hd Hs] _]. rewrite tail_cons.
    destruct d as [|x d]; [done|]. simpl. intros [= ->]. apply Hs. by left.
Qed.

Lemma canonical_of cs : Forall good cs -> canonical (unchecked (join_path cs)).
Proof. intros H. by exists cs. Qed.

Lemma makeRelative_spec_witness :
  CanonPath_at (makeRelative (unchecked #"/a/b") (unchecked #"/a/c/d")) (unchecked #"/a/b")
  = Ok (unchecked #"/a/c/d").
Proof.
  apply makeRelative_spec.
  - exists [ #"a"; #"b"]. split; [|reflexivity].
    refine (proj1 (bool_decide_eq_true _) _). vm_compute. reflexivity.
  - exists [ #"a"; #"c"; #"d"]. split; [|reflexivity].
    refine (proj1 (bool_decide_eq_true _) _). vm_compute. reflexivity.
Defined.

(** For a set of ASCII paths, access to a path is allowed exactly when it
    lies within a path of the set or a path of the set lies within it. *)
Theorem isAllowed_spec p allowed :
  canonical p -> Forall canonical allowed ->
  Forall (fun x => Forall ascii_char (path x)) allowed -> StronglySorted CanonPath_lt allowed ->
  exists b, isAllowed p allowed = Ok b /\
    (b = true <-> exists a, a ∈ allowed /\ (isWithin p a = true \/ isWithin a p = true)).
Proof.
  intros Hp Hal Ha Hs. unfold isAllowed.
  pose proof (lower_bound_within allowed p Hp Hal Ha Hs) as Hlb.
  set (w := match lower_bound allowed p with Some lb => isWithin lb p | None => false end) in *.
  destruct w.
  { exists true. split; [done|]. split; [intros _|done]. destruct Hlb as [Hlb _].
    destruct (Hlb eq_refl) as (x & ? & ?). eauto. }
  destruct Hp as (cs & Hc & He). destruct p as [p]; simpl in He; subst p.
  destruct (parent_allowed_join (length (join_path cs)) cs allowed) as (b & Hb & Hbs); [auto|..].
  { unfold join_path. case_decide; [by subst; simpl; lia|].
    destruct Hc as [|c cs [Hcn _] _]; [done|]. rewrite joinE_cons. pose proof (length_joinE cs).
    destruct c; [done|]. simpl. rewrite length_app. lia. }
  exists b. cbn [path]. split; [done|]. rewrite Hbs. rewrite Forall_forall in Hal. split.
  - intros (ds & Hin & Hpre & _). exists (unchecked (join_path ds)). split; [done|]. left.
    destruct (Hal _ Hin) as (es & He & Heq). simpl in Heq. rewrite Heq in *.
    rewrite isWithin_join, bool_decide_eq_true by auto.
    destruct Hpre as [k ->]. apply Forall_app in Hc as [Hd _].
    rewrite (join_inj es ds) by auto. by apply prefix_app_r.
  - intros (a & Hin & [Hw|Hw]); [|by destruct Hlb as [_ Hlb]; discriminate Hlb; eauto].
    destruct (Hal _ Hin) as (es & He & Heq). destruct a as [a]; simpl in Heq; subst a.
    exists es. split; [done|]. pose proof Hw as Hw'.
    rewrite isWithin_join, bool_decide_eq_true in Hw by auto. split; [done|]. intros ->.
    destruct Hlb as [_ Hlb]; discriminate Hlb; eauto.
Qed.

Lemma isAllowed_spec_witness :
  exists b, isAllowed (unchecked #"/a") [unchecked #"/a/b"; unchecked #"/c"] = Ok b /\
    (b = true <-> exists a, a ∈ [unchecked #"/a/b"; unchecked #"/c"] /\
       (isWithin (unchecked #"/a") a = true \/ isWithin a (unchecked #"/a") = true)).
Proof.
  apply isAllowed_spec.
  - exists [ #"a"]. split; [|reflexivity].
    refine (proj1 (bool_decide_eq_true _) _). vm_compute. reflexivity.
  - constructor; [exists [ #"a"; #"b"]|constructor; [exists [ #"c"]|constructor]]; (split; [|reflexivity]);
    refine (proj1 (bool_decide_eq_true _) _); vm_compute; reflexivity.
  - refine (proj1 (bool_decide_eq_true _) _); vm_compute; reflexivity.
  - repeat constructor.
Defined.

(** The ASCII restriction is needed.  [char] is signed, so a byte above
    127 sorts before the separator: with [/foo\x80] and [/foo/bar] allowed,
    access to [/foo], the parent of an allowed path, is denied. *)
Theorem isAllowed_signed_char :
  exists p q, canonical p /\ canonical q /\
    StronglySorted CanonPath_lt [p; q] /\ isWithin q (unchecked #"/foo") = true /\
    isAllowed (unchecked #"/foo") [p; q] = Ok false.
Proof.
  exists (unchecked (#"/foo" ++ [bZ 128])), (unchecked #"/foo/bar"). split; [|split].
  - exists [ #"foo" ++ [bZ 128]]. split; [|reflexivity].
    refine (proj1 (bool_decide_eq_true _) _). vm_compute. reflexivity.
  - exists [ #"foo"; #"bar"]. split; [|reflexivity].
    refine (proj1 (bool_decide_eq_true _) _). vm_compute. reflexivity.
  - split; [|by split; vm_compute]. repeat constructor.
Qed.

(** *** Following symbolic links terminates *)

Section follow.
Context (readLink : bytes -> option bytes) (resolveSymlinks : bool) (L : nat).
Context (HL : forall p t, readLink p = Some t -> (length t <= L)%nat).

(** Components the loop keeps. *)
Definition kept (c : bytes) : Prop := plain c /\ c <> #"." /\ c <> #"..".

Lemma kept_plain cs : Forall kept cs -> Forall plain cs.
Proof. intros H. eapply Forall_impl; [exact H|]. by intros c []. Qed.

Lemma parent_path_joinE cs c :
  plain c ->
  (if decide (parent_path (joinE (cs ++ [c])) = [slash]) then []
   else parent_path (joinE (cs ++ [c]))) = joinE cs \/ cs = [ [] ].
Proof.
  intros [Hn Hc]. unfold parent_path. rewrite joinE_snoc, rfind_char_app by done.
  destruct cs as [|d cs]; [left; simpl|].
  { by destruct c. }
  assert (exists n, length (joinE (d :: cs)) = S n) as [n Hl] by (rewrite joinE_cons; simpl; eauto).
  rewrite Hl, <- Hl, take_app_length. case_decide as Hs; [right|by left].
  rewrite joinE_cons in Hs. injection Hs as [-> Hj]%app_nil. by apply joinE_nil in Hj as ->.
Qed.

Lemma follow_hook_spec fc cs c m :
  Forall kept cs -> kept c -> (0 <= fc < maxFollow)%Z ->
  follow_hook readLink resolveSymlinks fc (joinE (cs ++ [c])) m = Throw Error \/
  exists fc' cs' m', Forall kept cs' /\ (fc' < maxFollow)%Z /\
    follow_hook readLink resolveSymlinks fc (joinE (cs ++ [c])) m = Ok (fc', joinE cs', m') /\
    (fc' = fc /\ m' = m \/ fc' = (fc + 1)%Z /\ (length m' <= L + length m)%nat).
Proof using HL.
  intros Hcs Hc Hfc. unfold follow_hook.
  destruct (if resolveSymlinks then readLink (joinE (cs ++ [c])) else None) as [t|] eqn:Ht.
  2: { right. exists fc, (cs ++ [c]), m. split; [apply Forall_app; auto|]. split; [lia|]. by auto. }
  destruct resolveSymlinks; [|done]. apply HL in Ht. unfold maxFollow in *.
  rewrite u32_small by lia. destruct (Z.leb_spec 1024 (fc + 1)) as [Hf|Hf]; [by left|right]. cbn.
  assert (length (t ++ m) <= L + length m)%nat by (rewrite length_app; lia).
  case_match; [exists (fc + 1)%Z, [], (t ++ m); by auto 10|].
  exists (fc + 1)%Z, cs, (t ++ m). split; [done|]. split; [lia|]. split; [|by auto].
  destruct (parent_path_joinE cs c) as [->| ->]; [apply Hc|done|].
  apply Forall_cons in Hcs as [[[Hne _] _] _]. done.
Qed.

(** Each iteration shortens the remaining path or spends one of the
    [maxFollow] links, which lengthens it by at most [L]. *)
Lemma follow_loop fuel fc cs m :
  Forall kept cs -> (0 <= fc < maxFollow)%Z ->
  (Z.to_nat (maxFollow - fc) * L + length m < fuel)%nat ->
  canon_loop (follow_hook readLink resolveSymlinks) fuel fc (joinE cs) m = Some (Throw Error) \/
  exists cs', Forall kept cs' /\
    canon_loop (follow_hook readLink resolveSymlinks) fuel fc (joinE cs) m = Some (Ok (joinE cs')).
Proof using HL.
  revert fc cs m. induction fuel as [|fuel IH]; intros fc cs m Hcs Hfc Hf; [lia|].
  cbn [canon_loop].
  pose proof (canon_iter_hook (follow_hook readLink resolveSymlinks) fc cs m (kept_plain _ Hcs)) as H.
  destruct (components m) as [|c l] eqn:Hm; [rewrite H; right; by exists cs|].
  destruct (components_pieces m c) as (Hn & Hsl & _); [rewrite Hm; by left|].
  destruct H as (m' & _ & Hl & ->). case_decide as Hd.
  - apply IH; [|done|lia]. unfold resolve1. case_decide; [done|].
    rewrite decide_True by tauto. by apply Forall_take.
  - destruct (follow_hook_spec fc cs c m') as [->|(fc' & cs' & m2 & Hk & Hlt & -> & Hor)];
      [done|repeat split; tauto|done|by left|].
    cbn. apply IH; [done|destruct Hor; lia|].
    destruct Hor as [[-> ->]|[-> Hm2]]; [lia|].
    replace (Z.to_nat (maxFollow - fc)) with (S (Z.to_nat (maxFollow - (fc + 1)))) in Hf; [|lia]. simpl in Hf. lia.
Qed.
End follow.

(** C39: Canonicalising a path while following symbolic links always ends,
    whatever the links point to: with targets of at most [L] bytes,
    [1024 * L + length path + 1] iterations are enough.  The outcome is an
    error or an absolute path without [.], [..] or empty components. *)
Theorem canonPath_terminates readLink resolveSymlinks L path fuel :
  (forall p t, readLink p = Some t -> (length t <= L)%nat) ->
  (1024 * L + length path < fuel)%nat ->
  canonPath readLink resolveSymlinks fuel path = Some (Throw Error) \/
  exists cs, Forall kept cs /\
    canonPath readLink resolveSymlinks fuel path = Some (Ok (join_path cs)).
Proof.
  intros HL Hf. unfold canonPath. case_bool_decide as Hp; [by left|]. cbn.
  destruct (is_absolute path); [|by left]. cbn. unfold canonPathInner.
  rewrite bool_decide_true by done. cbn [assertb throw_if negb].
  destruct (follow_loop readLink resolveSymlinks L HL fuel 0 [] path) as [H|(cs & Hcs & H)].
  - done.
  - done.
  - exact Hf.
  - change (joinE []) with (@nil ascii) in H. rewrite H. by left.
  - change (joinE []) with (@nil ascii) in H. rewrite H. right. exists cs. split; [done|].
    cbn. unfold join_path. do 2 f_equal. pose proof (joinE_nil cs). by repeat case_decide; try tauto.
Qed.

Lemma canonPath_terminates_witness :
  canonPath (fun p => if decide (p = #"/l") then Some #"l" else None) true 1100 #"/l" = Some (Throw Error) \/
  exists cs, Forall kept cs /\
    canonPath (fun p => if decide (p = #"/l") then Some #"l" else None) true 1100 #"/l" = Some (Ok (join_path cs)).
Proof.
  apply (canonPath_terminates _ _ 1).
  - intros p t. case_decide; [by intros [= <-]; simpl; lia|done].
  - apply Nat.ltb_lt. vm_compute. reflexivity.
Defined.

(** Splitting off a prefix and appending it again. *)
Lemma removePrefix_extend p q :
  canonical p -> canonical q -> isWithin p q = true ->
  exists r, removePrefix p q = Ok r /\ canonical r /\ extend q r = p.
Proof.
  intros (cs & Hc & Hp) (ds & Hd & Hq). destruct p as [p], q as [q]; simpl in *; subst.
  rewrite isWithin_join, bool_decide_eq_true by auto. intros [es ->].
  apply Forall_app in Hc as [_ He]. unfold removePrefix.
  assert (Forall plain (ds ++ es)) as Hpl by (apply Forall_app; split; auto).
  rewrite isWithin_join by auto. rewrite bool_decide_true by (by apply prefix_app_r).
  cbn [assertb throw_if negb mbind result_bind path]. rewrite isRoot_join by auto.
  case_bool_decide as Hdn.
  - subst. rewrite app_nil_l. eexists. split; [done|]. split; [by apply canonical_of|]. unfold extend.
    rewrite !isRoot_join by auto. rewrite (bool_decide_true ([] = [])) by done.
    destruct es as [|e es]; [done|]. rewrite bool_decide_false by done. reflexivity.
  - assert (join_path ds = joinE ds) as -> by (unfold join_path; by rewrite decide_False).
    unfold join_path at 1 2 3. rewrite decide_False by (by destruct ds). rewrite joinE_app, length_app.
    destruct (Nat.eqb_spec (length (joinE ds) + length (joinE es)) (length (joinE ds))) as [Hl|Hl].
    + exists root. split; [done|]. split; [by apply (canonical_of [])|].
      assert (es = []) as -> by (destruct es; [done|]; rewrite joinE_cons in Hl; simpl in Hl; lia).
      unfold extend; cbn. by rewrite app_nil_r.
    + eexists. split; [done|]. rewrite drop_app_length. split.
      * exists es. split; [done|]. unfold join_path. rewrite decide_False; [done|]. by intros ->; simpl in Hl; lia.
      * assert (es <> []) as Hen by (intros ->; simpl in Hl; lia).
        assert (joinE es = join_path es) as Hje by (unfold join_path; by rewrite decide_False).
        assert (joinE ds = join_path ds) as Hjd by (unfold join_path; by rewrite decide_False).
        unfold extend. rewrite Hje, Hjd, !isRoot_join by auto. by rewrite !bool_decide_false by done.
Qed.

(** [push] does not reject an empty component, which leaves a trailing
    separator behind. *)
Lemma push_empty :
  push (unchecked #"/foo") [] = Ok (unchecked #"/foo/") /\ ~ canonical (unchecked #"/foo/").
Proof.
  split; [reflexivity|]. intros (cs & Hcs & He). simpl in He.
  apply (f_equal components) in He as Hc. rewrite components_join in Hc by auto.
  rewrite <- Hc in He. vm_compute in He. discriminate.
Qed.
