(* ===== verification/StorePath.v ===== *)
(** * StorePath: base names of store objects

    libstore/path.cc and path.hh: the name check, the two constructors and
    the accessors of [StorePath]; sets of store paths as the code iterates
    over them (in byte order of the base name). *)

From S2P Require Export Hashing.

(** ** Name check *)

Definition MaxPathLen : nat := 211.
Definition HashLen : nat := 32.
Arguments MaxPathLen : simpl never.

Definition legal_name_char (c : ascii) : bool :=
  in_range "0" "9" c || in_range "a" "z" c || in_range "A" "Z" c
  || bool_decide (c ∈ #"+-._?=").

Definition at_is (s : bytes) (i : nat) (c : ascii) : bool := bool_decide (s !! i = Some c).

Definition checkName (name : bytes) : result unit :=
  _ ← throw_if (bool_decide (name = [])) BadStorePathName;
  _ ← throw_if (MaxPathLen <? length name)%nat BadStorePathName;
  _ ← (if at_is name 0 "." then
         _ ← throw_if (length name =? 1)%nat BadStorePathName;
         _ ← throw_if (at_is name 1 "-") BadStorePathName;
         if at_is name 1 "." then
           _ ← throw_if (length name =? 2)%nat BadStorePathName;
           throw_if (at_is name 2 "-") BadStorePathName
         else Ok ()
       else Ok ());
  foreach (fun _ c => throw_if (negb (legal_name_char c)) BadStorePathName) () name.

Definition checkPathName (path name : bytes) : result unit :=
  catch (checkName name) (fun e => bool_decide (e = BadStorePathName)) (fun _ => Throw BadStorePath).

(** ** The class *)

Record StorePath := mkStorePath { baseName : bytes }.
#[export] Instance StorePath_eq_dec : EqDecision StorePath.
Proof. solve_decision. Defined.
#[export] Instance baseName_inj : Inj (=) (=) baseName.
Proof. by intros [] [] [= ->]. Qed.
#[export] Instance StorePath_countable : Countable StorePath.
Proof. by apply (inj_countable' baseName mkStorePath); intros []. Defined.

(** [name()] and [hashPart()]: [substr] throws past the end. *)
Definition name (p : StorePath) : result bytes :=
  _ ← throw_if (length (baseName p) <? HashLen + 1)%nat OutOfRange;
  Ok (drop (HashLen + 1) (baseName p)).
Definition hashPart (p : StorePath) : bytes := take HashLen (baseName p).
Definition to_string (p : StorePath) : bytes := baseName p.

Definition illegal_hash_char (c : ascii) : bool :=
  bool_decide (c ∈ #"eout") || negb (in_range "0" "9" c || in_range "a" "z" c).

(** [StorePath::StorePath(std::string_view)] *)
Definition StorePath_new (_baseName : bytes) : result StorePath :=
  let this := mkStorePath _baseName in
  _ ← throw_if (length (baseName this) <? HashLen + 1)%nat BadStorePath;
  _ ← foreach (fun _ c => throw_if (illegal_hash_char c) BadStorePath) () (hashPart this);
  n ← name this;
  _ ← checkPathName (baseName this) n;
  Ok this.

(** [StorePath::StorePath(const Hash &, std::string_view)] *)
Definition StorePath_of_hash (hash : Hash) (_name : bytes) : result StorePath :=
  h ← Hashing.to_string hash Nix32 false;
  let this := mkStorePath ((h ++ #"-") ++ _name) in
  n ← name this;
  _ ← checkPathName (baseName this) n;
  Ok this.

Definition drvExtension : bytes := #".drv".
Definition isDerivation (p : StorePath) : result bool :=
  n ← name p; Ok (hasSuffix n drvExtension).
Definition requireDerivation (p : StorePath) : result unit :=
  d ← isDerivation p; throw_if (negb d) FormatError.

(** The default [operator<=>] of the base names. *)
Definition StorePath_le (p q : StorePath) : Prop := bytes_le (baseName p) (baseName q).
#[export] Instance StorePath_le_dec : RelDecision StorePath_le.
Proof. intros p q. unfold StorePath_le. apply _. Defined.
#[export] Instance StorePath_le_po : PartialOrder StorePath_le.
Proof.
  split; [split|].
  - intros p. unfold StorePath_le. reflexivity.
  - intros p q r. unfold StorePath_le. apply transitivity.
  - intros p q H1 H2. apply (inj baseName). by apply (anti_symm bytes_le).
Qed.
#[export] Instance StorePath_le_total : Total StorePath_le.
Proof. intros p q. unfold StorePath_le. apply total, _. Qed.

(** A range-for over a [StorePathSet]. *)
Notation StorePathSet := (gset StorePath).
Definition sp_iter (X : StorePathSet) : list StorePath := merge_sort StorePath_le (elements X).

Lemma elem_of_sp_iter p X : p ∈ sp_iter X <-> p ∈ X.
Proof. unfold sp_iter. by rewrite (merge_sort_Permutation _ _), elem_of_elements. Qed.

Lemma NoDup_sp_iter X : NoDup (sp_iter X).
Proof. unfold sp_iter. rewrite (merge_sort_Permutation _ _). apply NoDup_elements. Qed.

Lemma sp_iter_empty : sp_iter ∅ = [].
Proof. done. Qed.

(** ** Specification of names *)

(** The text before the first dash, or the whole name. *)
Definition first_dash_component (s : bytes) : bytes :=
  match splitPrefixTo s "-" with Some (p, _) => p | None => s end.

Record valid_name (s : bytes) : Prop := {
  valid_nonempty : s <> [];
  valid_length : (length s <= MaxPathLen)%nat;
  valid_first : first_dash_component s <> #"." /\ first_dash_component s <> #"..";
  valid_chars : Forall (fun c => legal_name_char c = true) s;
}.

(** What the string constructor accepts. *)
Record valid_baseName (s : bytes) : Prop := {
  valid_split : (HashLen < length s)%nat;
  valid_hash : Forall (fun c => illegal_hash_char c = false) (take HashLen s);
  valid_rest : valid_name (drop (HashLen + 1) s);
}.

Lemma foreach_throw_if {A} (f : A -> bool) e l :
  (foreach (fun _ c => throw_if (f c) e) () l = Ok () /\ Forall (fun c => f c = false) l) \/
  (foreach (fun _ c => throw_if (f c) e) () l = Throw e /\ ~ Forall (fun c => f c = false) l).
Proof.
  induction l as [|c l IH]; [by left|]. cbn [foreach]. destruct (f c) eqn:Hc.
  - right. split; [done|]. intros [? _]%Forall_cons. congruence.
  - cbn. destruct IH as [[-> ?]|[-> Hn]]; [left|right]; (split; [done|]); [by constructor|].
    by intros [_ ?]%Forall_cons.
Qed.

Definition dots_check (name : bytes) : result unit :=
  if at_is name 0 "." then
    _ ← throw_if (length name =? 1)%nat BadStorePathName;
    _ ← throw_if (at_is name 1 "-") BadStorePathName;
    if at_is name 1 "." then
      _ ← throw_if (length name =? 2)%nat BadStorePathName;
      throw_if (at_is name 2 "-") BadStorePathName
    else Ok ()
  else Ok ().

Lemma dots_check_spec s :
  dots_check s = Ok () /\ first_dash_component s <> #"." /\ first_dash_component s <> #".." \/
  dots_check s = Throw BadStorePathName /\
    ~ (first_dash_component s <> #"." /\ first_dash_component s <> #"..").
Proof.
  unfold dots_check, at_is, first_dash_component, splitPrefixTo.
  destruct s as [|a s]; [left; done|]. cbn [lookup list_lookup find_char length].
  destruct (decide (a = "."%char)) as [->|Ha].
  2: { rewrite bool_decide_false by congruence. left. split; [done|].
       destruct (decide (a = "-"%char)) as [->|]; [done|].
       destruct (find_char "-" s) as [i|]; cbn; split; intros [=]; congruence. }
  rewrite bool_decide_true by done. destruct s as [|b s]; [right; split; [done|]; by intros []|].
  cbn [lookup list_lookup find_char length Nat.eqb throw_if mbind result_bind decide].
  destruct (decide (b = "-"%char)) as [->|Hb]; [right; split; [done|]; by intros []|].
  rewrite (bool_decide_false (Some b = Some "-"%char)) by congruence. cbn [throw_if mbind result_bind].
  destruct (decide (b = "."%char)) as [->|Hb'].
  2: { rewrite bool_decide_false by congruence. left. split; [done|]. cbn.
       destruct (find_char "-" s) as [i|]; cbn; split; intros [=]; congruence. }
  rewrite bool_decide_true by done. destruct s as [|c s]; [right; split; [done|]; by intros []|].
  cbn [lookup list_lookup find_char length Nat.eqb throw_if mbind result_bind decide].
  destruct (decide (c = "-"%char)) as [->|Hc]; [right; split; [done|]; by intros []|].
  rewrite bool_decide_false by congruence. left. split; [done|]. cbn.
  destruct (find_char "-" s) as [i|]; cbn; split; intros [=]; congruence.
Qed.

Lemma checkName_eq s :
  checkName s =
  _ ← throw_if (bool_decide (s = [])) BadStorePathName;
  _ ← throw_if (MaxPathLen <? length s)%nat BadStorePathName;
  _ ← dots_check s;
  foreach (fun _ c => throw_if (negb (legal_name_char c)) BadStorePathName) () s.
Proof. reflexivity. Qed.

Lemma checkName_cases s :
  checkName s = Ok () /\ valid_name s \/ checkName s = Throw BadStorePathName /\ ~ valid_name s.
Proof.
  rewrite checkName_eq. case_bool_decide as Hn; [right; split; [done|]; by intros []|].
  cbn [throw_if mbind result_bind].
  destruct (Nat.ltb_spec MaxPathLen (length s)) as [Hl|Hl];
    [right; split; [done|]; intros []; lia|].
  cbn [throw_if mbind result_bind].
  destruct (dots_check_spec s) as [[-> Hd]|[-> Hd]]; [|right; split; [done|]; by intros []].
  cbn [mbind result_bind].
  assert (Forall (fun c => negb (legal_name_char c) = false) s <->
          Forall (fun c => legal_name_char c = true) s) as Hiff.
  { apply Forall_iff. intros c. by rewrite negb_false_iff. }
  destruct (foreach_throw_if (fun c => negb (legal_name_char c)) BadStorePathName s) as [[-> Hf]|[-> Hf]];
    rewrite Hiff in Hf; [by left|]. right. split; [done|]. by intros [].
Qed.

Lemma StorePath_new_cases s :
  StorePath_new s = Ok (mkStorePath s) /\ valid_baseName s \/
  StorePath_new s = Throw BadStorePath /\ ~ valid_baseName s.
Proof.
  unfold StorePath_new, name, checkPathName. cbn [baseName].
  destruct (Nat.ltb_spec (length s) (HashLen + 1)) as [Hl|Hl];
    [right; split; [done|]; intros []; lia|].
  cbn [throw_if mbind result_bind]. unfold hashPart; cbn [baseName].
  destruct (foreach_throw_if illegal_hash_char BadStorePath (take HashLen s)) as [[-> Hf]|[-> Hf]];
    [|right; split; [done|]; by intros []].
  cbn [mbind result_bind].
  destruct (checkName_cases (drop (HashLen + 1) s)) as [[-> Hv]|[-> Hv]].
  - left. split; [done|]. constructor; [lia|done..].
  - right. split; [done|]. by intros [].
Qed.

(** ** Properties *)

(** The string constructor accepts exactly the base names with a 32
    character base-32 hash part and a valid name of 1 to 211 legal characters
    whose first dash-separated component is neither [.] nor [..]; anything
    else throws [BadStorePath] (and nothing is read past the end). *)
Theorem StorePath_new_spec s :
  match StorePath_new s with
  | Ok p => baseName p = s /\ valid_baseName s /\
            name p = Ok (drop 33 s) /\ hashPart p = take 32 s
  | Throw e => e = BadStorePath /\ ~ valid_baseName s
  end.
Proof.
  destruct (StorePath_new_cases s) as [[-> Hv]|[-> Hv]]; [|done]. split; [done|]. split; [done|].
  split; [|done]. unfold name; cbn [baseName].
  destruct Hv as [Hl _ _]. by rewrite (proj2 (Nat.ltb_ge _ _)) by lia.
Qed.
