(* ===== verification/ContentAddress.v ===== *)
(** * ContentAddress: content addresses of store objects

    libstore/content-address.cc, content-address.hh and the method names of
    libutil/file-content-address.cc.  An out-of-range enumerator does not
    exist here, so the [assert(false)] defaults have no case. *)

From S2P Require Export StorePath.

(** ** Serialisation and ingestion methods *)

Module FileSerialisationMethod.
Inductive t := Flat | NixArchive.
#[export] Instance eq_dec : EqDecision t.
Proof. solve_decision. Defined.
End FileSerialisationMethod.

Module FileIngestionMethod.
Inductive t := Flat | NixArchive.
#[export] Instance eq_dec : EqDecision t.
Proof. solve_decision. Defined.
End FileIngestionMethod.

Module ContentAddressMethod.
Inductive t := Flat | NixArchive | Text.
#[export] Instance eq_dec : EqDecision t.
Proof. solve_decision. Defined.
End ContentAddressMethod.
Export (hints) FileSerialisationMethod FileIngestionMethod ContentAddressMethod.

Definition parseFileSerialisationMethodOpt (input : bytes) : option FileSerialisationMethod.t :=
  if decide (input = #"flat") then Some FileSerialisationMethod.Flat
  else if decide (input = #"nar") then Some FileSerialisationMethod.NixArchive
  else None.

Definition parseFileSerialisationMethod (input : bytes) : result FileSerialisationMethod.t :=
  from_opt UsageError (parseFileSerialisationMethodOpt input).

(** The two [static_cast]s between the enumerations. *)
Definition ingestion_of_serialisation (m : FileSerialisationMethod.t) : FileIngestionMethod.t :=
  match m with
  | FileSerialisationMethod.Flat => FileIngestionMethod.Flat
  | FileSerialisationMethod.NixArchive => FileIngestionMethod.NixArchive
  end.
Definition serialisation_of_ingestion (m : FileIngestionMethod.t) : FileSerialisationMethod.t :=
  match m with
  | FileIngestionMethod.Flat => FileSerialisationMethod.Flat
  | FileIngestionMethod.NixArchive => FileSerialisationMethod.NixArchive
  end.

Definition parseFileIngestionMethod (input : bytes) : result FileIngestionMethod.t :=
  ingestion_of_serialisation <$> from_opt UsageError (parseFileSerialisationMethodOpt input).

Definition renderFileSerialisationMethod (m : FileSerialisationMethod.t) : bytes :=
  match m with FileSerialisationMethod.Flat => #"flat" | FileSerialisationMethod.NixArchive => #"nar" end.
Definition renderFileIngestionMethod (m : FileIngestionMethod.t) : bytes :=
  renderFileSerialisationMethod (serialisation_of_ingestion m).

Definition makeFileIngestionPrefix (m : FileIngestionMethod.t) : bytes :=
  match m with FileIngestionMethod.Flat => [] | FileIngestionMethod.NixArchive => #"r:" end.

Definition getFileIngestionMethod (m : ContentAddressMethod.t) : FileIngestionMethod.t :=
  match m with
  | ContentAddressMethod.Flat => FileIngestionMethod.Flat
  | ContentAddressMethod.NixArchive => FileIngestionMethod.NixArchive
  | ContentAddressMethod.Text => FileIngestionMethod.Flat
  end.

Definition fileIngestionMethodToContentAddressMethod (m : FileIngestionMethod.t) : ContentAddressMethod.t :=
  match m with
  | FileIngestionMethod.Flat => ContentAddressMethod.Flat
  | FileIngestionMethod.NixArchive => ContentAddressMethod.NixArchive
  end.

(** [ContentAddressMethod::render], [::parse], [::renderPrefix], [::parsePrefix]. *)
Definition method_render (raw : ContentAddressMethod.t) : bytes :=
  match raw with
  | ContentAddressMethod.Text => #"text"
  | ContentAddressMethod.Flat | ContentAddressMethod.NixArchive =>
      renderFileIngestionMethod (getFileIngestionMethod raw)
  end.

Definition method_parse (m : bytes) : result ContentAddressMethod.t :=
  if decide (m = #"text") then Ok ContentAddressMethod.Text
  else fileIngestionMethodToContentAddressMethod <$> parseFileIngestionMethod m.

Definition renderPrefix (raw : ContentAddressMethod.t) : bytes :=
  match raw with
  | ContentAddressMethod.Text => #"text:"
  | ContentAddressMethod.Flat | ContentAddressMethod.NixArchive =>
      makeFileIngestionPrefix (getFileIngestionMethod raw)
  end.

(** Returns the method and what is left of the input. *)
Definition parsePrefix (m : bytes) : ContentAddressMethod.t * bytes :=
  match splitPrefix m #"r:" with
  | Some m => (ContentAddressMethod.NixArchive, m)
  | None =>
      match splitPrefix m #"text:" with
      | Some m => (ContentAddressMethod.Text, m)
      | None => (ContentAddressMethod.Flat, m)
      end
  end.

Definition renderPrefixModern (ca : ContentAddressMethod.t) : bytes :=
  match ca with
  | ContentAddressMethod.Text => #"text:"
  | ContentAddressMethod.Flat | ContentAddressMethod.NixArchive =>
      #"fixed:" ++ makeFileIngestionPrefix (getFileIngestionMethod ca)
  end.

Definition renderWithAlgo (raw : ContentAddressMethod.t) (ha : HashAlgorithm) : bytes :=
  renderPrefixModern raw ++ printHashAlgo ha.

(** ** Content addresses *)

Record ContentAddress := mkContentAddress { method : ContentAddressMethod.t; ca_hash : Hash }.
#[export] Instance ContentAddress_eq_dec : EqDecision ContentAddress.
Proof. solve_decision. Defined.

Definition render (ca : ContentAddress) : result bytes :=
  h ← Hashing.to_string (ca_hash ca) Nix32 true;
  Ok (renderPrefixModern (method ca) ++ h).

(** The algorithm name up to the next colon, and the rest. *)
Definition parseHashAlgorithm_ (rest : bytes) : result (HashAlgorithm * bytes) :=
  '(hashAlgoRaw, rest) ← from_opt UsageError (splitPrefixTo rest ":");
  hashAlgo ← parseHashAlgo hashAlgoRaw;
  Ok (hashAlgo, rest).

(** Returns the two parts and the unparsed rest. *)
Definition parseContentAddressMethodPrefix (rest : bytes)
    : result (ContentAddressMethod.t * HashAlgorithm * bytes) :=
  '(prefix, rest) ← from_opt UsageError (splitPrefixTo rest ":");
  if decide (prefix = #"text") then
    '(hashAlgo, rest) ← parseHashAlgorithm_ rest;
    Ok (ContentAddressMethod.Text, hashAlgo, rest)
  else if decide (prefix = #"fixed") then
    let '(m, rest) := match splitPrefix rest #"r:" with
                      | Some rest => (ContentAddressMethod.NixArchive, rest)
                      | None => (ContentAddressMethod.Flat, rest)
                      end in
    '(hashAlgo, rest) ← parseHashAlgorithm_ rest;
    Ok (m, hashAlgo, rest)
  else Throw UsageError.

Definition parse (rawCa : bytes) : result ContentAddress :=
  '(caMethod, hashAlgo, rest) ← parseContentAddressMethodPrefix rawCa;
  h ← parseNonSRIUnprefixed rest hashAlgo;
  Ok (mkContentAddress caMethod h).

Definition parseWithAlgo (caMethod : bytes) : result (ContentAddressMethod.t * HashAlgorithm) :=
  '(m, a, _) ← parseContentAddressMethodPrefix (caMethod ++ #":");
  Ok (m, a).

Definition parseOpt (rawCaOpt : bytes) : result (option ContentAddress) :=
  if decide (rawCaOpt = []) then Ok None else Some <$> parse rawCaOpt.

Definition renderContentAddress (ca : option ContentAddress) : result bytes :=
  match ca with Some ca => render ca | None => Ok [] end.

Definition printMethodAlgo (ca : ContentAddress) : bytes :=
  renderPrefix (method ca) ++ printHashAlgo (algo (ca_hash ca)).

(** ** Content addresses with references *)

Record StoreReferences := mkStoreReferences { others : StorePathSet; self : bool }.
#[export] Instance StoreReferences_eq_dec : EqDecision StoreReferences.
Proof. solve_decision. Defined.

Definition refs_empty (r : StoreReferences) : bool := negb (self r) && bool_decide (others r = ∅).
Definition refs_size (r : StoreReferences) : nat := (if self r then 1 else 0) + size (others r).

Record TextInfo := mkTextInfo { ti_hash : Hash; ti_references : StorePathSet }.
Record FixedOutputInfo := mkFixedOutputInfo
  { foi_method : FileIngestionMethod.t; foi_hash : Hash; foi_references : StoreReferences }.
Inductive ContentAddressWithReferences :=
  | CAText (ti : TextInfo)
  | CAFixed (foi : FixedOutputInfo).

Definition withoutRefs (ca : ContentAddress) : ContentAddressWithReferences :=
  match method ca with
  | ContentAddressMethod.Text => CAText (mkTextInfo (ca_hash ca) ∅)
  | ContentAddressMethod.Flat | ContentAddressMethod.NixArchive =>
      CAFixed (mkFixedOutputInfo (getFileIngestionMethod (method ca)) (ca_hash ca) (mkStoreReferences ∅ false))
  end.

Definition fromParts (m : ContentAddressMethod.t) (h : Hash) (refs : StoreReferences)
    : result ContentAddressWithReferences :=
  match m with
  | ContentAddressMethod.Text =>
      _ ← throw_if (self refs) Error;
      Ok (CAText (mkTextInfo h (others refs)))
  | ContentAddressMethod.Flat | ContentAddressMethod.NixArchive =>
      Ok (CAFixed (mkFixedOutputInfo (getFileIngestionMethod m) h refs))
  end.

Definition getMethod (ca : ContentAddressWithReferences) : ContentAddressMethod.t :=
  match ca with
  | CAText _ => ContentAddressMethod.Text
  | CAFixed foi => fileIngestionMethodToContentAddressMethod (foi_method foi)
  end.

Definition getHash (ca : ContentAddressWithReferences) : Hash :=
  match ca with CAText ti => ti_hash ti | CAFixed foi => foi_hash foi end.

(** ** Lemmas *)

Lemma method_parse_render m : method_parse (method_render m) = Ok m.
Proof. by destruct m. Qed.

Lemma parsePrefix_renderPrefix m s :
  (m = ContentAddressMethod.Flat -> hasPrefix s #"r:" = false /\ hasPrefix s #"text:" = false) ->
  parsePrefix (renderPrefix m ++ s) = (m, s).
Proof.
  intros Hm. destruct m.
  - destruct (Hm eq_refl) as [H1 H2]. unfold parsePrefix, splitPrefix; simpl app. by rewrite H1, H2.
  - unfold parsePrefix; simpl renderPrefix. by rewrite splitPrefix_app.
  - unfold parsePrefix; simpl renderPrefix.
    change (splitPrefix (#"text:" ++ s) #"r:") with (@None bytes). by rewrite splitPrefix_app.
Qed.

Lemma parseHashAlgorithm_print a s : parseHashAlgorithm_ (printHashAlgo a ++ ":"%char :: s) = Ok (a, s).
Proof.
  unfold parseHashAlgorithm_. rewrite splitPrefixTo_app by (apply printHashAlgo_no; set_solver).
  cbn [from_opt mbind result_bind]. by rewrite parseHashAlgo_print.
Qed.

Lemma splitPrefix_algo a s : splitPrefix (printHashAlgo a ++ s) #"r:" = None.
Proof. by destruct a. Qed.

Lemma parse_prefix_render m a s :
  parseContentAddressMethodPrefix (renderPrefixModern m ++ printHashAlgo a ++ ":"%char :: s) = Ok (m, a, s).
Proof.
  unfold parseContentAddressMethodPrefix. destruct m; cbn [renderPrefixModern getFileIngestionMethod makeFileIngestionPrefix].
  - change ((#"fixed:" ++ []) ++ printHashAlgo a ++ ":"%char :: s) with
      (#"fixed" ++ ":"%char :: printHashAlgo a ++ ":"%char :: s).
    rewrite splitPrefixTo_app by (refine (proj1 (bool_decide_eq_true _) _); reflexivity).
    cbn [from_opt mbind result_bind]. rewrite decide_False, decide_True by done.
    rewrite splitPrefix_algo. by rewrite parseHashAlgorithm_print.
  - change ((#"fixed:" ++ #"r:") ++ printHashAlgo a ++ ":"%char :: s) with
      (#"fixed" ++ ":"%char :: #"r:" ++ printHashAlgo a ++ ":"%char :: s).
    rewrite splitPrefixTo_app by (refine (proj1 (bool_decide_eq_true _) _); reflexivity).
    cbn [from_opt mbind result_bind]. rewrite decide_False, decide_True by done.
    rewrite splitPrefix_app. by rewrite parseHashAlgorithm_print.
  - change (#"text:" ++ printHashAlgo a ++ ":"%char :: s) with
      (#"text" ++ ":"%char :: printHashAlgo a ++ ":"%char :: s).
    rewrite splitPrefixTo_app by (refine (proj1 (bool_decide_eq_true _) _); reflexivity).
    cbn [from_opt mbind result_bind]. rewrite decide_True by done.
    by rewrite parseHashAlgorithm_print.
Qed.

Lemma parseNonSRIUnprefixed_encode h e :
  wf_Hash h -> encode_as Nix32 (digest_of h) = Ok e -> parseNonSRIUnprefixed e (algo h) = Ok h.
Proof.
  intros Hwf He. destruct (encode_as_Ok Nix32 h Hwf) as (e' & He' & Hf & dec & Hb & Hd).
  assert (e = e') as -> by congruence. unfold parseNonSRIUnprefixed, parseExplicitFormatUnprefixed.
  rewrite Hf. cbn [mbind result_bind]. rewrite Hb. cbn [mbind result_bind]. by apply parseLowLevel_Ok.
Qed.

Lemma withoutRefs_method ca : getMethod (withoutRefs ca) = method ca.
Proof. by destruct ca as [[] h]. Qed.
Lemma withoutRefs_hash ca : getHash (withoutRefs ca) = ca_hash ca.
Proof. by destruct ca as [[] h]. Qed.

Lemma parse_of_render ca : wf_Hash (ca_hash ca) -> (s ← render ca; parse s) = Ok ca.
Proof.
  destruct ca as [m h]; cbn [ca_hash]. intros Hwf. unfold render; cbn [ca_hash method].
  destruct (encode_as_Ok Nix32 h Hwf) as (e & He & _).
  rewrite to_string_eq, He by (destruct Hwf as [-> _]; apply regularHashSize_bounds).
  rewrite orb_true_r, decide_False by done. cbn [mbind result_bind].
  unfold parse. rewrite <- (app_assoc (printHashAlgo _)). change (#":" ++ e) with (":"%char :: e).
  rewrite parse_prefix_render. cbn [mbind result_bind].
  by rewrite (parseNonSRIUnprefixed_encode h e).
Qed.

(** ** Properties *)

(** Rendering a content address and parsing it back returns it: the
    method prefix, the algorithm and the digest all survive. *)
Theorem parse_render ca :
  wf_Hash (ca_hash ca) -> (s ← render ca; parse s) = Ok ca.
Proof. apply parse_of_render. Qed.

Lemma parse_render_witness : exists ca, wf_Hash (ca_hash ca) /\ (s ← render ca; parse s) = Ok ca.
Proof.
  set (h := mkHash 20 (replicate 20 "x"%char ++ replicate (maxHashSize - 20) (bZ 0)) SHA1).
  assert (wf_Hash h) as Hwf by (by apply (wf_mkHash SHA1)).
  exists (mkContentAddress ContentAddressMethod.NixArchive h). split; [exact Hwf|].
  apply parse_render. exact Hwf.
Defined.
