(* ===== verification/StoreDir.v ===== *)
(** * StoreDir: the store directory and the construction of store paths

    libstore/store-dir-config.cc, store-dir-config.hh and the path functions
    of store-api.cc: printing and parsing store paths, membership of the
    store, and the hash-based construction of store paths. *)

From S2P Require Export CanonPath ContentAddress.

(** ** [std::filesystem::path] *)

(** The elements an iteration over a path visits: the root directory, the
    file names and an empty name for a trailing separator. *)
Definition path_elements (s : bytes) : list bytes :=
  (if is_absolute s then [ [slash] ] else [])
  ++ components s
  ++ (if bool_decide (last s = Some slash) && negb (bool_decide (components s = [])) then [ [] ] else []).

(** [operator==] compares element-wise. *)
Definition path_eqb (a b : bytes) : bool := bool_decide (path_elements a = path_elements b).

(** [filename()] *)
Definition filename (s : bytes) : bytes :=
  match rfind_char slash s with Some i => drop (S i) s | None => s end.

Fixpoint mismatch (a b : list bytes) : list bytes * list bytes :=
  match a, b with
  | x :: a', y :: b' => if decide (x = y) then mismatch a' b' else (a, b)
  | _, _ => (a, b)
  end.

(** The elements of [path.lexically_relative(base)]. *)
Definition lexically_relative (path base : bytes) : list bytes :=
  if negb (bool_decide (is_absolute path = is_absolute base)) then []
  else
    let '(a, b) := mismatch (path_elements path) (path_elements base) in
    if bool_decide (a = []) && bool_decide (b = []) then [ #"." ]
    else
      let n := foldl (fun n e => if decide (e = #"..") then (n - 1)%Z
                                 else if decide (e = [] \/ e = #".") then n else (n + 1)%Z) 0%Z b in
      if bool_decide (n = 0)%Z && (bool_decide (a = []) || bool_decide (head a = Some [])) then [ #"." ]
      else if (n <? 0)%Z then []
      else replicate (Z.to_nat n) #".." ++ a.

(** [isInDir] of file-system.cc *)
Definition isInDir (path dir : bytes) : bool :=
  match lexically_relative path dir with
  | [] => false
  | first :: _ => negb (bool_decide (first = #".")) && negb (bool_decide (first = #".."))
  end.

(** [isDirOrInDir] *)
Definition isDirOrInDir (path dir : bytes) : bool := path_eqb path dir || isInDir path dir.

(** [canonPath(path)] without following links; every iteration consumes
    input, so the length of the path is enough fuel. *)
Definition canonPath_plain (path : bytes) : result bytes :=
  default (Throw AssertFailed) (canonPath (fun _ => None) false (S (length path)) path).

(** [canonStoreDir] of store-api.cc *)
Definition canonStoreDir (path : bytes) : result bytes :=
  _ ← throw_if (bool_decide (path = []) || negb (bool_decide (head path = Some slash))) UsageError;
  p ← CanonPath_new path;
  Ok (abs p).

(** ** [StoreDirConfig] *)

Section StoreDirConfig.
Context (storeDir : bytes).

Definition parseStorePath (path : bytes) : result StorePath :=
  _ ← throw_if (bool_decide (path = [])) BadStorePath;
  p ← canonPath_plain path;
  _ ← throw_if (negb (path_eqb (parent_path p) storeDir)) BadStorePath;
  StorePath_new (filename p).

Definition maybeParseStorePath (path : bytes) : result (option StorePath) :=
  catch (Some <$> parseStorePath path) is_Error (fun _ => Ok None).

Definition isStorePath (path : bytes) : result bool :=
  p ← maybeParseStorePath path; Ok (bool_decide (is_Some p)).

Definition parseStorePathSet (paths : gset bytes) : result StorePathSet :=
  foreach (fun res i => p ← parseStorePath i; Ok ({[ p ]} ∪ res)) ∅ (set_iter paths).

Definition printStorePath (path : StorePath) : bytes := (storeDir ++ #"/") ++ to_string path.

Definition printStorePathSet (paths : StorePathSet) : gset bytes :=
  foldl (fun res i => {[ printStorePath i ]} ∪ res) ∅ (sp_iter paths).

Definition isInStore (path : bytes) : bool := isInDir path storeDir.

(** [path.find('/', pos)] *)
Definition find_from (c : ascii) (s : bytes) (pos : nat) : option nat :=
  (fun i => (pos + i)%nat) <$> find_char c (drop pos s).

Definition toStorePath (path : bytes) : result (StorePath * CanonPath) :=
  _ ← throw_if (negb (isInStore path)) Error;
  match find_from slash path (length storeDir + 1) with
  | None => p ← parseStorePath path; Ok (p, root)
  | Some i =>
      p ← parseStorePath (take i path);
      c ← CanonPath_new (drop i path);
      Ok (p, c)
  end.

Section make.
Context `{HashLib}.

(** [makeStorePath(type, hash, name)] with the hash as a string. *)
Definition makeStorePath_str (type hash name : bytes) : result StorePath :=
  let s := type ++ #":" ++ hash ++ #":" ++ storeDir ++ #":" ++ name in
  d ← hashString SHA256 s;
  h ← compressHash d 20;
  StorePath_of_hash h name.

Definition makeStorePath (type : bytes) (hash : Hash) (name : bytes) : result StorePath :=
  s ← Hashing.to_string hash Base16 true;
  makeStorePath_str type s name.

Definition makeType (type : bytes) (references : StoreReferences) : bytes :=
  let type := foldl (fun type i => (type ++ #":") ++ printStorePath i) type (sp_iter (others references)) in
  if self references then type ++ #":self" else type.

Definition makeFixedOutputPath (name : bytes) (info : FixedOutputInfo) : result StorePath :=
  if bool_decide (algo (foi_hash info) = SHA256) && bool_decide (foi_method info = FileIngestionMethod.NixArchive)
  then makeStorePath (makeType #"source" (foi_references info)) (foi_hash info) name
  else
    _ ← throw_if (negb (refs_empty (foi_references info))) Error;
    h ← Hashing.to_string (foi_hash info) Base16 true;
    let payload := #"fixed:out:" ++ makeFileIngestionPrefix (foi_method info) ++ h ++ #":" in
    digest ← hashString SHA256 payload;
    makeStorePath #"output:out" digest name.

Definition makeFixedOutputPathFromCA (name : bytes) (ca : ContentAddressWithReferences) : result StorePath :=
  match ca with
  | CAText ti =>
      _ ← assertb (bool_decide (algo (ti_hash ti) = SHA256));
      makeStorePath (makeType #"text" (mkStoreReferences (ti_references ti) false)) (ti_hash ti) name
  | CAFixed foi => makeFixedOutputPath name foi
  end.
End make.
End StoreDirConfig.

(** ** Lemmas: canonical store directories *)

Lemma canonPath_plain_eq s :
  s <> [] -> is_absolute s = true -> canonPath_plain s = Ok (join_path (resolve [] (components s))).
Proof.
  intros Hs Ha. rewrite <- absPathPure_spec by done.
  unfold canonPath_plain, canonPath, absPathPure, canonPathInner.
  rewrite bool_decide_false, Ha by done. cbn [throw_if mbind result_bind negb].
  rewrite (bool_decide_true (s <> [])) by done. cbn [assertb throw_if negb].
  assert (forall fuel r m fc, canon_loop (follow_hook (fun _ => None) false) fuel fc r m =
            canon_loop (fun _ r m => Ok ((), r, m)) fuel () r m) as ->; [|done].
  intros fuel; induction fuel as [|fuel IH]; intros r m fc; [done|]. cbn [canon_loop].
  unfold canon_iter at 1 2. destruct (decide (skip_slashes m = [])); [done|].
  case_decide; [apply IH|]. case_decide; [destruct (decide (r = [])); cbn; [apply IH|]|].
  - destruct (erase_from r (rfind_char slash r)); cbn; [apply IH|done].
  - case_match; cbn; apply IH.
Qed.

Lemma is_absolute_join cs : is_absolute (join_path cs) = true.
Proof. unfold is_absolute. destruct (head_join cs) as [r ->]. by rewrite bool_decide_true. Qed.

Lemma last_joinE cs : Forall plain cs -> last (joinE cs) <> Some slash.
Proof.
  destruct cs as [|c cs _] using rev_ind; [done|].
  intros [_ [[Hn Hc] _]%Forall_cons]%Forall_app. rewrite joinE_snoc, last_app_cons.
  destruct c as [|x c _] using rev_ind; [done|]. rewrite app_comm_cons, last_snoc. intros [= ->]. set_solver.
Qed.

Lemma path_elements_join cs : Forall plain cs -> path_elements (join_path cs) = [slash] :: cs.
Proof.
  intros Hcs. unfold path_elements. rewrite is_absolute_join, components_join by done.
  destruct (decide (cs = [])) as [->|Hn]; [done|].
  rewrite (bool_decide_false (last _ = _)); [by rewrite app_nil_r|].
  unfold join_path. rewrite decide_False by done. by apply last_joinE.
Qed.

Lemma filename_join cs c : plain c -> filename (join_path (cs ++ [c])) = c.
Proof.
  intros [Hn Hc]. unfold filename, join_path. rewrite decide_False by (by destruct cs).
  rewrite joinE_snoc, rfind_char_app by done. by rewrite drop_S_app.
Qed.

Lemma parent_path_join cs c : Forall plain cs -> plain c -> parent_path (join_path (cs ++ [c])) = join_path cs.
Proof.
  intros Hcs [Hn Hc]. unfold parent_path, join_path. rewrite decide_False by (by destruct cs).
  rewrite joinE_snoc, rfind_char_app by done.
  destruct (length (joinE cs)) as [|n] eqn:Hl.
  - apply length_zero_iff_nil, joinE_nil in Hl. by rewrite decide_True.
  - rewrite <- Hl, take_app_length. rewrite decide_False; [done|]. by intros ->.
Qed.

(** A base name is a single path component. *)
Lemma legal_not_special c : legal_name_char c = true -> c <> slash /\ c <> NUL.
Proof. by_chars c. Qed.
Lemma hash_not_special c : illegal_hash_char c = false -> c <> slash /\ c <> NUL /\ c <> "."%char.
Proof. by_chars c. Qed.

(** A store path as the code builds them: an accepted base name whose
    separator is the dash (which the string constructor does not check). *)
Record wf_StorePath (p : StorePath) : Prop := {
  wf_baseName : valid_baseName (baseName p);
  wf_dash : baseName p !! 32%nat = Some "-"%char;
}.

Lemma wf_StorePath_good p : wf_StorePath p -> good (baseName p).
Proof.
  intros [[Hl Hh [_ _ _ Hr]] Hd]. set (s := baseName p) in *.
  assert (s = take 32 s ++ "-"%char :: drop 33 s) as Hs by (symmetry; by apply take_drop_middle).
  assert (forall c, c ∈ s -> c <> slash /\ c <> NUL) as Hc.
  { intros c. rewrite Hs, elem_of_app, elem_of_cons. rewrite Forall_forall in Hh, Hr.
    intros [H%Hh|[->|H%Hr]]; [by apply hash_not_special in H as (?&?&?)|done|by apply legal_not_special]. }
  unfold HashLen in *. split; [intros He; rewrite He in Hl; simpl in Hl; lia|].
  split; [intros He; rewrite He in Hl; simpl in Hl; lia|].
  split; [intros He; rewrite He in Hl; simpl in Hl; lia|].
  split; intros Hin; apply Hc in Hin as []; done.
Qed.

Lemma good_kept c : good c -> kept c.
Proof. intros (?&?&?&?&?). done. Qed.

Lemma kept_resolve s : Forall kept (resolve [] (components s)).
Proof.
  apply resolve_Forall; [done|]. apply Forall_forall. intros c Hc H1 H2.
  by destruct (components_pieces s c Hc) as (Hn & Hsl & _).
Qed.

Section canonical_store.
Context (ds : list bytes) (Hds : Forall good ds).
Let storeDir := join_path ds.

Lemma path_eqb_join cs : Forall plain cs -> path_eqb (join_path cs) storeDir = bool_decide (cs = ds).
Proof using Hds.
  intros Hcs. unfold path_eqb, storeDir. rewrite !path_elements_join by (done || by apply Forall_good_plain).
  apply bool_decide_ext. split; congruence.
Qed.

(** [parseStorePath] in terms of components. *)
Lemma parseStorePath_eq path :
  path <> [] -> is_absolute path = true ->
  parseStorePath storeDir path =
  match last (resolve [] (components path)) with
  | Some c => if decide (resolve [] (components path) = ds ++ [c]) then StorePath_new c else Throw BadStorePath
  | None => Throw BadStorePath
  end.
Proof using Hds.
  intros Hp Ha. unfold parseStorePath. rewrite bool_decide_false by done. cbn [throw_if mbind result_bind].
  rewrite canonPath_plain_eq by done. cbn [mbind result_bind].
  pose proof (kept_resolve path) as Hk.
  destruct (resolve [] (components path)) as [|c cs _] using rev_ind.
  - cbn. change (parent_path (join_path [])) with (join_path []). rewrite path_eqb_join by done.
    case_bool_decide; [|done]. change (filename (join_path [])) with (@nil ascii).
    destruct (StorePath_new_cases []) as [[_ [Hl _ _]]|[-> _]]; [|done]. simpl in Hl. lia.
  - apply Forall_app in Hk as [Hcs [Hc _]%Forall_cons]. apply kept_plain in Hcs.
    rewrite last_snoc, parent_path_join, path_eqb_join, filename_join by (done || apply Hc).
    case_bool_decide as He.
    + subst cs. by rewrite decide_True.
    + rewrite decide_False; [done|]. by intros [? _]%app_inj_tail.
Qed.

Lemma components_print p rest :
  plain (baseName p) -> (rest = [] \/ head rest = Some slash) ->
  components (printStorePath storeDir p ++ rest) = ds ++ baseName p :: components rest.
Proof using Hds.
  intros [Hn Hs] Hr. unfold printStorePath, to_string. rewrite <- !app_assoc. unfold storeDir.
  rewrite components_below by (by apply Forall_good_plain). f_equal.
  destruct rest as [|x rest]; [rewrite app_nil_r; by apply components_no_slash|].
  destruct Hr as [|[= ->]]; [done|]. by rewrite components_app, components_slash by done.
Qed.

Lemma print_head p rest : exists r, printStorePath storeDir p ++ rest = slash :: r.
Proof using Type.
  unfold printStorePath, storeDir. destruct (head_join ds) as [r ->]. simpl. eauto.
Qed.
End canonical_store.

(** ** Properties *)

Lemma parse_print ds p :
  Forall good ds -> wf_StorePath p ->
  parseStorePath (join_path ds) (printStorePath (join_path ds) p) = Ok p.
Proof.
  intros Hds Hwf. apply wf_StorePath_good in Hwf as Hg. destruct (print_head ds p []) as [r Hr].
  rewrite app_nil_r in Hr. rewrite parseStorePath_eq, Hr by (done || rewrite Hr; done). rewrite <- Hr.
  rewrite <- (app_nil_r (printStorePath _ _)).
  rewrite components_print by (auto using good_plain). change (components []) with (@nil bytes).
  assert (resolve [] (ds ++ [baseName p]) = ds ++ [baseName p]) as ->.
  { rewrite resolve_good; [done|]. apply Forall_app. auto. }
  rewrite last_snoc, decide_True by done.
  destruct (StorePath_new_cases (baseName p)) as [[-> _]|[_ Hv]]; [by destruct p|].
  destruct Hwf as [? _]. done.
Qed.

(** C37: In a store with a canonical directory, printing a store path and
    parsing the text back gives the same store path. *)
Theorem parse_printStorePath ds p :
  Forall good ds -> wf_StorePath p ->
  parseStorePath (join_path ds) (printStorePath (join_path ds) p) = Ok p.
Proof. apply parse_print. Qed.

(** An example store path. *)
Definition example_path : StorePath := mkStorePath (replicate 32 "a"%char ++ #"-foo").

Lemma example_wf : wf_StorePath example_path.
Proof.
  split; [|done].
  destruct (StorePath_new_cases (baseName example_path)) as [[_ Hv]|[H _]]; [done|].
  vm_compute in H. discriminate.
Qed.

Lemma good_nix_store : Forall good [ #"nix"; #"store"].
Proof. refine (proj1 (bool_decide_eq_true _) _). vm_compute. reflexivity. Qed.

Lemma parse_printStorePath_witness :
  parseStorePath #"/nix/store" (printStorePath #"/nix/store" example_path) = Ok example_path.
Proof. apply (parse_printStorePath [ #"nix"; #"store"]); [exact good_nix_store|exact example_wf]. Defined.

(** A path parses to a store path exactly when it is absolute and,
    with [.] and [..] resolved, names a direct child of the store directory
    whose name the constructor accepts. *)
Theorem parseStorePath_spec ds path p :
  Forall good ds -> path <> [] -> is_absolute path = true ->
  parseStorePath (join_path ds) path = Ok p <->
  resolve [] (components path) = ds ++ [baseName p] /\ valid_baseName (baseName p).
Proof.
  intros Hds Hp Ha. rewrite parseStorePath_eq by done. split.
  - destruct (last (resolve [] (components path))) as [c|]; [|done]. case_decide as He; [|done].
    destruct (StorePath_new_cases c) as [[-> Hv]|[-> _]]; [|done]. intros [= <-]. done.
  - intros [-> Hv]. rewrite last_snoc, decide_True by done.
    destruct (StorePath_new_cases (baseName p)) as [[-> _]|[_ ?]]; [by destruct p|done].
Qed.

(** A path inside a store object splits into the store path and the
    canonical path below it. *)
Theorem toStorePath_print ds p rest :
  Forall good ds -> ds <> [] -> wf_StorePath p -> NUL ∉ rest ->
  toStorePath (join_path ds) (printStorePath (join_path ds) p ++ slash :: rest) =
  Ok (p, unchecked (join_path (resolve [] (components rest)))).
Proof.
  intros Hds Hne Hwf Hn. apply wf_StorePath_good in Hwf as Hg. apply good_plain in Hg as Hpl.
  unfold toStorePath.
  assert (isInStore (join_path ds) (printStorePath (join_path ds) p ++ slash :: rest) = true) as ->.
  { unfold isInStore, isInDir, lexically_relative. destruct (print_head ds p (slash :: rest)) as [r Hr].
    rewrite is_absolute_join, (bool_decide_true (is_absolute _ = true)) by (by rewrite Hr). cbn [negb].
    rewrite (path_elements_join ds) by (by apply Forall_good_plain). unfold path_elements at 1.
    rewrite (components_print ds Hds) by auto. rewrite Hr. cbn [is_absolute].
    match goal with |- context [(ds ++ baseName p :: ?l1) ++ ?m1] => generalize l1 m1 end. intros l m.
    change (is_absolute (slash :: r)) with true. cbn iota. rewrite <- app_assoc.
    assert (forall a e, mismatch (a ++ e) a = (e, [])) as Hmm.
    { induction a as [|x a IH]; intros [|y e]; simpl; rewrite ?decide_True by done; auto. }
    change ([ [slash] ] ++ ds ++ (baseName p :: l) ++ m) with (([slash] :: ds) ++ (baseName p :: l ++ m)).
    rewrite Hmm. destruct Hg as (Hg1 & Hg2 & Hg3 & _). cbn.
    rewrite (bool_decide_false (Some _ = Some [])) by congruence.
    rewrite andb_false_r. change (replicate (Z.to_nat 0) ?x ++ ?y) with y. cbn match.
    by rewrite !bool_decide_false. }
  cbn [negb throw_if mbind result_bind]. unfold find_from.
  assert (drop (length (join_path ds) + 1) (printStorePath (join_path ds) p ++ slash :: rest) =
          baseName p ++ slash :: rest) as ->.
  { unfold printStorePath, to_string. rewrite <- !app_assoc.
    rewrite <- drop_drop, drop_app_length. done. }
  rewrite find_char_app by apply Hpl. cbn [fmap option_fmap option_map].
  assert (length (join_path ds) + 1 + length (baseName p) = length (printStorePath (join_path ds) p))%nat as ->.
  { unfold printStorePath, to_string. rewrite !length_app. simpl. lia. }
  rewrite take_app_length, drop_app_length, parse_print by done. cbn [mbind result_bind].
  rewrite CanonPath_new_eq, components_slash, decide_False; [done|].
  rewrite not_elem_of_cons. done.
Qed.

Lemma parseStorePath_spec_witness :
  parseStorePath #"/nix/store" #"/nix//./store/foo" = Ok example_path <->
  resolve [] (components #"/nix//./store/foo") = [ #"nix"; #"store"] ++ [baseName example_path]
  /\ valid_baseName (baseName example_path).
Proof.
  apply (parseStorePath_spec [ #"nix"; #"store"]); [exact good_nix_store|discriminate|reflexivity].
Defined.

Lemma toStorePath_print_witness :
  toStorePath #"/nix/store" (printStorePath #"/nix/store" example_path ++ slash :: #"bin/../x") =
  Ok (example_path, unchecked (join_path (resolve [] (components #"bin/../x")))).
Proof.
  apply (toStorePath_print [ #"nix"; #"store"]);
    [exact good_nix_store|discriminate|exact example_wf|].
  refine (proj1 (bool_decide_eq_true _) _). vm_compute. reflexivity.
Defined.

(** *** Construction *)

Lemma nix32_hash_char c : c ∈ BaseNix32.characters -> illegal_hash_char c = false.
Proof. by_chars c. Qed.

(** A 20-byte digest and a valid name make a store path. *)
Lemma StorePath_of_hash_Ok h n :
  hashSize h = 20%nat -> length (digest_of h) = 20%nat -> valid_name n ->
  exists e, BaseNix32.encode (digest_of h) = Ok e /\ length e = 32%nat /\
    StorePath_of_hash h n = Ok (mkStorePath (e ++ "-"%char :: n)) /\
    wf_StorePath (mkStorePath (e ++ "-"%char :: n)).
Proof.
  intros Hs Hl Hv. assert (Z.of_nat (length (digest_of h)) < 2 ^ 28)%Z as Hsm by (rewrite Hl; lia).
  assert (length (digest_of h) <> 0%nat) as Hne by lia.
  pose proof (BaseNix32.encode_Ok _ Hne Hsm) as He.
  set (e := BaseNix32.encode_char _ <$> _) in He. exists e. split; [done|].
  pose proof (BaseNix32.length_encode _ _ Hsm Hne He) as Hle. rewrite Hl in Hle.
  assert (length e = 32%nat) as H32 by (apply Nat2Z.inj; rewrite Hle; reflexivity). split; [done|].
  assert (length (e ++ "-"%char :: n) = 33 + length n)%nat as Hlen by (rewrite length_app; simpl; lia).
  assert (drop 33 (e ++ "-"%char :: n) = n) as Hd by (rewrite <- H32; apply drop_S_app).
  change 33%nat with (HashLen + 1)%nat in Hd.
  split.
  - unfold StorePath_of_hash. rewrite to_string_eq by lia. cbn [encode_as]. rewrite He.
    cbn [mbind result_bind orb bool_decide]. rewrite bool_decide_false by done. rewrite app_nil_l.
    rewrite <- app_assoc. change (#"-" ++ n) with ("-"%char :: n). unfold name; cbn [baseName].
    rewrite (proj2 (Nat.ltb_ge _ _)) by (unfold HashLen; lia). cbn [throw_if mbind result_bind].
    rewrite Hd. unfold checkPathName.
    by destruct (checkName_cases n) as [[-> _]|[_ ?]].
  - split; cbn [baseName]; [|by rewrite lookup_app_r, H32 by lia].
    split; [destruct Hv as [Hn _ _ _]; destruct n; simpl in *; [done|unfold HashLen; lia]| |by rewrite Hd].
    change HashLen with 32%nat. rewrite <- H32, take_app_length. apply Forall_forall. intros c Hc.
    by eapply nix32_hash_char, BaseNix32.encode_chars.
Qed.

Lemma StorePath_of_hash_bad h n :
  hashSize h = 20%nat -> length (digest_of h) = 20%nat -> ~ valid_name n ->
  StorePath_of_hash h n = Throw BadStorePath.
Proof.
  intros Hs Hl Hv. assert (Z.of_nat (length (digest_of h)) < 2 ^ 28)%Z as Hsm by (rewrite Hl; lia).
  assert (length (digest_of h) <> 0%nat) as Hne by lia.
  pose proof (BaseNix32.encode_Ok _ Hne Hsm) as He.
  set (e := BaseNix32.encode_char _ <$> _) in He.
  pose proof (BaseNix32.length_encode _ _ Hsm Hne He) as Hle. rewrite Hl in Hle.
  assert (length e = 32%nat) as H32 by (apply Nat2Z.inj; rewrite Hle; reflexivity).
  unfold StorePath_of_hash. rewrite to_string_eq by lia. cbn [encode_as]. rewrite He.
  cbn [mbind result_bind orb bool_decide]. rewrite bool_decide_false by done. rewrite app_nil_l.
  rewrite <- app_assoc. change (#"-" ++ n) with ("-"%char :: n). unfold name; cbn [baseName].
  rewrite (proj2 (Nat.ltb_ge _ _)) by (unfold HashLen; rewrite length_app; simpl; lia).
  cbn [throw_if mbind result_bind]. unfold HashLen. change (32 + 1)%nat with 33%nat.
  rewrite <- H32 at 1. rewrite drop_S_app. unfold checkPathName.
  by destruct (checkName_cases n) as [[_ ?]|[-> _]].
Qed.

Lemma makeStorePath_outcome `{HashLibLaws} storeDir type hash nm :
  wf_Hash hash ->
  (valid_name nm -> exists p, makeStorePath storeDir type hash nm = Ok p /\
                              wf_StorePath p /\ name p = Ok nm) /\
  (~ valid_name nm -> makeStorePath storeDir type hash nm = Throw BadStorePath).
Proof.
  intros Hwf. unfold makeStorePath, makeStorePath_str.
  destruct (to_string_Ok hash Base16 true Hwf) as [s ->]. cbn [mbind result_bind].
  match goal with |- context [hashString _ ?s] => destruct (hashString_Ok SHA256 s) as (d & -> & _) end.
  cbn [mbind result_bind].
  destruct (compressHash_Ok d 20) as (h & -> & Hs & _ & Hl); [unfold maxHashSize; lia|].
  cbn [mbind result_bind]. split.
  - intros Hv. destruct (StorePath_of_hash_Ok h nm Hs Hl Hv) as (e & _ & He & -> & Hp).
    eexists. split; [done|]. split; [done|]. unfold name; cbn [baseName].
    rewrite (proj2 (Nat.ltb_ge _ _)) by (rewrite length_app; simpl; unfold HashLen; lia).
    cbn [throw_if mbind result_bind]. unfold HashLen. change (32 + 1)%nat with 33%nat.
    rewrite <- He at 1. by rewrite drop_S_app.
  - intros Hv. by apply StorePath_of_hash_bad.
Qed.

(** Making a store path from a type, a hash and a name yields a
    well-formed store path with exactly that name when the name is valid, and
    throws [BadStorePath] otherwise; the hash part depends only on the digest
    of [type:hash:storeDir:name]. *)
Theorem makeStorePath_spec `{HashLibLaws} storeDir type hash nm :
  wf_Hash hash ->
  (valid_name nm -> exists p, makeStorePath storeDir type hash nm = Ok p /\
                              wf_StorePath p /\ name p = Ok nm) /\
  (~ valid_name nm -> makeStorePath storeDir type hash nm = Throw BadStorePath).
Proof. apply makeStorePath_outcome. Qed.

Lemma valid_name_foo : valid_name #"foo".
Proof.
  destruct (checkName_cases #"foo") as [[_ Hv]|[Hc _]]; [exact Hv|]. vm_compute in Hc. discriminate.
Qed.

(** An example digest. *)
Definition example_hash (a : HashAlgorithm) : Hash :=
  mkHash (regularHashSize a)
    (replicate (regularHashSize a) "x"%char ++ replicate (maxHashSize - regularHashSize a) (bZ 0)) a.

Lemma example_hash_wf a : wf_Hash (example_hash a).
Proof. apply wf_mkHash. apply length_replicate. Qed.

Lemma makeStorePath_spec_witness :
  exists p, @makeStorePath #"/nix/store" prefix_HashLib #"source" (example_hash SHA256) #"foo" = Ok p /\
    wf_StorePath p /\ name p = Ok #"foo".
Proof.
  apply (@makeStorePath_spec prefix_HashLib prefix_HashLib_laws #"/nix/store" #"source" _ #"foo"
           (example_hash_wf SHA256)).
  exact valid_name_foo.
Defined.

(** The conditions under which a content address determines a path. *)
Definition ca_acceptable (ca : ContentAddressWithReferences) : Prop :=
  match ca with
  | CAText ti => algo (ti_hash ti) = SHA256
  | CAFixed foi =>
      algo (foi_hash foi) = SHA256 /\ foi_method foi = FileIngestionMethod.NixArchive \/
      foi_references foi = mkStoreReferences ∅ false
  end.

Lemma refs_empty_true r : refs_empty r = true <-> r = mkStoreReferences ∅ false.
Proof.
  unfold refs_empty. destruct r as [o s]; cbn [self others]. rewrite andb_true_iff, negb_true_iff, bool_decide_eq_true.
  split; [intros [-> ->]; done|by intros [= -> ->]].
Qed.

Lemma makeFixedOutputPathFromCA_outcome `{HashLibLaws} storeDir nm ca :
  wf_Hash (getHash ca) -> valid_name nm ->
  (ca_acceptable ca -> exists p, makeFixedOutputPathFromCA storeDir nm ca = Ok p /\
                                 wf_StorePath p /\ name p = Ok nm) /\
  (~ ca_acceptable ca ->
   makeFixedOutputPathFromCA storeDir nm ca =
   Throw (match ca with CAText _ => AssertFailed | CAFixed _ => Error end)).
Proof.
  intros Hwf Hv. destruct ca as [[h refs]|[m h refs]]; cbn [getHash ti_hash foi_hash] in Hwf; cbn.
  - destruct (decide (algo h = SHA256)) as [Ha|Ha].
    + rewrite bool_decide_true by done. cbn. split; [intros _|done]. by apply makeStorePath_outcome.
    + by rewrite bool_decide_false.
  - unfold makeFixedOutputPath; cbn. destruct (decide (algo h = SHA256 /\ m = FileIngestionMethod.NixArchive)) as [[Ha Hm]|Hn].
    + rewrite !bool_decide_true by done. cbn. split; [intros _; by apply makeStorePath_outcome|tauto].
    + assert (bool_decide (algo h = SHA256) && bool_decide (m = FileIngestionMethod.NixArchive) = false) as ->.
      { apply andb_false_iff. rewrite !bool_decide_eq_false. destruct (decide (algo h = SHA256)); tauto. }
      destruct (refs_empty refs) eqn:Hr; cbn.
      * apply refs_empty_true in Hr. split; [intros _|tauto].
        destruct (to_string_Ok h Base16 true Hwf) as [s ->]. cbn [mbind result_bind].
        match goal with |- context [hashString _ ?s] => destruct (hashString_Ok SHA256 s) as (d & -> & Hd & _) end.
        cbn [mbind result_bind]. by apply makeStorePath_outcome.
      * split; [|done]. intros [?|He]; [tauto|]. apply refs_empty_true in He. congruence.
Qed.

Lemma makeFixedOutputPathFromCA_name `{HashLibLaws} storeDir nm ca p :
  wf_Hash (getHash ca) -> valid_name nm -> makeFixedOutputPathFromCA storeDir nm ca = Ok p ->
  name p = Ok nm.
Proof.
  intros Hw Hv Hm. destruct (makeFixedOutputPathFromCA_outcome storeDir nm ca Hw Hv) as [Hok Hbad].
  assert (ca_acceptable ca \/ ~ ca_acceptable ca) as [Ha|Ha].
  { destruct ca as [[h refs]|[m h refs]]; cbn; [destruct (decide (algo h = SHA256)); auto|].
    destruct (decide (algo h = SHA256)), (decide (m = FileIngestionMethod.NixArchive)),
      (decide (refs = mkStoreReferences ∅ false)); tauto. }
  - destruct (Hok Ha) as (q & Hq & _ & Hn). congruence.
  - rewrite (Hbad Ha) in Hm. discriminate.
Qed.

(** Making a path from a content address with references succeeds, with
    a well-formed path of the given name, exactly for text hashed with
    SHA-256, SHA-256 archives, and other fixed outputs without references;
    the latter are otherwise rejected with an error. *)
Theorem makeFixedOutputPathFromCA_spec `{HashLibLaws} storeDir nm ca :
  wf_Hash (getHash ca) -> valid_name nm ->
  (ca_acceptable ca -> exists p, makeFixedOutputPathFromCA storeDir nm ca = Ok p /\
                                 wf_StorePath p /\ name p = Ok nm) /\
  (~ ca_acceptable ca ->
   makeFixedOutputPathFromCA storeDir nm ca =
   Throw (match ca with CAText _ => AssertFailed | CAFixed _ => Error end)).
Proof. apply makeFixedOutputPathFromCA_outcome. Qed.

Lemma makeFixedOutputPathFromCA_spec_witness :
  @makeFixedOutputPathFromCA #"/nix/store" prefix_HashLib #"foo"
    (CAFixed (mkFixedOutputInfo FileIngestionMethod.Flat (example_hash SHA1) (mkStoreReferences ∅ true)))
  = Throw Error.
Proof.
  apply (@makeFixedOutputPathFromCA_spec prefix_HashLib prefix_HashLib_laws #"/nix/store" #"foo"
           (CAFixed (mkFixedOutputInfo FileIngestionMethod.Flat (example_hash SHA1) (mkStoreReferences ∅ true)))).
  - apply example_hash_wf.
  - exact valid_name_foo.
  - intros [[[=] _]|[=]].
Defined.
