(* ===== verification/Serialise.v ===== *)
(** * Serialise: sinks, sources and the wire format of integers and strings

    libutil/serialise.hh and serialise.cc.  A sink is anything with the
    operation [sink], a source anything with [read] (classes [Sink] and
    [Source]).  [SourceLaws] is the contract a source promises its clients:
    it delivers the bytes [remaining], in pieces, and then only throws
    [EndOfFile].  The reading functions run on any source, with fuel for
    their loops; [refines] states that on a lawful source they compute the
    parser on the remaining bytes that specifies them. *)

From S2P Require Export Bytes.

(** ** Sinks *)

(** [Sink::operator()(std::string_view)] *)
Class Sink (T : Type) := sink : T -> bytes -> result T.

Record StringSink := mkStringSink { sink_s : bytes }.
#[export] Instance StringSink_sink : Sink StringSink := fun t data => Ok (mkStringSink (sink_s t ++ data)).

Record NullSink := mkNullSink {}.
#[export] Instance NullSink_sink : Sink NullSink := fun t _ => Ok t.

Record TeeSink (T1 T2 : Type) := mkTeeSink { sink1 : T1; sink2 : T2 }.
Arguments mkTeeSink {T1 T2}.
Arguments sink1 {T1 T2}.
Arguments sink2 {T1 T2}.
#[export] Instance TeeSink_sink `{Sink T1, Sink T2} : Sink (TeeSink T1 T2) := fun t data =>
  t1 ← sink (sink1 t) data;
  t2 ← sink (sink2 t) data;
  Ok (mkTeeSink t1 t2).

(** *** Buffering

    [buffer] holds the [bufPos] bytes that are used; [under] is what
    [writeUnbuffered] writes to. *)

Class WriteUnbuffered (U : Type) := writeUnbuffered : U -> bytes -> result U.

Record BufferedSink (U : Type) := mkBufferedSink { bufSize : nat; buffer : bytes; under : U }.
Arguments mkBufferedSink {U}.
Arguments bufSize {U}.
Arguments buffer {U}.
Arguments under {U}.

Definition bufPos {U} (b : BufferedSink U) : nat := length (buffer b).

Definition flush `{WriteUnbuffered U} (b : BufferedSink U) : result (BufferedSink U) :=
  if (bufPos b =? 0)%nat then Ok b
  else
    u ← writeUnbuffered (under b) (buffer b);
    Ok (mkBufferedSink (bufSize b) [] u).

(** [BufferedSink::operator()]; one iteration consumes at least a byte. *)
Fixpoint buffered_write `{WriteUnbuffered U} (fuel : nat) (b : BufferedSink U) (data : bytes)
    : result (BufferedSink U) :=
  match fuel, data with
  | _, [] => Ok b
  | O, _ => Throw AssertFailed
  | S fuel, _ =>
      if (bufSize b - bufPos b <=? length data)%nat then
        b ← flush b;
        u ← writeUnbuffered (under b) data;
        Ok (mkBufferedSink (bufSize b) (buffer b) u)
      else
        let n := if (bufSize b - bufPos b <? length data)%nat
                 then (bufSize b - bufPos b)%nat else length data in
        let b' := mkBufferedSink (bufSize b) (buffer b ++ take n data) (under b) in
        b' ← (if (bufPos b' =? bufSize b')%nat then flush b' else Ok b');
        buffered_write fuel b' (drop n data)
  end.

#[export] Instance BufferedSink_sink `{WriteUnbuffered U} : Sink (BufferedSink U) :=
  fun b data => buffered_write (S (length data)) b data.

(** *** Numbers and strings *)

(** [operator<<(Sink &, uint64_t)]: [buf[i] = (n >> 8 * i) & 0xff]. *)
Definition num_bytes (n : Z) : bytes :=
  (fun i => bZ (Z.land (Z.shiftr n (8 * Z.of_nat i)) 0xff)) <$> seq 0 8.
Definition sink_num `{Sink T} (t : T) (n : Z) : result T := sink t (num_bytes (u64 n)).

Definition writePadding `{Sink T} (len : nat) (t : T) : result T :=
  if negb (len mod 8 =? 0)%nat then sink t (replicate (8 - len mod 8) (bZ 0)) else Ok t.

Definition writeString `{Sink T} (data : bytes) (t : T) : result T :=
  t ← sink_num t (Z.of_nat (length data));
  t ← sink t data;
  writePadding (length data) t.

Definition writeStrings `{Sink T} (ss : list bytes) (t : T) : result T :=
  t ← sink_num t (Z.of_nat (length ss));
  foreach (fun t i => writeString i t) t ss.

(** The parts of an [ErrorInfo] that are sent. *)
Record ErrorInfo := mkErrorInfo { level : Z; msg : bytes; traces : list bytes }.
#[export] Instance ErrorInfo_eq_dec : EqDecision ErrorInfo.
Proof. solve_decision. Defined.

(** [operator<<(Sink &, const Error &)] *)
Definition writeError `{Sink T} (ex : ErrorInfo) (t : T) : result T :=
  t ← writeString #"Error" t;
  t ← sink_num t (level ex);
  t ← writeString #"Error" t;
  t ← writeString (msg ex) t;
  t ← sink_num t 0;
  t ← sink_num t (Z.of_nat (length (traces ex)));
  foreach (fun t trace => t ← sink_num t 0; writeString trace t) t (traces ex).

(** ** Sources *)

(** [Source::read]: up to [len] bytes, and the state after the call, also
    when it throws. *)
Class Source (St : Type) := read : St -> nat -> result bytes * St.

Class SourceLaws (St : Type) `{Source St} := {
  valid : St -> Prop;
  remaining : St -> bytes;
  rank : St -> nat;
  rank_ge : forall s, valid s -> (length (remaining s) <= rank s)%nat;
  read_spec : forall s len, valid s -> (0 < len)%nat ->
    match read s len with
    | (Ok d, s') =>
        valid s' /\ remaining s = d ++ remaining s' /\ (length d <= len)%nat /\ (rank s' < rank s)%nat
    | (Throw e, s') => e = EndOfFile /\ remaining s = [] /\ valid s' /\ remaining s' = []
    end;
}.

(** Computations on a source: they take fuel for their loops and return the
    state of the source with a result or an exception. *)
Definition M (St A : Type) : Type := nat -> St -> option (result A * St).
#[export] Instance M_ret St : MRet (M St) := fun A a _ s => Some (Ok a, s).
#[export] Instance M_bind St : MBind (M St) := fun A B f m fuel s =>
  match m fuel s with
  | Some (Ok a, s') => f a fuel s'
  | Some (Throw e, s') => Some (Throw e, s')
  | None => None
  end.
Definition lift {St A} (r : result A) : M St A := fun _ s => Some (r, s).

Section source.
Context `{Source St}.

(** Gives a loop the fuel of the computation. *)
Definition with_fuel {A} (f : nat -> M St A) : M St A := fun fuel s => f fuel fuel s.

(** [Source::operator()(char *, size_t)] *)
Fixpoint read_exactly (fuel : nat) (s : St) (len : nat) (acc : bytes) : option (result bytes * St) :=
  match len, fuel with
  | O, _ => Some (Ok acc, s)
  | _, O => None
  | _, S fuel =>
      match read s len with
      | (Ok d, s') => read_exactly fuel s' (len - length d) (acc ++ d)
      | (Throw e, s') => Some (Throw e, s')
      end
  end.
Definition get (len : nat) : M St bytes := fun fuel s => read_exactly fuel s len [].

(** [readNum<T>]: [max] is [numeric_limits<T>::max()]. *)
Definition readNum (max : Z) : M St Z :=
  buf ← get 8;
  let n := le_num buf in
  _ ← lift (throw_if (max <? n)%Z SerialisationError);
  mret n.

Definition max_u64 : Z := 2 ^ 64 - 1.
Definition max_u32 : Z := 2 ^ 32 - 1.
Definition readInt : M St Z := readNum max_u32.
Definition readLongLong : M St Z := readNum max_u64.

Definition readPadding (len : nat) : M St unit :=
  if negb (len mod 8 =? 0)%nat then
    zero ← get (8 - len mod 8);
    lift (throw_if (negb (le_num zero =? 0)%Z) SerialisationError)
  else mret ().

(** [readString(source, max)]; the number of bytes is converted once the
    length is known to be in range. *)
Definition readString (max : Z) : M St bytes :=
  len ← readNum max_u64;
  _ ← lift (throw_if (max <? len)%Z SerialisationError);
  res ← get (Z.to_nat len);
  _ ← readPadding (Z.to_nat len);
  mret res.

(** A loop that reads [count] items, as in
    [while (count--) ss.insert(ss.end(), readString(source))]. *)
Fixpoint readN {A} (item : M St A) (loop : nat) (count : Z) (ss : list A) : M St (list A) :=
  if (count =? 0)%Z then mret ss
  else match loop with
       | O => fun _ _ => None
       | S loop => x ← item; readN item loop (count - 1) (ss ++ [x])
       end.
Definition readStrings : M St (list bytes) :=
  count ← readNum max_u64;
  with_fuel (fun loop => readN (readString max_u64) loop count []).
Definition readStringSet : M St (gset bytes) :=
  ss ← readStrings; mret (list_to_set ss).

Definition readTrace : M St bytes :=
  havePos ← readNum max_u64;
  _ ← lift (throw_if (negb (havePos =? 0)%Z) SerialisationError);
  readString max_u64.

Definition readError : M St ErrorInfo :=
  type ← readString max_u64;
  _ ← lift (throw_if (negb (bool_decide (type = #"Error"))) SerialisationError);
  level ← readInt;
  _ ← readString max_u64;
  msg ← readString max_u64;
  havePos ← readNum max_u64;
  _ ← lift (throw_if (negb (havePos =? 0)%Z) SerialisationError);
  nrTraces ← readNum max_u64;
  tr ← with_fuel (fun loop => readN readTrace loop nrTraces []);
  mret (mkErrorInfo level msg tr).

(** The sizes of the stack buffers. *)
Definition drain_buf : nat := 8192.
Definition drain_len_buf : nat := 65536.

(** [Source::drainInto(Sink &)], [drainInto(Sink &, len)] and [skip]. *)
Fixpoint drainInto `{Sink T} (fuel : nat) (s : St) (t : T) : option (result T * St) :=
  match fuel with
  | O => None
  | S fuel =>
      match read s drain_buf with
      | (Ok d, s') =>
          match sink t d with
          | Ok t' => drainInto fuel s' t'
          | Throw e => if bool_decide (e = EndOfFile) then Some (Ok t, s') else Some (Throw e, s')
          end
      | (Throw e, s') => if bool_decide (e = EndOfFile) then Some (Ok t, s') else Some (Throw e, s')
      end
  end.

Fixpoint drainInto_len `{Sink T} (fuel : nat) (s : St) (t : T) (len : nat) : option (result T * St) :=
  match len, fuel with
  | O, _ => Some (Ok t, s)
  | _, O => None
  | _, S fuel =>
      match read s (len `min` drain_len_buf) with
      | (Ok d, s') =>
          match (t ← sink t d; _ ← assertb (length d <=? len)%nat; Ok t) with
          | Ok t' => drainInto_len fuel s' t' (len - length d)
          | Throw e => Some (Throw e, s')
          end
      | (Throw e, s') => Some (Throw e, s')
      end
  end.

Fixpoint skip_loop (fuel : nat) (s : St) (len : nat) : option (result unit * St) :=
  match len, fuel with
  | O, _ => Some (Ok (), s)
  | _, O => None
  | _, S fuel =>
      match read s (len `min` drain_buf) with
      | (Ok d, s') =>
          match assertb (length d <=? len)%nat with
          | Ok _ => skip_loop fuel s' (len - length d)
          | Throw e => Some (Throw e, s')
          end
      | (Throw e, s') => Some (Throw e, s')
      end
  end.
Definition skip (len : nat) : M St unit := fun fuel s => skip_loop fuel s len.

(** [Source::drain()] *)
Definition drain : M St bytes := fun fuel s =>
  match drainInto fuel s (mkStringSink []) with
  | Some (Ok t, s') => Some (Ok (sink_s t), s')
  | Some (Throw e, s') => Some (Throw e, s')
  | None => None
  end.
End source.

(** ** Concrete sources *)

(** [StringSource]: a string and a position in it. *)
Record StringSource := mkStringSource { ss_s : bytes; ss_pos : nat }.
#[export] Instance StringSource_source : Source StringSource := fun t len =>
  if (ss_pos t =? length (ss_s t))%nat then (Throw EndOfFile, t)
  else
    let d := take len (drop (ss_pos t) (ss_s t)) in
    (Ok d, mkStringSource (ss_s t) (ss_pos t + length d)).
Definition StringSource_skip (t : StringSource) (len : nat) : result unit * StringSource :=
  let remain := (length (ss_s t) - ss_pos t)%nat in
  if (remain <? len)%nat then (Throw EndOfFile, mkStringSource (ss_s t) (length (ss_s t)))
  else (Ok (), mkStringSource (ss_s t) (ss_pos t + len)).
Definition StringSource_restart (t : StringSource) : StringSource := mkStringSource (ss_s t) 0.

(** [TeeSource]: what is read is also written to a sink. *)
Record TeeSource (St T : Type) := mkTeeSource { tee_orig : St; tee_sink : T }.
Arguments mkTeeSource {St T}.
Arguments tee_orig {St T}.
Arguments tee_sink {St T}.
#[export] Instance TeeSource_source `{Source St, Sink T} : Source (TeeSource St T) := fun t len =>
  match read (tee_orig t) len with
  | (Ok d, s) =>
      match sink (tee_sink t) d with
      | Ok t' => (Ok d, mkTeeSource s t')
      | Throw e => (Throw e, mkTeeSource s (tee_sink t))
      end
  | (Throw e, s) => (Throw e, mkTeeSource s (tee_sink t))
  end.

(** [SizedSource] *)
Record SizedSource (St : Type) := mkSizedSource { sized_orig : St; sized_remain : nat }.
Arguments mkSizedSource {St}.
Arguments sized_orig {St}.
Arguments sized_remain {St}.
#[export] Instance SizedSource_source `{Source St} : Source (SizedSource St) := fun t len =>
  if (sized_remain t <=? 0)%nat then (Throw EndOfFile, t)
  else
    let len := (len `min` sized_remain t)%nat in
    match read (sized_orig t) len with
    | (Ok d, s) => (Ok d, mkSizedSource s (sized_remain t - length d))
    | (Throw e, s) => (Throw e, mkSizedSource s (sized_remain t))
    end.

(** [SizedSource::drainAll] *)
Fixpoint drainAll `{Source St} (fuel : nat) (t : SizedSource St) (sum : nat)
    : option (result nat * SizedSource St) :=
  match sized_remain t, fuel with
  | O, _ => Some (Ok sum, t)
  | _, O => None
  | _, S fuel =>
      match read t drain_buf with
      | (Ok d, t') => drainAll fuel t' (sum + length d)
      | (Throw e, t') => Some (Throw e, t')
      end
  end.

(** [LengthSource] *)
Record LengthSource (St : Type) := mkLengthSource { next : St; total : Z }.
Arguments mkLengthSource {St}.
Arguments next {St}.
Arguments total {St}.
#[export] Instance LengthSource_source `{Source St} : Source (LengthSource St) := fun t len =>
  match read (next t) len with
  | (Ok d, s) => (Ok d, mkLengthSource s (u64 (total t + Z.of_nat (length d))))
  | (Throw e, s) => (Throw e, mkLengthSource s (total t))
  end.

(** [ChainSource]: the second source takes over at the end of the first. *)
Record ChainSource (S1 S2 : Type) := mkChainSource { source1 : S1; source2 : S2; useSecond : bool }.
Arguments mkChainSource {S1 S2}.
Arguments source1 {S1 S2}.
Arguments source2 {S1 S2}.
Arguments useSecond {S1 S2}.
Definition chain_read_second `{Source S2} {S1} (t : ChainSource S1 S2) (len : nat)
    : result bytes * ChainSource S1 S2 :=
  let '(r, s) := read (source2 t) len in (r, mkChainSource (source1 t) s (useSecond t)).
#[export] Instance ChainSource_source `{Source S1, Source S2} : Source (ChainSource S1 S2) := fun t len =>
  if useSecond t then chain_read_second t len
  else
    match read (source1 t) len with
    | (Ok d, s) => (Ok d, mkChainSource s (source2 t) false)
    | (Throw e, s) =>
        if bool_decide (e = EndOfFile)
        then chain_read_second (mkChainSource s (source2 t) true) len
        else (Throw e, mkChainSource s (source2 t) false)
    end.

(** [BufferedSource]: [bs_buffer] holds the bytes between [bufPosOut] and
    [bufPosIn], the unread part of the last chunk.  [readUnbuffered] has the
    contract of [read]: it is the [read] of what lies below. *)
Record BufferedSource (U : Type) := mkBufferedSource { bs_bufSize : nat; bs_buffer : bytes; bs_under : U }.
Arguments mkBufferedSource {U}.
Arguments bs_bufSize {U}.
Arguments bs_buffer {U}.
Arguments bs_under {U}.

Definition hasData {U} (b : BufferedSource U) : bool := (0 <? length (bs_buffer b))%nat.

#[export] Instance BufferedSource_source `{Source U} : Source (BufferedSource U) := fun b len =>
  let '(r, b) :=
    (if hasData b then (Ok (), b)
     else match read (bs_under b) (bs_bufSize b) with
          | (Ok d, u) => (Ok (), mkBufferedSource (bs_bufSize b) d u)
          | (Throw e, u) => (Throw e, mkBufferedSource (bs_bufSize b) [] u)
          end) in
  match r with
  | Throw e => (Throw e, b)
  | Ok _ =>
      let n := (len `min` length (bs_buffer b))%nat in
      (Ok (take n (bs_buffer b)), mkBufferedSource (bs_bufSize b) (drop n (bs_buffer b)) (bs_under b))
  end.

Fixpoint readLine `{Source U} (fuel : nat) (b : BufferedSource U) (eofOk : bool)
    (terminator : ascii) (line : bytes) : option (result bytes * BufferedSource U) :=
  match fuel with
  | O => None
  | S fuel =>
      match find_char terminator (bs_buffer b) with
      | Some i =>
          Some (Ok (line ++ take i (bs_buffer b)),
                mkBufferedSource (bs_bufSize b) (drop (S i) (bs_buffer b)) (bs_under b))
      | None =>
          let line := line ++ bs_buffer b in
          let handleEof u :=
            Some (if eofOk then Ok line else Throw EndOfFile, mkBufferedSource (bs_bufSize b) [] u) in
          match read (bs_under b) (bs_bufSize b) with
          | (Throw e, u) =>
              if bool_decide (e = EndOfFile) then handleEof u
              else Some (Throw e, mkBufferedSource (bs_bufSize b) [] u)
          | (Ok [], u) => handleEof u
          | (Ok d, u) => readLine fuel (mkBufferedSource (bs_bufSize b) d u) eofOk terminator line
          end
      end
  end.

(** ** Framing *)

(** [FramedSource] *)
Record FramedSource (St : Type) := mkFramedSource
  { framed_from : St; framed_eof : bool; pending : bytes; pos : nat }.
Arguments mkFramedSource {St}.
Arguments framed_from {St}.
Arguments framed_eof {St}.
Arguments pending {St}.
Arguments pos {St}.

(** The next frame; an empty frame ends the stream. *)
Definition next_frame `{Source St} : M St (option bytes) :=
  len ← readInt;
  if (len =? 0)%Z then mret None else (d ← get (Z.to_nat len); mret (Some d)).

(** [FramedSource::read]; the reads of the underlying stream get [fuel].
    The contents of [pending] after an exception in the middle of a frame are
    unspecified and not modelled. *)
Definition framed_deliver {St} (t : FramedSource St) (len : nat) : result bytes * FramedSource St :=
  match assertb (pos t <? length (pending t))%nat with
  | Throw e => (Throw e, t)
  | Ok _ =>
      let n := (len `min` (length (pending t) - pos t))%nat in
      (Ok (take n (drop (pos t) (pending t))),
       mkFramedSource (framed_from t) (framed_eof t) (pending t) (pos t + n))
  end.
Definition framed_read `{Source St} (fuel : nat) (t : FramedSource St) (len : nat)
    : option (result bytes * FramedSource St) :=
  if framed_eof t then Some (Throw EndOfFile, t)
  else if (length (pending t) <=? pos t)%nat then
    match next_frame fuel (framed_from t) with
    | None => None
    | Some (Throw e, s) => Some (Throw e, mkFramedSource s (framed_eof t) (pending t) (pos t))
    | Some (Ok None, s) => Some (Ok [], mkFramedSource s true (pending t) (pos t))
    | Some (Ok (Some d), s) => Some (framed_deliver (mkFramedSource s false d 0) len)
    end
  else Some (framed_deliver t len).

(** [FramedSink]: a buffered sink whose chunks go to another sink, each
    preceded by its length; the destructor writes an empty frame. *)
Record Framed (T : Type) := mkFramed { to : T; checkError : result unit }.
Arguments mkFramed {T}.
Arguments to {T}.
Arguments checkError {T}.
#[export] Instance Framed_write `{Sink T} : WriteUnbuffered (Framed T) := fun f data =>
  _ ← checkError f;
  t ← sink_num (to f) (Z.of_nat (length data));
  t ← sink t data;
  Ok (mkFramed t (checkError f)).
Definition FramedSink_end `{Sink T} (f : Framed T) : result T := sink_num (to f) 0.

(** ** [EnsureRead] *)

Record EnsureRead (St : Type) := mkEnsureRead { er_source : St; bytesRead : Z; bytesExpected : Z }.
Arguments mkEnsureRead {St}.
Arguments er_source {St}.
Arguments bytesRead {St}.
Arguments bytesExpected {St}.
#[export] Instance EnsureRead_source `{Source St} : Source (EnsureRead St) := fun t len =>
  match read (er_source t) len with
  | (Ok d, s) => (Ok d, mkEnsureRead s (u64 (bytesRead t + Z.of_nat (length d))) (bytesExpected t))
  | (Throw e, s) => (Throw e, mkEnsureRead s (bytesRead t) (bytesExpected t))
  end.
Definition EnsureRead_skip `{Source St} (len : nat) : M (EnsureRead St) unit := fun fuel t =>
  match skip len fuel (er_source t) with
  | Some (Ok _, s) =>
      Some (Ok (), mkEnsureRead s (u64 (bytesRead t + Z.of_nat len)) (bytesExpected t))
  | Some (Throw e, s) => Some (Throw e, mkEnsureRead s (bytesRead t) (bytesExpected t))
  | None => None
  end.
Definition EnsureRead_finish `{Source St} : M (EnsureRead St) unit := fun fuel t =>
  if (bytesRead t <? bytesExpected t)%Z
  then EnsureRead_skip (Z.to_nat (u64 (bytesExpected t - bytesRead t))) fuel t
  else Some (Ok (), t).

(** ** Specification: parsers of the remaining bytes *)

Definition P (A : Type) : Type := bytes -> result (A * bytes).
#[export] Instance P_ret : MRet P := fun A a s => Ok (a, s).
#[export] Instance P_bind : MBind P := fun A B f p s =>
  match p s with Ok (a, s') => f a s' | Throw e => Throw e end.
Definition plift {A} (r : result A) : P A := fun s => a ← r; Ok (a, s).

Definition pGet (len : nat) : P bytes := fun s =>
  if (len <=? length s)%nat then Ok (take len s, drop len s) else Throw EndOfFile.

Definition pNum (max : Z) : P Z :=
  buf ← pGet 8;
  _ ← plift (throw_if (max <? le_num buf)%Z SerialisationError);
  mret (le_num buf).

Definition pPadding (len : nat) : P unit :=
  if negb (len mod 8 =? 0)%nat then
    zero ← pGet (8 - len mod 8);
    plift (throw_if (negb (le_num zero =? 0)%Z) SerialisationError)
  else mret ().

(** The length is compared with the input before it is converted, so that
    the parser evaluates on any input. *)
Definition pGetZ (len : Z) : P bytes := fun s =>
  if (len <=? Z.of_nat (length s))%Z then pGet (Z.to_nat len) s else Throw EndOfFile.

Definition pString (max : Z) : P bytes :=
  len ← pNum max_u64;
  _ ← plift (throw_if (max <? len)%Z SerialisationError);
  res ← pGetZ len;
  _ ← pPadding (Z.to_nat len);
  mret res.

Fixpoint pN {A} (item : P A) (loop : nat) (count : Z) (ss : list A) : P (list A) :=
  if (count =? 0)%Z then mret ss
  else match loop with
       | O => fun _ => Throw EndOfFile
       | S loop => x ← item; pN item loop (count - 1) (ss ++ [x])
       end.
(** Every item takes at least a byte of the input. *)
Definition pMany {A} (item : P A) (count : Z) : P (list A) := fun s =>
  pN item (S (length s)) count [] s.

Definition pStrings : P (list bytes) :=
  count ← pNum max_u64; pMany (pString max_u64) count.

Definition pTrace : P bytes :=
  havePos ← pNum max_u64;
  _ ← plift (throw_if (negb (havePos =? 0)%Z) SerialisationError);
  pString max_u64.

Definition pError : P ErrorInfo :=
  type ← pString max_u64;
  _ ← plift (throw_if (negb (bool_decide (type = #"Error"))) SerialisationError);
  level ← pNum max_u32;
  _ ← pString max_u64;
  msg ← pString max_u64;
  havePos ← pNum max_u64;
  _ ← plift (throw_if (negb (havePos =? 0)%Z) SerialisationError);
  nrTraces ← pNum max_u64;
  tr ← pMany pTrace nrTraces;
  mret (mkErrorInfo level msg tr).

(** [m] computes [p] on the remaining bytes of any lawful source. *)
Section refines.
Context {St : Type} `{SourceLaws St}.

Definition refines {A} (m : M St A) (p : P A) : Prop :=
  forall fuel s, valid s -> (rank s < fuel)%nat ->
    match p (remaining s) with
    | Ok (a, r) =>
        exists s', m fuel s = Some (Ok a, s') /\ valid s' /\ remaining s' = r /\ (rank s' <= rank s)%nat
    | Throw e => exists s', m fuel s = Some (Throw e, s') /\ valid s'
    end.

Lemma refines_ret {A} (a : A) : refines (mret a) (mret a).
Proof. intros fuel s Hv Hr. simpl. eauto. Qed.

Lemma refines_lift {A} (r : result A) : refines (lift r) (plift r).
Proof. intros fuel s Hv Hr. destruct r; simpl; eauto. Qed.

Lemma refines_bind_strong {A B} (m : M St A) p (f : A -> M St B) g :
  refines m p -> (forall a s r, p s = Ok (a, r) -> refines (f a) (g a)) -> refines (m ≫= f) (p ≫= g).
Proof.
  intros Hm Hf fuel s Hv Hr. specialize (Hm fuel s Hv Hr). unfold mbind, P_bind, M_bind.
  destruct (p (remaining s)) as [[a r]|e] eqn:Hp.
  - destruct Hm as (s1 & -> & Hv1 & <- & Hr1). specialize (Hf a _ _ Hp fuel s1 Hv1 ltac:(lia)).
    destruct (g a (remaining s1)) as [[b r']|e]; [|by destruct Hf as (s' & -> & ?); eauto].
    destruct Hf as (s2 & -> & Hv2 & Hr2 & ?). exists s2. repeat split; [done|done|lia].
  - destruct Hm as (s1 & -> & ?). eauto.
Qed.

Lemma refines_bind {A B} (m : M St A) p (f : A -> M St B) g :
  refines m p -> (forall a, refines (f a) (g a)) -> refines (m ≫= f) (p ≫= g).
Proof. intros Hm Hf. apply refines_bind_strong; auto. Qed.

Lemma read_exactly_spec fuel s len acc :
  valid s -> (rank s < fuel)%nat ->
  if (len <=? length (remaining s))%nat then
    exists s', read_exactly fuel s len acc = Some (Ok (acc ++ take len (remaining s)), s') /\
      valid s' /\ remaining s' = drop len (remaining s) /\ (rank s' <= rank s)%nat
  else exists s', read_exactly fuel s len acc = Some (Throw EndOfFile, s') /\ valid s'.
Proof.
  revert s len acc. induction fuel as [|fuel IH]; intros s len acc Hv Hr; [lia|].
  destruct len as [|len]; [cbn; exists s; by rewrite app_nil_r|].
  cbn [read_exactly]. pose proof (read_spec s (S len) Hv ltac:(lia)) as Hs.
  destruct (read s (S len)) as [[d|e] s1].
  - destruct Hs as (Hv1 & He & Hd & Hr1).
    specialize (IH s1 (S len - length d)%nat (acc ++ d) Hv1 ltac:(lia)). rewrite He, length_app.
    destruct (Nat.leb_spec (S len) (length d + length (remaining s1))) as [Hl|Hl].
    + rewrite (proj2 (Nat.leb_le _ _)) in IH by lia. destruct IH as (s' & -> & Hv' & Hr' & Hle).
      exists s'. rewrite <- app_assoc, take_app_ge, drop_app_ge by lia. repeat split; [done|done|lia].
    + rewrite (proj2 (Nat.leb_gt _ _)) in IH by lia. done.
  - destruct Hs as (-> & He & Hv1 & _). rewrite He. cbn. eauto.
Qed.

Lemma refines_get len : refines (get len) (pGet len).
Proof.
  intros fuel s Hv Hr. unfold get, pGet. pose proof (read_exactly_spec fuel s len [] Hv Hr) as H1.
  by destruct (len <=? length (remaining s))%nat.
Qed.

Lemma refines_ext {A} (m : M St A) (p q : P A) : (forall s, p s = q s) -> refines m p -> refines m q.
Proof. intros Hpq Hm fuel s Hv Hr. rewrite <- Hpq. by apply Hm. Qed.

Lemma refines_getZ len : (0 <= len)%Z -> refines (get (Z.to_nat len)) (pGetZ len).
Proof.
  intros Hl. eapply refines_ext; [|apply refines_get]. intros s. unfold pGetZ, pGet.
  destruct (Z.leb_spec len (Z.of_nat (length s))); [done|]. by rewrite (proj2 (Nat.leb_gt _ _)) by lia.
Qed.

Lemma refines_num max : refines (readNum max) (pNum max).
Proof.
  apply refines_bind; [apply refines_get|]. intros buf.
  apply refines_bind; [apply refines_lift|]. intros _. apply refines_ret.
Qed.

Lemma refines_padding len : refines (readPadding len) (pPadding len).
Proof.
  unfold readPadding, pPadding. destruct (negb _); [|apply refines_ret].
  apply refines_bind; [apply refines_get|]. intros zero. apply refines_lift.
Qed.

Lemma pNum_range max s n r : pNum max s = Ok (n, r) -> (0 <= n)%Z /\ (length r + 8 = length s)%nat.
Proof.
  unfold pNum, pGet, mbind, P_bind. destruct (Nat.leb_spec 8 (length s)); [|done].
  unfold plift. destruct (throw_if _ _); [|done]. cbn. intros [= <- <-].
  split; [apply le_num_range|]. rewrite length_drop. lia.
Qed.

Lemma refines_string max : refines (readString max) (pString max).
Proof.
  apply refines_bind_strong; [apply refines_num|]. intros len s r Hn. apply pNum_range in Hn as [Hn _].
  apply refines_bind; [apply refines_lift|]. intros _.
  apply refines_bind; [by apply refines_getZ|]. intros res.
  apply refines_bind; [apply refines_padding|]. intros _. apply refines_ret.
Qed.

(** Parsers that take at least a byte. *)
Definition shrinks {A} (p : P A) : Prop := forall s a r, p s = Ok (a, r) -> (length r < length s)%nat.

Lemma refines_N {A} (item : M St A) pitem loop1 loop2 count acc fuel s :
  refines item pitem -> shrinks pitem ->
  valid s -> (rank s < fuel)%nat ->
  (length (remaining s) < loop1)%nat -> (length (remaining s) < loop2)%nat ->
  match pN pitem loop2 count acc (remaining s) with
  | Ok (a, r) =>
      exists s', readN item loop1 count acc fuel s = Some (Ok a, s') /\ valid s' /\ remaining s' = r /\
                 (rank s' <= rank s)%nat
  | Throw e => exists s', readN item loop1 count acc fuel s = Some (Throw e, s') /\ valid s'
  end.
Proof.
  intros Hi Hsh. revert loop2 count acc s. induction loop1 as [|loop1 IH]; intros [|loop2] count acc s Hv Hr H1 H2;
    [lia..|]. cbn [pN readN]. destruct (count =? 0)%Z; [simpl; eauto|].
  unfold mbind, P_bind, M_bind. specialize (Hi fuel s Hv Hr).
  destruct (pitem (remaining s)) as [[a r]|e] eqn:Hp; [|by destruct Hi as (s' & -> & ?); eauto].
  apply Hsh in Hp. destruct Hi as (s1 & -> & Hv1 & <- & Hr1).
  specialize (IH loop2 (count - 1)%Z (acc ++ [a]) s1 Hv1 ltac:(lia) ltac:(lia) ltac:(lia)).
  destruct (pN pitem loop2 (count - 1) (acc ++ [a]) (remaining s1)) as [[b r']|e]; [|done].
  destruct IH as (s2 & -> & Hv2 & Hr2 & ?). exists s2. repeat split; [done|done|lia].
Qed.

Lemma refines_many {A} (item : M St A) pitem count :
  refines item pitem -> shrinks pitem ->
  refines (with_fuel (fun loop => readN item loop count [])) (pMany pitem count).
Proof.
  intros Hi Hsh fuel s Hv Hr. pose proof (rank_ge s Hv). apply refines_N; try done; lia.
Qed.

Lemma pGetZ_length len s a r : pGetZ len s = Ok (a, r) -> (length r <= length s)%nat.
Proof.
  unfold pGetZ, pGet. destruct (len <=? _)%Z; [|done]. destruct (_ <=? _)%nat; [|done].
  intros [= <- <-]. rewrite length_drop. lia.
Qed.

Lemma pPadding_length len s a r : pPadding len s = Ok (a, r) -> (length r <= length s)%nat.
Proof.
  unfold pPadding. destruct (negb _); [|by intros [= _ <-]]. unfold mbind, P_bind, pGet, plift.
  destruct (_ <=? _)%nat; [|done]. destruct (throw_if _ _); [|done]. cbn. intros [= _ <-].
  rewrite length_drop. lia.
Qed.

Lemma pString_shrinks max : shrinks (pString max).
Proof.
  intros s a r. unfold pString, mbind, P_bind. destruct (pNum max_u64 s) as [[n r1]|] eqn:Hn; [|done].
  apply pNum_range in Hn as [_ Hn]. unfold plift. destruct (throw_if _ _); [|done]. cbn.
  destruct (pGetZ n r1) as [[b r2]|] eqn:Hg; [|done]. apply pGetZ_length in Hg.
  destruct (pPadding (Z.to_nat n) r2) as [[c r3]|] eqn:Hp; [|done]. apply pPadding_length in Hp.
  intros [= _ <-]. lia.
Qed.

Lemma refines_strings : refines readStrings pStrings.
Proof.
  apply refines_bind; [apply refines_num|]. intros count.
  apply refines_many; [apply refines_string|apply pString_shrinks].
Qed.

Lemma pTrace_shrinks : shrinks pTrace.
Proof.
  intros s a r. unfold pTrace, mbind, P_bind. destruct (pNum max_u64 s) as [[n r1]|] eqn:Hn; [|done].
  apply pNum_range in Hn as [_ Hn]. unfold plift. destruct (throw_if _ _); [|done]. cbn.
  intros Hs%pString_shrinks. lia.
Qed.

Lemma refines_error : refines readError pError.
Proof.
  unfold readError, pError, readInt.
  apply refines_bind; [apply refines_string|]; intros type.
  apply refines_bind; [apply refines_lift|]; intros _.
  apply refines_bind; [apply refines_num|]; intros level.
  apply refines_bind; [apply refines_string|]; intros _.
  apply refines_bind; [apply refines_string|]; intros msg.
  apply refines_bind; [apply refines_num|]; intros havePos.
  apply refines_bind; [apply refines_lift|]; intros _.
  apply refines_bind; [apply refines_num|]; intros nr.
  apply refines_bind; [|intros tr; apply refines_ret].
  apply refines_many; [|apply pTrace_shrinks]. unfold readTrace, pTrace.
  apply refines_bind; [apply refines_num|]; intros p.
  apply refines_bind; [apply refines_lift|]; intros _. apply refines_string.
Qed.
End refines.

(** ** The concrete sources keep the contract *)

#[export] Program Instance StringSource_laws : SourceLaws StringSource := {|
  valid t := (ss_pos t <= length (ss_s t))%nat;
  remaining t := drop (ss_pos t) (ss_s t);
  rank t := (length (ss_s t) - ss_pos t)%nat;
|}.
Next Obligation. intros t _; simpl. rewrite length_drop. lia. Qed.
Next Obligation.
  intros [s p] len Hv Hl; simpl in *. unfold read, StringSource_source; cbn [ss_s ss_pos].
  destruct (Nat.eqb_spec p (length s)) as [->|Hp]; cbn.
  { rewrite drop_all. done. }
  rewrite length_take, length_drop. split; [lia|]. split; [|lia].
  rewrite <- drop_drop. rewrite <- (take_drop (len `min` (length s - p)) (drop p s)) at 1. f_equal.
  destruct (Nat.le_ge_cases len (length s - p)).
  - by rewrite Nat.min_l by done.
  - rewrite Nat.min_r, !take_ge by (rewrite ?length_drop; lia). done.
Qed.

Section source_laws.
Context {St : Type} `{SourceLaws St}.

#[export] Program Instance LengthSource_laws : SourceLaws (LengthSource St) := {|
  valid t := valid (next t);
  remaining t := remaining (next t);
  rank t := rank (next t);
|}.
Next Obligation. intros t. apply rank_ge. Qed.
Next Obligation.
  intros [s n] len Hv Hl; simpl in *. unfold read, LengthSource_source; cbn [next].
  pose proof (read_spec s len Hv Hl) as Hs. by destruct (read s len) as [[d|e] s'].
Qed.

#[export] Program Instance EnsureRead_laws : SourceLaws (EnsureRead St) := {|
  valid t := valid (er_source t);
  remaining t := remaining (er_source t);
  rank t := rank (er_source t);
|}.
Next Obligation. intros t. apply rank_ge. Qed.
Next Obligation.
  intros [s n m] len Hv Hl; simpl in *. unfold read, EnsureRead_source; cbn [er_source].
  pose proof (read_spec s len Hv Hl) as Hs. by destruct (read s len) as [[d|e] s'].
Qed.

#[export] Program Instance SizedSource_laws : SourceLaws (SizedSource St) := {|
  valid t := valid (sized_orig t);
  remaining t := take (sized_remain t) (remaining (sized_orig t));
  rank t := rank (sized_orig t);
|}.
Next Obligation. intros t Hv; simpl in *. pose proof (rank_ge _ Hv). rewrite length_take. lia. Qed.
Next Obligation.
  intros [s n] len Hv Hl; simpl in *. unfold read, SizedSource_source; cbn [sized_orig sized_remain].
  destruct (Nat.leb_spec n 0) as [Hn|Hn].
  - assert (n = 0%nat) as -> by lia. by rewrite take_0.
  - pose proof (read_spec s (len `min` n) Hv ltac:(lia)) as Hs.
    destruct (read s (len `min` n)) as [[d|e] s']; cbn [sized_orig sized_remain].
    + destruct Hs as (Hv' & -> & Hd & Hr). split; [done|]. split; [|lia].
      by rewrite take_app_ge by lia.
    + destruct Hs as (-> & -> & Hv' & ->). by rewrite !take_nil.
Qed.

(** A buffered source delivers the buffer and then what lies below. *)
#[export] Program Instance BufferedSource_laws : SourceLaws (BufferedSource St) := {|
  valid b := valid (bs_under b) /\ (0 < bs_bufSize b)%nat;
  remaining b := bs_buffer b ++ remaining (bs_under b);
  rank b := (length (bs_buffer b) + (bs_bufSize b + 1) * rank (bs_under b))%nat;
|}.
Next Obligation. intros b [Hv Hs]; simpl in *. pose proof (rank_ge _ Hv). rewrite length_app. nia. Qed.
Next Obligation.
  intros [n buf u] len [Hv Hn] Hl; simpl in *. unfold read at 1, BufferedSource_source, hasData.
  cbn [bs_buffer bs_under bs_bufSize]. destruct (Nat.ltb_spec 0 (length buf)) as [Hb|Hb].
  - cbn. split; [done|]. rewrite app_assoc, take_drop. split; [done|].
    rewrite length_take, length_drop. nia.
  - assert (buf = []) as -> by (destruct buf; [done|simpl in Hb; lia]).
    pose proof (read_spec u n Hv Hn) as Hs. destruct (read u n) as [[d|e] u']; cbn.
    + destruct Hs as (Hv' & -> & Hd & Hr). split; [done|]. rewrite app_assoc, take_drop.
      split; [done|]. rewrite length_take, length_drop. nia.
    + by destruct Hs as (-> & -> & Hv' & ->).
Qed.
End source_laws.

#[export] Program Instance ChainSource_laws {S1 S2} `{SourceLaws S1, SourceLaws S2} : SourceLaws (ChainSource S1 S2) := {|
  valid t := valid (source1 t) /\ valid (source2 t);
  remaining t := (if useSecond t then [] else remaining (source1 t)) ++ remaining (source2 t);
  rank t := ((if useSecond t then 0 else S (rank (source1 t))) + rank (source2 t))%nat;
|}.
Next Obligation.
  intros S1 S2 ? ? ? ? t [H1 H2]; simpl in *. pose proof (rank_ge _ H1). pose proof (rank_ge _ H2).
  rewrite length_app. destruct (useSecond t); simpl; lia.
Qed.
Next Obligation.
  intros S1 S2 ? L1 ? L2 [s1 s2 u] len [Hv1 Hv2] Hl; simpl in *.
  unfold read at 1, ChainSource_source, chain_read_second. cbn [useSecond source1 source2].
  pose proof (read_spec s2 len Hv2 Hl) as Hs2. destruct u.
  - destruct (read s2 len) as [[d|e] s2']; cbn; [|by destruct Hs2 as (-> & -> & ? & ->)].
    destruct Hs2 as (? & -> & ? & ?). done.
  - pose proof (read_spec s1 len Hv1 Hl) as Hs1. destruct (read s1 len) as [[d|e] s1']; cbn.
    + destruct Hs1 as (? & -> & ? & ?). rewrite <- app_assoc. repeat split; try done; lia.
    + destruct Hs1 as (-> & -> & Hv1' & _). rewrite bool_decide_true by done. cbn.
      destruct (read s2 len) as [[d|e] s2']; cbn; [|by destruct Hs2 as (-> & -> & ? & ->)].
      destruct Hs2 as (? & -> & ? & ?). repeat split; try done; lia.
Qed.

(** ** Writing *)

(** The encodings, as the bytes a string sink receives. *)
Definition enc_num (n : Z) : bytes := le_bytes 8 (u64 n).
Definition pad_bytes (len : nat) : bytes :=
  if (len mod 8 =? 0)%nat then [] else replicate (8 - len mod 8) (bZ 0).
Definition enc_string (s : bytes) : bytes := enc_num (Z.of_nat (length s)) ++ s ++ pad_bytes (length s).
Definition enc_strings (ss : list bytes) : bytes :=
  enc_num (Z.of_nat (length ss)) ++ mjoin (enc_string <$> ss).
Definition enc_error (e : ErrorInfo) : bytes :=
  enc_string #"Error" ++ enc_num (level e) ++ enc_string #"Error" ++ enc_string (msg e) ++ enc_num 0
  ++ enc_num (Z.of_nat (length (traces e))) ++ mjoin ((fun t => enc_num 0 ++ enc_string t) <$> traces e).

#[global] Arguments enc_num : simpl never.
#[global] Arguments pad_bytes : simpl never.
#[global] Arguments enc_string : simpl never.

Lemma num_bytes_le n : num_bytes n = le_bytes 8 n.
Proof.
  unfold num_bytes. cbn [seq fmap list_fmap].
  assert (forall k z, bZ (Z.land (Z.shiftr z (8 * Z.of_nat k)) 255) = bZ (z / 2 ^ (8 * Z.of_nat k))) as Hb.
  { intros k z. apply Zb_inj. rewrite !Zb_bZ, Z.shiftr_div_pow2 by lia. change 255%Z with (Z.ones 8).
    rewrite Z.land_ones by lia. by rewrite Z.mod_mod. }
  rewrite !Hb. cbn [le_bytes]. rewrite !Zdiv.Zdiv_Zdiv by lia. by rewrite Z.div_1_r.
Qed.

Section writing.
Context {T : Type} `{Sink T}.
(** A sink that does not care how the data is cut into pieces. *)
Context (sink_nil : forall t, sink t [] = Ok t).
Context (sink_app : forall t a b, (t ← sink t a; sink t b) = sink t (a ++ b)).

Lemma sink_num_eq t n : sink_num t n = sink t (enc_num n).
Proof using Type. unfold sink_num. by rewrite num_bytes_le. Qed.

Lemma writePadding_eq len t : writePadding len t = sink t (pad_bytes len).
Proof using sink_nil. unfold writePadding, pad_bytes. destruct (len mod 8 =? 0)%nat; [by rewrite sink_nil|done]. Qed.

Lemma sink_app_k t a b (k : T -> result T) :
  (t ← sink t a; t ← sink t b; k t) = (t ← sink t (a ++ b); k t).
Proof using sink_app. rewrite <- sink_app. by destruct (sink t a). Qed.

Lemma writeString_eq data t : writeString data t = sink t (enc_string data).
Proof using sink_app sink_nil.
  unfold writeString, enc_string. rewrite sink_num_eq, sink_app_k.
  rewrite app_assoc, <- (sink_app t (enc_num (Z.of_nat (length data)) ++ data)).
  destruct (sink t _); [|done]. apply writePadding_eq.
Qed.

Lemma foreach_sink {A} (f : T -> A -> result T) enc l t :
  (forall t x, f t x = sink t (enc x)) -> foreach f t l = sink t (mjoin (enc <$> l)).
Proof using sink_app sink_nil.
  intros Hf. revert t; induction l as [|x l IH]; intros t; [by rewrite sink_nil|].
  cbn [foreach fmap list_fmap mjoin list_join]. rewrite Hf, <- sink_app.
  destruct (sink t (enc x)); [|done]. apply IH.
Qed.

Lemma writeStrings_eq ss t : writeStrings ss t = sink t (enc_strings ss).
Proof using sink_app sink_nil.
  unfold writeStrings, enc_strings. rewrite sink_num_eq, <- sink_app.
  destruct (sink t _); [|done]. apply foreach_sink. intros. apply writeString_eq.
Qed.

Lemma writeError_eq e t : writeError e t = sink t (enc_error e).
Proof using sink_app sink_nil.
  unfold writeError, enc_error. rewrite writeString_eq, <- sink_app.
  destruct (sink t _) as [t1|]; [|done]. cbn [mbind result_bind]. rewrite sink_num_eq, <- sink_app.
  destruct (sink t1 _) as [t2|]; [|done]. cbn [mbind result_bind]. rewrite writeString_eq, <- sink_app.
  destruct (sink t2 _) as [t3|]; [|done]. cbn [mbind result_bind]. rewrite writeString_eq, <- sink_app.
  destruct (sink t3 _) as [t4|]; [|done]. cbn [mbind result_bind]. rewrite sink_num_eq, <- sink_app.
  destruct (sink t4 _) as [t5|]; [|done]. cbn [mbind result_bind]. rewrite sink_num_eq, <- sink_app.
  destruct (sink t5 _) as [t6|]; [|done]. cbn [mbind result_bind]. apply foreach_sink.
  intros t7 x. rewrite sink_num_eq, <- sink_app. destruct (sink t7 _); [|done]. apply writeString_eq.
Qed.
End writing.

Lemma StringSink_app (t : StringSink) a b : (t ← sink t a; sink t b) = sink t (a ++ b).
Proof. unfold sink, StringSink_sink; cbn. by rewrite app_assoc. Qed.
Lemma StringSink_nil (t : StringSink) : sink t [] = Ok t.
Proof. unfold sink, StringSink_sink. rewrite app_nil_r. by destruct t. Qed.

(** *** Parsing the encodings *)

Lemma pGet_app s r : pGet (length s) (s ++ r) = Ok (s, r).
Proof.
  unfold pGet. rewrite (proj2 (Nat.leb_le _ _)) by (rewrite length_app; lia).
  by rewrite take_app_length, drop_app_length.
Qed.

Lemma pGet_app' n s r : length s = n -> pGet n (s ++ r) = Ok (s, r).
Proof. intros <-. apply pGet_app. Qed.

Lemma pNum_enc max n r : (0 <= n <= max)%Z -> (max < 2 ^ 64)%Z -> pNum max (enc_num n ++ r) = Ok (n, r).
Proof.
  intros Hn Hm. unfold pNum, enc_num. rewrite u64_small by lia. unfold mbind, P_bind.
  rewrite pGet_app' by apply length_le_bytes. rewrite le_num_le_bytes by lia.
  unfold plift. by rewrite (proj2 (Z.ltb_ge _ _)) by lia.
Qed.

Lemma pPadding_pad len r : pPadding len (pad_bytes len ++ r) = Ok ((), r).
Proof.
  unfold pPadding, pad_bytes. destruct (len mod 8 =? 0)%nat; [done|]. cbn [negb].
  unfold mbind, P_bind. rewrite pGet_app' by apply length_replicate.
  by rewrite le_num_replicate_0.
Qed.

Lemma pString_enc max s r :
  (Z.of_nat (length s) <= max)%Z -> (max < 2 ^ 64)%Z -> pString max (enc_string s ++ r) = Ok (s, r).
Proof.
  intros Hs Hm. unfold pString, enc_string. rewrite <- !app_assoc. unfold mbind, P_bind.
  rewrite pNum_enc by (unfold max_u64; lia). unfold plift. rewrite (proj2 (Z.ltb_ge _ _)) by lia. cbn.
  unfold pGetZ. rewrite (proj2 (Z.leb_le _ _)) by (rewrite length_app; lia).
  rewrite Nat2Z.id, pGet_app, pPadding_pad. done.
Qed.

Lemma pN_enc {A} (item : P A) enc loop acc l r :
  (forall x r, x ∈ l -> item (enc x ++ r) = Ok (x, r)) -> (length l <= loop)%nat ->
  pN item loop (Z.of_nat (length l)) acc (mjoin (enc <$> l) ++ r) = Ok (acc ++ l, r).
Proof.
  revert acc loop. induction l as [|x l IH]; intros acc loop Hi Hl.
  { destruct loop; simpl; by rewrite app_nil_r. }
  destruct loop as [|loop]; [simpl in Hl; lia|]. cbn [pN fmap list_fmap mjoin list_join].
  rewrite (proj2 (Z.eqb_neq _ _)) by (simpl; lia). unfold mbind, P_bind.
  rewrite <- app_assoc, Hi by set_solver.
  replace (Z.of_nat (length (x :: l)) - 1)%Z with (Z.of_nat (length l)) by (simpl; lia).
  rewrite IH; [by rewrite <- app_assoc|set_solver|simpl in Hl; lia].
Qed.

Lemma pMany_enc {A} (item : P A) enc l r :
  (forall x r, x ∈ l -> item (enc x ++ r) = Ok (x, r)) -> (forall x, (1 <= length (enc x))%nat) ->
  pMany item (Z.of_nat (length l)) (mjoin (enc <$> l) ++ r) = Ok (l, r).
Proof.
  intros Hi Hl. unfold pMany. rewrite pN_enc; [done|done|]. rewrite length_app.
  assert (length l <= length (mjoin (enc <$> l)))%nat; [|lia].
  clear Hi. induction l as [|x l IH]; [simpl; lia|].
  change (mjoin (enc <$> x :: l)) with (enc x ++ mjoin (enc <$> l)). rewrite length_app. cbn [length].
  specialize (Hl x). lia.
Qed.

(** Sizes that fit the wire format. *)
Definition small (s : bytes) : Prop := (Z.of_nat (length s) < 2 ^ 64)%Z.

Lemma enc_num_length n : length (enc_num n) = 8%nat.
Proof. apply length_le_bytes. Qed.
Lemma enc_string_length s : (8 <= length (enc_string s))%nat.
Proof. unfold enc_string. rewrite length_app, enc_num_length. lia. Qed.

Lemma pStrings_enc ss r :
  Forall small ss -> (Z.of_nat (length ss) < 2 ^ 64)%Z -> pStrings (enc_strings ss ++ r) = Ok (ss, r).
Proof.
  intros Hs Hl. unfold pStrings, enc_strings. rewrite <- app_assoc. unfold mbind, P_bind.
  rewrite pNum_enc by (unfold max_u64; lia). apply pMany_enc.
  - intros x r' Hx. rewrite Forall_forall in Hs. specialize (Hs x Hx). unfold small in Hs.
    apply pString_enc; unfold max_u64; lia.
  - intros x. pose proof (enc_string_length x). lia.
Qed.

Lemma pError_enc e r :
  (0 <= level e <= max_u32)%Z -> small (msg e) -> Forall small (traces e) ->
  (Z.of_nat (length (traces e)) < 2 ^ 64)%Z -> pError (enc_error e ++ r) = Ok (e, r).
Proof.
  intros Hlv Hm Ht Hn. unfold small in *. unfold pError, enc_error. rewrite <- !app_assoc. unfold mbind, P_bind.
  rewrite pString_enc by (unfold max_u64; cbn [lit String.list_ascii_of_string length]; lia). unfold plift at 1. rewrite bool_decide_true by done. cbn [negb throw_if mbind result_bind].
  rewrite pNum_enc by (unfold max_u32 in *; lia). rewrite pString_enc by (unfold max_u64; cbn [lit String.list_ascii_of_string length]; lia).
  rewrite pString_enc by (unfold max_u64; lia). rewrite pNum_enc by (unfold max_u64; lia).
  cbn [plift Z.eqb negb throw_if mbind result_bind]. rewrite pNum_enc by (unfold max_u64; lia).
  rewrite pMany_enc.
  - by destruct e.
  - intros x r' Hx. rewrite Forall_forall in Ht. specialize (Ht x Hx). rewrite <- app_assoc.
    unfold pTrace, mbind, P_bind. rewrite pNum_enc by (unfold max_u64; lia).
    cbn [plift Z.eqb negb throw_if mbind result_bind]. apply pString_enc; unfold max_u64; lia.
  - intros x. rewrite length_app, enc_num_length. lia.
Qed.

(** *** The parsers accept nothing but the encodings *)

(** What a parser ends with: a value and a rest satisfying [Q], or one of
    the two exceptions of malformed input. *)
Definition outcome {A} (r : result (A * bytes)) (Q : A -> bytes -> Prop) : Prop :=
  match r with
  | Ok (a, s) => Q a s
  | Throw e => e = SerialisationError \/ e = EndOfFile
  end.

Lemma outcome_bind {A B} (p : P A) (f : A -> P B) s Q :
  outcome (p s) (fun a r => outcome (f a r) Q) -> outcome ((p ≫= f) s) Q.
Proof. unfold mbind, P_bind. by destruct (p s) as [[a r]|e]. Qed.

Lemma outcome_mono {A} (r : result (A * bytes)) (Q Q' : A -> bytes -> Prop) :
  (forall a s, Q a s -> Q' a s) -> outcome r Q -> outcome r Q'.
Proof. intros HQ. destruct r as [[a s]|e]; [apply HQ|done]. Qed.

Lemma outcome_check b s : outcome (plift (throw_if b SerialisationError) s) (fun _ r => b = false /\ r = s).
Proof. destruct b; cbn; auto. Qed.

Lemma outcome_get n s : outcome (pGet n s) (fun x r => s = x ++ r /\ length x = n).
Proof.
  unfold pGet. destruct (Nat.leb_spec n (length s)); cbn; [|auto].
  rewrite take_drop, length_take. split; [done|lia].
Qed.

Lemma outcome_getZ n s : (0 <= n)%Z -> outcome (pGetZ n s) (fun x r => s = x ++ r /\ Z.of_nat (length x) = n).
Proof.
  intros Hn. unfold pGetZ. destruct (Z.leb_spec n (Z.of_nat (length s))); [|cbn; auto].
  eapply outcome_mono; [|apply outcome_get]. cbn. intros x r [-> Hx]. split; [done|lia].
Qed.

Lemma outcome_num max s :
  outcome (pNum max s) (fun n r => s = enc_num n ++ r /\ (0 <= n <= max)%Z).
Proof.
  unfold pNum. apply outcome_bind. eapply outcome_mono; [|apply outcome_get]. cbn.
  intros x r [-> Hx]. apply outcome_bind. eapply outcome_mono; [|apply outcome_check].
  cbn. intros _ r' [Hm ->]. apply Z.ltb_ge in Hm. pose proof (le_num_range x) as Hr. rewrite Hx in Hr.
  split; [|lia]. unfold enc_num. rewrite u64_small by (cbn in Hr; lia).
  rewrite <- Hx, le_bytes_le_num. done.
Qed.

Lemma outcome_padding len s : outcome (pPadding len s) (fun _ r => s = pad_bytes len ++ r).
Proof.
  unfold pPadding, pad_bytes. destruct (len mod 8 =? 0)%nat; cbn [negb]; [done|].
  apply outcome_bind. eapply outcome_mono; [|apply outcome_get]. cbn. intros x r [-> Hx].
  eapply outcome_mono; [|apply outcome_check]. cbn. intros _ r' [Hz ->]. f_equal.
  apply le_num_inj; [by rewrite length_replicate|]. rewrite le_num_replicate_0.
  apply negb_false_iff, Z.eqb_eq in Hz. done.
Qed.

Lemma outcome_string max s :
  outcome (pString max s) (fun x r => s = enc_string x ++ r /\ (Z.of_nat (length x) <= max)%Z /\ small x).
Proof.
  unfold pString. apply outcome_bind. eapply outcome_mono; [|apply outcome_num]. cbn.
  intros n r [-> Hn]. unfold max_u64 in Hn. apply outcome_bind. eapply outcome_mono; [|apply outcome_check].
  cbn. intros _ r' [Hm ->]. apply Z.ltb_ge in Hm. apply outcome_bind.
  eapply outcome_mono; [|apply outcome_getZ; lia]. cbn. intros x r' [-> Hx].
  apply outcome_bind. eapply outcome_mono; [|apply outcome_padding]. cbn. intros _ r'' ->.
  unfold enc_string, small. rewrite <- Hx, Nat2Z.id, <- !app_assoc. split; [done|]. lia.
Qed.

(** ** Buffering loses nothing *)

Section buffered.
Context {U : Type} `{WriteUnbuffered U}.
(** [rep u d]: [u] has received the bytes [d]; [okp] are the pieces the
    underlying sink accepts. *)
Context (rep : U -> bytes -> Prop) (okp : bytes -> Prop) (n : nat).
Context (rep_write : forall u d e, okp e -> rep u d ->
           exists u', writeUnbuffered u e = Ok u' /\ rep u' (d ++ e)).
Context (okp_buffer : forall e, (0 < length e < n)%nat -> okp e).

(** The buffer has room, and [d] is everything written so far. *)
Definition buffered_ok (b : BufferedSink U) (d : bytes) : Prop :=
  bufSize b = n /\ (length (buffer b) < n)%nat /\ exists w, rep (under b) w /\ d = w ++ buffer b.

Lemma flush_ok b w :
  rep (under b) w -> (length (buffer b) < n)%nat ->
  exists b', flush b = Ok b' /\ bufSize b' = bufSize b /\ buffer b' = [] /\ rep (under b') (w ++ buffer b).
Proof using rep_write okp_buffer.
  intros Hr Hl. unfold flush, bufPos. destruct (buffer b) as [|c s] eqn:Hb; cbn [length Nat.eqb].
  - exists b. by rewrite app_nil_r.
  - destruct (rep_write _ _ (c :: s) (okp_buffer (c :: s) ltac:(simpl in *; lia)) Hr) as (u & -> & Hu).
    cbn. eauto 6.
Qed.

Lemma buffered_write_ok fuel b data d :
  buffered_ok b d -> (length data < fuel)%nat -> (data = [] \/ okp data) ->
  exists b', buffered_write fuel b data = Ok b' /\ buffered_ok b' (d ++ data).
Proof using rep_write okp_buffer.
  intros (Hn & Hs & w & Hw & ->) Hf Hok. destruct fuel as [|fuel]; [lia|].
  destruct data as [|c x']; [exists b; rewrite app_nil_r; repeat split; eauto|].
  destruct Hok as [|Hok]; [done|]. cbn [buffered_write]. set (y := c :: x') in *. unfold bufPos.
  destruct (Nat.leb_spec (bufSize b - length (buffer b)) (length y)) as [Hl|Hl].
  - destruct (flush_ok b w Hw Hs) as (b1 & -> & Hs1 & Hb1 & Hr1). cbn [mbind result_bind].
    destruct (rep_write _ _ y Hok Hr1) as (u & -> & Hu). cbn. eexists. split; [done|].
    split; cbn; [congruence|]. rewrite Hb1. split; [simpl; lia|].
    exists ((w ++ buffer b) ++ y). by rewrite app_nil_r.
  - rewrite (proj2 (Nat.ltb_ge _ _)) by lia. rewrite take_ge, drop_ge by lia. cbn [buffer bufSize under].
    rewrite (proj2 (Nat.eqb_neq _ _)) by (rewrite length_app; lia). cbn [mbind result_bind].
    destruct fuel; cbn; (eexists; split; [done|]; split; [done|]; split; cbn;
      [rewrite length_app; lia|exists w; by rewrite app_assoc]).
Qed.

Lemma buffered_writes b d l :
  buffered_ok b d -> Forall (fun x => x = [] \/ okp x) l ->
  exists b', foreach sink b l = Ok b' /\ buffered_ok b' (d ++ mjoin l).
Proof using rep_write okp_buffer.
  intros Hb Hl. revert b d Hb. induction Hl as [|x l Hx Hl IH]; intros b d Hb; cbn [foreach mjoin list_join].
  - exists b. by rewrite app_nil_r.
  - destruct (buffered_write_ok (S (length x)) b x d Hb ltac:(lia) Hx) as (b1 & Hw & Hb1).
    change (sink b x) with (buffered_write (S (length x)) b x). rewrite Hw. cbn [mbind result_bind].
    destruct (IH b1 _ Hb1) as (b2 & -> & Hb2). exists b2. by rewrite app_assoc.
Qed.

(** Writing the pieces and flushing. *)
Lemma buffered_all u pieces :
  (0 < n)%nat -> rep u [] -> Forall (fun x => x = [] \/ okp x) pieces ->
  exists b b', foreach sink (mkBufferedSink n [] u) pieces = Ok b /\ (bufPos b < n)%nat /\
    flush b = Ok b' /\ bufPos b' = 0%nat /\ rep (under b') (mjoin pieces).
Proof using rep_write okp_buffer.
  intros Hn Hu Hp.
  destruct (buffered_writes (mkBufferedSink n [] u) [] pieces) as (b & Hb & Hs & Hlt & w & Hr & He);
    [|done|].
  { split; [done|]. split; [done|]. by exists []. }
  destruct (flush_ok b w Hr Hlt) as (b' & Hf & _ & Hb' & Hr'). exists b, b'.
  unfold bufPos. rewrite Hb'. rewrite <- He in Hr'. done.
Qed.
End buffered.

(** ** Properties *)

(** A buffered sink passes on exactly what it is given: after any
    sequence of writes, in pieces of any size, and a flush, the underlying
    sink has received the concatenation of the pieces, the buffer is empty
    and it never overflowed. *)
Theorem BufferedSink_flush {U} `{WriteUnbuffered U} (rep : U -> bytes -> Prop) n u pieces :
  (forall u d e, rep u d -> exists u', writeUnbuffered u e = Ok u' /\ rep u' (d ++ e)) ->
  (0 < n)%nat -> rep u [] ->
  exists b b', foreach sink (mkBufferedSink n [] u) pieces = Ok b /\ (bufPos b < n)%nat /\
    flush b = Ok b' /\ bufPos b' = 0%nat /\ rep (under b') (mjoin pieces).
Proof.
  intros Hw Hn Hu. apply (buffered_all rep (fun _ => True)); auto.
  apply Forall_forall. auto.
Qed.

#[export] Instance bytes_writeUnbuffered : WriteUnbuffered bytes := fun u d => Ok (u ++ d).

Lemma BufferedSink_flush_witness :
  exists b b', foreach sink (mkBufferedSink 4 [] ([] : bytes)) [ #"abc"; #"defghi"; #"j"] = Ok b /\
    (bufPos b < 4)%nat /\ flush b = Ok b' /\ bufPos b' = 0%nat /\
    under b' = mjoin [ #"abc"; #"defghi"; #"j"].
Proof.
  apply (BufferedSink_flush (fun u d => u = d) 4 ([] : bytes)); [|lia|done].
  intros u d e ->. by exists (d ++ e).
Defined.


(** Reading back what [writeStrings] wrote returns the same strings and
    leaves the source just behind them, on every lawful source. *)
Theorem readStrings_writeStrings {St} `{SourceLaws St} ss t fuel s rest :
  Forall small ss -> (Z.of_nat (length ss) < 2 ^ 64)%Z ->
  writeStrings ss (mkStringSink []) = Ok t ->
  valid s -> (rank s < fuel)%nat -> remaining s = sink_s t ++ rest ->
  exists s', readStrings fuel s = Some (Ok ss, s') /\ remaining s' = rest.
Proof.
  intros Hs Hl Hw Hv Hr He. rewrite (writeStrings_eq StringSink_nil StringSink_app) in Hw.
  injection Hw as <-. cbn [sink_s app] in He.
  pose proof (refines_strings fuel s Hv Hr) as Href. rewrite He, pStrings_enc in Href by done.
  destruct Href as (s' & ? & _ & ? & _). eauto.
Qed.

Lemma readStrings_writeStrings_witness :
  exists t s', writeStrings [ #"nix"; []; #"store-path"] (mkStringSink []) = Ok t /\
    readStrings 1000 (mkStringSource (sink_s t ++ #"rest") 0) = Some (Ok [ #"nix"; []; #"store-path"], s')
    /\ remaining s' = #"rest".
Proof.
  set (t := mkStringSink (enc_strings [ #"nix"; []; #"store-path"])).
  assert (writeStrings [ #"nix"; []; #"store-path"] (mkStringSink []) = Ok t) as Ht
    by (vm_compute; reflexivity).
  destruct (readStrings_writeStrings [ #"nix"; []; #"store-path"] t 1000
              (mkStringSource (sink_s t ++ #"rest") 0) #"rest") as (s' & H1 & H2).
  - repeat constructor.
  - reflexivity.
  - exact Ht.
  - apply Nat.leb_le. vm_compute. reflexivity.
  - apply Nat.ltb_lt. vm_compute. reflexivity.
  - reflexivity.
  - exists t, s'. split; [exact Ht|]. split; [exact H1|exact H2].
Defined.

(** An error sent with [operator<<] and received with [readError] keeps
    its level, message and traces. *)
Theorem readError_writeError {St} `{SourceLaws St} e t fuel s rest :
  (0 <= level e < 2 ^ 32)%Z -> small (msg e) -> Forall small (traces e) ->
  (Z.of_nat (length (traces e)) < 2 ^ 64)%Z ->
  writeError e (mkStringSink []) = Ok t ->
  valid s -> (rank s < fuel)%nat -> remaining s = sink_s t ++ rest ->
  exists s', readError fuel s = Some (Ok e, s') /\ remaining s' = rest.
Proof.
  intros Hlv Hm Ht Hn Hw Hv Hr He. rewrite (writeError_eq StringSink_nil StringSink_app) in Hw.
  injection Hw as <-. cbn [sink_s app] in He.
  pose proof (refines_error fuel s Hv Hr) as Href.
  assert (0 <= level e <= max_u32)%Z as Hlv' by (unfold max_u32; lia).
  rewrite He, (pError_enc e rest Hlv' Hm Ht Hn) in Href.
  destruct Href as (s' & ? & _ & ? & _). eauto.
Qed.

Lemma readError_writeError_witness :
  exists t s', writeError (mkErrorInfo 0 #"boom" [ #"while testing"]) (mkStringSink []) = Ok t /\
    readError 1000 (mkStringSource (sink_s t ++ #"rest") 0)
      = Some (Ok (mkErrorInfo 0 #"boom" [ #"while testing"]), s') /\ remaining s' = #"rest".
Proof.
  set (e := mkErrorInfo 0 #"boom" [ #"while testing"]).
  set (t := mkStringSink (enc_error e)).
  assert (writeError e (mkStringSink []) = Ok t) as Ht by (vm_compute; reflexivity).
  destruct (readError_writeError e t 1000 (mkStringSource (sink_s t ++ #"rest") 0) #"rest") as (s' & H1 & H2).
  - cbn. lia.
  - reflexivity.
  - repeat constructor.
  - reflexivity.
  - exact Ht.
  - apply Nat.leb_le. vm_compute. reflexivity.
  - apply Nat.ltb_lt. vm_compute. reflexivity.
  - reflexivity.
  - exists t, s'. split; [exact Ht|]. split; [exact H1|exact H2].
Defined.

(** ** Framed streams *)

Definition frame (c : bytes) : bytes := enc_num (Z.of_nat (length c)) ++ c.
Definition chunk_ok (c : bytes) : Prop := (0 < length c)%nat /\ (Z.of_nat (length c) < 2 ^ 32)%Z.

(** [FramedSource::drain()], with the fuel [f] for each read. *)
Fixpoint framed_drain `{Source St} (fuel f : nat) (t : FramedSource St) (acc : bytes)
    : option (result bytes * FramedSource St) :=
  match fuel with
  | O => None
  | S fuel =>
      match framed_read f t drain_buf with
      | None => None
      | Some (Ok d, t') => framed_drain fuel f t' (acc ++ d)
      | Some (Throw e, t') =>
          if bool_decide (e = EndOfFile) then Some (Ok acc, t') else Some (Throw e, t')
      end
  end.

Lemma framed_deliver_eq {St} (t : FramedSource St) len :
  (pos t < length (pending t))%nat ->
  let n := (len `min` (length (pending t) - pos t))%nat in
  framed_deliver t len =
  (Ok (take n (drop (pos t) (pending t))), mkFramedSource (framed_from t) (framed_eof t) (pending t) (pos t + n)).
Proof. intros Hl. unfold framed_deliver. by rewrite (proj2 (Nat.ltb_lt _ _)). Qed.

Lemma drain_buf_pos : (0 < drain_buf)%nat.
Proof. apply Nat.ltb_lt. vm_compute. reflexivity. Qed.

Lemma join_snoc {A} (l : list (list A)) x : mjoin (l ++ [x]) = mjoin l ++ x.
Proof. rewrite join_app. cbn. by rewrite app_nil_r. Qed.

Section framed.
Context {St : Type} `{SourceLaws St} (f : nat) (rest : bytes).

Definition framed_state (t : FramedSource St) (chunks : list bytes) : Prop :=
  framed_eof t = false /\ valid (framed_from t) /\ (rank (framed_from t) < f)%nat /\
  (pos t <= length (pending t))%nat /\ Forall chunk_ok chunks /\
  remaining (framed_from t) = mjoin (frame <$> chunks) ++ enc_num 0 ++ rest.

Lemma next_frame_chunk (s : St) c r :
  valid s -> (rank s < f)%nat -> chunk_ok c -> remaining s = frame c ++ r ->
  exists s', next_frame f s = Some (Ok (Some c), s') /\ valid s' /\ (rank s' < f)%nat /\ remaining s' = r.
Proof using Type.
  intros Hv Hr [Hc1 Hc2] He. unfold next_frame, mbind, M_bind, readInt. unfold frame in He.
  rewrite <- app_assoc in He. pose proof (refines_num max_u32 f s Hv Hr) as H1.
  rewrite He, pNum_enc in H1 by (unfold max_u32; lia).
  destruct H1 as (s1 & -> & Hv1 & Hr1 & Hk1).
  rewrite (proj2 (Z.eqb_neq _ _)) by lia. rewrite Nat2Z.id.
  pose proof (refines_get (length c) f s1 Hv1 ltac:(lia)) as H2. rewrite Hr1, pGet_app in H2.
  destruct H2 as (s2 & -> & Hv2 & Hr2 & Hk2). exists s2. repeat split; [done|lia|done].
Qed.

Lemma next_frame_end (s : St) r :
  valid s -> (rank s < f)%nat -> remaining s = enc_num 0 ++ r ->
  exists s', next_frame f s = Some (Ok None, s') /\ remaining s' = r.
Proof using Type.
  intros Hv Hr He. unfold next_frame, mbind, M_bind, readInt.
  pose proof (refines_num max_u32 f s Hv Hr) as H1. rewrite He, pNum_enc in H1 by (unfold max_u32; lia).
  destruct H1 as (s1 & -> & Hv1 & Hr1 & Hk1). cbn. eauto.
Qed.

Lemma framed_drain_spec fuel t chunks acc :
  framed_state t chunks ->
  (length (drop (pos t) (pending t)) + length (mjoin chunks) + 1 < fuel)%nat ->
  exists t', framed_drain fuel f t acc = Some (Ok (acc ++ drop (pos t) (pending t) ++ mjoin chunks), t') /\
    framed_eof t' = true /\ remaining (framed_from t') = rest.
Proof using Type.
  revert t chunks acc. induction fuel as [|fuel IH]; intros [s eof p k] chunks acc; [lia|].
  intros (He & Hv & Hf & Hp & Hc & Hr) Hfuel.
  cbn [framed_eof framed_from pending pos] in *. subst eof. pose proof drain_buf_pos as Hbuf.
  cbn [framed_drain]. unfold framed_read; cbn [framed_eof framed_from pending pos].
  destruct (Nat.leb_spec (length p) k) as [Hk|Hk].
  - rewrite (drop_ge p k) in * by lia. destruct Hc as [|c chunks Hc Hcs].
    + destruct (next_frame_end s rest Hv Hf Hr) as (s' & -> & Hr').
      destruct fuel as [|fuel]; [simpl in Hfuel; lia|]. cbn [framed_drain framed_read framed_eof].
      rewrite bool_decide_true by done. eexists. cbn. rewrite !app_nil_r. done.
    + change (mjoin (frame <$> c :: chunks)) with (frame c ++ mjoin (frame <$> chunks)) in Hr.
      rewrite <- app_assoc in Hr.
      destruct (next_frame_chunk s c _ Hv Hf Hc Hr) as (s' & -> & Hv' & Hf' & Hr').
      destruct Hc as [Hc1 Hc2]. rewrite framed_deliver_eq by (cbn; lia).
      cbn [framed_eof framed_from pending pos Nat.add]. rewrite drop_0, Nat.sub_0_r.
      set (n := (drain_buf `min` length c)%nat). assert (n = (drain_buf `min` length c)%nat) as Hn by done.
      clearbody n. change (mjoin (c :: chunks)) with (c ++ mjoin chunks) in *. rewrite length_app in Hfuel.
      destruct (IH (mkFramedSource s' false c n) chunks (acc ++ take n c)) as (t' & -> & ? & ?).
      * repeat split; cbn [framed_eof framed_from pending pos]; try done; lia.
      * cbn [pending pos]. rewrite length_drop. simpl in Hfuel. lia.
      * exists t'. cbn [pending pos]. rewrite <- app_assoc, (app_assoc (take n c)), take_drop. done.
  - rewrite framed_deliver_eq by (cbn; lia). cbn [framed_eof framed_from pending pos].
    set (n := (drain_buf `min` (length p - k))%nat).
    assert (n = (drain_buf `min` (length p - k))%nat) as Hn by done. clearbody n. rewrite length_drop in Hfuel.
    destruct (IH (mkFramedSource s false p (k + n)) chunks (acc ++ take n (drop k p))) as (t' & -> & ? & ?).
    + repeat split; cbn [framed_eof framed_from pending pos]; try done; lia.
    + cbn [pending pos]. rewrite length_drop. lia.
    + exists t'. cbn [pending pos]. rewrite <- drop_drop, <- app_assoc, (app_assoc (take n (drop k p))), take_drop. done.
Qed.
End framed.

(** Data sent through a framed sink, in pieces of any size below 4 GiB,
    is received unchanged by a framed source on any lawful stream, and the
    stream is left exactly behind the frames. *)
Theorem framed_roundtrip {St} `{SourceLaws St} n pieces rest :
  (0 < n)%nat -> (Z.of_nat n < 2 ^ 32)%Z -> Forall (fun x => (Z.of_nat (length x) < 2 ^ 32)%Z) pieces ->
  exists b b' t, foreach sink (mkBufferedSink n [] (mkFramed (mkStringSink []) (Ok ()))) pieces = Ok b /\
    flush b = Ok b' /\ FramedSink_end (under b') = Ok t /\
    forall s f fuel, valid s -> (rank s < f)%nat -> (length (mjoin pieces) + 1 < fuel)%nat ->
      remaining s = sink_s t ++ rest ->
      exists t', framed_drain fuel f (mkFramedSource s false [] 0) [] = Some (Ok (mjoin pieces), t') /\
        framed_eof t' = true /\ remaining (framed_from t') = rest.
Proof.
  intros Hn Hn2 Hp.
  set (rep := fun (u : Framed StringSink) d => checkError u = Ok () /\
                exists chunks, Forall chunk_ok chunks /\ mjoin chunks = d /\
                               sink_s (to u) = mjoin (frame <$> chunks)).
  destruct (buffered_all rep chunk_ok n) with (u := mkFramed (mkStringSink []) (Ok ())) (pieces := pieces)
    as (b & b' & Hb & _ & Hf & _ & Hrep).
  - intros u d e He (Hc & chunks & Hok & Hd & Hs). unfold writeUnbuffered, Framed_write. rewrite Hc.
    cbn [mbind result_bind]. rewrite sink_num_eq. unfold sink, StringSink_sink.
    cbn [mbind result_bind sink_s]. eexists. split; [done|]. split; [done|]. cbn [to sink_s].
    exists (chunks ++ [e]). rewrite Forall_app, fmap_app. cbn [fmap list_fmap].
    rewrite !join_snoc, Hd, Hs. unfold frame. rewrite app_assoc. auto.
  - intros e He. unfold chunk_ok. lia.
  - done.
  - split; [done|]. by exists [].
  - eapply Forall_impl; [exact Hp|]. intros x Hx. destruct x; [by left|right].
    split; [simpl; lia|exact Hx].
  - destruct Hrep as (_ & chunks & Hok & Hd & Hs).
    exists b, b', (mkStringSink (sink_s (to (under b')) ++ enc_num 0)).
    split; [done|]. split; [done|]. split; [unfold FramedSink_end; by rewrite sink_num_eq|].
    intros s f fuel Hv Hr Hfuel He. cbn [sink_s] in He. rewrite Hs, <- app_assoc in He.
    destruct (framed_drain_spec f rest fuel (mkFramedSource s false [] 0) chunks []) as (t' & -> & ? & ?).
    + repeat split; try done; cbn; lia.
    + cbn. rewrite Hd. lia.
    + exists t'. cbn. by rewrite Hd.
Qed.

Lemma framed_roundtrip_witness :
  exists b b' t, foreach sink (mkBufferedSink 4 [] (mkFramed (mkStringSink []) (Ok ()))) [ #"abc"; #"defghijk"; #"l"] = Ok b /\
    flush b = Ok b' /\ FramedSink_end (under b') = Ok t /\
    exists t', framed_drain 100 1000 (mkFramedSource (mkStringSource (sink_s t ++ #"rest") 0) false [] 0) []
               = Some (Ok (mjoin [ #"abc"; #"defghijk"; #"l"]), t') /\
      framed_eof t' = true /\ remaining (framed_from t') = #"rest".
Proof.
  destruct (@framed_roundtrip StringSource _ _ 4 [ #"abc"; #"defghijk"; #"l"] #"rest")
    as (b & b' & t & Hb & Hf & He & Hall); [lia|lia|repeat constructor|].
  assert (t = mkStringSink (frame #"abc" ++ frame #"defghijk" ++ frame #"l" ++ enc_num 0)) as Ht.
  { vm_compute in Hb. injection Hb as <-. vm_compute in Hf. injection Hf as <-.
    vm_compute in He. injection He as <-. vm_compute. reflexivity. }
  exists b, b', t. split; [exact Hb|]. split; [exact Hf|]. split; [exact He|]. apply Hall.
  - apply Nat.leb_le. reflexivity.
  - rewrite Ht. apply Nat.ltb_lt. vm_compute. reflexivity.
  - apply Nat.ltb_lt. vm_compute. reflexivity.
  - reflexivity.
Defined.

Lemma find_char_app_None c a b : find_char c a = None -> find_char c (a ++ b) = (fun i => (length a + i)%nat) <$> find_char c b.
Proof.
  induction a as [|x a IH]; cbn [app find_char length]; [by destruct (find_char c b)|].
  case_decide; [done|]. destruct (find_char c a) as [i|]; [done|]. intros _. rewrite IH by done.
  by destruct (find_char c b).
Qed.

Lemma find_char_app_Some c a b i : find_char c a = Some i -> find_char c (a ++ b) = Some i.
Proof.
  revert i; induction a as [|x a IH]; intros i; cbn [app find_char]; [done|].
  case_decide; [done|]. destruct (find_char c a) as [j|]; [|done]. rewrite (IH j) by done. done.
Qed.

Lemma readLine_loop {St} `{SourceLaws St} fuel n buf u eofOk c line :
  (forall s len d s', valid s -> (0 < len)%nat -> read s len = (Ok d, s') -> d <> []) ->
  valid u -> (0 < n)%nat -> (rank u < fuel)%nat ->
  match find_char c (buf ++ remaining u) with
  | Some i => exists b', readLine fuel (mkBufferedSource n buf u) eofOk c line
                         = Some (Ok (line ++ take i (buf ++ remaining u)), b') /\
                remaining b' = drop (S i) (buf ++ remaining u)
  | None => exists b', readLine fuel (mkBufferedSource n buf u) eofOk c line
                       = Some (if eofOk then Ok (line ++ buf ++ remaining u) else Throw EndOfFile, b') /\
              remaining b' = []
  end.
Proof.
  intros Hne. revert buf u line. induction fuel as [|fuel IH]; intros buf u line Hv Hn Hf; [lia|].
  cbn [readLine bs_buffer bs_under bs_bufSize]. destruct (find_char c buf) as [i|] eqn:Hc.
  - rewrite (find_char_app_Some _ _ _ i Hc). apply find_char_split in Hc as (p & r & -> & _ & ->).
    eexists. rewrite <- !app_assoc, <- !app_comm_cons, !take_app_length, !drop_S_app. split; [done|].
    cbn. done.
  - rewrite (find_char_app_None _ _ _ Hc). pose proof (read_spec u n Hv Hn) as Hr.
    destruct (read u n) as [[d|e] u'] eqn:Hread.
    + destruct Hr as (Hv' & He & _ & Hk). specialize (Hne _ _ _ _ Hv Hn Hread).
      destruct d as [|x d]; [done|]. specialize (IH (x :: d) u' (line ++ buf) Hv' Hn ltac:(lia)).
      rewrite <- He in IH. destruct (find_char c (remaining u)) as [i|]; cbn [fmap option_fmap option_map].
      * destruct IH as (b' & -> & Hb). exists b'. rewrite <- app_assoc.
        rewrite take_app_ge, drop_app_ge by lia. rewrite Nat.add_sub_swap, Nat.sub_diag by lia.
        split; [done|]. rewrite Hb. f_equal. lia.
      * destruct IH as (b' & -> & Hb). exists b'. rewrite <- app_assoc. done.
    + destruct Hr as (-> & He & Hv' & He'). rewrite He. cbn [find_char fmap option_fmap option_map].
      rewrite bool_decide_true by done. eexists. rewrite app_nil_r. split; [done|]. cbn. done.
Qed.

(** On a lawful stream that never stalls, [readLine] returns exactly the
    bytes before the first terminator and leaves the source behind it; when
    there is none it returns all that remains or throws [EndOfFile]. *)
Theorem readLine_spec {St} `{SourceLaws St} fuel b eofOk c :
  (forall s len d s', valid s -> (0 < len)%nat -> read s len = (Ok d, s') -> d <> []) ->
  valid b -> (rank (bs_under b) < fuel)%nat ->
  match splitPrefixTo (remaining b) c with
  | Some (line, rest) =>
      exists b', readLine fuel b eofOk c [] = Some (Ok line, b') /\ remaining b' = rest
  | None =>
      exists b', readLine fuel b eofOk c [] = Some (if eofOk then Ok (remaining b) else Throw EndOfFile, b') /\
                 remaining b' = []
  end.
Proof.
  intros Hne [Hv Hn] Hf. destruct b as [n buf u]; cbn [bs_under bs_bufSize] in *.
  pose proof (readLine_loop fuel n buf u eofOk c [] Hne Hv Hn Hf) as Hl. unfold splitPrefixTo.
  change (remaining (mkBufferedSource n buf u)) with (buf ++ remaining u).
  by destruct (find_char c (buf ++ remaining u)).
Qed.

Lemma readLine_spec_witness :
  exists b', readLine 10 (mkBufferedSource 3 [] (mkStringSource #"one
two" 0)) false "010"%char [] = Some (Ok #"one", b') /\ remaining b' = #"two".
Proof.
  refine (readLine_spec 10 (mkBufferedSource 3 [] (mkStringSource #"one
two" 0)) false "010"%char _ _ _).
  - intros [s p] len d s' Hv Hl. unfold read, StringSource_source; cbn [ss_s ss_pos].
    destruct (Nat.eqb_spec p (length s)) as [|Hp]; [done|]. intros [= <- _] Hd.
    apply (f_equal length) in Hd. rewrite length_take, length_drop in Hd. cbn in *. lia.
  - split; cbn; lia.
  - cbn. lia.
Defined.
