(* ===== verification/HashSink.v ===== *)
(** * HashSink: digests of streams

    [HashSink] of libutil/hash.cc and hash.hh: a buffered sink in front of a
    digest.  Whatever the pieces it is written in, what it returns is the
    digest and the number of bytes of the whole stream. *)

From S2P Require Export Hashing Serialise.
Local Open Scope Z_scope.

Record HashResult := mkHashResult { hr_hash : Hash; numBytesDigested : Z }.

Section sink.
Context `{L : HashLib}.

(** The fields of the class other than those of [BufferedSink]. *)
Record HashState := mkHashState { ha : HashAlgorithm; ctx : Ctx; nbytes : Z }.

#[export] Instance HashState_write : WriteUnbuffered HashState := fun h data =>
  Ok (mkHashState (ha h) (update (ha h) (ctx h) data) (u64 (nbytes h + Z.of_nat (length data)))).

(** [BufferedSink(size_t bufSize = 32 * 1024)] *)
Definition defaultBufSize : nat := Nat.pow 2 15.
Definition HashSink : Type := BufferedSink HashState.
Definition HashSink_new (a : HashAlgorithm) : HashSink :=
  mkBufferedSink defaultBufSize [] (mkHashState a (start a) 0).

(** What [finish] and [currentHash] both do after the flush. *)
Definition HashSink_result (h : HashSink) : result HashResult :=
  h0 ← new_Hash (ha (under h));
  Ok (mkHashResult (finish (ha (under h)) (ctx (under h)) h0) (nbytes (under h))).

(** [HashSink::finish]; the context must not be used again. *)
Definition HashSink_finish (h : HashSink) : result HashResult :=
  h ← flush h; HashSink_result h.

(** [HashSink::currentHash] works on a copy of the context. *)
Definition HashSink_currentHash (h : HashSink) : result (HashResult * HashSink) :=
  h ← flush h; r ← HashSink_result h; Ok (r, h).

Lemma defaultBufSize_pos : (0 < defaultBufSize)%nat.
Proof. apply Nat.ltb_lt. vm_compute. reflexivity. Qed.

(** ** What a sink has digested *)

Definition digest_so_far (a : HashAlgorithm) (u : HashState) (d : bytes) : Prop :=
  ha u = a /\ ctx u = update a (start a) d /\ nbytes u = u64 (Z.of_nat (length d)).

(** [h] has been written the bytes [d] so far. *)
Definition digests (a : HashAlgorithm) (h : HashSink) (d : bytes) : Prop :=
  buffered_ok (digest_so_far a) defaultBufSize h d.

(** The result for the stream [d]. *)
Definition hash_of (a : HashAlgorithm) (d : bytes) : Hash :=
  finish a (update a (start a) d) (mkHash (regularHashSize a) (replicate maxHashSize (bZ 0)) a).
Definition hash_result (a : HashAlgorithm) (d : bytes) : HashResult :=
  mkHashResult (hash_of a d) (u64 (Z.of_nat (length d))).

Lemma hashString_hash_of a d : hashString a d = Ok (hash_of a d).
Proof. unfold hashString. by rewrite new_Hash_Ok. Qed.

Context `{!HashLibLaws L}.

Lemma digest_write a u d e :
  digest_so_far a u d -> exists u', writeUnbuffered u e = Ok u' /\ digest_so_far a u' (d ++ e).
Proof using L HashLibLaws0.
  intros (Ha & Hc & Hn). eexists. split; [done|]. split; [done|]. rewrite Ha. split.
  - cbn [ctx ha]. rewrite Hc. apply update_app.
  - cbn [nbytes]. rewrite Hn, length_app. unfold u64. rewrite Zplus_mod_idemp_l. f_equal. lia.
Qed.

Lemma digests_new a : digests a (HashSink_new a) [].
Proof using L HashLibLaws0.
  split; [done|]. split; [apply defaultBufSize_pos|].
  exists []. split; [|done]. split; [done|]. split; [symmetry; apply update_nil|done].
Qed.

Lemma digests_sink a h d e : digests a h d -> exists h', sink h e = Ok h' /\ digests a h' (d ++ e).
Proof using L HashLibLaws0.
  intros Hd. apply (buffered_write_ok _ (fun _ => True) _ (fun u d e _ => digest_write a u d e) (fun _ _ => I));
    auto.
Qed.

Lemma digests_sinks a h d es :
  digests a h d -> exists h', foreach sink h es = Ok h' /\ digests a h' (d ++ mjoin es).
Proof using L HashLibLaws0.
  intros Hd. apply (buffered_writes _ (fun _ => True) _ (fun u d e _ => digest_write a u d e) (fun _ _ => I)); [done|].
  apply Forall_forall. auto.
Qed.

Lemma digests_flush a h d :
  digests a h d -> exists h', flush h = Ok h' /\ digests a h' d /\ digest_so_far a (under h') d.
Proof using L HashLibLaws0.
  intros (Hs & Hl & w & Hw & ->).
  destruct (flush_ok _ (fun _ => True) _ (fun u d e _ => digest_write a u d e) (fun _ _ => I) h w Hw Hl)
    as (h' & Hf & Hs' & Hb & Hr).
  exists h'. split; [done|]. split; [|done]. split; [by transitivity (bufSize h)|]. rewrite Hb. split; [apply defaultBufSize_pos|].
  eexists. split; [done|]. by rewrite app_nil_r.
Qed.

Lemma HashSink_result_ok a h d : digest_so_far a (under h) d -> HashSink_result h = Ok (hash_result a d).
Proof using L.
  intros (Ha & Hc & Hn). unfold HashSink_result. rewrite Ha, new_Hash_Ok. cbn. by rewrite Hc, Hn.
Qed.

Lemma digests_finish a h d : digests a h d -> HashSink_finish h = Ok (hash_result a d).
Proof using L HashLibLaws0.
  intros (h' & Hf & _ & Hd)%digests_flush. unfold HashSink_finish. rewrite Hf. by apply HashSink_result_ok.
Qed.

Lemma digests_currentHash a h d :
  digests a h d -> exists h', HashSink_currentHash h = Ok (hash_result a d, h') /\ digests a h' d.
Proof using L HashLibLaws0.
  intros (h' & Hf & Hd' & Hd)%digests_flush. exists h'. unfold HashSink_currentHash. rewrite Hf.
  cbn. by rewrite (HashSink_result_ok _ _ _ Hd).
Qed.

(** A stream hashed in one go, in any pieces. *)
Lemma HashSink_stream a pieces :
  (h ← foreach sink (HashSink_new a) pieces; HashSink_finish h) = Ok (hash_result a (mjoin pieces)).
Proof using L HashLibLaws0.
  destruct (digests_sinks a _ _ pieces (digests_new a)) as (h & -> & Hh). by apply digests_finish.
Qed.
End sink.
