(* ===== verification/AsyncHash.v ===== *)
(** * AsyncHash: hashing on a thread of its own

    The bounded queue between a producer and a worker thread of
    [AsyncHashSink] and [AsyncFileHasher] (libstore/local-store.cc).  Each
    thread runs from one synchronisation to the next in one step; a thread
    that waits on a condition variable has given up the mutex and is woken by
    a notification or spuriously.  The threads take their steps in any
    order. *)

From S2P Require Export HashSink.

(** ** The protocol *)

Section queue.
Context {Ev W : Type} (handle : W -> Ev -> result W) (maxQueued : nat).

(** Where the worker is: about to take the mutex, holding it in front of
    [wait], waiting on [cvPush], woken, about to notify [cvPop], handling an
    event without the mutex, returned. *)
Inductive WorkerAt := WLock | WTest | WWait | WWoken | WNotify (e : Ev) | WHandle (e : Ev) | WReturned.

(** Where the producer is: between calls, in [push] of an event (taking the
    mutex, holding it, waiting on [cvPop], woken, about to notify [cvPush]),
    in [close] (taking the mutex, holding it, about to notify), joining. *)
Inductive ProducerAt :=
  | PIdle | PLock (e : Ev) | PTest (e : Ev) | PWait (e : Ev) | PWoken (e : Ev) | PNotify
  | PCloseLock | PClose | PCloseNotify | PJoin | PFinished.

Record Threads := mkThreads {
  queued : list Ev; closed : bool; failure : option exn; inner : W;
  worker : WorkerAt; producer : ProducerAt;
  (** the events the producer has still to push *)
  todo : list Ev;
}.

Definition set_worker (a : WorkerAt) (t : Threads) : Threads :=
  mkThreads (queued t) (closed t) (failure t) (inner t) a (producer t) (todo t).
Definition set_producer (a : ProducerAt) (t : Threads) : Threads :=
  mkThreads (queued t) (closed t) (failure t) (inner t) (worker t) a (todo t).
Definition set_queued (q : list Ev) (t : Threads) : Threads :=
  mkThreads q (closed t) (failure t) (inner t) (worker t) (producer t) (todo t).
Definition set_closed (t : Threads) : Threads :=
  mkThreads (queued t) true (failure t) (inner t) (worker t) (producer t) (todo t).

Definition worker_holds (t : Threads) : bool := match worker t with WTest => true | _ => false end.
Definition producer_holds (t : Threads) : bool := match producer t with PTest _ | PClose => true | _ => false end.

(** [cvPush.notify_one()] and [cvPop.notify_one()] *)
Definition notify_worker (t : Threads) : Threads :=
  match worker t with WWait => set_worker WWoken t | _ => t end.
Definition notify_producer (t : Threads) : Threads :=
  match producer t with PWait e => set_producer (PWoken e) t | _ => t end.

(** An event is handled unless an earlier one failed. *)
Definition handle_event (wf : W * option exn) (e : Ev) : W * option exn :=
  match wf.2 with
  | Some _ => wf
  | None => match handle wf.1 e with Ok w => (w, None) | Throw x => (wf.1, Some x) end
  end.

(** The next step of a thread, [None] when it is blocked or has ended. *)
Definition worker_step (t : Threads) : option Threads :=
  match worker t with
  | WLock | WWoken => if producer_holds t then None else Some (set_worker WTest t)
  | WTest =>
      match queued t with
      | e :: q => Some (set_worker (WNotify e) (set_queued q t))
      | [] => Some (set_worker (if closed t then WReturned else WWait) t)
      end
  | WWait => None
  | WNotify e => Some (notify_producer (set_worker (WHandle e) t))
  | WHandle e =>
      let '(w, f) := handle_event (inner t, failure t) e in
      Some (mkThreads (queued t) (closed t) f w WLock (producer t) (todo t))
  | WReturned => None
  end.

Definition producer_step (t : Threads) : option Threads :=
  match producer t with
  | PIdle =>
      match todo t with
      | e :: rest => Some (mkThreads (queued t) (closed t) (failure t) (inner t) (worker t) (PLock e) rest)
      | [] => Some (set_producer PCloseLock t)
      end
  | PLock e | PWoken e => if worker_holds t then None else Some (set_producer (PTest e) t)
  | PTest e =>
      if (length (queued t) <? maxQueued)%nat then Some (set_producer PNotify (set_queued (queued t ++ [e]) t))
      else Some (set_producer (PWait e) t)
  | PWait _ => None
  | PNotify => Some (notify_worker (set_producer PIdle t))
  | PCloseLock => if worker_holds t then None else Some (set_producer PClose t)
  | PClose => Some (set_producer PCloseNotify (set_closed t))
  | PCloseNotify => Some (notify_worker (set_producer PJoin t))
  | PJoin => match worker t with WReturned => Some (set_producer PFinished t) | _ => None end
  | PFinished => None
  end.

Definition threads_step (t t' : Threads) : Prop := worker_step t = Some t' \/ producer_step t = Some t'.

(** A wait may end without a notification. *)
Definition spurious_wakeup (t t' : Threads) : Prop :=
  worker t = WWait /\ t' = set_worker WWoken t \/
  exists e, producer t = PWait e /\ t' = set_producer (PWoken e) t.

Definition any_step (t t' : Threads) : Prop := threads_step t t' \/ spurious_wakeup t t'.

(** The constructor, and the events the producer will push before [close]. *)
Definition threads_start (w : W) (events : list Ev) : Threads :=
  mkThreads [] false None w WLock PIdle events.

Definition reachable (w : W) (events : list Ev) (t : Threads) : Prop := rtc any_step (threads_start w events) t.

(** ** Invariant *)

Definition worker_event (t : Threads) : list Ev := match worker t with WNotify e | WHandle e => [e] | _ => [] end.
Definition producer_event (t : Threads) : list Ev :=
  match producer t with PLock e | PTest e | PWait e | PWoken e => [e] | _ => [] end.
Definition closing (t : Threads) : bool :=
  match producer t with PCloseLock | PClose | PCloseNotify | PJoin | PFinished => true | _ => false end.
Definition has_closed (t : Threads) : bool :=
  match producer t with PCloseNotify | PJoin | PFinished => true | _ => false end.

Record threads_ok (w : W) (events : list Ev) (t : Threads) : Prop := {
  (** the mutex *)
  to_mutex : worker_holds t && producer_holds t = false;
  (** the bound *)
  to_bound : (length (queued t) <= maxQueued)%nat;
  (** every event is in one place, in order *)
  to_events : exists handled,
    events = handled ++ worker_event t ++ queued t ++ producer_event t ++ todo t /\
    (inner t, failure t) = foldl handle_event (w, None) handled;
  to_closed : closed t = has_closed t;
  to_closing : closing t = true -> todo t = [];
  (** the worker ends when there is nothing left *)
  to_returned : worker t = WReturned -> closed t = true /\ queued t = [];
  to_finished : producer t = PFinished -> worker t = WReturned;
  (** no wake-up is lost *)
  to_worker_waits : worker t = WWait ->
    (queued t = [] \/ producer t = PNotify) /\ (closed t = false \/ producer t = PCloseNotify);
  to_producer_waits : forall e, producer t = PWait e ->
    length (queued t) = maxQueued \/ exists e', worker t = WNotify e';
}.

Lemma start_ok w events : threads_ok w events (threads_start w events).
Proof. split; try done; [cbn; lia|]. by exists []. Qed.

Ltac threads_cases t :=
  destruct t as [q c f i wk p td];
  cbn [queued closed failure inner worker producer todo worker_holds producer_holds closing has_closed
       worker_event producer_event set_worker set_producer set_queued set_closed notify_worker notify_producer] in *.

(** The invariant after a step, by cases on where the threads are. *)
Ltac at_split handled :=
  split; cbn in *; try done; try (by rewrite andb_false_r); try (by exists handled).
Ltac worker_waits :=
  match goal with
  | H : WWait = WWait -> _ |- _ => destruct (H eq_refl) as [[?|?] [?|?]]
  end; try discriminate; auto.
Ltac at_cases handled := at_split handled; try (intros ->; worker_waits).

Lemma worker_step_ok w events t t' : threads_ok w events t -> worker_step t = Some t' -> threads_ok w events t'.
Proof.
  intros [Hm Hb (handled & He & Hf) Hc Hcl Hr Hfin Hww Hpw] Hs. threads_cases t. unfold worker_step in Hs.
  cbn [queued closed failure inner worker producer todo] in Hs.
  destruct wk as [| | | |e|e|].
  - destruct (producer_holds _) eqn:Hp; [done|]. injection Hs as <-. cbn in Hp.
    split; cbn; try done; [by exists handled|by intros ?%Hfin|intros e' ->; by destruct (Hpw e' eq_refl) as [?|[? ?]]; auto].
  - destruct q as [|e q]; injection Hs as <-.
    + destruct c; split; cbn; try done; try (by exists handled); try (by intros ?%Hfin).
      * intros e' ->. destruct (Hpw e' eq_refl) as [?|[? ?]]; [auto|done].
      * auto.
      * intros e' ->. destruct (Hpw e' eq_refl) as [?|[? ?]]; [auto|done].
    + split; cbn; try done; [simpl in Hb; lia|by exists handled|by intros ?%Hfin|eauto].
  - done.
  - destruct (producer_holds _) eqn:Hp; [done|]. injection Hs as <-. cbn in Hp.
    split; cbn; try done; [by exists handled|by intros ?%Hfin|intros e' ->; by destruct (Hpw e' eq_refl) as [?|[? ?]]; auto].
  - injection Hs as <-. destruct p; split; cbn in *; try done; try (by exists handled); try (by intros ?%Hfin).
    all: intros e' [= ->]; done.
  - destruct (handle_event (i, f) e) as [w1 f1] eqn:Hh. injection Hs as <-.
    split; cbn; try done.
    + exists (handled ++ [e]). rewrite foldl_app, <- Hf. cbn [foldl]. rewrite Hh. split; [|done].
      by rewrite He, <- app_assoc.
    + by intros ?%Hfin.
    + intros e' ->. destruct (Hpw e' eq_refl) as [?|[? ?]]; [auto|done].
  - done.
Qed.

Lemma producer_step_ok w events t t' :
  (0 < maxQueued)%nat -> threads_ok w events t -> producer_step t = Some t' -> threads_ok w events t'.
Proof.
  intros Hmax [Hm Hb (handled & He & Hf) Hc Hcl Hr Hfin Hww Hpw] Hs. threads_cases t. unfold producer_step in Hs.
  cbn [queued closed failure inner worker producer todo] in Hs.
  destruct p as [|e|e|e|e| | | | | |].
  - destruct td as [|e td]; injection Hs as <-.
    + at_cases handled.
    + at_cases handled.
  - destruct (worker_holds _) eqn:Hw; [done|]. injection Hs as <-. unfold worker_holds in Hw; cbn [worker] in Hw.
    split; cbn; try done; [by rewrite andb_true_r|by exists handled|intros ->; worker_waits].
  - destruct (Nat.ltb_spec (length q) maxQueued) as [Hl|Hl]; injection Hs as <-.
    + split; cbn.
      * apply andb_false_r.
      * rewrite length_app. cbn. lia.
      * exists handled. split; [|done]. by rewrite He, <- !app_assoc.
      * done.
      * done.
      * intros ->. destruct (Hr eq_refl). cbn in Hc. congruence.
      * done.
      * intros ->. destruct (Hww eq_refl) as [_ [?|?]]; [|done]. auto.
      * done.
    + at_cases handled. intros e' _. left. lia.
  - done.
  - destruct (worker_holds _) eqn:Hw; [done|]. injection Hs as <-. unfold worker_holds in Hw; cbn [worker] in Hw.
    split; cbn; try done; [by rewrite andb_true_r|by exists handled|intros ->; worker_waits].
  - injection Hs as <-. destruct wk; at_cases handled.
  - destruct (worker_holds _) eqn:Hw; [done|]. injection Hs as <-. unfold worker_holds in Hw; cbn [worker] in Hw.
    split; cbn; try done; [by rewrite andb_true_r|by exists handled|intros ->; worker_waits].
  - injection Hs as <-. at_cases handled. intros ->. by destruct (Hr eq_refl).
  - injection Hs as <-. destruct wk; at_cases handled.
  - destruct wk; try done. injection Hs as <-. split; cbn; try done. by exists handled.
  - done.
Qed.

Lemma spurious_ok w events t t' : threads_ok w events t -> spurious_wakeup t t' -> threads_ok w events t'.
Proof.
  intros [Hm Hb (handled & He & Hf) Hc Hcl Hr Hfin Hww Hpw] [[Hw ->]|(e & Hp & ->)]; threads_cases t; subst.
  - split; cbn; try done; [by exists handled|by intros ?%Hfin|].
    intros e' ->. by destruct (Hpw e' eq_refl) as [?|[? ?]]; auto.
  - at_cases handled.
Qed.

Lemma reachable_ok w events t : (0 < maxQueued)%nat -> reachable w events t -> threads_ok w events t.
Proof.
  intros Hmax Hr. unfold reachable in Hr.
  refine (rtc_ind_r (threads_ok w events) (threads_start w events) _ _ t Hr); [apply start_ok|].
  intros t1 t2 _ [[Hs|Hs]|Hs] Hok; [by eapply worker_step_ok|by eapply producer_step_ok|by eapply spurious_ok].
Qed.

(** ** Progress *)

(** Unless the producer is through, a thread can take a step. *)
Lemma threads_progress w events t :
  (0 < maxQueued)%nat -> threads_ok w events t -> producer t <> PFinished -> exists t', threads_step t t'.
Proof.
  intros Hmax [Hm Hb _ Hc Hcl Hr Hfin Hww Hpw] Hne. unfold threads_step.
  assert (worker_step t <> None \/ producer_step t <> None) as Hs.
  { threads_cases t. unfold worker_step, producer_step, worker_holds, producer_holds.
    cbn [queued closed failure inner worker producer todo].
    destruct wk as [| | | |e|e|].
    - destruct p; try (left; discriminate); right; [destruct (_ <? _)%nat|]; discriminate.
    - left. destruct q; discriminate.
    - destruct (Hww eq_refl) as [Hq Hcd]. right. destruct p as [|e|e|e|e| | | | | |]; try discriminate.
      + destruct td; discriminate.
      + destruct (_ <? _)%nat; discriminate.
      + destruct (Hpw e eq_refl) as [Hl|[? ?]]; [|done]. destruct Hq as [-> |?]; [simpl in Hl; lia|done].
      + cbn in Hc. subst c. by destruct Hcd.
      + by destruct Hne.
    - destruct p; try (left; discriminate); right; [destruct (_ <? _)%nat|]; discriminate.
    - left. discriminate.
    - left. destruct (handle_event (i, f) e). discriminate.
    - destruct (Hr eq_refl) as [Hcc _]. right. rewrite Hc in Hcc. destruct p; try done. }
  destruct Hs as [Hs|Hs].
  - destruct (worker_step t) as [t'|]; [|done]. exists t'. by left.
  - destruct (producer_step t) as [t'|]; [|done]. exists t'. by right.
Qed.

(** Every step that is not a spurious wake-up makes this smaller. *)
Definition worker_rank (a : WorkerAt) : nat :=
  match a with WNotify _ => 7 | WHandle _ => 4 | WLock | WWoken => 3 | WTest => 2 | WWait => 1 | WReturned => 0 end.
Definition producer_rank (a : ProducerAt) : nat :=
  match a with
  | PLock _ | PWoken _ => 19 | PTest _ => 18 | PWait _ => 17 | PNotify => 11
  | PIdle => 8 | PCloseLock => 7 | PClose => 6 | PCloseNotify => 5 | PJoin => 1 | PFinished => 0
  end.
Definition rank_of (t : Threads) : nat :=
  worker_rank (worker t) + 6 * length (queued t) + producer_rank (producer t) + 12 * length (todo t).

Lemma rank_decreases t t' : threads_step t t' -> (rank_of t' < rank_of t)%nat.
Proof.
  unfold rank_of. intros [Hs|Hs]; threads_cases t.
  - unfold worker_step in Hs. cbn [queued closed failure inner worker producer todo] in Hs.
    destruct wk; try done.
    + destruct (producer_holds _); [done|]. injection Hs as <-. cbn. lia.
    + destruct q; injection Hs as <-; cbn; [destruct c; cbn; lia|lia].
    + destruct (producer_holds _); [done|]. injection Hs as <-. cbn. lia.
    + injection Hs as <-. destruct p; cbn; lia.
    + destruct (handle_event _ _). injection Hs as <-. cbn. lia.
  - unfold producer_step in Hs. cbn [queued closed failure inner worker producer todo] in Hs.
    destruct p; try done.
    + destruct td; injection Hs as <-; cbn; lia.
    + destruct (worker_holds _); [done|]. injection Hs as <-. cbn. lia.
    + destruct (_ <? _)%nat; injection Hs as <-; cbn; rewrite ?length_app; cbn; lia.
    + destruct (worker_holds _); [done|]. injection Hs as <-. cbn. lia.
    + injection Hs as <-. destruct wk; cbn; lia.
    + destruct (worker_holds _); [done|]. injection Hs as <-. cbn. lia.
    + injection Hs as <-. cbn. lia.
    + injection Hs as <-. destruct wk; cbn; lia.
    + destruct wk; try done. injection Hs as <-. cbn. lia.
Qed.

(** From wherever they are, the threads can run to the end, and whenever the
    producer is through, the events have been handled in order. *)
Lemma threads_finish w events t :
  (0 < maxQueued)%nat -> threads_ok w events t ->
  exists t', rtc threads_step t t' /\ producer t' = PFinished /\ threads_ok w events t'.
Proof.
  intros Hmax. induction t as [t IH] using (induction_ltof1 _ rank_of). unfold ltof in IH. intros Hok.
  destruct (producer t) eqn:Hp; try (
    destruct (threads_progress w events t Hmax Hok ltac:(by rewrite Hp)) as [t1 Ht1];
    destruct (IH t1) as (t2 & Hr & Hf & Hok2);
      [by apply rank_decreases
      |destruct Ht1 as [Ht1|Ht1]; [by eapply worker_step_ok|by eapply producer_step_ok]
      |exists t2; split; [by eapply rtc_l|done]]).
  by exists t.
Qed.

Lemma finished_result w events t :
  threads_ok w events t -> producer t = PFinished ->
  worker t = WReturned /\ queued t = [] /\ (inner t, failure t) = foldl handle_event (w, None) events.
Proof.
  intros [_ _ (handled & He & Hf) _ Hcl Hr Hfin _ _] Hp. pose proof (Hfin Hp) as Hw.
  destruct (Hr Hw) as [_ Hq]. split; [done|]. split; [done|]. rewrite Hf. f_equal.
  rewrite He. unfold worker_event, producer_event. rewrite Hw, Hq, Hp, (Hcl ltac:(unfold closing; by rewrite Hp)).
  by rewrite app_nil_r.
Qed.
End queue.

(** ** [AsyncHashSink] *)

Section AsyncHashSink.
Context `{L : HashLib}.

Definition maxQueued : nat := 64.

(** The thread: chunks are written to the inner sink. *)
Definition AsyncHashSink_threads (a : HashAlgorithm) (chunks : list bytes) : Threads :=
  threads_start (Ev := bytes) (W := HashSink) (HashSink_new a) chunks.
Definition AsyncHashSink_reachable (a : HashAlgorithm) (chunks : list bytes) : Threads -> Prop :=
  reachable (Ev := bytes) (W := HashSink) sink maxQueued (HashSink_new a) chunks.

(** [finish], once [close] has joined the worker. *)
Definition AsyncHashSink_finish (t : Threads (Ev := bytes) (W := HashSink)) : result HashResult :=
  match failure t with Some e => Throw e | None => HashSink_finish (inner t) end.

(** On a single-core machine the sink hashes inline. *)
Definition AsyncHashSink_inline (a : HashAlgorithm) (chunks : list bytes) : result HashResult :=
  h ← foreach sink (HashSink_new a) chunks; HashSink_finish h.

Context `{!HashLibLaws L}.

Lemma handle_chunks a chunks : forall h d,
  digests a h d -> exists h', foldl (handle_event (Ev := bytes) (W := HashSink) sink) (h, None) chunks = (h', None) /\ digests a h' (d ++ mjoin chunks).
Proof using L HashLibLaws0.
  induction chunks as [|c chunks IH]; intros h d Hd; cbn [foldl mjoin list_join].
  - exists h. by rewrite app_nil_r.
  - destruct (digests_sink a h d c Hd) as (h1 & Hs & Hd1). unfold handle_event at 2. cbn [fst snd]. rewrite Hs.
    destruct (IH h1 _ Hd1) as (h2 & -> & Hd2). exists h2. by rewrite app_assoc.
Qed.

Lemma AsyncHashSink_ok a chunks t :
  AsyncHashSink_reachable a chunks t ->
  (length (queued t) <= maxQueued)%nat /\
  (producer t <> PFinished -> exists t', threads_step sink maxQueued t t') /\
  (forall t', threads_step sink maxQueued t t' -> (rank_of t' < rank_of t)%nat) /\
  (producer t = PFinished ->
    AsyncHashSink_finish t = AsyncHashSink_inline a chunks /\
    AsyncHashSink_finish t = Ok (hash_result a (mjoin chunks))).
Proof using L HashLibLaws0.
  intros Hr. assert (0 < maxQueued)%nat as Hm by (unfold maxQueued; lia).
  pose proof (reachable_ok sink maxQueued _ _ t Hm Hr) as Hok.
  split; [apply Hok|]. split; [by apply threads_progress with (1 := Hm) (2 := Hok)|].
  split; [apply rank_decreases|]. intros Hp.
  destruct (finished_result _ _ _ _ t Hok Hp) as (_ & _ & Hf).
  destruct (handle_chunks a chunks _ _ (digests_new a)) as (h & Hh & Hd). rewrite Hh in Hf. injection Hf as Hi Hfl.
  unfold AsyncHashSink_inline. rewrite HashSink_stream. unfold AsyncHashSink_finish. rewrite Hfl, Hi.
  split; by apply digests_finish.
Qed.
End AsyncHashSink.

(** ** Properties *)

(** C15: Hashing on a thread gives what hashing inline gives, whatever the
    order the two threads run in and whatever wake-ups are spurious: the
    queue never holds more than 64 chunks; as long as [finish] has not
    returned, some thread can take a step, and every step other than a
    spurious wake-up makes a measure smaller, so there is no deadlock and no
    lost wake-up; and [finish] returns the hash and the length of all chunks
    in order. *)
Theorem AsyncHashSink_spec `{L : HashLib} `{!HashLibLaws L} a chunks t :
  AsyncHashSink_reachable a chunks t ->
  (length (queued t) <= 64)%nat /\
  (producer t <> PFinished -> exists t', threads_step sink 64 t t') /\
  (forall t', threads_step sink 64 t t' -> (rank_of t' < rank_of t)%nat) /\
  (producer t = PFinished ->
    AsyncHashSink_finish t = AsyncHashSink_inline a chunks /\
    AsyncHashSink_finish t = Ok (hash_result a (mjoin chunks))).
Proof. apply AsyncHashSink_ok. Qed.

(** A schedule: [true] is a step of the worker; a step of a blocked thread
    does nothing. *)
Fixpoint run_schedule `{L : HashLib} (schedule : list bool) (t : Threads (Ev := bytes) (W := HashSink)) : Threads :=
  match schedule with
  | [] => t
  | b :: schedule =>
      run_schedule schedule (default t (if b : bool then worker_step sink t else producer_step maxQueued t))
  end.

Lemma run_schedule_reachable `{L : HashLib} a chunks schedule t :
  AsyncHashSink_reachable a chunks t -> AsyncHashSink_reachable a chunks (run_schedule schedule t).
Proof.
  revert t. induction schedule as [|b schedule IH]; intros t Ht; [done|]. cbn [run_schedule]. apply IH.
  destruct b; [destruct (worker_step sink t) as [t'|] eqn:Hs|destruct (producer_step maxQueued t) as [t'|] eqn:Hs]; cbn; try done.
  - eapply rtc_r; [exact Ht|]. left. by left.
  - eapply rtc_r; [exact Ht|]. left. by right.
Qed.

(** The producer first and then the worker, in turns of seven and three. *)
Lemma AsyncHashSink_spec_witness :
  let schedule := mjoin (replicate 12 (replicate 7 false ++ replicate 3 true)) in
  let t := @run_schedule prefix_HashLib schedule (@AsyncHashSink_threads prefix_HashLib SHA256 [ #"ab"; #"c"; #"def"]) in
  producer t = PFinished /\ AsyncHashSink_finish t = Ok (@hash_result prefix_HashLib SHA256 #"abcdef").
Proof.
  intros schedule t. assert (producer t = PFinished) as Hp by (vm_compute; reflexivity). split; [exact Hp|].
  pose proof (@AsyncHashSink_spec prefix_HashLib prefix_HashLib_laws SHA256 [ #"ab"; #"c"; #"def"] t) as Hs.
  assert (@AsyncHashSink_reachable prefix_HashLib SHA256 [ #"ab"; #"c"; #"def"] t) as Hr
    by (apply run_schedule_reachable; apply rtc_refl).
  exact (proj2 (proj2 (proj2 (proj2 (Hs Hr))) Hp)).
Defined.
