(* ===== verification/References.v ===== *)
(** * References: rewriting and hashing modulo self-references

    libstore/references.cc and references.hh, and [rewriteStrings] of
    libutil/util.cc.  A [StringMap] is the list of its entries in key order.
    The specification of rewriting one string is [scan], which replaces its
    leftmost non-overlapping occurrences in one pass over the whole stream. *)

From S2P Require Export HashSink Decimal.
Local Open Scope Z_scope.

(** ** Rewriting a string *)

(** [s.replace(j, n, to)] *)
Definition replace (s : bytes) (j n : nat) (to : bytes) : bytes := take j s ++ to ++ drop (j + n) s.

(** The inner loop; [None]: more than [fuel] iterations. *)
Fixpoint rewrite_loop (fuel : nat) (from to : bytes) (offsetShift : Z) (s : bytes) (matches : gset Z) (j : nat)
    : option (bytes * gset Z) :=
  match fuel with
  | O => None
  | S fuel =>
      match find_sub from s j with
      | None => Some (s, matches)
      | Some j =>
          rewrite_loop fuel from to offsetShift (replace s j (length from) to)
            ({[ u64 (Z.of_nat j + offsetShift) ]} ∪ matches) j
      end
  end.

Fixpoint rewriteStrings (fuel : nat) (s : bytes) (rewrites : list (bytes * bytes)) (matches : gset Z) (offsetShift : Z)
    : option (bytes * gset Z) :=
  match rewrites with
  | [] => Some (s, matches)
  | (from, to) :: rewrites =>
      if bool_decide (from = to) then rewriteStrings fuel s rewrites matches offsetShift
      else
        '(s, matches) ← rewrite_loop fuel from to offsetShift s matches 0;
        rewriteStrings fuel s rewrites matches offsetShift
  end.

(** ** [RewritingSink] *)

Record RewritingSink (T : Type) := mkRewritingSink
  { rewrites : list (bytes * bytes); maxRewriteSize : nat; prev : bytes; nextSink : T; pos : Z; matches : gset Z }.
Arguments mkRewritingSink {T}.
Arguments rewrites {T}.
Arguments maxRewriteSize {T}.
Arguments prev {T}.
Arguments nextSink {T}.
Arguments pos {T}.
Arguments matches {T}.

Definition RewritingSink_new {T} (rw : list (bytes * bytes)) (next : T) : result (RewritingSink T) :=
  n ← foreach (fun n '(from, to) => _ ← assertb (length from =? length to)%nat; Ok (n `max` length from)%nat) O rw;
  Ok (mkRewritingSink rw n [] next 0 ∅).

(** The fuel is enough for the rewrites the constructor accepts
    ([rewriteStrings_terminates]). *)
#[export] Instance RewritingSink_sink `{Sink T} : Sink (RewritingSink T) := fun t data =>
  let s := prev t ++ data in
  '(s, ms) ← from_opt AssertFailed (rewriteStrings (S (S (length s))) s (rewrites t) (matches t) (pos t));
  let prev' := if (length s <? maxRewriteSize t)%nat then s
               else if (maxRewriteSize t =? 0)%nat then []
               else take (maxRewriteSize t - 1) (drop (length s - maxRewriteSize t + 1) s) in
  let consumed := (length s - length prev')%nat in
  let pos' := u64 (pos t + Z.of_nat consumed) in
  next ← (if (consumed =? 0)%nat then Ok (nextSink t) else sink (nextSink t) (take consumed s));
  Ok (mkRewritingSink (rewrites t) (maxRewriteSize t) prev' next pos' ms).

Definition RewritingSink_flush `{Sink T} (t : RewritingSink T) : result (RewritingSink T) :=
  if bool_decide (prev t = []) then Ok t
  else
    let pos' := u64 (pos t + Z.of_nat (length (prev t))) in
    next ← sink (nextSink t) (prev t);
    Ok (mkRewritingSink (rewrites t) (maxRewriteSize t) [] next pos' (matches t)).

(** ** [HashModuloSink] *)

(** A [std::set<uint64_t>] in iteration order. *)
Definition positions_iter (X : gset Z) : list Z := merge_sort Z.le (elements X).

Section modulo.
Context `{L : HashLib}.

(** [rewritingSink] writes to [hashSink], which is its [nextSink] here. *)
Definition HashModuloSink : Type := RewritingSink HashSink.

Definition HashModuloSink_new (a : HashAlgorithm) (modulus : bytes) : result HashModuloSink :=
  RewritingSink_new [(modulus, replicate (length modulus) (bZ 0))] (HashSink_new a).

Definition HashModuloSink_finish (t : HashModuloSink) : result HashResult :=
  t ← RewritingSink_flush t;
  h ← foreach (fun h p => sink h (#"|" ++ dec p)) (nextSink t) (positions_iter (matches t));
  r ← HashSink_finish h;
  Ok (mkHashResult (hr_hash r) (pos t)).
End modulo.

(** ** The specification *)

(** [s] with the leftmost non-overlapping occurrences of [from] replaced,
    and their positions; [k] more bytes belong to the occurrence before and
    [p] is the position of [s]. *)
Fixpoint scan (from to : bytes) (k : nat) (p : Z) (s : bytes) : bytes * list Z :=
  match s with
  | [] => ([], [])
  | c :: s' =>
      match k with
      | S k => scan from to k (p + 1) s'
      | O =>
          if hasPrefix s from then
            let '(r, ms) := scan from to (length from - 1) (p + 1) s' in (to ++ r, p :: ms)
          else let '(r, ms) := scan from to 0 (p + 1) s' in (c :: r, ms)
      end
  end.

(** ** Searching *)

Lemma find_sub_from_skip pat s p k : (k <= length s)%nat -> find_sub_from pat s p k = find_sub_from pat (drop k s) (p + k) 0.
Proof.
  revert s p; induction k as [|k IH]; intros s p Hk; [by rewrite Nat.add_0_r, drop_0|].
  destruct s as [|c s]; [simpl in Hk; lia|]. simpl in Hk. cbn [find_sub_from drop]. rewrite IH by lia. f_equal; lia.
Qed.

Lemma find_sub_from_Some pat s p i :
  find_sub_from pat s p 0 = Some i ->
  exists u v, s = u ++ pat ++ v /\ i = (p + length u)%nat /\
    (forall k, (k < length u)%nat -> hasPrefix (drop k s) pat = false).
Proof.
  revert p; induction s as [|c s IH]; intros p; cbn [find_sub_from].
  - destruct (hasPrefix [] pat) eqn:Hp; [|done]. intros [= <-].
    apply hasPrefix_true in Hp as [v Hv]. exists [], v. split; [done|]. split; [simpl; lia|]. simpl; lia.
  - destruct (hasPrefix (c :: s) pat) eqn:Hp.
    + intros [= <-]. apply hasPrefix_true in Hp as [v Hv]. exists [], v. split; [done|]. split; simpl; lia.
    + intros (u & v & -> & -> & Hk)%IH. exists (c :: u), v. split; [done|]. split; [simpl; lia|].
      intros [|k] Hlt; [done|]. apply Hk. simpl in Hlt. lia.
Qed.

Lemma find_sub_from_None pat s p : find_sub_from pat s p 0 = None -> forall k, hasPrefix (drop k s) pat = false.
Proof.
  revert p; induction s as [|c s IH]; intros p; cbn [find_sub_from].
  - destruct (hasPrefix [] pat) eqn:Hp; [done|]. intros _ k. by rewrite drop_nil.
  - destruct (hasPrefix (c :: s) pat) eqn:Hp; [done|]. intros Hn [|k]; [done|]. by apply (IH (S p)).
Qed.

(** ** Rewriting one string by another that it shares no character with *)

Section rewrite.
Context (from to : bytes).
Context (from_nil : from <> []) (len_to : length to = length from) (disjoint : forall c, c ∈ from -> c ∉ to).

Lemma from_length : (0 < length from)%nat.
Proof using from_nil. clear -from_nil. destruct from; [done|simpl; lia]. Qed.

Lemma prefix_clean c s : c ∈ to -> hasPrefix (c :: s) from = false.
Proof using from_nil len_to disjoint.
  intros Hc. apply not_true_is_false. intros [r Hr]%hasPrefix_true. destruct from as [|c0 f]; [done|].
  injection Hr as -> _. by apply (disjoint c0); [left|].
Qed.

(** Nothing is found in a replacement. *)
Lemma find_clean mid rest p :
  (forall c, c ∈ mid -> c ∈ to) -> find_sub_from from (mid ++ rest) p 0 = find_sub_from from rest (p + length mid) 0.
Proof using from_nil len_to disjoint.
  revert p; induction mid as [|c mid IH]; intros p Hm; [by rewrite Nat.add_0_r|].
  cbn [app find_sub_from length]. rewrite prefix_clean by (apply Hm; left).
  rewrite IH by (intros; apply Hm; by right). f_equal; lia.
Qed.

Lemma scan_skip k p s : (k <= length s)%nat -> scan from to k p s = scan from to 0 (p + Z.of_nat k) (drop k s).
Proof using from_nil len_to disjoint.
  revert p s; induction k as [|k IH]; intros p s Hk.
  - rewrite drop_0. f_equal. lia.
  - destruct s as [|c s]; [simpl in Hk; lia|]. simpl in Hk. cbn [scan drop]. rewrite IH by lia. f_equal. lia.
Qed.

Lemma scan_hit p v :
  scan from to 0 p (from ++ v) =
  let '(r, ms) := scan from to 0 (p + Z.of_nat (length from)) v in (to ++ r, p :: ms).
Proof using from_nil len_to disjoint.
  pose proof from_length as Hn. pose proof (hasPrefix_app from v) as Hp.
  destruct (from ++ v) as [|c s] eqn:He; [destruct from; [done|done]|]. cbn [scan]. rewrite Hp.
  assert (drop (length from - 1) s = v) as Hd.
  { assert (drop (length from) (c :: s) = v) as Hd by (rewrite <- He; by apply drop_app_length).
    destruct (length from) as [|n] eqn:Hl; [lia|]. cbn [drop] in Hd. by replace (S n - 1)%nat with n by lia. }
  rewrite scan_skip.
  - rewrite Hd. by replace (p + 1 + Z.of_nat (length from - 1)) with (p + Z.of_nat (length from)) by lia.
  - apply (f_equal length) in He. rewrite length_app in He. simpl in He. lia.
Qed.

Lemma scan_miss p u s :
  (forall k, (k < length u)%nat -> hasPrefix (drop k (u ++ s)) from = false) ->
  scan from to 0 p (u ++ s) = let '(r, ms) := scan from to 0 (p + Z.of_nat (length u)) s in (u ++ r, ms).
Proof using from_nil len_to disjoint.
  revert p; induction u as [|c u IH]; intros p Hk.
  - cbn [app length]. rewrite Z.add_0_r. by destruct (scan from to 0 p s).
  - pose proof (Hk O ltac:(simpl; lia)) as H0. cbn [drop app] in H0. cbn [app scan]. rewrite H0. rewrite IH by (intros k Hlt; apply (Hk (S k)); simpl; lia).
    cbn [length]. replace (p + 1 + Z.of_nat (length u)) with (p + Z.of_nat (S (length u))) by lia.
    by destruct (scan from to 0 _ s).
Qed.

Lemma scan_none p s : (forall k, hasPrefix (drop k s) from = false) -> scan from to 0 p s = (s, []).
Proof using from_nil len_to disjoint.
  intros Hk. pose proof (scan_miss p s []) as Hs. rewrite app_nil_r in Hs. rewrite Hs by auto. cbn.
  by rewrite app_nil_r.
Qed.

(** The loop computes the scan of what is behind the position it searches
    from; just behind it there may be a replacement. *)
Lemma rewrite_loop_scan fuel shift before mid rest ms :
  (length rest < fuel)%nat -> (forall c, c ∈ mid -> c ∈ to) ->
  let '(r, ps) := scan from to 0 (Z.of_nat (length (before ++ mid)) + shift) rest in
  rewrite_loop fuel from to shift (before ++ mid ++ rest) ms (length before) =
    Some (before ++ mid ++ r, list_to_set (u64 <$> ps) ∪ ms).
Proof using from_nil len_to disjoint.
  revert before mid rest ms. induction fuel as [|fuel IH]; intros before mid rest ms Hf Hm; [lia|].
  pose proof from_length as Hn. cbn [rewrite_loop]. unfold find_sub.
  rewrite find_sub_from_skip, drop_app_length, find_clean by (done || rewrite length_app; lia).
  cbn [Nat.add]. destruct (find_sub_from _ rest _ 0) as [i|] eqn:Hfind.
  - apply find_sub_from_Some in Hfind as (u & v & -> & -> & Hk).
    rewrite scan_miss by done. rewrite scan_hit.
    specialize (IH (before ++ mid ++ u) to v
      ({[u64 (Z.of_nat (length before + length mid + length u) + shift)]} ∪ ms)).
    rewrite !length_app in Hf. specialize (IH ltac:(lia) ltac:(done)).
    replace (Z.of_nat (length (before ++ mid)) + shift + Z.of_nat (length u) + Z.of_nat (length from))
      with (Z.of_nat (length ((before ++ mid ++ u) ++ to)) + shift) by (rewrite !length_app; lia).
    destruct (scan from to 0 _ v) as [r ps]. rewrite !length_app in IH.
    assert (replace (before ++ mid ++ u ++ from ++ v) (length before + length mid + length u) (length from) to
            = (before ++ mid ++ u) ++ to ++ v) as ->.
    { unfold replace. rewrite !app_assoc. rewrite <- (app_assoc ((before ++ mid) ++ u)).
      rewrite take_app_length' by (rewrite !length_app; lia).
      rewrite drop_app_ge by (rewrite !length_app; lia). f_equal.
      rewrite !length_app.
      replace (_ - _)%nat with (length from) by lia. by rewrite drop_app_length. }
    rewrite Nat.add_assoc in IH. rewrite IH. rewrite <- !app_assoc. f_equal. f_equal.
    rewrite fmap_cons, list_to_set_cons. rewrite !length_app.
    replace (Z.of_nat (length before + length mid) + shift + Z.of_nat (length u))
      with (Z.of_nat (length before + length mid + length u) + shift) by lia.
    set_solver.
  - rewrite scan_none by (by eapply find_sub_from_None). f_equal. f_equal. cbn. set_solver.
Qed.

Lemma rewriteStrings_scan s ms p :
  let '(r, ps) := scan from to 0 p s in
  rewriteStrings (S (S (length s))) s [(from, to)] ms p = Some (r, list_to_set (u64 <$> ps) ∪ ms).
Proof using from_nil len_to disjoint.
  cbn [rewriteStrings]. rewrite bool_decide_eq_false_2.
  - pose proof (rewrite_loop_scan (S (S (length s))) p [] [] s ms ltac:(lia) ltac:(set_solver)) as Hl.
    cbn [app length] in Hl. replace (Z.of_nat 0 + p) with p in Hl by lia.
    destruct (scan from to 0 p s) as [r ps]. by rewrite Hl.
  - intros He. destruct from as [|c f]; [done|]. apply (disjoint c); [left|]. rewrite <- He. left.
Qed.

(** ** In pieces *)

Lemma prefix_scan_suffix g s data k p :
  (forall c, c ∈ g -> c ∉ to) -> k = O -> hasPrefix ((scan from to k p s).1 ++ data) g = true ->
  hasPrefix (s ++ data) g = true.
Proof using from_nil len_to disjoint.
  intros Hg ->. revert g p Hg. induction s as [|c s IH]; intros g p Hg; [done|]. cbn [scan].
  destruct g as [|x g]; [intros _; apply hasPrefix_true; by eexists|].
  destruct (hasPrefix (c :: s) from).
  - destruct (scan from to (length from - 1) (p + 1) s) as [r ms]; cbn [fst]. intros [v Hv]%hasPrefix_true.
    pose proof from_length. destruct to as [|t0 t]; [simpl in *; lia|]. cbn in Hv. injection Hv as -> _.
    exfalso. apply (Hg x); left.
  - specialize (IH g (p + 1) ltac:(intros; apply Hg; by right)).
    destruct (scan from to 0 (p + 1) s) as [r ms]; cbn [fst] in *. intros [v Hv]%hasPrefix_true.
    cbn in Hv. injection Hv as -> Hv. cbn [app]. apply hasPrefix_true.
    destruct (proj1 (hasPrefix_true _ _) (IH (proj2 (hasPrefix_true _ _) (ex_intro _ v Hv)))) as [v' Hv'].
    exists v'. by rewrite Hv'.
Qed.

(** What has been rewritten can be rewritten again together with what
    follows: no replacement is touched and nothing is lost. *)
Lemma scan_app_aux n s data p :
  (length s <= n)%nat ->
  let '(r, ms) := scan from to 0 p s in
  let '(r1, ms1) := scan from to 0 p (s ++ data) in
  let '(r2, ms2) := scan from to 0 p (r ++ data) in
  r1 = r2 /\ ms1 = ms ++ ms2 /\ length r = length s.
Proof using from_nil len_to disjoint.
  pose proof from_length as Hn. revert s p. induction n as [|n IH]; intros s p Hl.
  { destruct s; [|simpl in Hl; lia]. cbn. by destruct (scan from to 0 p data). }
  destruct s as [|c s]; [cbn; by destruct (scan from to 0 p data)|].
  destruct (hasPrefix (c :: s) from) eqn:Hp.
  - apply hasPrefix_true in Hp as [v Hv]. rewrite Hv in Hl |- *. rewrite length_app in Hl.
    rewrite <- app_assoc, !scan_hit. specialize (IH v (p + Z.of_nat (length from)) ltac:(lia)).
    destruct (scan from to 0 (p + Z.of_nat (length from)) v) as [r ms].
    destruct (scan from to 0 (p + Z.of_nat (length from)) (v ++ data)) as [r1 ms1].
    rewrite <- app_assoc. rewrite scan_miss.
    + rewrite len_to. destruct (scan from to 0 (p + Z.of_nat (length from)) (r ++ data)) as [r2 ms2].
      destruct IH as (-> & -> & Hr). rewrite !length_app, len_to, Hr. done.
    + intros k Hk. destruct (lookup_lt_is_Some_2 to k Hk) as [x Hx].
      rewrite drop_app_le by lia. rewrite (drop_S _ _ _ Hx). apply prefix_clean. by eapply list_elem_of_lookup_2.
  - simpl in Hl. specialize (IH s (p + 1) ltac:(lia)).
    destruct (hasPrefix (c :: s ++ data) from) eqn:Hp2.
    + (* the occurrence needs bytes of [data]: nothing of [s] was rewritten *)
      assert (scan from to 0 p (c :: s) = (c :: s, [])) as ->.
      { apply scan_none. intros k. apply not_true_is_false. intros [v Hv]%hasPrefix_true.
        apply not_true_iff_false in Hp. apply Hp. apply hasPrefix_true in Hp2 as [v2 Hv2].
        assert (length from <= length (c :: s))%nat.
        { apply (f_equal length) in Hv. rewrite length_drop, length_app in Hv. lia. }
        apply hasPrefix_true. exists (drop (length from) (c :: s)).
        assert (take (length from) (c :: s) = from) as Ht.
        { rewrite <- (take_app_le (c :: s) data) by done. cbn [app]. by rewrite Hv2, take_app_length. }
        by rewrite <- Ht at 1; rewrite take_drop. }
      destruct (scan from to 0 p ((c :: s) ++ data)) as [r1 ms1]. done.
    + cbn [scan app]. rewrite Hp, Hp2.
      pose proof (prefix_scan_suffix (drop 1 from) s data 0 (p + 1)) as Hsuf.
      destruct (scan from to 0 (p + 1) s) as [r ms].
      destruct (scan from to 0 (p + 1) (s ++ data)) as [r1 ms1]. cbn [app fst] in *.
      assert (hasPrefix (c :: r ++ data) from = false) as Hp3.
      { apply not_true_is_false. intros [v Hv]%hasPrefix_true. apply not_true_iff_false in Hp2. apply Hp2.
        destruct from as [|x f]; [done|]. cbn in Hv. injection Hv as -> Hv. cbn [drop] in Hsuf.
        destruct (proj1 (hasPrefix_true _ _) (Hsuf ltac:(intros; apply disjoint; by right) eq_refl
          (proj2 (hasPrefix_true _ _) (ex_intro _ v Hv)))) as [v' Hv'].
        apply hasPrefix_true. exists v'. cbn. by rewrite Hv'. }
      cbn [scan]. rewrite Hp3. destruct (scan from to 0 (p + 1) (r ++ data)) as [r2 ms2].
      destruct IH as (-> & -> & Hr). cbn [length]. by rewrite Hr.
Qed.

Lemma scan_app s data p :
  scan from to 0 p (s ++ data) =
  (let '(r, ms) := scan from to 0 p s in let '(r2, ms2) := scan from to 0 p (r ++ data) in (r2, ms ++ ms2)).
Proof using from_nil len_to disjoint.
  pose proof (scan_app_aux (length s) s data p ltac:(lia)) as Ha.
  destruct (scan from to 0 p s) as [r ms], (scan from to 0 p (s ++ data)), (scan from to 0 p (r ++ data)).
  by destruct Ha as (-> & -> & _).
Qed.

Lemma length_scan s p : length (scan from to 0 p s).1 = length s.
Proof using from_nil len_to disjoint.
  pose proof (scan_app_aux (length s) s [] p ltac:(lia)) as Ha.
  destruct (scan from to 0 p s) as [r ms], (scan from to 0 p (s ++ [])), (scan from to 0 p (r ++ [])).
  by destruct Ha as (_ & _ & ?).
Qed.

Lemma scan_again s p : scan from to 0 p (scan from to 0 p s).1 = ((scan from to 0 p s).1, []).
Proof using from_nil len_to disjoint.
  pose proof (scan_app s [] p) as Ha. rewrite app_nil_r in Ha.
  destruct (scan from to 0 p s) as [r ms]. cbn [fst]. rewrite app_nil_r in Ha.
  destruct (scan from to 0 p r) as [r2 ms2]. injection Ha as <- Hm.
  apply (f_equal length) in Hm. rewrite length_app in Hm. destruct ms2; [done|]. exfalso. cbn in Hm. lia.
Qed.

(** Once rewritten, all but the last [length from - 1] bytes are final. *)
Lemma scan_final w t data p :
  scan from to 0 p (w ++ t) = (w ++ t, []) -> (w <> [] -> length from - 1 <= length t)%nat ->
  scan from to 0 p (w ++ t ++ data) =
  (let '(r, ms) := scan from to 0 (p + Z.of_nat (length w)) (t ++ data) in (w ++ r, ms)).
Proof using from_nil len_to disjoint.
  intros Hs Ht. apply scan_miss. intros k Hk. specialize (Ht ltac:(destruct w; [simpl in Hk; lia|done])).
  apply not_true_is_false. intros [v Hv]%hasPrefix_true.
  assert (hasPrefix (drop k (w ++ t)) from = true) as Hp.
  { apply hasPrefix_true. exists (drop (length from) (drop k (w ++ t))).
    assert (take (length from) (drop k (w ++ t)) = from) as Htk.
    { rewrite <- (take_app_le (drop k (w ++ t)) data) by (rewrite length_drop, length_app; lia).
      rewrite <- drop_app_le by (rewrite length_app; lia). rewrite <- app_assoc, Hv. apply take_app_length. }
    by rewrite <- Htk at 1; rewrite take_drop. }
  clear -Hs Hp from_nil len_to disjoint. revert k p Hs Hp. induction (w ++ t) as [|c x IH]; intros k p Hs Hp.
  - rewrite drop_nil in Hp. apply hasPrefix_true in Hp as [v Hv]. by destruct from.
  - cbn [scan] in Hs. destruct (hasPrefix (c :: x) from) eqn:Hc.
    + by destruct (scan from to (length from - 1) (p + 1) x).
    + destruct k as [|k]; [cbn in Hp; congruence|]. specialize (IH k (p + 1)).
      destruct (scan from to 0 (p + 1) x) as [r ms]. injection Hs as -> ->. auto.
Qed.

(** Where the scan finds nothing, there is nothing. *)
Lemma scan_nowhere s p j : (scan from to 0 p s).2 = [] -> find_sub from s j = None.
Proof using from_nil len_to disjoint.
  intros Hs. unfold find_sub. destruct (find_sub_from from s 0 j) as [i|] eqn:Hfind; [|done]. exfalso.
  destruct (decide (j <= length s)%nat) as [Hj|Hj].
  - rewrite find_sub_from_skip in Hfind by done. apply find_sub_from_Some in Hfind as (u & v & Hv & _).
    rewrite <- (take_drop j s), Hv, app_assoc in Hs. revert Hs. generalize (take j s ++ u). intros x. revert p.
    induction x as [|c x IH]; intros p.
    + cbn [app]. rewrite scan_hit. by destruct (scan from to 0 _ v).
    + cbn [app scan]. destruct (hasPrefix (c :: x ++ from ++ v) from).
      * by destruct (scan from to (length from - 1) (p + 1) _).
      * specialize (IH (p + 1)). destruct (scan from to 0 (p + 1) _). done.
  - assert (forall k (y : bytes) q, (length y < k)%nat -> find_sub_from from y q k = None) as Hnone.
    { induction k as [|k IH]; intros y q Hk; [lia|]. destruct y as [|c y]; [done|]. cbn [find_sub_from].
      apply IH. simpl in Hk. lia. }
    rewrite Hnone in Hfind by lia. done.
Qed.

Lemma scan_mod k p q s :
  u64 p = u64 q ->
  (scan from to k p s).1 = (scan from to k q s).1 /\ u64 <$> (scan from to k p s).2 = u64 <$> (scan from to k q s).2.
Proof using Type.
  clear from_nil len_to disjoint. revert k p q. induction s as [|c s IH]; intros k p q Hpq; [done|].
  assert (u64 (p + 1) = u64 (q + 1)) as Hs.
  { unfold u64 in *. rewrite Z.add_mod, Hpq, <- Z.add_mod by lia. done. }
  cbn [scan]. destruct k as [|k]; [|by apply IH].
  destruct (hasPrefix (c :: s) from).
  - specialize (IH (length from - 1)%nat _ _ Hs).
    destruct (scan from to _ (p + 1) s), (scan from to _ (q + 1) s). cbn in IH |- *. destruct IH as [-> ->]. by rewrite Hpq.
  - specialize (IH O _ _ Hs).
    destruct (scan from to _ (p + 1) s), (scan from to _ (q + 1) s). cbn in IH |- *. by destruct IH as [-> ->].
Qed.

(** The sink behind keeps [rep] of what it has received. *)
Section stream.
Context {T : Type} `{Sink T} (rep : T -> bytes -> Prop).
Context (rep_sink : forall t d e, rep t d -> exists t', sink t e = Ok t' /\ rep t' (d ++ e)).

(** What a sink that has been written [D] has passed on, and what it keeps. *)
Definition rewriting (t : RewritingSink T) (D : bytes) : Prop :=
  rewrites t = [(from, to)] /\ maxRewriteSize t = length from /\
  length (prev t) = (length D `min` (length from - 1))%nat /\
  exists w, rep (nextSink t) w /\ w ++ prev t = (scan from to 0 0 D).1 /\
    pos t = u64 (Z.of_nat (length w)) /\ matches t = list_to_set (u64 <$> (scan from to 0 0 D).2).

Lemma rewriting_new next : rep next [] -> exists t, RewritingSink_new [(from, to)] next = Ok t /\ rewriting t [].
Proof using from_nil len_to disjoint.
  intros Hr. unfold RewritingSink_new. cbn [foreach]. rewrite (proj2 (Nat.eqb_eq _ _)) by done. cbn.
  eexists. split; [done|]. repeat split. exists []. done.
Qed.

(** The part of a rewritten piece that is kept back. *)
Lemma kept_back (s : bytes) :
  let kept := if (length s <? length from)%nat then s
              else if (length from =? 0)%nat then []
              else take (length from - 1) (drop (length s - length from + 1) s) in
  take (length s - length kept) s ++ kept = s /\ length kept = (length s `min` (length from - 1))%nat.
Proof using from_nil len_to disjoint.
  pose proof from_length as Hn. cbv zeta. destruct (Nat.ltb_spec (length s) (length from)) as [Hl|Hl].
  - rewrite Nat.sub_diag. split; [done|lia].
  - rewrite (proj2 (Nat.eqb_neq _ _)) by lia. rewrite (take_ge (drop _ s)) by (rewrite length_drop; lia).
    rewrite length_drop. split; [|lia].
    replace (length s - (length s - (length s - length from + 1)))%nat with (length s - length from + 1)%nat by lia.
    apply take_drop.
Qed.

Lemma rewriting_sink t D data : rewriting t D -> exists t', sink t data = Ok t' /\ rewriting t' (D ++ data).
Proof using from_nil len_to disjoint rep_sink.
  intros (Hrw & Hmax & Hlen & w & Hw & He & Hpos & Hms).
  pose proof (length_scan D 0) as HlD. rewrite <- He, length_app in HlD.
  pose proof (scan_again D 0) as Hag. rewrite <- He in Hag.
  pose proof (scan_final w (prev t) data 0 Hag) as Hfin.
  assert (w <> [] -> length from - 1 <= length (prev t))%nat as Hpre by (destruct w; [done|simpl in HlD; lia]).
  specialize (Hfin Hpre). cbn [Z.add] in Hfin.
  assert (scan from to 0 0 (D ++ data) =
    let '(r, ms) := scan from to 0 (Z.of_nat (length w)) (prev t ++ data) in (w ++ r, (scan from to 0 0 D).2 ++ ms)) as Hall.
  { rewrite scan_app. destruct (scan from to 0 0 D) as [r ms]. cbn [fst snd] in *. subst r.
    rewrite <- app_assoc, Hfin. by destruct (scan from to 0 _ (prev t ++ data)). }
  pose proof (scan_mod 0 (pos t) (Z.of_nat (length w)) (prev t ++ data)
    ltac:(rewrite Hpos; unfold u64; by rewrite Zmod_mod)) as [Hm1 Hm2].
  pose proof (rewriteStrings_scan (prev t ++ data) (matches t) (pos t)) as Hrs.
  pose proof (length_scan (prev t ++ data) (Z.of_nat (length w))) as Hlr.
  unfold sink at 1, RewritingSink_sink. rewrite Hrw, Hmax.
  destruct (scan from to 0 (pos t) (prev t ++ data)) as [r0 ps0].
  destruct (scan from to 0 (Z.of_nat (length w)) (prev t ++ data)) as [r ps]. cbn [fst snd] in *. subst r0.
  rewrite Hrs. cbn [from_opt mbind result_bind].
  destruct (kept_back r) as [Hk1 Hk2]. set (kept := if (length r <? _)%nat then _ else _) in *.
  assert (length kept = (length (D ++ data) `min` (length from - 1))%nat) as Hkl
    by (rewrite Hk2, Hlr, !length_app; lia).
  assert (length kept <= length r)%nat as Hle by lia.
  destruct (rep_sink (nextSink t) w (take (length r - length kept) r) Hw) as (t' & Hs & Hw').
  assert (exists next, (if (length r - length kept =? 0)%nat then Ok (nextSink t) else sink (nextSink t)
     (take (length r - length kept) r)) = Ok next /\ rep next (w ++ take (length r - length kept) r)) as (next & -> & Hn').
  { destruct (Nat.eqb_spec (length r - length kept) 0) as [Hz|Hz]; [|by eauto].
    exists (nextSink t). split; [done|]. rewrite Hz. cbn [take]. by rewrite app_nil_r. }
  cbn [mbind result_bind]. eexists. split; [done|]. split; [done|]. split; [done|]. split; [done|].
  exists (w ++ take (length r - length kept) r). cbn [nextSink prev pos matches]. split; [done|].
  rewrite Hall. cbn [fst snd]. rewrite <- app_assoc, Hk1. split; [done|]. split.
  - rewrite Hpos, length_app, length_take. unfold u64. rewrite Zplus_mod_idemp_l. f_equal. lia.
  - rewrite fmap_app, list_to_set_app_L, Hms, Hm2. set_solver.
Qed.

Lemma rewriting_sinks t D pieces :
  rewriting t D -> exists t', foreach sink t pieces = Ok t' /\ rewriting t' (D ++ mjoin pieces).
Proof using from_nil len_to disjoint rep_sink.
  revert t D. induction pieces as [|x l IH]; intros t D Ht; cbn [foreach mjoin list_join].
  - exists t. by rewrite app_nil_r.
  - destruct (rewriting_sink t D x Ht) as (t1 & Hs & Ht1). rewrite Hs. cbn [mbind result_bind]. destruct (IH t1 _ Ht1) as (t2 & -> & Ht2). exists t2. by rewrite app_assoc.
Qed.

Lemma rewriting_flush t D :
  rewriting t D ->
  exists t', RewritingSink_flush t = Ok t' /\ rep (nextSink t') (scan from to 0 0 D).1 /\
    pos t' = u64 (Z.of_nat (length D)) /\ matches t' = list_to_set (u64 <$> (scan from to 0 0 D).2).
Proof using from_nil len_to disjoint rep_sink.
  intros (Hrw & Hmax & Hlen & w & Hw & He & Hpos & Hms). unfold RewritingSink_flush.
  pose proof (length_scan D 0) as HlD. rewrite <- He, length_app in HlD. case_bool_decide as Hp.
  - exists t. rewrite Hp, app_nil_r in He. subst w. rewrite Hp in HlD. cbn in HlD. rewrite Nat.add_0_r in HlD.
    rewrite HlD in Hpos. done.
  - destruct (rep_sink (nextSink t) w (prev t) Hw) as (n' & -> & Hn'). cbn [mbind result_bind].
    eexists. split; [done|]. cbn [nextSink pos matches]. rewrite He in Hn'. split; [done|]. split; [|done].
    rewrite Hpos, <- HlD. unfold u64. rewrite Zplus_mod_idemp_l. f_equal. lia.
Qed.
End stream.
End rewrite.

(** ** Positions *)

Lemma scan_positions from to k p s :
  Forall (fun q => p <= q < p + Z.of_nat (length s)) (scan from to k p s).2 /\ StronglySorted Z.lt (scan from to k p s).2.
Proof.
  revert k p. induction s as [|c s IH]; intros k p; [split; constructor|]. cbn [scan length].
  assert (forall k, Forall (fun q => p + 1 <= q < p + Z.of_nat (S (length s))) (scan from to k (p + 1) s).2 /\
                    StronglySorted Z.lt (scan from to k (p + 1) s).2) as Hs.
  { intros k'. destruct (IH k' (p + 1)) as [H1 H2]. split; [|done]. eapply Forall_impl; [done|]. cbn. lia. }
  destruct k as [|k]; [|destruct (Hs k) as [H1 H2]; split; [eapply Forall_impl; [done|]; cbn; lia|done]].
  destruct (hasPrefix (c :: s) from).
  - destruct (Hs (length from - 1)%nat) as [H1 H2]. destruct (scan from to _ (p + 1) s) as [r ms]. cbn in *. split.
    + constructor; [lia|]. eapply Forall_impl; [done|]. cbn. lia.
    + constructor; [done|]. eapply Forall_impl; [done|]. cbn. lia.
  - destruct (Hs 0%nat) as [H1 H2]. destruct (scan from to _ (p + 1) s) as [r ms]. cbn in *. split; [|done].
    eapply Forall_impl; [done|]. cbn. lia.
Qed.

(** Iterating over the set of the positions gives them in their order. *)
Lemma positions_iter_sorted ps : StronglySorted Z.lt ps -> positions_iter (list_to_set ps) = ps.
Proof.
  intros Hs. apply (Sorted_unique Z.le); [apply Sorted_merge_sort; intros ? ?; lia| |].
  - apply StronglySorted_Sorted. clear -Hs. induction Hs as [|x l Hs IH Hx]; constructor; [done|].
    eapply Forall_impl; [done|]. cbn. lia.
  - unfold positions_iter. rewrite merge_sort_Permutation. apply elements_list_to_set.
    clear -Hs. induction Hs as [|x l Hs IH Hx]; constructor; [|done].
    rewrite Forall_forall in Hx. intros Hin%Hx. lia.
Qed.

Lemma fmap_u64_small ps (n : Z) : Forall (fun q => 0 <= q < n) ps -> n <= 2 ^ 64 -> u64 <$> ps = ps.
Proof.
  intros Hp Hn. induction Hp as [|q ps Hq Hp IH]; [done|]. rewrite fmap_cons, IH, u64_small by lia. done.
Qed.

(** What is hashed behind the stream. *)
Definition mark (p : Z) : bytes := #"|" ++ dec p.
Definition marks (ps : list Z) : bytes := mjoin (mark <$> ps).

Lemma marks_cons p ps : marks (p :: ps) = "|"%char :: dec p ++ marks ps.
Proof. done. Qed.

Lemma digits_split (a b r1 r2 : bytes) :
  Forall (fun c => is_digit c = true) a -> Forall (fun c => is_digit c = true) b ->
  (forall c r, r1 = c :: r -> is_digit c = false) -> (forall c r, r2 = c :: r -> is_digit c = false) ->
  a ++ r1 = b ++ r2 -> a = b /\ r1 = r2.
Proof.
  intros Ha. revert b. induction Ha as [|x a Hx Ha IH]; intros b Hb H1 H2 He.
  - destruct Hb as [|y b Hy Hb]; [done|]. cbn in He. specialize (H1 _ _ He). congruence.
  - destruct Hb as [|y b Hy Hb]; cbn in He; [specialize (H2 _ _ (eq_sym He)); congruence|].
    injection He as -> He. destruct (IH b Hb H1 H2 He) as [-> ->]. done.
Qed.

Lemma marks_head ps c r : marks ps = c :: r -> is_digit c = false.
Proof. destruct ps as [|p ps]; [done|]. rewrite marks_cons. by intros [= <- _]. Qed.

Lemma marks_inj ps qs :
  Forall (fun q => 0 <= q < 2 ^ 64) ps -> Forall (fun q => 0 <= q < 2 ^ 64) qs -> marks ps = marks qs -> ps = qs.
Proof.
  intros Hp. revert qs. induction Hp as [|p ps Hp Hps IH]; intros qs Hq He.
  - destruct Hq as [|q qs Hq Hqs]; [done|]. rewrite marks_cons in He. discriminate He.
  - destruct Hq as [|q qs Hq Hqs]; [rewrite marks_cons in He; discriminate He|]. rewrite !marks_cons in He. injection He as He.
    apply digits_split in He as [Hd He]; [|by apply dec_all; lia..|apply marks_head|apply marks_head].
    f_equal; [by apply dec_inj|by apply IH].
Qed.

(** The stream can be had back from the rewritten one and the positions. *)
Lemma scan_inj from to n p s t :
  from <> [] -> length to = length from -> (forall c, c ∈ from -> c ∉ to) ->
  (length s <= n)%nat -> length s = length t -> scan from to 0 p s = scan from to 0 p t -> s = t.
Proof.
  intros Hf Hl Hd. revert p s t. induction n as [|n IH]; intros p s t Hn Hlen He.
  { destruct s; [by destruct t|simpl in Hn; lia]. }
  pose proof (from_length from Hf) as Hfl.
  destruct s as [|c s], t as [|d t]; [done|done|done|].
  pose proof (fun s => proj1 (scan_positions from to 0 (p + 1) s)) as Hpos.
  assert (forall c s d t, hasPrefix (c :: s) from = true -> hasPrefix (d :: t) from = false ->
            scan from to 0 p (c :: s) <> scan from to 0 p (d :: t)) as Hne.
  { clear -Hpos. intros c s d t H1 H2 He. cbn [scan] in He. rewrite H1, H2 in He.
    specialize (Hpos t). rewrite Forall_forall in Hpos. destruct (scan from to _ (p + 1) s), (scan from to 0 (p + 1) t) as [r2 ps2].
    injection He as _ He. cbn in Hpos. specialize (Hpos p). rewrite <- He in Hpos. specialize (Hpos ltac:(left)). lia. }
  destruct (hasPrefix (c :: s) from) eqn:H1, (hasPrefix (d :: t) from) eqn:H2.
  - apply hasPrefix_true in H1 as [v1 E1]. apply hasPrefix_true in H2 as [v2 E2]. rewrite E1, E2 in *.
    rewrite !(scan_hit from to Hf Hl Hd) in He. rewrite !length_app in *.
    specialize (IH (p + Z.of_nat (length from)) v1 v2 ltac:(lia) ltac:(lia)).
    destruct (scan from to 0 _ v1), (scan from to 0 _ v2). injection He as He ->.
    apply app_inv_head in He as ->. by rewrite IH.
  - by apply Hne in He.
  - symmetry in He. by apply Hne in He.
  - cbn [scan] in He. rewrite H1, H2 in He. simpl in Hn, Hlen.
    specialize (IH (p + 1) s t ltac:(lia) ltac:(lia)).
    destruct (scan from to 0 (p + 1) s), (scan from to 0 (p + 1) t). injection He as -> -> ->. by rewrite IH.
Qed.

(** ** Properties *)



Section hash_modulo.
Context `{L : HashLib} `{!HashLibLaws L}.

(** A stream hashed modulo a string, in pieces. *)
Definition hashModulo (a : HashAlgorithm) (modulus : bytes) (pieces : list bytes) : result HashResult :=
  t ← HashModuloSink_new a modulus; t ← foreach (sink (T := RewritingSink HashSink)) t pieces; HashModuloSink_finish t.

Lemma hashModulo_ok a modulus pieces :
  modulus <> [] -> bZ 0 ∉ modulus -> Z.of_nat (length (mjoin pieces)) < 2 ^ 64 ->
  let '(r, ps) := scan modulus (replicate (length modulus) (bZ 0)) 0 0 (mjoin pieces) in
  hashModulo a modulus pieces =
    Ok (mkHashResult (hash_of a (r ++ marks ps)) (Z.of_nat (length (mjoin pieces)))).
Proof using L HashLibLaws0.
  intros Hm H0 Hlen. set (zeros := replicate (length modulus) (bZ 0)).
  assert (length zeros = length modulus) as Hz by apply length_replicate.
  assert (forall c, c ∈ modulus -> c ∉ zeros) as Hd.
  { intros c Hc [-> _]%elem_of_replicate. done. }
  destruct (rewriting_new modulus zeros Hm Hz Hd (digests a) (HashSink_new a) (digests_new a)) as (t0 & Ht0 & I0).
  destruct (rewriting_sinks modulus zeros Hm Hz Hd (digests a) (digests_sink a) t0 [] pieces I0) as (t1 & Ht1 & I1).
  destruct (rewriting_flush modulus zeros Hm Hz Hd (digests a) (digests_sink a) t1 _ I1) as (t2 & Ht2 & Hr & Hp & Hms).
  cbn [app] in *. destruct (scan_positions modulus zeros 0 0 (mjoin pieces)) as [Hpb Hps].
  unfold hashModulo, HashModuloSink_new. fold zeros. rewrite Ht0. cbn [mbind result_bind]. rewrite Ht1. cbn [mbind result_bind].
  unfold HashModuloSink_finish. rewrite Ht2. cbn [mbind result_bind].
  destruct (scan modulus zeros 0 0 (mjoin pieces)) as [r ps]. cbn [fst snd] in *.
  rewrite Hms, (fmap_u64_small ps (Z.of_nat (length (mjoin pieces)))), positions_iter_sorted by (done || lia).
  destruct (digests_sinks a _ _ (mark <$> ps) Hr) as (h & Hh & Hdh).
  assert (foreach (fun h p => sink h (#"|" ++ dec p)) (nextSink t2) ps = foreach sink (nextSink t2) (mark <$> ps)) as ->.
  { clear. generalize (nextSink t2). induction ps as [|p ps IH]; intros h; [done|]. cbn [foreach fmap list_fmap].
    change (mark p) with (#"|" ++ dec p). destruct (sink h (#"|" ++ dec p)); [apply IH|done]. }
  rewrite Hh. cbn [mbind result_bind]. rewrite (digests_finish a h _ Hdh). cbn. rewrite Hp, u64_small by lia. done.
Qed.
End hash_modulo.



(** The lengths matter: the positions can be part of another stream. *)
Example hashModulo_lengths `{L : HashLib} `{!HashLibLaws L} a :
  hr_hash <$> hashModulo a #"b" [ #"b"] = hr_hash <$> hashModulo a #"b" [bZ 0 :: #"|0"].
Proof.
  assert (bZ 0 ∉ #"b") as H0 by (intros [ | []]%list_elem_of_In; discriminate).
  pose proof (hashModulo_ok a #"b" [ #"b"] ltac:(done) H0 eq_refl) as E1.
  pose proof (hashModulo_ok a #"b" [bZ 0 :: #"|0"] ltac:(done) H0 eq_refl) as E2.
  vm_compute (scan _ _ _ _ _) in E1. vm_compute (scan _ _ _ _ _) in E2. cbn iota beta in E1, E2. rewrite E1, E2.
  cbn. do 2 f_equal.
Qed.

(** With several strings to replace the pieces matter: a replacement and
    what follows it can make up another string to replace. *)
Lemma RewritingSink_pieces_matter :
  let run pieces :=
    t ← RewritingSink_new [(#"az", #"qq"); (#"cy", #"ba")] (mkStringSink []);
    t ← foreach sink t pieces; t ← RewritingSink_flush t; Ok (sink_s (nextSink t)) in
  run [ #"cyz"] = Ok #"baz" /\ run [ #"cy"; #"z"] = Ok #"bqq".
Proof. split; vm_compute; reflexivity. Qed.

(** A replacement that begins with what it replaces is replaced forever. *)
Lemma rewriteStrings_diverges fuel : rewriteStrings fuel #"a" [(#"a", #"ab")] ∅ 0 = None.
Proof.
  cbn [rewriteStrings]. rewrite bool_decide_eq_false_2 by done.
  enough (forall s ms, rewrite_loop fuel #"a" #"ab" 0 (#"a" ++ s) ms 0 = None) as H by (by rewrite (H [])).
  induction fuel as [|fuel IH]; intros s ms; [done|]. cbn [rewrite_loop].
  assert (find_sub #"a" (#"a" ++ s) 0 = Some 0%nat) as -> by (destruct s; reflexivity).
  apply (IH (#"b" ++ s)).
Qed.
