(* ===== verification/Archive.v ===== *)
(** * Archive: Nix archives

    libutil/archive.cc (serialising and parsing), memory-source-accessor.cc
    (the in-memory file system, as source and as target of an archive) and
    the sinks of fs-sink.cc.  The input of the parser is the remaining bytes
    of its source (see [Serialise.refines]); [std::map]s keyed by names are
    association lists in the order of the keys. *)

From S2P Require Export CanonPath Serialise.

(** ** File system objects *)

Inductive File :=
  | Regular (executable : bool) (contents : bytes)
  | Directory (entries : list (bytes * File))
  | Symlink (target : bytes).

Section File_ind.
Context (Q : File -> Prop).
Context (HR : forall x c, Q (Regular x c)).
Context (HD : forall es, Forall (fun e => Q (e.2)) es -> Q (Directory es)).
Context (HS : forall t, Q (Symlink t)).

Fixpoint File_ind' (f : File) : Q f :=
  match f with
  | Regular x c => HR x c
  | Directory es =>
      HD es ((fix go l : Forall (fun e => Q (e.2)) l :=
                match l with [] => Forall_nil_2 _ | e :: l => Forall_cons_2 _ _ _ (File_ind' (e.2)) (go l) end) es)
  | Symlink t => HS t
  end.
End File_ind.

Definition entry_lookup {A} (name : bytes) (l : list (bytes * A)) : option A :=
  snd <$> List.find (fun e => bool_decide (e.1 = name)) l.

(** [insert_or_assign] and the placement of [emplace]. *)
Fixpoint entry_insert {A} (name : bytes) (x : A) (l : list (bytes * A)) : list (bytes * A) :=
  match l with
  | [] => [(name, x)]
  | (n, y) :: l' =>
      match bytes_compare name n with
      | Lt => (name, x) :: l
      | Eq => (name, x) :: l'
      | Gt => (n, y) :: entry_insert name x l'
      end
  end.

(** ** Source accessors *)

Inductive Type_ := tRegular | tSymlink | tDirectory | tChar | tBlock | tSocket | tFifo | tUnknown.
#[export] Instance Type_eq_dec : EqDecision Type_.
Proof. solve_decision. Defined.

Record Stat := mkStat { st_type : Type_; fileSize : option Z; st_isExecutable : bool }.

(** The operations of a [SourceAccessor] the archiver uses.  [readFile]
    gives the size passed to [sizeCallback], if it was called, and the
    contents. *)
Record SourceAccessor := {
  lstat : CanonPath -> result Stat;
  readFile : CanonPath -> result (option Z * bytes);
  readDirectory : CanonPath -> result (list (bytes * option Type_));
  readLink : CanonPath -> result bytes;
}.

(** ** [MemorySourceAccessor] *)

Record MemorySourceAccessor := mkMemory { mroot : option File }.

(** The loop of [open] from the file [cur] on: the file with what was
    created in it, or [None] for the null pointer.  The pointer it returns
    is the node the names lead to. *)
Fixpoint open_at (cur : File) (names : list bytes) (create : option File) (newF : bool)
    : result (option File) :=
  match names with
  | [] => Ok (Some (match create with Some c => if newF then c else cur | None => cur end))
  | name :: names =>
      match cur with
      | Directory entries =>
          match entry_lookup name entries with
          | Some f =>
              r ← open_at f names create newF;
              Ok (option_map (fun f' => Directory (entry_insert name f' entries)) r)
          | None =>
              match create with
              | None => Ok None
              | Some _ =>
                  r ← open_at (Directory []) names create true;
                  Ok (option_map (fun f' => Directory (entry_insert name f' entries)) r)
              end
          end
      | Symlink _ => Throw SymlinkNotAllowed
      | Regular _ _ => match create with Some _ => Throw NotADirectory | None => Ok None end
      end
  end.

(** The node the pointer stands for. *)
Fixpoint node_at (cur : File) (names : list bytes) : option File :=
  match names with
  | [] => Some cur
  | name :: names =>
      match cur with
      | Directory entries => f ← entry_lookup name entries; node_at f names
      | _ => None
      end
  end.

(** An assignment through the pointer. *)
Fixpoint update_at (cur : File) (names : list bytes) (g : File -> File) : File :=
  match names with
  | [] => g cur
  | name :: names =>
      match cur with
      | Directory entries =>
          match entry_lookup name entries with
          | Some f => Directory (entry_insert name (update_at f names g) entries)
          | None => cur
          end
      | _ => cur
      end
  end.

(** [MemorySourceAccessor::open]: the accessor and whether the pointer is
    not null. *)
Definition open (m : MemorySourceAccessor) (path : CanonPath) (create : option File)
    : result (MemorySourceAccessor * bool) :=
  match mroot m with
  | None =>
      if isRoot path then
        match create with
        | Some c => Ok (mkMemory (Some c), true)
        | None => Ok (m, false)
        end
      else Ok (m, false)
  | Some r =>
      r' ← open_at r (elems path) create false;
      match r' with
      | Some r' => Ok (mkMemory (Some r'), true)
      | None => Ok (m, false)
      end
  end.

Definition pointee (m : MemorySourceAccessor) (path : CanonPath) : option File :=
  r ← mroot m; node_at r (elems path).
Definition modify (m : MemorySourceAccessor) (path : CanonPath) (g : File -> File) : MemorySourceAccessor :=
  mkMemory ((fun r => update_at r (elems path) g) <$> mroot m).

(** [open(path, std::nullopt)] followed by a dereference. *)
Definition open_read (m : MemorySourceAccessor) (path : CanonPath) : result (option File) :=
  '(m, found) ← open m path None;
  Ok (if found : bool then pointee m path else None).

Definition file_lstat (f : File) : Stat :=
  match f with
  | Regular x c => mkStat tRegular (Some (Z.of_nat (length c))) x
  | Directory _ => mkStat tDirectory None false
  | Symlink _ => mkStat tSymlink None false
  end.

Definition mem_maybeLstat (m : MemorySourceAccessor) (path : CanonPath) : result (option Stat) :=
  f ← open_read m path; Ok (option_map file_lstat f).
Definition mem_lstat (m : MemorySourceAccessor) (path : CanonPath) : result Stat :=
  st ← mem_maybeLstat m path; from_opt FileNotFound st.
Definition mem_pathExists (m : MemorySourceAccessor) (path : CanonPath) : result bool :=
  snd <$> open m path None.

Definition mem_readFile (m : MemorySourceAccessor) (path : CanonPath) : result (option Z * bytes) :=
  f ← open_read m path;
  f ← from_opt FileNotFound f;
  match f with
  | Regular _ c => Ok (Some (Z.of_nat (length c)), c)
  | Directory _ => Throw NotARegularFile
  | Symlink _ => Throw SymlinkNotAllowed
  end.

Definition mem_readDirectory (m : MemorySourceAccessor) (path : CanonPath)
    : result (list (bytes * option Type_)) :=
  f ← open_read m path;
  f ← from_opt FileNotFound f;
  match f with
  | Directory es =>
      Ok (foldl (fun res e => entry_insert (e.1) (Some (st_type (file_lstat (e.2)))) res) [] es)
  | Regular _ _ => Throw NotADirectory
  | Symlink _ => Throw SymlinkNotAllowed
  end.

Definition mem_readLink (m : MemorySourceAccessor) (path : CanonPath) : result bytes :=
  f ← open_read m path;
  f ← from_opt FileNotFound f;
  match f with Symlink t => Ok t | _ => Throw NotASymlink end.

Definition memory_accessor (m : MemorySourceAccessor) : SourceAccessor := {|
  lstat := mem_lstat m;
  readFile := mem_readFile m;
  readDirectory := mem_readDirectory m;
  readLink := mem_readLink m;
|}.

Definition addFile (m : MemorySourceAccessor) (path : CanonPath) (contents : bytes) : result MemorySourceAccessor :=
  m ← (if match mroot m with None => true | Some _ => false end && negb (isRoot path)
       then fst <$> open m root (Some (Directory [])) else Ok m);
  '(m, found) ← open m path (Some (Regular false []));
  _ ← throw_if (negb found) Error;
  match pointee m path with
  | Some (Regular _ _) =>
      Ok (modify m path (fun f => match f with Regular x _ => Regular x contents | f => f end))
  | _ => Throw NotARegularFile
  end.

(** ** Writing an archive *)

Definition narVersionMagic1 : bytes := #"nix-archive-1".
Definition caseHackSuffix : bytes := #"~nix~case~hack~".
Definition narMaxDepth : nat := 64.

Definition is_special (e : bytes * option Type_) : bool :=
  bool_decide (e.2 = Some tFifo) || bool_decide (e.2 = Some tSocket).

Section dump.
Context {T : Type} `{Sink T} (accessor : SourceAccessor) (filter_ : bytes -> bool) (useCaseHack : bool).

Definition dumpContents (path : CanonPath) (t : T) : result T :=
  t ← writeString #"contents" t;
  '(size, data) ← readFile accessor path;
  t ← (match size with Some n => sink_num t n | None => Ok t end);
  t ← sink t data;
  size ← from_opt AssertFailed size;
  writePadding (Z.to_nat size) t.

(** The names in the archive and the names on disk. *)
Definition unhack (entries : list (bytes * option Type_)) : result (list (bytes * bytes)) :=
  foreach (fun unhacked i =>
    let name := i.1 in
    let name' := if useCaseHack
                 then match find_sub caseHackSuffix name 0 with
                      | Some pos => take pos name
                      | None => name
                      end
                 else name in
    match entry_lookup name' unhacked with
    | None => Ok (entry_insert name' name unhacked)
    | Some _ => if useCaseHack then Throw Error else Ok unhacked
    end) [] entries.

(** [fuel] is the number of levels that may follow. *)
Fixpoint dump (fuel : nat) (path filterPath : CanonPath) (depth : nat) (t : T) : result T :=
  match fuel with
  | O => Throw Error
  | S fuel =>
      _ ← throw_if (narMaxDepth <=? depth)%nat Error;
      st ← lstat accessor path;
      t ← writeString #"(" t;
      t ← (match st_type st with
           | tRegular =>
               t ← writeString #"type" t; t ← writeString #"regular" t;
               t ← (if st_isExecutable st
                    then t ← writeString #"executable" t; writeString [] t
                    else Ok t);
               dumpContents path t
           | tDirectory =>
               t ← writeString #"type" t; t ← writeString #"directory" t;
               entries ← readDirectory accessor path;
               let entries := filter (fun e => is_special e = false) entries in
               unhacked ← unhack entries;
               foreach (fun t i =>
                 p ← concat_comp filterPath (i.1);
                 if filter_ (abs p) then
                   t ← writeString #"entry" t; t ← writeString #"(" t;
                   t ← writeString #"name" t; t ← writeString (i.1) t;
                   t ← writeString #"node" t;
                   p1 ← concat_comp path (i.2);
                   p2 ← concat_comp filterPath (i.2);
                   t ← dump fuel p1 p2 (S depth) t;
                   writeString #")" t
                 else Ok t) t unhacked
           | tSymlink =>
               t ← writeString #"type" t; t ← writeString #"symlink" t;
               t ← writeString #"target" t;
               target ← readLink accessor path;
               writeString target t
           | _ => Throw Error
           end);
      writeString #")" t
  end.

(** [SourceAccessor::dumpPath] *)
Definition dumpPath (path : CanonPath) (t : T) : result T :=
  t ← writeString narVersionMagic1 t;
  dump (S narMaxDepth) path path 0 t.
End dump.

Definition dumpString `{Sink T} (s : bytes) (t : T) : result T :=
  foreach (fun t x => writeString x t) t
    [narVersionMagic1; #"("; #"type"; #"regular"; #"contents"; s; #")"].

(** ** File system object sinks

    [F] is the sink and [C] a regular file being written; [crf_close] ends
    the callback of [createRegularFile].  [enterDirectory] gives the sink and
    the path that [createDirectory] calls back with, and [leaveDirectory] is
    what follows the callback, given the sink before and the one called with. *)
Class FileSystemObjectSink (F C : Type) := {
  createDirectory : F -> CanonPath -> result F;
  enterDirectory : F -> CanonPath -> result (F * CanonPath);
  leaveDirectory : F -> CanonPath -> F -> result F;
  createSymlink : F -> CanonPath -> bytes -> result F;
  crf_open : F -> CanonPath -> result C;
  crf_skipContents : C -> bool;
  crf_isExecutable : C -> result C;
  crf_preallocate : C -> Z -> result C;
  crf_write : C -> bytes -> result C;
  crf_close : C -> result F;
}.

(** The default [createDirectory] with a callback. *)
Definition default_enter {F} (create : F -> CanonPath -> result F) (f : F) (path : CanonPath) : result (F * CanonPath) :=
  f ← create f path; Ok (f, path).
Definition default_leave {F} (_ : F) (_ : CanonPath) (d : F) : result F := Ok d.

(** *** [MemorySink] *)

Definition mem_createDirectory (m : MemorySourceAccessor) (path : CanonPath) : result MemorySourceAccessor :=
  '(m, found) ← open m path (Some (Directory []));
  _ ← throw_if (negb found) Error;
  match pointee m path with Some (Directory _) => Ok m | _ => Throw NotADirectory end.

Definition mem_createSymlink (m : MemorySourceAccessor) (path : CanonPath) (target : bytes)
    : result MemorySourceAccessor :=
  '(m, found) ← open m path (Some (Symlink []));
  _ ← throw_if (negb found) Error;
  match pointee m path with
  | Some (Symlink _) => Ok (modify m path (fun _ => Symlink target))
  | _ => Throw NotASymlink
  end.

(** [CreateMemoryRegularFile]: a reference into the accessor. *)
Record CreateMemoryRegularFile := mkCRF { crf_mem : MemorySourceAccessor; crf_path : CanonPath }.

Definition mem_crf_open (m : MemorySourceAccessor) (path : CanonPath) : result CreateMemoryRegularFile :=
  '(m, found) ← open m path (Some (Regular false []));
  _ ← throw_if (negb found) Error;
  match pointee m path with Some (Regular _ _) => Ok (mkCRF m path) | _ => Throw NotARegularFile end.

Definition crf_modify (c : CreateMemoryRegularFile) (g : bool -> bytes -> File) : CreateMemoryRegularFile :=
  mkCRF (modify (crf_mem c) (crf_path c) (fun f => match f with Regular x d => g x d | f => f end)) (crf_path c).

#[export] Instance MemorySink : FileSystemObjectSink MemorySourceAccessor CreateMemoryRegularFile := {|
  createDirectory := mem_createDirectory;
  enterDirectory := default_enter mem_createDirectory;
  leaveDirectory := default_leave;
  createSymlink := mem_createSymlink;
  crf_open := mem_crf_open;
  crf_skipContents _ := false;
  crf_isExecutable c := Ok (crf_modify c (fun _ d => Regular true d));
  crf_preallocate c len := _ ← throw_if (max_u64 <? len)%Z Error; Ok c;
  crf_write c data := Ok (crf_modify c (fun x d => Regular x (d ++ data)));
  crf_close c := Ok (crf_mem c);
|}.

(** *** [NullFileSystemObjectSink] and [RegularFileSink] *)

#[export] Instance NullFileSystemObjectSink : FileSystemObjectSink NullSink unit := {|
  createDirectory f _ := Ok f;
  enterDirectory := default_enter (fun f _ => Ok f);
  leaveDirectory := default_leave;
  createSymlink f _ _ := Ok f;
  crf_open _ _ := Ok ();
  crf_skipContents _ := true;
  crf_isExecutable c := Ok c;
  crf_preallocate c _ := Ok c;
  crf_write c _ := Ok c;
  crf_close _ := Ok mkNullSink;
|}.

Record RegularFileSink (T : Type) := mkRegularFileSink { rfs_regular : bool; rfs_sink : T }.
Arguments mkRegularFileSink {T}.
Arguments rfs_regular {T}.
Arguments rfs_sink {T}.
#[export] Instance RegularFileSink_sink `{Sink T} : FileSystemObjectSink (RegularFileSink T) (RegularFileSink T) := {|
  createDirectory f _ := Ok (mkRegularFileSink false (rfs_sink f));
  enterDirectory := default_enter (fun f _ => Ok (mkRegularFileSink false (rfs_sink f)));
  leaveDirectory := default_leave;
  createSymlink f _ _ := Ok (mkRegularFileSink false (rfs_sink f));
  crf_open f _ := Ok f;
  crf_skipContents _ := false;
  crf_isExecutable c := Ok c;
  crf_preallocate c _ := Ok c;
  crf_write c data := t ← sink (rfs_sink c) data; Ok (mkRegularFileSink (rfs_regular c) t);
  crf_close c := Ok c;
|}.

(** ** Parsing an archive *)

Definition narMaxTag : Z := 32.
Definition narMaxName : Z := 255.
Definition narMaxTarget : Z := 4095.

(** [alignUp<uint64_t>(val, alignment)] *)
Definition alignUp (val alignment : Z) : result Z :=
  let mask := u64 (Z.lnot (u64 (alignment - 1))) in
  _ ← throw_if (max_u64 - (alignment - 1) <? val)%Z Error;
  Ok (Z.land (u64 (val + alignment - 1)) mask).

Definition expectTag (expected : bytes) : P unit :=
  tag ← pString narMaxTag;
  plift (throw_if (negb (bool_decide (tag = expected))) SerialisationError).

Definition tolower (c : ascii) : ascii := if in_range "A" "Z" c then bZ (Zb c + 32) else c.
(** The key [strcasecmp] compares: the C string in lower case. *)
Definition case_key (s : bytes) : bytes :=
  tolower <$> match find_char NUL s with Some i => take i s | None => s end.

(** [std::to_string] of a counter. *)
Fixpoint decimal (fuel : nat) (n : nat) : bytes :=
  match fuel with
  | O => []
  | S fuel =>
      (if (n <? 10)%nat then [] else decimal fuel (n / 10)) ++ [ascii_of_nat (48 + n mod 10)]
  end.

(** Gives a loop the length of the input as its bound. *)
Definition with_input {A} (g : nat -> P A) : P A := fun s => g (S (length s)) s.

Section parse.
Context {F C : Type} `{FileSystemObjectSink F C} (useCaseHack : bool).

Definition parseContents (c : C) : P C :=
  size ← pNum max_u64;
  c ← plift (crf_preallocate c size);
  if crf_skipContents c then
    left ← plift (alignUp size 8);
    _ ← pGetZ left;
    mret c
  else
    data ← pGetZ size;
    c ← plift (crf_write c data);
    _ ← pPadding (Z.to_nat size);
    mret c.

Definition parse_regular (f : F) (path : CanonPath) : P F :=
  c ← plift (crf_open f path);
  tag ← pString narMaxTag;
  '(c, tag) ←
    (if bool_decide (tag = #"executable") then
       s2 ← pString 0;
       _ ← plift (throw_if (negb (bool_decide (s2 = []))) SerialisationError);
       c ← plift (crf_isExecutable c);
       tag ← pString narMaxTag;
       mret (c, tag)
     else mret (c, tag));
  _ ← plift (throw_if (negb (bool_decide (tag = #"contents"))) SerialisationError);
  c ← parseContents c;
  _ ← expectTag #")";
  plift (crf_close c).

Definition bad_name (name : bytes) : bool :=
  bool_decide (name = []) || bool_decide (name = #".") || bool_decide (name = #"..")
  || bool_decide (slash ∈ name) || bool_decide (NUL ∈ name).

(** The case hack: the name on disk and the counters of the names seen. *)
Definition case_hack (names : list (bytes * nat)) (name : bytes) : result (bytes * list (bytes * nat)) :=
  if useCaseHack then
    match entry_lookup (case_key name) names with
    | Some k =>
        let names := entry_insert (case_key name) (S k) names in
        let name := name ++ caseHackSuffix ++ decimal 20 (S k) in
        match entry_lookup (case_key name) names with
        | Some _ => Throw SerialisationError
        | None => Ok (name, names)
        end
    | None => Ok (name, entry_insert (case_key name) 0%nat names)
    end
  else Ok (name, names).

(** The entries of a directory, with [child] parsing what is below. *)
Fixpoint parse_entries (child : F -> CanonPath -> P F) (loop : nat) (f : F) (path : CanonPath)
    (names : list (bytes * nat)) (prevName : bytes) : P F :=
  match loop with
  | O => plift (Throw EndOfFile)
  | S loop =>
      tag ← pString narMaxTag;
      if bool_decide (tag = #")") then mret f
      else
        _ ← plift (throw_if (negb (bool_decide (tag = #"entry"))) SerialisationError);
        _ ← expectTag #"(";
        _ ← expectTag #"name";
        name ← pString narMaxName;
        _ ← plift (throw_if (bad_name name) SerialisationError);
        _ ← plift (throw_if (bool_decide (bytes_le name prevName)) SerialisationError);
        '(name', names) ← plift (case_hack names name);
        _ ← expectTag #"node";
        p ← plift (concat_comp path name');
        f ← child f p;
        _ ← expectTag #")";
        parse_entries child loop f path names name
  end.

Definition parse_symlink (f : F) (path : CanonPath) : P F :=
  _ ← expectTag #"target";
  target ← pString narMaxTarget;
  _ ← plift (throw_if (bool_decide (target = []) || bool_decide (NUL ∈ target)) SerialisationError);
  f ← plift (createSymlink f path target);
  _ ← expectTag #")";
  mret f.

(** Every entry takes input, so its length bounds the loop. *)
Fixpoint parse (fuel : nat) (f : F) (path : CanonPath) (depth : nat) : P F :=
  match fuel with
  | O => plift (Throw SerialisationError)
  | S fuel =>
      _ ← plift (throw_if (narMaxDepth <=? depth)%nat SerialisationError);
      _ ← expectTag #"(";
      _ ← expectTag #"type";
      type ← pString narMaxTag;
      if bool_decide (type = #"regular") then parse_regular f path
      else if bool_decide (type = #"directory") then
        '(d, rel) ← plift (enterDirectory f path);
        d ← with_input (fun loop => parse_entries (fun f p => parse fuel f p (S depth)) loop d rel [] []);
        plift (leaveDirectory f path d)
      else if bool_decide (type = #"symlink") then parse_symlink f path
      else plift (Throw SerialisationError)
  end.

Definition parseDump (f : F) : P F := fun s =>
  match pString (Z.of_nat (length narVersionMagic1)) s with
  | Ok (version, s) =>
      if bool_decide (version = narVersionMagic1) then parse (S narMaxDepth) f root 0 s
      else Throw SerialisationError
  | Throw e => if bool_decide (e = SerialisationError) then Throw SerialisationError else Throw e
  end.
End parse.

(** ** Specification: what a sink is made to do for a file

    The operations of [parse] on a sink that wants the contents of files,
    for a file that is given. *)
Section build.
Context {F C : Type} `{FileSystemObjectSink F C}.

Definition build_regular (f : F) (path : CanonPath) (x : bool) (d : bytes) : result F :=
  c ← crf_open f path;
  c ← (if x then crf_isExecutable c else Ok c);
  c ← crf_preallocate c (Z.of_nat (length d));
  c ← crf_write c d;
  crf_close c.

Fixpoint build (f : F) (path : CanonPath) (file : File) : result F :=
  match file with
  | Regular x d => build_regular f path x d
  | Directory es =>
      '(d, rel) ← enterDirectory f path;
      d ← (fix go (d : F) (l : list (bytes * File)) : result F :=
             match l with
             | [] => Ok d
             | e :: l => p ← concat_comp rel (e.1); d ← build d p (e.2); go d l
             end) d es;
      leaveDirectory f path d
  | Symlink t => createSymlink f path t
  end.

Definition build_entries (rel : CanonPath) (d : F) (es : list (bytes * File)) : result F :=
  foreach (fun d e => p ← concat_comp rel (e.1); build d p (e.2)) d es.

Lemma build_Directory f path es :
  build f path (Directory es) =
  ('(d, rel) ← enterDirectory f path; d ← build_entries rel d es; leaveDirectory f path d).
Proof.
  cbn [build]. destruct (enterDirectory f path) as [[d rel]|]; [|done]. cbn [mbind result_bind].
  f_equal. unfold build_entries. revert d. induction es as [|e es IH]; intros d; [done|]. cbn [foreach].
  destruct (concat_comp rel (e.1)) as [p|]; [|done]. cbn [mbind result_bind].
  destruct (build d p (e.2)); [apply IH|done].
Qed.
End build.

(** [copyNAR]: the input consumed, as the tee passes it on. *)
Definition copyNAR `{Sink T} (useCaseHack : bool) (t : T) : P T := fun s =>
  match parseDump (F := NullSink) useCaseHack mkNullSink s with
  | Ok (_, r) => t ← sink t (take (length s - length r) s); Ok (t, r)
  | Throw e => Throw e
  end.

(** ** Specification: the encoding of a file *)

Definition nar_tags (ts : list bytes) : bytes := mjoin (enc_string <$> ts).

Fixpoint nar (f : File) : bytes :=
  nar_tags [ #"("; #"type"] ++
  match f with
  | Regular x c =>
      nar_tags ([ #"regular"] ++ (if x then [ #"executable"; []] else []) ++ [ #"contents"; c])
  | Directory es =>
      nar_tags [ #"directory"] ++
      mjoin ((fix go l := match l with
                          | [] => []
                          | e :: l => (nar_tags [ #"entry"; #"("; #"name"; e.1; #"node"] ++ nar (e.2)
                                      ++ nar_tags [ #")"]) :: go l
                          end) es)
  | Symlink t => nar_tags [ #"symlink"; #"target"; t]
  end ++ nar_tags [ #")"].

Definition nar_entry (e : bytes * File) : bytes :=
  nar_tags [ #"entry"; #"("; #"name"; e.1; #"node"] ++ nar (e.2) ++ nar_tags [ #")"].

Lemma nar_Directory es :
  nar (Directory es) =
  nar_tags [ #"("; #"type"; #"directory"] ++ mjoin (nar_entry <$> es) ++ nar_tags [ #")"].
Proof.
  cbn [nar]. assert (forall l, (fix go l := match l with
                          | [] => []
                          | e :: l => (nar_tags [ #"entry"; #"("; #"name"; e.1; #"node"] ++ nar (e.2)
                                      ++ nar_tags [ #")"]) :: go l
                          end) l = nar_entry <$> l) as ->.
  { induction l as [|e l IH]; [done|]. by rewrite IH. }
  unfold nar_tags. cbn [fmap list_fmap mjoin list_join]. by rewrite <- !app_assoc.
Qed.

Fixpoint height (f : File) : nat :=
  match f with
  | Directory es => S (foldr (fun e n => height (e.2) `max` n)%nat 0%nat es)
  | _ => 1%nat
  end.

Definition name_ok (n : bytes) : Prop := good n /\ (Z.of_nat (length n) <= narMaxName)%Z.
Definition target_ok (t : bytes) : Prop :=
  t <> [] /\ NUL ∉ t /\ (Z.of_nat (length t) <= narMaxTarget)%Z.

#[export] Instance name_ok_dec n : Decision (name_ok n).
Proof. unfold name_ok. apply _. Defined.
#[export] Instance target_ok_dec t : Decision (target_ok t).
Proof. unfold target_ok. apply _. Defined.

(** The files an archive can represent: directories are maps with valid
    names, symbolic links have valid targets. *)
Inductive ok_file : File -> Prop :=
  | ok_Regular x c : small c -> ok_file (Regular x c)
  | ok_Directory es :
      StronglySorted bytes_lt (es.*1) -> Forall name_ok (es.*1) ->
      Forall (fun e => ok_file (e.2)) es -> ok_file (Directory es)
  | ok_Symlink t : target_ok t -> ok_file (Symlink t).

(** *** Entries *)

Lemma entry_lookup_insert {A} n (x : A) l : entry_lookup n (entry_insert n x l) = Some x.
Proof.
  unfold entry_lookup. induction l as [|[m y] l IH]; cbn [entry_insert].
  - cbn. by rewrite bool_decide_true.
  - destruct (bytes_compare n m) eqn:Hc; cbn [List.find fst].
    + by rewrite bool_decide_true.
    + by rewrite bool_decide_true.
    + rewrite bool_decide_false; [done|]. intros ->. by rewrite bytes_compare_refl in Hc.
Qed.

Lemma entry_insert_insert {A} n (x y : A) l : entry_insert n x (entry_insert n y l) = entry_insert n x l.
Proof.
  induction l as [|[m z] l IH]; cbn [entry_insert]; [by rewrite bytes_compare_refl|].
  destruct (bytes_compare n m) eqn:Hc; cbn [entry_insert]; rewrite ?bytes_compare_refl; [done..|].
  by rewrite Hc, IH.
Qed.

(** Appending a name greater than all others. *)
Lemma entry_insert_last {A} n (x : A) l :
  Forall (fun m => bytes_lt m n) (l.*1) -> entry_insert n x l = l ++ [(n, x)].
Proof.
  induction l as [|[m z] l IH]; [done|]. cbn [fmap list_fmap fst]. intros [Hm Hl]%Forall_cons.
  cbn [entry_insert]. rewrite bytes_compare_antisym. unfold bytes_lt in Hm. rewrite Hm. cbn.
  by rewrite IH.
Qed.

Lemma entry_lookup_last {A} n (l : list (bytes * A)) :
  Forall (fun m => bytes_lt m n) (l.*1) -> entry_lookup n l = None.
Proof.
  unfold entry_lookup. induction l as [|[m z] l IH]; [done|]. cbn [fmap list_fmap fst].
  intros [Hm Hl]%Forall_cons. cbn [List.find fst]. rewrite bool_decide_false; [by apply IH|].
  intros ->. by apply (irreflexivity bytes_lt n).
Qed.

Lemma entry_lookup_sorted {A} n (x : A) l1 l2 :
  StronglySorted bytes_lt ((l1 ++ (n, x) :: l2).*1) -> entry_lookup n (l1 ++ (n, x) :: l2) = Some x.
Proof.
  unfold entry_lookup. induction l1 as [|[m y] l1 IH]; cbn [app fmap list_fmap fst List.find].
  - by rewrite bool_decide_true.
  - intros [Hs Hm]%StronglySorted_inv. rewrite bool_decide_false; [by apply IH|]. intros ->.
    rewrite Forall_forall in Hm. apply (irreflexivity bytes_lt n), Hm.
    rewrite fmap_app. set_solver.
Qed.

(** *** A new node in the memory file system *)

Fixpoint absent_at (cur : File) (names : list bytes) : Prop :=
  match names with
  | [] => False
  | n :: ns =>
      match cur with
      | Directory es =>
          match entry_lookup n es with
          | Some g => absent_at g ns
          | None => ns = []
          end
      | _ => False
      end
  end.

Fixpoint put_at (cur : File) (names : list bytes) (f : File) : File :=
  match names with
  | [] => f
  | n :: ns =>
      match cur with
      | Directory es =>
          Directory (entry_insert n (match entry_lookup n es with Some g => put_at g ns f | None => f end) es)
      | _ => cur
      end
  end.

Lemma open_at_put r ns c : absent_at r ns -> open_at r ns (Some c) false = Ok (Some (put_at r ns c)).
Proof.
  revert r; induction ns as [|n ns IH]; intros r; [done|]. cbn [absent_at open_at put_at].
  destruct r as [| es |]; try done. destruct (entry_lookup n es) as [g|].
  - intros Ha. by rewrite IH.
  - intros ->. done.
Qed.

Lemma put_at_lookup r n ns f es :
  absent_at r (n :: ns) -> r = Directory es ->
  exists g, put_at r (n :: ns) f = Directory (entry_insert n g es) /\
    (g = f /\ ns = [] /\ entry_lookup n es = None \/
     exists h, entry_lookup n es = Some h /\ absent_at h ns /\ g = put_at h ns f).
Proof.
  intros Ha ->. cbn [absent_at put_at] in *. destruct (entry_lookup n es) as [h|]; eauto 10.
Qed.

Lemma node_at_put r ns f : absent_at r ns -> node_at (put_at r ns f) ns = Some f.
Proof.
  revert r; induction ns as [|n ns IH]; intros r Ha; [done|].
  destruct r as [| es |]; try done. destruct (put_at_lookup _ n ns f es Ha eq_refl) as (g & -> & Hg).
  cbn [node_at]. rewrite entry_lookup_insert. cbn.
  destruct Hg as [(-> & -> & _)|(h & _ & Hh & ->)]; [done|by apply IH].
Qed.

Lemma update_at_put r ns f g : absent_at r ns -> update_at (put_at r ns f) ns g = put_at r ns (g f).
Proof.
  revert r; induction ns as [|n ns IH]; intros r Ha; [done|].
  destruct r as [| es |]; try done. cbn [absent_at put_at update_at] in *.
  rewrite entry_lookup_insert, entry_insert_insert. destruct (entry_lookup n es) as [h|].
  - by rewrite IH.
  - by subst ns.
Qed.

Lemma absent_at_below r ns es n :
  absent_at r ns -> entry_lookup n es = None -> absent_at (put_at r ns (Directory es)) (ns ++ [n]).
Proof.
  revert r; induction ns as [|m ns IH]; intros r Ha Hn; [done|].
  destruct r as [| es' |]; try done. cbn [absent_at put_at app] in *. rewrite entry_lookup_insert.
  destruct (entry_lookup m es') as [h|]; [by apply IH|]. subst ns. cbn. by rewrite Hn.
Qed.

Lemma put_at_below r ns es n f :
  absent_at r ns -> entry_lookup n es = None ->
  put_at (put_at r ns (Directory es)) (ns ++ [n]) f = put_at r ns (Directory (entry_insert n f es)).
Proof.
  revert r; induction ns as [|m ns IH]; intros r Ha Hn; [done|].
  destruct r as [| es' |]; try done. cbn [absent_at put_at app] in *.
  rewrite entry_lookup_insert, entry_insert_insert. destruct (entry_lookup m es') as [h|].
  - by rewrite IH.
  - subst ns. cbn. by rewrite Hn.
Qed.

Definition absent (m : MemorySourceAccessor) (cs : list bytes) : Prop :=
  match mroot m with None => cs = [] | Some r => absent_at r cs end.
Definition put (m : MemorySourceAccessor) (cs : list bytes) (f : File) : MemorySourceAccessor :=
  mkMemory (Some match mroot m with None => f | Some r => put_at r cs f end).

Section put.
Context (m : MemorySourceAccessor) (cs : list bytes) (Hcs : Forall good cs) (Ha : absent m cs).
Let p := unchecked (join_path cs).

Lemma elems_p : elems p = cs.
Proof using Hcs. apply elems_join. by apply Forall_good_plain. Qed.

Lemma open_put c : open m p (Some c) = Ok (put m cs c, true).
Proof using Hcs Ha.
  unfold open, put, absent in *. destruct (mroot m) as [r|].
  - rewrite elems_p, open_at_put by done. done.
  - subst cs. done.
Qed.

Lemma pointee_put f : pointee (put m cs f) p = Some f.
Proof using Hcs Ha.
  unfold pointee, put, absent in *; cbn [mroot mbind option_bind]. rewrite elems_p. destruct (mroot m) as [r|].
  - by apply node_at_put.
  - by subst cs.
Qed.

Lemma modify_put f g : modify (put m cs f) p g = put m cs (g f).
Proof using Hcs Ha.
  unfold modify, put, absent in *; cbn [mroot fmap option_fmap option_map]. rewrite elems_p.
  destruct (mroot m) as [r|].
  - by rewrite update_at_put.
  - by subst cs.
Qed.

Lemma absent_below es n : entry_lookup n es = None -> absent (put m cs (Directory es)) (cs ++ [n]).
Proof using Hcs Ha.
  unfold absent, put in *; cbn. destruct (mroot m) as [r|]; [by apply absent_at_below|].
  intros Hn. subst cs. cbn. by rewrite Hn.
Qed.

Lemma put_below es n f :
  entry_lookup n es = None ->
  put (put m cs (Directory es)) (cs ++ [n]) f = put m cs (Directory (entry_insert n f es)).
Proof using Hcs Ha.
  intros Hn. unfold absent, put in *; cbn. destruct (mroot m) as [r|]; [by rewrite put_at_below|].
  subst cs. cbn. by rewrite Hn.
Qed.
End put.

(** ** The parser accepts exactly the encodings *)

Lemma outcome_tag x s : outcome (expectTag x s) (fun _ r => s = enc_string x ++ r).
Proof.
  unfold expectTag. apply outcome_bind. eapply outcome_mono; [|apply outcome_string]. cbn.
  intros y r (-> & _). eapply outcome_mono; [|apply outcome_check]. cbn.
  intros _ r' [Hx ->]. bool_cases. by subst.
Qed.

Ltac obind L := apply outcome_bind; eapply outcome_mono; [|apply L]; cbn beta.

(** A bound on the tags and the contents an archive can hold. *)
Lemma push_join cs n :
  Forall good cs -> good n -> concat_comp (unchecked (join_path cs)) n = Ok (unchecked (join_path (cs ++ [n]))).
Proof.
  intros Hcs (Hn1 & Hn2 & Hn3 & Hn4 & Hn5). unfold concat_comp, push.
  rewrite !bool_decide_true by done. cbn [assertb throw_if negb mbind result_bind].
  unfold ensureNoNullBytes. rewrite bool_decide_false by done. cbn [throw_if mbind result_bind path].
  rewrite isRoot_join by (by apply Forall_good_plain). do 2 f_equal. unfold join_path.
  rewrite (decide_False (P := cs ++ [n] = [])) by (by destruct cs). rewrite joinE_snoc.
  case_bool_decide as Hc; [subst cs; done|]. by rewrite decide_False.
Qed.

Lemma name_check_good n : bad_name n = false -> good n.
Proof.
  unfold bad_name, good. rewrite !orb_false_iff, !bool_decide_eq_false. tauto.
Qed.

Lemma plift_bind {A B} (a : A) (f : A -> P B) s : (plift (Ok a) ≫= f) s = f a s.
Proof. done. Qed.

(** The operations of the memory sink on a new node. *)
Lemma mem_preallocate (c : CreateMemoryRegularFile) n : (n <= max_u64)%Z -> crf_preallocate c n = Ok c.
Proof. intros Hn. cbn [crf_preallocate MemorySink]. by rewrite (proj2 (Z.ltb_ge _ _)). Qed.
Lemma mem_write (c : CreateMemoryRegularFile) d :
  crf_write c d = Ok (crf_modify c (fun x d0 => Regular x (d0 ++ d))).
Proof. done. Qed.
Lemma mem_isExecutable (c : CreateMemoryRegularFile) :
  crf_isExecutable c = Ok (crf_modify c (fun _ d => Regular true d)).
Proof. done. Qed.

Section mem_put.
Context (m : MemorySourceAccessor) (cs : list bytes) (Hcs : Forall good cs) (Ha : absent m cs).

Lemma mem_crf_open_put :
  crf_open m (unchecked (join_path cs)) = Ok (mkCRF (put m cs (Regular false [])) (unchecked (join_path cs))).
Proof using Hcs Ha.
  cbn [crf_open MemorySink]. unfold mem_crf_open. rewrite open_put by done. cbn [mbind result_bind negb throw_if].
  by rewrite pointee_put.
Qed.

Lemma mem_enterDirectory_put :
  enterDirectory m (unchecked (join_path cs)) = Ok (put m cs (Directory []), unchecked (join_path cs)).
Proof using Hcs Ha.
  cbn [enterDirectory MemorySink]. unfold default_enter, mem_createDirectory. rewrite open_put by done.
  cbn [mbind result_bind negb throw_if]. by rewrite pointee_put.
Qed.

Lemma mem_createSymlink_put t :
  createSymlink m (unchecked (join_path cs)) t = Ok (put m cs (Symlink t)).
Proof using Hcs Ha.
  cbn [createSymlink MemorySink]. unfold mem_createSymlink. rewrite open_put by done.
  cbn [mbind result_bind negb throw_if]. by rewrite pointee_put, modify_put.
Qed.
End mem_put.

Section sound.
Context (m : MemorySourceAccessor) (cs : list bytes) (Hcs : Forall good cs) (Ha : absent m cs).

Lemma outcome_contents x s :
  outcome (parseContents (mkCRF (put m cs (Regular x [])) (unchecked (join_path cs))) s)
    (fun c r => exists d, s = enc_string d ++ r /\ small d /\ crf_mem c = put m cs (Regular x d)).
Proof using Hcs Ha.
  unfold parseContents. obind outcome_num. intros n r [-> Hn]. rewrite mem_preallocate, plift_bind by lia.
  cbn [crf_skipContents MemorySink]. obind outcome_getZ; [|lia]. intros d r' [-> Hd].
  rewrite mem_write, plift_bind. obind outcome_padding. intros _ r'' ->. cbn [outcome mret P_ret].
  exists d. unfold enc_string, small, max_u64 in *. rewrite <- Hd, Nat2Z.id, <- !app_assoc.
  split; [done|]. split; [lia|]. unfold crf_modify; cbn [crf_mem crf_path]. by rewrite modify_put.
Qed.

Lemma outcome_regular s :
  outcome (parse_regular m (unchecked (join_path cs)) s)
    (fun m' r => exists x d, m' = put m cs (Regular x d) /\ small d /\
       s = nar_tags ((if x : bool then [ #"executable"; []] else []) ++ [ #"contents"; d; #")"]) ++ r).
Proof using Hcs Ha.
  unfold parse_regular. rewrite (mem_crf_open_put m cs Hcs Ha), plift_bind.
  obind outcome_string. intros tag r (-> & _).
  apply outcome_bind. eapply outcome_mono with (Q := fun ct r' => exists x,
    ct.1 = mkCRF (put m cs (Regular x [])) (unchecked (join_path cs)) /\
    enc_string tag ++ r = nar_tags ((if x : bool then [ #"executable"; []] else []) ++ [ct.2]) ++ r').
  - intros [c tag'] r' (x & Hc & Hs); cbn [fst snd] in *. subst c.
    obind outcome_check. intros _ r0 [Ht ->]. bool_cases. subst tag'.
    obind outcome_contents. intros c r1 (d & -> & Hsm & Hm).
    obind outcome_tag. intros _ r2 ->. cbn [outcome plift mbind result_bind crf_close MemorySink].
    exists x, d. split; [done|]. split; [done|]. rewrite Hs. unfold nar_tags.
    rewrite !fmap_app, !join_app. cbn [fmap list_fmap mjoin list_join]. by rewrite !app_nil_r, <- !app_assoc.
  - case_bool_decide as Hx.
    + subst tag. obind outcome_string. intros s2 r1 (-> & Hl & _).
      obind outcome_check. intros _ r2 [Hs2 ->]. apply negb_false_iff, bool_decide_eq_true in Hs2. subst s2.
      rewrite mem_isExecutable, plift_bind. obind outcome_string. intros tag' r3 (-> & _).
      cbn [outcome mret P_ret]. exists true. cbn [fst snd]. unfold crf_modify; cbn [crf_mem crf_path].
      rewrite modify_put by done. split; [done|]. unfold nar_tags. cbn [fmap list_fmap app mjoin list_join].
      by rewrite !app_nil_r, <- !app_assoc.
    + cbn [outcome mret P_ret]. exists false. cbn [fst snd]. split; [done|]. unfold nar_tags.
      cbn [fmap list_fmap app mjoin list_join]. by rewrite app_nil_r.
Qed.
Lemma outcome_symlink s :
  outcome (parse_symlink m (unchecked (join_path cs)) s)
    (fun m' r => exists t, m' = put m cs (Symlink t) /\ target_ok t /\
       s = nar_tags [ #"target"; t; #")"] ++ r).
Proof using Hcs Ha.
  unfold parse_symlink. obind outcome_tag. intros _ r ->. obind outcome_string. intros t r1 (-> & Hl & _).
  obind outcome_check. intros _ r2 [Ht ->]. bool_cases.
  rewrite (mem_createSymlink_put m cs Hcs Ha), plift_bind. obind outcome_tag. intros _ r3 ->.
  cbn [outcome mret P_ret]. exists t. split; [done|]. split; [done|].
  unfold nar_tags. cbn [fmap list_fmap mjoin list_join]. by rewrite !app_nil_r, <- !app_assoc.
Qed.

(** Directories, given the specification of what parses the children. *)
Context (child : MemorySourceAccessor -> CanonPath -> P MemorySourceAccessor) (R : File -> Prop).
Context (Hchild : forall m cs s, Forall good cs -> absent m cs ->
  outcome (child m (unchecked (join_path cs)) s)
    (fun m' r => exists f, m' = put m cs f /\ s = nar f ++ r /\ ok_file f /\ R f)).

Definition names_below (es : list (bytes * File)) (prev : bytes) : Prop :=
  StronglySorted bytes_lt (es.*1) /\ Forall (fun n => bytes_le n prev) (es.*1).

Lemma names_below_last es prev n :
  names_below es prev -> ~ bytes_le n prev -> Forall (fun k => bytes_lt k n) (es.*1).
Proof using Type.
  intros [_ Hle] Hn%bytes_lt_not_le. eapply Forall_impl; [exact Hle|]. cbn. intros k Hk.
  apply bytes_le_lt in Hk as [Hk| ->]; [|done]. by transitivity prev.
Qed.

Lemma names_below_snoc es prev n f :
  names_below es prev -> ~ bytes_le n prev -> names_below (es ++ [(n, f)]) n.
Proof using Type.
  intros Hb Hn. pose proof (names_below_last es prev n Hb Hn) as Hl. destruct Hb as [Hs _].
  rewrite Forall_forall in Hl. unfold names_below. rewrite fmap_app. cbn [fmap list_fmap fst]. split.
  - apply StronglySorted_app_2; [|done|repeat constructor].
    intros x y Hx ->%list_elem_of_singleton. by apply Hl.
  - apply Forall_app. split; [|by constructor]. apply Forall_forall. intros k Hk%Hl.
    apply bytes_le_lt. by left.
Qed.

Lemma outcome_entries loop es prev s :
  names_below es prev ->
  outcome (parse_entries false child loop (put m cs (Directory es)) (unchecked (join_path cs)) [] prev s)
    (fun m' r => exists es', m' = put m cs (Directory (es ++ es')) /\
       s = mjoin (nar_entry <$> es') ++ enc_string #")" ++ r /\
       StronglySorted bytes_lt ((es ++ es').*1) /\ Forall name_ok (es'.*1) /\
       Forall (fun e => ok_file (e.2) /\ R (e.2)) es').
Proof using Hcs Ha Hchild.
  revert es prev s. induction loop as [|loop IH]; intros es prev s Hb; [cbn; auto|].
  cbn [parse_entries]. obind outcome_string. intros tag r (-> & _). case_bool_decide as Ht.
  { subst tag. cbn [outcome mret P_ret]. exists []. rewrite app_nil_r. cbn [fmap list_fmap mjoin list_join app].
    split; [done|]. split; [done|]. split; [apply Hb|]. split; constructor. }
  obind outcome_check. intros _ r1 [Hc ->]. apply negb_false_iff, bool_decide_eq_true in Hc. subst tag.
  obind outcome_tag. intros _ r2 ->. obind outcome_tag. intros _ r3 ->.
  obind outcome_string. intros name r4 (-> & Hl & _).
  obind outcome_check. intros _ r5 [Hg%name_check_good ->].
  obind outcome_check. intros _ r6 [Hp ->]. apply bool_decide_eq_false in Hp.
  cbn [case_hack]. rewrite plift_bind. obind outcome_tag. intros _ r7 ->.
  rewrite push_join, plift_bind by done.
  pose proof (names_below_last es prev name Hb Hp) as Hlast.
  pose proof (entry_lookup_last _ _ Hlast) as Hnone.
  apply outcome_bind. eapply outcome_mono.
  2: { apply Hchild; [apply Forall_app; auto|by apply absent_below]. }
  cbn beta. intros m' r8 (f & -> & -> & Hok & HR). obind outcome_tag. intros _ r9 ->.
  rewrite put_below, entry_insert_last by done.
  eapply outcome_mono; [|apply (IH _ name); by eapply names_below_snoc].
  cbn beta. intros m2 r10 (es' & -> & -> & Hs & Hn & Hf). exists ((name, f) :: es').
  rewrite <- app_assoc in Hs |- *. split; [done|]. split; [|split; [done|]].
  - unfold nar_entry, nar_tags. cbn [fmap list_fmap mjoin list_join fst snd].
    by rewrite !app_nil_r, <- !app_assoc.
  - split; by constructor.
Qed.
End sound.

Lemma height_Directory d es :
  (d + height (Directory es) <= narMaxDepth)%nat <->
  (d < narMaxDepth)%nat /\ Forall (fun e => (S d + height (e.2) <= narMaxDepth)%nat) es.
Proof.
  cbn [height]. induction es as [|e es IH]; cbn [foldr]; [split; [split; [lia|constructor]|lia]|].
  rewrite Forall_cons. split.
  - intros H. split; [lia|]. split; [lia|]. apply IH. lia.
  - intros (H1 & H2 & H3). assert (d + S (foldr (fun e n => height (e.2) `max` n)%nat 0%nat es) <= narMaxDepth)%nat
      by (apply IH; auto). lia.
Qed.

Lemma height_entry es e fuel : (height (Directory es) <= S fuel)%nat -> e ∈ es -> (height (e.2) <= fuel)%nat.
Proof.
  cbn [height]. induction es as [|y es IH]; [by intros _ ?%not_elem_of_nil|].
  cbn [foldr]. intros Hf [->|He]%elem_of_cons; [lia|]. apply IH; [lia|done].
Qed.

Lemma outcome_parse fuel m cs depth s :
  Forall good cs -> absent m cs ->
  outcome (parse false fuel m (unchecked (join_path cs)) depth s)
    (fun m' r => exists f, m' = put m cs f /\ s = nar f ++ r /\ ok_file f /\
                           (depth + height f <= narMaxDepth)%nat).
Proof.
  revert m cs depth s. induction fuel as [|fuel IH]; intros m cs depth s Hcs Ha; [cbn; auto|].
  cbn [parse]. obind outcome_check. intros _ r [Hd%Nat.leb_gt ->].
  obind outcome_tag. intros _ r ->. obind outcome_tag. intros _ r1 ->.
  obind outcome_string. intros type r2 (-> & _).
  case_bool_decide as H1; [subst type|case_bool_decide as H2; [subst type|case_bool_decide as H3; [subst type|]]].
  - eapply outcome_mono; [|by apply outcome_regular]. cbn beta.
    intros m' r3 (x & d & -> & Hd' & ->). exists (Regular x d). split; [done|]. split; [|split; [by constructor|simpl; lia]].
    cbn [nar]. unfold nar_tags. rewrite !fmap_app, !join_app.
    cbn [fmap list_fmap mjoin list_join]. by rewrite !app_nil_r, <- !app_assoc.
  - rewrite mem_enterDirectory_put, plift_bind by done. unfold with_input.
    apply outcome_bind. eapply outcome_mono; [|apply (outcome_entries m cs Hcs Ha _ (fun f => S depth + height f <= narMaxDepth)%nat)].
    + cbn beta. intros m' r3 (es & -> & -> & Hs & Hn & Hf). cbn [app plift mbind result_bind leaveDirectory MemorySink default_leave outcome] in *.
      apply Forall_and in Hf as [Hf1 Hf2]. exists (Directory es). split; [done|].
      split; [|split; [by constructor|by apply height_Directory]].
      rewrite nar_Directory. unfold nar_tags. cbn [fmap list_fmap mjoin list_join].
      by rewrite !app_nil_r, <- !app_assoc.
    + intros m' cs' s' Hcs' Ha'. by apply IH.
    + split; constructor.
  - eapply outcome_mono; [|by apply outcome_symlink]. cbn beta.
    intros m' r3 (t & -> & Ht & ->). exists (Symlink t). split; [done|]. split; [|split; [by constructor|simpl; lia]].
    cbn [nar]. unfold nar_tags. cbn [fmap list_fmap mjoin list_join]. by rewrite !app_nil_r, <- !app_assoc.
  - cbn. auto.
Qed.

(** *** Parsing an encoding *)

Lemma nar_tags_cons t ts r : nar_tags (t :: ts) ++ r = enc_string t ++ nar_tags ts ++ r.
Proof. unfold nar_tags. cbn [fmap list_fmap mjoin list_join]. by rewrite <- app_assoc. Qed.
Lemma nar_tags_app ts us r : nar_tags (ts ++ us) ++ r = nar_tags ts ++ nar_tags us ++ r.
Proof. unfold nar_tags. by rewrite fmap_app, join_app, <- app_assoc. Qed.

Lemma bind_string {A} max x s (k : bytes -> P A) :
  (Z.of_nat (length x) <= max)%Z -> (max < 2 ^ 64)%Z ->
  (pString max ≫= k) (enc_string x ++ s) = k x s.
Proof. intros H1 H2. unfold mbind, P_bind. by rewrite pString_enc. Qed.

Lemma bind_tag {A} x s (k : unit -> P A) :
  (Z.of_nat (length x) <= narMaxTag)%Z -> (expectTag x ≫= k) (enc_string x ++ s) = k () s.
Proof.
  intros Hx. unfold mbind at 1, P_bind at 1, expectTag. rewrite bind_string by (unfold narMaxTag in *; lia).
  by rewrite bool_decide_true.
Qed.

Lemma bind_check {A} e s (k : unit -> P A) : (plift (throw_if false e) ≫= k) s = k () s.
Proof. done. Qed.

Lemma nar_tags_app' ts us : nar_tags (ts ++ us) = nar_tags ts ++ nar_tags us.
Proof. unfold nar_tags. by rewrite fmap_app, join_app. Qed.
Lemma nar_tags_nil r : nar_tags [] ++ r = r.
Proof. done. Qed.

(** Steps over the string at the head of the input. *)
Ltac eat_string tac := rewrite nar_tags_cons, bind_string by tac; rewrite ?nar_tags_nil.
Ltac eat_tag := rewrite nar_tags_cons, bind_tag by (vm_compute; discriminate); rewrite ?nar_tags_nil.

Lemma plift_cases {A B} (m : result A) (k : A -> P B) s : (plift m ≫= k) s = (a ← m; k a s).
Proof. by destruct m. Qed.
Lemma Ok_bind {A B} (a : A) (k : A -> result B) : (Ok a ≫= k) = k a.
Proof. done. Qed.
Lemma P_bind_Ok {A B} (p : P A) (k : A -> P B) s a r : p s = Ok (a, r) -> (p ≫= k) s = k a r.
Proof. unfold mbind, P_bind. by intros ->. Qed.

(** Does one operation of a sink, the same on both sides of an equation. *)
Ltac sink_op :=
  rewrite plift_cases;
  match goal with |- (?m ≫= _) = _ => destruct m as [?|]; [|done] end;
  cbn [mbind result_bind].

Section parse_build.
Context {F C : Type} `{FileSystemObjectSink F C}.
Context (wants_contents : forall c, crf_skipContents c = false).

Lemma parseContents_build (c : C) d r :
  small d ->
  parseContents c (enc_string d ++ r) =
  (c ← crf_preallocate c (Z.of_nat (length d)); c ← crf_write c d; Ok (c, r)).
Proof using wants_contents.
  intros Hd. unfold parseContents, enc_string, small in *. rewrite <- !app_assoc.
  rewrite (P_bind_Ok _ _ _ (Z.of_nat (length d)) (d ++ pad_bytes (length d) ++ r)) by (apply pNum_enc; unfold max_u64; lia).
  sink_op.
  rewrite wants_contents, (P_bind_Ok _ _ _ d (pad_bytes (length d) ++ r)).
  - sink_op. by rewrite (P_bind_Ok _ _ _ () r) by (rewrite Nat2Z.id; apply pPadding_pad).
  - unfold pGetZ. rewrite (proj2 (Z.leb_le _ _)) by (rewrite length_app; lia). by rewrite Nat2Z.id, pGet_app.
Qed.

Lemma parse_regular_build f path x d r :
  small d ->
  parse_regular f path
    (nar_tags ((if x : bool then [ #"executable"; []] else []) ++ [ #"contents"; d; #")"]) ++ r)
  = (f' ← build_regular f path x d; Ok (f', r)).
Proof using wants_contents.
  intros Hd. unfold parse_regular, build_regular. sink_op.
  assert (forall c : C, (c' ← parseContents c; _ ← expectTag #")"; plift (crf_close c')) (enc_string d ++ enc_string #")" ++ r)
     = (f' ← (c ← crf_preallocate c (Z.of_nat (length d)); c ← crf_write c d; crf_close c); Ok (f', r))) as Hrest.
  { intros c. unfold mbind at 1, P_bind at 1. rewrite parseContents_build by done.
    destruct (crf_preallocate c _) as [c1|]; [|done]. cbn [mbind result_bind].
    destruct (crf_write c1 d) as [c2|]; [|done]. cbn [mbind result_bind].
    by rewrite bind_tag by (vm_compute; discriminate). }
  destruct x; cbn [app]; rewrite !nar_tags_cons; change (nar_tags [] ++ r) with r.
  - rewrite bind_string by (vm_compute; congruence). unfold mbind at 1, P_bind at 1.
    rewrite bool_decide_true by done. rewrite bind_string by (vm_compute; congruence).
    rewrite bool_decide_true, bind_check by done. rewrite plift_cases.
    destruct (crf_isExecutable _) as [c1|]; [|done]. cbn [mbind result_bind].
    rewrite bind_string by (vm_compute; congruence). cbn [mret P_ret].
    rewrite bool_decide_true, bind_check by done. apply Hrest.
  - rewrite bind_string by (vm_compute; congruence). unfold mbind at 1, P_bind at 1.
    rewrite bool_decide_false by done. cbn [mret P_ret].
    rewrite bool_decide_true, bind_check by done. apply Hrest.
Qed.

(** Directories, given a parser that reads the encodings of the children. *)
Lemma parse_entries_build (child : F -> CanonPath -> P F) loop es : forall d rel prev r,
  Forall (fun e => forall d p r, child d p (nar (e.2) ++ r) = (d' ← build d p (e.2); Ok (d', r))) es ->
  StronglySorted bytes_lt (es.*1) -> Forall (fun n => ~ bytes_le n prev) (es.*1) -> Forall name_ok (es.*1) ->
  (length es < loop)%nat ->
  parse_entries false child loop d rel [] prev (mjoin (nar_entry <$> es) ++ nar_tags [ #")"] ++ r)
  = (d' ← build_entries rel d es; Ok (d', r)).
Proof using wants_contents.
  revert loop. induction es as [|[n f] es IH]; intros loop d rel prev r Hch Hs Hp Hn Hl;
    (destruct loop as [|loop]; [simpl in Hl; lia|]); cbn [parse_entries fmap list_fmap mjoin list_join].
  - change ([] ++ nar_tags [ #")"] ++ r) with (nar_tags [ #")"] ++ r). eat_string ltac:(vm_compute; congruence).
    by rewrite bool_decide_true by done.
  - apply Forall_cons in Hch as [Hf Hch]. cbn [fmap list_fmap fst snd] in *.
    apply Forall_cons in Hp as [Hp1 Hp], Hn as [[Hg Hlen] Hn].
    unfold nar_entry at 1. cbn [fst snd]. rewrite <- !app_assoc.
    eat_string ltac:(vm_compute; congruence). rewrite bool_decide_false by done. rewrite bool_decide_true, bind_check by done.
    do 2 eat_tag. eat_string ltac:(done || (vm_compute; congruence)).
    assert (bad_name n = false) as ->.
    { unfold bad_name. destruct Hg as (?&?&?&?&?). by rewrite !bool_decide_false. }
    rewrite bind_check, (bool_decide_false _ Hp1), bind_check. cbn [case_hack]. rewrite plift_bind.
    eat_tag. unfold build_entries. cbn [foreach fst snd]. rewrite plift_cases.
    destruct (concat_comp rel n) as [p|]; [|done]. rewrite !Ok_bind.
    unfold mbind at 1, P_bind at 1. rewrite Hf. destruct (build d p f) as [d1|]; [|done]. rewrite !Ok_bind.
    eat_tag. apply IH; [done|by apply StronglySorted_inv in Hs as [? _]| |done|simpl in Hl; lia].
    apply StronglySorted_inv in Hs as [_ Hs].
    eapply Forall_impl; [exact Hs|]. cbn. intros k Hk Hle. apply bytes_le_lt in Hle as [Hle| ->].
    + apply (irreflexivity bytes_lt n). by transitivity k.
    + by apply (irreflexivity bytes_lt n).
Qed.

Lemma nar_entries_length (es : list (bytes * File)) : (length es <= length (mjoin (nar_entry <$> es)))%nat.
Proof using Type.
  induction es as [|e es IH]; cbn [length]; [lia|].
  rewrite fmap_cons. change (mjoin (nar_entry e :: ?l)) with (nar_entry e ++ mjoin l).
  unfold nar_entry at 1. rewrite <- !app_assoc, nar_tags_cons, !length_app.
  match goal with |- context [length (enc_string ?x)] => pose proof (enc_string_length x) end. lia.
Qed.

(** Parsing the encoding of a file has the sink build it. *)
Lemma parse_build file : forall fuel f path depth r,
  ok_file file -> (height file <= fuel)%nat -> (depth + height file <= narMaxDepth)%nat ->
  parse false fuel f path depth (nar file ++ r) = (f' ← build f path file; Ok (f', r)).
Proof using wants_contents.
  induction file as [x d|es IHes|t] using File_ind'; intros fuel f path depth r Hok Hf Hd;
    (destruct fuel as [|fuel]; [simpl in Hf; lia|]); cbn [parse].
  - rewrite (proj2 (Nat.leb_gt _ _)), bind_check by (simpl in Hd; lia). cbn [nar build].
    rewrite <- !app_assoc. do 2 eat_tag.
    rewrite nar_tags_app. eat_string ltac:(vm_compute; congruence).
    rewrite bool_decide_true by done. inversion_clear Hok.
    rewrite <- nar_tags_app, <- app_assoc. by apply parse_regular_build.
  - apply height_Directory in Hd as [Hd1 Hd2]. rewrite (proj2 (Nat.leb_gt _ _)), bind_check by lia.
    rewrite nar_Directory, <- !app_assoc. do 2 eat_tag. eat_string ltac:(vm_compute; congruence).
    rewrite bool_decide_false, bool_decide_true by done. rewrite build_Directory, plift_cases.
    destruct (enterDirectory f path) as [[d rel]|]; [|done]. rewrite !Ok_bind.
    unfold with_input, mbind at 1, P_bind at 1. inversion_clear Hok as [|? Hs Hn Hok'|].
    rewrite (parse_entries_build _ _ es); [|..|done|].
    + destruct (build_entries rel d es) as [d'|]; [|done]. rewrite !Ok_bind.
      unfold plift. by destruct (leaveDirectory f path d').
    + rewrite Forall_forall in *. intros e He d' p' r'. pose proof (height_entry _ _ _ Hf He). apply IHes; auto.
    + done.
    + eapply Forall_impl; [exact Hn|]. cbn. intros n [(Hn1 & _) _] Hle. destruct n; [done|].
      apply bytes_le_lt in Hle as [Hle|Hle]; done.
    + rewrite length_app. pose proof (nar_entries_length es). lia.
  - rewrite (proj2 (Nat.leb_gt _ _)), bind_check by (simpl in Hd; lia). cbn [nar build].
    rewrite <- !app_assoc. do 2 eat_tag. eat_string ltac:(vm_compute; congruence).
    rewrite !bool_decide_false, bool_decide_true by done. inversion_clear Hok as [| |? Ht].
    unfold parse_symlink. eat_tag. destruct Ht as (Ht1 & Ht2 & Ht3).
    eat_string ltac:(done || (vm_compute; congruence)).
    rewrite !bool_decide_false by done. cbn [orb]. rewrite bind_check. sink_op. by eat_tag.
Qed.
End parse_build.

(** *** What has been parsed is an encoding, whatever the sink *)

Definition parsed {A} (r : result (A * bytes)) (Q : A -> bytes -> Prop) : Prop :=
  match r with Ok (a, r') => Q a r' | Throw _ => True end.

Lemma parsed_outcome {A} (r : result (A * bytes)) Q : outcome r Q -> parsed r Q.
Proof. by destruct r as [[a r']|e]. Qed.
Lemma parsed_bind {A B} (p : P A) (k : A -> P B) s Q :
  parsed (p s) (fun a r => parsed (k a r) Q) -> parsed ((p ≫= k) s) Q.
Proof. unfold mbind, P_bind. by destruct (p s) as [[a r]|e]. Qed.
Lemma parsed_mono {A} (r : result (A * bytes)) (Q Q' : A -> bytes -> Prop) :
  (forall a r', Q a r' -> Q' a r') -> parsed r Q -> parsed r Q'.
Proof. destruct r as [[a r']|e]; cbn; auto. Qed.
Lemma parsed_lift {A B} (m : result A) (k : A -> P B) s Q :
  (forall a, m = Ok a -> parsed (k a s) Q) -> parsed ((plift m ≫= k) s) Q.
Proof. intros Hm. rewrite plift_cases. destruct m; [by apply Hm|done]. Qed.

Ltac pbind L := apply parsed_bind; eapply parsed_mono; [|apply parsed_outcome, L]; cbn beta.

Section parsed.
Context {F C : Type} `{FileSystemObjectSink F C}.
Context (wants_contents : forall c, crf_skipContents c = false).

Lemma parsed_contents (c : C) s : parsed (parseContents c s) (fun _ r => exists d, s = enc_string d ++ r /\ small d).
Proof using wants_contents.
  unfold parseContents. pbind outcome_num. intros n r [-> Hn]. apply parsed_lift. intros c1 _.
  rewrite wants_contents. pbind outcome_getZ; [|lia]. intros d r' [-> Hd].
  apply parsed_lift. intros c2 _. pbind outcome_padding. intros _ r'' ->. cbn.
  exists d. unfold enc_string, small, max_u64 in *. rewrite <- Hd, Nat2Z.id, <- !app_assoc. split; [done|lia].
Qed.

Lemma parsed_regular (f : F) path s :
  parsed (parse_regular f path s) (fun _ r => exists x d, small d /\
    s = nar_tags ((if x : bool then [ #"executable"; []] else []) ++ [ #"contents"; d; #")"]) ++ r).
Proof using wants_contents.
  unfold parse_regular. apply parsed_lift. intros c _. pbind outcome_string. intros tag r (-> & _).
  apply parsed_bind. eapply parsed_mono with (Q := fun ct r' => exists x,
    enc_string tag ++ r = nar_tags ((if x : bool then [ #"executable"; []] else []) ++ [ct.2]) ++ r').
  - intros [c1 tag'] r' (x & Hs); cbn [snd] in Hs.
    pbind outcome_check. intros _ r0 [Ht ->]. bool_cases. subst tag'.
    apply parsed_bind. eapply parsed_mono; [|apply parsed_contents]. intros c2 r1 (d & -> & Hsm).
    pbind outcome_tag. intros _ r2 ->. unfold plift. destruct (crf_close c2); cbn; [|done].
    exists x, d. split; [done|]. rewrite Hs. unfold nar_tags.
    rewrite !fmap_app, !join_app. cbn [fmap list_fmap mjoin list_join]. by rewrite !app_nil_r, <- !app_assoc.
  - case_bool_decide as Hx.
    + subst tag. pbind outcome_string. intros s2 r1 (-> & Hl & _).
      pbind outcome_check. intros _ r2 [Hs2 ->]. apply negb_false_iff, bool_decide_eq_true in Hs2. subst s2.
      apply parsed_lift. intros c1 _. pbind outcome_string. intros tag' r3 (-> & _). cbn.
      exists true. unfold nar_tags. cbn [fmap list_fmap app mjoin list_join]. by rewrite !app_nil_r, <- !app_assoc.
    + cbn. exists false. unfold nar_tags. cbn [fmap list_fmap app mjoin list_join]. by rewrite app_nil_r.
Qed.

Lemma parsed_symlink (f : F) path s :
  parsed (parse_symlink f path s) (fun _ r => exists t, target_ok t /\ s = nar_tags [ #"target"; t; #")"] ++ r).
Proof using Type.
  unfold parse_symlink. pbind outcome_tag. intros _ r ->. pbind outcome_string. intros t r1 (-> & Hl & _).
  pbind outcome_check. intros _ r2 [Ht ->]. bool_cases.
  apply parsed_lift. intros f1 _. pbind outcome_tag. intros _ r3 ->. cbn. exists t. split; [done|].
  unfold nar_tags. cbn [fmap list_fmap mjoin list_join]. by rewrite !app_nil_r, <- !app_assoc.
Qed.

Lemma parsed_entries (child : F -> CanonPath -> P F) (R : File -> Prop) loop :
  (forall f p s, parsed (child f p s) (fun _ r => exists g, s = nar g ++ r /\ ok_file g /\ R g)) ->
  forall d rel prev s,
  parsed (parse_entries false child loop d rel [] prev s)
    (fun _ r => exists es, s = mjoin (nar_entry <$> es) ++ enc_string #")" ++ r /\
       StronglySorted bytes_lt (es.*1) /\ Forall (fun n => bytes_lt prev n) (es.*1) /\ Forall name_ok (es.*1) /\
       Forall (fun e => ok_file (e.2) /\ R (e.2)) es).
Proof using Type.
  intros Hchild. induction loop as [|loop IH]; intros d rel prev s; [done|].
  cbn [parse_entries]. pbind outcome_string. intros tag r (-> & _). case_bool_decide as Ht.
  { subst tag. cbn. exists []. repeat split; constructor. }
  pbind outcome_check. intros _ r1 [Hc ->]. apply negb_false_iff, bool_decide_eq_true in Hc. subst tag.
  pbind outcome_tag. intros _ r2 ->. pbind outcome_tag. intros _ r3 ->.
  pbind outcome_string. intros name r4 (-> & Hl & _).
  pbind outcome_check. intros _ r5 [Hg%name_check_good ->].
  pbind outcome_check. intros _ r6 [Hp ->]. apply bool_decide_eq_false in Hp.
  cbn [case_hack]. rewrite plift_bind. pbind outcome_tag. intros _ r7 ->.
  apply parsed_lift. intros p _. apply parsed_bind. eapply parsed_mono; [|apply Hchild].
  cbn beta. intros d' r8 (g & -> & Hok & HR). pbind outcome_tag. intros _ r9 ->.
  eapply parsed_mono; [|apply IH]. cbn beta. intros d2 r10 (es & -> & Hs & Hlt & Hn & Hf). exists ((name, g) :: es).
  apply bytes_lt_not_le in Hp. split; [|split; [by constructor|split; [|split; [by constructor|by constructor]]]].
  - unfold nar_entry, nar_tags. cbn [fmap list_fmap mjoin list_join fst snd]. by rewrite !app_nil_r, <- !app_assoc.
  - constructor; [done|]. eapply Forall_impl; [exact Hlt|]. cbn. intros n Hn'. by transitivity name.
Qed.

Lemma parse_parsed fuel : forall (f : F) path depth s,
  parsed (parse false fuel f path depth s)
    (fun _ r => exists file, s = nar file ++ r /\ ok_file file /\ (depth + height file <= narMaxDepth)%nat).
Proof using wants_contents.
  induction fuel as [|fuel IH]; intros f path depth s; [done|].
  cbn [parse]. pbind outcome_check. intros _ r [Hd%Nat.leb_gt ->].
  pbind outcome_tag. intros _ r ->. pbind outcome_tag. intros _ r1 ->.
  pbind outcome_string. intros type r2 (-> & _).
  case_bool_decide as H1; [subst type|case_bool_decide as H2; [subst type|case_bool_decide as H3; [subst type|]]].
  - eapply parsed_mono; [|apply parsed_regular]. cbn beta.
    intros m' r3 (x & d & Hd' & ->). exists (Regular x d). split; [|split; [by constructor|simpl; lia]].
    cbn [nar]. unfold nar_tags. rewrite !fmap_app, !join_app.
    cbn [fmap list_fmap mjoin list_join]. by rewrite !app_nil_r, <- !app_assoc.
  - apply parsed_lift. intros [d rel] _. unfold with_input. apply parsed_bind.
    eapply parsed_mono; [|apply (parsed_entries _ (fun g => S depth + height g <= narMaxDepth)%nat); intros; apply IH].
    cbn beta. intros d' r3 (es & -> & Hs & _ & Hn & Hf). unfold plift. destruct (leaveDirectory f path d'); cbn; [|done].
    apply Forall_and in Hf as [Hf1 Hf2]. exists (Directory es).
    split; [|split; [by constructor|by apply height_Directory]].
    rewrite nar_Directory. unfold nar_tags. cbn [fmap list_fmap mjoin list_join].
    by rewrite !app_nil_r, <- !app_assoc.
  - eapply parsed_mono; [|apply parsed_symlink]. cbn beta.
    intros m' r3 (t & Ht & ->). exists (Symlink t). split; [|split; [by constructor|simpl; lia]].
    cbn [nar]. unfold nar_tags. cbn [fmap list_fmap mjoin list_join]. by rewrite !app_nil_r, <- !app_assoc.
  - done.
Qed.
End parsed.

(** The memory sink puts the file in place. *)
Lemma build_put file : forall m cs,
  ok_file file -> Forall good cs -> absent m cs ->
  build m (unchecked (join_path cs)) file = Ok (put m cs file).
Proof.
  induction file as [x d|es IHes|t] using File_ind'; intros m cs Hok Hcs Ha.
  - cbn [build]. unfold build_regular. rewrite mem_crf_open_put by done. cbn [mbind result_bind].
    inversion_clear Hok as [? ? Hd| |].
    assert (Z.of_nat (length d) <= max_u64)%Z by (unfold small, max_u64 in *; lia).
    destruct x; cbn [mbind result_bind]; rewrite ?mem_isExecutable; cbn [mbind result_bind];
      rewrite mem_preallocate by done; cbn [mbind result_bind]; rewrite mem_write; cbn [mbind result_bind crf_close MemorySink];
      unfold crf_modify; cbn [crf_mem crf_path]; by rewrite ?modify_put.
  - rewrite build_Directory, mem_enterDirectory_put by done. cbn [mbind result_bind].
    inversion_clear Hok as [|? Hs Hn Hok'|]. cbn [leaveDirectory MemorySink default_leave].
    enough (forall es2 es1, es = es1 ++ es2 ->
      build_entries (unchecked (join_path cs)) (put m cs (Directory es1)) es2 = Ok (put m cs (Directory es))) as Hall
      by (by rewrite (Hall es [])).
    induction es2 as [|[n f] es2 IH]; intros es1 ->; unfold build_entries; cbn [foreach].
    { by rewrite app_nil_r. }
    assert (name_ok n) as [Hg _] by (rewrite Forall_forall in Hn; apply Hn; rewrite fmap_app; set_solver).
    cbn [fst snd]. rewrite push_join by done. cbn [mbind result_bind].
    assert (Forall (fun k => bytes_lt k n) (es1.*1)) as Hlast.
    { apply Forall_forall. intros k Hk. rewrite fmap_app in Hs. apply StronglySorted_app in Hs as (Hs & _ & _).
      apply (Hs k n Hk). left. }
    pose proof (entry_lookup_last _ _ Hlast) as Hnone.
    rewrite Forall_forall in IHes, Hok'. rewrite (IHes (n, f) ltac:(set_solver)); cbn [snd].
    + cbn [mbind result_bind]. rewrite put_below, entry_insert_last by done.
      apply (IH (es1 ++ [(n, f)])). by rewrite <- app_assoc.
    + apply (Hok' (n, f)). set_solver.
    + apply Forall_app; auto.
    + by apply absent_below.
  - cbn [build]. by apply mem_createSymlink_put.
Qed.

Lemma parse_nar f fuel m cs depth r :
  ok_file f -> Forall good cs -> absent m cs -> (height f <= fuel)%nat -> (depth + height f <= narMaxDepth)%nat ->
  parse false fuel m (unchecked (join_path cs)) depth (nar f ++ r) = Ok (put m cs f, r).
Proof. intros Hok Hcs Ha Hf Hd. rewrite parse_build by done. by rewrite build_put. Qed.


(** *** Writing a file of the memory file system *)

Lemma open_at_read r ns b f :
  node_at r ns = Some f -> exists r', open_at r ns None b = Ok (Some r') /\ node_at r' ns = Some f.
Proof.
  revert r b; induction ns as [|n ns IH]; intros r b Hn; cbn [node_at open_at] in *; [by eexists|].
  destruct r as [| es |]; try done. destruct (entry_lookup n es) as [g|] eqn:Hg; [|done].
  destruct (IH g b Hn) as (r' & -> & Hr). cbn [mbind result_bind option_map]. eexists. split; [done|].
  cbn [node_at]. by rewrite entry_lookup_insert.
Qed.

(** The file at [cs] in the memory file system. *)
Definition file_at (m : MemorySourceAccessor) (cs : list bytes) : option File :=
  match mroot m with Some r => node_at r cs | None => None end.

Lemma open_read_at m cs f :
  Forall good cs -> file_at m cs = Some f -> open_read m (unchecked (join_path cs)) = Ok (Some f).
Proof.
  intros Hcs Hf. unfold open_read, open, file_at in *. destruct (mroot m) as [r|]; [|done].
  rewrite elems_p by done. destruct (open_at_read r cs false f Hf) as (r' & -> & Hr).
  cbn [mbind result_bind]. unfold pointee. cbn [mroot mbind option_bind]. rewrite elems_p by done. by rewrite Hr.
Qed.

Lemma node_at_app r ns ms : node_at r (ns ++ ms) = (f ← node_at r ns; node_at f ms).
Proof.
  revert r; induction ns as [|n ns IH]; intros r; [done|]. cbn [node_at app].
  destruct r as [| es |]; try done. destruct (entry_lookup n es) as [g|]; [apply IH|done].
Qed.

Lemma file_at_child m cs es1 n f es2 :
  file_at m cs = Some (Directory (es1 ++ (n, f) :: es2)) ->
  StronglySorted bytes_lt ((es1 ++ (n, f) :: es2).*1) -> file_at m (cs ++ [n]) = Some f.
Proof.
  intros Hf Hs. unfold file_at in *. destruct (mroot m) as [r|]; [|done].
  rewrite node_at_app, Hf. cbn. by rewrite entry_lookup_sorted.
Qed.

(** Inserting in increasing order appends. *)
Lemma sorted_last {A B} (g : bytes * A -> B) (acc : list (bytes * B)) n x (l : list (bytes * A)) :
  StronglySorted bytes_lt (acc.*1 ++ ((n, x) :: l).*1) -> Forall (fun k => bytes_lt k n) (acc.*1).
Proof.
  intros (Hlt & _ & _)%StronglySorted_app. apply Forall_forall. intros k Hk. apply Hlt; [done|left].
Qed.

Lemma mem_readDirectory_sorted m cs es :
  Forall good cs -> file_at m cs = Some (Directory es) -> StronglySorted bytes_lt (es.*1) ->
  mem_readDirectory m (unchecked (join_path cs)) = Ok ((fun e => (e.1, Some (st_type (file_lstat (e.2))))) <$> es).
Proof.
  intros Hcs Hf Hs. unfold mem_readDirectory. rewrite (open_read_at m cs _ Hcs Hf). cbn [mbind result_bind from_opt].
  f_equal. assert (forall (acc : list (bytes * option Type_)), StronglySorted bytes_lt (acc.*1 ++ es.*1) ->
    foldl (fun res e => entry_insert (e.1) (Some (st_type (file_lstat (e.2)))) res) acc es
    = acc ++ ((fun e : bytes * File => (e.1, Some (st_type (file_lstat (e.2))))) <$> es)) as H; [|by apply H].
  clear. induction es as [|[n f] es IH]; intros acc Hs; [by rewrite app_nil_r|].
  cbn [foldl fmap list_fmap fst snd]. rewrite entry_insert_last by (by eapply (sorted_last (fun _ => None))).
  rewrite IH; [by rewrite <- app_assoc|]. rewrite fmap_app, <- app_assoc. exact Hs.
Qed.

Lemma unhack_sorted (l : list (bytes * option Type_)) :
  StronglySorted bytes_lt (l.*1) -> unhack false l = Ok ((fun e => (e.1, e.1)) <$> l).
Proof.
  intros Hs. unfold unhack. cbn [negb].
  match goal with |- foreach ?g [] l = _ => assert (forall acc : list (bytes * bytes), StronglySorted bytes_lt (acc.*1 ++ l.*1) ->
    foreach g acc l = Ok (acc ++ ((fun e => (e.1, e.1)) <$> l))) as H end; [|by apply H].
  clear. induction l as [|[n f] l IH]; intros acc Hs; [by rewrite app_nil_r|].
  cbn [foreach fmap list_fmap fst snd]. pose proof (sorted_last (fun _ => n) acc n f l Hs) as Hl.
  rewrite (entry_lookup_last n acc Hl), (entry_insert_last n n acc Hl). cbn [mbind result_bind].
  rewrite IH; [by rewrite <- app_assoc|]. rewrite fmap_app, <- app_assoc. exact Hs.
Qed.

Lemma unhack_all (es : list (bytes * File)) :
  StronglySorted bytes_lt (es.*1) ->
  unhack false (filter (fun e => is_special e = false) ((fun e => (e.1, Some (st_type (file_lstat (e.2))))) <$> es))
  = Ok ((fun e => (e.1, e.1)) <$> es).
Proof.
  intros Hs. assert (forall l : list (bytes * File),
    filter (fun e => is_special e = false) ((fun e => (e.1, Some (st_type (file_lstat (e.2))))) <$> l)
    = ((fun e => (e.1, Some (st_type (file_lstat (e.2))))) <$> l)) as ->.
  { induction l as [|[n g] l IH]; [done|]. rewrite fmap_cons, filter_cons_True by (by destruct g). by rewrite IH. }
  rewrite unhack_sorted; by rewrite <- list_fmap_compose.
Qed.

(** What the filter leaves of a file. *)
Fixpoint prune (flt : bytes -> bool) (ds : list bytes) (f : File) : File :=
  match f with
  | Directory es =>
      Directory ((fix go l := match l with
                              | [] => []
                              | e :: l => if flt (join_path (ds ++ [e.1]))
                                          then (e.1, prune flt (ds ++ [e.1]) (e.2)) :: go l else go l
                              end) es)
  | f => f
  end.

Lemma prune_Directory flt ds es :
  prune flt ds (Directory es) =
  Directory (mjoin ((fun e => if flt (join_path (ds ++ [e.1]))
                              then [(e.1, prune flt (ds ++ [e.1]) (e.2))] else []) <$> es)).
Proof.
  cbn [prune]. f_equal. induction es as [|e es IH]; [done|].
  cbn [fmap list_fmap mjoin list_join]. destruct (flt _); cbn [app]; [f_equal|]; apply IH.
Qed.

Lemma join_cons {A} (x : list A) l : mjoin (x :: l) = x ++ mjoin l.
Proof. done. Qed.

Lemma prune_entries (flt : bytes -> bool) (ds : list bytes) (es : list (bytes * File)) :
  mjoin (nar_entry <$> mjoin ((fun e : bytes * File => if flt (join_path (ds ++ [e.1]))
                              then [(e.1, prune flt (ds ++ [e.1]) (e.2))] else []) <$> es)) =
  mjoin ((fun e : bytes * File => if flt (join_path (ds ++ [e.1]))
                   then nar_entry (e.1, prune flt (ds ++ [e.1]) (e.2)) else []) <$> es).
Proof.
  induction es as [|e es IH]; [done|]. rewrite !fmap_cons, !join_cons, fmap_app, join_app, IH.
  f_equal. destruct (flt _); [|done]. apply app_nil_r.
Qed.

Section dumping.
Context {T : Type} `{Sink T}.
Context (sink_nil : forall t, sink t [] = Ok t).
Context (sink_app : forall t a b, (t ← sink t a; sink t b) = sink t (a ++ b)).

Lemma first_string {B} (t : T) x (k : T -> result B) :
  (writeString x t ≫= k) = (sink t (nar_tags [x]) ≫= k).
Proof using sink_app sink_nil.
  unfold nar_tags. cbn [fmap list_fmap mjoin list_join]. rewrite app_nil_r. by rewrite writeString_eq.
Qed.
Lemma after_sink {B} (t : T) a b (k : T -> result B) :
  (sink t a ≫= fun t => sink t b ≫= k) = (sink t (a ++ b) ≫= k).
Proof using sink_app. rewrite <- sink_app. by destruct (sink t a). Qed.
Lemma after_string {B} (t : T) a x (k : T -> result B) :
  (sink t a ≫= fun t => writeString x t ≫= k) = (sink t (a ++ nar_tags [x]) ≫= k).
Proof using sink_app sink_nil.
  rewrite <- sink_app. destruct (sink t a); [|done]. cbn [mbind result_bind].
  unfold nar_tags. cbn [fmap list_fmap mjoin list_join]. rewrite app_nil_r. by rewrite writeString_eq.
Qed.
Lemma after_end (t : T) a x : (sink t a ≫= fun t => writeString x t) = sink t (a ++ nar_tags [x]).
Proof using sink_app sink_nil.
  rewrite <- sink_app. destruct (sink t a); [|done]. cbn [mbind result_bind].
  unfold nar_tags. cbn [fmap list_fmap mjoin list_join]. rewrite app_nil_r. by apply writeString_eq.
Qed.
Lemma after_eq {B} (t : T) a (k k' : T -> result B) :
  (forall t, k t = k' t) -> (sink t a ≫= k) = (sink t a ≫= k').
Proof using Type. intros Hk. by destruct (sink t a); cbn. Qed.

Lemma after_nested {B} (t : T) a x (g : T -> result T) (k : T -> result B) :
  (sink t a ≫= fun t => (writeString x t ≫= g) ≫= k) =
  (sink t (a ++ nar_tags [x]) ≫= fun t => g t ≫= k).
Proof using sink_app sink_nil.
  rewrite <- after_string. apply after_eq. intros t'. by destruct (writeString x t').
Qed.

Lemma foreach_sink_in {A} (f : T -> A -> result T) enc l t :
  (forall t x, x ∈ l -> f t x = sink t (enc x)) -> foreach f t l = sink t (mjoin (enc <$> l)).
Proof using sink_app sink_nil.
  revert t; induction l as [|x l IH]; intros t Hf; [by rewrite sink_nil|].
  cbn [foreach fmap list_fmap mjoin list_join]. rewrite Hf, <- sink_app by left.
  destruct (sink t (enc x)); [|done]. apply IH. intros. apply Hf. by right.
Qed.

Lemma foreach_fmap {A B S} (f : S -> B -> result S) (g : A -> B) s l :
  foreach f s (g <$> l) = foreach (fun s x => f s (g x)) s l.
Proof using Type.
  revert s; induction l as [|x l IH]; intros s; [done|]. cbn. destruct (f s (g x)); [apply IH|done].
Qed.

Lemma parens (t : T) (body : T -> result T) x y :
  (forall t, body t = sink t x) -> y = nar_tags [ #"("] ++ x ++ nar_tags [ #")"] ->
  (t ← writeString #"(" t; t ← body t; writeString #")" t) = sink t y.
Proof using sink_app sink_nil.
  intros Hb ->. rewrite first_string, app_assoc, <- (sink_app t), <- (sink_app t).
  destruct (sink t _) as [t1|]; [|done]. cbn [mbind result_bind]. rewrite Hb.
  destruct (sink t1 x) as [t2|]; [|done]. cbn [mbind result_bind].
  unfold nar_tags. cbn [fmap list_fmap mjoin list_join]. rewrite app_nil_r. by apply writeString_eq.
Qed.

Context (m : MemorySourceAccessor) (flt : bytes -> bool).

Lemma dumpContents_nar cs x d t :
  Forall good cs -> file_at m cs = Some (Regular x d) ->
  dumpContents (memory_accessor m) (unchecked (join_path cs)) t = sink t (nar_tags [ #"contents"; d]).
Proof using sink_app sink_nil.
  intros Hcs Hf. unfold dumpContents. rewrite first_string.
  cbn [readFile memory_accessor]. unfold mem_readFile. rewrite (open_read_at m cs _ Hcs Hf). cbn [mbind result_bind from_opt].
  erewrite after_eq; [|intros t'; rewrite sink_num_eq, after_sink; cbn [mbind result_bind]; rewrite Nat2Z.id;
    apply after_eq; intros; apply writePadding_eq; exact sink_nil].
  erewrite after_eq; [|intros t'; apply sink_app]. rewrite sink_app. f_equal.
  unfold nar_tags, enc_string. cbn [fmap list_fmap mjoin list_join app].
  by rewrite !app_nil_r, <- !app_assoc.
Qed.

Lemma dump_nar f : forall fuel cs ds depth t,
  ok_file f -> Forall good cs -> Forall good ds -> file_at m cs = Some f ->
  (height f <= fuel)%nat -> (depth + height f <= narMaxDepth)%nat ->
  dump (memory_accessor m) flt false fuel (unchecked (join_path cs)) (unchecked (join_path ds)) depth t
  = sink t (nar (prune flt ds f)).
Proof using sink_app sink_nil.
  induction f as [x d|es IHes|tg] using File_ind'; intros fuel cs ds depth t Hok Hcs Hds Hf Hfu Hd;
    (destruct fuel as [|fuel]; [simpl in Hfu; lia|]); cbn [dump];
    (rewrite (proj2 (Nat.leb_gt _ _)) by (simpl in Hd; lia));
    cbn [throw_if]; unfold mem_lstat; cbn [lstat memory_accessor mbind result_bind];
    unfold mem_lstat, mem_maybeLstat; rewrite (open_read_at m cs _ Hcs Hf); cbn [mbind result_bind from_opt option_map st_type file_lstat st_isExecutable].
  - apply (parens _ _ (nar_tags ([ #"type"; #"regular"] ++ (if x then [ #"executable"; []] else [])
                                ++ [ #"contents"; d]))); [intros t1|].
    + rewrite first_string, after_string.
      destruct x; rewrite ?after_nested, ?after_string; cbn [mbind result_bind];
        rewrite (after_eq _ _ _ (fun t => sink t (nar_tags [ #"contents"; d])))
          by (intros; eapply dumpContents_nar; done); rewrite sink_app; by f_equal.
    + cbn [nar prune]. rewrite !nar_tags_app', <- !app_assoc. done.
  - apply (parens _ _ (nar_tags [ #"type"; #"directory"] ++
      mjoin ((fun e => if flt (join_path (ds ++ [e.1]))
                       then nar_entry (e.1, prune flt (ds ++ [e.1]) (e.2)) else []) <$> es)));
      [intros t1; rewrite first_string, after_string|].
    + cbn [readDirectory memory_accessor]. inversion_clear Hok as [|? Hs Hn Hok'|].
      rewrite (mem_readDirectory_sorted m cs es) by done. cbn [mbind result_bind].
      rewrite unhack_all by done. cbn [mbind result_bind].
      rewrite <- nar_tags_app', <- (sink_app t1). apply after_eq. intros t2.
      rewrite foreach_fmap. apply foreach_sink_in. intros t3 e He. cbn [fst snd].
      destruct e as [n f]. cbn [fst snd] in *.
      assert (name_ok n) as [Hg _] by (rewrite Forall_forall in Hn; apply Hn; set_solver).
      rewrite push_join by done. cbn [mbind result_bind]. unfold abs. cbn [path].
      destruct (flt _); [|by rewrite sink_nil].
      rewrite first_string, !after_string, push_join by done. cbn [mbind result_bind].
      rewrite Forall_forall in IHes, Hok'. apply height_Directory in Hd as [_ Hd].
      rewrite Forall_forall in Hd. pose proof He as (es1 & es2 & ->)%list_elem_of_split.
      rewrite (after_eq _ _ _ (fun t => sink t (nar (prune flt (ds ++ [n]) f)) ≫= fun t => writeString #")" t)).
      { rewrite after_sink, after_end. f_equal. unfold nar_entry. cbn [fst snd].
        by rewrite <- !app_assoc, !nar_tags_cons, !nar_tags_nil. }
      intros t4. rewrite (IHes (n, f) He fuel (cs ++ [n]) (ds ++ [n])); cbn [snd]; [done|..].
      * by apply (Hok' (n, f)).
      * apply Forall_app; auto.
      * apply Forall_app; auto.
      * by eapply file_at_child.
      * exact (height_entry _ (n, f) _ Hfu He).
      * by apply (Hd (n, f)).
    + rewrite prune_Directory, nar_Directory. by rewrite prune_entries.
  - apply (parens _ _ (nar_tags [ #"type"; #"symlink"; #"target"; tg]));
      [intros t1; rewrite first_string, !after_string|].
    + cbn [readLink memory_accessor]. unfold mem_readLink.
      rewrite (open_read_at m cs _ Hcs Hf). cbn [mbind result_bind from_opt]. apply after_end.
    + done.
Qed.
End dumping.

(** What the filter keeps is still a file an archive can represent. *)
Lemma prune_names (flt : bytes -> bool) ds (es : list (bytes * File)) :
  (mjoin ((fun e : bytes * File => if flt (join_path (ds ++ [e.1]))
                    then [(e.1, prune flt (ds ++ [e.1]) (e.2))] else []) <$> es)).*1
  = filter (fun n => flt (join_path (ds ++ [n])) = true) (es.*1).
Proof.
  induction es as [|e es IH]; [done|]. rewrite !fmap_cons, join_cons, fmap_app, filter_cons, IH.
  destruct (flt _) eqn:Hf; [by rewrite decide_True|by rewrite decide_False by congruence].
Qed.

Lemma prune_elem (flt : bytes -> bool) ds (es : list (bytes * File)) x :
  x ∈ mjoin ((fun e : bytes * File => if flt (join_path (ds ++ [e.1]))
                       then [(e.1, prune flt (ds ++ [e.1]) (e.2))] else []) <$> es) ->
  exists e, e ∈ es /\ x = (e.1, prune flt (ds ++ [e.1]) (e.2)).
Proof.
  intros (l & Hx & (e & -> & He)%list_elem_of_fmap)%list_elem_of_join. exists e. split; [done|].
  destruct (flt _); set_solver.
Qed.

Lemma StronglySorted_filter {A} (R : A -> A -> Prop) Q `{forall x, Decision (Q x)} l :
  StronglySorted R l -> StronglySorted R (filter Q l).
Proof.
  induction 1 as [|x l Hl IH Hx]; [constructor|]. rewrite filter_cons. case_decide; [|done].
  constructor; [done|]. rewrite Forall_forall in *. intros y [_ Hy]%list_elem_of_filter. by apply Hx.
Qed.

Lemma prune_ok flt f : forall ds, ok_file f -> ok_file (prune flt ds f).
Proof.
  induction f as [| es IH |] using File_ind'; intros ds Hok; [done| |done].
  rewrite prune_Directory. inversion_clear Hok as [|? Hs Hn He|]. constructor.
  - rewrite prune_names. by apply StronglySorted_filter.
  - rewrite prune_names. rewrite Forall_forall in *. intros n [_ Hn']%list_elem_of_filter. by apply Hn.
  - rewrite Forall_forall in *. intros x (e & Hx & ->)%prune_elem. apply IH; [done|]. by apply He.
Qed.

Lemma prune_height flt f : forall ds, (height (prune flt ds f) <= height f)%nat.
Proof.
  induction f as [| es IH |] using File_ind'; intros ds; [done| |done].
  rewrite prune_Directory. cbn [height]. apply le_n_S.
  induction IH as [|e es He _ IHes]; [done|]. rewrite fmap_cons, join_cons, foldr_app. cbn [foldr].
  destruct (flt _); cbn [foldr snd]; [|lia]. specialize (He (ds ++ [e.1])). lia.
Qed.

(** *** The archive of a file *)

Definition archive (f : File) : bytes := enc_string narVersionMagic1 ++ nar f.

Lemma dumpPath_archive flt f :
  ok_file f -> (height f <= narMaxDepth)%nat ->
  dumpPath (memory_accessor (mkMemory (Some f))) flt false root (mkStringSink [])
  = Ok (mkStringSink (archive (prune flt [] f))).
Proof.
  intros Hok Hh. unfold dumpPath. rewrite (writeString_eq StringSink_nil StringSink_app).
  change root with (unchecked (join_path [])). cbn [mbind result_bind sink StringSink_sink sink_s app].
  rewrite (dump_nar StringSink_nil StringSink_app (mkMemory (Some f)) flt f); try done; lia.
Qed.

Lemma parseDump_archive f r :
  ok_file f -> (height f <= narMaxDepth)%nat ->
  parseDump false (mkMemory None) (archive f ++ r) = Ok (mkMemory (Some f), r).
Proof.
  intros Hok Hh. unfold parseDump, archive. rewrite <- app_assoc, pString_enc by (vm_compute; congruence).
  rewrite bool_decide_true by done. change root with (unchecked (join_path [])).
  apply (parse_nar f _ (mkMemory None) []); try done; unfold narMaxDepth in *; lia.
Qed.

(** With any sink that wants contents: what is accepted is the archive of a
    file, and the sink is made to build that file. *)
(** No archive is the beginning of another. *)
Lemma archive_inj f g r r' :
  ok_file f -> (height f <= narMaxDepth)%nat -> ok_file g -> (height g <= narMaxDepth)%nat ->
  archive f ++ r = archive g ++ r' -> f = g /\ r = r'.
Proof.
  intros Hf Hhf Hg Hhg He. pose proof (parseDump_archive f r Hf Hhf) as H. rewrite He, (parseDump_archive g r' Hg Hhg) in H.
  by injection H.
Qed.

Lemma parseDump_build {F C} `{FileSystemObjectSink F C} (f : F) file r :
  (forall c, crf_skipContents c = false) -> ok_file file -> (height file <= narMaxDepth)%nat ->
  parseDump false f (archive file ++ r) = (f' ← build f root file; Ok (f', r)).
Proof.
  intros Hc Hok Hh. unfold parseDump, archive. rewrite <- app_assoc, pString_enc by (vm_compute; congruence).
  rewrite bool_decide_true by done. apply parse_build; [done|done|lia|lia].
Qed.

Lemma parseDump_parsed {F C} `{FileSystemObjectSink F C} (f f' : F) s r :
  (forall c, crf_skipContents c = false) -> parseDump false f s = Ok (f', r) ->
  exists file, s = archive file ++ r /\ ok_file file /\ (height file <= narMaxDepth)%nat /\ build f root file = Ok f'.
Proof.
  intros Hc. unfold parseDump. pose proof (outcome_string (Z.of_nat (length narVersionMagic1)) s) as Hv.
  destruct (pString _ s) as [[v r0]|e] eqn:Hps; cbn [outcome] in Hv.
  - destruct Hv as (-> & _). case_bool_decide as Hv'; [subst v|done]. intros Hp.
    pose proof (parse_parsed Hc (S narMaxDepth) f root 0 r0) as Ho. rewrite Hp in Ho. cbn in Ho.
    destruct Ho as (file & -> & Hok & Hh). exists file. unfold archive. rewrite <- app_assoc.
    split; [done|]. split; [done|]. split; [done|].
    rewrite parse_build in Hp; [|done|done|lia|lia]. destruct (build f root file); [|done].
    cbn in Hp. by injection Hp as ->.
  - by case_bool_decide.
Qed.

Lemma parseDump_outcome s :
  outcome (parseDump false (mkMemory None) s)
    (fun m r => exists f, m = mkMemory (Some f) /\ s = archive f ++ r /\ ok_file f /\ (height f <= narMaxDepth)%nat).
Proof.
  unfold parseDump. pose proof (outcome_string (Z.of_nat (length narVersionMagic1)) s) as Hv.
  destruct (pString _ s) as [[v r]|e]; cbn [outcome] in *.
  - destruct Hv as (-> & _). case_bool_decide as H; [subst v|cbn; auto].
    change root with (unchecked (join_path [])).
    eapply outcome_mono; [|by apply outcome_parse]. cbn beta. intros m r' (f & -> & -> & Hok & Hh).
    exists f. split; [done|]. split; [by unfold archive; rewrite <- app_assoc|]. split; [done|lia].
  - case_bool_decide; cbn; auto.
Qed.

Lemma dumpString_archive s : dumpString s (mkStringSink []) = Ok (mkStringSink (archive (Regular false s))).
Proof.
  unfold dumpString.
  rewrite (foreach_sink StringSink_nil StringSink_app (fun t x => writeString x t) enc_string);
    [|intros; apply (writeString_eq StringSink_nil StringSink_app)].
  cbn [sink StringSink_sink sink_s app]. do 2 f_equal. unfold archive. rewrite !fmap_cons, join_cons.
  f_equal. cbn [nar app]. rewrite <- !nar_tags_app'. done.
Qed.

(** ** Properties *)


(** C26: writing a file of the memory file system as an archive under a path
    filter and parsing the archive gives the file less what the filter
    rejects, and leaves what follows the archive unread. *)
Theorem parseDump_dumpPath flt f r :
  ok_file f -> (height f <= narMaxDepth)%nat ->
  exists s, dumpPath (memory_accessor (mkMemory (Some f))) flt false root (mkStringSink []) = Ok (mkStringSink s) /\
    parseDump false (mkMemory None) (s ++ r) = Ok (mkMemory (Some (prune flt [] f)), r).
Proof.
  intros Hok Hh. exists (archive (prune flt [] f)). split; [by apply dumpPath_archive|].
  apply parseDump_archive; [by apply prune_ok|]. pose proof (prune_height flt f []). lia.
Qed.

Definition example_file : File :=
  Directory [(#"bin", Directory [(#"sh", Regular true #"exit")]); (#"lib", Symlink #"bin")].

Lemma parseDump_dumpPath_witness :
  exists s, dumpPath (memory_accessor (mkMemory (Some example_file)))
              (fun p => bool_decide (p <> #"/lib")) false root (mkStringSink []) = Ok (mkStringSink s) /\
    parseDump false (mkMemory None) (s ++ #"rest")
    = Ok (mkMemory (Some (Directory [(#"bin", Directory [(#"sh", Regular true #"exit")])])), #"rest").
Proof.
  assert (Directory [(#"bin", Directory [(#"sh", Regular true #"exit")])] =
    prune (fun p => bool_decide (p <> #"/lib")) [] example_file) as -> by (vm_compute; reflexivity).
  apply (parseDump_dumpPath (fun p => bool_decide (p <> #"/lib")) example_file #"rest").
  - repeat first [refine (bool_decide_unpack (name_ok _) _); vm_compute; exact I
                 |refine (bool_decide_unpack (target_ok _) _); vm_compute; exact I
                 |constructor].
  - vm_compute. lia.
Defined.
