(* ===== verification/Disk.v ===== *)
(** * Disk: a file system

    What the kernel keeps of a file system and the system calls the store
    makes, of which the code is in libutil/file-system.cc,
    unix/file-system-at.cc and libstore.  Directories form a tree; regular
    files and symbolic links are inodes, which may have several names.  A path
    is the list of its components from the root; no component that is walked
    through is a symbolic link.  [now] is the time of the clock. *)

From S2P Require Export Archive.
Local Open Scope Z_scope.

Inductive Leaf := LRegular (contents : bytes) (mode : Z) | LSymlink (target : bytes).
Record Inode := mkInode { leaf : Leaf; i_mtime : Z }.

Inductive Node :=
  | NLeaf (ino : nat)
  | NDir (mode mtime : Z) (entries : list (bytes * Node)).

Section Node_ind.
Context (Q : Node -> Prop).
Context (HL : forall i, Q (NLeaf i)).
Context (HD : forall m t es, Forall (fun e => Q (e.2)) es -> Q (NDir m t es)).

Fixpoint Node_ind' (n : Node) : Q n :=
  match n with
  | NLeaf i => HL i
  | NDir m t es =>
      HD m t es ((fix go l : Forall (fun e => Q (e.2)) l :=
                match l with [] => Forall_nil_2 _ | e :: l => Forall_cons_2 _ _ _ (Node_ind' (e.2)) (go l) end) es)
  end.
End Node_ind.

Record Disk := mkDisk { tree : Node; inodes : gmap nat Inode; next_ino : nat }.

(** ** Walking *)

Fixpoint node_lookup (n : Node) (path : list bytes) : option Node :=
  match path with
  | [] => Some n
  | c :: path =>
      match n with
      | NDir _ _ es => match entry_lookup c es with Some n => node_lookup n path | None => None end
      | NLeaf _ => None
      end
  end.

(** Changes the entry that a look-up finds. *)
Fixpoint entry_replace {A} (name : bytes) (x : A) (l : list (bytes * A)) : list (bytes * A) :=
  match l with
  | [] => []
  | (n, y) :: l => if bool_decide (n = name) then (name, x) :: l else (n, y) :: entry_replace name x l
  end.

(** Changes the node at the path, if there is one. *)
Fixpoint node_update (n : Node) (path : list bytes) (g : Node -> Node) : Node :=
  match path with
  | [] => g n
  | c :: path =>
      match n with
      | NDir m t es =>
          match entry_lookup c es with
          | Some x => NDir m t (entry_replace c (node_update x path g) es)
          | None => n
          end
      | NLeaf _ => n
      end
  end.

Definition lookup_path (d : Disk) (path : list bytes) : option Node := node_lookup (tree d) path.
Definition update_path (g : Node -> Node) (path : list bytes) (d : Disk) : Disk :=
  mkDisk (node_update (tree d) path g) (inodes d) (next_ino d).
Definition set_inode (i : nat) (x : Inode) (d : Disk) : Disk :=
  mkDisk (tree d) (<[i := x]> (inodes d)) (next_ino d).

(** ** Modes *)

Definition masked (umask mode : Z) : Z := Z.land mode (Z.lnot umask).
(** [st_mode & S_IXUSR] *)
Definition is_executable (mode : Z) : bool := negb (Z.land mode 0x40 =? 0).

(** ** System calls *)

Section calls.
Context (now : Z).

(** A new entry of a directory, whose modification time is that of the clock
    then; fails when the name is there. *)
Definition put_entry (name : bytes) (x : Node) (n : Node) : Node :=
  match n with NDir m _ es => NDir m now (entry_insert name x es) | n => n end.

Definition new_entry (dir : list bytes) (name : bytes) (x : Node) (d : Disk) : result Disk :=
  match lookup_path d dir with
  | Some (NDir _ _ es) =>
      match entry_lookup name es with
      | Some _ => Throw SystemError
      | None => Ok (update_path (put_entry name x) dir d)
      end
  | _ => Throw SystemError
  end.

Definition new_inode (dir : list bytes) (name : bytes) (l : Leaf) (d : Disk) : result (nat * Disk) :=
  let i := next_ino d in
  d ← new_entry dir name (NLeaf i) d;
  Ok (i, mkDisk (tree d) (<[i := mkInode l now]> (inodes d)) (S i)).

(** [mkdirat] *)
Definition mkdirat (dir : list bytes) (name : bytes) (mode : Z) : Disk -> result Disk :=
  new_entry dir name (NDir mode now []).
(** [openat(..., O_CREAT | O_EXCL | O_WRONLY)] *)
Definition create_excl (dir : list bytes) (name : bytes) (mode : Z) : Disk -> result (nat * Disk) :=
  new_inode dir name (LRegular [] mode).
(** [symlinkat] *)
Definition symlinkat (dir : list bytes) (name target : bytes) : Disk -> result (nat * Disk) :=
  new_inode dir name (LSymlink target).

(** On an open file: [fchmod], [fstat], [futimens], [pwrite], [posix_fallocate]. *)
Definition with_file (i : nat) (g : bytes -> Z -> Z -> Inode) (d : Disk) : result Disk :=
  match inodes d !! i with
  | Some (mkInode (LRegular c m) t) => Ok (set_inode i (g c m t) d)
  | _ => Throw SystemError
  end.
Definition fchmod_file (i : nat) (mode : Z -> Z) : Disk -> result Disk :=
  with_file i (fun c m t => mkInode (LRegular c (mode m)) t).
Definition pwrite (i : nat) (offset : nat) (data : bytes) : Disk -> result Disk :=
  with_file i (fun c m t => mkInode (LRegular (take offset c ++ data ++ drop (offset + length data) c) m) now).
Definition fallocate (i : nat) (len : nat) : Disk -> result Disk :=
  with_file i (fun c m t => mkInode (LRegular (c ++ replicate (len - length c) (bZ 0)) m) now).
Definition utimens_leaf (i : nat) (time : Z) (d : Disk) : result Disk :=
  match inodes d !! i with Some (mkInode l _) => Ok (set_inode i (mkInode l time) d) | None => Throw SystemError end.

(** On a directory, by its path or an open descriptor. *)
Definition with_dir (path : list bytes) (g : Z -> Z -> list (bytes * Node) -> Node) (d : Disk) : result Disk :=
  match lookup_path d path with
  | Some (NDir _ _ _) => Ok (update_path (fun n => match n with NDir m t es => g m t es | n => n end) path d)
  | _ => Throw SystemError
  end.
Definition chmod_dir (path : list bytes) (mode : Z) : Disk -> result Disk :=
  with_dir path (fun _ t es => NDir mode t es).
Definition utimens_dir (path : list bytes) (time : Z) : Disk -> result Disk :=
  with_dir path (fun m _ es => NDir m time es).
End calls.

(** ** The file system object a node stands for *)

Fixpoint view (inos : gmap nat Inode) (n : Node) : option File :=
  match n with
  | NLeaf i =>
      match inos !! i with
      | Some (mkInode (LRegular c m) _) => Some (Regular (is_executable m) c)
      | Some (mkInode (LSymlink t) _) => Some (Symlink t)
      | None => None
      end
  | NDir _ _ es =>
      Directory <$> (fix go l := match l with
                                 | [] => Some []
                                 | e :: l => f ← view inos (e.2); l ← go l; Some ((e.1, f) :: l)
                                 end) es
  end.

Definition view_entries (inos : gmap nat Inode) (es : list (bytes * Node)) : option (list (bytes * File)) :=
  mapM (fun e => f ← view inos (e.2); Some (e.1, f)) es.

Lemma view_NDir inos m t es : view inos (NDir m t es) = Directory <$> view_entries inos es.
Proof.
  cbn [view]. f_equal. induction es as [|e es IH]; [done|]. unfold view_entries. cbn [mapM].
  destruct (view inos (e.2)) as [f|]; [|done]. cbn [mbind option_bind]. unfold view_entries in IH. rewrite IH.
  by destruct (mapM _ es).
Qed.

(** ** Lemmas *)

Lemma entry_lookup_replace {A} c (x y : A) l : entry_lookup c l = Some y -> entry_lookup c (entry_replace c x l) = Some x.
Proof.
  unfold entry_lookup. induction l as [|[n z] l IH]; [done|]. cbn [List.find fst entry_replace].
  case_bool_decide as Hn; cbn [List.find fst]; [by rewrite bool_decide_true|by rewrite bool_decide_false].
Qed.

Lemma entry_lookup_replace_ne {A} c c' (x : A) l : c' <> c -> entry_lookup c' (entry_replace c x l) = entry_lookup c' l.
Proof.
  intros Hc. unfold entry_lookup. induction l as [|[n z] l IH]; [done|]. cbn [entry_replace].
  case_bool_decide as Hn; cbn [List.find fst].
  - subst n. by rewrite bool_decide_false.
  - by case_bool_decide.
Qed.

Lemma entry_replace_replace {A} c (x y : A) l : entry_replace c x (entry_replace c y l) = entry_replace c x l.
Proof.
  induction l as [|[n z] l IH]; [done|]. cbn [entry_replace]. case_bool_decide as Hn; cbn [entry_replace].
  - by rewrite bool_decide_true.
  - by rewrite bool_decide_false, IH.
Qed.

Lemma entry_replace_insert {A} c (x y : A) l : entry_replace c x (entry_insert c y l) = entry_insert c x l.
Proof.
  induction l as [|[n z] l IH]; cbn [entry_insert entry_replace]; [by rewrite bool_decide_true|].
  destruct (bytes_compare c n) eqn:Hc; cbn [entry_replace]; [by rewrite bool_decide_true..|].
  rewrite bool_decide_false, IH; [done|]. intros ->. by rewrite bytes_compare_refl in Hc.
Qed.

Lemma entry_lookup_insert_ne {A} c c' (x : A) l : c' <> c -> entry_lookup c' (entry_insert c x l) = entry_lookup c' l.
Proof.
  intros Hc. unfold entry_lookup. induction l as [|[n z] l IH]; cbn [entry_insert].
  - cbn. by rewrite bool_decide_false.
  - destruct (bytes_compare c n) eqn:Hn; cbn [List.find fst].
    + apply bytes_compare_eq in Hn as <-. by rewrite !bool_decide_false.
    + by rewrite (bool_decide_false (c = c')).
    + by case_bool_decide.
Qed.

Lemma node_lookup_app n p q : node_lookup n (p ++ q) = (x ← node_lookup n p; node_lookup x q).
Proof.
  revert n; induction p as [|c p IH]; intros n; [done|]. cbn [app node_lookup].
  destruct n as [|m t es]; [done|]. destruct (entry_lookup c es); [apply IH|done].
Qed.

Lemma lookup_update n p g x : node_lookup n p = Some x -> node_lookup (node_update n p g) p = Some (g x).
Proof.
  revert n; induction p as [|c p IH]; intros n; cbn [node_lookup node_update]; [congruence|].
  destruct n as [|m t es]; [done|]. destruct (entry_lookup c es) as [y|] eqn:Hy; [|done]. intros Hl.
  cbn [node_lookup]. rewrite (entry_lookup_replace _ _ _ _ Hy). by apply IH.
Qed.

Lemma lookup_update_None n p g : node_lookup n p = None -> node_lookup (node_update n p g) p = None.
Proof.
  revert n; induction p as [|c p IH]; intros n; cbn [node_lookup node_update]; [done|].
  destruct n as [|m t es]; [done|]. destruct (entry_lookup c es) as [y|] eqn:Hy; cbn [node_lookup]; [|by rewrite Hy].
  rewrite (entry_lookup_replace _ _ _ _ Hy). by apply IH.
Qed.

Lemma node_update_update n p g h : node_update (node_update n p g) p h = node_update n p (fun x => h (g x)).
Proof.
  revert n; induction p as [|c p IH]; intros n; [done|]. cbn [node_update].
  destruct n as [|m t es]; [done|]. destruct (entry_lookup c es) as [y|] eqn:Hy; cbn [node_update]; [|by rewrite Hy].
  rewrite (entry_lookup_replace _ _ _ _ Hy). by rewrite entry_replace_replace, IH.
Qed.

(** A change below a node that is found. *)
Lemma node_update_below n p c x g es m t :
  node_lookup n p = Some (NDir m t es) -> entry_lookup c es = Some x ->
  node_update n (p ++ [c]) g = node_update n p (fun y =>
    match y with NDir m t es => NDir m t (entry_replace c (g x) es) | y => y end).
Proof.
  revert n; induction p as [|b p IH]; intros n; cbn [node_lookup app].
  - intros [= ->] Hc. cbn [node_update]. by rewrite Hc.
  - destruct n as [|m' t' es']; [done|]. destruct (entry_lookup b es') as [y|] eqn:Hy; [|done]. intros Hl Hc.
    cbn [node_update]. rewrite Hy. do 2 f_equal. by apply IH.
Qed.

Lemma node_update_ext n p g h x :
  node_lookup n p = Some x -> g x = h x -> node_update n p g = node_update n p h.
Proof.
  revert n; induction p as [|c p IH]; intros n; cbn [node_lookup node_update]; [by intros [= ->]|].
  destruct n as [|m t es]; [done|]. destruct (entry_lookup c es) as [y|]; [|done]. intros Hl Hgh.
  do 2 f_equal. by apply IH.
Qed.

Lemma entry_replace_id {A} c (x : A) l : entry_lookup c l = Some x -> entry_replace c x l = l.
Proof.
  unfold entry_lookup. induction l as [|[n y] l IH]; [done|]. cbn [List.find fst entry_replace].
  case_bool_decide as Hn; [by intros [= ->]; subst n|]. intros Hl. by rewrite IH.
Qed.

Lemma node_update_id n p g x : node_lookup n p = Some x -> g x = x -> node_update n p g = n.
Proof.
  revert n; induction p as [|c p IH]; intros n; cbn [node_lookup node_update]; [congruence|].
  destruct n as [|m t es]; [done|]. destruct (entry_lookup c es) as [y|] eqn:Hy; [|done]. intros Hl Hg.
  by rewrite (IH y Hl Hg), entry_replace_id.
Qed.

(** The contents of what a change of other inodes leaves alone. *)
Lemma view_ext inos inos' n :
  (forall i, is_Some (inos !! i) -> inos' !! i = inos !! i) -> is_Some (view inos n) -> view inos' n = view inos n.
Proof.
  intros Hi. induction n as [i|m t es IH] using Node_ind'; [|].
  - cbn [view]. destruct (inos !! i) as [x|] eqn:Hx; [|by intros []]. intros _. by rewrite (Hi i), Hx.
  - rewrite !view_NDir. unfold view_entries. intros Hs. f_equal.
    induction IH as [|e es He _ IHes]; [done|]. cbn [mapM] in *.
    destruct (view inos (e.2)) as [f|] eqn:Hf; [|by destruct Hs]. rewrite He by done. cbn [mbind option_bind] in *.
    destruct (mapM _ es) as [l|] eqn:Hl; [|by destruct Hs]. by rewrite IHes.
Qed.
