(* ===== verification/HashPath.v ===== *)
(** * HashPath: dumping and hashing file system objects

    [dumpPath] and [hashPath] of libutil/file-content-address.cc and
    [SourceAccessor::hashPath] of libutil/source-accessor.cc.  A dump into any
    sink that does not throw is the dump into a string, so the hash of a file
    system object is the hash of its archive. *)

From S2P Require Export HashSink Archive ContentAddress.

Definition dumpPath_as {T} `{Sink T} (accessor : SourceAccessor) (method : FileSerialisationMethod.t)
    (filter_ : bytes -> bool) (useCaseHack : bool) (path : CanonPath) (t : T) : result T :=
  match method with
  | FileSerialisationMethod.Flat => '(_, data) ← readFile accessor path; sink t data
  | FileSerialisationMethod.NixArchive => dumpPath accessor filter_ useCaseHack path t
  end.

(** [defaultPathFilter] *)
Definition everything (path : bytes) : bool := true.

Section hash.
Context `{L : HashLib}.

(** [hashPath(const SourcePath &, FileSerialisationMethod, HashAlgorithm, PathFilter &)] *)
Definition hashPath (accessor : SourceAccessor) (method : FileSerialisationMethod.t) (a : HashAlgorithm)
    (filter_ : bytes -> bool) (useCaseHack : bool) (path : CanonPath) : result HashResult :=
  h ← dumpPath_as accessor method filter_ useCaseHack path (HashSink_new a);
  HashSink_finish h.

(** [static_cast<FileSerialisationMethod>] of a [FileIngestionMethod]. *)
Definition serialisation_of (method : FileIngestionMethod.t) : FileSerialisationMethod.t :=
  match method with
  | FileIngestionMethod.Flat => FileSerialisationMethod.Flat
  | FileIngestionMethod.NixArchive => FileSerialisationMethod.NixArchive
  end.

(** The overload for a [FileIngestionMethod]. *)
Definition hashPath_ingest (accessor : SourceAccessor) (method : FileIngestionMethod.t) (a : HashAlgorithm)
    (filter_ : bytes -> bool) (useCaseHack : bool) (path : CanonPath) : result (Hash * option Z) :=
  res ← hashPath accessor (serialisation_of method) a filter_ useCaseHack path;
  Ok (hr_hash res, Some (numBytesDigested res)).

(** [SourceAccessor::hashPath] *)
Definition SourceAccessor_hashPath (accessor : SourceAccessor) (path : CanonPath) (filter_ : bytes -> bool)
    (a : HashAlgorithm) (useCaseHack : bool) : result Hash :=
  h ← dumpPath accessor filter_ useCaseHack path (HashSink_new a);
  r ← HashSink_finish h;
  Ok (hr_hash r).
End hash.

(** ** Dumping into any sink *)

Section simulation.
Context {T : Type} `{Sink T} (rep : T -> bytes -> Prop).
Context (rep_sink : forall t d e, rep t d -> exists t', sink t e = Ok t' /\ rep t' (d ++ e)).

(** A run on a string sink and one on a sink that has received the same. *)
Definition same_run (rs : result StringSink) (rt : result T) : Prop :=
  match rs, rt with
  | Ok s, Ok t => rep t (sink_s s)
  | Throw e, Throw e' => e = e'
  | _, _ => False
  end.
Definition same_writer (f : StringSink -> result StringSink) (g : T -> result T) : Prop :=
  forall s t, rep t (sink_s s) -> same_run (f s) (g t).

Lemma same_Ok s t : rep t (sink_s s) -> same_run (Ok s) (Ok t).
Proof using Type. done. Qed.

Lemma same_sink d : same_writer (fun s => sink s d) (fun t => sink t d).
Proof using rep_sink. intros s t Hr. destruct (rep_sink t _ d Hr) as (t' & -> & Hr'). done. Qed.

Lemma same_bind rs rt f g : same_run rs rt -> same_writer f g -> same_run (rs ≫= f) (rt ≫= g).
Proof using Type. intros Hr Hf. destruct rs, rt; try done. by apply Hf. Qed.

Lemma same_pure {A} (x : result A) f g : (forall a, same_run (f a) (g a)) -> same_run (x ≫= f) (x ≫= g).
Proof using Type. intros Hf. destruct x; [apply Hf|done]. Qed.

Lemma same_num n : same_writer (fun s => sink_num s n) (fun t => sink_num t n).
Proof using rep_sink. apply same_sink. Qed.

Lemma same_padding n : same_writer (writePadding n) (writePadding n).
Proof using rep_sink. intros s t Hr. unfold writePadding. destruct (negb _); [by apply same_sink|done]. Qed.

Lemma same_string d : same_writer (writeString d) (writeString d).
Proof using rep_sink.
  intros s t Hr. unfold writeString. apply same_bind; [by apply same_num|]. intros s1 t1 Hr1.
  apply same_bind; [by apply same_sink|]. apply same_padding.
Qed.

Lemma same_foreach {A} (f : StringSink -> A -> result StringSink) (g : T -> A -> result T) l :
  (forall x, same_writer (fun s => f s x) (fun t => g t x)) -> same_writer (fun s => foreach f s l) (fun t => foreach g t l).
Proof using Type.
  intros Hfg. induction l as [|x l IH]; intros s t Hr; [done|]. cbn [foreach].
  apply same_bind; [by apply Hfg|done].
Qed.

Lemma same_dumpContents acc path : same_writer (dumpContents acc path) (dumpContents acc path).
Proof using rep_sink.
  intros s t Hr. unfold dumpContents. apply same_bind; [by apply same_string|]. intros s1 t1 Hr1.
  apply same_pure. intros [size data]. apply same_bind; [destruct size; [by apply same_num|done]|]. intros s2 t2 Hr2.
  apply same_bind; [by apply same_sink|]. intros s3 t3 Hr3. apply same_pure. intros n. by apply same_padding.
Qed.

Ltac same_strings :=
  repeat (apply same_bind; [by apply same_string|]; let s := fresh "s" in let t := fresh "t" in intros s t ?).

Lemma same_dump acc flt hack fuel : forall path filterPath depth,
  same_writer (dump acc flt hack fuel path filterPath depth) (dump acc flt hack fuel path filterPath depth).
Proof using rep_sink.
  induction fuel as [|fuel IH]; intros path filterPath depth s t Hr; [done|]. cbn [dump].
  apply same_pure. intros _. apply same_pure. intros st. same_strings.
  apply same_bind; [|intros s1 t1 Hr1; by apply same_string].
  destruct (st_type st); try done; same_strings.
  - apply same_bind; [|apply same_dumpContents].
    destruct (st_isExecutable st); [|done]. same_strings. by apply same_string.
  - apply same_pure. intros target. by apply same_string.
  - apply same_pure. intros es. apply same_pure. intros unhacked.
    apply (same_foreach _ _ unhacked); [|done]. clear s t Hr.
    intros i s t Hr. apply same_pure. intros p. destruct (flt (abs p)); [|done]. same_strings.
    apply same_pure. intros p1. apply same_pure. intros p2. apply same_bind; [by apply IH|]. apply same_string.
Qed.

Lemma same_dumpPath acc flt hack path : same_writer (dumpPath acc flt hack path) (dumpPath acc flt hack path).
Proof using rep_sink.
  intros s t Hr. unfold dumpPath. apply same_bind; [by apply same_string|]. apply same_dump.
Qed.

Lemma same_dumpPath_as acc method flt hack path :
  same_writer (dumpPath_as acc method flt hack path) (dumpPath_as acc method flt hack path).
Proof using rep_sink.
  intros s t Hr. destruct method; cbn [dumpPath_as]; [|by apply same_dumpPath].
  apply same_pure. intros [size data]. by apply same_sink.
Qed.
End simulation.

(** What [dumpPath_as] writes. *)
Definition dump_of (accessor : SourceAccessor) (method : FileSerialisationMethod.t) (filter_ : bytes -> bool)
    (useCaseHack : bool) (path : CanonPath) : result bytes :=
  sink_s <$> dumpPath_as accessor method filter_ useCaseHack path (mkStringSink []).

Section hashing.
Context `{L : HashLib} `{!HashLibLaws L}.

Lemma hashPath_dump acc method a flt hack path :
  hashPath acc method a flt hack path = hash_result a <$> dump_of acc method flt hack path.
Proof using L HashLibLaws0.
  unfold hashPath, dump_of.
  pose proof (same_dumpPath_as (digests a) (digests_sink a) acc method flt hack path (mkStringSink [])
    (HashSink_new a) (digests_new a)) as Hs. unfold same_run in Hs.
  destruct (dumpPath_as acc method flt hack path (mkStringSink [])), (dumpPath_as acc method flt hack path (HashSink_new a));
    cbn [mbind fmap result_bind result_fmap]; try done; [|by subst].
  by apply digests_finish.
Qed.

(** The hash of a file of the memory file system is that of its archive. *)
Lemma hashPath_archive a flt f :
  ok_file f -> (height f <= narMaxDepth)%nat ->
  hashPath (memory_accessor (mkMemory (Some f))) FileSerialisationMethod.NixArchive a flt false root
  = Ok (hash_result a (archive (prune flt [] f))).
Proof using L HashLibLaws0.
  intros Hok Hh. rewrite hashPath_dump. unfold dump_of. cbn [dumpPath_as].
  by rewrite dumpPath_archive.
Qed.

Lemma prune_everything f : forall ds, prune everything ds f = f.
Proof using Type.
  induction f as [| es IH |] using File_ind'; intros ds; [done| |done]. rewrite prune_Directory. f_equal.
  induction IH as [|e es He _ IHes]; [done|]. rewrite fmap_cons, join_cons, IHes, He. by destruct e.
Qed.

Lemma hashPath_all a f :
  ok_file f -> (height f <= narMaxDepth)%nat ->
  hashPath (memory_accessor (mkMemory (Some f))) FileSerialisationMethod.NixArchive a everything false root
  = Ok (hash_result a (archive f)).
Proof using L HashLibLaws0. intros Hok Hh. by rewrite hashPath_archive, prune_everything. Qed.
End hashing.
