(* ===== verification/DiskCalls.v ===== *)
(** * DiskCalls: names and metadata on disk

    The system calls on [Disk] the store makes by path ([lstat], [chmod],
    [utimensat], [link], [unlink], [rmdir], [rename]) and what a path shows before and
    after them. *)

From S2P Require Export Disk.
Local Open Scope Z_scope.

(** ** [lstat] *)

Inductive FileType := S_IFREG | S_IFDIR | S_IFLNK.
#[export] Instance FileType_eq_dec : EqDecision FileType.
Proof. solve_decision. Defined.
(** Directories have no inode number in the model, as they are not linked;
    their sizes and link counts are not looked at. *)
Record PosixStat := mkPosixStat
  { ps_type : FileType; ps_perm : Z; ps_mtime : Z; ps_ino : option nat; ps_nlink : nat; ps_size : nat }.

(** How many names an inode has. *)
Fixpoint names_of (i : nat) (n : Node) : nat :=
  match n with
  | NLeaf j => if bool_decide (i = j) then 1 else 0
  | NDir _ _ es => (fix go (l : list (bytes * Node)) := match l with [] => 0 | e :: l => names_of i (e.2) + go l end)%nat es
  end.

Definition stat_node (d : Disk) (x : Node) : option PosixStat :=
  match x with
  | NDir m t _ => Some (mkPosixStat S_IFDIR m t None 0 0)
  | NLeaf i =>
      match inodes d !! i with
      | Some (mkInode (LRegular c m) t) => Some (mkPosixStat S_IFREG m t (Some i) (names_of i (tree d)) (length c))
      | Some (mkInode (LSymlink g) t) => Some (mkPosixStat S_IFLNK 0x1FF t (Some i) (names_of i (tree d)) (length g))
      | None => None
      end
  end.
Definition maybeLstat (path : list bytes) (d : Disk) : option PosixStat := x ← lookup_path d path; stat_node d x.

(** ** Metadata *)

(** [chmod]; it would follow a symbolic link, on which the code does not call it. *)
Definition chmod (path : list bytes) (mode : Z) (d : Disk) : result Disk :=
  match lookup_path d path with
  | Some (NDir _ _ _) => chmod_dir path mode d
  | Some (NLeaf i) => fchmod_file i (fun _ => mode) d
  | None => Throw SystemError
  end.

(** [utimensat(..., AT_SYMLINK_NOFOLLOW)] *)
Definition utimens (path : list bytes) (time : Z) (d : Disk) : result Disk :=
  match lookup_path d path with
  | Some (NDir _ _ _) => utimens_dir path time d
  | Some (NLeaf i) => utimens_leaf i time d
  | None => Throw SystemError
  end.

(** ** Names *)

Inductive errc := file_exists | no_space_on_device | too_many_links | no_such_file_or_directory | other_error.
#[export] Instance errc_eq_dec : EqDecision errc.
Proof. solve_decision. Defined.

Definition entry_remove {A} (name : bytes) (l : list (bytes * A)) : list (bytes * A) := filter (fun e => e.1 <> name) l.
Definition entry_set {A} (name : bytes) (x : A) (l : list (bytes * A)) : list (bytes * A) :=
  match entry_lookup name l with Some _ => entry_replace name x l | None => entry_insert name x l end.

Section calls.
Context (now : Z).

Definition take_entry (name : bytes) (n : Node) : Node :=
  match n with NDir m _ es => NDir m now (entry_remove name es) | n => n end.
Definition set_entry (name : bytes) (x : Node) (n : Node) : Node :=
  match n with NDir m _ es => NDir m now (entry_set name x es) | n => n end.

(** [link] *)
Definition hard_link (src dst : list bytes) (d : Disk) : errc + Disk :=
  match lookup_path d src with
  | Some (NLeaf i) =>
      match inodes d !! i, last dst, lookup_path d (removelast dst) with
      | Some _, Some n, Some (NDir _ _ es) =>
          match entry_lookup n es with
          | Some _ => inl file_exists
          | None => inr (update_path (set_entry n (NLeaf i)) (removelast dst) d)
          end
      | _, _, _ => inl no_such_file_or_directory
      end
  | Some (NDir _ _ _) => inl other_error
  | None => inl no_such_file_or_directory
  end.

(** [unlink] *)
Definition unlink (path : list bytes) (d : Disk) : errc + Disk :=
  match lookup_path d path, last path with
  | Some (NLeaf _), Some n => inr (update_path (take_entry n) (removelast path) d)
  | None, _ => inl no_such_file_or_directory
  | _, _ => inl other_error
  end.

(** [rmdir] *)
Definition rmdir (path : list bytes) (d : Disk) : errc + Disk :=
  match lookup_path d path, last path with
  | Some (NDir _ _ []), Some n => inr (update_path (take_entry n) (removelast path) d)
  | None, _ => inl no_such_file_or_directory
  | _, _ => inl other_error
  end.

(** [rename]; two names of one file are left as they are. *)
Definition rename (src dst : list bytes) (d : Disk) : errc + Disk :=
  match lookup_path d src, last src, last dst, lookup_path d (removelast dst) with
  | Some x, Some ns, Some nd, Some (NDir _ _ es) =>
      let moved := update_path (set_entry nd x) (removelast dst) (update_path (take_entry ns) (removelast src) d) in
      if bool_decide (src = dst) then inr d
      else if bool_decide (src `prefix_of` dst) then inl other_error
      else
        match x, entry_lookup nd es with
        | _, None => inr moved
        | NLeaf i, Some (NLeaf j) => if bool_decide (i = j) then inr d else inr moved
        | NDir _ _ _, Some (NDir _ _ []) => inr moved
        | _, _ => inl other_error
        end
  | _, _, _, _ => inl no_such_file_or_directory
  end.
End calls.

(** ** What a path shows *)

Definition peek (inos : gmap nat Inode) (n : Node) (p : list bytes) : option File := x ← node_lookup n p; view inos x.
Definition view_at (d : Disk) (p : list bytes) : option File := peek (inodes d) (tree d) p.

(** Neither is within the other. *)
Definition apart (p q : list bytes) : Prop := ~ p `prefix_of` q /\ ~ q `prefix_of` p.

Lemma apart_sym p q : apart p q -> apart q p.
Proof. unfold apart. tauto. Qed.

Lemma apart_cons a p b q : apart (a :: p) (b :: q) <-> a <> b \/ apart p q.
Proof.
  unfold apart. split.
  - intros [H1 H2]. destruct (decide (a = b)) as [->|]; [right|by left].
    split; intros Hp; [apply H1|apply H2]; by apply prefix_cons.
  - intros [Hab|[H1 H2]]; split; intros Hp; pose proof (prefix_cons_inv_1 _ _ _ _ Hp); try congruence;
      apply prefix_cons_inv_2 in Hp; tauto.
Qed.

Lemma apart_app p q r : apart p q -> apart p (q ++ r).
Proof.
  intros [H1 H2]. split; intros H.
  - destruct (prefix_weak_total p q (q ++ r)) as [?|?]; [done|by apply prefix_app_r|tauto|tauto].
  - apply H2. etrans; [|exact H]. by apply prefix_app_r.
Qed.

(** *** Changes that keep what is shown *)

Lemma view_entries_replace inos c x y es :
  entry_lookup c es = Some y -> view inos x = view inos y -> view_entries inos (entry_replace c x es) = view_entries inos es.
Proof.
  unfold entry_lookup, view_entries. intros Hl Hv. induction es as [|[n z] es IH]; [done|].
  cbn [List.find fst] in Hl. cbn [entry_replace]. case_bool_decide as Hn.
  - injection Hl as ->. subst n. cbn [mapM fst snd]. by rewrite Hv.
  - cbn [mapM fst snd]. by rewrite IH.
Qed.

Lemma peek_update inos n path g :
  (forall x, node_lookup n path = Some x -> forall q, peek inos (g x) q = peek inos x q) ->
  forall q, peek inos (node_update n path g) q = peek inos n q.
Proof.
  revert n; induction path as [|c path IH]; intros n Hg q; [by apply Hg|]. cbn [node_update node_lookup] in *.
  destruct n as [|m t es]; [done|]. destruct (entry_lookup c es) as [y|] eqn:Hy; [|done].
  specialize (IH y Hg). destruct q as [|c' q].
  - unfold peek. cbn [node_lookup mbind option_bind]. rewrite !view_NDir. f_equal.
    apply (view_entries_replace _ _ _ y); [done|]. apply (IH []).
  - unfold peek in *. cbn [node_lookup]. destruct (decide (c' = c)) as [->|Hc].
    + rewrite (entry_lookup_replace _ _ _ _ Hy), Hy. apply IH.
    + by rewrite entry_lookup_replace_ne.
Qed.

(** *** Changes elsewhere *)

(** [g] changes at most the entry [c] of a directory. *)
Definition alters (c : bytes) (g : Node -> Node) : Prop :=
  (forall i, g (NLeaf i) = NLeaf i) /\
  forall m t es, exists m' t' es', g (NDir m t es) = NDir m' t' es' /\
    forall c', c' <> c -> entry_lookup c' es' = entry_lookup c' es.

Lemma lookup_alters n q c g p : alters c g -> apart p (q ++ [c]) -> node_lookup (node_update n q g) p = node_lookup n p.
Proof.
  intros [HL HD]. revert n p; induction q as [|b q IH]; intros n [|a p] Ha; try (by destruct Ha as [[] _]; apply prefix_nil).
  - cbn [app node_update] in *. apply apart_cons in Ha as [Hac|[_ []]]; [|apply prefix_nil].
    destruct n as [i|m t es]; [by rewrite HL|]. destruct (HD m t es) as (m' & t' & es' & -> & He). cbn [node_lookup]. by rewrite He.
  - cbn [app node_update] in *. destruct n as [i|m t es]; [done|]. destruct (entry_lookup b es) as [y|] eqn:Hy; [|done].
    cbn [node_lookup]. destruct (decide (a = b)) as [->|Hab].
    + rewrite (entry_lookup_replace _ _ _ _ Hy), Hy. apply apart_cons in Ha as [?|Ha]; [done|]. by apply IH.
    + by rewrite entry_lookup_replace_ne.
Qed.

Lemma entry_lookup_remove_ne {A} c c' (l : list (bytes * A)) : c' <> c -> entry_lookup c' (entry_remove c l) = entry_lookup c' l.
Proof.
  intros Hc. unfold entry_lookup, entry_remove. induction l as [|[n z] l IH]; [done|].
  rewrite filter_cons. cbn [fst List.find]. case_decide as Hn; cbn [List.find fst].
  - by case_bool_decide.
  - rewrite bool_decide_false; [done|]. intros ->. tauto.
Qed.

Lemma entry_lookup_set {A} c (x : A) l : entry_lookup c (entry_set c x l) = Some x.
Proof.
  unfold entry_set. destruct (entry_lookup c l) as [y|] eqn:Hy; [by eapply entry_lookup_replace|apply entry_lookup_insert].
Qed.
Lemma entry_lookup_set_ne {A} c c' (x : A) l : c' <> c -> entry_lookup c' (entry_set c x l) = entry_lookup c' l.
Proof.
  intros Hc. unfold entry_set. destruct (entry_lookup c l) as [y|] eqn:Hy;
    [by apply entry_lookup_replace_ne|by apply entry_lookup_insert_ne].
Qed.

Lemma alters_take now c : alters c (take_entry now c).
Proof. split; [done|]. intros m t es. do 3 eexists. split; [done|]. intros c' Hc. by apply entry_lookup_remove_ne. Qed.
Lemma alters_set now c x : alters c (set_entry now c x).
Proof. split; [done|]. intros m t es. do 3 eexists. split; [done|]. intros c' Hc. by apply entry_lookup_set_ne. Qed.

(** *** What a file shows below it *)

Lemma view_entries_lookup inos es fs c :
  view_entries inos es = Some fs ->
  match entry_lookup c es, entry_lookup c fs with
  | Some x, Some f => view inos x = Some f
  | None, None => True
  | _, _ => False
  end.
Proof.
  unfold view_entries, entry_lookup. revert fs; induction es as [|[n x] es IH]; intros fs; cbn [mapM].
  - by intros [= <-].
  - cbn [fst snd]. destruct (view inos x) as [f|] eqn:Hv; [|done]. cbn [mbind option_bind].
    destruct (mapM _ es) as [l|]; [|done]. cbn. intros [= <-]. cbn [List.find fst].
    case_bool_decide; [done|]. by apply IH.
Qed.

Lemma peek_view inos x f q : view inos x = Some f -> peek inos x q = node_at f q.
Proof.
  revert x f; induction q as [|c q IH]; intros x f Hv; unfold peek; cbn [node_lookup node_at mbind option_bind]; [done|].
  destruct x as [i|m t es].
  - cbn [view] in Hv. destruct (inos !! i) as [[[? ?|?] ?]|]; [|by injection Hv as <-..|done]. by injection Hv as <-.
  - rewrite view_NDir in Hv. destruct (view_entries inos es) as [fs|] eqn:He; [|done]. injection Hv as <-.
    pose proof (view_entries_lookup _ _ _ c He) as Hc.
    destruct (entry_lookup c es) as [y|], (entry_lookup c fs) as [g|]; try done. by apply IH.
Qed.

Lemma peek_app inos n p q : peek inos n (p ++ q) = (x ← node_lookup n p; peek inos x q).
Proof. unfold peek. rewrite node_lookup_app. by destruct (node_lookup n p). Qed.

Lemma view_at_below d p f q : view_at d p = Some f -> view_at d (p ++ q) = node_at f q.
Proof.
  unfold view_at. rewrite peek_app. unfold peek at 1. destruct (node_lookup (tree d) p) as [x|]; [|done].
  cbn [mbind option_bind]. apply peek_view.
Qed.

(** Nodes that show the same show the same below them. *)
Lemma peek_same inos x y f : view inos x = Some f -> view inos y = Some f -> forall q, peek inos x q = peek inos y q.
Proof. intros Hx Hy q. by rewrite (peek_view _ _ _ q Hx), (peek_view _ _ _ q Hy). Qed.

(** What an inode shows. *)
Definition inode_file (x : Inode) : File :=
  match leaf x with LRegular c m => Regular (is_executable m) c | LSymlink t => Symlink t end.

Lemma view_NLeaf inos i : view inos (NLeaf i) = inode_file <$> inos !! i.
Proof. cbn [view]. by destruct (inos !! i) as [[[] ?]|]. Qed.

(** *** The calls *)

Lemma last_removelast {A} (l : list A) x : last l = Some x -> l = removelast l ++ [x].
Proof.
  destruct l as [|y l _] using rev_ind; [done|]. rewrite last_snoc, removelast_last. by intros [= ->].
Qed.

Lemma view_at_lookup d p x : lookup_path d p = Some x -> view_at d p = view (inodes d) x.
Proof. unfold view_at, peek, lookup_path. by intros ->. Qed.

Lemma view_at_alters d q c g p : alters c g -> apart p (q ++ [c]) -> view_at (update_path g q d) p = view_at d p.
Proof. intros Hg Ha. unfold view_at, peek, update_path. cbn [tree inodes]. by rewrite (lookup_alters _ _ c). Qed.

Lemma hard_link_view now src dst d d' :
  hard_link now src dst d = inr d' ->
  (exists x, view_at d src = Some (inode_file x) /\ view_at d' dst = Some (inode_file x)) /\ view_at d dst = None /\
  (forall p, apart p dst -> view_at d' p = view_at d p).
Proof.
  unfold hard_link. destruct (lookup_path d src) as [[i|]|] eqn:Hs; [|done..].
  destruct (inodes d !! i) as [x|] eqn:Hi; [|done].
  destruct (last dst) as [n|] eqn:Hl; [|done]. apply last_removelast in Hl.
  set (q := removelast dst) in *. destruct (lookup_path d q) as [[|m t es]|] eqn:Hq; [done| |done].
  destruct (entry_lookup n es) eqn:He; [done|]. intros [= <-]. rewrite Hl. split; [|split].
  - exists x. rewrite (view_at_lookup _ _ _ Hs), view_NLeaf, Hi. split; [done|].
    unfold view_at, peek, update_path. cbn [tree inodes].
    unfold lookup_path in Hq. rewrite node_lookup_app, (lookup_update _ _ _ _ Hq). cbn [set_entry mbind option_bind node_lookup].
    rewrite entry_lookup_set. cbn [mbind option_bind node_lookup]. by rewrite view_NLeaf, Hi.
  - unfold view_at, peek. unfold lookup_path in Hq. rewrite node_lookup_app, Hq. cbn. by rewrite He.
  - intros p. apply view_at_alters, alters_set.
Qed.

Lemma entry_lookup_remove {A} c (l : list (bytes * A)) : entry_lookup c (entry_remove c l) = None.
Proof.
  unfold entry_lookup, entry_remove. induction l as [|[n z] l IH]; [done|]. rewrite filter_cons. cbn [fst].
  case_decide; [|done]. cbn [List.find fst]. by rewrite bool_decide_false.
Qed.

(** A name that is taken away. *)
Lemma take_entry_view now q n d :
  view_at (update_path (take_entry now n) q d) (q ++ [n]) = None /\
  (forall p, apart p (q ++ [n]) -> view_at (update_path (take_entry now n) q d) p = view_at d p).
Proof.
  split; [|intros p Ha; apply (view_at_alters _ _ n); [apply alters_take|exact Ha]].
  unfold view_at, peek, update_path. cbn [tree inodes]. rewrite node_lookup_app.
  destruct (node_lookup (tree d) q) as [y|] eqn:Hy.
  - rewrite (lookup_update _ _ _ _ Hy). cbn [mbind option_bind]. destruct y as [|m t es]; [done|].
    cbn [take_entry node_lookup]. by rewrite entry_lookup_remove.
  - by rewrite lookup_update_None.
Qed.

Lemma unlink_view now path d d' :
  unlink now path d = inr d' -> view_at d' path = None /\ (forall p, apart p path -> view_at d' p = view_at d p).
Proof.
  unfold unlink. destruct (lookup_path d path) as [[i|]|]; [|done..]. destruct (last path) as [n|] eqn:Hl; [|done].
  apply last_removelast in Hl. intros [= <-]. pose proof (take_entry_view now (removelast path) n d) as H. by rewrite <- Hl in H.
Qed.

Lemma rmdir_view now path d d' :
  rmdir now path d = inr d' -> view_at d' path = None /\ (forall p, apart p path -> view_at d' p = view_at d p).
Proof.
  unfold rmdir. destruct (lookup_path d path) as [[i|? ? [|]]|]; [done| |done..]. destruct (last path) as [n|] eqn:Hl; [|done].
  apply last_removelast in Hl. intros [= <-]. pose proof (take_entry_view now (removelast path) n d) as H. by rewrite <- Hl in H.
Qed.

(** [rename] over something that shows the same. *)
Lemma rename_view now src dst d d' f :
  rename now src dst d = inr d' -> apart src dst -> view_at d src = Some f -> view_at d dst = Some f ->
  forall p, apart p src -> view_at d' p = view_at d p.
Proof.
  unfold rename. intros Hr Ha Hs Hd p Hp. destruct (lookup_path d src) as [x|] eqn:Hx; [|done].
  rewrite (view_at_lookup _ _ _ Hx) in Hs.
  destruct (last src) as [ns|] eqn:Hls; [|done]. destruct (last dst) as [nd|] eqn:Hld; [|done].
  destruct (lookup_path d (removelast dst)) as [[|m t es]|] eqn:Hq; [done| |done].
  apply last_removelast in Hls, Hld. set (q := removelast dst) in *. set (q' := removelast src) in *.
  destruct (bool_decide (src = dst)); [by injection Hr as <-|].
  destruct (bool_decide (src `prefix_of` dst)); [done|].
  assert (exists y, entry_lookup nd es = Some y /\ view (inodes d) y = Some f) as (y & Hy & Hvy).
  { unfold view_at, peek in Hd. unfold lookup_path in Hq. rewrite Hld, node_lookup_app, Hq in Hd. cbn [mbind option_bind node_lookup] in Hd.
    destruct (entry_lookup nd es) as [y|]; [|done]. by exists y. }
  assert (d' = d \/ d' = update_path (set_entry now nd x) q (update_path (take_entry now ns) q' d)) as [->| ->]; [|done|].
  { rewrite Hy in Hr. destruct x as [i|? ? ?], y as [j|? ? [|]]; try discriminate Hr; try (injection Hr as <-; by right).
    destruct (bool_decide (i = j)); injection Hr as <-; auto. }
  transitivity (view_at (update_path (take_entry now ns) q' d) p); [|apply (view_at_alters _ _ ns); [apply alters_take|by rewrite <- Hls]].
  unfold view_at, update_path. cbn [tree inodes]. apply peek_update. intros z Hz.
  assert (apart (q ++ [nd]) (q' ++ [ns])) as Ha' by (rewrite <- Hls, <- Hld; by apply apart_sym).
  assert (exists m' t' es', z = NDir m' t' es' /\ entry_lookup nd es' = Some y) as (m' & t' & es' & -> & Hy').
  { pose proof (lookup_alters (tree d) q' ns (take_entry now ns) (q ++ [nd]) (alters_take _ _) Ha') as Hla.
    rewrite !node_lookup_app, Hz in Hla. unfold lookup_path in Hq. rewrite Hq in Hla. cbn [mbind option_bind node_lookup] in Hla.
    rewrite Hy in Hla. destruct z as [|m' t' es']; [done|]. exists m', t', es'. split; [done|].
    cbn [node_lookup] in Hla. destruct (entry_lookup nd es'); [done|discriminate Hla]. }
  intros r. cbn [set_entry]. unfold entry_set. rewrite Hy'. destruct r as [|c r].
  - unfold peek. cbn [node_lookup mbind option_bind]. rewrite !view_NDir. f_equal.
    apply (view_entries_replace _ _ _ y); [done|congruence].
  - unfold peek at 1 2. cbn [node_lookup]. destruct (decide (c = nd)) as [->|Hc].
    + rewrite (entry_lookup_replace _ _ _ _ Hy'), Hy'. by apply (peek_same _ _ _ f).
    + by rewrite entry_lookup_replace_ne.
Qed.

(** *** Metadata *)

Lemma with_dir_view path g d d' :
  (forall m t es, exists m' t', g m t es = NDir m' t' es) -> with_dir path g d = Ok d' -> forall p, view_at d' p = view_at d p.
Proof.
  intros Hg. unfold with_dir. destruct (lookup_path d path) as [[|m t es]|] eqn:Hl; [done| |done]. intros [= <-] p.
  unfold view_at, update_path. cbn [tree inodes]. apply peek_update. intros x Hx. unfold lookup_path in Hl. rewrite Hl in Hx.
  injection Hx as <-. destruct (Hg m t es) as (m' & t' & ->). intros q. unfold peek. destruct q as [|c q]; [|done].
  cbn [node_lookup mbind option_bind]. by rewrite !view_NDir.
Qed.

Lemma view_inodes inos inos' n : (forall i, inode_file <$> inos' !! i = inode_file <$> inos !! i) -> view inos' n = view inos n.
Proof.
  intros Hi. induction n as [i|m t es IH] using Node_ind'; [by rewrite !view_NLeaf|].
  rewrite !view_NDir. f_equal. unfold view_entries. induction IH as [|e es He _ IHes]; [done|]. cbn [mapM].
  by rewrite He, IHes.
Qed.

Lemma set_inode_view i x y d :
  inodes d !! i = Some y -> inode_file x = inode_file y -> forall p, view_at (set_inode i x d) p = view_at d p.
Proof.
  intros Hi Hxy p. unfold view_at, peek, set_inode. cbn [tree inodes]. destruct (node_lookup (tree d) p) as [n|]; [|done].
  cbn [mbind option_bind]. apply view_inodes. intros j. destruct (decide (i = j)) as [<-|Hj].
  - rewrite lookup_insert_eq, Hi. cbn. by rewrite Hxy.
  - by rewrite lookup_insert_ne.
Qed.

Lemma utimens_view path time d d' : utimens path time d = Ok d' -> forall p, view_at d' p = view_at d p.
Proof.
  unfold utimens. destruct (lookup_path d path) as [[i|m t es]|]; [| |done].
  - unfold utimens_leaf. destruct (inodes d !! i) as [[l t]|] eqn:Hi; [|done]. intros [= <-]. by apply (set_inode_view _ _ _ _ Hi).
  - unfold utimens_dir. apply with_dir_view. eauto.
Qed.

(** [chmod] with a mode that has the execute bit if what it changes shows it. *)
Lemma chmod_view path mode d d' :
  chmod path mode d = Ok d' ->
  (forall x c, view_at d path = Some (Regular x c) -> is_executable mode = x) -> forall p, view_at d' p = view_at d p.
Proof.
  unfold chmod. destruct (lookup_path d path) as [[i|m t es]|] eqn:Hl; [| |done].
  - unfold fchmod_file, with_file. destruct (inodes d !! i) as [[[c m|] t]|] eqn:Hi; [|done..]. intros [= <-] Hx.
    apply (set_inode_view _ _ _ _ Hi). unfold inode_file. cbn. f_equal.
    apply (Hx _ c). rewrite (view_at_lookup _ _ _ Hl), view_NLeaf, Hi. done.
  - unfold chmod_dir. intros Hw _. revert Hw. apply with_dir_view. eauto.
Qed.

(** ** What is at a path

    [Some (Some i)]: a name of the inode [i]; [Some None]: a directory. *)

Definition shape (n : option Node) : option (option nat) :=
  (fun n => match n with NLeaf i => Some i | NDir _ _ _ => None end) <$> n.
Definition shape_at (d : Disk) (p : list bytes) : option (option nat) := shape (lookup_path d p).

Lemma shape_alters n q c g p :
  alters c g -> ~ (q ++ [c]) `prefix_of` p -> shape (node_lookup (node_update n q g) p) = shape (node_lookup n p).
Proof.
  intros [HL HD]. revert n p; induction q as [|b q IH]; intros n p Hp; cbn [app node_update] in *.
  - destruct n as [i|m t es]; [by rewrite HL|]. destruct (HD m t es) as (m' & t' & es' & -> & He).
    destruct p as [|a p]; [done|]. cbn [node_lookup]. rewrite He; [done|]. intros ->. apply Hp. apply prefix_cons, prefix_nil.
  - destruct n as [i|m t es]; [done|]. destruct (entry_lookup b es) as [y|] eqn:Hy; [|done].
    destruct p as [|a p]; [done|]. cbn [node_lookup]. destruct (decide (a = b)) as [->|Hab].
    + rewrite (entry_lookup_replace _ _ _ _ Hy), Hy. apply IH. intros Hq. apply Hp. by apply prefix_cons.
    + by rewrite entry_lookup_replace_ne.
Qed.

(** Changing a directory itself. *)
Lemma shape_update n q g p :
  (forall i, g (NLeaf i) = NLeaf i) -> (forall m t es, exists m' t', g (NDir m t es) = NDir m' t' es) ->
  shape (node_lookup (node_update n q g) p) = shape (node_lookup n p).
Proof.
  intros HL HD. revert n p; induction q as [|b q IH]; intros n p; cbn [node_update].
  - destruct n as [i|m t es]; [by rewrite HL|]. destruct (HD m t es) as (m' & t' & ->). by destruct p.
  - destruct n as [i|m t es]; [done|]. destruct (entry_lookup b es) as [y|] eqn:Hy; [|done].
    destruct p as [|a p]; [done|]. cbn [node_lookup]. destruct (decide (a = b)) as [->|Hab].
    + rewrite (entry_lookup_replace _ _ _ _ Hy), Hy. apply IH.
    + by rewrite entry_lookup_replace_ne.
Qed.

Lemma shape_leaf d p i : shape_at d p = Some (Some i) <-> lookup_path d p = Some (NLeaf i).
Proof. unfold shape_at, shape. destruct (lookup_path d p) as [[]|]; cbn; naive_solver. Qed.
Lemma shape_dir d p : shape_at d p = Some None <-> exists m t es, lookup_path d p = Some (NDir m t es).
Proof. unfold shape_at, shape. destruct (lookup_path d p) as [[]|]; cbn; naive_solver. Qed.
Lemma shape_none d p : shape_at d p = None <-> lookup_path d p = None.
Proof. unfold shape_at, shape. by destruct (lookup_path d p). Qed.

(** Nothing is below a name of an inode, nor below nothing. *)
Lemma shape_below d p q : q <> [] -> shape_at d p <> Some None -> shape_at d (p ++ q) = None.
Proof.
  intros Hq Hp. apply shape_none. unfold lookup_path. rewrite node_lookup_app.
  destruct (node_lookup (tree d) p) as [[i|m t es]|] eqn:Hl; [by destruct q| |done].
  destruct Hp. apply shape_dir. unfold lookup_path. eauto.
Qed.

Lemma with_dir_shape path g d d' :
  (forall m t es, exists m' t', g m t es = NDir m' t' es) -> with_dir path g d = Ok d' ->
  inodes d' = inodes d /\ forall p, shape_at d' p = shape_at d p.
Proof.
  intros Hg. unfold with_dir. destruct (lookup_path d path) as [[|m t es]|]; [done| |done]. intros [= <-].
  split; [done|]. intros p. unfold shape_at, lookup_path, update_path. cbn [tree]. by apply shape_update.
Qed.

Lemma chmod_dir_shape path mode d :
  shape_at d path = Some None ->
  exists d', chmod path mode d = Ok d' /\ inodes d' = inodes d /\ forall p, shape_at d' p = shape_at d p.
Proof.
  intros (m & t & es & Hl)%shape_dir. unfold chmod. rewrite Hl.
  destruct (chmod_dir path mode d) as [d'|e] eqn:Hc; [|unfold chmod_dir, with_dir in Hc; by rewrite Hl in Hc].
  exists d'. split; [done|]. revert Hc. apply with_dir_shape. eauto.
Qed.

Lemma utimens_dir_shape path time d :
  shape_at d path = Some None ->
  exists d', utimens path time d = Ok d' /\ inodes d' = inodes d /\ forall p, shape_at d' p = shape_at d p.
Proof.
  intros (m & t & es & Hl)%shape_dir. unfold utimens. rewrite Hl.
  destruct (utimens_dir path time d) as [d'|e] eqn:Hc; [|unfold utimens_dir, with_dir in Hc; by rewrite Hl in Hc].
  exists d'. split; [done|]. revert Hc. apply with_dir_shape. eauto.
Qed.

(** A name that is given. *)
Lemma set_entry_shape now q c i d :
  shape_at d q = Some None -> shape_at d (q ++ [c]) <> Some None ->
  let d' := update_path (set_entry now c (NLeaf i)) q d in
  shape_at d' (q ++ [c]) = Some (Some i) /\ (forall p, p <> q ++ [c] -> shape_at d' p = shape_at d p).
Proof.
  intros (m & t & es & Hl)%shape_dir Hn d'. assert (shape_at d' (q ++ [c]) = Some (Some i)) as Hi.
  { apply shape_leaf. unfold lookup_path, d', update_path. cbn [tree]. unfold lookup_path in Hl.
    rewrite node_lookup_app, (lookup_update _ _ _ _ Hl). cbn. by rewrite entry_lookup_set. }
  split; [done|]. intros p Hp. destruct (decide ((q ++ [c]) `prefix_of` p)) as [[r ->]|Hpre].
  - assert (r <> []) as Hr by (intros ->; by rewrite app_nil_r in Hp).
    rewrite (shape_below d') by (done || by rewrite Hi). by rewrite (shape_below d).
  - unfold shape_at, lookup_path, d', update_path. cbn [tree]. apply (shape_alters _ _ c); [apply alters_set|done].
Qed.

Lemma take_entry_shape now q c d :
  shape_at d (q ++ [c]) <> Some None ->
  let d' := update_path (take_entry now c) q d in
  shape_at d' (q ++ [c]) = None /\ (forall p, p <> q ++ [c] -> shape_at d' p = shape_at d p).
Proof.
  intros Hn d'. assert (shape_at d' (q ++ [c]) = None) as Hi.
  { apply shape_none. unfold lookup_path, d', update_path. cbn [tree]. rewrite node_lookup_app.
    destruct (node_lookup (tree d) q) as [y|] eqn:Hy; [|by rewrite lookup_update_None].
    rewrite (lookup_update _ _ _ _ Hy). destruct y as [|m t es]; [done|]. cbn. by rewrite entry_lookup_remove. }
  split; [done|]. intros p Hp. destruct (decide ((q ++ [c]) `prefix_of` p)) as [[r ->]|Hpre].
  - assert (r <> []) as Hr by (intros ->; by rewrite app_nil_r in Hp).
    rewrite (shape_below d') by (done || by rewrite Hi). by rewrite (shape_below d).
  - unfold shape_at, lookup_path, d', update_path. cbn [tree]. apply (shape_alters _ _ c); [apply alters_take|done].
Qed.

Lemma hard_link_shape now src q c i x d :
  shape_at d src = Some (Some i) -> inodes d !! i = Some x -> shape_at d q = Some None -> shape_at d (q ++ [c]) = None ->
  exists d', hard_link now src (q ++ [c]) d = inr d' /\ inodes d' = inodes d /\
    shape_at d' (q ++ [c]) = Some (Some i) /\ (forall p, p <> q ++ [c] -> shape_at d' p = shape_at d p).
Proof.
  intros Hs Hx Hq Hn. pose proof Hq as (m & t & es & Hl)%shape_dir. apply shape_leaf in Hs.
  unfold hard_link. rewrite Hs, Hx, last_snoc, removelast_last, Hl.
  apply shape_none in Hn as Hn'. unfold lookup_path in Hn', Hl. rewrite node_lookup_app, Hl in Hn'. cbn in Hn'.
  destruct (entry_lookup c es); [done|]. eexists. split; [done|]. split; [done|]. apply set_entry_shape; [done|by rewrite Hn].
Qed.

(** A file over another file. *)
Lemma rename_shape now q c q' c' i j d :
  shape_at d (q ++ [c]) = Some (Some i) -> shape_at d (q' ++ [c']) = Some (Some j) -> i <> j ->
  exists d', rename now (q ++ [c]) (q' ++ [c']) d = inr d' /\ inodes d' = inodes d /\
    shape_at d' (q ++ [c]) = None /\ shape_at d' (q' ++ [c']) = Some (Some i) /\
    (forall p, p <> q ++ [c] -> p <> q' ++ [c'] -> shape_at d' p = shape_at d p).
Proof.
  intros Hs Hd Hij. assert (q ++ [c] <> q' ++ [c']) as Hne by congruence.
  assert (shape_at d q' = Some None) as Hq'.
  { destruct (shape_at d q') as [[k|]|] eqn:Hk; [|done|]; by rewrite (shape_below d q' [c']) in Hd by (done || by rewrite Hk). }
  pose proof Hq' as (m & t & es & Hl)%shape_dir.
  apply shape_leaf in Hs as Hs', Hd as Hd'. unfold rename. rewrite Hs', !last_snoc, !removelast_last, Hl.
  rewrite !bool_decide_false; [|intros [r Hr]|done].
  2: { destruct r as [|a r _] using rev_ind; [by rewrite app_nil_r in Hr|]. rewrite app_assoc in Hr. apply app_inj_tail in Hr as [Hr _].
    rewrite Hr in Hq'. destruct (decide (r = [])) as [->|Hrn]; [rewrite app_nil_r in Hq'; congruence|].
    by rewrite (shape_below d _ _ Hrn) in Hq' by congruence. }
  assert (entry_lookup c' es = Some (NLeaf j)) as He.
  { unfold lookup_path in Hd', Hl. rewrite node_lookup_app, Hl in Hd'. cbn in Hd'. by destruct (entry_lookup c' es). }
  rewrite He, bool_decide_false by done. eexists. split; [done|]. split; [done|].
  destruct (take_entry_shape now q c d) as [Ht1 Ht2]; [congruence|]. set (d1 := update_path (take_entry now c) q d) in *.
  destruct (set_entry_shape now q' c' i d1) as [Hs1 Hs2].
  - rewrite Ht2; [done|]. intros ->. congruence.
  - rewrite Ht2 by done. congruence.
  - split; [by rewrite Hs2|]. split; [done|]. intros p Hp1 Hp2. by rewrite Hs2, Ht2.
Qed.
