(* ===== verification/Restore.v ===== *)
(** * Restore: writing an archive to disk

    [RestoreSink] of libutil/fs-sink.cc and [restorePath] of
    libutil/archive.cc, on the disk of [Disk].  A path of the file system is
    the list of its components; an open directory is its path, since nothing
    is renamed meanwhile.  [startFsync] has no effect on what the disk holds.
    Permissions are recorded and not enforced. *)

From S2P Require Export DiskCalls HashSink.
Local Open Scope Z_scope.

Record RestoreSink := mkRestoreSink {
  rs_disk : Disk;
  dstPath : list bytes;
  dirFd : option (list bytes);
  rs_canonical : bool;
  deferCanonicalDirs : option (list (list bytes));
}.

Definition set_disk (d : Disk) (s : RestoreSink) : RestoreSink :=
  mkRestoreSink d (dstPath s) (dirFd s) (rs_canonical s) (deferCanonicalDirs s).
Definition set_dirFd (fd : list bytes) (s : RestoreSink) : RestoreSink :=
  mkRestoreSink (rs_disk s) (dstPath s) (Some fd) (rs_canonical s) (deferCanonicalDirs s).
(** The list is the caller's, through a pointer. *)
Definition set_deferred (l : option (list (list bytes))) (s : RestoreSink) : RestoreSink :=
  mkRestoreSink (rs_disk s) (dstPath s) (dirFd s) (rs_canonical s) l.

Definition append (src : list bytes) (path : CanonPath) : list bytes := src ++ elems path.

(** [openFileEnsureBeneathNoSymlinks(..., O_DIRECTORY)] and [open] of a
    directory. *)
Definition open_dir (d : Disk) (path : list bytes) : result (list bytes) :=
  match lookup_path d path with Some (NDir _ _ _) => Ok path | _ => Throw SystemError end.

(** The open directory and the name in it. *)
Definition getParentFdAndName (d : Disk) (dirFd : option (list bytes)) (dstPath : list bytes) (path : CanonPath)
    : result (list bytes * bytes) :=
  match dirFd with
  | Some dirFd =>
      _ ← assertb (negb (isRoot path));
      dir ← from_opt AssertFailed (parent path);
      name ← from_opt AssertFailed (baseName path);
      if isRoot dir then name ← fromFilename name; Ok (dirFd, rel name)
      else
        parentFd ← open_dir d (append dirFd dir);
        name ← fromFilename name;
        Ok (parentFd, rel name)
  | None =>
      let p := append dstPath path in
      _ ← throw_if (negb (isRoot path)) Error;
      filename ← from_opt Error (last p);
      _ ← throw_if (bool_decide (filename = #".") || bool_decide (filename = #"..")) Error;
      parentFd ← open_dir d (take (length p - 1) p);
      name ← fromFilename filename;
      Ok (parentFd, rel name)
  end.

(** ** Numbers of inodes *)

(** No inode is numbered as one that is still to be made. *)
Definition disk_ok (d : Disk) : Prop := forall i, (next_ino d <= i)%nat -> inodes d !! i = None.

(** Every name is that of an inode with a number that was given out. *)
Fixpoint numbered (k : nat) (n : Node) : Prop :=
  match n with
  | NLeaf i => (i < k)%nat
  | NDir _ _ es => (fix go l := match l with [] => True | e :: l => numbered k (e.2) /\ go l end) es
  end.

Lemma numbered_NDir k m t es : numbered k (NDir m t es) <-> Forall (fun e => numbered k (e.2)) es.
Proof.
  cbn [numbered]. induction es as [|e es IH]; split; [constructor|done| |].
  - intros [He Hes]. constructor; [done|by apply IH].
  - intros [He Hes]%Forall_cons. split; [done|by apply IH].
Qed.

Lemma numbered_lookup k n p x : numbered k n -> node_lookup n p = Some x -> numbered k x.
Proof.
  revert n; induction p as [|c p IH]; intros n Hn; cbn [node_lookup]; [by intros [= <-]|].
  destruct n as [|m t es]; [done|]. apply numbered_NDir in Hn. destruct (entry_lookup c es) as [y|] eqn:Hy; [|done].
  apply IH. unfold entry_lookup in Hy. destruct (List.find _ es) as [e|] eqn:He; [|done]. injection Hy as <-.
  apply find_some in He as [He _]. rewrite Forall_forall in Hn. by apply Hn, list_elem_of_In.
Qed.

Lemma view_numbered inos inos' k n :
  (forall i, (i < k)%nat -> inos' !! i = inos !! i) -> numbered k n -> view inos' n = view inos n.
Proof.
  intros Hi. induction n as [i|m t es IH] using Node_ind'; [cbn [view numbered]; intros ?; by rewrite Hi|].
  rewrite numbered_NDir, !view_NDir. intros Hn. f_equal. unfold view_entries. induction IH as [|e es He _ IHes]; [done|].
  apply Forall_cons in Hn as [Hn1 Hn]. cbn [mapM]. by rewrite He, IHes.
Qed.

(** The file system numbers new inodes with numbers that are not in use. *)
Fixpoint top_ino (n : Node) : nat :=
  match n with
  | NLeaf i => S i
  | NDir _ _ es => (fix go (l : list (bytes * Node)) := match l with [] => 0 | e :: l => Nat.max (top_ino (e.2)) (go l) end)%nat es
  end.
Definition fresh_ino (d : Disk) : nat :=
  Nat.max (top_ino (tree d)) (map_fold (fun i _ a => Nat.max (S i) a) (next_ino d) (inodes d)).
Definition renumbered (d : Disk) : Disk := mkDisk (tree d) (inodes d) (fresh_ino d).

Lemma numbered_mono k k' n : (k <= k')%nat -> numbered k n -> numbered k' n.
Proof.
  intros Hk. induction n as [i|m t es IH] using Node_ind'; [cbn; lia|]. rewrite !numbered_NDir.
  rewrite !Forall_forall in *. intros Hn e He. by apply IH, Hn.
Qed.

Lemma numbered_top n : numbered (top_ino n) n.
Proof.
  induction n as [i|m t es IH] using Node_ind'; [cbn; lia|]. apply numbered_NDir.
  induction IH as [|e es He _ IHes]; [constructor|]. cbn [top_ino] in *. constructor.
  - eapply numbered_mono; [|exact He]. lia.
  - eapply Forall_impl; [exact IHes|]. intros x. apply numbered_mono. lia.
Qed.

Lemma renumbered_ok d : disk_ok (renumbered d) /\ numbered (next_ino (renumbered d)) (tree (renumbered d)).
Proof.
  split; [|cbn; eapply numbered_mono; [|apply numbered_top]; unfold fresh_ino; lia].
  intros i Hi. cbn [renumbered inodes next_ino] in *.
  assert (forall j x, inodes d !! j = Some x -> (j < map_fold (fun i _ a => Nat.max (S i) a) (next_ino d) (inodes d))%nat) as H.
  { apply (map_fold_weak_ind (fun a m => forall j x, m !! j = Some x -> (j < a)%nat)); [by intros j x; rewrite lookup_empty|].
    intros k y m a _ IH j x. destruct (decide (k = j)) as [<-|Hj]; [lia|]. rewrite lookup_insert_ne by done.
    intros Hx%IH. lia. }
  destruct (inodes d !! i) as [x|] eqn:Hx; [|done]. apply H in Hx. unfold fresh_ino in Hi. lia.
Qed.

Section restore.
(** The clock, the umask of the process, and whether files are preallocated
    and the file system supports it. *)
Context (now umask : Z) (preallocateContents fallocate_supported : bool).

Definition umaskPreservesCanonicalModes : bool := Z.land umask 0x16D =? 0.

(** ** Directories *)

Definition rs_createDirectory (s : RestoreSink) (path : CanonPath) : result RestoreSink :=
  _ ← throw_if (bool_decide (is_Some (dirFd s)) && isRoot path) Error;
  '(fd, name) ← getParentFdAndName (rs_disk s) (dirFd s) (dstPath s) path;
  d ← mkdirat now fd name (masked umask 0x1FF) (rs_disk s);
  let s := set_disk d s in
  match dirFd s with
  | None => fd ← open_dir d (fd ++ [name]); Ok (set_dirFd fd s)
  | Some _ => Ok s
  end.

Definition finishCanonical (s : RestoreSink) : result RestoreSink :=
  match rs_canonical s, dirFd s with
  | true, Some fd =>
      match deferCanonicalDirs s with
      | Some l => Ok (set_deferred (Some (l ++ [dstPath s])) s)
      | None =>
          d ← chmod_dir fd 0x1ED (rs_disk s);
          d ← utimens_dir fd 1 d;
          Ok (set_disk d s)
      end
  | _, _ => Ok s
  end.

Definition rs_enterDirectory (s : RestoreSink) (path : CanonPath) : result (RestoreSink * CanonPath) :=
  s ← rs_createDirectory s path;
  if isRoot path then Ok (s, path)
  else
    fd ← from_opt AssertFailed (dirFd s);
    fd ← open_dir (rs_disk s) (append fd path);
    Ok (mkRestoreSink (rs_disk s) (append (dstPath s) path) (Some fd) (rs_canonical s) (deferCanonicalDirs s), root).

Definition rs_leaveDirectory (s : RestoreSink) (path : CanonPath) (dirSink : RestoreSink) : result RestoreSink :=
  if isRoot path then Ok dirSink
  else
    dirSink ← finishCanonical dirSink;
    Ok (set_deferred (deferCanonicalDirs dirSink) (set_disk (rs_disk dirSink) s)).

(** ** Regular files *)

(** The descriptor of an [FdSink]: the file and the position in it. *)
Record OpenFile := mkOpenFile { of_disk : Disk; of_ino : nat; of_pos : nat }.

#[export] Instance OpenFile_write : WriteUnbuffered OpenFile := fun u data =>
  d ← pwrite now (of_ino u) (of_pos u) data (of_disk u);
  Ok (mkOpenFile d (of_ino u) (of_pos u + length data)).

Definition on_disk {U} (g : U -> result U) (b : BufferedSink U) : result (BufferedSink U) :=
  u ← g (under b); Ok (mkBufferedSink (bufSize b) (buffer b) u).
Definition with_fd (g : nat -> Disk -> result Disk) (u : OpenFile) : result OpenFile :=
  d ← g (of_ino u) (of_disk u); Ok (mkOpenFile d (of_ino u) (of_pos u)).

(** [crf_back]: the sink the file is created through. *)
Record RestoreRegularFile := mkRestoreRegularFile
  { crf_fd : BufferedSink OpenFile; crf_back : RestoreSink; madeExecutable : bool }.

Definition set_fd (b : BufferedSink OpenFile) (c : RestoreRegularFile) : RestoreRegularFile :=
  mkRestoreRegularFile b (crf_back c) (madeExecutable c).

Definition rs_crf_open (s : RestoreSink) (path : CanonPath) : result RestoreRegularFile :=
  '(fd, name) ← getParentFdAndName (rs_disk s) (dirFd s) (dstPath s) path;
  '(ino, d) ← create_excl now fd name (masked umask (if rs_canonical s then 0x124 else 0x1B6)) (rs_disk s);
  Ok (mkRestoreRegularFile (mkBufferedSink defaultBufSize [] (mkOpenFile d ino 0)) s false).

Definition rs_isExecutable (c : RestoreRegularFile) : result RestoreRegularFile :=
  if rs_canonical (crf_back c) then
    b ← on_disk (with_fd (fun i => fchmod_file i (fun _ => 0x16D))) (crf_fd c);
    Ok (mkRestoreRegularFile b (crf_back c) true)
  else
    b ← on_disk (with_fd (fun i => fchmod_file i (fun m => Z.lor m 0x49))) (crf_fd c);
    Ok (set_fd b c).

(** [std::numeric_limits<off_t>::max()] *)
Definition max_off_t : Z := 2 ^ 63 - 1.

Definition rs_preallocate (c : RestoreRegularFile) (len : Z) : result RestoreRegularFile :=
  if preallocateContents && negb (len =? 0) then
    _ ← throw_if (max_off_t <? len) Error;
    if fallocate_supported then
      b ← on_disk (with_fd (fun i => fallocate now i (Z.to_nat len))) (crf_fd c);
      Ok (set_fd b c)
    else Ok c
  else Ok c.

(** What [createRegularFile] does after the callback. *)
Definition rs_crf_close (c : RestoreRegularFile) : result RestoreSink :=
  b ← flush (crf_fd c);
  b ← (if rs_canonical (crf_back c) then
         b ← (if negb umaskPreservesCanonicalModes && negb (madeExecutable c)
              then on_disk (with_fd (fun i => fchmod_file i (fun _ => 0x124))) b else Ok b);
         on_disk (with_fd (fun i => utimens_leaf i 1)) b
       else Ok b);
  Ok (set_disk (of_disk (under b)) (crf_back c)).

(** ** Symbolic links *)

Definition rs_createSymlink (s : RestoreSink) (path : CanonPath) (target : bytes) : result RestoreSink :=
  '(fd, name) ← getParentFdAndName (rs_disk s) (dirFd s) (dstPath s) path;
  _ ← throw_if (bool_decide (NUL ∈ target)) Error;
  '(ino, d) ← symlinkat now fd name target (rs_disk s);
  d ← (if rs_canonical s then utimens_leaf ino 1 d else Ok d);
  Ok (set_disk d s).

#[export] Instance RestoreSink_sink : FileSystemObjectSink RestoreSink RestoreRegularFile := {|
  createDirectory := rs_createDirectory;
  enterDirectory := rs_enterDirectory;
  leaveDirectory := rs_leaveDirectory;
  createSymlink := rs_createSymlink;
  crf_open := rs_crf_open;
  crf_skipContents _ := false;
  crf_isExecutable := rs_isExecutable;
  crf_preallocate := rs_preallocate;
  crf_write c data := b ← sink (crf_fd c) data; Ok (set_fd b c);
  crf_close := rs_crf_close;
|}.

(** [restorePath(const std::filesystem::path &, Source &, bool, bool)] *)
Definition restorePath (useCaseHack : bool) (path : list bytes) (canonical : bool) (d : Disk) : P Disk :=
  sink ← parseDump useCaseHack (mkRestoreSink d path None canonical None);
  mret (rs_disk sink).

(** ** What is restored *)

(** The mode of a file, and the times and modes of what is complete.  [fin]:
    directories are finished as they are left. *)
Definition file_mode (canonical x : bool) : Z :=
  if canonical then if x then 0x16D else 0x124
  else if x then Z.lor (masked umask 0x1B6) 0x49 else masked umask 0x1B6.
Definition leaf_time (canonical : bool) : Z := if canonical then 1 else now.
Definition new_dir : Z * Z := (masked umask 0x1FF, now).
Definition dir_meta (fin : bool) : Z * Z := if fin then (0x1ED, 1) else new_dir.

(** The node holds the file: the directory itself has the mode and the time
    [top], those below it [below]. *)
Fixpoint restored (canonical : bool) (inos : gmap nat Inode) (top below : Z * Z) (f : File) (n : Node) : Prop :=
  match f, n with
  | Regular x c, NLeaf i => inos !! i = Some (mkInode (LRegular c (file_mode canonical x)) (leaf_time canonical))
  | Symlink t, NLeaf i => inos !! i = Some (mkInode (LSymlink t) (leaf_time canonical))
  | Directory es, NDir m t ns =>
      (m, t) = top /\
      (fix go (es : list (bytes * File)) (ns : list (bytes * Node)) : Prop :=
         match es, ns with
         | [], [] => True
         | e :: es, x :: ns => (e.1 = x.1 /\ restored canonical inos below below (e.2) (x.2)) /\ go es ns
         | _, _ => False
         end) es ns
  | _, _ => False
  end.

Definition restored_entry (canonical : bool) (inos : gmap nat Inode) (below : Z * Z) (e : bytes * File) (x : bytes * Node) : Prop :=
  e.1 = x.1 /\ restored canonical inos below below (e.2) (x.2).

Lemma restored_Directory c inos top below es m t ns :
  restored c inos top below (Directory es) (NDir m t ns) <->
  (m, t) = top /\ Forall2 (restored_entry c inos below) es ns.
Proof.
  cbn [restored]. apply and_iff_compat_l. revert ns.
  induction es as [|e es IH]; intros [|x ns]; split; intros Hr; try done; try by inversion Hr.
  - destruct Hr as [Hr1 Hr2]. constructor; [done|]. by apply IH.
  - inversion_clear Hr. split; [done|]. by apply IH.
Qed.

(** New inodes change nothing. *)
Lemma restored_mono c inos inos' f : inos ⊆ inos' ->
  forall top below n, restored c inos top below f n -> restored c inos' top below f n.
Proof.
  intros Hi. induction f as [x d|es IH|t] using File_ind'; intros top below [i|m tm ns]; try done.
  - cbn. intros Hl. by eapply lookup_weaken.
  - rewrite !restored_Directory. intros [Ht Hr]. split; [done|]. clear Ht.
    induction Hr as [|e x es ns [He Hx] Hr IHr]; [constructor|].
    apply Forall_cons in IH as [IHe IH]. constructor; [split; [done|by apply IHe]|by apply IHr].
  - cbn. intros Hl. by eapply lookup_weaken.
Qed.

(** [d'] has more inodes, with numbers that were not given out before. *)
Definition grown (d d' : Disk) : Prop :=
  (forall i, (i < next_ino d)%nat -> inodes d' !! i = inodes d !! i) /\ (next_ino d <= next_ino d')%nat /\ disk_ok d'.

Lemma grown_refl d : disk_ok d -> grown d d.
Proof. by repeat split. Qed.
Lemma grown_trans d1 d2 d3 : grown d1 d2 -> grown d2 d3 -> grown d1 d3.
Proof. intros (H1 & H2 & _) (H3 & H4 & H5). split; [|split; [lia|done]]. intros i Hi. rewrite H3 by lia. by apply H1. Qed.
Lemma grown_same d d1 d2 : grown d d1 -> inodes d2 = inodes d1 -> next_ino d2 = next_ino d1 -> grown d d2.
Proof. intros (H1 & H2 & H3) Hi Hn. unfold grown, disk_ok. by rewrite Hi, Hn. Qed.
Lemma grown_subseteq d d' : disk_ok d -> grown d d' -> inodes d ⊆ inodes d'.
Proof.
  intros Hd (H1 & _). apply map_subseteq_spec. intros i x Hx. rewrite H1; [done|].
  destruct (decide (i < next_ino d)%nat) as [|Hi]; [done|]. rewrite Hd in Hx by lia. done.
Qed.

(** [d'] is [d] with one more entry [x] named [n] in the directory [dir], and more inodes. *)
Definition added (dir : list bytes) (n : bytes) (x : Node) (d d' : Disk) : Prop :=
  tree d' = node_update (tree d) dir (put_entry now n x) /\ grown d d'.

(** ** A new entry *)

(** [d] with a new inode [X] named [n] in [dir]. *)
Definition leaf_added (dir : list bytes) (n : bytes) (X : Inode) (d : Disk) : Disk :=
  mkDisk (node_update (tree d) dir (put_entry now n (NLeaf (next_ino d))))
         (<[next_ino d := X]> (inodes d)) (S (next_ino d)).

Lemma leaf_added_added dir n X d : disk_ok d -> added dir n (NLeaf (next_ino d)) d (leaf_added dir n X d).
Proof.
  intros Hd. split; [done|]. unfold leaf_added. cbn. split; [|split].
  - intros i Hi. cbn [inodes]. apply lookup_insert_ne. lia.
  - cbn [next_ino]. lia.
  - intros i Hi. cbn [inodes next_ino] in *. rewrite lookup_insert_ne by lia. apply Hd. lia.
Qed.

Lemma leaf_added_inode dir n X d : inodes (leaf_added dir n X d) !! next_ino d = Some X.
Proof. apply lookup_insert_eq. Qed.

Lemma set_inode_added dir n X Y d : set_inode (next_ino d) X (leaf_added dir n Y d) = leaf_added dir n X d.
Proof. unfold set_inode, leaf_added. cbn. by rewrite insert_insert_eq. Qed.

Lemma with_file_added dir n g c m t d :
  with_file (next_ino d) g (leaf_added dir n (mkInode (LRegular c m) t) d) = Ok (leaf_added dir n (g c m t) d).
Proof. unfold with_file. by rewrite leaf_added_inode, set_inode_added. Qed.

Lemma utimens_added dir n l t t' d :
  utimens_leaf (next_ino d) t' (leaf_added dir n (mkInode l t) d) = Ok (leaf_added dir n (mkInode l t') d).
Proof. unfold utimens_leaf. by rewrite leaf_added_inode, set_inode_added. Qed.

Section at_dir.
Context (dir : list bytes) (n : bytes) (d : Disk) (m t : Z) (es : list (bytes * Node)).
Context (Hdir : lookup_path d dir = Some (NDir m t es)) (Hn : entry_lookup n es = None).

Lemma new_entry_ok x : new_entry now dir n x d = Ok (update_path (put_entry now n x) dir d).
Proof using Hdir Hn. unfold new_entry. by rewrite Hdir, Hn. Qed.

Lemma new_inode_ok l : new_inode now dir n l d = Ok (next_ino d, leaf_added dir n (mkInode l now) d).
Proof using Hdir Hn. unfold new_inode. by rewrite new_entry_ok. Qed.

Lemma lookup_new x : node_lookup (node_update (tree d) dir (put_entry now n x)) (dir ++ [n]) = Some x.
Proof using Hdir.
  rewrite node_lookup_app, (lookup_update _ _ _ _ Hdir). cbn. by rewrite entry_lookup_insert.
Qed.

Lemma update_new x g :
  node_update (node_update (tree d) dir (put_entry now n x)) (dir ++ [n]) g
  = node_update (tree d) dir (put_entry now n (g x)).
Proof using Hdir.
  rewrite (node_update_below _ _ n x _ (entry_insert n x es) m now).
  - rewrite node_update_update. apply (node_update_ext _ _ _ _ _ Hdir). cbn. by rewrite entry_replace_insert.
  - by rewrite (lookup_update _ _ (put_entry now n x) _ Hdir).
  - apply entry_lookup_insert.
Qed.
End at_dir.

(** *** Regular files and symbolic links *)

(** What has been written over the zeros that were preallocated. *)
Definition partly (dir : list bytes) (n : bytes) (d : Disk) (mode : Z) (zeros : bytes) (u : OpenFile) (w : bytes) : Prop :=
  u = mkOpenFile (leaf_added dir n (mkInode (LRegular (w ++ drop (length w) zeros) mode) now) d) (next_ino d) (length w).

Lemma partly_write dir n d mode zeros u w e :
  partly dir n d mode zeros u w -> exists u', writeUnbuffered u e = Ok u' /\ partly dir n d mode zeros u' (w ++ e).
Proof.
  intros ->. eexists. split; [unfold writeUnbuffered, OpenFile_write, pwrite; cbn [of_ino of_pos of_disk]; by rewrite with_file_added|].
  unfold partly. cbn [of_ino of_pos]. rewrite length_app, take_app_length, drop_app_ge, drop_drop, <- app_assoc by lia.
  by rewrite Nat.add_sub_swap, Nat.sub_diag, Nat.add_0_l, Nat.add_comm by lia.
Qed.

Lemma masked_canonical : umaskPreservesCanonicalModes = true -> masked umask 0x124 = 0x124.
Proof.
  unfold umaskPreservesCanonicalModes, masked. rewrite Z.eqb_eq. intros Hu.
  rewrite <- Z.ldiff_land. replace (Z.ldiff 0x124 umask) with (Z.ldiff 0x124 (Z.land umask 0x16D)); [by rewrite Hu|].
  apply Z.bits_inj'. intros k Hk. rewrite !Z.ldiff_spec, Z.land_spec.
  destruct (Z.testbit 0x124 k) eqn:H4; [|done]. cbn [andb]. f_equal.
  assert (Z.testbit 0x16D k = true) as ->; [|by rewrite andb_true_r].
  change 0x124 with (Z.land 0x124 0x16D) in H4. rewrite Z.land_spec in H4. by apply andb_true_iff in H4 as [_ ?].
Qed.

Section leaf.
Context (s : RestoreSink) (path : CanonPath) (dir : list bytes) (n : bytes) (m t : Z) (es : list (bytes * Node)).
Notation d := (rs_disk s).
Notation canonical := (rs_canonical s).
Context (Hget : getParentFdAndName d (dirFd s) (dstPath s) path = Ok (dir, n)).
Context (Hdir : lookup_path d dir = Some (NDir m t es)) (Hn : entry_lookup n es = None).

Lemma rs_createSymlink_ok target :
  NUL ∉ target ->
  rs_createSymlink s path target = Ok (set_disk (leaf_added dir n (mkInode (LSymlink target) (leaf_time canonical)) d) s).
Proof using Hget Hdir Hn.
  intros Ht. unfold rs_createSymlink. rewrite Hget. cbn [mbind result_bind]. rewrite bool_decide_false by done.
  unfold symlinkat. cbn [throw_if mbind result_bind]. rewrite (new_inode_ok _ _ _ _ _ _ Hdir Hn). cbn [mbind result_bind].
  unfold leaf_time. destruct canonical; [|done]. by rewrite utimens_added.
Qed.

(** The mode a regular file is created with, and what [isExecutable] makes of it. *)
Definition open_mode : Z := masked umask (if canonical then 0x124 else 0x1B6).
Definition crf (mode : Z) (zeros : bytes) (made : bool) (b : BufferedSink OpenFile) (w : bytes) (c : RestoreRegularFile) : Prop :=
  c = mkRestoreRegularFile b s made /\ buffered_ok (partly dir n d mode zeros) defaultBufSize b w.

Lemma crf_open_ok : exists b c, rs_crf_open s path = Ok c /\ crf open_mode [] false b [] c.
Proof using Hget Hdir Hn.
  unfold rs_crf_open. rewrite Hget. cbn [mbind result_bind]. unfold create_excl.
  rewrite (new_inode_ok _ _ _ _ _ _ Hdir Hn). cbn [mbind result_bind]. do 2 eexists. split; [done|]. split; [done|].
  split; [done|]. split; [apply defaultBufSize_pos|]. exists []. split; [|done]. done.
Qed.

(** Changing what has not been written to. *)
Lemma crf_start mode zeros made b c :
  crf mode zeros made b [] c -> b = mkBufferedSink defaultBufSize [] (mkOpenFile (leaf_added dir n (mkInode (LRegular zeros mode) now) d) (next_ino d) 0).
Proof using Type.
  intros (_ & Hs & Hl & w & Hp & Hw). destruct b as [bs bf u]; cbn [bufSize buffer under] in *.
  symmetry in Hw. apply app_eq_nil in Hw as [-> ->]. unfold partly in Hp. cbn in Hp. by subst.
Qed.

Lemma crf_restart mode zeros made :
  crf mode zeros made (mkBufferedSink defaultBufSize [] (mkOpenFile (leaf_added dir n (mkInode (LRegular zeros mode) now) d) (next_ino d) 0)) []
    (mkRestoreRegularFile (mkBufferedSink defaultBufSize [] (mkOpenFile (leaf_added dir n (mkInode (LRegular zeros mode) now) d) (next_ino d) 0)) s made).
Proof using Type.
  split; [done|]. split; [done|]. split; [apply defaultBufSize_pos|]. exists []. done.
Qed.

Lemma isExecutable_ok mode zeros made b c :
  crf mode zeros made b [] c ->
  exists b' c', rs_isExecutable c = Ok c' /\
    crf (if canonical then 0x16D else Z.lor mode 0x49) zeros (if canonical then true else made) b' [] c'.
Proof using Type.
  intros Hc. pose proof (crf_start _ _ _ _ _ Hc) as ->. destruct Hc as [-> _].
  unfold rs_isExecutable. cbn [crf_back crf_fd]. destruct canonical; unfold on_disk, with_fd, fchmod_file;
    cbn [under of_disk of_ino of_pos bufSize buffer mbind result_bind]; rewrite with_file_added; cbn [mbind result_bind];
    do 2 eexists; (split; [done|]); apply crf_restart.
Qed.

Lemma preallocate_ok mode made b c len :
  crf mode [] made b [] c -> (preallocateContents = true -> Z.of_nat len <= max_off_t) ->
  exists b' c' zeros, rs_preallocate c (Z.of_nat len) = Ok c' /\ crf mode zeros made b' [] c' /\ (length zeros <= len)%nat.
Proof using Type.
  intros Hc Hlen. pose proof (crf_start _ _ _ _ _ Hc) as Hb. unfold rs_preallocate.
  destruct (preallocateContents && negb _) eqn:Hp; [|do 3 eexists; split; [done|]; split; [exact Hc|cbn; lia]].
  apply andb_true_iff in Hp as [Hp _]. rewrite (proj2 (Z.ltb_ge _ _)) by auto. cbn [throw_if mbind result_bind].
  destruct fallocate_supported; [|do 3 eexists; split; [done|]; split; [exact Hc|cbn; lia]].
  destruct Hc as [-> _]. subst b. unfold on_disk, with_fd, fallocate, set_fd.
  cbn [crf_fd under of_disk of_ino of_pos bufSize buffer mbind result_bind crf_back madeExecutable]. rewrite with_file_added. cbn [mbind result_bind].
  do 3 eexists. split; [done|]. split; [apply crf_restart|]. cbn. rewrite length_replicate. lia.
Qed.

Lemma crf_write_ok mode zeros made b c w e :
  crf mode zeros made b w c -> exists b' c', crf_write c e = Ok c' /\ crf mode zeros made b' (w ++ e) c'.
Proof using Type.
  intros [-> Hb]. cbn [crf_write RestoreSink_sink crf_fd].
  destruct (buffered_write_ok _ (fun _ => True) _ (fun u w e _ => partly_write dir n d mode zeros u w e) (fun _ _ => I) (S (length e)) b e w Hb ltac:(lia) ltac:(auto))
    as (b' & Hw & Hb').
  change (sink b e) with (buffered_write (S (length e)) b e). rewrite Hw. cbn [mbind result_bind]. by do 2 eexists.
Qed.

Lemma crf_close_ok mode zeros made b c w x :
  crf mode zeros made b w c -> (length zeros <= length w)%nat ->
  mode = (if x : bool then if canonical then 0x16D else Z.lor open_mode 0x49 else open_mode) -> made = x && canonical ->
  rs_crf_close c = Ok (set_disk (leaf_added dir n (mkInode (LRegular w (file_mode canonical x)) (leaf_time canonical)) d) s).
Proof using Type.
  intros [-> (Hs & Hl & v & Hv & ->)] Hz -> ->.
  unfold rs_crf_close. cbn [crf_fd crf_back madeExecutable].
  destruct (flush_ok _ (fun _ => True) _ (fun u w e _ => partly_write dir n d _ zeros u w e) (fun _ _ => I) b v Hv Hl) as (b' & -> & _ & _ & Hr).
  destruct b' as [bs bf u]. cbn [under] in Hr. cbn [mbind result_bind]. unfold partly in Hr. rewrite drop_ge, app_nil_r in Hr by done.
  unfold file_mode, leaf_time, open_mode, on_disk, with_fd, fchmod_file in *.
  destruct canonical; rewrite ?andb_true_r, ?andb_false_r; cbn [mbind result_bind].
  - destruct x; cbn [negb]; rewrite ?andb_false_r, ?andb_true_r.
    + rewrite Hr. cbn [mbind result_bind of_disk of_ino under]. by rewrite utimens_added.
    + destruct umaskPreservesCanonicalModes eqn:Hu; cbn [negb].
      * rewrite masked_canonical in Hr by done. rewrite Hr. cbn [mbind result_bind of_disk of_ino under]. by rewrite utimens_added.
      * rewrite Hr. cbn [mbind result_bind of_disk of_ino under]. rewrite with_file_added.
        cbn [mbind result_bind of_disk of_ino under]. by rewrite utimens_added.
  - rewrite Hr. by destruct x.
Qed.

Lemma build_regular_ok x c :
  (preallocateContents = true -> Z.of_nat (length c) <= max_off_t) ->
  build_regular s path x c
  = Ok (set_disk (leaf_added dir n (mkInode (LRegular c (file_mode canonical x)) (leaf_time canonical)) d) s).
Proof using Hget Hdir Hn.
  intros Hc. unfold build_regular. cbn [crf_open crf_isExecutable crf_preallocate crf_close RestoreSink_sink].
  destruct crf_open_ok as (b0 & c0 & -> & H0). cbn [mbind result_bind].
  assert (exists b1 c1, (if x then rs_isExecutable c0 else Ok c0) = Ok c1 /\
    crf (if x then if canonical then 0x16D else Z.lor open_mode 0x49 else open_mode) [] (x && canonical) b1 [] c1) as (b1 & c1 & -> & H1).
  { destruct x; [|by exists b0, c0]. destruct (isExecutable_ok _ _ _ _ _ H0) as (b1 & c1 & -> & H1). exists b1, c1.
    split; [done|]. by destruct canonical. }
  cbn [mbind result_bind]. destruct (preallocate_ok _ _ _ _ (length c) H1 Hc) as (b2 & c2 & zeros & -> & H2 & Hz). cbn [mbind result_bind].
  destruct (crf_write_ok _ _ _ _ _ _ c H2) as (b3 & c3 & -> & H3). cbn [mbind result_bind].
  by apply (crf_close_ok _ _ _ _ _ _ x H3).
Qed.
End leaf.

(** *** Paths *)

Lemma single_path n : good n ->
  isRoot (unchecked (join_path [n])) = false /\ parent (unchecked (join_path [n])) = Some root /\
  baseName (unchecked (join_path [n])) = Some n /\ elems (unchecked (join_path [n])) = [n] /\
  fromFilename n = Ok (unchecked (join_path [n])) /\ rel (unchecked (join_path [n])) = n.
Proof.
  intros Hg. assert (Forall good [n]) as Hgs by auto. pose proof (Forall_good_plain _ Hgs) as Hp.
  assert (isRoot (unchecked (join_path [n])) = false) as Hr by (rewrite isRoot_join by done; by rewrite bool_decide_false).
  assert (path (unchecked (join_path [n])) = slash :: n) as Hpath by (cbn [path]; unfold join_path; rewrite decide_False, joinE_cons by done; change (joinE []) with (@nil ascii); by rewrite app_nil_r).
  assert (rfind_char slash (slash :: n) = Some 0%nat) as Hf by (apply (rfind_char_app slash []); apply Hg).
  assert (rel (unchecked (join_path [n])) = n) as Hrel by (unfold rel; by rewrite Hpath).
  assert (elems (unchecked (join_path [n])) = [n]) as He by (by apply elems_join).
  split; [done|]. unfold parent, baseName. rewrite Hr, Hpath, Hf. split; [done|]. split; [done|]. split; [done|]. split; [|done].
  unfold fromFilename. rewrite CanonPath_new_eq, decide_False by apply Hg.
  rewrite components_no_slash by apply Hg. rewrite resolve_good by done. cbn [app mbind result_bind].
  by rewrite Hrel, He, bool_decide_false by auto.
Qed.

Lemma get_below d fd dst n : good n -> getParentFdAndName d (Some fd) dst (unchecked (join_path [n])) = Ok (fd, n).
Proof.
  intros Hg. destruct (single_path n Hg) as (Hr & Hp & Hb & _ & Hf & Hrel).
  unfold getParentFdAndName. rewrite Hr, Hp, Hb. cbn [negb assertb throw_if from_opt mbind result_bind].
  rewrite Hf. change (isRoot root) with true. cbn [mbind result_bind]. by rewrite Hrel.
Qed.

Lemma get_root d dir n m t es :
  good n -> lookup_path d dir = Some (NDir m t es) -> getParentFdAndName d None (dir ++ [n]) root = Ok (dir, n).
Proof.
  intros Hg Hd. destruct (single_path n Hg) as (_ & _ & _ & _ & Hf & Hrel).
  unfold getParentFdAndName, append. change (elems root) with (@nil bytes). rewrite app_nil_r, last_snoc.
  change (isRoot root) with true. cbn [negb throw_if from_opt mbind result_bind]. destruct Hg as (?&?&?&?&?).
  rewrite !bool_decide_false by done. cbn [orb throw_if mbind result_bind].
  rewrite length_app, Nat.add_sub, take_app_length. unfold open_dir. rewrite Hd. cbn [mbind result_bind].
  rewrite Hf. cbn [mbind result_bind]. by rewrite Hrel.
Qed.

(** *** Directories *)

(** The directories of a file in the order they are left, below [base]. *)
Fixpoint all_dirs (base : list bytes) (f : File) : list (list bytes) :=
  match f with
  | Directory es =>
      (fix go (es : list (bytes * File)) := match es with
                   | [] => []
                   | e :: es => all_dirs (base ++ [e.1]) (e.2) ++ go es
                   end) es ++ [base]
  | _ => []
  end.
Definition dirs_below (base : list bytes) (es : list (bytes * File)) : list (list bytes) :=
  mjoin ((fun e => all_dirs (base ++ [e.1]) (e.2)) <$> es).
Lemma all_dirs_Directory base es : all_dirs base (Directory es) = dirs_below base es ++ [base].
Proof.
  cbn [all_dirs]. f_equal. unfold dirs_below. induction es as [|e es IH]; [done|].
  rewrite fmap_cons. change (mjoin (?x :: ?l)) with (x ++ mjoin l). by rewrite <- IH.
Qed.

(** The contents can be preallocated. *)
Fixpoint preallocatable (f : File) : Prop :=
  match f with
  | Regular _ c => preallocateContents = true -> Z.of_nat (length c) <= max_off_t
  | Directory es => (fix go (es : list (bytes * File)) := match es with [] => True | e :: es => preallocatable (e.2) /\ go es end) es
  | Symlink _ => True
  end.
Lemma preallocatable_Directory es : preallocatable (Directory es) <-> Forall (fun e => preallocatable (e.2)) es.
Proof.
  cbn [preallocatable]. induction es as [|e es IH]; [split; [constructor|done]|]. rewrite Forall_cons, IH. done.
Qed.

Definition fin (s : RestoreSink) : bool := rs_canonical s && bool_decide (deferCanonicalDirs s = None).
Definition deferred (s : RestoreSink) (ds : list (list bytes)) : option (list (list bytes)) :=
  if rs_canonical s then (fun l => l ++ ds) <$> deferCanonicalDirs s else deferCanonicalDirs s.
(** [s] when the disk has become [d] and the directories [ds] were left. *)
Definition after (s : RestoreSink) (d : Disk) (ds : list (list bytes)) : RestoreSink :=
  set_deferred (deferred s ds) (set_disk d s).

Lemma deferred_app s d ds ds' : deferred (after s d ds) ds' = deferred s (ds ++ ds').
Proof.
  unfold deferred, after. cbn. unfold deferred. destruct (rs_canonical s); [|done].
  destruct (deferCanonicalDirs s); cbn; [|done]. by rewrite app_assoc.
Qed.
Lemma after_after s d d' ds ds' : after (after s d ds) d' ds' = after s d' (ds ++ ds').
Proof. unfold after at 1. rewrite deferred_app. done. Qed.
Lemma fin_after s d ds : fin (after s d ds) = fin s.
Proof.
  unfold fin, after, deferred. cbn. destruct (rs_canonical s); [|done].
  by destruct (deferCanonicalDirs s).
Qed.
Lemma after_nil s d : after s d [] = set_disk d s.
Proof.
  unfold after, deferred, set_deferred, set_disk. cbn. f_equal. destruct (rs_canonical s); [|done].
  destruct (deferCanonicalDirs s); cbn; [|done]. by rewrite app_nil_r.
Qed.

Definition built_below (f : File) : Prop := forall s dir n m t es,
  dirFd s = Some dir -> lookup_path (rs_disk s) dir = Some (NDir m t es) -> entry_lookup n es = None ->
  good n -> ok_file f -> preallocatable f -> disk_ok (rs_disk s) ->
  exists x d', build s (unchecked (join_path [n])) f = Ok (after s d' (all_dirs (dstPath s ++ [n]) f)) /\
    added dir n x (rs_disk s) d' /\
    restored (rs_canonical s) (inodes d') (dir_meta (fin s)) (dir_meta (fin s)) f x.

(** The entries of a new directory: [s] holds [d0] with a new directory
    [dir0 ++ [n]] whose entries so far are [ns1]. *)
Section entries.
Context (d0 : Disk) (dir0 : list bytes) (n : bytes) (m0 t0 mode : Z) (es0 : list (bytes * Node)).
Context (Hdir0 : lookup_path d0 dir0 = Some (NDir m0 t0 es0)).

Lemma build_entries_ok es : Forall (fun e => built_below (e.2)) es -> forall s ns1,
  dirFd s = Some (dir0 ++ [n]) -> disk_ok (rs_disk s) ->
  tree (rs_disk s) = node_update (tree d0) dir0 (put_entry now n (NDir mode now ns1)) ->
  Forall (fun k => Forall (bytes_lt k) (es.*1)) (ns1.*1) -> StronglySorted bytes_lt (es.*1) ->
  Forall name_ok (es.*1) -> Forall (fun e => ok_file (e.2)) es -> Forall (fun e => preallocatable (e.2)) es ->
  exists d' ns, build_entries root s es = Ok (after s d' (dirs_below (dstPath s) es)) /\
    tree d' = node_update (tree d0) dir0 (put_entry now n (NDir mode now (ns1 ++ ns))) /\
    grown (rs_disk s) d' /\
    Forall2 (restored_entry (rs_canonical s) (inodes d') (dir_meta (fin s))) es ns.
Proof using Hdir0.
  induction 1 as [|[k f] es Hb _ IH]; intros s ns1 Hfd Hok Ht Hlt Hs Hn Hf Hp.
  - exists (rs_disk s), []. rewrite app_nil_r. split; [|split; [done|split; [by apply grown_refl|constructor]]]. unfold build_entries. cbn [foreach].
    change (dirs_below _ []) with (@nil (list bytes)). rewrite after_nil. by destruct s.
  - cbn [fmap list_fmap fst] in *. apply Forall_cons in Hn as [[Hg _] Hn], Hf as [Hf1 Hf], Hp as [Hp1 Hp].
    apply StronglySorted_inv in Hs as [Hs Hk].
    assert (Forall (fun x => bytes_lt x k) (ns1.*1)) as Hlast
      by (eapply Forall_impl; [exact Hlt|]; cbn; intros x Hx; by apply Forall_cons in Hx as [? _]).
    assert (lookup_path (rs_disk s) (dir0 ++ [n]) = Some (NDir mode now ns1)) as Hl
      by (unfold lookup_path; rewrite Ht; by eapply lookup_new).
    destruct (Hb s (dir0 ++ [n]) k mode now ns1 Hfd Hl (entry_lookup_last _ _ Hlast) Hg Hf1 Hp1 Hok)
      as (x & d1 & Hbuild & (Ht1 & Hg1) & Hr). cbn [snd] in *. pose proof Hg1 as (_ & _ & Hok1).
    rewrite Ht, (update_new _ _ _ _ _ _ Hdir0) in Ht1. cbn [put_entry] in Ht1. rewrite entry_insert_last in Ht1 by done.
    destruct (IH (after s d1 (all_dirs (dstPath s ++ [k]) f)) (ns1 ++ [(k, x)])) as (d2 & ns & He & Ht2 & Hg2 & Hr2); try done.
    { rewrite fmap_app. apply Forall_app. split; [|constructor; [exact Hk|constructor]].
      eapply Forall_impl; [exact Hlt|]. cbn. intros y Hy. by apply Forall_cons in Hy as [_ ?]. }
    rewrite fin_after in Hr2. exists d2, ((k, x) :: ns). split; [|split; [|split]].
    + unfold build_entries in *. cbn [foreach fst snd]. change root with (unchecked (join_path [])) in He |- *.
      rewrite push_join by done. cbn [app mbind result_bind]. rewrite Hbuild. cbn [mbind result_bind]. rewrite He.
      by rewrite after_after.
    + by rewrite Ht2, <- app_assoc.
    + by eapply grown_trans.
    + constructor; [|done]. split; [done|]. cbn [snd]. eapply restored_mono; [|exact Hr]. by apply grown_subseteq.
Qed.
End entries.

Lemma mkdirat_ok d dir n mode m t es :
  lookup_path d dir = Some (NDir m t es) -> entry_lookup n es = None ->
  mkdirat now dir n mode d = Ok (update_path (put_entry now n (NDir mode now [])) dir d).
Proof. intros Hd Hn. unfold mkdirat. by rewrite (new_entry_ok _ _ _ _ _ _ Hd Hn). Qed.

Lemma open_new d dir n m t es mode time ns :
  lookup_path d dir = Some (NDir m t es) ->
  open_dir (update_path (put_entry now n (NDir mode time ns)) dir d) (dir ++ [n]) = Ok (dir ++ [n]).
Proof.
  intros Hd. unfold open_dir, lookup_path. cbn [tree update_path]. by rewrite (lookup_new _ _ _ _ _ _ Hd).
Qed.

(** Finishing a directory that was made. *)
Lemma finish_ok s d0 dir0 n m0 t0 es0 ns :
  lookup_path d0 dir0 = Some (NDir m0 t0 es0) -> dirFd s = Some (dir0 ++ [n]) ->
  tree (rs_disk s) = node_update (tree d0) dir0 (put_entry now n (NDir (new_dir.1) now ns)) ->
  exists d', finishCanonical s = Ok (set_deferred (deferred s [dstPath s]) (set_disk d' s)) /\
    tree d' = node_update (tree d0) dir0 (put_entry now n (NDir ((dir_meta (fin s)).1) ((dir_meta (fin s)).2) ns)) /\
    inodes d' = inodes (rs_disk s) /\ next_ino d' = next_ino (rs_disk s).
Proof.
  intros Hd Hfd Ht. unfold finishCanonical, deferred, fin. rewrite Hfd. destruct (rs_canonical s).
  - destruct (deferCanonicalDirs s) as [l|] eqn:Hdef; cbn [fmap option_fmap option_map].
    + exists (rs_disk s). rewrite bool_decide_false by done. split; [by destruct s|]. done.
    + rewrite bool_decide_true by done. unfold chmod_dir, utimens_dir, with_dir, lookup_path.
      rewrite Ht, (lookup_new _ _ _ _ _ _ Hd). cbn [mbind result_bind]. unfold update_path at 1. cbn [tree].
      rewrite Ht, (update_new _ _ _ _ _ _ Hd), (lookup_new _ _ _ _ _ _ Hd). cbn [mbind result_bind].
      eexists. split; [unfold set_deferred, set_disk; cbn; by rewrite Hdef|]. cbn [tree update_path inodes next_ino].
      by rewrite Ht, !(update_new _ _ _ _ _ _ Hd).
  - exists (rs_disk s). split; [by destruct s|]. done.
Qed.

(** Building a file in an open directory. *)
Lemma build_below f : built_below f.
Proof.
  induction f as [x c|es IH|tg] using File_ind'; intros s dir n m t ns0 Hfd Hl Hn Hg Hok Hp Hd.
  - exists (NLeaf (next_ino (rs_disk s))). eexists. cbn [build].
    rewrite (build_regular_ok _ _ dir n m t ns0); [|rewrite Hfd; by apply get_below|done|done|done].
    cbn [all_dirs]. rewrite after_nil. split; [done|]. split; [by apply leaf_added_added|].
    cbn [restored]. by rewrite leaf_added_inode.
  - destruct (single_path n Hg) as (Hr & _ & _ & He & _).
    rewrite build_Directory. cbn [enterDirectory leaveDirectory RestoreSink_sink]. unfold rs_enterDirectory, rs_createDirectory.
    rewrite Hr, andb_false_r, Hfd. cbn [throw_if mbind result_bind]. rewrite get_below by done. cbn [mbind result_bind].
    rewrite (mkdirat_ok _ _ _ _ _ _ _ Hl Hn). cbn [mbind result_bind set_disk dirFd rs_disk].
    rewrite Hfd. cbn [mbind result_bind set_disk dirFd rs_disk dstPath rs_canonical deferCanonicalDirs].
    rewrite Hfd. cbn [from_opt mbind result_bind]. unfold append. rewrite He, (open_new _ _ _ _ _ _ _ _ _ Hl). cbn [mbind result_bind].
    inversion_clear Hok as [|? Hs Hnm Hok'|]. apply preallocatable_Directory in Hp.
    set (s1 := mkRestoreSink _ _ _ _ _).
    destruct (build_entries_ok (rs_disk s) dir n m t (masked umask 0x1FF) ns0 Hl es IH s1 []) as (d' & ns & -> & Ht & Hgr & Hrs); try done.
    cbn [mbind result_bind]. unfold rs_leaveDirectory. rewrite Hr.
    destruct (finish_ok (after s1 d' (dirs_below (dstPath s1) es)) (rs_disk s) dir n m t ns0 ns Hl eq_refl Ht) as (d2 & -> & Ht2 & Hi2 & Hn2).
    cbn [mbind result_bind]. rewrite deferred_app, fin_after in *.
    change (fin s1) with (fin s) in *. change (rs_canonical s1) with (rs_canonical s) in *. change (inodes (rs_disk s1)) with (inodes (rs_disk s)) in *.
    eexists _, d2. split; [by rewrite all_dirs_Directory|]. split.
    + split; [exact Ht2|]. by apply (grown_same _ d').
    + rewrite Hi2. apply restored_Directory. split; [by destruct (dir_meta _)|done].
  - exists (NLeaf (next_ino (rs_disk s))). eexists. cbn [build createSymlink RestoreSink_sink]. inversion_clear Hok as [| |? (_ & Ht & _)].
    rewrite (rs_createSymlink_ok _ _ dir n m t ns0); [|rewrite Hfd; by apply get_below|done|done|done].
    cbn [all_dirs]. rewrite after_nil. split; [done|]. split; [by apply leaf_added_added|].
    cbn [restored]. by rewrite leaf_added_inode.
Qed.

(** Building a file at the destination. *)
Definition root_dirs (base : list bytes) (f : File) : list (list bytes) :=
  match f with Directory es => dirs_below base es | _ => [] end.

Lemma build_root f s dir n m t es :
  dstPath s = dir ++ [n] -> dirFd s = None -> lookup_path (rs_disk s) dir = Some (NDir m t es) ->
  entry_lookup n es = None -> good n -> ok_file f -> preallocatable f -> disk_ok (rs_disk s) ->
  exists x s', build s root f = Ok s' /\ added dir n x (rs_disk s) (rs_disk s') /\
    deferCanonicalDirs s' = deferred s (root_dirs (dstPath s) f) /\
    restored (rs_canonical s) (inodes (rs_disk s')) new_dir (dir_meta (fin s)) f x.
Proof.
  intros Hdst Hfd Hl Hn Hg Hok Hp Hd.
  assert (getParentFdAndName (rs_disk s) (dirFd s) (dstPath s) root = Ok (dir, n)) as Hget
    by (rewrite Hfd, Hdst; by eapply get_root).
  assert (deferCanonicalDirs s = deferred s []) as Hdef.
  { unfold deferred. destruct (rs_canonical s); [|done]. destruct (deferCanonicalDirs s); cbn; [|done]. by rewrite app_nil_r. }
  destruct f as [x c|fs|tg].
  - eexists _, _. cbn [build]. rewrite (build_regular_ok _ _ dir n m t es) by done. split; [done|].
    split; [by apply leaf_added_added|]. split; [done|]. cbn [restored set_disk rs_disk]. by rewrite leaf_added_inode.
  - rewrite build_Directory. cbn [enterDirectory leaveDirectory RestoreSink_sink]. unfold rs_enterDirectory, rs_createDirectory.
    rewrite Hfd, bool_decide_false by (intros []; done). cbn [andb throw_if mbind result_bind]. rewrite <- Hfd, Hget. cbn [mbind result_bind].
    rewrite (mkdirat_ok _ _ _ _ _ _ _ Hl Hn). cbn [mbind result_bind set_disk dirFd]. rewrite Hfd.
    rewrite (open_new _ _ _ _ _ _ _ _ _ Hl). cbn [mbind result_bind].
    change (isRoot root) with true. cbn iota. cbn [mbind result_bind].
    inversion_clear Hok as [|? Hs Hnm Hok'|]. apply preallocatable_Directory in Hp.
    set (s1 := set_dirFd _ _).
    destruct (build_entries_ok (rs_disk s) dir n m t (masked umask 0x1FF) es Hl fs) with (s := s1) (ns1 := @nil (bytes * Node))
      as (d' & ns & -> & Ht & Hgr & Hrs); try done.
    { apply Forall_forall. intros e _. apply build_below. }
    cbn [mbind result_bind]. unfold rs_leaveDirectory. change (isRoot root) with true. cbn iota.
    eexists _, _. split; [done|]. split; [split; [exact Ht|done]|]. split; [done|].
    apply restored_Directory. split; [done|exact Hrs].
  - eexists _, _. cbn [build createSymlink RestoreSink_sink]. inversion_clear Hok as [| |? (_ & Ht & _)].
    rewrite (rs_createSymlink_ok _ _ dir n m t es) by done. split; [done|].
    split; [by apply leaf_added_added|]. split; [done|]. cbn [restored set_disk rs_disk]. by rewrite leaf_added_inode.
Qed.

(** A destination that is there is not written to. *)
Lemma build_exists f s dir n m t es y :
  dstPath s = dir ++ [n] -> dirFd s = None -> lookup_path (rs_disk s) dir = Some (NDir m t es) ->
  entry_lookup n es = Some y -> good n -> forall s', build s root f <> Ok s'.
Proof.
  intros Hdst Hfd Hl Hn Hg s'.
  assert (getParentFdAndName (rs_disk s) (dirFd s) (dstPath s) root = Ok (dir, n)) as Hget
    by (rewrite Hfd, Hdst; by eapply get_root).
  assert (forall x, new_entry now dir n x (rs_disk s) = Throw SystemError) as He
    by (intros x; unfold new_entry; by rewrite Hl, Hn).
  destruct f as [x c|fs|tg].
  - cbn [build]. unfold build_regular. cbn [crf_open RestoreSink_sink]. unfold rs_crf_open. rewrite Hget. cbn [mbind result_bind].
    unfold create_excl, new_inode. by rewrite He.
  - rewrite build_Directory. cbn [enterDirectory RestoreSink_sink]. unfold rs_enterDirectory, rs_createDirectory.
    rewrite Hget, Hfd, bool_decide_false by (intros []; done). cbn [andb throw_if mbind result_bind]. unfold mkdirat. by rewrite He.
  - cbn [build createSymlink RestoreSink_sink]. unfold rs_createSymlink. rewrite Hget. cbn [mbind result_bind].
    destruct (throw_if _ _); [|done]. cbn [mbind result_bind]. unfold symlinkat, new_inode. by rewrite He.
Qed.

(** ** Reading it back *)

Lemma executable_mode c x : is_executable (file_mode c x) = x.
Proof.
  unfold is_executable, file_mode. destruct c, x; [done|done| |].
  - apply negb_true_iff, Z.eqb_neq. intros H0. assert (Z.testbit (Z.land (Z.lor (masked umask 0x1B6) 0x49) 0x40) 6 = false) as Hb by (by rewrite H0, Z.bits_0).
    rewrite Z.land_spec, Z.lor_spec in Hb. change (Z.testbit 0x49 6) with true in Hb. by rewrite orb_true_r in Hb.
  - apply negb_false_iff, Z.eqb_eq. unfold masked. rewrite <- Z.land_assoc, (Z.land_comm (Z.lnot umask)), Z.land_assoc. done.
Qed.

Lemma restored_view c inos f : forall top below n, restored c inos top below f n -> view inos n = Some f.
Proof.
  induction f as [x d|es IH|t] using File_ind'; intros top below [i|m tm ns]; try done.
  - cbn [restored view]. intros ->. by rewrite executable_mode.
  - rewrite restored_Directory, view_NDir. intros [_ Hr]. unfold view_entries.
    assert (mapM (fun e : bytes * Node => f ← view inos (e.2); Some (e.1, f)) ns = Some es) as ->; [|done].
    induction Hr as [|[k f] [k' x] es ns [Hk Hx] _ IHr]; [done|]. apply Forall_cons in IH as [IHe IH].
    cbn [fst snd mapM] in *. rewrite (IHe _ _ _ Hx). cbn [mbind option_bind]. rewrite IHr by done. cbn. by rewrite Hk.
  - cbn [restored view]. by intros ->.
Qed.

(** Contents are no longer than the archive. *)
Lemma nar_preallocatable f : (preallocateContents = true -> Z.of_nat (length (nar f)) <= max_off_t) -> preallocatable f.
Proof.
  induction f as [x c|es IH|t] using File_ind'; [| |done].
  - cbn [preallocatable nar]. intros H Hp. specialize (H Hp). rewrite !nar_tags_app' in H.
    unfold nar_tags at 4, enc_string in H. cbn [fmap list_fmap mjoin list_join] in H. rewrite !length_app in H. lia.
  - rewrite preallocatable_Directory, nar_Directory. intros H.
    assert (forall e, e ∈ es -> (length (nar (e.2)) <= length (mjoin (nar_entry <$> es)))%nat) as Hle.
    { clear. induction es as [|y es IHes]; intros e He; [by apply not_elem_of_nil in He|].
      rewrite fmap_cons, join_cons, length_app. apply elem_of_cons in He as [->|He%IHes]; [|lia].
      unfold nar_entry. rewrite !length_app. lia. }
    rewrite Forall_forall in *. intros e He. apply IH; [done|]. intros Hp. specialize (H Hp). specialize (Hle e He).
    rewrite !length_app in H. lia.
Qed.

(** Nothing is written where there is no directory. *)
Lemma build_noparent f s dir n :
  dstPath s = dir ++ [n] -> dirFd s = None -> (forall m t es, lookup_path (rs_disk s) dir <> Some (NDir m t es)) ->
  forall s', build s root f <> Ok s'.
Proof.
  intros Hdst Hfd Hl s'.
  assert (exists e, getParentFdAndName (rs_disk s) (dirFd s) (dstPath s) root = Throw e) as [e Hget].
  { rewrite Hfd, Hdst. unfold getParentFdAndName, append. change (elems root) with (@nil bytes). rewrite app_nil_r, last_snoc.
    change (isRoot root) with true. cbn [negb throw_if from_opt mbind result_bind].
    destruct (_ || _); cbn [throw_if mbind result_bind]; [by eexists|].
    rewrite length_app, Nat.add_sub, take_app_length. unfold open_dir.
    destruct (lookup_path (rs_disk s) dir) as [[|m t es]|] eqn:Hd; [by eexists|by destruct (Hl m t es)|by eexists]. }
  destruct f as [x c|fs|tg].
  - cbn [build]. unfold build_regular. cbn [crf_open RestoreSink_sink]. unfold rs_crf_open. by rewrite Hget.
  - rewrite build_Directory. cbn [enterDirectory RestoreSink_sink]. unfold rs_enterDirectory, rs_createDirectory.
    rewrite Hget, Hfd, bool_decide_false by (intros []; done). done.
  - cbn [build createSymlink RestoreSink_sink]. unfold rs_createSymlink. by rewrite Hget.
Qed.

Lemma restorePath_outcome dir n canonical d m t es :
  lookup_path d dir = Some (NDir m t es) -> good n -> disk_ok d ->
  (forall f r, entry_lookup n es = None -> ok_file f -> (height f <= narMaxDepth)%nat -> preallocatable f ->
     exists d', restorePath false (dir ++ [n]) canonical d (archive f ++ r) = Ok (d', r)) /\
  (forall s d' r, Z.of_nat (length s) <= max_off_t -> restorePath false (dir ++ [n]) canonical d s = Ok (d', r) ->
     entry_lookup n es = None /\
     exists f x, s = archive f ++ r /\ ok_file f /\ (height f <= narMaxDepth)%nat /\ added dir n x d d' /\
       restored canonical (inodes d') new_dir (dir_meta canonical) f x /\ view (inodes d') x = Some f).
Proof.
  intros Hl Hg Hd. set (s0 := mkRestoreSink d (dir ++ [n]) None canonical None). split.
  - intros f r Hn Hok Hh Hp. destruct (build_root f s0 dir n m t es) as (x & s' & Hb & _); try done.
    exists (rs_disk s'). unfold restorePath. fold s0. rewrite (P_bind_Ok _ _ _ s' r); [done|].
    by rewrite parseDump_build, Hb.
  - intros s d' r Hs. unfold restorePath, mbind, P_bind.
    destruct (parseDump false _ s) as [[s1 r1]|] eqn:Hp; [|done]. intros [= <- <-].
    apply parseDump_parsed in Hp as (f & -> & Hok & Hh & Hb); [|done].
    destruct (entry_lookup n es) as [y|] eqn:Hn; [by apply (build_exists f s0 dir n m t es y) in Hb|]. split; [done|].
    destruct (build_root f s0 dir n m t es) as (x & s' & Hb' & Ha & _ & Hr); try done.
    { apply nar_preallocatable. intros _. unfold archive in Hs. rewrite !length_app in Hs. lia. }
    change (build s0 root f = Ok s1) in Hb. rewrite Hb in Hb'. injection Hb' as <-. exists f, x. split; [done|]. split; [done|]. split; [done|]. split; [done|].
    assert (fin s0 = canonical) as Hfin by (by destruct canonical). rewrite Hfin in Hr. split; [exact Hr|].
    by eapply restored_view.
Qed.

(** What a successful call did, whatever the disk was like. *)
Lemma restorePath_Ok dir n canonical d s d' r :
  good n -> disk_ok d -> Z.of_nat (length s) <= max_off_t -> restorePath false (dir ++ [n]) canonical d s = Ok (d', r) ->
  exists m t es f x, lookup_path d dir = Some (NDir m t es) /\ entry_lookup n es = None /\
    s = archive f ++ r /\ ok_file f /\ (height f <= narMaxDepth)%nat /\ added dir n x d d' /\ view (inodes d') x = Some f.
Proof.
  intros Hg Hd Hs Hr.
  assert (exists m t es, lookup_path d dir = Some (NDir m t es)) as (m & t & es & Hl).
  { destruct (lookup_path d dir) as [[i|m t es]|] eqn:Hl; [|by eauto|].
    all: exfalso; unfold restorePath, mbind, P_bind in Hr; destruct (parseDump false _ s) as [[s1 r1]|] eqn:Hp; [|done];
      apply parseDump_parsed in Hp as (f & _ & _ & _ & Hb); [|done];
      eapply (build_noparent f (mkRestoreSink d (dir ++ [n]) None canonical None)); [done|done| |exact Hb];
      intros m t es He; cbn [rs_disk] in He; congruence. }
  destruct (restorePath_outcome dir n canonical d m t es Hl Hg Hd) as [_ H].
  destruct (H s d' r Hs Hr) as (Hn & f & x & ? & ? & ? & ? & _ & ?). exists m, t, es, f, x. auto 10.
Qed.

(** What it shows then. *)
Lemma added_lookup dir n x d d' m t es :
  lookup_path d dir = Some (NDir m t es) -> added dir n x d d' -> lookup_path d' (dir ++ [n]) = Some x.
Proof. intros Hl [Ht _]. unfold lookup_path. rewrite Ht. by apply (lookup_new _ _ d m t es). Qed.

Lemma alters_put n x : alters n (put_entry now n x).
Proof. split; [done|]. intros m t es. do 3 eexists. split; [done|]. intros c Hc. by apply entry_lookup_insert_ne. Qed.

Lemma added_apart dir n x d d' p :
  numbered (next_ino d) (tree d) -> added dir n x d d' -> apart p (dir ++ [n]) -> view_at d' p = view_at d p.
Proof.
  intros Hd (Ht & Hi & _) Ha. unfold view_at, peek. rewrite Ht, (lookup_alters _ _ n) by (apply alters_put || done).
  destruct (node_lookup (tree d) p) as [y|] eqn:Hy; [|done]. cbn [mbind option_bind].
  apply (view_numbered _ _ (next_ino d)); [done|]. by eapply numbered_lookup.
Qed.

(** C7: Restoring an archive to a path whose parent is a directory writes
    exactly the file of the archive there.  It succeeds on the archive of
    every representable file when the name is free.  When it succeeds the
    name was free, the input was the archive of a file and what follows it,
    the only change to the tree is the new entry, no inode that was there is
    touched, the new node reads back as the file, and its metadata are those
    the code means: canonical files have mode 0444 or 0555 and time 1 and
    canonical directories below the root 0755 and time 1, under every umask;
    otherwise the umask applies. *)
Theorem restorePath_spec dir n canonical d m t es :
  lookup_path d dir = Some (NDir m t es) -> good n -> disk_ok d ->
  (forall f r, entry_lookup n es = None -> ok_file f -> (height f <= narMaxDepth)%nat -> preallocatable f ->
     exists d', restorePath false (dir ++ [n]) canonical d (archive f ++ r) = Ok (d', r)) /\
  (forall s d' r, Z.of_nat (length s) <= max_off_t -> restorePath false (dir ++ [n]) canonical d s = Ok (d', r) ->
     entry_lookup n es = None /\
     exists f x, s = archive f ++ r /\ ok_file f /\ (height f <= narMaxDepth)%nat /\ added dir n x d d' /\
       restored canonical (inodes d') new_dir (dir_meta canonical) f x /\ view (inodes d') x = Some f).
Proof. exact (restorePath_outcome dir n canonical d m t es). Qed.
End restore.

Definition empty_disk : Disk := mkDisk (NDir 0x1ED 0 []) ∅ 0.

Lemma restorePath_spec_witness :
  exists d' x, restorePath 7 0x12 true true false [ #"x"] true empty_disk (archive example_file ++ #"rest") = Ok (d', #"rest") /\
    added 7 [] #"x" x empty_disk d' /\ view (inodes d') x = Some example_file.
Proof.
  assert (good #"x") as Hg by (refine (bool_decide_unpack (good _) _); vm_compute; exact I).
  assert (ok_file example_file) as Hok.
  { repeat first [refine (bool_decide_unpack (name_ok _) _); vm_compute; exact I
                 |refine (bool_decide_unpack (target_ok _) _); vm_compute; exact I
                 |constructor]. }
  destruct (restorePath_spec 7 0x12 true true [] #"x" true empty_disk 0x1ED 0 [] eq_refl Hg (fun i _ => lookup_empty i)) as [H1 H2].
  destruct (H1 example_file #"rest" eq_refl Hok) as (d' & Hd'); [vm_compute; lia|repeat constructor; vm_compute; discriminate|].
  destruct (H2 (archive example_file ++ #"rest") d' #"rest") as (_ & f & x & _ & _ & _ & Ha & _ & Hv); [vm_compute; discriminate|exact Hd'|].
  exists d', x. split; [exact Hd'|]. split; [exact Ha|].
  assert (view (inodes d') x = Some example_file) as Hvx; [|exact Hvx].
  revert Hd' Ha Hv. vm_compute. intros [= <-] [Ht _]. injection Ht as <-. intros _. reflexivity.
Defined.
