(* ===== verification/World.v ===== *)
(** * World: system calls among other processes

    A disk that other processes change too.  Before the [k]-th system call
    the others change the disk by [env k]; the call may be refused with an
    error ([refuses k]), and the clock then shows [clock k].  All three are
    arbitrary: theorems hold for every behaviour of the others that keeps
    what they state. *)

From S2P Require Export DiskCalls.
Local Open Scope Z_scope.

Record World := mkWorld { w_disk : Disk; w_tick : nat }.

Section world.
Context (env : nat -> Disk -> Disk) (refuses : nat -> option errc) (clock : nat -> Z).

Definition sys {A} (f : Z -> Disk -> errc + (A * Disk)) : ST World (errc + A) := fun w =>
  let k := w_tick w in
  let d := env k (w_disk w) in
  match refuses k with
  | Some e => (Ok (inl e), mkWorld d (S k))
  | None =>
      match f (clock k) d with
      | inl e => (Ok (inl e), mkWorld d (S k))
      | inr (a, d) => (Ok (inr a), mkWorld d (S k))
      end
  end.

(** An error becomes a [SysError]. *)
Definition or_throw {A} (m : ST World (errc + A)) : ST World A :=
  r ← m; match r with inl _ => slift (Throw SystemError) | inr a => mret a end.

Definition sys_stat (path : list bytes) : ST World (errc + PosixStat) :=
  sys (fun _ d => match maybeLstat path d with Some st => inr (st, d) | None => inl no_such_file_or_directory end).
Definition sys_result {A} (f : Z -> Disk -> result (A * Disk)) : ST World A :=
  or_throw (sys (fun now d => match f now d with Ok r => inr r | Throw _ => inl other_error end)).

(** libutil/file-system.cc *)
Definition lstat (path : list bytes) : ST World PosixStat := or_throw (sys_stat path).
Definition maybe_lstat (path : list bytes) : ST World (option PosixStat) :=
  r ← sys_stat path;
  match r with
  | inl no_such_file_or_directory => mret None
  | inl _ => slift (Throw SystemError)
  | inr st => mret (Some st)
  end.
Definition sys_chmod (path : list bytes) (mode : Z) : ST World unit :=
  sys_result (fun _ d => d ← chmod path mode d; Ok ((), d)).
Definition setWriteTime (path : list bytes) (time : Z) : ST World unit :=
  sys_result (fun _ d => d ← utimens path time d; Ok ((), d)).
Definition sys_link (src dst : list bytes) : ST World (errc + unit) :=
  sys (fun now d => match hard_link now src dst d with inl e => inl e | inr d => inr ((), d) end).
Definition sys_unlink (path : list bytes) : ST World (errc + unit) :=
  sys (fun now d => match DiskCalls.unlink now path d with inl e => inl e | inr d => inr ((), d) end).
Definition sys_rmdir (path : list bytes) : ST World (errc + unit) :=
  sys (fun now d => match rmdir now path d with inl e => inl e | inr d => inr ((), d) end).
Definition sys_rename (src dst : list bytes) : ST World (errc + unit) :=
  sys (fun now d => match rename now src dst d with inl e => inl e | inr d => inr ((), d) end).
Definition unlinkIfExists (path : list bytes) : ST World unit :=
  r ← sys_unlink path;
  match r with
  | inl no_such_file_or_directory | inr () => mret ()
  | inl _ => slift (Throw SystemError)
  end.

(** The entries [readdir] delivers. *)
Definition readDirectory_ (path : list bytes) : ST World (list (bytes * Node)) :=
  sys_result (fun _ d => match lookup_path d path with Some (NDir _ _ es) => Ok (es, d) | _ => Throw SystemError end).

End world.

(** ** What is kept of the disk

    [keeps Inv m Q]: [m] keeps the invariant of the disk, whether it returns
    or throws, and what it returns has [Q].  [disk_of] finds the disk in the
    state of the component. *)

Section keeps.
Context {St : Type} (disk_of : St -> Disk) (Inv : Disk -> Prop).

Definition keeps {A} (m : ST St A) (Q : A -> Prop) : Prop :=
  forall w, Inv (disk_of w) -> leads m w (fun a w' => Inv (disk_of w') /\ Q a) (fun _ w' => Inv (disk_of w')).

Lemma keeps_ret {A} (a : A) (Q : A -> Prop) : Q a -> keeps (mret a) Q.
Proof using Type. intros Hq w Hw. done. Qed.
Lemma keeps_throw {A} e (Q : A -> Prop) : keeps (slift (Throw e)) Q.
Proof using Type. intros w Hw. done. Qed.
Lemma keeps_lift {A} (m : result A) (Q : A -> Prop) : (forall a, m = Ok a -> Q a) -> keeps (slift m) Q.
Proof using Type. intros Hm w Hw. unfold leads, slift. destruct m; [|done]. split; [done|by apply Hm]. Qed.
Lemma keeps_gets {A} (f : St -> A) : keeps (gets f) (fun _ => True).
Proof using Type. intros w Hw. done. Qed.
Lemma keeps_modify f : (forall w, disk_of (f w) = disk_of w) -> keeps (Prelude.modify f) (fun _ => True).
Proof using Type. intros Hf w Hw. unfold leads, Prelude.modify. by rewrite Hf. Qed.

Lemma keeps_bind {A B} (m : ST St A) (f : A -> ST St B) (Q : A -> Prop) (R : B -> Prop) :
  keeps m Q -> (forall a, Q a -> keeps (f a) R) -> keeps (m ≫= f) R.
Proof using Type.
  intros Hm Hf w Hw. apply leads_bind. eapply leads_mono; [by apply Hm| |done].
  intros a w' [Hw' Ha]. by apply Hf.
Qed.

Lemma keeps_mono {A} (m : ST St A) (Q R : A -> Prop) : keeps m Q -> (forall a, Q a -> R a) -> keeps m R.
Proof using Type.
  intros Hm Hqr w Hw. eapply leads_mono; [by apply Hm| |done]. intros a w' [??]. split; [done|by apply Hqr].
Qed.

Lemma keeps_scatch {A} (m : ST St A) p h (Q : A -> Prop) : keeps m Q -> (forall e, keeps (h e) Q) -> keeps (scatch m p h) Q.
Proof using Type.
  intros Hm Hh w Hw. apply leads_scatch. eapply leads_mono; [by apply Hm|done|].
  intros e w' Hw'. cbn. destruct (p e); [by apply Hh|done].
Qed.

Lemma keeps_finally {A} (m : ST St A) f (Q : A -> Prop) :
  keeps m Q -> (forall w, Inv (disk_of w) -> Inv (disk_of (f w))) -> keeps (finally m f) Q.
Proof using Type.
  intros Hm Hf w Hw. apply leads_finally. eapply leads_mono; [by apply Hm| |].
  - intros a w' [Hw' Ha]. split; [by apply Hf|done].
  - intros e w' Hw'. by apply Hf.
Qed.

Lemma keeps_foreach {A} (f : A -> ST St unit) (l : list A) (R : A -> Prop) :
  Forall R l -> (forall x, R x -> keeps (f x) (fun _ => True)) -> keeps (sforeach f l) (fun _ => True).
Proof using Type.
  intros Hl Hf. induction Hl as [|x l Hx Hl IH]; [by apply keeps_ret|]. cbn [sforeach].
  eapply keeps_bind; [by apply Hf|]. intros _ _. exact IH.
Qed.

Lemma keeps_zoom {T A} (disk : T -> Disk) (part : St -> T) put (m : ST T A) (Q : A -> Prop) :
  (forall w, disk (part w) = disk_of w) -> (forall t w, disk_of (put t w) = disk t) ->
  (forall t, Inv (disk t) -> leads m t (fun a t' => Inv (disk t') /\ Q a) (fun _ t' => Inv (disk t'))) ->
  keeps (zoom part put m) Q.
Proof using Type.
  intros Hp Ht Hm w Hw. apply leads_zoom. rewrite <- Hp in Hw. eapply leads_mono; [by apply Hm| |].
  - intros a t Ha. by rewrite Ht.
  - intros e t He. by rewrite Ht.
Qed.
End keeps.

Section keeps_sys.
Context (env : nat -> Disk -> Disk) (refuses : nat -> option errc) (clock : nat -> Z).
Context (Inv : Disk -> Prop) (env_keeps : forall k d, Inv d -> Inv (env k d)).

Lemma keeps_sys {A} (f : Z -> Disk -> errc + (A * Disk)) (Q : A -> Prop) :
  (forall now d a d', Inv d -> f now d = inr (a, d') -> Inv d' /\ Q a) ->
  keeps w_disk Inv (sys env refuses clock f) (fun r => match r with inl _ => True | inr a => Q a end).
Proof using env_keeps.
  intros Hf w Hw. unfold leads, sys. pose proof (env_keeps (w_tick w) _ Hw) as He.
  destruct (refuses (w_tick w)); [done|]. destruct (f _ _) as [e|[a d']] eqn:Hr; [done|].
  by eapply Hf.
Qed.

Lemma keeps_or_throw {A} (m : ST World (errc + A)) (Q : A -> Prop) :
  keeps w_disk Inv m (fun r => match r with inl _ => True | inr a => Q a end) -> keeps w_disk Inv (or_throw m) Q.
Proof using Type.
  intros Hm. eapply keeps_bind; [exact Hm|]. intros [e|a] Ha; [apply keeps_throw|by apply keeps_ret].
Qed.

Lemma keeps_result {A} (f : Z -> Disk -> result (A * Disk)) (Q : A -> Prop) :
  (forall now d a d', Inv d -> f now d = Ok (a, d') -> Inv d' /\ Q a) -> keeps w_disk Inv (sys_result env refuses clock f) Q.
Proof using env_keeps.
  intros Hf. apply keeps_or_throw, keeps_sys. intros now d a d' Hd Hr. destruct (f now d) eqn:Hfd; [|done].
  injection Hr as ->. by eapply Hf.
Qed.

Lemma keeps_stat path (Q : PosixStat -> Prop) :
  (forall d st, Inv d -> maybeLstat path d = Some st -> Q st) ->
  keeps w_disk Inv (sys_stat env refuses clock path) (fun r => match r with inl _ => True | inr a => Q a end).
Proof using env_keeps.
  intros Hq. apply keeps_sys. intros now d st d' Hd.
  destruct (maybeLstat path d) as [st'|] eqn:Hst; [|done]. intros [= <- <-]. split; [done|by eapply Hq].
Qed.

Lemma keeps_lstat path (Q : PosixStat -> Prop) :
  (forall d st, Inv d -> maybeLstat path d = Some st -> Q st) -> keeps w_disk Inv (lstat env refuses clock path) Q.
Proof using env_keeps. intros Hq. by apply keeps_or_throw, keeps_stat. Qed.

Lemma keeps_maybe_lstat path (Q : PosixStat -> Prop) :
  (forall d st, Inv d -> maybeLstat path d = Some st -> Q st) ->
  keeps w_disk Inv (maybe_lstat env refuses clock path) (fun r => match r with None => True | Some st => Q st end).
Proof using env_keeps.
  intros Hq. eapply keeps_bind; [by apply keeps_stat|]. intros [e|st] Hst; [|by apply keeps_ret].
  destruct e; (apply keeps_throw || by apply keeps_ret).
Qed.

Lemma keeps_readDirectory path (Q : list (bytes * Node) -> Prop) :
  (forall d m t es, Inv d -> lookup_path d path = Some (NDir m t es) -> Q es) ->
  keeps w_disk Inv (readDirectory_ env refuses clock path) Q.
Proof using env_keeps.
  intros Hq. apply keeps_result. intros now d es d' Hd.
  destruct (lookup_path d path) as [[|m t es']|] eqn:Hl; [done| |done]. intros [= <- <-]. split; [done|by eapply Hq].
Qed.
End keeps_sys.

(** ** Paths whose contents are kept *)

(** What [lstat] tells of a file. *)
Definition stat_of (st : PosixStat) (f : File) : Prop :=
  match f with
  | Regular x c => ps_type st = S_IFREG /\ is_executable (ps_perm st) = x /\ ps_size st = length c
  | Symlink t => ps_type st = S_IFLNK /\ ps_size st = length t
  | Directory es => ps_type st = S_IFDIR
  end.

Lemma maybeLstat_of path d st f : maybeLstat path d = Some st -> view_at d path = Some f -> stat_of st f.
Proof.
  unfold maybeLstat. destruct (lookup_path d path) as [x|] eqn:Hl; [|done]. cbn [mbind option_bind].
  rewrite (view_at_lookup _ _ _ Hl). destruct x as [i|m t es]; cbn [stat_node].
  - rewrite view_NLeaf. destruct (inodes d !! i) as [[[c m|g] t]|]; [| |done]; intros [= <-] [= <-]; done.
  - rewrite view_NDir. intros [= <-]. destruct (view_entries _ es); [|done]. by intros [= <-].
Qed.

Definition holds (P : list bytes -> Prop) (V : list bytes -> option File) (d : Disk) : Prop :=
  forall p, P p -> view_at d p = V p.

Lemma holds_same P V d d' : holds P V d -> (forall p, view_at d' p = view_at d p) -> holds P V d'.
Proof. intros Hd Hs p Hp. rewrite Hs. by apply Hd. Qed.

(** What is kept: what the paths of [P] show, and [R]. *)
Definition Inv (P : list bytes -> Prop) (V : list bytes -> option File) (R : Disk -> Prop) (d : Disk) : Prop :=
  holds P V d /\ R d.

Lemma Inv_view P V R d d' (within : list bytes -> Prop) :
  (forall p, P p -> within p) -> (R d -> (forall p, within p -> view_at d' p = view_at d p) -> R d') ->
  Inv P V R d -> (forall p, within p -> view_at d' p = view_at d p) -> Inv P V R d'.
Proof. intros Hp Hr [Hh HR] Hs. split; [|by apply Hr]. intros p H. rewrite Hs by auto. by apply Hh. Qed.

(** ** Undisturbed runs

    Nobody else changes the disk and no call is refused. *)

Definition alone (_ : nat) (d : Disk) : Disk := d.
Definition granted (_ : nat) : option errc := None.

Section quiet.
Context (clock : nat -> Z).

Lemma quiet_sys {A} (f : Z -> Disk -> errc + (A * Disk)) w Q E :
  match f (clock (w_tick w)) (w_disk w) with
  | inl e => Q (inl e) (mkWorld (w_disk w) (S (w_tick w)))
  | inr (a, d) => Q (inr a) (mkWorld d (S (w_tick w)))
  end -> leads (sys alone granted clock f) w Q E.
Proof using Type. unfold leads, sys, alone, granted. by destruct (f _ _) as [e|[a d]]. Qed.

Lemma quiet_result {A} (f : Z -> Disk -> result (A * Disk)) w a d (Q : A -> World -> Prop) E :
  f (clock (w_tick w)) (w_disk w) = Ok (a, d) -> Q a (mkWorld d (S (w_tick w))) ->
  leads (sys_result alone granted clock f) w Q E.
Proof using Type. intros Hf Hq. apply leads_bind, quiet_sys. by rewrite Hf. Qed.

Lemma quiet_maybe_lstat path w (Q : option PosixStat -> World -> Prop) E :
  Q (maybeLstat path (w_disk w)) (mkWorld (w_disk w) (S (w_tick w))) -> leads (maybe_lstat alone granted clock path) w Q E.
Proof using Type. intros Hq. apply leads_bind, quiet_sys. by destruct (maybeLstat path (w_disk w)). Qed.

Lemma quiet_chmod path mode w d (Q : unit -> World -> Prop) E :
  chmod path mode (w_disk w) = Ok d -> Q () (mkWorld d (S (w_tick w))) -> leads (sys_chmod alone granted clock path mode) w Q E.
Proof using Type. intros Hc. apply quiet_result. by rewrite Hc. Qed.

Lemma quiet_readDirectory path w m t es (Q : list (bytes * Node) -> World -> Prop) E :
  lookup_path (w_disk w) path = Some (NDir m t es) -> Q es (mkWorld (w_disk w) (S (w_tick w))) ->
  leads (readDirectory_ alone granted clock path) w Q E.
Proof using Type. intros Hl. apply quiet_result. by rewrite Hl. Qed.
End quiet.
