(* ===== verification/Delete.v ===== *)
(** * Delete: removing trees from the disk

    [deletePath] of libutil/unix/file-system.cc, among other processes
    ([World]).  An open directory is its path, as nothing renames the
    directories of the tree meanwhile; [readdir] delivers the entries the
    directory had when it was opened. *)

From S2P Require Export World Restore.
Local Open Scope Z_scope.

(** [bytesFreed] and [ex], the first error of [unlinkat]. *)
Record Deletion := mkDeletion { dl_world : World; dl_freed : Z; dl_ex : option exn }.

Definition in_world {A} : ST World A -> ST Deletion A :=
  zoom dl_world (fun w s => mkDeletion w (dl_freed s) (dl_ex s)).
Definition count_freed (st : PosixStat) : ST Deletion unit :=
  Prelude.modify (fun s => mkDeletion (dl_world s)
    (match ps_type st, ps_nlink st with
     | S_IFDIR, _ => dl_freed s
     | _, (1 | 2)%nat => u64 (dl_freed s + Z.of_nat (ps_size st))
     | _, _ => dl_freed s
     end) (dl_ex s)).
Definition note_failure (e : exn) : ST Deletion unit :=
  Prelude.modify (fun s => mkDeletion (dl_world s) (dl_freed s) (match dl_ex s with None => Some e | x => x end)).

Section delete.
Context (env : nat -> Disk -> Disk) (refuses : nat -> option errc) (clock : nat -> Z).
Notation maybe_lstat := (maybe_lstat env refuses clock).
Notation sys_chmod := (sys_chmod env refuses clock).
Notation sys_unlink := (sys_unlink env refuses clock).
Notation sys_rmdir := (sys_rmdir env refuses clock).
Notation readDirectory_ := (readDirectory_ env refuses clock).

(** [S_IRUSR | S_IWUSR | S_IXUSR] *)
Definition PERM_MASK : Z := 0x1C0.

Definition make_accessible (path : list bytes) (st : PosixStat) : ST World unit :=
  if bool_decide (Z.land (ps_perm st) PERM_MASK <> PERM_MASK) then sys_chmod path (Z.lor (ps_perm st) PERM_MASK) else mret ().

(** [_deletePath(parentfd, path, bytesFreed, ex)]; [fuel] bounds the depth. *)
Fixpoint deletePath_ (fuel : nat) (path : list bytes) : ST Deletion unit :=
  match fuel with
  | O => slift (Throw AssertFailed)
  | S fuel =>
      filename ← slift (from_opt AssertFailed (last path));
      _ ← slift (fromFilename filename);
      st ← in_world (maybe_lstat path);
      match st with
      | None => mret ()
      | Some st =>
          _ ← count_freed st;
          let is_dir := bool_decide (ps_type st = S_IFDIR) in
          _ ← (if is_dir then
                 _ ← in_world (make_accessible path st);
                 es ← in_world (readDirectory_ path);
                 sforeach (fun childName => deletePath_ fuel (path ++ [childName])) (es.*1)
               else mret ());
          r ← in_world (if is_dir then sys_rmdir path else sys_unlink path);
          match r with
          | inl no_such_file_or_directory | inr () => mret ()
          | inl _ => note_failure SystemError
          end
      end
  end.

(** [openDirectory] *)
Definition open_directory (path : list bytes) : ST World (errc + unit) :=
  sys env refuses clock (fun _ d =>
    match lookup_path d path with
    | Some (NDir _ _ _) => inr ((), d)
    | Some (NLeaf _) => inl other_error
    | None => inl no_such_file_or_directory
    end).

(** [_deletePath(path, bytesFreed)] for an absolute path, not the root. *)
Definition deletePath_at (fuel : nat) (path : list bytes) : ST Deletion unit :=
  _ ← slift (assertb (negb (bool_decide (path = []))));
  dirfd ← in_world (open_directory (removelast path));
  match dirfd with
  | inl no_such_file_or_directory => mret ()
  | inl _ => slift (Throw SystemError)
  | inr () =>
      _ ← deletePath_ fuel path;
      ex ← gets dl_ex;
      match ex with Some e => slift (Throw e) | None => mret () end
  end.

(** [deletePath(path, bytesFreed)]; returns [bytesFreed]. *)
Definition deletePath (fuel : nat) (path : list bytes) : ST World Z := fun w =>
  let '(r, s) := deletePath_at fuel path (mkDeletion w 0 None) in (_ ← r; Ok (dl_freed s), dl_world s).

(** ** What is elsewhere is kept

    [top] is what is deleted; only this process touches what is below it. *)

Section keeps.
Context (P : list bytes -> Prop) (V : list bytes -> option File) (R : Disk -> Prop) (top : list bytes).
Notation Inv := (Inv P V R).
Context (P_apart : forall p, P p -> apart p top).
Context (R_apart : forall d d', R d -> (forall p, apart p top -> view_at d' p = view_at d p) -> R d').
Context (env_keeps : forall k d, Inv d -> Inv (env k d)).
Context (env_below : forall k d r, shape_at (env k d) (top ++ r) = shape_at d (top ++ r)).

Notation d_disk := (fun s => w_disk (dl_world s)).
Notation wkeeps := (keeps w_disk Inv).
Notation dkeeps := (keeps d_disk Inv).

Lemma in_world_keeps {A} (m : ST World A) (Q : A -> Prop) : wkeeps m Q -> dkeeps (in_world m) Q.
Proof using Type. intros Hm. by apply (keeps_zoom _ _ w_disk). Qed.

Lemma Inv_apart d d' : Inv d -> (forall p, apart p top -> view_at d' p = view_at d p) -> Inv d'.
Proof using P_apart R_apart. apply Inv_view; [done|by apply R_apart]. Qed.

Lemma below_keeps {A} r (f : Z -> Disk -> errc + (A * Disk)) :
  (forall now d a d', f now d = inr (a, d') -> forall p, apart p (top ++ r) -> view_at d' p = view_at d p) ->
  wkeeps (sys env refuses clock f) (fun _ => True).
Proof using P_apart R_apart env_keeps.
  intros Hf. eapply keeps_mono; [apply (keeps_sys _ _ _ _ env_keeps _ (fun _ => True))|by intros []].
  intros now d a d' Hd Hr. split; [|done]. apply (Inv_apart d); [done|]. intros p Hp. eapply Hf; [done|]. by apply apart_app.
Qed.

Lemma sys_unlink_keeps r : wkeeps (sys_unlink (top ++ r)) (fun _ => True).
Proof using P_apart R_apart env_keeps.
  apply (below_keeps r). intros now d a d' Hr. destruct (DiskCalls.unlink now (top ++ r) d) as [|d1] eqn:Hu; [done|]. injection Hr as <- <-.
  by apply unlink_view in Hu as [_ Hu].
Qed.
Lemma sys_rmdir_keeps r : wkeeps (sys_rmdir (top ++ r)) (fun _ => True).
Proof using P_apart R_apart env_keeps.
  apply (below_keeps r). intros now d a d' Hr. destruct (rmdir now (top ++ r) d) as [|d1] eqn:Hu; [done|]. injection Hr as <- <-.
  by apply rmdir_view in Hu as [_ Hu].
Qed.

(** What [lstat] finds to be a directory still is one. *)
Lemma lstat_dir r w :
  Inv (w_disk w) ->
  leads (maybe_lstat (top ++ r)) w
    (fun st w' => Inv (w_disk w') /\
       forall st', st = Some st' -> ps_type st' = S_IFDIR -> shape_at (w_disk w') (top ++ r) = Some None)
    (fun _ w' => Inv (w_disk w')).
Proof using env_keeps.
  intros Hw. unfold World.maybe_lstat. apply leads_bind. unfold leads at 1, sys_stat, sys.
  pose proof (env_keeps (w_tick w) _ Hw) as He. set (d := env (w_tick w) (w_disk w)) in *.
  destruct (refuses (w_tick w)) as [e|]; [by destruct e|].
  destruct (maybeLstat (top ++ r) d) as [st|] eqn:Hst; [|done]. split; [done|]. intros st' [= <-] Ht.
  cbn [w_disk]. apply shape_dir. unfold maybeLstat in Hst. destruct (lookup_path d (top ++ r)) as [[i|m t es]|]; [|by eauto|done].
  cbn [mbind option_bind stat_node] in Hst. destruct (inodes d !! i) as [[[] ?]|]; [| |done]; injection Hst as <-; done.
Qed.

Lemma make_accessible_keeps r st w :
  Inv (w_disk w) -> shape_at (w_disk w) (top ++ r) = Some None ->
  leads (make_accessible (top ++ r) st) w (fun _ w' => Inv (w_disk w')) (fun _ w' => Inv (w_disk w')).
Proof using P_apart R_apart env_keeps env_below.
  intros Hw Hs. unfold make_accessible. case_bool_decide; [|done]. apply leads_bind. unfold leads at 1, sys.
  pose proof (env_keeps (w_tick w) _ Hw) as He. rewrite <- (env_below (w_tick w)) in Hs. set (d := env (w_tick w) (w_disk w)) in *.
  destruct (refuses (w_tick w)) as [e|]; [done|].
  destruct (chmod (top ++ r) _ d) as [d'|] eqn:Hc; [|done]. cbn. apply (Inv_apart d); [done|]. intros p _.
  apply (chmod_view _ _ _ _ Hc). intros x c Hv. apply shape_dir in Hs as (m & t & es & Hl).
  rewrite (view_at_lookup _ _ _ Hl), view_NDir in Hv. by destruct (view_entries _ es).
Qed.

Lemma deletePath_keeps_ fuel : forall r, dkeeps (deletePath_ fuel (top ++ r)) (fun _ => True).
Proof using P_apart R_apart env_keeps env_below.
  induction fuel as [|fuel IH]; intros r; cbn [deletePath_]; [apply keeps_throw|].
  apply (keeps_bind _ _ _ _ (fun _ => True)); [by apply keeps_lift|]. intros filename _.
  apply (keeps_bind _ _ _ _ (fun _ => True)); [by apply keeps_lift|]. intros _ _.
  intros s Hs. apply leads_bind. unfold in_world at 1. apply leads_zoom. eapply leads_mono; [by apply (lstat_dir r)| |by intros e w].
  intros st w [Hw Hd]. destruct st as [st|]; [|done]. specialize (Hd st eq_refl).
  set (s1 := mkDeletion w (dl_freed s) (dl_ex s)). apply leads_bind. unfold count_freed, leads at 1, Prelude.modify.
  set (s2 := mkDeletion (dl_world s1) _ _). change w with (dl_world s2) in Hw, Hd. clearbody s2. clear s1 w Hs s.
  assert (dkeeps (r0 ← in_world (if bool_decide (ps_type st = S_IFDIR) then sys_rmdir (top ++ r) else sys_unlink (top ++ r));
            match r0 with inl no_such_file_or_directory | inr () => mret () | inl _ => note_failure SystemError end) (fun _ => True)) as Hun.
  { eapply keeps_bind; [apply in_world_keeps; case_bool_decide; [apply sys_rmdir_keeps|apply sys_unlink_keeps]|].
    intros [e|[]] _; [|by apply keeps_ret]. destruct e; first [by apply keeps_ret|by apply keeps_modify]. }
  cbv zeta. apply leads_bind. case_bool_decide as Ht.
  - apply leads_bind. apply leads_zoom. eapply leads_mono; [by apply make_accessible_keeps, Hd| |done].
    intros u0 w Hw'. cbn beta in Hw' |- *.
    match goal with |- leads ?m ?s0 _ _ => assert (dkeeps m (fun _ => True)) as Hk; [|pose proof (Hk s0 Hw') as Hks] end.
    2: { eapply leads_mono; [exact Hks| |done]. intros u s' [Hs' _]. exact (Hun s' Hs'). }
    eapply keeps_bind; [by apply in_world_keeps, (keeps_readDirectory _ _ _ _ env_keeps _ (fun _ => True))|]. intros es _.
    apply (keeps_foreach _ _ _ _ (fun _ => True)); [by apply Forall_forall|]. intros i _. rewrite <- app_assoc. apply IH.
  - exact (Hun _ Hw).
Qed.

Lemma deletePath_at_keeps fuel : dkeeps (deletePath_at fuel top) (fun _ => True).
Proof using P_apart R_apart env_keeps env_below.
  apply (keeps_bind _ _ _ _ (fun _ => True)); [by apply keeps_lift|]. intros _ _.
  apply (keeps_bind _ _ _ _ (fun _ => True)).
  - apply in_world_keeps. eapply keeps_mono; [apply (keeps_sys _ _ _ _ env_keeps _ (fun _ => True))|by intros []].
    intros now d a d' Hd. destruct (lookup_path d _) as [[]|]; [done| |done]. by intros [= <- <-].
  - intros [e|[]] _; [destruct e; first [apply keeps_throw|by apply keeps_ret]|].
    pose proof (deletePath_keeps_ fuel []) as Hd. rewrite app_nil_r in Hd.
    eapply keeps_bind; [exact Hd|]. intros _ _. eapply keeps_bind; [apply keeps_gets|].
    intros [e|] _; [apply keeps_throw|by apply keeps_ret].
Qed.

Lemma deletePath_keeps fuel : wkeeps (deletePath fuel top) (fun _ => True).
Proof using P_apart R_apart env_keeps env_below.
  intros w Hw. pose proof (deletePath_at_keeps fuel (mkDeletion w 0 None) Hw) as Hk. unfold deletePath, leads in *.
  by destruct (deletePath_at fuel top _) as [[a|e] s].
Qed.
End keeps.
End delete.

(** ** Undisturbed deletion

    It removes the tree and nothing else. *)

Fixpoint node_height (n : Node) : nat :=
  match n with
  | NLeaf _ => 0
  | NDir _ _ es => S ((fix go (l : list (bytes * Node)) := match l with [] => 0 | e :: l => Nat.max (node_height (e.2)) (go l) end)%nat es)
  end.

Lemma node_height_entry m t es e : e ∈ es -> (node_height (e.2) < node_height (NDir m t es))%nat.
Proof.
  cbn [node_height]. induction es as [|x es IH]; [by intros ?%not_elem_of_nil|].
  intros [->|He]%elem_of_cons; [lia|]. specialize (IH He). lia.
Qed.

(** What is on a disk: names that are names, and no name of a missing inode. *)
Inductive node_ok (inos : gmap nat Inode) : Node -> Prop :=
  | node_ok_leaf i : is_Some (inos !! i) -> node_ok inos (NLeaf i)
  | node_ok_dir m t es : Forall (fun e => good (e.1) /\ node_ok inos (e.2)) es -> node_ok inos (NDir m t es).

Section quiet.
Context (clock : nat -> Z).
Notation deletePath_ := (deletePath_ alone granted clock).
Notation d_disk s := (w_disk (dl_world s)).

(** [d'] is [d] with a node changed. *)
Definition node_set (path : list bytes) (x : Node) (d d' : Disk) : Prop :=
  inodes d' = inodes d /\ tree d' = node_update (tree d) path (fun _ => x).

Lemma node_set_same path x d : lookup_path d path = Some x -> node_set path x d d.
Proof using Type. intros Hl. split; [done|]. symmetry. by apply (node_update_id _ _ _ x). Qed.

Lemma node_set_lookup path x y d d' : lookup_path d path = Some y -> node_set path x d d' -> lookup_path d' path = Some x.
Proof using Type. intros Hl [_ Ht]. unfold lookup_path. by rewrite Ht, (lookup_update _ _ _ _ Hl). Qed.

Lemma node_set_set path x y d d1 d2 : node_set path x d d1 -> node_set path y d1 d2 -> node_set path y d d2.
Proof using Type. intros [Hi Ht] [Hi' Ht']. split; [congruence|]. by rewrite Ht', Ht, node_update_update. Qed.

Lemma update_node_set path g x d : lookup_path d path = Some x -> node_set path (g x) d (update_path g path d).
Proof using Type. intros Hl. split; [done|]. by apply (node_update_ext _ _ _ _ x). Qed.

Lemma node_set_below path c x y m t es d d' :
  lookup_path d path = Some (NDir m t es) -> entry_lookup c es = Some y -> node_set (path ++ [c]) x d d' ->
  node_set path (NDir m t (entry_replace c x es)) d d'.
Proof using Type.
  intros Hl Hc [Hi Ht]. split; [done|]. rewrite Ht, (node_update_below _ _ _ y _ es m t) by done.
  by apply (node_update_ext _ _ _ _ _ Hl).
Qed.

Lemma lookup_entry path c n m t es d :
  lookup_path d path = Some (NDir m t es) -> entry_lookup c es = Some n -> lookup_path d (path ++ [c]) = Some n.
Proof using Type. unfold lookup_path. intros Hl Hc. rewrite node_lookup_app, Hl. cbn. by rewrite Hc. Qed.

(** The run up to [lstat]. *)
Lemma delete_begin fuel q c s (Q : unit -> Deletion -> Prop) E :
  good c ->
  match maybeLstat (q ++ [c]) (d_disk s) with
  | None => forall s', d_disk s' = d_disk s -> dl_ex s' = dl_ex s -> dl_freed s' = dl_freed s -> Q () s'
  | Some st => forall s', d_disk s' = d_disk s -> dl_ex s' = dl_ex s ->
      leads (let is_dir := bool_decide (ps_type st = S_IFDIR) in
             _ ← (if is_dir then
                    _ ← in_world (make_accessible alone granted clock (q ++ [c]) st);
                    es ← in_world (readDirectory_ alone granted clock (q ++ [c]));
                    sforeach (fun childName => deletePath_ fuel ((q ++ [c]) ++ [childName])) (es.*1)
                  else mret ());
             r ← in_world (if is_dir then sys_rmdir alone granted clock (q ++ [c]) else sys_unlink alone granted clock (q ++ [c]));
             match r with
             | inl no_such_file_or_directory | inr () => mret ()
             | inl _ => note_failure SystemError
             end) s' Q E
  end -> leads (deletePath_ (S fuel) (q ++ [c])) s Q E.
Proof using Type.
  intros Hg Hs. cbn [Delete.deletePath_]. rewrite last_snoc. cbn [from_opt].
  apply leads_bind. unfold leads at 1, slift. apply leads_bind.
  destruct (single_path c Hg) as (_ & _ & _ & _ & -> & _). unfold leads at 1, slift.
  apply leads_bind, leads_zoom, quiet_maybe_lstat. destruct (maybeLstat _ _) as [st|]; [|by apply Hs].
  apply leads_bind. unfold leads at 1, count_freed, Prelude.modify. by apply Hs.
Qed.

(** What removing the entry [c] of the directory at [q] does. *)
Definition entry_gone (q : list bytes) (c : bytes) (m t : Z) (es : list (bytes * Node)) (s s' : Deletion) : Prop :=
  dl_ex s' = dl_ex s /\ exists t', node_set q (NDir m t' (entry_remove c es)) (d_disk s) (d_disk s').

Lemma entry_remove_replace c x (es : list (bytes * Node)) : entry_remove c (entry_replace c x es) = entry_remove c es.
Proof using Type.
  unfold entry_remove. induction es as [|[n y] es IH]; [done|]. cbn [entry_replace]. case_bool_decide as Hn; rewrite !filter_cons; cbn [fst].
  - subst n. by rewrite !decide_False by tauto.
  - by rewrite !decide_True, IH.
Qed.

(** The last call: the tree is a file or an empty directory by now. *)
Lemma delete_unlink q c m t es x s s1 (call : list bytes -> ST World (errc + unit)) E :
  lookup_path (d_disk s) q = Some (NDir m t es) ->
  (forall w Q E, Q (inr ()) (mkWorld (update_path (take_entry (clock (w_tick w)) c) q (w_disk w)) (S (w_tick w))) ->
     w_disk w = d_disk s1 -> leads (call (q ++ [c])) w Q E) ->
  is_Some (entry_lookup c es) -> node_set (q ++ [c]) x (d_disk s) (d_disk s1) -> dl_ex s1 = dl_ex s ->
  leads (r ← in_world (call (q ++ [c])); match r with inl no_such_file_or_directory | inr () => mret () | inl _ => note_failure SystemError end)
    s1 (fun _ => entry_gone q c m t es s) E.
Proof using Type.
  intros Hl Hcall [y Hy] Hs1 Hex. apply leads_bind, leads_zoom, Hcall; [|done]. split; [done|]. cbn [dl_world w_disk].
  set (now := clock (w_tick (dl_world s1))).
  pose proof (node_set_below _ _ _ _ _ _ _ _ _ Hl Hy Hs1) as Hb. pose proof (node_set_lookup _ _ _ _ _ Hl Hb) as Hl1.
  exists now. pose proof (update_node_set q (take_entry now c) _ _ Hl1) as Hu. cbn [take_entry] in Hu.
  rewrite entry_remove_replace in Hu. by apply (node_set_set _ _ _ _ _ _ Hb).
Qed.

Lemma delete_absent fuel q c s E :
  good c -> lookup_path (d_disk s) (q ++ [c]) = None ->
  leads (deletePath_ (S fuel) (q ++ [c])) s
    (fun _ s' => dl_ex s' = dl_ex s /\ d_disk s' = d_disk s /\ dl_freed s' = dl_freed s) E.
Proof using Type. intros Hg Hl. apply delete_begin; [done|]. unfold maybeLstat. by rewrite Hl. Qed.

(** What is left of the entries once some names are deleted. *)
Definition without (names : list bytes) (es : list (bytes * Node)) : list (bytes * Node) := filter (fun e => e.1 ∉ names) es.

Lemma without_lookup names i es : i ∉ names -> entry_lookup i (without names es) = entry_lookup i es.
Proof using Type.
  intros Hi. unfold entry_lookup, without. induction es as [|[n y] es IH]; [done|]. rewrite filter_cons. cbn [fst List.find].
  case_decide; cbn [List.find fst]; case_bool_decide; naive_solver.
Qed.
Lemma without_in names i es : i ∈ names -> entry_lookup i (without names es) = None.
Proof using Type.
  intros Hi. unfold entry_lookup, without. induction es as [|[n y] es IH]; [done|]. rewrite filter_cons. cbn [fst].
  case_decide; cbn [List.find fst]; [|done]. rewrite bool_decide_false; [done|]. by intros ->.
Qed.
Lemma without_snoc names i es : entry_remove i (without names es) = without (names ++ [i]) es.
Proof using Type.
  unfold entry_remove, without. rewrite list_filter_filter. apply list_filter_iff. intros e. rewrite elem_of_app, list_elem_of_singleton. tauto.
Qed.
Lemma without_same names i es : i ∈ names -> without (names ++ [i]) es = without names es.
Proof using Type. intros Hi. apply list_filter_iff. intros e. rewrite elem_of_app, list_elem_of_singleton. naive_solver. Qed.
Lemma without_nil es : without [] es = es.
Proof using Type.
  unfold without. induction es as [|e es IH]; [done|]. rewrite filter_cons, decide_True by apply not_elem_of_nil. by rewrite IH.
Qed.
Lemma without_all es : without (es.*1) es = [].
Proof using Type.
  unfold without. assert (forall l (names : list bytes), (forall e : bytes * Node, e ∈ l -> e.1 ∈ names) -> filter (fun e => e.1 ∉ names) l = []) as H.
  { induction l as [|e l IH]; intros names Hn; [done|]. rewrite filter_cons, decide_False by (intros Hc; apply Hc, Hn; left).
    apply IH. intros x Hx. apply Hn. by right. }
  apply H. intros e He. eapply list_elem_of_fmap_2'; [exact He|done].
Qed.
Lemma entry_lookup_elem c (n : Node) es : entry_lookup c es = Some n -> exists e, e ∈ es /\ e.1 = c /\ e.2 = n.
Proof using Type.
  unfold entry_lookup. induction es as [|e es IH]; [done|]. cbn [List.find]. case_bool_decide as Hn.
  - intros [= <-]. exists e. split; [left|done].
  - intros (e' & He & ?)%IH. exists e'. split; [by right|done].
Qed.
Lemma entry_lookup_in c (es : list (bytes * Node)) : c ∈ es.*1 -> is_Some (entry_lookup c es).
Proof using Type.
  unfold entry_lookup. induction es as [|e es IH]; [by intros ?%not_elem_of_nil|]. cbn [List.find fmap list_fmap].
  case_bool_decide as Hn; [done|]. intros [->|?]%elem_of_cons; [done|by apply IH].
Qed.

Lemma delete_quiet fuel : forall q c n m t es s,
  lookup_path (d_disk s) q = Some (NDir m t es) -> entry_lookup c es = Some n -> good c ->
  node_ok (inodes (d_disk s)) n -> (node_height n < fuel)%nat ->
  leads (deletePath_ fuel (q ++ [c])) s (fun _ => entry_gone q c m t es s) (fun _ _ => False).
Proof using Type.
  induction fuel as [|fuel IH]; intros q c n m t es s Hl Hc Hg Hok Hh; [lia|].
  pose proof (lookup_entry _ _ _ _ _ _ _ Hl Hc) as Hlc. pose proof (node_set_same _ _ _ Hlc) as Hsame.
  apply delete_begin; [done|]. unfold maybeLstat. rewrite Hlc. cbn [mbind option_bind]. destruct n as [i|m0 t0 es0].
  - (* a file *)
    inversion_clear Hok as [? [x Hx]|]. assert (exists st, stat_node (d_disk s) (NLeaf i) = Some st /\ ps_type st <> S_IFDIR) as (st & -> & Ht).
    { cbn [stat_node]. rewrite Hx. destruct x as [[c0 m0|g] t0]; by eexists. }
    intros s1 Hd1 He1. cbv zeta. rewrite bool_decide_false by done. apply leads_bind. change (leads (mret ()) s1 ?Q ?E) with (Q () s1). cbv beta.
    apply (delete_unlink _ _ _ _ _ (NLeaf i)); [done| |by eexists|by rewrite Hd1|done]. intros w Q E HQ Hw.
    apply quiet_sys. unfold DiskCalls.unlink. rewrite Hw, Hd1, Hlc, last_snoc, removelast_last. by rewrite Hw, Hd1 in HQ.
  - (* a directory *)
    cbn [stat_node]. intros s1 Hd1 He1. cbv zeta. rewrite bool_decide_true by done. apply leads_bind, leads_bind, leads_zoom.
    assert (forall w Q E, w_disk w = d_disk s1 ->
      (forall w' m1, node_set (q ++ [c]) (NDir m1 t0 es0) (d_disk s) (w_disk w') -> Q () w') ->
      leads (make_accessible alone granted clock (q ++ [c]) (mkPosixStat S_IFDIR m0 t0 None 0 0)) w Q E) as Hacc.
    { intros w Q E Hw HQ. unfold make_accessible. case_bool_decide; [|eapply HQ; by rewrite Hw, Hd1].
      assert (lookup_path (w_disk w) (q ++ [c]) = Some (NDir m0 t0 es0)) as Hlw by (by rewrite Hw, Hd1).
      eapply quiet_chmod; [unfold chmod, chmod_dir, with_dir; by rewrite Hlw|]. eapply HQ.
      pose proof (update_node_set (q ++ [c]) (fun n => match n with NDir m t es => NDir (Z.lor m0 PERM_MASK) t es | n => n end) _ _ Hlw) as Hu.
      cbn beta iota in Hu. rewrite Hw, Hd1 in *. exact Hu. }
    apply Hacc; [done|]. intros w m1 Hw. apply leads_bind, leads_zoom. cbn [dl_world].
    eapply quiet_readDirectory; [exact (node_set_lookup _ _ _ _ _ Hlc Hw)|].
    set (s2 := mkDeletion _ _ _).
    eapply leads_mono; [apply (leads_sforeach (fun before s' => dl_ex s' = dl_ex s /\
        exists t1, node_set (q ++ [c]) (NDir m1 t1 (without before es0)) (d_disk s) (d_disk s')) (fun _ _ => False))| |done].
    + split; [exact He1|]. exists t0. by rewrite without_nil.
    + intros before j rest s3 Hj (He3 & t1 & Hs3). pose proof (node_set_lookup _ _ _ _ _ Hlc Hs3) as Hl3.
      assert (j ∈ es0.*1) as (nj & Hnj)%entry_lookup_in by (rewrite Hj; set_solver).
      destruct (entry_lookup_elem _ _ _ Hnj) as (e & He & He1' & He2). inversion_clear Hok as [|? ? ? Hall].
      rewrite Forall_forall in Hall. destruct (Hall e He) as [Hge Hoke]. rewrite He1' in Hge. rewrite He2 in Hoke.
      pose proof (node_height_entry m0 t0 es0 e He) as Hhe. rewrite He2 in Hhe.
      destruct (decide (j ∈ before)) as [Hin|Hin].
      * destruct fuel as [|fuel']; [lia|]. eapply leads_mono; [apply (delete_absent _ _ _ _ (fun _ _ => False)); [done|]| |done].
        -- unfold lookup_path in *. rewrite node_lookup_app, Hl3. cbn. by rewrite without_in.
        -- intros u s' (He' & Hd' & _). split; [congruence|]. exists t1. rewrite without_same, Hd' by done. exact Hs3.
      * eapply leads_mono; [apply (IH (q ++ [c]) j nj m1 t1 (without before es0))| |done]; try done.
        -- by rewrite without_lookup.
        -- destruct Hs3 as [-> _]. done.
        -- lia.
        -- intros u s' (He' & t' & Hs'). split; [congruence|]. exists t'. rewrite <- without_snoc. by apply (node_set_set _ _ _ _ _ _ Hs3).
    + intros u s3 (He3 & t1 & Hs3). rewrite without_all in Hs3.
      apply (delete_unlink _ _ _ _ _ (NDir m1 t1 [])); [done| |by eexists|done|done]. intros w' Q E HQ Hw'.
      apply quiet_sys. unfold rmdir. rewrite Hw', (node_set_lookup _ _ _ _ _ Hlc Hs3), last_snoc, removelast_last. by rewrite Hw' in HQ.
Qed.

Lemma deletePath_run fuel q c w m t es (Q : Deletion -> Prop) :
  lookup_path (w_disk w) q = Some (NDir m t es) ->
  (forall s, d_disk s = w_disk w -> dl_ex s = None -> dl_freed s = 0 ->
     leads (deletePath_ fuel (q ++ [c])) s (fun _ s' => dl_ex s' = None /\ Q s') (fun _ _ => False)) ->
  exists s', deletePath alone granted clock fuel (q ++ [c]) w = (Ok (dl_freed s'), dl_world s') /\ Q s'.
Proof using Type.
  intros Hl Hrun.
  assert (leads (deletePath_at alone granted clock fuel (q ++ [c])) (mkDeletion w 0 None) (fun _ => Q) (fun _ _ => False)) as H.
  { unfold deletePath_at. apply leads_bind. rewrite bool_decide_false by (by destruct q). apply leads_bind, leads_zoom, quiet_sys.
    cbn [dl_world]. rewrite removelast_last, Hl. apply leads_bind. eapply leads_mono; [by apply Hrun| |done].
    intros u s' [He Hq]. apply leads_bind. unfold leads at 1, gets. by rewrite He. }
  unfold leads, deletePath in *. destruct (deletePath_at _ _ _ fuel _ _) as [[u|e] s']; [|done]. by exists s'.
Qed.
End quiet.


(** Deleting a directory with a file that has another name. *)
Definition linked_tree : Disk :=
  mkDisk (NDir 0x1ED 1 [(#"a", NLeaf 0); (#"t", NDir 0x16D 1 [(#"d", NDir 0 1 []); (#"f", NLeaf 0)])])
    {[0%nat := mkInode (LRegular #"x" 0x124) 1]} 1.

