(* ===== verification/Canonicalise.v ===== *)
(** * Canonicalise: canonical metadata of store objects

    libstore/posix-fs-canonicalise.cc, among other processes ([World]).
    Owners, access control lists and extended attributes are not modelled;
    the callers pass no [uidRange]. *)

From S2P Require Export World.
Local Open Scope Z_scope.

Definition mtimeStore : Z := 1.

Definition canonical_mode (st : PosixStat) : Z :=
  match ps_type st with
  | S_IFDIR => 0x1ED
  | _ => if is_executable (ps_perm st) then 0x16D else 0x124
  end.

Section canonicalise.
Context (env : nat -> Disk -> Disk) (refuses : nat -> option errc) (clock : nat -> Z).
Notation lstat := (lstat env refuses clock).
Notation sys_chmod := (sys_chmod env refuses clock).
Notation setWriteTime := (setWriteTime env refuses clock).
Notation readDirectory_ := (readDirectory_ env refuses clock).

(** [canonicaliseTimestampAndPermissions(path, st)] *)
Definition canonicaliseTimestampAndPermissions_st (path : list bytes) (st : PosixStat) : ST World unit :=
  _ ← match ps_type st with
      | S_IFLNK => mret ()
      | _ =>
          let canon := canonical_mode st in
          if bool_decide (ps_perm st <> canon) then sys_chmod path canon else mret ()
      end;
  if bool_decide (ps_mtime st <> mtimeStore) then setWriteTime path mtimeStore else mret ().

Definition canonicaliseTimestampAndPermissions (path : list bytes) : ST World unit :=
  st ← lstat path; canonicaliseTimestampAndPermissions_st path st.

(** [fuel] bounds the depth of the directories. *)
Fixpoint canonicalisePathMetaData_ (fuel : nat) (path : list bytes) : ST World unit :=
  match fuel with
  | O => slift (Throw AssertFailed)
  | S fuel =>
      st ← lstat path;
      _ ← canonicaliseTimestampAndPermissions_st path st;
      match ps_type st with
      | S_IFDIR =>
          es ← readDirectory_ path;
          sforeach (fun i => canonicalisePathMetaData_ fuel (path ++ [i])) (es.*1)
      | _ => mret ()
      end
  end.

(** ** The contents are kept *)

Section keeps.
Context (P : list bytes -> Prop) (V : list bytes -> option File) (R : Disk -> Prop).
Notation Inv := (Inv P V R).
(** Nothing else the invariant states depends on metadata. *)
Context (R_same : forall d d', R d -> (forall p, view_at d' p = view_at d p) -> R d').
Context (env_keeps : forall k d, Inv d -> Inv (env k d)).
Context (P_below : forall p c, P p -> P (p ++ [c])).

Lemma Inv_same d d' : Inv d -> (forall p, view_at d' p = view_at d p) -> Inv d'.
Proof using R_same. intros [Hp Hr] Hs. split; [by eapply holds_same|by eapply R_same]. Qed.

(** What [lstat] told of a path whose contents are kept. *)
Definition told (path : list bytes) (st : PosixStat) : Prop := forall f, V path = Some f -> stat_of st f.

Lemma lstat_told path : P path -> keeps w_disk Inv (lstat path) (told path).
Proof using env_keeps.
  intros Hp. apply keeps_lstat; [done|]. intros d st [Hh _] Hst f Hf. apply (maybeLstat_of path d); [done|]. by rewrite (Hh _ Hp).
Qed.

Lemma executable_canonical b : is_executable (if b : bool then 0x16D else 0x124) = b.
Proof using Type. by destruct b. Qed.

Lemma chmod_keeps path mode :
  (forall d x c, Inv d -> view_at d path = Some (Regular x c) -> is_executable mode = x) ->
  keeps w_disk Inv (sys_chmod path mode) (fun _ => True).
Proof using R_same env_keeps.
  intros Hm. apply keeps_result; [done|]. intros now d a d' Hd Hr. inv_result. split; [|done].
  eapply Inv_same; [exact Hd|]. eapply chmod_view; [eassumption|]. intros x' c Hv. by eapply Hm.
Qed.

Lemma setWriteTime_keeps path time : keeps w_disk Inv (setWriteTime path time) (fun _ => True).
Proof using R_same env_keeps.
  apply keeps_result; [done|]. intros now d a d' Hd Hr. inv_result. split; [|done].
  eapply Inv_same; [exact Hd|]. by eapply utimens_view.
Qed.

Lemma canonicalise_st_keeps path st :
  P path -> told path st -> keeps w_disk Inv (canonicaliseTimestampAndPermissions_st path st) (fun _ => True).
Proof using R_same env_keeps.
  intros Hp Ht. unfold canonicaliseTimestampAndPermissions_st. eapply (keeps_bind _ _ _ _ (fun _ => True)).
  - assert (keeps w_disk Inv (if bool_decide (ps_perm st <> canonical_mode st) then sys_chmod path (canonical_mode st) else mret ())
              (fun _ => True)) as Hk.
    { case_bool_decide; [|by apply keeps_ret]. apply chmod_keeps. intros d x c [Hh _] Hv. rewrite (Hh _ Hp) in Hv.
      destruct (Ht _ Hv) as (Hty & He & _). unfold canonical_mode. rewrite Hty, executable_canonical. done. }
    destruct (ps_type st); [done|done|by apply keeps_ret].
  - intros _ _. case_bool_decide; [apply setWriteTime_keeps|by apply keeps_ret].
Qed.

Lemma canonicalise_keeps path : P path -> keeps w_disk Inv (canonicaliseTimestampAndPermissions path) (fun _ => True).
Proof using R_same env_keeps.
  intros Hp. eapply keeps_bind; [by apply lstat_told|]. intros st Hst. by apply canonicalise_st_keeps.
Qed.

Lemma canonicalisePath_keeps fuel : forall path, P path -> keeps w_disk Inv (canonicalisePathMetaData_ fuel path) (fun _ => True).
Proof using R_same env_keeps P_below.
  induction fuel as [|fuel IH]; intros path Hp; cbn [canonicalisePathMetaData_]; [apply keeps_throw|].
  eapply keeps_bind; [by apply lstat_told|]. intros st Hst.
  eapply keeps_bind; [by apply canonicalise_st_keeps|]. intros _ _.
  destruct (ps_type st); [by apply keeps_ret| |by apply keeps_ret].
  eapply keeps_bind; [by apply (keeps_readDirectory _ _ _ _ env_keeps _ (fun _ => True))|]. intros es _.
  apply (keeps_foreach _ _ _ _ (fun _ => True)); [by apply Forall_forall|]. intros i _. apply IH. by apply P_below.
Qed.
End keeps.
End canonicalise.
