(* ===== verification/Optimise.v ===== *)
(** * Optimise: sharing equal files through the link farm

    libstore/optimise-store.cc, among other processes ([World]).  The farm
    [.links] has one name for each different file, the hash of its archive;
    [optimisePath_] replaces each file of a store object by a hard link to
    the name of its contents, or gives it that name. *)

From S2P Require Export Canonicalise HashPath Decimal.
Local Open Scope Z_scope.

Record ImportFileHashes := mkImportFileHashes
  { files : gmap bytes Hash; dedupedFiles : Z; dedupedBytes : Z }.

(** What the calls share: the inodes of the farm ([inodeHash]), whether the
    directory being walked was made writable ([*parentToggled]), the
    statistics and the counter of temporary names. *)
Record Opt := mkOpt {
  o_world : World; inodeHash : gset nat; o_toggled : bool; filesLinked : Z; bytesFreed : Z; tmpCounter : Z }.

Definition on_world {A} : ST World A -> ST Opt A :=
  zoom o_world (fun w s => mkOpt w (inodeHash s) (o_toggled s) (filesLinked s) (bytesFreed s) (tmpCounter s)).
Definition insert_inode (i : option nat) : ST Opt unit :=
  Prelude.modify (fun s => mkOpt (o_world s) (match i with Some i => {[i]} ∪ inodeHash s | None => inodeHash s end)
                     (o_toggled s) (filesLinked s) (bytesFreed s) (tmpCounter s)).
Definition set_toggled (b : bool) (s : Opt) : Opt :=
  mkOpt (o_world s) (inodeHash s) b (filesLinked s) (bytesFreed s) (tmpCounter s).
Definition count_linked (size : nat) : ST Opt unit :=
  Prelude.modify (fun s => mkOpt (o_world s) (inodeHash s) (o_toggled s) (u64 (filesLinked s + 1))
                     (u64 (bytesFreed s + Z.of_nat size)) (tmpCounter s)).
(** [tmpCounter.fetch_add(1)] *)
Definition fetch_add : ST Opt Z := fun s =>
  (Ok (tmpCounter s), mkOpt (o_world s) (inodeHash s) (o_toggled s) (filesLinked s) (bytesFreed s) (u32 (tmpCounter s + 1))).

(** Runs a computation whose exceptions are ignored. *)
Definition ignoring {St A} (m : ST St A) (s : St) : St := (m s).2.

Section optimise.
Context `{L : HashLib}.
Context (env : nat -> Disk -> Disk) (refuses : nat -> option errc) (clock : nat -> Z).
Notation lstat := (World.lstat env refuses clock).
Notation maybe_lstat := (maybe_lstat env refuses clock).
Notation sys_chmod := (sys_chmod env refuses clock).
Notation sys_link := (sys_link env refuses clock).
Notation sys_unlink := (sys_unlink env refuses clock).
Notation sys_rename := (sys_rename env refuses clock).
Notation readDirectory_ := (readDirectory_ env refuses clock).
Notation unlinkIfExists := (unlinkIfExists env refuses clock).
Notation canonicaliseTimestampAndPermissions := (canonicaliseTimestampAndPermissions env refuses clock).
Context (realStoreDir : list bytes) (pid : Z).

Definition linksDir : list bytes := realStoreDir ++ [ #".links"].
Definition tempLink (counter : Z) : list bytes := realStoreDir ++ [ #".tmp-link-" ++ dec pid ++ #"-" ++ dec counter].

Definition makeWritable (path : list bytes) : ST World unit :=
  st ← lstat path; sys_chmod path (Z.lor (ps_perm st) 0x80).

(** [makeFSSourceAccessor]: the files below a path of the disk. *)
Definition fs_accessor (d : Disk) (path : list bytes) : SourceAccessor := memory_accessor (mkMemory (view_at d path)).
(** [hashPath] of a path on disk, as one step. *)
Definition hash_file (path : list bytes) : ST World Hash :=
  sys_result env refuses clock (fun _ d =>
    r ← hashPath (fs_accessor d path) FileSerialisationMethod.NixArchive SHA256 everything false root;
    Ok (hr_hash r, d)).

Definition loadInodeHash : ST Opt unit :=
  es ← on_world (readDirectory_ linksDir);
  Prelude.modify (fun s => mkOpt (o_world s)
    (list_to_set (omap (fun e => match e.2 with NLeaf i => Some i | NDir _ _ _ => None end) es))
    (o_toggled s) (filesLinked s) (bytesFreed s) (tmpCounter s)).

Definition readDirectoryIgnoringInodes (path : list bytes) : ST Opt (list bytes) :=
  hash ← gets inodeHash;
  es ← on_world (readDirectory_ path);
  mret ((List.filter (fun e => match e.2 with NLeaf i => bool_decide (i ∉ hash) | NDir _ _ _ => true end) es).*1).

(** Replaces the file by the link: from the temporary link on. *)
Definition replace_file (st : PosixStat) (linkPath path : list bytes) : ST Opt unit :=
  n ← fetch_add;
  let temp := tempLink n in
  r ← on_world (sys_link linkPath temp);
  match r with
  | inl too_many_links | inl no_such_file_or_directory => mret ()
  | inl _ => slift (Throw SystemError)
  | inr () =>
      r ← on_world (sys_rename temp path);
      match r with
      | inl e =>
          _ ← on_world (sys_unlink temp);
          if bool_decide (e = too_many_links) then mret () else slift (Throw SystemError)
      | inr () => count_linked (ps_size st)
      end
  end.

(** Makes the directory of the file writable around [replace_file]; [top]:
    the call was not made for the entry of a directory. *)
Definition relink (top : bool) (st stLink : PosixStat) (linkPath path : list bytes) : ST Opt unit :=
  if bool_decide (ps_ino st = ps_ino stLink) then mret ()
  else
    let dirOfPath := removelast path in
    if top then
      if bool_decide (dirOfPath <> realStoreDir) then
        _ ← on_world (makeWritable dirOfPath);
        finally (replace_file st linkPath path) (ignoring (on_world (canonicaliseTimestampAndPermissions dirOfPath)))
      else replace_file st linkPath path
    else
      t ← gets o_toggled;
      _ ← (if t : bool then mret () else _ ← on_world (makeWritable dirOfPath); Prelude.modify (set_toggled true));
      replace_file st linkPath path.

(** The hash of a file: the one captured when it was restored, if any. *)
Definition file_hash (st : PosixStat) (path : list bytes) (fileHashes : option ImportFileHashes) (base : nat) : ST World Hash :=
  match fileHashes, ps_type st with
  | Some m, S_IFREG =>
      match files m !! join_path (drop base path) with
      | Some h => mret h
      | None => hash_file path
      end
  | _, _ => hash_file path
  end.

(** What is at the name in the farm, after a corrupted link is removed. *)
Definition find_link (st : PosixStat) (hash : Hash) (linkPath : list bytes) (repair : bool) : ST World (option PosixStat) :=
  stLink ← maybe_lstat linkPath;
  match stLink with
  | None => mret None
  | Some l =>
      bad ← (if bool_decide (ps_size st <> ps_size l) then mret true
             else if repair then h ← hash_file linkPath; mret (negb (Hash_eqb hash h)) else mret false);
      if bad : bool then _ ← unlinkIfExists linkPath; mret None else mret (Some l)
  end.

(** A file that is not a directory. *)
Definition optimise_file (path : list bytes) (st : PosixStat) (repair top : bool)
    (fileHashes : option ImportFileHashes) (base : nat) : ST Opt unit :=
  if bool_decide (ps_type st = S_IFREG) && negb (Z.land (ps_perm st) 0x80 =? 0) then mret ()
  else if bool_decide (ps_type st = S_IFREG) && (ps_size st =? 0)%nat then mret ()
  else
    inodes ← gets inodeHash;
    if (1 <? ps_nlink st)%nat && match ps_ino st with Some i => bool_decide (i ∈ inodes) | None => false end then mret ()
    else
      hash ← on_world (file_hash st path fileHashes base);
      name ← slift (Hashing.to_string hash Nix32 false);
      let linkPath := linksDir ++ [name] in
      stLink ← on_world (find_link st hash linkPath repair);
      match stLink with
      | Some l => relink top st l linkPath path
      | None =>
          r ← on_world (sys_link path linkPath);
          match r with
          | inr () => insert_inode (ps_ino st)
          | inl file_exists =>
              stLink ← on_world (maybe_lstat linkPath);
              match stLink with
              | None => mret ()
              | Some l => relink top st l linkPath path
              end
          | inl no_space_on_device => mret ()
          | inl _ => slift (Throw SystemError)
          end
      end.

(** [fuel] bounds the depth of the directories. *)
Fixpoint optimisePath_ (fuel : nat) (path : list bytes) (repair top : bool)
    (fileHashes : option ImportFileHashes) (base : nat) : ST Opt unit :=
  match fuel with
  | O => slift (Throw AssertFailed)
  | S fuel =>
      st ← on_world (lstat path);
      match ps_type st with
      | S_IFDIR =>
          names ← readDirectoryIgnoringInodes path;
          outer ← gets o_toggled;
          _ ← Prelude.modify (set_toggled false);
          finally (sforeach (fun i => optimisePath_ fuel (path ++ [i]) repair false fileHashes base) names)
            (fun s => set_toggled outer
               (if o_toggled s then ignoring (on_world (canonicaliseTimestampAndPermissions path)) s else s))
      | _ => optimise_file path st repair top fileHashes base
      end
  end.

(** [optimisePath(const std::filesystem::path &, RepairFlag)]: the inodes of
    the farm are not loaded. *)
Definition optimisePath (autoOptimiseStore : bool) (fuel : nat) (path : list bytes) (repair : bool) : ST Opt unit :=
  if autoOptimiseStore then
    _ ← Prelude.modify (fun s => mkOpt (o_world s) ∅ (o_toggled s) (filesLinked s) (bytesFreed s) (tmpCounter s));
    optimisePath_ fuel path repair true None 0
  else mret ().

(** [optimisePath(const StorePath &, ...)] and one path of [optimiseStore],
    for a path that is valid. *)
Definition optimise_object (fuel : nat) (name : bytes) (fileHashes : option ImportFileHashes) : ST Opt unit :=
  _ ← loadInodeHash;
  let realPath := realStoreDir ++ [name] in
  optimisePath_ fuel realPath false true fileHashes (length realPath).

(** ** The contents of the store are kept *)

(** The objects that are kept: entries of the store directory other than
    the farm and temporary names. *)
Context (ours : bytes -> Prop).
Definition ours_ok : Prop := forall n, ours n -> n <> #".links" /\ forall k, realStoreDir ++ [n] <> tempLink k.
Context (Hours : ours_ok).

(** The paths in them. *)
Definition object_path (p : list bytes) : Prop := exists n r, p = realStoreDir ++ n :: r /\ ours n.

Lemma apart_names n r m q : n <> m -> apart (realStoreDir ++ n :: r) (realStoreDir ++ m :: q).
Proof using Type.
  intros Hn. induction realStoreDir as [|c s IH]; cbn [app]; apply apart_cons; [by left|by right].
Qed.
Lemma object_links p n : object_path p -> apart p (linksDir ++ [n]).
Proof using Hours. intros (m & r & -> & [Hm _]%Hours). unfold linksDir. rewrite <- app_assoc. by apply apart_names. Qed.
Lemma object_temp p k : object_path p -> apart p (tempLink k).
Proof using Hours. intros (m & r & -> & [_ Hm]%Hours). apply apart_names. intros ->. by apply (Hm k). Qed.
Lemma links_temp n k : apart (linksDir ++ [n]) (tempLink k).
Proof using Type. unfold linksDir. rewrite <- app_assoc. by apply apart_names. Qed.
Lemma links_apart m n : m <> n -> apart (linksDir ++ [m]) (linksDir ++ [n]).
Proof using Type.
  intros Hmn. unfold linksDir. rewrite <- !app_assoc.
  induction realStoreDir as [|c r IH]; cbn [app]; apply apart_cons; right; [|done]. apply apart_cons. by left.
Qed.
Lemma object_below p c : object_path p -> object_path (p ++ [c]).
Proof using Type. intros (n & r & -> & H). exists n, (r ++ [c]). by rewrite <- app_assoc. Qed.
Lemma object_parent p : object_path p -> object_path (removelast p) \/ removelast p = realStoreDir.
Proof using Type.
  intros (n & r & -> & H). destruct r as [|c r _] using rev_ind.
  - right. apply removelast_last.
  - left. exists n, r. split; [|exact H]. replace (realStoreDir ++ n :: r ++ [c]) with ((realStoreDir ++ n :: r) ++ [c]) by (by rewrite <- app_assoc).
    apply removelast_last.
Qed.

Definition is_leaf (f : File) : bool := match f with Directory _ => false | _ => true end.
(** The name of a file in the farm. *)
Definition link_name (f : File) : result bytes := Hashing.to_string (hash_of SHA256 (archive f)) Nix32 false.

Section keeps.
Context `{!HashLibLaws L}.
(** The files of the store and of the farm: different ones have different
    names in the farm. *)
Context (known : File -> Prop).
Context (known_ok : forall f, known f -> ok_file f /\ is_leaf f = true).
Context (known_names : forall f g n, known f -> known g -> link_name f = Ok n -> link_name g = Ok n -> f = g).
(** What the paths of the store show. *)
Context (V : list bytes -> option File).
Context (V_known : forall p f, object_path p -> V p = Some f -> is_leaf f = true -> known f).

(** The farm: each name is that of what it shows. *)
Definition farm_ok (d : Disk) : Prop :=
  forall n f, view_at d (linksDir ++ [n]) = Some f -> known f /\ link_name f = Ok n.
Notation Inv := (Inv object_path V farm_ok).
(** The others keep both, and leave our temporary names alone. *)
Context (env_keeps : forall k d, Inv d -> Inv (env k d)).
Context (env_temp : forall k d c, view_at (env k d) (tempLink c) = view_at d (tempLink c)).

Notation o_disk := (fun s => w_disk (o_world s)).
Notation wkeeps := (keeps w_disk Inv).
Notation okeeps := (keeps o_disk Inv).

Lemma farm_same d d' : farm_ok d -> (forall p, view_at d' p = view_at d p) -> farm_ok d'.
Proof using Type. intros Hf Hs n f. rewrite Hs. apply Hf. Qed.

Lemma on_world_keeps {A} (m : ST World A) (Q : A -> Prop) : wkeeps m Q -> okeeps (on_world m) Q.
Proof using Type. intros Hm. by apply (keeps_zoom _ _ w_disk). Qed.

Lemma ignoring_keeps {A} (m : ST World A) (Q : A -> Prop) s :
  wkeeps m Q -> Inv (w_disk (o_world s)) -> Inv (w_disk (o_world (ignoring (on_world m) s))).
Proof using Type.
  intros Hm Hs. pose proof (on_world_keeps m Q Hm s Hs) as Hk. unfold leads, ignoring in *.
  destruct (on_world m s) as [[a|e] s']; [apply Hk|exact Hk].
Qed.

(** A leaf of the store that [lstat] has found. *)
Definition leaf_at (path : list bytes) (f : File) : Prop := object_path path /\ V path = Some f /\ is_leaf f = true.

Lemma lstat_leaf path : object_path path ->
  wkeeps (lstat path) (fun st => told V path st /\ (ps_type st <> S_IFDIR -> exists f, leaf_at path f)).
Proof using Hours env_keeps.
  intros Hp. apply keeps_lstat; [done|]. intros d st [Hh _] Hst. split.
  - intros f Hf. apply (maybeLstat_of path d); [done|]. by rewrite (Hh _ Hp).
  - intros Ht. unfold maybeLstat in Hst. destruct (lookup_path d path) as [x|] eqn:Hl; [|done].
    pose proof (view_at_lookup _ _ _ Hl) as Hv. rewrite (Hh _ Hp) in Hv.
    destruct x as [i|m t es]; cbn [mbind option_bind stat_node] in Hst.
    + rewrite view_NLeaf in Hv. destruct (inodes d !! i) as [[[c m|g] t]|]; [| |done]; eexists; (split; [done|]); by split.
    + injection Hst as <-. done.
Qed.

Lemma writable_executable m : is_executable (Z.lor m 0x80) = is_executable m.
Proof using Type.
  unfold is_executable. do 2 f_equal. apply Z.bits_inj'. intros k Hk. rewrite !Z.land_spec, Z.lor_spec.
  destruct (decide (k = 6)) as [->|Hk6]; [by rewrite orb_false_r|].
  change 0x40 with (2 ^ 6). rewrite Z.pow2_bits_false by lia. by rewrite !andb_false_r.
Qed.

Lemma makeWritable_keeps path : object_path path -> wkeeps (makeWritable path) (fun _ => True).
Proof using Hours env_keeps.
  intros Hp. eapply keeps_bind; [by apply lstat_told|]. intros st Ht. apply chmod_keeps; [apply farm_same|done|].
  intros d x c [Hh _] Hv. rewrite (Hh _ Hp) in Hv. destruct (Ht _ Hv) as (_ & He & _). by rewrite writable_executable.
Qed.

Lemma canonicalise_dir path : object_path path -> wkeeps (canonicaliseTimestampAndPermissions path) (fun _ => True).
Proof using Hours env_keeps. intros Hp. apply canonicalise_keeps; [apply farm_same|done|done]. Qed.

Lemma hash_any path : wkeeps (hash_file path) (fun _ => True).
Proof using Hours env_keeps. apply keeps_result; [done|]. intros now d h d' Hd Hr. by inv_result. Qed.

Lemma hash_leaf path f : leaf_at path f -> wkeeps (hash_file path) (fun h => h = hash_of SHA256 (archive f)).
Proof using Hours HashLibLaws0 V_known known_ok env_keeps.
  intros (Hp & Hv & Hf). destruct (known_ok f) as [Hok _]; [by eapply V_known|].
  apply keeps_result; [done|]. intros now d h d' [Hh Hd] Hr. apply bind_Ok in Hr as (r & Hr & [= <- <-]). split; [done|].
  unfold fs_accessor in Hr. rewrite (Hh _ Hp), Hv in Hr.
  rewrite hashPath_all in Hr; [|exact Hok|destruct f; [apply le_n_S, Nat.le_0_l|discriminate Hf|apply le_n_S, Nat.le_0_l]].
  injection Hr as <-. reflexivity.
Qed.

(** The captured hashes of the regular files below a path of [base] components. *)
Definition captured (base : nat) (fileHashes : option ImportFileHashes) : Prop :=
  forall m p f h, fileHashes = Some m -> leaf_at p f -> files m !! join_path (drop base p) = Some h ->
    (base <= length p)%nat -> h = hash_of SHA256 (archive f).

Lemma file_hash_keeps st path f fileHashes base :
  leaf_at path f -> captured base fileHashes -> (base <= length path)%nat ->
  wkeeps (file_hash st path fileHashes base) (fun h => h = hash_of SHA256 (archive f)).
Proof using Hours HashLibLaws0 V_known known_ok env_keeps.
  intros Hf Hc Hb. unfold file_hash. destruct fileHashes as [m|]; [|by apply hash_leaf].
  destruct (ps_type st); try by apply hash_leaf. destruct (files m !! _) as [h|] eqn:Hh; [|by apply hash_leaf].
  apply keeps_ret. by eapply Hc.
Qed.

Lemma unlink_link_keeps n : wkeeps (unlinkIfExists (linksDir ++ [n])) (fun _ => True).
Proof using Hours env_keeps.
  eapply keeps_bind; [apply (keeps_sys _ _ _ _ env_keeps _ (fun _ => True))|].
  - intros now d a d' [Hh Hf] Hr. destruct (DiskCalls.unlink _ _ _) as [e|d1] eqn:Hu; [done|]. injection Hr as <- <-.
    apply unlink_view in Hu as [Hn Hs]. split; [|done]. split.
    + intros p Hp. rewrite Hs by (by apply object_links). by apply Hh.
    + intros m f Hm. destruct (decide (m = n)) as [->|Hmn]; [by rewrite Hn in Hm|]. apply Hf.
      rewrite <- Hs; [done|by apply links_apart].
  - intros [e|[]] _; [|by apply keeps_ret]. destruct e; (apply keeps_throw || by apply keeps_ret).
Qed.

Lemma find_link_keeps st hash n repair : wkeeps (find_link st hash (linksDir ++ [n]) repair) (fun _ => True).
Proof using Hours env_keeps.
  eapply keeps_bind; [by apply (keeps_maybe_lstat _ _ _ _ env_keeps _ (fun _ => True))|]. intros [l|] _; [|by apply keeps_ret].
  apply (keeps_bind _ _ _ _ (fun _ => True)).
  - case_bool_decide; [by apply keeps_ret|]. destruct repair; [|by apply keeps_ret].
    eapply keeps_bind; [apply hash_any|]. intros h _. by apply keeps_ret.
  - intros [] _; [|by apply keeps_ret]. eapply keeps_bind; [apply unlink_link_keeps|]. intros _ _. by apply keeps_ret.
Qed.

(** Giving a file its name in the farm. *)
Lemma link_keeps path f n :
  leaf_at path f -> link_name f = Ok n -> wkeeps (sys_link path (linksDir ++ [n])) (fun _ => True).
Proof using Hours V_known env_keeps.
  intros (Hp & Hv & Hl) Hn. eapply keeps_mono; [apply (keeps_sys _ _ _ _ env_keeps _ (fun _ => True))|by intros []].
  intros now d a d' [Hh Hf] Hr. destruct (hard_link _ _ _ _) as [e|d1] eqn:Hk; [done|]. injection Hr as <- <-.
  apply hard_link_view in Hk as ((x & Hx & Hx') & Hnone & Hs). split; [|done]. rewrite (Hh _ Hp), Hv in Hx. injection Hx as ->. split.
  - intros p Hp'. rewrite Hs by (by apply object_links). by apply Hh.
  - intros m g Hm. destruct (decide (m = n)) as [->|Hmn].
    + rewrite Hx' in Hm. injection Hm as <-. split; [|done]. by apply (V_known path).
    + apply Hf. rewrite <- Hs; [done|by apply links_apart].
Qed.

(** Replacing a file by the link of that name. *)
Lemma replace_keeps st path f n :
  leaf_at path f -> link_name f = Ok n -> okeeps (replace_file st (linksDir ++ [n]) path) (fun _ => True).
Proof using Hours V_known known_names env_keeps env_temp.
  intros (Hp & Hv & Hl) Hn s Hs. unfold replace_file. apply leads_bind. unfold leads, fetch_add at 1. set (c := tmpCounter s).
  cbv beta iota zeta. apply leads_bind. unfold leads, on_world, zoom at 1, World.sys_link, sys. cbn [o_world].
  set (k := w_tick (o_world s)). pose proof (env_keeps k _ Hs) as [Hh Hf]. set (d := env k (w_disk (o_world s))) in *.
  destruct (refuses k) as [e|]; [destruct e; cbn; done|].
  destruct (hard_link _ _ _ d) as [e|d1] eqn:Hk; [destruct e; cbn; done|]. cbv beta iota.
  apply hard_link_view in Hk as ((x & Hx & Hx') & _ & Hsame).
  destruct (Hf _ _ Hx) as [Hkx Hnx]. assert (inode_file x = f) as Hxf by (eapply known_names; [exact Hkx|by eapply V_known|exact Hnx|exact Hn]).
  assert (Inv d1) as Hd1.
  { split.
    - intros p Hp'. rewrite Hsame by (by apply object_temp). by apply Hh.
    - intros m g. rewrite Hsame by (apply links_temp). apply Hf. }
  apply leads_bind. unfold leads, on_world, zoom at 1, World.sys_rename, sys. cbn [o_world w_disk w_tick].
  pose proof (env_keeps (S k) _ Hd1) as [Hh2 Hf2]. pose proof (env_temp (S k) d1 c) as Htemp. set (d2 := env (S k) d1) in *.
  rewrite Hx', Hxf in Htemp.
  assert (forall (s1 : Opt) (e : errc), Inv (w_disk (o_world s1)) ->
    leads (_ ← on_world (sys_unlink (tempLink c)); if bool_decide (e = too_many_links) then mret () else slift (Throw SystemError)) s1
      (fun _ s' => Inv (w_disk (o_world s')) /\ True) (fun _ s' => Inv (w_disk (o_world s')))) as Hfail.
  { intros s1 e Hs1. apply (keeps_bind (St := Opt) o_disk Inv _ _ (fun _ => True)); [|intros _ _|done].
    - apply on_world_keeps. eapply keeps_mono; [apply (keeps_sys _ _ _ _ env_keeps _ (fun _ => True))|by intros []].
      intros now d0 a d' [Hh0 Hf0] Hr. destruct (DiskCalls.unlink _ _ _) as [e'|d3] eqn:Hu; [done|]. injection Hr as <- <-.
      apply unlink_view in Hu as [_ Hu]. split; [|done]. split.
      + intros p Hp'. rewrite Hu by (by apply object_temp). by apply Hh0.
      + intros m g. rewrite Hu by (apply links_temp). apply Hf0.
    - case_bool_decide; [by apply keeps_ret|apply keeps_throw]. }
  destruct (refuses (S k)) as [e|]; [by apply Hfail|].
  destruct (rename _ _ _ d2) as [e|d3] eqn:Hr; [by apply Hfail|]. cbv beta iota.
  pose proof (rename_view _ _ _ _ _ f Hr (apart_sym _ _ (object_temp _ c Hp)) Htemp) as Hren.
  rewrite (Hh2 _ Hp) in Hren. specialize (Hren Hv). unfold leads, count_linked, Prelude.modify. cbn. split; [|done]. split.
  - intros p Hp'. rewrite Hren by (by apply object_temp). by apply Hh2.
  - intros m g. rewrite Hren by (apply links_temp). apply Hf2.
Qed.

(** The directory that is made writable. *)
Lemma relink_keeps top st stLink path f n :
  leaf_at path f -> link_name f = Ok n -> (top = false -> object_path (removelast path)) ->
  okeeps (relink top st stLink (linksDir ++ [n]) path) (fun _ => True).
Proof using Hours V_known known_names env_keeps env_temp.
  intros Hf Hn Hpar. unfold relink. case_bool_decide; [by apply keeps_ret|]. cbv zeta. destruct top.
  - case_bool_decide as Hd; [|by eapply replace_keeps].
    assert (object_path (removelast path)) as Hp by (destruct (object_parent path) as [?|?]; [apply Hf|done|done]).
    eapply keeps_bind; [apply on_world_keeps; by apply makeWritable_keeps|]. intros _ _.
    apply keeps_finally; [by eapply replace_keeps|]. intros s Hs. eapply ignoring_keeps; [by apply canonicalise_dir|done].
  - eapply keeps_bind; [apply keeps_gets|]. intros t _. apply (keeps_bind _ _ _ _ (fun _ => True)).
    + destruct t; [by apply keeps_ret|]. eapply keeps_bind; [apply on_world_keeps; by apply makeWritable_keeps, Hpar|].
      intros _ _. by apply keeps_modify.
    + intros _ _. by eapply replace_keeps.
Qed.

Lemma optimise_file_keeps path st f repair top fileHashes base :
  leaf_at path f -> captured base fileHashes -> (base <= length path)%nat -> (top = false -> object_path (removelast path)) ->
  okeeps (optimise_file path st repair top fileHashes base) (fun _ => True).
Proof using Hours HashLibLaws0 V_known known_ok known_names env_keeps env_temp.
  intros Hf Hc Hb Hpar. unfold optimise_file.
  destruct (bool_decide _ && negb _); [by apply keeps_ret|]. destruct (bool_decide _ && _); [by apply keeps_ret|].
  eapply keeps_bind; [apply keeps_gets|]. intros inodes _. destruct (_ && _); [by apply keeps_ret|].
  eapply keeps_bind; [by apply on_world_keeps, (file_hash_keeps _ _ f)|]. cbn beta. intros hash ->.
  apply (keeps_bind _ _ _ _ (fun n => link_name f = Ok n)); [by apply keeps_lift|]. intros n Hn. cbv zeta.
  eapply keeps_bind; [apply on_world_keeps, find_link_keeps|]. intros [l|] _; [by eapply relink_keeps|].
  eapply keeps_bind; [by apply on_world_keeps, (link_keeps _ f)|]. intros [e|[]] _.
  - destruct e; try (apply keeps_throw || by apply keeps_ret).
    eapply keeps_bind; [by apply on_world_keeps, (keeps_maybe_lstat _ _ _ _ env_keeps _ (fun _ => True))|].
    intros [l|] _; [by eapply relink_keeps|by apply keeps_ret].
  - by apply keeps_modify.
Qed.

Lemma readDirectory_any path : okeeps (readDirectoryIgnoringInodes path) (fun _ => True).
Proof using Hours env_keeps.
  eapply keeps_bind; [apply keeps_gets|]. intros hash _.
  eapply keeps_bind; [by apply on_world_keeps, (keeps_readDirectory _ _ _ _ env_keeps _ (fun _ => True))|]. intros es _. by apply keeps_ret.
Qed.

Lemma optimisePath_keeps fuel repair fileHashes base : forall path top,
  object_path path -> captured base fileHashes -> (base <= length path)%nat -> (top = false -> object_path (removelast path)) ->
  okeeps (optimisePath_ fuel path repair top fileHashes base) (fun _ => True).
Proof using Hours HashLibLaws0 V_known known_ok known_names env_keeps env_temp.
  induction fuel as [|fuel IH]; intros path top Hp Hc Hb Hpar; cbn [optimisePath_]; [apply keeps_throw|].
  eapply keeps_bind; [by apply on_world_keeps, lstat_leaf|]. intros st [_ Hl].
  destruct (decide (ps_type st = S_IFDIR)) as [Ht|Ht].
  - rewrite Ht. eapply keeps_bind; [apply readDirectory_any|]. intros names _.
    eapply keeps_bind; [apply keeps_gets|]. intros outer _.
    eapply keeps_bind; [by apply keeps_modify|]. intros _ _. apply keeps_finally.
    + apply (keeps_foreach _ _ _ _ (fun _ => True)); [by apply Forall_forall|]. intros i _.
      apply IH; [by apply object_below|done|rewrite length_app; lia|]. intros _. by rewrite removelast_last.
    + intros s Hs. destruct (o_toggled s); [|done]. cbn [set_toggled o_world].
      eapply ignoring_keeps; [by apply canonicalise_dir|done].
  - destruct (Hl Ht) as (f & Hf).
    destruct (ps_type st); [by apply (optimise_file_keeps _ _ f)|done|by apply (optimise_file_keeps _ _ f)].
Qed.

Lemma loadInodeHash_keeps : okeeps loadInodeHash (fun _ => True).
Proof using Hours env_keeps.
  eapply keeps_bind; [by apply on_world_keeps, (keeps_readDirectory _ _ _ _ env_keeps _ (fun _ => True))|].
  intros es _. by apply keeps_modify.
Qed.
(** C9: Sharing files loses nothing.  Whatever other processes do between the
    system calls (as long as they keep the contents of the store's objects
    and the farm true, and leave our temporary names alone), whichever calls
    are refused, and whether optimising an object returns or throws: every
    path of every object shows what it showed before, and each name in the
    farm is the hash of the file it shows.  This needs that no two files of
    the store have the same hash, and that hashes captured earlier are those
    of the files. *)
Theorem optimise_object_safe fuel name fileHashes s :
  ours name -> captured (S (length realStoreDir)) fileHashes ->
  (forall p, object_path p -> view_at (w_disk (o_world s)) p = V p) -> farm_ok (w_disk (o_world s)) ->
  let s' := (optimise_object fuel name fileHashes s).2 in
  (forall p, object_path p -> view_at (w_disk (o_world s')) p = V p) /\ farm_ok (w_disk (o_world s')).
Proof using Hours HashLibLaws0 V_known known_ok known_names env_keeps env_temp.
  intros Hn Hc Hv Hf.
  assert (okeeps (optimise_object fuel name fileHashes) (fun _ => True)) as Hk.
  { eapply keeps_bind; [apply loadInodeHash_keeps|]. intros _ _. cbv zeta. apply optimisePath_keeps.
    - by exists name, [].
    - by rewrite length_app, Nat.add_1_r.
    - done.
    - done. }
  specialize (Hk s (conj Hv Hf)). unfold leads in Hk. cbv zeta.
  destruct (optimise_object fuel name fileHashes s) as [[a|e] s']; [apply Hk|exact Hk].
Qed.
End keeps.
End optimise.

(** Two objects with the same contents, each a file. *)
Definition two_equal_files : Disk :=
  mkDisk (NDir 0x1ED 1 [(#"s", NDir 0x1ED 1 [(#".links", NDir 0x1ED 1 []); (#"a", NLeaf 0); (#"b", NLeaf 1)])])
    (<[0%nat := mkInode (LRegular #"x" 0x124) 1]> {[1%nat := mkInode (LRegular #"x" 0x124) 1]}) 2.

(** Optimising both leaves them one file, with the contents each had. *)
Lemma optimise_object_safe_witness :
  let run n := @optimise_object prefix_HashLib (fun _ d => d) (fun _ => None) (fun _ => 5) [ #"s"] 7 2 n None in
  let s0 := mkOpt (mkWorld two_equal_files 0) ∅ false 0 0 0 in
  let s1 := (run #"a" s0).2 in
  let s2 := (run #"b" s1).2 in
  (run #"a" s0).1 = Ok () /\ (run #"b" s1).1 = Ok () /\
  lookup_path (w_disk (o_world s2)) [ #"s"; #"b"] = Some (NLeaf 0) /\
  view_at (w_disk (o_world s2)) [ #"s"; #"b"] = Some (Regular false #"x").
Proof.
  set (d0 := two_equal_files).
  set (ours := fun n : bytes => n = #"a" \/ n = #"b").
  assert (Hours : ours_ok [ #"s"] 7 ours).
  { intros n [-> | ->]; (split; [discriminate|]); intros k Hk; unfold tempLink in Hk; cbn in Hk; discriminate Hk. }
  assert (Hleaf : forall p f, object_path [ #"s"] ours p -> view_at d0 p = Some f -> f = Regular false #"x").
  { intros p f (n & r & -> & [-> | ->]) Hv; (destruct r as [|c r]; [injection Hv as <-; reflexivity|discriminate Hv]). }
  assert (forall nm s, ours nm ->
    (forall p, object_path [ #"s"] ours p -> view_at (w_disk (o_world s)) p = view_at d0 p) ->
    @farm_ok prefix_HashLib [ #"s"] (fun f => f = Regular false #"x") (w_disk (o_world s)) ->
    let s' := (@optimise_object prefix_HashLib (fun _ d => d) (fun _ => None) (fun _ => 5) [ #"s"] 7 2 nm None s).2 in
    (forall p, object_path [ #"s"] ours p -> view_at (w_disk (o_world s')) p = view_at d0 p) /\
    @farm_ok prefix_HashLib [ #"s"] (fun f => f = Regular false #"x") (w_disk (o_world s'))) as Hstep.
  { intros nm s Hnm Hv Hf.
    apply (@optimise_object_safe prefix_HashLib (fun _ d => d) (fun _ => None) (fun _ => 5) [ #"s"] 7 ours Hours prefix_HashLib_laws
             (fun f => f = Regular false #"x")); try done.
    - intros f ->. split; [constructor; vm_compute; reflexivity|reflexivity].
    - intros f g n -> -> _ _. reflexivity.
    - intros p f Hp Hpv _. exact (Hleaf p f Hp Hpv). }
  intros run s0 s1 s2.
  assert (@farm_ok prefix_HashLib [ #"s"] (fun f => f = Regular false #"x") d0) as Hf0.
  { intros n f Hv. discriminate Hv. }
  destruct (Hstep #"a" s0 (or_introl eq_refl) (fun _ _ => eq_refl) Hf0) as [Hv1 Hf1].
  destruct (Hstep #"b" s1 (or_intror eq_refl) Hv1 Hf1) as [Hv2 _].
  split; [vm_compute; reflexivity|]. split; [vm_compute; reflexivity|]. split; [vm_compute; reflexivity|].
  refine (eq_trans (Hv2 [ #"s"; #"b"] _) eq_refl). exists #"b", []. split; [reflexivity|right; reflexivity].
Defined.
