(* ===== verification/Graph.v ===== *)
(** * Graph: topological sorting and closures

    libutil/topo-sort.hh ([topoSort]) and libutil/closure.hh
    ([computeClosure]).  A [std::set] that is iterated is the list of its
    elements in iteration order; [computeClosure] is a step relation over
    the handlers that the event loop may run next. *)

From S2P Require Export Prelude.

(** ** [topoSort] *)

Section topoSort.
Context {T : Type} `{Countable T}.

Record Cycle := mkCycle { cy_path : T; cy_parent : T }.

(** The variables the visitor captures by reference. *)
Record dfs := mkDfs { sorted : list T; visited : gset T; parents : gset T }.

Context (items : list T) (getChildren : T -> result (list T)).

(** The loop over the references of [path], left at the first cycle. *)
Fixpoint visit_children (visit : dfs -> T -> option T -> result (dfs * option Cycle))
    (path : T) (references : list T) (st : dfs) : result (dfs * option Cycle) :=
  match references with
  | [] => Ok (st, None)
  | i :: references =>
      if bool_decide (i <> path) && bool_decide (i ∈ items) then
        '(st, result) ← visit st i (Some path);
        match result with
        | Some c => Ok (st, Some c)
        | None => visit_children visit path references st
        end
      else visit_children visit path references st
  end.

(** [fuel] bounds the depth of the recursion. *)
Fixpoint dfsVisit (fuel : nat) (st : dfs) (path : T) (parent : option T) : result (dfs * option Cycle) :=
  match fuel with
  | O => Throw AssertFailed
  | S fuel =>
      if bool_decide (path ∈ parents st) then
        parent ← from_opt AssertFailed parent;
        Ok (st, Some (mkCycle path parent))
      else if bool_decide (path ∈ visited st) then Ok (st, None)
      else
        let st := mkDfs (sorted st) ({[path]} ∪ visited st) ({[path]} ∪ parents st) in
        references ← getChildren path;
        '(st, result) ← visit_children (dfsVisit fuel) path references st;
        match result with
        | Some c => Ok (st, Some c)
        | None => Ok (mkDfs (sorted st ++ [path]) (visited st) (parents st ∖ {[path]}), None)
        end
  end.

Fixpoint visit_items (fuel : nat) (todo : list T) (st : dfs) : result (dfs * option Cycle) :=
  match todo with
  | [] => Ok (st, None)
  | i :: todo =>
      '(st, cycle) ← dfsVisit fuel st i None;
      match cycle with
      | Some c => Ok (st, Some c)
      | None => visit_items fuel todo st
      end
  end.

(** Sorted, or a cycle. *)
Definition topoSort : result (list T + Cycle) :=
  '(st, cycle) ← visit_items (S (S (length items))) items (mkDfs [] ∅ ∅);
  match cycle with
  | Some c => Ok (inr c)
  | None => Ok (inl (reverse (sorted st)))
  end.
End topoSort.
Arguments Cycle : clear implicits.
Arguments mkCycle {T}.
Arguments cy_path {T}.
Arguments cy_parent {T}.
Arguments dfs _ {_ _}.
Arguments mkDfs {T _ _}.
Arguments sorted {T _ _}.
Arguments visited {T _ _}.
Arguments parents {T _ _}.

(** The sort asks for the children only. *)
Lemma topoSort_ext {T} `{Countable T} (items : list T) (f g : T -> result (list T)) :
  (forall x, f x = g x) -> topoSort items f = topoSort items g.
Proof.
  intros Hfg. unfold topoSort. generalize (S (S (length items))) as fuel. intros fuel.
  assert (forall fuel st x parent, dfsVisit items f fuel st x parent = dfsVisit items g fuel st x parent) as Hv.
  { clear fuel. induction fuel as [|fuel IH]; intros st x parent; cbn [dfsVisit]; [done|].
    destruct (bool_decide _); [done|]. destruct (bool_decide _); [done|]. rewrite Hfg. destruct (g x) as [refs|]; [|done].
    cbn [mbind result_bind].
    generalize (mkDfs (sorted st) ({[x]} ∪ visited st) ({[x]} ∪ parents st)) as st'.
    assert (forall st', visit_children items (dfsVisit items f fuel) x refs st' =
                        visit_children items (dfsVisit items g fuel) x refs st') as Hc.
    { induction refs as [|i refs IHr]; intros st'; cbn [visit_children]; [done|]. destruct (_ && _); [|done].
      rewrite IH. destruct (dfsVisit items g fuel st' i (Some x)) as [[st1 [c|]]|]; cbn; [done|apply IHr|done]. }
    intros st'. by rewrite Hc. }
  assert (forall todo st, visit_items items f fuel todo st = visit_items items g fuel todo st) as Hi.
  { induction todo as [|i todo IH]; intros st; cbn [visit_items]; [done|]. rewrite Hv.
    destruct (dfsVisit items g fuel st i None) as [[st1 [c|]]|]; cbn; [done|apply IH|done]. }
  by rewrite Hi.
Qed.

(** *** Correctness *)

Section topoSort_spec.
Context {T : Type} `{Countable T}.
Context (items : list T) (c : T -> list T).

(** An edge the sort considers. *)
Definition edge (x y : T) : Prop := y ∈ c x /\ y <> x /\ x ∈ items /\ y ∈ items.

(** In the order of completion, children come before their parents. *)
Definition done_ok (S : list T) : Prop :=
  NoDup S /\ (forall x, x ∈ S -> x ∈ items) /\
  forall i x y, S !! i = Some x -> edge x y -> exists j, (j < i)%nat /\ S !! j = Some y.

(** The state between two calls: the visited are the completed and those on
    the stack, and the stack leads to [path]. *)
Record good_dfs (st : dfs T) : Prop := {
  gd_done : done_ok (sorted st);
  gd_visited : forall x, x ∈ visited st <-> x ∈ sorted st \/ x ∈ parents st;
  gd_disjoint : forall x, x ∈ sorted st -> x ∉ parents st;
  gd_parents : forall x, x ∈ parents st -> x ∈ items;
}.

Definition cycle_ok (cy : Cycle T) : Prop :=
  edge (cy_parent cy) (cy_path cy) /\ rtc edge (cy_path cy) (cy_parent cy).

(** What a visit that found no cycle did. *)
Definition extends (st st' : dfs T) : Prop :=
  good_dfs st' /\ parents st' = parents st /\ exists new, sorted st' = sorted st ++ new.

Lemma extends_refl st : good_dfs st -> extends st st.
Proof using Type. intros Hg. split; [done|]. split; [done|]. exists []. by rewrite app_nil_r. Qed.

Lemma extends_trans st1 st2 st3 : extends st1 st2 -> extends st2 st3 -> extends st1 st3.
Proof using Type.
  intros (_ & Hp & n1 & Hn1) (Hg & Hp' & n2 & Hn2). split; [done|]. split; [congruence|].
  exists (n1 ++ n2). by rewrite Hn2, Hn1, app_assoc.
Qed.

(** The measure that bounds the recursion: the items not on the stack. *)
Definition off_stack (P : gset T) : nat := length (filter (fun x => x ∉ P) items).

Lemma off_stack_push P x : x ∈ items -> x ∉ P -> (off_stack ({[x]} ∪ P) < off_stack P)%nat.
Proof using Type.
  clear c. intros Hx HP. unfold off_stack.
  rewrite (list_filter_iff (fun y => y ∉ {[x]} ∪ P) (fun y => y <> x /\ y ∉ P)) by set_solver.
  rewrite <- (list_filter_filter (fun y => y <> x) (fun y => y ∉ P)).
  apply (length_filter_lt _ _ x); [|tauto]. by apply list_elem_of_filter.
Qed.

Lemma done_ok_snoc S x :
  done_ok S -> x ∉ S -> x ∈ items -> (forall y, edge x y -> y ∈ S) -> done_ok (S ++ [x]).
Proof using Type.
  intros (Hnd & Hin & Hord) Hx Hi Hc. split; [|split].
  - apply NoDup_app. split; [done|]. split; [|apply NoDup_singleton]. set_solver.
  - intros y. rewrite elem_of_app, list_elem_of_singleton. intros [?| ->]; auto.
  - intros i z y Hz He. apply lookup_app_Some in Hz as [Hz|[Hle Hz]].
    + destruct (Hord i z y Hz He) as (j & Hj & Hy). exists j. split; [done|]. by apply lookup_app_l_Some.
    + apply list_lookup_singleton_Some in Hz as [? <-].
      destruct (proj1 (list_elem_of_lookup S y) (Hc y He)) as (j & Hy). exists j.
      pose proof (lookup_lt_Some _ _ _ Hy). split; [lia|]. by apply lookup_app_l_Some.
Qed.

Notation dfsVisit := (dfsVisit items (fun x => Ok (c x))).

(** The caller is at the top of the stack. *)
Definition called_from (st : dfs T) (path : T) (parent : option T) : Prop :=
  match parent with
  | Some q => edge q path /\ forall p, p ∈ parents st -> rtc edge p q
  | None => parents st = ∅
  end.

(** What is to be shown of a visit with some fuel. *)
Definition visit_ok (fuel : nat) : Prop :=
  forall st path parent,
    good_dfs st -> path ∈ items -> called_from st path parent -> (off_stack (parents st) < fuel)%nat ->
    match dfsVisit fuel st path parent with
    | Ok (st', None) => extends st st' /\ path ∈ sorted st'
    | Ok (_, Some cy) => cycle_ok cy
    | Throw _ => False
    end.

Lemma visit_children_ok fuel path references st :
  visit_ok fuel -> good_dfs st -> path ∈ items -> (forall i, i ∈ references -> i ∈ c path) ->
  (forall p, p ∈ parents st -> rtc edge p path) -> (off_stack (parents st) < fuel)%nat ->
  match visit_children items (dfsVisit fuel) path references st with
  | Ok (st', None) => extends st st' /\ forall i, i ∈ references -> i <> path -> i ∈ items -> i ∈ sorted st'
  | Ok (_, Some cy) => cycle_ok cy
  | Throw _ => False
  end.
Proof using Type.
  intros Hv. revert st. induction references as [|i references IH]; intros st Hg Hp Hc Hl Hf; cbn [visit_children].
  - split; [by apply extends_refl|]. set_solver.
  - assert (forall j, j ∈ references -> j ∈ c path) as Hc' by (intros; apply Hc; by right).
    case_bool_decide as Hi1; [case_bool_decide as Hi2|]; cbn [andb].
    + pose proof (Hv st i (Some path) Hg Hi2) as Hvi.
      destruct (dfsVisit fuel st i (Some path)) as [[st1 [cy|]]|]; cbn [mbind result_bind];
        [apply Hvi; [split; [|done]; split; set_solver|done]| |apply Hvi; [split; [|done]; split; set_solver|done]].
      destruct Hvi as [(Hg1 & Hp1 & new & Hn) Hi]; [split; [|done]; split; set_solver|done|].
      specialize (IH st1 Hg1 Hp). rewrite Hp1 in IH. specialize (IH Hc' Hl Hf).
      destruct (visit_children _ _ _ _ _) as [[st2 [cy|]]|]; [done| |done].
      destruct IH as [He Hr]. split.
      * eapply extends_trans; [|exact He]. split; [done|]. split; [done|]. by exists new.
      * intros j [->|Hj]%elem_of_cons ? ?; [|by apply Hr]. destruct He as (_ & _ & new' & ->). set_solver.
    + specialize (IH st Hg Hp Hc' Hl Hf).
      destruct (visit_children _ _ _ _ _) as [[st2 [cy|]]|]; [done| |done].
      destruct IH as [He Hr]. split; [done|]. intros j [->|Hj]%elem_of_cons ? ?; [done|by apply Hr].
    + specialize (IH st Hg Hp Hc' Hl Hf).
      destruct (visit_children _ _ _ _ _) as [[st2 [cy|]]|]; [done| |done].
      destruct IH as [He Hr]. split; [done|]. intros j [->|Hj]%elem_of_cons ? ?; [done|by apply Hr].
Qed.

Lemma push_good st path :
  good_dfs st -> path ∈ items -> path ∉ visited st ->
  good_dfs (mkDfs (sorted st) ({[path]} ∪ visited st) ({[path]} ∪ parents st)).
Proof using Type.
  intros [H1 H2 H3 H4] Hi Hv. split; cbn [sorted visited parents]; [done|set_solver..].
Qed.

Lemma called_from_push st path parent p :
  called_from st path parent -> p ∈ {[path]} ∪ parents st -> rtc edge p path.
Proof using Type.
  intros Hc [->%elem_of_singleton|Hp]%elem_of_union; [done|].
  destruct parent as [q|]; cbn [called_from] in Hc; [|set_solver]. destruct Hc as [He Hr].
  eapply rtc_r; [by apply Hr|done].
Qed.

Lemma dfsVisit_ok fuel : visit_ok fuel.
Proof using Type.
  induction fuel as [|fuel IH]; intros st path parent Hg Hi Hc Hf; [lia|]. cbn [Graph.dfsVisit].
  case_bool_decide as Hp.
  { destruct parent as [q|]; cbn [called_from] in Hc; [|set_solver]. cbn. destruct Hc as [He Hr].
    split; [done|]. by apply Hr. }
  case_bool_decide as Hv.
  { split; [by apply extends_refl|]. destruct (proj1 (gd_visited _ Hg path) Hv); [done|contradiction]. }
  cbn [mbind result_bind]. pose proof (push_good st path Hg Hi Hv) as Hg1.
  pose proof (visit_children_ok fuel path (c path) _ IH Hg1 Hi ltac:(done)) as Hch. cbn [parents sorted] in Hch.
  pose proof (off_stack_push (parents st) path Hi Hp) as Ho.
  destruct (visit_children _ _ _ _ _) as [[st2 [cy|]]|]; cbn [mbind result_bind].
  1,3: apply Hch; [intros p; by apply (called_from_push st path parent)|lia].
  destruct Hch as [(Hg2 & Hp2 & new & Hn) Hch]; [intros p; by apply (called_from_push st path parent)|lia|].
  cbn [parents sorted] in *. pose proof Hg2 as [Hd2 Hv2 Hdis2 Hin2].
  assert (path ∉ sorted st2) by (intros Hx; apply (Hdis2 _ Hx); set_solver).
  split; [|set_solver]. split; [split; cbn [sorted visited parents]|].
  - apply done_ok_snoc; try done. intros y (Hy1 & Hy2 & _ & Hy3). by apply Hch.
  - intros x. rewrite Hv2, elem_of_app, list_elem_of_singleton. destruct (decide (x = path)); set_solver.
  - set_solver.
  - set_solver.
  - cbn [parents sorted]. split; [rewrite Hp2; set_solver|]. exists (new ++ [path]). by rewrite Hn, app_assoc.
Qed.

Lemma visit_items_ok fuel todo st :
  good_dfs st -> parents st = ∅ -> (forall i, i ∈ todo -> i ∈ items) -> (length items < fuel)%nat ->
  match visit_items items (fun x => Ok (c x)) fuel todo st with
  | Ok (st', None) => extends st st' /\ forall i, i ∈ todo -> i ∈ sorted st'
  | Ok (_, Some cy) => cycle_ok cy
  | Throw _ => False
  end.
Proof using Type.
  revert st. induction todo as [|i todo IH]; intros st Hg Hp Ht Hf; cbn [visit_items].
  { split; [by apply extends_refl|]. set_solver. }
  pose proof (dfsVisit_ok fuel st i None Hg (Ht i ltac:(left)) Hp) as Hv.
  assert (off_stack (parents st) < fuel)%nat as Ho.
  { eapply Nat.le_lt_trans; [|exact Hf]. apply length_filter. }
  specialize (Hv Ho). destruct (dfsVisit fuel st i None) as [[st1 [cy|]]|]; cbn [mbind result_bind]; [done| |done].
  destruct Hv as [He Hi]. pose proof He as (Hg1 & Hp1 & _). rewrite Hp in Hp1.
  specialize (IH st1 Hg1 Hp1 (fun j Hj => Ht j (list_elem_of_further _ _ _ Hj)) Hf).
  destruct (visit_items _ _ _ _ _) as [[st2 [cy|]]|]; [done| |done]. destruct IH as [He2 Hr].
  split; [by eapply extends_trans|]. intros j [->|Hj]%elem_of_cons; [|by apply Hr].
  destruct He2 as (_ & _ & new & ->). set_solver.
Qed.

(** [S] lists every item before its children. *)
Definition topological (S : list T) : Prop :=
  NoDup S /\ (forall x, x ∈ S <-> x ∈ items) /\
  forall i j x y, S !! i = Some x -> S !! j = Some y -> edge x y -> (i < j)%nat.

Lemma topological_reverse S :
  done_ok S -> (forall x, x ∈ items -> x ∈ S) -> topological (reverse S).
Proof using Type.
  intros (Hnd & Hin & Hord) Hall. split; [by rewrite (reverse_Permutation S)|]. split.
  - intros x. rewrite elem_of_reverse. split; auto.
  - intros i j x y Hx Hy He.
    apply reverse_lookup_Some in Hx as [Hx Hi], Hy as [Hy Hj].
    destruct (Hord _ x y Hx He) as (k & Hk & Hy'). pose proof (NoDup_lookup _ _ _ _ Hnd Hy Hy'). lia.
Qed.

Lemma topological_acyclic S : topological S -> forall x, ~ tc edge x x.
Proof using Type.
  intros (Hnd & Hin & Hord).
  assert (forall x y, tc edge x y -> exists i j, S !! i = Some x /\ S !! j = Some y /\ (i < j)%nat) as Hlt.
  { intros x y. induction 1 as [x y He|x y z He _ (i & j & Hy & Hz & Hij)].
    - pose proof He as (_ & _ & Hx'%Hin%list_elem_of_lookup & Hy'%Hin%list_elem_of_lookup).
      destruct Hx' as [i Hi], Hy' as [j Hj]. exists i, j. eauto.
    - pose proof He as (_ & _ & Hx'%Hin%list_elem_of_lookup & _). destruct Hx' as [k Hk].
      exists k, j. split; [done|]. split; [done|]. pose proof (Hord _ _ _ _ Hk Hy He). lia. }
  intros x (i & j & Hi & Hj & Hij)%Hlt. pose proof (NoDup_lookup _ _ _ _ Hnd Hi Hj). lia.
Qed.

Lemma topoSort_ok :
  match topoSort items (fun x => Ok (c x)) with
  | Ok (inl l) => topological l
  | Ok (inr cy) => cycle_ok cy
  | Throw _ => False
  end.
Proof using Type.
  unfold topoSort.
  assert (good_dfs (mkDfs [] ∅ ∅)) as Hg.
  { split; cbn [sorted visited parents]; try set_solver. split; [constructor|]. split; [set_solver|done]. }
  pose proof (visit_items_ok (S (S (length items))) items _ Hg eq_refl ltac:(done) ltac:(lia)) as Hv.
  destruct (visit_items _ _ _ _ _) as [[st' [cy|]]|]; cbn [mbind result_bind]; [done| |done].
  destruct Hv as [(Hg' & _) Hall]. apply topological_reverse; [apply Hg'|done].
Qed.
End topoSort_spec.

(** C29: [topoSort] returns the items once each, every item before those it
    refers to, or a cycle: a parent with an edge to an item that leads back
    to it, self-references aside.  So it sorts exactly the acyclic graphs,
    and the depth it recurses to is bounded by the number of items. *)
Theorem topoSort_spec {T} `{Countable T} (items : list T) (c : T -> list T) :
  ((exists l, topoSort items (fun x => Ok (c x)) = Ok (inl l) /\ topological items c l) /\
   (forall x, ~ tc (edge items c) x x)) \/
  (exists cy, topoSort items (fun x => Ok (c x)) = Ok (inr cy) /\
     edge items c (cy_parent cy) (cy_path cy) /\ rtc (edge items c) (cy_path cy) (cy_parent cy)).
Proof.
  pose proof (topoSort_ok items c) as Hok. destruct (topoSort _ _) as [[l|cy]|]; [left|right|done].
  - split; [by exists l|]. by eapply topological_acyclic.
  - exists cy. split; [done|]. apply Hok.
Qed.

(** ** [computeClosure]

    [posted] holds the handlers given to the strand and the coroutines that
    wait for their edges.  The step relation runs any of them: every order
    that the event loop and the completion of the requests allow is covered.
    A handler runs to its end, because all run on one strand. *)

Lemma size_remove `{Countable T} (U X : gset T) x :
  x ∈ U -> x ∉ X -> size (U ∖ X) = S (size (U ∖ ({[x]} ∪ X))).
Proof.
  intros Hx Hn. replace (U ∖ X) with ({[x]} ∪ (U ∖ ({[x]} ∪ X))).
  - rewrite size_union, size_singleton by set_solver. done.
  - apply set_eq. intros y. destruct (decide (y = x)); set_solver.
Qed.

Module Closure.
Section computeClosure.
Context {T : Type} `{Countable T}.

Inductive handler :=
  | HStart
  | HWork (elt : T)
  | HSpawn (next : T)
  | HComplete (ex : option exn).

(** The [State] object; [handed] are the calls of [handler]. *)
Record State := mkState {
  res : gset T;
  pending : nat;
  inFlight : nat;
  todo : list T;
  error : option exn;
  posted : list handler;
  handed : list (option exn);
}.

Definition maxConcurrent : nat := 1024.

Context (startElts : gset T) (getEdges : T -> result (gset T)).

Definition complete (ex : option exn) (st : State) : State :=
  mkState (res st) (pending st) (inFlight st) (todo st) (error st) (posted st ++ [HComplete ex]) (handed st).

Definition fail (ex : exn) (st : State) : State :=
  mkState (res st) (pending st) (inFlight st) (todo st)
    (match error st with Some e => Some e | None => Some ex end) (posted st) (handed st).

Definition spawnWorker (elt : T) (st : State) : State :=
  mkState (res st) (pending st) (S (inFlight st)) (todo st) (error st) (posted st ++ [HWork elt]) (handed st).

(** [enqueue(const T &)] *)
Definition enqueue (st : State) (elt : T) : State :=
  match error st with
  | Some _ => st
  | None =>
      if bool_decide (elt ∈ res st) then st
      else
        let st := mkState ({[elt]} ∪ res st) (S (pending st)) (inFlight st) (todo st) (error st) (posted st) (handed st) in
        if (inFlight st <? maxConcurrent)%nat then spawnWorker elt st
        else mkState (res st) (pending st) (inFlight st) (todo st ++ [elt]) (error st) (posted st) (handed st)
  end.
(** [enqueue(const std::set<T> &)] *)
Definition enqueue_all (elts : gset T) (st : State) : State := foldl enqueue st (elements elts).

Definition onWorkDone (st : State) : State :=
  let st := mkState (res st) (pending st - 1) (inFlight st - 1) (todo st) (error st) (posted st) (handed st) in
  match todo st, error st with
  | next :: todo', None =>
      mkState (res st) (pending st) (inFlight st) todo' (error st) (posted st ++ [HSpawn next]) (handed st)
  | _, _ =>
      let st := match error st with
                | Some _ => mkState (res st) (pending st - length (todo st)) (inFlight st) [] (error st) (posted st) (handed st)
                | None => st
                end in
      if (pending st =? 0)%nat then complete (error st) st else st
  end.

Definition run_handler (h : handler) (st : State) : State :=
  match h with
  | HStart => enqueue_all startElts st
  | HWork elt =>
      onWorkDone (match getEdges elt with
                  | Ok edges => enqueue_all edges st
                  | Throw e => fail e st
                  end)
  | HSpawn next => spawnWorker next st
  | HComplete ex =>
      mkState (res st) (pending st) (inFlight st) (todo st) (error st) (posted st) (handed st ++ [ex])
  end.

Definition unpost (st : State) (posted' : list handler) : State :=
  mkState (res st) (pending st) (inFlight st) (todo st) (error st) posted' (handed st).

Inductive step : State -> State -> Prop :=
  | step_run st l1 h l2 : posted st = l1 ++ h :: l2 -> step st (run_handler h (unpost st (l1 ++ l2))).

(** The initiator. *)
Definition start (res0 : gset T) : State :=
  let st := mkState res0 0 0 [] None [] [] in
  if bool_decide (startElts = ∅) then complete None st
  else mkState res0 0 0 [] None [HStart] [].

(** The synchronous [computeClosure]: [ctx.run()] returns when no handler is
    left, and the exception handed over last, if any, is thrown. *)
Inductive computeClosure (res0 : gset T) : result (gset T) -> Prop :=
  | closure_returns st :
      rtc step (start res0) st -> posted st = [] ->
      computeClosure res0
        (match last (handed st) with Some (Some e) => Throw e | _ => Ok (res st) end).
End computeClosure.
Arguments handler : clear implicits.
Arguments State _ {_ _}.

(** The run that takes the handlers first in, first out. *)
Fixpoint run_fifo {T} `{Countable T} (startElts : gset T) getEdges (n : nat) (st : State T) : State T :=
  match n, posted st with
  | S n, h :: l => run_fifo startElts getEdges n (run_handler startElts getEdges h (unpost st l))
  | _, _ => st
  end.

Lemma run_fifo_rtc {T} `{Countable T} (startElts : gset T) getEdges n st :
  rtc (step startElts getEdges) st (run_fifo startElts getEdges n st).
Proof.
  revert st; induction n as [|n IH]; intros st; cbn [run_fifo]; [done|].
  destruct (posted st) as [|h l] eqn:Hp; [done|]. eapply rtc_l; [|apply IH].
  by apply (step_run startElts getEdges st [] h l).
Qed.

(** *** Correctness *)

Section enqueued.
Context {T : Type} `{Countable T}.

(** What a sequence of calls of [enqueue] keeps: [l] are the handlers posted
    besides [HWork], and one worker may be running. *)
Definition enqueued (st st' : State T) (elts : list T) : Prop :=
  error st' = error st /\ handed st' = handed st /\
  (exists new, posted st' = posted st ++ (HWork <$> new) /\ inFlight st' = (inFlight st + length new)%nat /\
     exists later, todo st' = todo st ++ later /\
       pending st' = (pending st + length new + length later)%nat /\
       (later <> [] -> (maxConcurrent <= inFlight st')%nat) /\
       res st' = res st ∪ list_to_set (new ++ later) /\
       (forall x, x ∈ new ++ later -> x ∈ elts /\ x ∉ res st)) /\
  (error st = None -> forall x, x ∈ elts -> x ∈ res st').

Lemma enqueued_refl st : enqueued st st [].
Proof using Type.
  split; [done|]. split; [done|]. split; [|set_solver].
  exists []. rewrite app_nil_r. split; [done|]. split; [simpl; lia|]. exists [].
  rewrite app_nil_r. split; [done|]. split; [simpl; lia|]. split; [done|]. split; [set_solver|]. set_solver.
Qed.

Lemma enqueue_enqueued st x : enqueued st (enqueue st x) [x].
Proof using Type.
  unfold enqueue. destruct (error st) eqn:He.
  { split; [done|]. split; [done|]. split; [|congruence]. destruct (enqueued_refl st) as (_ & _ & Hx & _).
    destruct Hx as (new & H1 & H2 & later & H3 & H4 & H5 & H6 & H7). exists new. split; [done|]. split; [done|].
    exists later. repeat (split; [done|]). set_solver. }
  case_bool_decide as Hin.
  - split; [done|]. split; [done|]. split; [|set_solver].
    exists []. rewrite app_nil_r. split; [done|]. split; [simpl; lia|]. exists [].
    rewrite app_nil_r. split; [done|]. split; [simpl; lia|]. split; [done|]. split; [set_solver|]. set_solver.
  - cbn [inFlight]. destruct (Nat.ltb_spec (inFlight st) maxConcurrent) as [Hlt|Hge];
      (split; [done|]); (split; [done|]); (split; [|cbn; set_solver]);
      cbn [spawnWorker posted inFlight todo pending res].
    + exists [x]. split; [done|]. split; [simpl; lia|]. exists []. rewrite app_nil_r.
      split; [done|]. split; [simpl; lia|]. split; [done|]. split; set_solver.
    + exists []. rewrite app_nil_r. split; [done|]. split; [simpl; lia|]. exists [x].
      split; [done|]. split; [simpl; lia|]. split; [done|]. split; set_solver.
Qed.

Lemma enqueued_trans st st1 st2 xs ys :
  enqueued st st1 xs -> enqueued st1 st2 ys -> enqueued st st2 (xs ++ ys).
Proof using Type.
  intros (He1 & Hh1 & (n1 & Hp1 & Hi1 & l1 & Ht1 & Hn1 & Hl1 & Hr1 & Hx1) & Ha1)
         (He2 & Hh2 & (n2 & Hp2 & Hi2 & l2 & Ht2 & Hn2 & Hl2 & Hr2 & Hx2) & Ha2).
  split; [congruence|]. split; [congruence|]. split.
  - exists (n1 ++ n2). rewrite fmap_app, app_assoc, length_app. split; [by rewrite Hp2, Hp1|]. split; [lia|].
    exists (l1 ++ l2). rewrite app_assoc, length_app. split; [by rewrite Ht2, Ht1|]. split; [lia|]. split.
    { intros Hne. destruct l2 as [|y l2]; [|by apply Hl2]. rewrite app_nil_r in Hne. specialize (Hl1 Hne). lia. }
    split; [rewrite Hr2, Hr1; set_solver|]. set_solver.
  - intros He x [Hx|Hx]%elem_of_app; [rewrite Hr2; specialize (Ha1 He x Hx); set_solver|].
    apply Ha2; [congruence|done].
Qed.

Lemma enqueue_all_enqueued st elts : enqueued st (enqueue_all elts st) (elements elts).
Proof using Type.
  unfold enqueue_all. generalize (elements elts) as l. intros l. revert st.
  induction l as [|x l IH]; intros st; cbn [foldl]; [apply enqueued_refl|].
  apply (enqueued_trans _ (enqueue st x) _ [x]); [apply enqueue_enqueued|apply IH].
Qed.

Lemma enqueue_res (st : State T) x : res st ⊆ res (enqueue st x).
Proof using Type.
  unfold enqueue. destruct (error st); [done|]. case_bool_decide; [done|].
  destruct (_ <? _)%nat; cbn; set_solver.
Qed.

End enqueued.

Section closure_spec.
Context {T : Type} `{Countable T} (startElts : gset T) (getEdges : T -> result (gset T)) (res0 : gset T).

(** The elements to be found: those reachable from the start without
    passing through what the result held before. *)
Inductive reached : T -> Prop :=
  | reached_start x : x ∈ startElts -> x ∉ res0 -> reached x
  | reached_edge x es y : reached x -> getEdges x = Ok es -> y ∈ es -> y ∉ res0 -> reached y.

Definition is_work (h : handler T) : bool := match h with HWork _ => true | _ => false end.
Definition works (l : list (handler T)) : nat := length (filter (fun h => is_work h = true) l).

(** The element a handler is there for. *)
Definition elt_of (h : handler T) : option T :=
  match h with HWork x | HSpawn x => Some x | _ => None end.

Definition live (st : State T) (x : T) : Prop :=
  x ∈ todo st \/ exists h, h ∈ posted st /\ elt_of h = Some x.

(** The elements found so far: all are reachable, and each is waiting, is
    being expanded ([Y]) or has been expanded; once an error is noted the
    waiting may be dropped. *)
Record found (Y : gset T) (st : State T) : Prop := {
  f_res0 : res0 ⊆ res st;
  f_reached : forall x, x ∈ res st -> x ∈ res0 \/ reached x;
  f_live : forall x, live st x -> x ∈ res st /\ reached x;
  f_expanded : error st = None -> forall x, x ∈ res st ->
    x ∈ res0 \/ live st x \/ x ∈ Y \/ exists es, getEdges x = Ok es /\ es ⊆ res st;
  f_error : forall e, error st = Some e -> exists x, reached x /\ getEdges x = Throw e;
}.

(** The counters. *)
Record counted (st : State T) : Prop := {
  c_elts : forall h, h ∈ posted st -> is_Some (elt_of h);
  c_inFlight : inFlight st = works (posted st);
  c_pending : pending st = (length (posted st) + length (todo st))%nat;
  c_todo : todo st <> [] -> posted st <> [];
  c_handed : handed st = [];
}.

Inductive phase (st : State T) : Prop :=
  | ph_start :
      st = mkState res0 0 0 [] None [HStart] [] -> startElts <> ∅ -> phase st
  | ph_running :
      counted st -> posted st <> [] -> found ∅ st -> (error st = None -> startElts ⊆ res st) -> phase st
  | ph_completed ex :
      posted st = [HComplete ex] /\ handed st = [] \/ posted st = [] /\ handed st = [ex] ->
      todo st = [] -> ex = error st -> found ∅ st -> (error st = None -> startElts ⊆ res st) -> phase st
  | ph_unheard :
      posted st = [] -> handed st = [] -> res st = res0 -> startElts <> ∅ -> startElts ⊆ res0 -> phase st.

Lemma works_app l1 l2 : works (l1 ++ l2) = (works l1 + works l2)%nat.
Proof using Type. unfold works. by rewrite filter_app, length_app. Qed.

Lemma works_le l : (works l <= length l)%nat.
Proof using Type. apply length_filter. Qed.

(** Adding elements keeps what is known of the elements found. *)
Lemma enqueued_found Y st st' elts :
  (forall x, x ∈ elts -> x ∈ res0 \/ reached x) -> enqueued st st' elts -> found Y st -> found Y st'.
Proof using Type.
  intros Hel (He & _ & (new & Hp & _ & later & Ht & _ & _ & Hr & Hx) & _) [H1 H2 H3 H4 H5].
  assert (forall x, x ∈ new ++ later -> reached x) as Hnew.
  { intros x [Hx1 Hx2]%Hx. destruct (Hel x Hx1); [set_solver|done]. }
  assert (forall x, live st x -> live st' x) as Hlive.
  { intros x [Hl|(h & Hh & Hhx)]; [left; rewrite Ht; set_solver|right].
    exists h. rewrite Hp. set_solver. }
  assert (forall x, x ∈ new ++ later -> live st' x) as Hlnew.
  { intros x [Hn|Hl]%elem_of_app; [right|left; rewrite Ht; set_solver].
    exists (HWork x). split; [|done]. rewrite Hp. apply elem_of_app. right. by apply list_elem_of_fmap_2. }
  split.
  - rewrite Hr. set_solver.
  - intros x. rewrite Hr, elem_of_union, elem_of_list_to_set. intros [?|?]; auto.
  - intros x. rewrite Hr. intros [Hl|(h & Hh & Hhx)].
    + rewrite Ht in Hl. apply elem_of_app in Hl as [Hl|Hl].
      * destruct (H3 x) as [? ?]; [by left|set_solver].
      * split; [set_solver|]. apply Hnew. set_solver.
    + rewrite Hp in Hh. apply elem_of_app in Hh as [Hh|(y & -> & Hy)%list_elem_of_fmap].
      * destruct (H3 x) as [? ?]; [right; eauto|set_solver].
      * cbn in Hhx. simplify_eq. split; [set_solver|]. apply Hnew. set_solver.
  - rewrite He. intros Hne x. rewrite Hr, elem_of_union, elem_of_list_to_set. intros [Hin|Hin]; [|auto].
    destruct (H4 Hne x Hin) as [?|[?|[?|(es & ? & ?)]]]; [auto..|]. right; right; right. exists es. set_solver.
  - intros e. rewrite He. apply H5.
Qed.

(** A handler that starts to run stops being posted. *)
Lemma found_unpost Y st l1 h l2 :
  posted st = l1 ++ h :: l2 -> found Y st ->
  found (match elt_of h with Some x => {[x]} ∪ Y | None => Y end) (unpost st (l1 ++ l2)).
Proof using Type.
  intros Hp [H1 H2 H3 H4 H5].
  assert (forall x, live (unpost st (l1 ++ l2)) x -> live st x) as Hl.
  { intros x [Hl|(k & Hk & Hx)]; [by left|right]. exists k. rewrite Hp. cbn in Hk. set_solver. }
  split; cbn [unpost res error]; auto.
  intros He x Hx. destruct (H4 He x Hx) as [?|[[Ht|(k & Hk & Hkx)]|[?|?]]]; auto.
  - right; left. by left.
  - rewrite Hp in Hk. rewrite elem_of_app, elem_of_cons in Hk. destruct Hk as [Hk|[->|Hk]].
    + right; left; right. exists k. cbn. set_solver.
    + rewrite Hkx. set_solver.
    + right; left; right. exists k. cbn. set_solver.
  - right; right; left. destruct (elt_of h); set_solver.
Qed.

Lemma found_expanded x st :
  found {[x]} st -> (error st = None -> exists es, getEdges x = Ok es /\ es ⊆ res st) -> found ∅ st.
Proof using Type.
  intros [H1 H2 H3 H4 H5] Hx. split; auto. intros He y Hy.
  destruct (H4 He y Hy) as [?|[?|[->%elem_of_singleton|?]]]; auto.
Qed.

(** Elements that wait may move between the queue and the handlers. *)
Lemma found_live Y st st' :
  res st' = res st -> error st' = error st ->
  (forall x, live st' x -> live st x) -> (error st = None -> forall x, live st x -> live st' x) ->
  found Y st -> found Y st'.
Proof using Type.
  intros Hr He Hl Hl' [H1 H2 H3 H4 H5]. split; rewrite ?Hr, ?He; auto.
  intros Hn x Hx. destruct (H4 Hn x Hx) as [?|[?|[?|?]]]; auto.
Qed.

(** The state in which a worker has enqueued what it found. *)
Record worked (st : State T) : Prop := {
  w_elts : forall h, h ∈ posted st -> is_Some (elt_of h);
  w_inFlight : inFlight st = S (works (posted st));
  w_pending : pending st = S (length (posted st) + length (todo st))%nat;
  w_handed : handed st = [];
}.

Lemma onWorkDone_phase st :
  worked st -> found ∅ st -> (error st = None -> startElts ⊆ res st) -> phase (onWorkDone st).
Proof using Type.
  intros [W1 W2 W3 W4] Hf Hs. unfold onWorkDone. cbn [todo error pending res inFlight posted handed].
  assert (pending st - 1 = length (posted st) + length (todo st))%nat as Hp by lia.
  destruct (error st) as [e|] eqn:He.
  - match goal with |- phase ?X => replace X with
      (if (length (posted st) =? 0)%nat
       then complete (Some e) (mkState (res st) (length (posted st)) (inFlight st - 1) [] (Some e) (posted st) (handed st))
       else mkState (res st) (length (posted st)) (inFlight st - 1) [] (Some e) (posted st) (handed st)) end.
    2: { replace (length (posted st)) with (pending st - 1 - length (todo st))%nat by lia. by destruct (todo st). }
    destruct (Nat.eqb_spec (length (posted st)) 0) as [H0|H0].
    + apply nil_length_inv in H0. apply (ph_completed _ (Some e)); cbn [complete posted handed todo error]; auto.
      { left. by rewrite H0. }
      apply (found_live ∅ st); [done|by try rewrite He| | |exact Hf]; cbn [complete todo posted error]; [|congruence].
      intros x [Hx|(h & Hh & Hx)]; [set_solver|right]. cbn in Hh. rewrite H0 in Hh. set_solver.
    + apply ph_running; cbn [posted]; [|by destruct (posted st)| |done].
      * split; cbn [posted inFlight pending todo handed length]; auto; first [lia|done].
      * apply (found_live ∅ st); [done|by try rewrite He| | |exact Hf]; cbn [todo posted error]; [|congruence].
        intros x [Hx|Hx]; [set_solver|by right].
  - destruct (todo st) as [|next todo'] eqn:Ht; cbn [length] in *; cbn [pending].
    + destruct (Nat.eqb_spec (pending st - 1) 0) as [H0|H0].
      * assert (posted st = []) as Hn by (apply nil_length_inv; lia).
        apply (ph_completed _ None); cbn [complete posted handed todo error]; auto.
        { left. by rewrite Hn. }
        apply (found_live ∅ st); [done|by try rewrite He| | |exact Hf]; cbn [complete todo posted error].
        -- intros x [Hx|(h & Hh & Hx)]; [set_solver|right]. cbn in Hh. rewrite Hn in Hh. set_solver.
        -- intros _ x [Hx|(h & Hh & Hx)]; [rewrite Ht in Hx; set_solver|]. rewrite Hn in Hh. set_solver.
      * apply ph_running; cbn [posted]; [split; cbn [posted inFlight pending todo handed length]; auto; first [lia|done]|destruct (posted st); simpl in *; [lia|done]| |done].
        apply (found_live ∅ st); [done|by try rewrite He| | |exact Hf]; cbn [todo posted error]; intros; unfold live in *; cbn in *;
          rewrite Ht in *; auto.
    + apply ph_running; cbn [posted]; [split; cbn [posted inFlight pending todo handed]| | |done].
      * intros h [Hh|Hh]%elem_of_app; [auto|]. apply list_elem_of_singleton in Hh as ->. by eexists.
      * rewrite works_app. change (works [HSpawn next]) with 0%nat. lia.
      * rewrite length_app. cbn [length]. lia.
      * intros _. by destruct (posted st).
      * done.
      * by destruct (posted st).
      * apply (found_live ∅ st); [done|by try rewrite He| | |exact Hf]; unfold live; cbn [todo posted error]; rewrite Ht.
        -- intros x [Hx|(h & Hh & Hx)]; [left; by right|].
           apply elem_of_app in Hh as [Hh|Hh]; [right; eauto|]. apply list_elem_of_singleton in Hh as ->.
           cbn in Hx. simplify_eq. left. left.
        -- intros _ x [Hx|(h & Hh & Hx)]; [|right; exists h; set_solver].
           apply elem_of_cons in Hx as [->|Hx]; [|by left]. right. exists (HSpawn next). set_solver.
Qed.

Lemma works_cons h l : works (h :: l) = ((if is_work h then 1 else 0) + works l)%nat.
Proof using Type. unfold works. rewrite filter_cons. by destruct (is_work h). Qed.

Lemma works_fmap l : works (HWork <$> l) = length l.
Proof using Type. induction l as [|x l IH]; [done|]. rewrite fmap_cons, works_cons, IH. done. Qed.

(** A worker that got its edges. *)
Lemma run_work_phase st l1 x l2 :
  counted st -> posted st = l1 ++ HWork x :: l2 -> found ∅ st -> (error st = None -> startElts ⊆ res st) ->
  phase (run_handler startElts getEdges (HWork x) (unpost st (l1 ++ l2))).
Proof using Type.
  intros [C1 C2 C3 C4 C5] Hp Hf Hs. cbn [run_handler].
  pose proof (found_unpost ∅ st l1 (HWork x) l2 Hp Hf) as Hf1. cbn [elt_of] in Hf1.
  assert (live st x) as Hx by (right; exists (HWork x); rewrite Hp; set_solver).
  apply (f_live _ _ Hf) in Hx as [Hxr Hx]. rewrite Hp in C2, C3.
  rewrite works_app, works_cons in C2. rewrite length_app in C3. cbn [is_work length] in *.
  assert (forall h, h ∈ l1 ++ l2 -> is_Some (elt_of h)) as Hel by (intros h Hh; apply C1; rewrite Hp; set_solver).
  destruct (getEdges x) as [es|e] eqn:He.
  - pose proof (enqueue_all_enqueued (unpost st (l1 ++ l2)) es) as Hq.
    pose proof Hq as (Q1 & Q2 & (new & Q3 & Q4 & later & Q5 & Q6 & Q7 & Q8 & Q9) & Q10).
    cbn [unpost error handed posted inFlight todo pending res] in *.
    apply onWorkDone_phase.
    + split; rewrite ?Q2, ?Q3, ?Q4, ?Q5, ?Q6, ?works_app, ?length_app, ?length_fmap, ?works_fmap; [|lia|lia|done].
      intros h [Hh|(y & -> & _)%list_elem_of_fmap]%elem_of_app; [by apply Hel|by eexists].
    + apply (found_expanded x).
      * rewrite (left_id_L ∅ (∪)) in Hf1 || rewrite (right_id_L ∅ (∪)) in Hf1.
        eapply enqueued_found; [|exact Hq|exact Hf1]. intros y Hy%elem_of_elements.
        destruct (decide (y ∈ res0)); [by left|right]. by eapply reached_edge.
      * intros Hn. exists es. split; [done|]. intros y Hy. apply Q10; [congruence|]. by apply elem_of_elements.
    + intros Hn. rewrite Q8. specialize (Hs ltac:(congruence)). set_solver.
  - apply onWorkDone_phase.
    + split; cbn [fail unpost posted inFlight pending todo handed]; rewrite ?works_app, ?length_app; auto; lia.
    + rewrite (right_id_L ∅ (∪)) in Hf1. destruct Hf1 as [F1 F2 F3 F4 F5].
      apply (found_expanded x); cbn [fail unpost error]; [|by destruct (error st)].
      split; cbn [fail unpost res error] in *; auto; [by destruct (error st)|].
      intros e'. destruct (error st); [by apply F5|]. intros [= <-]. eauto.
    + cbn [fail unpost error res]. by destruct (error st).
Qed.

Lemma run_spawn_phase st l1 x l2 :
  counted st -> posted st = l1 ++ HSpawn x :: l2 -> found ∅ st -> (error st = None -> startElts ⊆ res st) ->
  phase (run_handler startElts getEdges (HSpawn x) (unpost st (l1 ++ l2))).
Proof using Type.
  intros [C1 C2 C3 C4 C5] Hp Hf Hs. cbn [run_handler spawnWorker unpost].
  apply ph_running; [|by destruct l1, l2| |done].
  - rewrite Hp in C2, C3. rewrite works_app, works_cons in C2. rewrite length_app in C3. cbn [is_work length] in *.
    split; cbn [spawnWorker unpost posted inFlight pending todo handed]; auto.
    + intros h [Hh|Hh%list_elem_of_singleton]%elem_of_app; [|subst; by eexists].
      apply C1. rewrite Hp. set_solver.
    + rewrite !works_app. change (works [HWork x]) with 1%nat. lia.
    + rewrite !length_app. cbn [length]. lia.
    + intros _. by destruct l1, l2.
  - apply (found_live ∅ st); [done|done| | |exact Hf]; unfold live; cbn [todo posted spawnWorker unpost]; rewrite Hp.
    + intros y [Hy|(h & Hh & Hy)]; [by left|right]. rewrite elem_of_app, list_elem_of_singleton in Hh.
      destruct Hh as [Hh| ->]; [exists h; set_solver|]. exists (HSpawn x). set_solver.
    + intros _ y [Hy|(h & Hh & Hy)]; [by left|right]. rewrite elem_of_app, elem_of_cons in Hh.
      destruct Hh as [Hh|[->|Hh]]; [exists h; set_solver|exists (HWork x); set_solver|exists h; set_solver].
Qed.

Lemma run_start_phase st :
  st = mkState res0 0 0 [] None [] [] -> startElts <> ∅ -> phase (run_handler startElts getEdges HStart st).
Proof using Type.
  intros -> Hne. cbn [run_handler].
  pose proof (enqueue_all_enqueued (mkState res0 0 0 [] None [] []) startElts) as Hq.
  pose proof Hq as (Q1 & Q2 & (new & Q3 & Q4 & later & Q5 & Q6 & Q7 & Q8 & Q9) & Q10).
  cbn [error handed posted inFlight todo pending res app] in *.
  assert (startElts ⊆ res (enqueue_all startElts (mkState res0 0 0 [] None [] []))) as Hs.
  { intros x Hx. apply Q10; [done|]. by apply elem_of_elements. }
  assert (found ∅ (enqueue_all startElts (mkState res0 0 0 [] None [] []))) as Hf.
  { eapply enqueued_found; [|exact Hq|].
    - intros y Hy%elem_of_elements. destruct (decide (y ∈ res0)); [by left|right]. by apply reached_start.
    - split; cbn; auto; [|by intros e].
      intros x [Hx|(h & Hh & _)]; set_solver. }
  destruct (decide (new = [])) as [->|Hn].
  - assert (later = []) as ->.
    { destruct later; [done|]. specialize (Q7 ltac:(done)). rewrite Q4 in Q7. cbn in Q7. unfold maxConcurrent in Q7. lia. }
    apply ph_unheard; [by rewrite Q3|done| |done|].
    + rewrite Q8. cbn. by rewrite (right_id_L ∅ (∪)).
    + rewrite Q8 in Hs. cbn in Hs. by rewrite (right_id_L ∅ (∪)) in Hs.
  - apply ph_running; [split|rewrite Q3; by destruct new|done|done].
    + rewrite Q3. intros h (y & -> & _)%list_elem_of_fmap. by eexists.
    + rewrite Q4, Q3, works_fmap. done.
    + rewrite Q6, Q3, Q5, length_fmap. done.
    + intros _. rewrite Q3. by destruct new.
    + done.
Qed.

Lemma step_phase st st' : phase st -> step startElts getEdges st st' -> phase st'.
Proof using Type.
  intros Hph Hst. destruct Hst as [st l1 h l2 Hp].
  destruct Hph as [-> Hne|Hc Hne Hf Hs|ex [[Hpo Hh]|[Hpo Hh]] Ht -> Hf Hs|Hpo _ _ _ _]; cbn [posted] in *.
  - destruct l1 as [|? []]; cbn in Hp; simplify_eq. by apply run_start_phase.
  - assert (h ∈ posted st) as [x Hx]%(c_elts _ Hc) by (rewrite Hp; set_solver).
    destruct h; cbn in Hx; simplify_eq; [by apply run_work_phase|by apply run_spawn_phase].
  - rewrite Hpo in Hp. destruct l1 as [|? []]; cbn in Hp; simplify_eq. cbn [app].
    apply (ph_completed _ (error st)); cbn [run_handler unpost posted handed todo error]; auto.
    + right. by rewrite Hh.
    + apply (found_live ∅ st); [done|done| | |exact Hf]; unfold live; cbn [todo posted]; rewrite Hpo; [|intros _];
        intros x [Hx|(h & Hh' & Hx)]; [by left|set_solver|by left|]. apply list_elem_of_singleton in Hh' as ->. done.
  - rewrite Hpo in Hp. by destruct l1.
  - rewrite Hpo in Hp. by destruct l1.
Qed.

Lemma start_phase : phase (start startElts res0).
Proof using Type.
  unfold start. case_bool_decide as Hs; [|by apply ph_start].
  apply (ph_completed _ None); cbn; auto; [|set_solver].
  split; cbn; auto; [|by intros e]. intros x [Hx|(h & Hh & Hx)]; [set_solver|].
  apply list_elem_of_singleton in Hh as ->. done.
Qed.

Lemma reachable_phase st : rtc (step startElts getEdges) (start startElts res0) st -> phase st.
Proof using Type.
  intros Hr. pose proof start_phase as Hs. induction Hr as [|x y z Hxy _ IH]; [done|].
  by eapply IH, step_phase.
Qed.

(** The elements found when no handler is left and no error was noted. *)
Lemma found_all st :
  found ∅ st -> posted st = [] -> todo st = [] -> error st = None -> startElts ⊆ res st ->
  (forall x, x ∈ res st <-> x ∈ res0 \/ reached x) /\ (forall x, reached x -> exists es, getEdges x = Ok es).
Proof using Type.
  intros [H1 H2 _ H4 _] Hp Ht He Hs.
  assert (forall x, reached x -> x ∈ res st) as Hin.
  2: { split; [intros x; split; [apply H2|]; intros [?|?]; [set_solver|auto]|].
       intros x Hx. destruct (H4 He x (Hin x Hx)) as [Hr|[Hl|[?|(es & Hes & _)]]];
         [|destruct Hl as [Hl|(h & Hl & _)]|set_solver|by exists es].
       - exfalso. revert Hr. by destruct Hx.
       - rewrite Ht in Hl. set_solver.
       - rewrite Hp in Hl. set_solver. }
  intros x Hx.
  induction Hx as [x Hx _|x es y Hx IH Hes Hy Hn]; [set_solver|].
  destruct (H4 He x IH) as [Hin|[Hl|[?|(es' & He' & Hsub)]]]; [|destruct Hl as [Hl|(h & Hl & _)]|set_solver|].
  - exfalso. revert Hin. by destruct Hx.
  - rewrite Ht in Hl. set_solver.
  - rewrite Hp in Hl. set_solver.
  - rewrite Hes in He'. injection He' as ->. by apply Hsub.
Qed.

Lemma reached_none x : startElts ⊆ res0 -> ~ reached x.
Proof using Type. intros Hs. induction 1; set_solver. Qed.

(** When no handler is left, the completion handler has been called once,
    unless nothing was there to be done. *)
Lemma terminal_handed st :
  phase st -> posted st = [] ->
  handed st = [error st] /\ todo st = [] /\ found ∅ st /\ (error st = None -> startElts ⊆ res st) \/
  handed st = [] /\ res st = res0 /\ startElts ⊆ res0 /\ startElts <> ∅.
Proof using Type.
  intros [-> _|_ Hne _ _|ex [[Hpo _]|[_ Hh]] Ht -> Hf Hs|_ Hh Hr Hne Hs] Hp; cbn in *; simplify_eq; try congruence;
    [left|right]; auto.
Qed.

Lemma computeClosure_ok r :
  computeClosure startElts getEdges res0 r ->
  match r with
  | Ok X => (forall x, x ∈ X <-> x ∈ res0 \/ reached x) /\ (forall x, reached x -> exists es, getEdges x = Ok es)
  | Throw e => exists x, reached x /\ getEdges x = Throw e
  end.
Proof using Type.
  intros [st Hr Hp]. apply reachable_phase in Hr.
  destruct (terminal_handed st Hr Hp) as [(-> & Ht & Hf & Hs)|(-> & -> & Hs & _)]; cbn [last].
  - destruct (error st) as [e|] eqn:He; [by apply (f_error _ _ Hf)|]. apply found_all; auto.
  - split; [|by intros x ?%reached_none]. intros x. split; [by left|]. intros [?|?%reached_none]; done.
Qed.

Lemma reachable_untouched st :
  startElts <> ∅ -> startElts ⊆ res0 -> rtc (step startElts getEdges) (start startElts res0) st -> handed st = [].
Proof using Type.
  intros Hne Hs Hr. unfold start in Hr. rewrite bool_decide_false in Hr by done.
  assert (enqueue_all startElts (mkState res0 0 0 [] None [] []) = mkState res0 0 0 [] None [] []) as He.
  { unfold enqueue_all. assert (forall x, x ∈ elements startElts -> x ∈ res0) as Hl by set_solver.
    induction (elements startElts) as [|x l IH]; [done|]. cbn [foldl]. unfold enqueue at 2. cbn [error res].
    rewrite bool_decide_true by (apply Hl; left). apply IH. intros y Hy. apply Hl. by right. }
  inversion Hr as [|? st1 ? Hst Hr']; subst; [done|]. inversion Hst as [? l1 h l2 Hp]; subst. cbn in Hp.
  destruct l1 as [|? []]; cbn in Hp; simplify_eq. cbn [app run_handler] in Hr'.
  unfold unpost in Hr'; cbn [res pending inFlight todo error handed] in Hr'.
  rewrite He in Hr'. inversion Hr' as [|? ? ? Hst' _]; subst; [done|]. inversion Hst' as [? l1 h l2 Hp']; subst.
  by destruct l1.
Qed.

Lemma closure_handed_iff st :
  rtc (step startElts getEdges) (start startElts res0) st -> posted st = [] ->
  if decide (startElts <> ∅ /\ startElts ⊆ res0) then handed st = [] else exists ex, handed st = [ex].
Proof using Type.
  intros Hr Hp. case_decide as Hd; [by apply (reachable_untouched st); [apply Hd|apply Hd|]|].
  destruct (terminal_handed st (reachable_phase st Hr) Hp) as [(-> & _)|(_ & _ & Hs & Hne)]; [by eexists|].
  by destruct Hd.
Qed.

(** *** Termination *)

Context (U : gset T) (HU : forall x, reached x -> x ∈ U).

Definition weight (h : handler T) : nat :=
  match h with HWork _ => 2 | HSpawn _ => 3 | HStart => 1 | HComplete _ => 1 end.
Definition weights (l : list (handler T)) : nat := foldr (fun h n => weight h + n)%nat 0%nat l.

(** What is left to do. *)
Definition work_left (st : State T) : nat :=
  (5 * size (U ∖ res st) + 4 * length (todo st) + weights (posted st))%nat.

Lemma weights_app l1 l2 : weights (l1 ++ l2) = (weights l1 + weights l2)%nat.
Proof using Type. unfold weights. induction l1 as [|h l1 IH]; [done|]. cbn [app foldr]. rewrite IH. lia. Qed.

Lemma enqueue_work_left st x : (x ∈ res st \/ x ∈ U) -> (work_left (enqueue st x) <= work_left st)%nat.
Proof using Type.
  intros Hx. unfold enqueue. destruct (error st); [done|]. case_bool_decide as Hin; [done|].
  destruct Hx as [?|Hx]; [done|]. cbn [inFlight res pending todo posted error handed].
  assert (size (U ∖ res st) = S (size (U ∖ ({[x]} ∪ res st)))) as Hs by (by apply size_remove).
  destruct (_ <? _)%nat; unfold work_left; cbn [spawnWorker res todo posted];
    rewrite ?weights_app, ?length_app; cbn [weights foldr weight length]; lia.
Qed.

Lemma enqueue_all_work_left st elts :
  (forall x, x ∈ elts -> x ∈ res st \/ x ∈ U) -> (work_left (enqueue_all elts st) <= work_left st)%nat.
Proof using Type.
  intros Hx. unfold enqueue_all.
  assert (forall x, x ∈ elements elts -> x ∈ res st \/ x ∈ U) as Hl by (intros x ?%elem_of_elements; auto).
  revert Hl. generalize (elements elts) as l. intros l. revert st Hx.
  induction l as [|x l IH]; intros st Hx Hl; [done|]. cbn [foldl]. etrans; [apply IH|].
  - intros y Hy. destruct (Hx y Hy); [left|by right]. by apply enqueue_res.
  - intros y Hy. destruct (Hl y ltac:(by right)); [left|by right]. by apply enqueue_res.
  - apply enqueue_work_left, Hl. by left.
Qed.

Lemma onWorkDone_work_left st : (work_left (onWorkDone st) <= S (work_left st))%nat.
Proof using Type.
  unfold onWorkDone, work_left. cbn [todo error].
  destruct (todo st) as [|next todo'], (error st); cbn [pending todo res posted inFlight handed error complete];
    repeat (destruct (_ =? _)%nat; cbn [complete pending todo res posted inFlight handed error]);
    rewrite ?weights_app; cbn [weights foldr weight length]; lia.
Qed.

Lemma phase_found st x : phase st -> HWork x ∈ posted st -> found ∅ st.
Proof using Type.
  intros [-> _|_ _ Hf _|ex _ _ _ Hf _|Hpo _ _ _ _] Hx; [|done|done|].
  - apply list_elem_of_singleton in Hx. done.
  - rewrite Hpo in Hx. by apply not_elem_of_nil in Hx.
Qed.

Lemma step_work_left st st' : phase st -> step startElts getEdges st st' -> (work_left st' < work_left st)%nat.
Proof using HU.
  intros Hph Hst. destruct Hst as [st l1 h l2 Hp].
  assert (work_left st = work_left (unpost st (l1 ++ l2)) + weight h)%nat as ->.
  { unfold work_left; cbn [unpost res todo posted]. rewrite Hp, !weights_app. change (weights (h :: l2)) with (weight h + weights l2)%nat. lia. }
  destruct h as [|x|x|ex]; cbn [run_handler weight].
  - enough (work_left (enqueue_all startElts (unpost st (l1 ++ l2))) <= work_left (unpost st (l1 ++ l2)))%nat by lia.
    apply enqueue_all_work_left. intros x Hx. cbn.
    assert (res0 ⊆ res st) as Hr.
    { destruct Hph as [-> _|_ _ Hf _|ex _ _ _ Hf _|_ _ -> _ _]; [done|apply (f_res0 _ _ Hf)|apply (f_res0 _ _ Hf)|done]. }
    destruct (decide (x ∈ res0)); [set_solver|]. right. by apply HU, reached_start.
  - assert (reached x /\ res0 ⊆ res st) as [Hx Hr].
    { assert (HWork x ∈ posted st) as Hin by (rewrite Hp; set_solver).
      pose proof (phase_found _ _ Hph Hin) as Hf. split; [|apply (f_res0 _ _ Hf)].
      apply (f_live _ _ Hf). right. by exists (HWork x). }
    eapply Nat.le_lt_trans; [apply onWorkDone_work_left|]. destruct (getEdges x) as [es|e] eqn:He.
    + enough (work_left (enqueue_all es (unpost st (l1 ++ l2))) <= work_left (unpost st (l1 ++ l2)))%nat by lia.
      apply enqueue_all_work_left. intros y Hy. cbn. destruct (decide (y ∈ res0)); [set_solver|].
      right. apply HU. by eapply reached_edge.
    + unfold work_left, fail, unpost; cbn [res todo posted]. lia.
  - unfold work_left, spawnWorker, unpost; cbn [res todo posted]. rewrite !weights_app. change (weights [HWork x]) with 2%nat. lia.
  - unfold work_left, unpost; cbn [res todo posted]. lia.
Qed.

Lemma nsteps_work_left n st st' :
  phase st -> nsteps (step startElts getEdges) n st st' -> (n + work_left st' <= work_left st)%nat.
Proof using HU.
  intros Hph Hn. induction Hn as [st|n st1 st2 st3 H12 _ IH]; [lia|].
  pose proof (step_work_left _ _ Hph H12). specialize (IH (step_phase _ _ Hph H12)). lia.
Qed.

Lemma work_left_start : (work_left (start startElts res0) <= 5 * size U + 1)%nat.
Proof using Type.
  assert (size (U ∖ res0) <= size U)%nat by (apply subseteq_size, subseteq_difference_l; done).
  unfold start, work_left. case_bool_decide; cbn; lia.
Qed.

Lemma computeClosure_exists : exists r, computeClosure startElts getEdges res0 r.
Proof using HU.
  assert (forall n st, (work_left st <= n)%nat -> phase st ->
    exists st', rtc (step startElts getEdges) st st' /\ posted st' = []) as Hex.
  { intros n. induction n as [|n IH]; intros st Hn Hph; (destruct (posted st) as [|h l] eqn:Hp; [by exists st|]).
    - unfold work_left in Hn. rewrite Hp in Hn. cbn in Hn. destruct h; cbn in Hn; lia.
    - pose proof (step_run startElts getEdges st [] h l Hp) as Hst.
      pose proof (step_work_left _ _ Hph Hst).
      destruct (IH (run_handler startElts getEdges h (unpost st ([] ++ l)))) as (st' & Hr & Hp');
        [lia|by eapply step_phase|].
      exists st'. split; [|done]. by eapply rtc_l. }
  destruct (Hex _ _ (reflexivity _) start_phase) as (st & Hr & Hp). eexists. by econstructor.
Qed.
End closure_spec.
End Closure.

(** C28: whatever the order in which the event loop runs the handlers and the
    requests complete, [computeClosure] returns the elements the result held
    before and all those reachable from the start without passing through
    them, when the edges of all of these are known, or throws an error that
    the edges of a reachable element gave. *)
Theorem computeClosure_spec {T} `{Countable T} (startElts : gset T) getEdges res0 r :
  Closure.computeClosure startElts getEdges res0 r ->
  match r with
  | Ok X => (forall x, x ∈ X <-> x ∈ res0 \/ Closure.reached startElts getEdges res0 x) /\
            (forall x, Closure.reached startElts getEdges res0 x -> exists es, getEdges x = Ok es)
  | Throw e => exists x, Closure.reached startElts getEdges res0 x /\ getEdges x = Throw e
  end.
Proof. apply Closure.computeClosure_ok. Qed.

Definition example_edges (x : positive) : result (gset positive) :=
  Ok (if decide (x = 3) then {[1]} else {[Pos.succ x]})%positive.

Lemma example_reached x :
  Closure.reached {[1%positive]} example_edges ∅ x ->
  x ∈ ({[1; 2; 3]} : gset positive)%positive.
Proof.
  induction 1 as [x Hx _|x es y _ IH Hes Hy _]; [set_solver|].
  assert (x = 1 \/ x = 2 \/ x = 3)%positive as Hx by (clear -IH; set_solver).
  unfold example_edges in Hes. injection Hes as <-. clear IH.
  destruct Hx as [->|[->| ->]]; [rewrite decide_False in Hy by done|rewrite decide_False in Hy by done|rewrite decide_True in Hy by done];
    apply elem_of_singleton in Hy as ->; set_solver.
Qed.

Definition example_run : Closure.State positive :=
  Closure.run_fifo {[1%positive]} example_edges 20 (Closure.start {[1%positive]} ∅).

Lemma computeClosure_spec_witness :
  Closure.computeClosure {[1%positive]} example_edges ∅ (Ok (Closure.res example_run)) /\
  forall x, x ∈ Closure.res example_run <-> x ∈ (∅ : gset positive) \/ Closure.reached {[1%positive]} example_edges ∅ x.
Proof.
  assert (Closure.computeClosure {[1%positive]} example_edges ∅ (Ok (Closure.res example_run))) as Hc.
  { pose proof (Closure.closure_returns {[1%positive]} example_edges ∅ example_run) as Hr.
    assert (Closure.handed example_run = [None]) as Hh by (vm_compute; reflexivity). rewrite Hh in Hr.
    apply Hr; [apply Closure.run_fifo_rtc|vm_compute; reflexivity]. }
  split; [exact Hc|]. exact (proj1 (computeClosure_spec _ _ _ _ Hc)).
Defined.

(** When the reachable elements are finitely many, [computeClosure]
    terminates: the number of handlers run is at most five times their
    number plus one, and a result exists. *)
Theorem computeClosure_terminates {T} `{Countable T} (startElts : gset T) getEdges res0 (U : gset T) :
  (forall x, Closure.reached startElts getEdges res0 x -> x ∈ U) ->
  (forall n st, nsteps (Closure.step startElts getEdges) n (Closure.start startElts res0) st -> (n <= 5 * size U + 1)%nat) /\
  exists r, Closure.computeClosure startElts getEdges res0 r.
Proof.
  intros HU. split.
  - intros n st Hn. apply (Closure.nsteps_work_left startElts getEdges res0 U HU) in Hn; [|apply Closure.start_phase].
    pose proof (Closure.work_left_start startElts res0 U). lia.
  - by eapply Closure.computeClosure_exists.
Qed.

Lemma computeClosure_terminates_witness :
  exists r, Closure.computeClosure {[1%positive]} example_edges ∅ r.
Proof. exact (proj2 (computeClosure_terminates _ _ ∅ {[1; 2; 3]}%positive example_reached)). Defined.

(** The completion handler of the asynchronous [computeClosure] is called
    exactly once in a run to the end, except when there are start elements
    and the result already holds them all: then it is never called. *)
Theorem closure_completion {T} `{Countable T} (startElts : gset T) getEdges res0 st :
  rtc (Closure.step startElts getEdges) (Closure.start startElts res0) st -> Closure.posted st = [] ->
  if decide (startElts <> ∅ /\ startElts ⊆ res0) then Closure.handed st = []
  else exists ex, Closure.handed st = [ex].
Proof.
  intros Hr Hp. by apply (Closure.closure_handed_iff startElts getEdges).
Qed.

Lemma closure_completion_witness :
  Closure.posted example_run = [] /\ exists ex, Closure.handed example_run = [ex].
Proof.
  assert (Closure.posted example_run = []) as Hp by (vm_compute; reflexivity). split; [exact Hp|].
  pose proof (closure_completion {[1%positive]} example_edges ∅ example_run (Closure.run_fifo_rtc _ _ _ _) Hp) as Hc.
  rewrite decide_False in Hc; [exact Hc|]. intros [_ Hs]. specialize (Hs 1%positive). set_solver.
Defined.

(** *** The rate limit

    [onWorkDone] takes the worker that is done off [inFlight] and only posts
    the next one, so another worker that is resumed first finds room for what
    it enqueues. *)

Definition wide_edges (x : positive) : result (gset positive) :=
  Ok (if (x <? 2000)%positive then {[x + 2000]} else ∅)%positive.
Definition wide_start : gset positive := list_to_set (Pos.of_succ_nat <$> seq 0 1030).

(** Runs the handlers at the given places of the queue. *)
Fixpoint run_at {T} `{Countable T} (startElts : gset T) getEdges (ks : list nat) (st : Closure.State T)
    : Closure.State T :=
  match ks with
  | [] => st
  | k :: ks =>
      match Closure.posted st !! k with
      | Some h =>
          run_at startElts getEdges ks
            (Closure.run_handler startElts getEdges h
               (Closure.unpost st (take k (Closure.posted st) ++ drop (S k) (Closure.posted st))))
      | None => st
      end
  end.

Lemma run_at_rtc {T} `{Countable T} (startElts : gset T) getEdges ks st :
  rtc (Closure.step startElts getEdges) st (run_at startElts getEdges ks st).
Proof.
  revert st; induction ks as [|k ks IH]; intros st; cbn [run_at]; [done|].
  destruct (Closure.posted st !! k) as [h|] eqn:Hk; [|done]. eapply rtc_l; [|apply IH].
  apply Closure.step_run. symmetry. by apply take_drop_middle.
Qed.

Lemma closure_rate_limit :
  exists st, rtc (Closure.step wide_start wide_edges) (Closure.start wide_start ∅) st /\
    Closure.inFlight st = S Closure.maxConcurrent.
Proof.
  exists (run_at wide_start wide_edges [0; 0; 0; 1022; 1023]%nat (Closure.start wide_start ∅)).
  split; [apply run_at_rtc|]. vm_compute. reflexivity.
Qed.

(** *** Running a closure to the end *)

(** The handlers in the order they were posted. *)
Definition run_closure {T} `{Countable T} (startElts : gset T) getEdges (res0 : gset T) (fuel : nat) : result (gset T) :=
  let st := Closure.run_fifo startElts getEdges fuel (Closure.start startElts res0) in
  match Closure.posted st with
  | [] => match last (Closure.handed st) with Some (Some e) => Throw e | _ => Ok (Closure.res st) end
  | _ => Throw AssertFailed
  end.

Lemma run_fifo_nsteps {T} `{Countable T} (startElts : gset T) getEdges n st :
  Closure.posted (Closure.run_fifo startElts getEdges n st) = [] \/
  exists st', nsteps (Closure.step startElts getEdges) n st st'.
Proof.
  revert st; induction n as [|n IH]; intros st; cbn [Closure.run_fifo].
  - right. exists st. constructor.
  - destruct (Closure.posted st) as [|h l] eqn:Hp; [by left|].
    destruct (IH (Closure.run_handler startElts getEdges h (Closure.unpost st l))) as [?|(st' & Hst)]; [by left|right].
    exists st'. econstructor; [|exact Hst]. by apply (Closure.step_run startElts getEdges st [] h l).
Qed.

(** With the fuel that [computeClosure_terminates] bounds the steps by, the
    run ends. *)
Lemma run_closure_runs {T} `{Countable T} (startElts : gset T) getEdges (res0 U : gset T) fuel :
  (forall x, Closure.reached startElts getEdges res0 x -> x ∈ U) -> (5 * size U + 1 < fuel)%nat ->
  Closure.computeClosure startElts getEdges res0 (run_closure startElts getEdges res0 fuel).
Proof.
  intros HU Hf. unfold run_closure.
  pose proof (Closure.run_fifo_rtc startElts getEdges fuel (Closure.start startElts res0)) as Hr.
  destruct (run_fifo_nsteps startElts getEdges fuel (Closure.start startElts res0)) as [Hp|(st' & Hst)].
  - rewrite Hp. by apply Closure.closure_returns.
  - apply (Closure.nsteps_work_left startElts getEdges res0 U HU) in Hst; [|apply Closure.start_phase].
    pose proof (Closure.work_left_start startElts res0 U). lia.
Qed.

Lemma run_closure_spec {T} `{Countable T} (startElts : gset T) getEdges (res0 U : gset T) fuel :
  (forall x, Closure.reached startElts getEdges res0 x -> x ∈ U) -> (5 * size U + 1 < fuel)%nat ->
  match run_closure startElts getEdges res0 fuel with
  | Ok X => (forall x, x ∈ X <-> x ∈ res0 \/ Closure.reached startElts getEdges res0 x) /\
            (forall x, Closure.reached startElts getEdges res0 x -> exists es, getEdges x = Ok es)
  | Throw e => exists x, Closure.reached startElts getEdges res0 x /\ getEdges x = Throw e
  end.
Proof. intros HU Hf. by apply Closure.computeClosure_ok, (run_closure_runs _ _ _ U). Qed.
