(* ===== verification/ThreadPool.v ===== *)
(** * ThreadPool: processing a graph on a pool of threads

    libutil/thread-pool.cc and [processGraph] of thread-pool.hh as threads
    that take turns at their atomic sections: the sections under the lock of
    the pool ([state_]) and under the lock of the graph ([graph_]), the calls
    of [getEdges] and [processNode], and what the calling thread does.  A
    schedule says whose turn it is and what is left open: which element of a
    set comes next, which waiting thread a [notify_one] wakes, whether a call
    throws. *)

From S2P Require Export Prelude.

#[local] Set Default Proof Using "All".

Section pool.
Context {N : Type} `{Countable N}.
(** The nodes, what [getEdges] returns, and which exceptions the calls for a
    node may throw; these may depend on whether the pool is quitting, since a
    worker is interrupted then. *)
Context (nodes : gset N) (getEdges : N -> gset N) (throws : bool -> N -> exn -> bool) (maxThreads : nat).

(** ** State *)

Inductive thrown := Thrown (e : exn) | ThreadPoolShutDown.
Inductive outcome := Returned | Rethrown (e : thrown) | Cyclic.

(** Where [worker] is for a node. *)
Inductive Work :=
  | Start (n : N)
  | GetRefs (n : N)
  | AddRefs (n : N) (refs : gset N)
  | DoWork (n : N)
  | Finish (n : N)
  | Release (n : N) (todo : gset N).

(** Where a thread is.  The first five are of [doWork]: at the top of the
    loop, with what the item it did threw if it did one; in [wait]; woken;
    in an item; returned.  [Aborted] is a failed assertion. The others are of
    the calling thread: in the loop that enqueues the nodes, at [process],
    after its [doWork], in [shutdown], and at the end. *)
Inductive Thread :=
  | Lock (did : option (option thrown))
  | Wait
  | Woken
  | Run (w : Work)
  | Exited
  | Aborted
  | Enqueue (rest : gset N)
  | Process
  | AfterWork
  | Join (r : outcome)
  | Done (r : outcome).

Record Graph := mkGraph { left : gset N; refs : gmap N (gset N); rrefs : gmap N (gset N) }.
Record Pool := mkPool { pending : list N; active : nat; exception : option thrown; draining : bool; quit : bool }.
(** [graph_locked] is set while a thread holds the lock of the graph between
    its steps.  The threads are the calling one and the workers.  [called]
    are the nodes [processNode] was called for and [completed] those for
    which it returned; the code does not keep them. *)
Record State := mkState {
  graph : Graph;
  graph_locked : bool;
  pool : Pool;
  threads : list Thread;
  called : list N;
  completed : gset N;
}.

(** The constructor: no number stands for that of the processors. *)
Definition pool_threads (maxThreads hardware_concurrency : nat) : nat :=
  if (maxThreads =? 0)%nat then if (hardware_concurrency =? 0)%nat then 1 else hardware_concurrency else maxThreads.

Definition set_pool (p : Pool) (s : State) : State := mkState (graph s) (graph_locked s) p (threads s) (called s) (completed s).
Definition set_threads (ts : list Thread) (s : State) : State := mkState (graph s) (graph_locked s) (pool s) ts (called s) (completed s).
Definition set_graph (g : Graph) (locked : bool) (s : State) : State := mkState g locked (pool s) (threads s) (called s) (completed s).
Definition goto (i : nat) (t : Thread) (s : State) : State := set_threads (<[i := t]> (threads s)) s.

(** What a schedule leaves open of a step. *)
Record Choice := mkChoice { pick : option N; wake : nat; call_throws : option exn }.

(** ** [ThreadPool] *)

Definition is_wait (t : Thread) : bool := match t with Wait => true | _ => false end.
Definition is_exited (t : Thread) : bool := match t with Exited => true | _ => false end.
Definition wake_thread (t : Thread) : Thread := match t with Wait => Woken | t => t end.
Definition notify_all (s : State) : State := set_threads (wake_thread <$> threads s) s.
(** Wakes the chosen thread, which waits unless none does. *)
Definition notify_one (j : nat) (s : State) : option State :=
  match threads s !! j with
  | Some Wait => Some (goto j Woken s)
  | _ => if existsb is_wait (threads s) then None else Some s
  end.

(** Throws [ThreadPoolShutDown] when the pool is quitting ([inl]). *)
Definition enqueue (c : Choice) (x : N) (s : State) : option (unit + State) :=
  let p := pool s in
  if quit p then Some (inl ())
  else
    let pending' := pending p ++ [x] in
    let s := set_pool (mkPool pending' (active p) (exception p) (draining p) (quit p)) s in
    let nthreads := length (threads s) in
    let s := if (nthreads <? length pending')%nat && (nthreads <? maxThreads)%nat
             then set_threads (threads s ++ [Lock None]) s else s in
    inr <$> notify_one (wake c) s.

(** [doWork] returns: to [process] in the calling thread. *)
Definition returned (i : nat) : Thread := if (i =? 0)%nat then AfterWork else Exited.

(** The loop of [doWork] that waits for an item. *)
Definition wait_for_item (i : nat) (s : State) : State :=
  let p := pool s in
  if quit p then goto i (returned i) s
  else
    match pending p with
    | x :: rest => goto i (Run (Start x)) (set_pool (mkPool rest (S (active p)) (exception p) (draining p) (quit p)) s)
    | [] =>
        if (active p =? 0)%nat && draining p then
          goto i (returned i) (notify_all (set_pool (mkPool [] (active p) (exception p) (draining p) true) s))
        else goto i Wait s
    end.

(** What [doWork] does under the lock after an item. *)
Definition item_done (exc : option thrown) (s : State) : State :=
  let p := pool s in
  match exc, exception p with
  | Some e, None => notify_all (set_pool (mkPool (pending p) (active p - 1) (Some e) (draining p) true) s)
  | _, _ => set_pool (mkPool (pending p) (active p - 1) (exception p) (draining p) (quit p)) s
  end.

Definition lock_step (i : nat) (did : option (option thrown)) (s : State) : State :=
  match did with
  | None => wait_for_item i s
  | Some exc => if (active (pool s) =? 0)%nat then goto i Aborted s else wait_for_item i (item_done exc s)
  end.

Definition shutdown (s : State) : State :=
  let p := pool s in
  notify_all (set_pool (mkPool (pending p) (active p) (exception p) (draining p) true) s).

(** ** [processGraph] *)

Definition refs_of (g : Graph) (n : N) : gset N := default ∅ (refs g !! n).
Definition rrefs_of (g : Graph) (n : N) : gset N := default ∅ (rrefs g !! n).

Definition add_rrefs (n : N) (rs : gset N) (m : gmap N (gset N)) : gmap N (gset N) :=
  set_fold (fun r m => <[r := {[n]} ∪ default ∅ (m !! r)]> m) m rs.
Definition add_refs (n : N) (rs : gset N) (g : Graph) : Graph :=
  let rs := rs ∩ left g in
  mkGraph (left g) (<[n := refs_of g n ∪ rs]> (refs g)) (add_rrefs n rs (rrefs g)).

(** The call of a function of the caller for [n]. *)
Definition call {A} (c : Choice) (n : N) (s : State) (ok : A) : option (exn + A) :=
  match call_throws c with
  | None => Some (inr ok)
  | Some e => if throws (quit (pool s)) n e then Some (inl e) else None
  end.

Definition item_returns (i : nat) (s : State) : State := goto i (Lock (Some None)) s.
Definition item_throws (i : nat) (e : thrown) (s : State) : State := goto i (Lock (Some (Some e))) s.

Definition work_step (c : Choice) (i : nat) (w : Work) (s : State) : option State :=
  let g := graph s in
  match w with
  | Start n =>
      if graph_locked s then None
      else Some (goto i (Run (match refs g !! n with None => GetRefs n | Some _ => DoWork n end)) s)
  | GetRefs n =>
      r ← call c n s (getEdges n ∖ {[n]});
      Some match r with inl e => item_throws i (Thrown e) s | inr rs => goto i (Run (AddRefs n rs)) s end
  | AddRefs n rs =>
      if graph_locked s then None
      else
        let g := add_refs n rs g in
        let s := set_graph g false s in
        Some (if decide (refs_of g n = ∅) then goto i (Run (DoWork n)) s else item_returns i s)
  | DoWork n =>
      r ← call c n s ();
      let s := mkState (graph s) (graph_locked s) (pool s) (threads s) (called s ++ [n])
                 (match r with inl _ => completed s | inr _ => {[n]} ∪ completed s end) in
      Some match r with inl e => item_throws i (Thrown e) s | inr _ => goto i (Run (Finish n)) s end
  | Finish n =>
      if graph_locked s then None
      else
        let rr := rrefs_of g n in
        Some (goto i (Run (Release n rr)) (set_graph (mkGraph (left g) (refs g) (<[n := rr]> (rrefs g))) true s))
  | Release n todo =>
      if decide (todo = ∅) then
        Some (item_returns i (set_graph (mkGraph (left g ∖ {[n]}) (delete n (refs g)) (delete n (rrefs g))) false s))
      else
        r ← pick c;
        if negb (bool_decide (r ∈ todo)) then None
        else if decide (n ∈ refs_of g r) then
          let rs := refs_of g r ∖ {[n]} in
          let s := set_graph (mkGraph (left g) (<[r := rs]> (refs g)) (rrefs g)) true s in
          if decide (rs = ∅) then
            o ← enqueue c r s;
            Some match o with
                 | inl _ => item_throws i ThreadPoolShutDown (set_graph (graph s) false s)
                 | inr s => goto i (Run (Release n (todo ∖ {[r]}))) s
                 end
          else Some (goto i (Run (Release n (todo ∖ {[r]}))) s)
        else Some (goto i Aborted s)
  end.

Definition thread_step (c : Choice) (i : nat) (s : State) : option State :=
  t ← threads s !! i;
  match t with
  | Lock did => Some (lock_step i did s)
  | Woken => Some (wait_for_item i s)
  | Wait | Exited | Aborted | Done _ => None
  | Run w => work_step c i w s
  | Enqueue rest =>
      if decide (rest = ∅) then Some (goto i Process s)
      else
        x ← pick c;
        if negb (bool_decide (x ∈ rest)) then None
        else
          o ← enqueue c x s;
          Some match o with
               | inl _ => goto i Process s
               | inr s => goto i (Enqueue (rest ∖ {[x]})) s
               end
  | Process =>
      let p := pool s in
      Some (goto i (Lock None) (set_pool (mkPool (pending p) (active p) (exception p) true (quit p)) s))
  | AfterWork =>
      if negb (quit (pool s)) then Some (goto i Aborted s)
      else
        match exception (pool s) with
        | Some e => Some (goto i (Join (Rethrown e)) (shutdown s))
        | None =>
            if graph_locked s then None
            else Some (goto i (Join (if decide (left (graph s) = ∅) then Returned else Cyclic)) (shutdown s))
        end
  | Join r => if forallb is_exited (drop 1 (threads s)) then Some (goto i (Done r) s) else None
  end.

(** A thread may leave [wait] without having been notified. *)
Definition wake_up (i : nat) (s : State) : option State :=
  match threads s !! i with Some Wait => Some (goto i Woken s) | _ => None end.

Definition step (s s' : State) : Prop := exists c i, thread_step c i s = Some s'.
Definition any_step (s s' : State) : Prop := step s s' \/ exists i, wake_up i s = Some s'.
Definition start : State :=
  mkState (mkGraph nodes ∅ ∅) false (mkPool [] 0 None false false) [Enqueue nodes] [] ∅.

(** ** The graph and the items *)

Definition work_node (w : Work) : N :=
  match w with Start n | GetRefs n | AddRefs n _ | DoWork n | Finish n | Release n _ => n end.
(** The nodes a thread holds an item for, or is to enqueue. *)
Definition thread_items (t : Thread) : list N :=
  match t with Run w => [work_node w] | Enqueue rest => elements rest | _ => [] end.
Definition locks (t : Thread) : nat := match t with Run (Release _ _) => 1 | _ => 0 end.
Definition fails (t : Thread) : bool := match t with Lock (Some (Some _)) => true | _ => false end.
(** The threads that matter for the graph. *)
Definition acts (t : Thread) : bool :=
  match t with Run _ | Enqueue _ | Aborted | Lock (Some (Some _)) => true | _ => false end.

(** What a node waits for. *)
Definition deps (n : N) : gset N := (getEdges n ∖ {[n]}) ∩ nodes.

Definition sym (g : Graph) (n : N) : Prop := forall m, m ∈ rrefs_of g n -> n ∈ refs_of g m.

(** An item that is to be started. *)
Definition item_ok (g : Graph) (called : list N) (n : N) : Prop :=
  n ∈ left g /\ n ∉ called /\ (refs g !! n = None \/ refs g !! n = Some ∅).
Definition work_ok (g : Graph) (locked : bool) (called : list N) (completed : gset N) (w : Work) : Prop :=
  match w with
  | Start n => item_ok g called n
  | GetRefs n => n ∈ left g /\ n ∉ called /\ refs g !! n = None
  | AddRefs n rs => n ∈ left g /\ n ∉ called /\ refs g !! n = None /\ rs = getEdges n ∖ {[n]}
  | DoWork n => n ∈ left g /\ n ∉ called /\ refs g !! n = Some ∅
  | Finish n => n ∈ left g /\ n ∈ completed /\ refs g !! n = Some ∅ /\ sym g n
  | Release n todo =>
      n ∈ left g /\ n ∈ completed /\ refs g !! n = Some ∅ /\ locked = true /\ forall m, n ∈ refs_of g m <-> m ∈ todo
  end.
Definition thread_ok (g : Graph) (locked : bool) (called : list N) (completed : gset N) (t : Thread) : Prop :=
  match t with
  | Run w => work_ok g locked called completed w
  | Enqueue rest => forall n, n ∈ rest -> item_ok g called n
  | Aborted => False
  | _ => True
  end.

Definition items (pending : list N) (ts : list Thread) : list N := pending ++ flat_map thread_items ts.

Record GI (g : Graph) (locked : bool) (pending : list N) (exc : option thrown) (ts : list Thread)
    (called : list N) (completed : gset N) : Prop := {
  gi_nodup : NoDup (items pending ts);
  gi_pending : Forall (item_ok g called) pending;
  gi_threads : Forall (thread_ok g locked called completed) ts;
  gi_locks : sum_list_with locks ts = if locked then 1 else 0;
  gi_left : left g ⊆ nodes;
  gi_gone : nodes ∖ left g ⊆ completed;
  gi_refs : forall n S, refs g !! n = Some S ->
    n ∈ left g /\ S ⊆ left g /\ S ⊆ deps n /\ deps n ⊆ S ∪ completed /\ forall m, m ∈ S -> n ∈ rrefs_of g m;
  gi_sym : forall n, n ∉ completed -> sym g n;
  gi_waits : forall n, n ∈ called -> refs g !! n = None \/ refs g !! n = Some ∅;
  gi_called_nodup : NoDup called;
  gi_called : forall n, n ∈ called -> n ∈ nodes /\ deps n ⊆ completed;
  gi_completed : forall n, n ∈ completed -> n ∈ called;
  gi_covered : is_Some exc \/ existsb fails ts = true \/
    forall n, n ∈ left g -> n ∈ items pending ts \/ exists S, refs g !! n = Some S /\ S <> ∅;
}.

(** Only the acting threads matter, in any order. *)
Lemma mjoin_items_acts (ts : list Thread) : flat_map thread_items (List.filter acts ts) = flat_map thread_items ts.
Proof. induction ts as [|t ts IH]; [done|]. cbn. destruct t as [[[]|]| | |[]| | | | | | |]; cbn; try done; by rewrite IH. Qed.

Lemma locks_acts (ts : list Thread) : sum_list_with locks (List.filter acts ts) = sum_list_with locks ts.
Proof. induction ts as [|t ts IH]; [done|]. cbn. destruct t as [[[]|]| | |[]| | | | | | |]; cbn; try done; by rewrite IH. Qed.

Lemma fails_acts (ts : list Thread) : existsb fails (List.filter acts ts) = existsb fails ts.
Proof. induction ts as [|t ts IH]; [done|]. cbn. destruct t as [[[]|]| | |[]| | | | | | |]; cbn; try done; by rewrite IH. Qed.

Lemma thread_ok_acts g l c d (ts : list Thread) :
  Forall (thread_ok g l c d) (List.filter acts ts) <-> Forall (thread_ok g l c d) ts.
Proof.
  induction ts as [|t ts IH]; [done|]. cbn. rewrite Forall_cons.
  destruct t as [[[]|]| | |[]| | | | | | |]; cbn in *; rewrite ?Forall_cons, ?IH; cbn; tauto.
Qed.

Lemma mjoin_perm (ts ts' : list Thread) : ts ≡ₚ ts' -> flat_map thread_items ts ≡ₚ flat_map thread_items ts'.
Proof.
  induction 1 as [|x l l' _ IH|x y l|l l' l'' _ IH1 _ IH2]; cbn; [done|by rewrite IH| |by rewrite IH1].
  rewrite !app_assoc. apply Permutation_app_tail, Permutation_app_comm.
Qed.

Lemma fails_perm (ts ts' : list Thread) : ts ≡ₚ ts' -> existsb fails ts = existsb fails ts'.
Proof.
  induction 1 as [|x l l' _ IH|x y l|l l' l'' _ IH1 _ IH2]; cbn; [done|by rewrite IH| |by rewrite IH1].
  by destruct (fails x), (fails y).
Qed.

Lemma GI_acts g l p e ts ts' c d :
  GI g l p e ts c d -> List.filter acts ts ≡ₚ List.filter acts ts' -> GI g l p e ts' c d.
Proof.
  intros [] Hp. assert (items p ts ≡ₚ items p ts') as Hi.
  { unfold items. rewrite <- (mjoin_items_acts ts), <- (mjoin_items_acts ts'). by rewrite (mjoin_perm _ _ Hp). }
  split; try done.
  - by rewrite <- Hi.
  - rewrite <- thread_ok_acts, <- Hp. by apply thread_ok_acts.
  - rewrite <- locks_acts, <- Hp, locks_acts. done.
  - rewrite <- fails_acts, <- (fails_perm _ _ Hp), fails_acts. setoid_rewrite <- Hi. done.
Qed.

(** *** The steps of an item *)

Lemma items_cons p t r : items p (t :: r) ≡ₚ thread_items t ++ items p r.
Proof. unfold items. cbn [flat_map]. rewrite !app_assoc. apply Permutation_app_tail, Permutation_app_comm. Qed.

Lemma items_apart g l p e w r c d n :
  GI g l p e (Run w :: r) c d -> n ∈ items p r -> n <> work_node w.
Proof.
  intros [Hnd] Hn ->. rewrite items_cons in Hnd. apply NoDup_app in Hnd as (_ & Hnd & _). apply (Hnd (work_node w)); [by left|done].
Qed.

Lemma elem_of_items p r n : n ∈ items p r <-> n ∈ p \/ exists t, t ∈ r /\ n ∈ thread_items t.
Proof.
  unfold items. rewrite elem_of_app. f_equiv. rewrite list_elem_of_In, in_flat_map. by setoid_rewrite list_elem_of_In.
Qed.

(** Other threads see no difference: [same] relates what they look at. *)
Lemma thread_ok_other g l c d g' l' c' d' (t : Thread) :
  (forall n, n ∈ thread_items t -> n ∈ left g -> n ∈ left g' /\ refs g' !! n = refs g !! n /\ (n ∉ c -> n ∉ c') /\ (n ∈ d -> n ∈ d') /\ (sym g n -> sym g' n)) ->
  (locks t = 1 -> l' = l /\ forall n m, n ∈ thread_items t -> n ∈ refs_of g' m <-> n ∈ refs_of g m) ->
  thread_ok g l c d t -> thread_ok g' l' c' d' t.
Proof.
  intros Hn Hl. destruct t as [| | |w| | |rest| | | |]; try done.
  - cbn [thread_ok thread_items] in *. specialize (Hn (work_node w) ltac:(left)).
    destruct w as [n|n|n rs|n|n|n todo]; cbn [work_ok work_node item_ok] in *; unfold item_ok in *.
    1-5: intros (H1 & H2); destruct (Hn H1) as (? & -> & ? & ? & ?); naive_solver.
    intros (H1 & H2 & H3 & H4 & H5). destruct (Hn H1) as (? & -> & ? & ? & ?). destruct (Hl eq_refl) as [-> Hm].
    repeat split; auto; intros; [apply H5, Hm|apply Hm, H5]; auto; by left.
  - cbn [thread_ok thread_items] in *. intros Hok n Hr. destruct (Hok n Hr) as (H1 & H2 & H3).
    destruct (Hn n) as (? & Hrefs & ? & _); [by apply elem_of_elements|done|]. unfold item_ok. rewrite Hrefs. auto.
Qed.

Lemma others g l p e w r c d g' l' c' d' :
  GI g l p e (Run w :: r) c d ->
  (forall m, m <> work_node w -> m ∈ items p r -> m ∈ left g ->
     m ∈ left g' /\ refs g' !! m = refs g !! m /\ (m ∉ c -> m ∉ c') /\ (m ∈ d -> m ∈ d') /\ (sym g m -> sym g' m)) ->
  (forall t, t ∈ r -> locks t = 1 -> l' = l /\ forall k m, k <> work_node w -> k ∈ refs_of g' m <-> k ∈ refs_of g m) ->
  Forall (item_ok g' c') p /\ Forall (thread_ok g' l' c' d') r.
Proof.
  intros HG Hm Hl. pose proof (fun n => items_apart _ _ _ _ _ _ _ _ n HG) as Hap. setoid_rewrite elem_of_items in Hap.
  pose proof (gi_pending _ _ _ _ _ _ _ HG) as Hp. pose proof (gi_threads _ _ _ _ _ _ _ HG) as Ht. apply Forall_cons in Ht as [_ Ht]. rewrite Forall_forall in Hp. rewrite Forall_forall in Ht. split; apply Forall_forall.
  - intros n Hn. destruct (Hp n Hn) as (H1 & H2 & H3). destruct (Hm n) as (? & Hr & ? & _); [apply Hap; by left|apply elem_of_items; by left|done|].
    unfold item_ok. rewrite Hr. auto.
  - intros t Htr. apply (thread_ok_other g l c d); [| |by apply Ht].
    + intros n Hn Hleft. apply Hm; [apply Hap; right; by exists t|apply elem_of_items; right; by exists t|done].
    + intros Hlk. destruct (Hl t Htr Hlk) as [-> Hk]. split; [done|]. intros n m Hn. apply Hk, Hap. right. by exists t.
Qed.

(** No other thread holds the lock of the graph. *)
Lemma not_locked g p e t r c d : GI g false p e (t :: r) c d -> forall t', t' ∈ r -> locks t' = 1 -> False.
Proof.
  intros HG t' Ht' Hlk. pose proof (gi_locks _ _ _ _ _ _ _ HG) as Hl. cbn in Hl. apply list_elem_of_split in Ht' as (l1 & l2 & ->).
  rewrite sum_list_with_app in Hl. cbn in Hl. lia.
Qed.

Lemma locked_alone g p e n todo r c d : GI g true p e (Run (Release n todo) :: r) c d -> forall t', t' ∈ r -> locks t' = 1 -> False.
Proof.
  intros HG t' Ht' Hlk. pose proof (gi_locks _ _ _ _ _ _ _ HG) as Hl. cbn in Hl. apply list_elem_of_split in Ht' as (l1 & l2 & ->).
  rewrite sum_list_with_app in Hl. cbn in Hl. lia.
Qed.

Lemma GI_start g l p e n r c d :
  GI g l p e (Run (Start n) :: r) c d ->
  GI g l p e (Run (match refs g !! n with None => GetRefs n | Some _ => DoWork n end) :: r) c d.
Proof.
  intros []. assert (work_node (match refs g !! n with None => GetRefs n | Some _ => DoWork n end) = n) as Hw by (by destruct (refs g !! n)).
  assert (thread_items (Run (match refs g !! n with None => GetRefs n | Some _ => DoWork n end)) = [n]) as Hi by (cbn; by rewrite Hw).
  split; try done.
  - rewrite items_cons in gi_nodup0 |- *. by rewrite Hi.
  - apply Forall_cons in gi_threads0 as [(H1 & H2 & H3) Hr]. constructor; [|done]. cbn. destruct H3 as [H3|H3]; rewrite H3; done.
  - cbn in gi_locks0 |- *. rewrite <- gi_locks0. by destruct (refs g !! n).
  - setoid_rewrite items_cons. rewrite Hi. setoid_rewrite items_cons in gi_covered0. done.
Qed.

Lemma GI_getRefs g l p e n r c d :
  GI g l p e (Run (GetRefs n) :: r) c d -> GI g l p e (Run (AddRefs n (getEdges n ∖ {[n]})) :: r) c d.
Proof.
  intros []. split; try done. apply Forall_cons in gi_threads0 as [(H1 & H2 & H3) Hr]. by constructor.
Qed.

(** An item that throws is lost. *)
Lemma GI_throw g l p e w x r c d :
  GI g l p e (Run w :: r) c d -> locks (Run w) = 0 -> GI g l p e (Lock (Some (Some x)) :: r) c d.
Proof.
  intros [] Hl. split; try done.
  - rewrite items_cons in gi_nodup0 |- *. cbn. by apply NoDup_app in gi_nodup0 as (_ & _ & ?).
  - apply Forall_cons in gi_threads0 as [_ Hr]. by constructor.
  - cbn in *. lia.
  - right. by left.
Qed.

Lemma rrefs_add n rs m k : default ∅ (add_rrefs n rs m !! k) = if decide (k ∈ rs) then {[n]} ∪ default ∅ (m !! k) else default ∅ (m !! k).
Proof.
  enough ((k ∈ rs -> default ∅ (add_rrefs n rs m !! k) = {[n]} ∪ default ∅ (m !! k)) /\
          (k ∉ rs -> default ∅ (add_rrefs n rs m !! k) = default ∅ (m !! k))) by (case_decide; tauto).
  unfold add_rrefs. apply (set_fold_ind_L (fun m' X => (k ∈ X -> default ∅ (m' !! k) = {[n]} ∪ default ∅ (m !! k)) /\
    (k ∉ X -> default ∅ (m' !! k) = default ∅ (m !! k)))); [set_solver|].
  intros x X m' Hx [H1 H2]. destruct (decide (x = k)) as [->|Hk].
  - rewrite lookup_insert_eq. cbn. rewrite H2 by done. set_solver.
  - rewrite lookup_insert_ne by done. set_solver.
Qed.

Lemma refs_of_insert g n S m : refs_of (mkGraph (left g) (<[n := S]> (refs g)) (rrefs g)) m = if decide (m = n) then S else refs_of g m.
Proof. unfold refs_of. cbn. case_decide as Hm; [subst; by rewrite lookup_insert_eq|by rewrite lookup_insert_ne]. Qed.

(** The refs and the nodes that wait for them. *)
Lemma GI_addRefs g p e n rs r c d :
  GI g false p e (Run (AddRefs n rs) :: r) c d ->
  GI (add_refs n rs g) false p e ((if decide (refs_of (add_refs n rs g) n = ∅) then Run (DoWork n) else Lock (Some None)) :: r) c d.
Proof.
  intros HG. pose proof (not_locked _ _ _ _ _ _ _ HG) as Hnl. pose proof HG as []. apply Forall_cons in gi_threads0 as [(H1 & H2 & H3 & H4) Hr].
  set (g' := add_refs n rs g). set (S := rs ∩ left g).
  assert (refs_of g n = ∅) as H0 by (unfold refs_of; by rewrite H3).
  assert (refs_of g' n = S) as HS by (unfold g', add_refs, refs_of at 1; cbn; rewrite lookup_insert_eq; cbn; rewrite H0; set_solver).
  assert (refs g' !! n = Some S) as HrS by (unfold g', add_refs; cbn; rewrite lookup_insert_eq, H0; f_equal; set_solver).
  assert (forall m, m <> n -> refs g' !! m = refs g !! m) as Hne by (intros; unfold g', add_refs; cbn; by rewrite lookup_insert_ne).
  assert (forall k, rrefs_of g' k = if decide (k ∈ S) then {[n]} ∪ rrefs_of g k else rrefs_of g k) as Hrr by (intros; apply rrefs_add).
  assert (forall m, sym g m -> sym g' m) as Hsym.
  { intros m Hs k. rewrite Hrr. intros Hk. destruct (decide (k = n)) as [->|Hkn].
    - rewrite HS. case_decide; [done|]. apply Hs in Hk. by rewrite H0 in Hk.
    - unfold refs_of. rewrite Hne by done. apply Hs. clear -Hk Hkn. case_decide; set_solver. }
  destruct (others _ _ _ _ _ _ _ _ g' false c d HG) as [Hp' Hr'].
  { intros m Hm Hmi Hleft. cbn in Hm. rewrite Hne by done. auto 10. }
  { intros t Ht Hlk. by destruct (Hnl t Ht). }
  assert (left g' = left g) as Hlg by done. clearbody g'.
  assert (S ⊆ left g /\ S ⊆ deps n /\ deps n ⊆ S ∪ d) as (HSl & HSd & HdS).
  { unfold deps. subst S rs. clear -gi_left0 gi_gone0. split; [set_solver|]. split; [set_solver|].
    intros x Hx. destruct (decide (x ∈ left g)); set_solver. }
  set (t' := if decide (refs_of g' n = ∅) then Run (DoWork n) else Lock (Some None)).
  assert (thread_items t' = (if decide (S = ∅) then [n] else []) /\ locks t' = 0 /\ fails t' = false /\ thread_ok g' false c d t') as (Hti & Hlk & Hf & Hok).
  { subst t'. rewrite HS. destruct (decide (S = ∅)) as [HSe|]; [|done]. split; [done|]. split; [done|]. split; [done|]. cbn. by rewrite Hlg, HrS, HSe. }
  clearbody t'. split; rewrite ?Hlg; try done.
  - rewrite items_cons in gi_nodup0 |- *. rewrite Hti. destruct (decide (S = ∅)); [exact gi_nodup0|]. by apply NoDup_app in gi_nodup0 as (_ & _ & ?).
  - by constructor.
  - cbn in *. by rewrite Hlk.
  - intros m T HT. destruct (decide (m = n)) as [->|Hmn].
    + rewrite HrS in HT. injection HT as <-. split; [done|]. split; [done|]. split; [done|]. split; [done|].
      intros k Hk. rewrite Hrr, decide_True by done. clear. set_solver.
    + rewrite Hne in HT by done. destruct (gi_refs0 m T HT) as (? & ? & ? & ? & Hk). repeat (split; [done|]).
      intros k HkT. specialize (Hk k HkT). rewrite Hrr. clear -Hk. case_decide; set_solver.
  - intros m Hm. by apply Hsym, gi_sym0.
  - intros m Hm. rewrite Hne; [by apply gi_waits0|]. by intros ->.
  - destruct gi_covered0 as [?|[?|Hcov]]; [by left|right; left|right; right].
    + cbn in *. by rewrite Hf.
    + intros m Hm. setoid_rewrite items_cons in Hcov. setoid_rewrite items_cons. rewrite Hti.
      destruct (decide (m = n)) as [->|Hmn].
      * destruct (decide (S = ∅)); [left; apply elem_of_app; left; left|right; by exists S].
      * rewrite Hne by done. destruct (Hcov m Hm) as [Hin|?]; [|by right]. left. clear -Hin Hmn. cbn in Hin. set_solver.
Qed.

(** [processNode] was called, and returned if [ok]. *)
Lemma GI_called g l p e n t' r c d (ok : bool) :
  GI g l p e (Run (DoWork n) :: r) c d ->
  (if ok then t' = Run (Finish n) else fails t' = true /\ thread_items t' = [] /\ locks t' = 0 /\ forall d', thread_ok g l (c ++ [n]) d' t') ->
  GI g l p e (t' :: r) (c ++ [n]) (if ok then {[n]} ∪ d else d).
Proof.
  intros HG Ht'. pose proof HG as []. apply Forall_cons in gi_threads0 as [(H1 & H2 & H3) Hr].
  set (d' := if ok then {[n]} ∪ d else d). assert (d ⊆ d') as Hd by (subst d'; destruct ok; clear; set_solver).
  destruct (others _ _ _ _ _ _ _ _ g l (c ++ [n]) d' HG) as [Hp' Hr'].
  { intros m Hm Hmi Hleft. cbn in Hm. repeat (split; [done|]). split; [|split; [apply Hd|done]].
    intros Hmc. rewrite elem_of_app, list_elem_of_singleton. tauto. }
  { done. }
  assert (deps n ⊆ d) as Hdeps.
  { destruct (gi_refs0 n ∅ H3) as (_ & _ & _ & Hdn & _). clear -Hdn. set_solver. }
  assert (sym g n) as Hsymn by (intros; apply gi_sym0; intros Hnd; by apply H2, gi_completed0).
  split; try done.
  - rewrite items_cons in gi_nodup0 |- *. destruct ok; [by subst t'|]. destruct Ht' as (_ & -> & _). by apply NoDup_app in gi_nodup0 as (_ & _ & ?).
  - constructor; [|done]. destruct ok; [|by apply Ht']. subst t' d'. cbn. split; [done|]. split; [clear; set_solver|done].
  - cbn in *. destruct ok; [by subst t'|]. destruct Ht' as (_ & _ & -> & _). done.
  - clear -gi_gone0 Hd. set_solver.
  - intros m S HS. destruct (gi_refs0 m S HS) as (? & ? & ? & Hdm & ?). repeat (split; [done|]). split; [|done]. clear -Hdm Hd. set_solver.
  - intros m Hm. apply gi_sym0. clear -Hm Hd. set_solver.
  - intros m [Hm| ->%list_elem_of_singleton]%elem_of_app; [by apply gi_waits0|by right].
  - apply NoDup_app. split; [done|]. split; [|apply NoDup_singleton]. intros x Hx ->%list_elem_of_singleton. done.
  - intros m [Hm| ->%list_elem_of_singleton]%elem_of_app.
    + destruct (gi_called0 m Hm) as [? Hdm]. split; [done|]. clear -Hdm Hd. set_solver.
    + split; [by apply gi_left0|]. clear -Hdeps Hd. set_solver.
  - intros m Hm. rewrite elem_of_app, list_elem_of_singleton. subst d'. destruct ok; [|left; by apply gi_completed0].
    apply elem_of_union in Hm as [->%elem_of_singleton|Hm]; [by right|left; by apply gi_completed0].
  - destruct gi_covered0 as [?|[?|Hcov]]; [by left|right; left|right].
    + cbn in *. apply orb_true_iff. by right.
    + destruct ok; [right|left; cbn; by destruct Ht' as (-> & _)]. subst t'. intros m Hm. destruct (Hcov m Hm) as [Hin|?]; [left|by right].
      rewrite items_cons in Hin |- *. done.
Qed.

Lemma rrefs_of_insert g n m : rrefs_of (mkGraph (left g) (refs g) (<[n := rrefs_of g n]> (rrefs g))) m = rrefs_of g m.
Proof. unfold rrefs_of. cbn. destruct (decide (m = n)) as [->|]; [by rewrite lookup_insert_eq|by rewrite lookup_insert_ne]. Qed.

Lemma GI_finish g p e n r c d :
  GI g false p e (Run (Finish n) :: r) c d ->
  GI (mkGraph (left g) (refs g) (<[n := rrefs_of g n]> (rrefs g))) true p e (Run (Release n (rrefs_of g n)) :: r) c d.
Proof.
  intros HG. pose proof (not_locked _ _ _ _ _ _ _ HG) as Hnl. pose proof HG as []. apply Forall_cons in gi_threads0 as [(H1 & H2 & H3 & H4) Hr].
  set (g' := mkGraph _ _ _).
  assert (forall m, sym g' m <-> sym g m) as Hsym by (intros m; unfold sym, g'; by rewrite rrefs_of_insert).
  destruct (others _ _ _ _ _ _ _ _ g' true c d HG) as [Hp' Hr'].
  { intros m Hm Hmi Hleft. rewrite Hsym. done. }
  { intros t Ht Hlk. by destruct (Hnl t Ht). }
  split; try done.
  - constructor; [|done]. cbn. repeat (split; [done|]). intros m. split; [|apply H4].
    intros Hm. unfold refs_of in Hm. cbn in Hm. destruct (refs g !! m) as [S|] eqn:HS; [|by apply not_elem_of_empty in Hm].
    cbn in Hm. by apply (gi_refs0 m S HS).
  - cbn in *. by rewrite gi_locks0.
  - intros m S HS. destruct (gi_refs0 m S HS) as (? & ? & ? & ? & Hk). repeat (split; [done|]). intros k HkS. unfold g'. rewrite rrefs_of_insert. by apply Hk.
  - intros m Hm. by apply Hsym, gi_sym0.
Qed.

(** The node is no longer left. *)
Lemma GI_release_end g l p e n r c d :
  GI g l p e (Run (Release n ∅) :: r) c d ->
  GI (mkGraph (left g ∖ {[n]}) (delete n (refs g)) (delete n (rrefs g))) false p e (Lock (Some None) :: r) c d.
Proof.
  intros HG. pose proof HG as []. apply Forall_cons in gi_threads0 as [(H1 & H2 & H3 & -> & H4) Hr].
  pose proof (locked_alone _ _ _ _ _ _ _ _ HG) as Hnl. set (g' := mkGraph _ _ _).
  assert (forall m, refs_of g' m = refs_of g m) as Hro.
  { intros m. unfold g', refs_of. cbn. destruct (decide (m = n)) as [->|]; [by rewrite lookup_delete_eq, H3|by rewrite lookup_delete_ne]. }
  assert (forall m, m <> n -> rrefs_of g' m = rrefs_of g m) as Hrr.
  { intros m Hm. unfold g', rrefs_of. cbn. by rewrite lookup_delete_ne. }
  assert (rrefs_of g' n = ∅) as Hrn by (unfold g', rrefs_of; cbn; by rewrite lookup_delete_eq).
  assert (forall m, sym g m -> sym g' m) as Hsym.
  { intros m Hs k Hk. rewrite Hro. apply Hs. destruct (decide (m = n)) as [->|Hm]; [|by rewrite Hrr in Hk]. rewrite Hrn in Hk. by apply not_elem_of_empty in Hk. }
  destruct (others _ _ _ _ _ _ _ _ g' false c d HG) as [Hp' Hr'].
  { intros m Hm Hmi Hleft. cbn in Hm. split; [cbn; by apply elem_of_difference; split; [|apply not_elem_of_singleton]|].
    split; [cbn; by rewrite lookup_delete_ne|]. split; [done|]. split; [done|apply Hsym]. }
  { intros t Ht Hlk. by destruct (Hnl t Ht). }
  split; try done.
  - rewrite items_cons in gi_nodup0 |- *. by apply NoDup_app in gi_nodup0 as (_ & _ & ?).
  - by constructor.
  - cbn in *. lia.
  - cbn. clear -gi_left0. set_solver.
  - cbn. clear -gi_gone0 H2. intros x Hx. destruct (decide (x = n)); set_solver.
  - intros m S HS. cbn in HS. apply lookup_delete_Some in HS as [Hm HS]. destruct (gi_refs0 m S HS) as (? & HSl & ? & ? & Hk).
    assert (n ∉ S) as HnS.
    { intros Hn. apply (not_elem_of_empty (C := gset N) m), H4. unfold refs_of. by rewrite HS. }
    split; [cbn; by apply elem_of_difference; split; [|apply not_elem_of_singleton]|]. split; [cbn; clear -HSl HnS; set_solver|].
    split; [done|]. split; [done|]. intros k HkS. rewrite Hrr; [by apply Hk|]. intros ->. done.
  - intros m Hm. by apply Hsym, gi_sym0.
  - intros m Hm. cbn. rewrite lookup_delete_None. destruct (gi_waits0 m Hm) as [?|Hw]; [by left; right|].
    destruct (decide (n = m)); [by left; left|right; by rewrite lookup_delete_ne].
  - destruct gi_covered0 as [?|[?|Hcov]]; [by left|by right; left|right; right]. intros m Hm. cbn in Hm.
    apply elem_of_difference in Hm as [Hm Hmn%not_elem_of_singleton]. setoid_rewrite items_cons in Hcov. setoid_rewrite items_cons.
    destruct (Hcov m Hm) as [Hin|(S & HS & HSn)]; [left; clear -Hin Hmn; cbn in Hin; set_solver|right; exists S]. cbn. by rewrite lookup_delete_ne.
Qed.

(** A node that waits for [n] waits for it no longer. *)
Definition release (n r : N) (g : Graph) : Graph := mkGraph (left g) (<[r := refs_of g r ∖ {[n]}]> (refs g)) (rrefs g).

Section release.
Context (g : Graph) (l : bool) (p : list N) (e : option thrown) (n x : N) (todo : gset N) (r : list Thread) (c : list N) (d : gset N).
Context (HG : GI g l p e (Run (Release n todo) :: r) c d) (Hx : x ∈ todo).

Lemma release_waits : l = true /\ n ∈ refs_of g x /\ n ∈ d /\ x <> n /\ (exists S, refs g !! x = Some S /\ n ∈ S) /\ x ∉ items p r /\ x ∉ c.
Proof.
  pose proof HG as []. apply Forall_cons in gi_threads0 as [(H1 & H2 & H3 & -> & H4) Hr].
  assert (n ∈ refs_of g x) as Hn by (by apply H4). assert (exists S, refs g !! x = Some S /\ n ∈ S) as (S & HS & HnS).
  { unfold refs_of in Hn. destruct (refs g !! x) as [S|] eqn:HS; [by exists S|by apply not_elem_of_empty in Hn]. }
  assert (forall m, refs g !! m = None \/ refs g !! m = Some ∅ -> m <> x) as Hne.
  { intros m [Hm|Hm] ->; rewrite Hm in HS; [done|]. injection HS as <-. by apply not_elem_of_empty in HnS. }
  assert (forall m, item_ok g c m -> m <> x) as Hio by (intros m (_ & _ & Hm); by apply Hne).
  split; [done|]. split; [done|]. split; [done|]. split; [apply not_eq_sym, Hne; by right|]. split; [by exists S|]. split.
  - rewrite elem_of_items. intros [Hp|(t & Ht & Hti)].
    + rewrite Forall_forall in gi_pending0. by apply (Hio x); [apply gi_pending0|].
    + rewrite Forall_forall in Hr. specialize (Hr t Ht). destruct t as [| | |w| | |rest| | | |]; try by apply not_elem_of_nil in Hti.
      * apply list_elem_of_singleton in Hti. destruct w; cbn in Hr, Hti; subst; apply (Hne n0); try done; naive_solver.
      * by apply (Hio x); [apply Hr, elem_of_elements|].
  - intros Hxc. destruct (gi_refs0 x S HS) as (_ & _ & HSd & _ & _).
    destruct (gi_waits0 x Hxc) as [Hw|Hw]; rewrite Hw in HS; [done|]. injection HS as <-. by apply not_elem_of_empty in HnS.
Qed.

Notation g' := (release n x g).
Lemma refs_of_release m : refs_of g' m = if decide (m = x) then refs_of g x ∖ {[n]} else refs_of g m.
Proof. apply refs_of_insert. Qed.

Lemma sym_release m : m <> n -> sym g m -> sym g' m.
Proof.
  intros Hm Hs k Hk. rewrite refs_of_release. specialize (Hs k Hk). case_decide as Hkx; [subst k|done].
  by apply elem_of_difference; split; [|apply not_elem_of_singleton].
Qed.

(** The graph and the other threads after it, whatever becomes of the item. *)
Lemma GI_release l' p' t' :
  (p' = p /\ (refs_of g x ∖ {[n]} <> ∅ \/ fails t' = true) \/ p' = p ++ [x] /\ refs_of g x ∖ {[n]} = ∅) ->
  (t' = Run (Release n (todo ∖ {[x]})) /\ l' = true \/ fails t' = true /\ thread_items t' = [] /\ locks t' = 0 /\ thread_ok g' l' c d t' /\ l' = false) ->
  GI g' l' p' e (t' :: r) c d.
Proof.
  intros Hp' Ht'. destruct release_waits as (Hl & Hn & Hnd & Hxn & (S & HS & HnS) & Hxi & Hxc).
  assert (forall t, t ∈ r -> locks t = 1 -> False) as Hnl by (eapply locked_alone; rewrite <- Hl; exact HG).
  pose proof (gi_threads _ _ _ _ _ _ _ HG) as [(H1 & H2 & H3 & _ & H4) Hr]%Forall_cons.
  assert (refs_of g x = S) as HSx by (unfold refs_of; by rewrite HS).
  destruct (gi_refs _ _ _ _ _ _ _ HG x S HS) as (Hxl & HSl & HSd & HdS & HSr).
  assert (refs g' !! x = Some (S ∖ {[n]})) as HSx' by (unfold release; cbn; by rewrite lookup_insert_eq, HSx).
  assert (forall m, m <> x -> refs g' !! m = refs g !! m) as Hne by (intros; unfold release; cbn; by rewrite lookup_insert_ne).
  destruct (others _ _ _ _ _ _ _ _ g' l' c d HG) as [Hpo Hro].
  { intros m Hm Hmi Hleft. cbn in Hm. split; [done|]. split; [apply Hne; by intros ->|]. split; [done|]. split; [done|by apply sym_release]. }
  { intros t Ht Hlk. by destruct (Hnl t Ht). }
  rewrite HSx in Hp'. assert (refs_of g' n = ∅ /\ refs g' !! n = Some ∅) as [Hrn Hrn'].
  { unfold refs_of. rewrite Hne by done. by rewrite H3. }
  pose proof (gi_nodup _ _ _ _ _ _ _ HG) as Hnodup. pose proof (gi_locks _ _ _ _ _ _ _ HG) as Hlocks.
  assert (item_ok g' c x \/ p' = p) as Hxok.
  { destruct Hp' as [[-> _]|[-> He]]; [by right|left]. split; [done|]. split; [done|]. right. by rewrite HSx', He. }
  split; try apply HG.
  - assert (items p' (t' :: r) ≡ₚ thread_items t' ++ (if decide (p' = p) then [] else [x]) ++ items p r) as ->.
    { rewrite items_cons. f_equiv. destruct (decide (p' = p)) as [->|Hpp]; [done|]. destruct Hp' as [[-> _]|[-> _]]; [done|].
      unfold items. rewrite <- app_assoc. cbn. by rewrite <- Permutation_middle. }
    rewrite items_cons in Hnodup. cbn in Hnodup. apply NoDup_cons in Hnodup as [Hni Hnodup].
    assert (NoDup ((if decide (p' = p) then [] else [x]) ++ items p r)) as Hnd2 by (destruct (decide (p' = p)); [done|by apply NoDup_cons]).
    destruct Ht' as [[-> _]|(_ & -> & _)]; [|done]. cbn. apply NoDup_cons. split; [|done].
    rewrite elem_of_app. intros [Hin|Hin]; [|done]. destruct (decide (p' = p)); [by apply not_elem_of_nil in Hin|]. apply list_elem_of_singleton in Hin. congruence.
  - destruct Hxok as [Hxok| ->]; [|done]. destruct Hp' as [[-> _]|[-> _]]; [done|]. apply Forall_app. split; [done|by apply Forall_singleton].
  - constructor; [|done]. destruct Ht' as [[-> ->]|(_ & _ & _ & ? & _)]; [|done]. cbn. split; [done|]. split; [done|]. split; [done|]. split; [done|].
    intros m. rewrite refs_of_release. rewrite elem_of_difference, not_elem_of_singleton. destruct (decide (m = x)) as [->|Hmx].
    + rewrite elem_of_difference, not_elem_of_singleton. tauto.
    + rewrite H4. tauto.
  - rewrite Hl in Hlocks. cbn in Hlocks |- *. destruct Ht' as [[-> ->]|(_ & _ & -> & _ & ->)]; cbn; lia.
  - intros m T HT. destruct (decide (m = x)) as [->|Hmx].
    + rewrite HSx' in HT. injection HT as <-. split; [done|]. split; [clear -HSl; set_solver|]. split; [clear -HSd; set_solver|].
      split; [clear -HdS H2; intros y Hy; destruct (decide (y = n)); set_solver|]. intros k Hk. apply HSr. clear -Hk. set_solver.
    + rewrite Hne in HT by done. by apply (gi_refs _ _ _ _ _ _ _ HG).
  - intros m Hm. apply sym_release; [by intros ->|by apply (gi_sym _ _ _ _ _ _ _ HG)].
  - intros m Hm. rewrite Hne by (by intros ->). by apply (gi_waits _ _ _ _ _ _ _ HG).
  - destruct Ht' as [[-> _]|(Hf & _)]; [|right; left; cbn; by rewrite Hf]. cbn [fails existsb orb].
    destruct (gi_covered _ _ _ _ _ _ _ HG) as [?|[?|Hcov]]; [by left|by right; left|right; right]. intros m Hm.
    specialize (Hcov m Hm). rewrite items_cons in Hcov |- *. cbn [thread_items work_node] in *.
    destruct (decide (m = x)) as [->|Hmx].
    + destruct Hp' as [[-> [Hq|?]]|[-> _]]; [right; by exists (S ∖ {[n]})|done|]. left. apply elem_of_app. right. apply elem_of_items. left. apply elem_of_app. right. left.
    + rewrite Hne by done. destruct Hcov as [Hin|?]; [left|by right]. apply elem_of_app. apply elem_of_app in Hin as [?|Hin]; [by left|right].
      rewrite elem_of_items in Hin |- *. destruct Hin as [Hin|?]; [left|by right]. destruct Hp' as [[-> _]|[-> _]]; [done|]. apply elem_of_app. by left.
Qed.
End release.

(** *** The steps of the pool, for the graph *)

Lemma GI_perm g l p e ts ts' c d : GI g l p e ts c d -> ts ≡ₚ ts' -> GI g l p e ts' c d.
Proof.
  intros HG Hp. apply (GI_acts _ _ _ _ _ _ _ _ HG). clear -Hp. induction Hp; cbn [List.filter];
    repeat match goal with |- context [acts ?t] => destruct (acts t) end; try done; [by constructor|apply Permutation_swap|by etrans].
Qed.

Lemma GI_idle g l p e t t' r c d : GI g l p e (t :: r) c d -> acts t = false -> acts t' = false -> GI g l p e (t' :: r) c d.
Proof. intros HG Ht Ht'. apply (GI_acts _ _ _ _ _ _ _ _ HG). cbn [List.filter]. by rewrite Ht, Ht'. Qed.

Lemma GI_take g l x p e t r c d : GI g l (x :: p) e (t :: r) c d -> acts t = false -> GI g l p e (Run (Start x) :: r) c d.
Proof.
  intros HG Ht. apply (GI_idle _ _ _ _ _ Woken) in HG; [|done|done]. pose proof HG as [].
  apply Forall_cons in gi_threads0 as [_ Hr]. apply Forall_cons in gi_pending0 as [Hx Hp].
  assert (items p (Run (Start x) :: r) ≡ₚ items (x :: p) (Woken :: r)) as Hi by (rewrite !items_cons; done).
  split; try done.
  - by rewrite Hi.
  - by constructor.
  - setoid_rewrite Hi. done.
Qed.

Lemma GI_enqueue g l x p e rest r c d :
  GI g l p e (Enqueue rest :: r) c d -> x ∈ rest -> GI g l (p ++ [x]) e (Enqueue (rest ∖ {[x]}) :: r) c d.
Proof.
  intros HG Hx. pose proof HG as []. apply Forall_cons in gi_threads0 as [Hok Hr]. cbn in Hok.
  assert (items (p ++ [x]) (Enqueue (rest ∖ {[x]}) :: r) ≡ₚ items p (Enqueue rest :: r)) as Hi.
  { rewrite !items_cons. cbn [thread_items]. rewrite (union_difference_L {[x]} rest) at 2 by (clear -Hx; set_solver).
    rewrite elements_union_singleton by (clear; set_solver). unfold items. rewrite <- app_assoc. cbn [app]. rewrite !app_assoc.
    by rewrite <- Permutation_middle. }
  split; try done.
  - by rewrite Hi.
  - apply Forall_app. split; [done|]. apply Forall_singleton. by apply Hok.
  - constructor; [|done]. intros n Hn. apply Hok. clear -Hn. set_solver.
  - setoid_rewrite Hi. done.
Qed.

Lemma GI_process g l p e rest r c d :
  GI g l p e (Enqueue rest :: r) c d -> is_Some e \/ rest = ∅ -> GI g l p e (Process :: r) c d.
Proof.
  intros HG Hx. pose proof HG as []. apply Forall_cons in gi_threads0 as [_ Hr]. rewrite items_cons in gi_nodup0.
  apply NoDup_app in gi_nodup0 as (_ & _ & Hnd). split; try done.
  - by constructor.
  - destruct Hx as [?| ->]; [by left|]. setoid_rewrite items_cons in gi_covered0. cbn [thread_items] in *. rewrite elements_empty in gi_covered0. done.
Qed.

(** An exception is recorded. *)
Lemma GI_record g l p e x y r c d : GI g l p e (Lock (Some x) :: r) c d -> GI g l p (Some y) (Lock None :: r) c d.
Proof.
  intros HG. pose proof HG as []. apply Forall_cons in gi_threads0 as [_ Hr]. split; try done; [by constructor|left; by eexists].
Qed.

Lemma GI_recorded g l p e x r c d : GI g l p e (Lock (Some x) :: r) c d -> is_Some e \/ x = None -> GI g l p e (Lock None :: r) c d.
Proof.
  intros HG [[y ->]| ->]; [by eapply GI_record|]. by eapply GI_idle.
Qed.

(** ** The pool and its threads *)

Definition busy (t : Thread) : nat := match t with Run _ | Lock (Some _) => 1 | _ => 0 end.
Definition awake (t : Thread) : Prop := match t with Lock _ | Woken | Run _ | Enqueue _ | Process => True | _ => False end.
Definition stopped (t : Thread) : Prop := match t with Exited | AfterWork | Join _ | Done _ => True | _ => False end.
(** Thrown by a call while the pool was not quitting. *)
Definition genuine (e : thrown) : Prop := exists n x, e = Thrown x /\ throws false n x = true.
Definition pos_ok (p : Pool) (i : nat) (t : Thread) : Prop :=
  match t with
  | Enqueue _ | Process => i = 0 /\ draining p = false
  | AfterWork | Join _ | Done _ => i = 0 /\ draining p = true
  | Exited => i <> 0
  | _ => i = 0 -> draining p = true
  end.
(** Some nodes wait for each other. *)
Definition deadlocked : Prop := exists X : gset N, X <> ∅ /\ X ⊆ nodes /\ forall n, n ∈ X -> exists m, m ∈ X /\ m ∈ deps n.
Definition outcome_ok (d : gset N) (r : outcome) : Prop :=
  match r with Returned => nodes ⊆ d | Rethrown e => genuine e | Cyclic => deadlocked end.

Record PI (p : Pool) (ts : list Thread) (d : gset N) : Prop := {
  pi_main : (0 < length ts)%nat;
  pi_pos : forall i t, ts !! i = Some t -> pos_ok p i t;
  pi_active : active p = sum_list_with busy ts;
  pi_quit : quit p = true -> Wait ∉ ts;
  pi_drained : quit p = true -> exception p = None -> active p = 0 /\ pending p = [] /\ draining p = true;
  pi_exc : forall e, exception p = Some e -> quit p = true /\ genuine e;
  pi_stopped : forall t, t ∈ ts -> stopped t -> quit p = true;
  pi_awake : quit p = false -> exists t, t ∈ ts /\ awake t;
  pi_size : (length ts <= 1 `max` maxThreads)%nat;
  pi_fails : forall e, Lock (Some (Some e)) ∈ ts -> genuine e \/ quit p = true;
  pi_outcome : forall r, Join r ∈ ts \/ Done r ∈ ts -> outcome_ok d r;
}.

Lemma sum_insert {A} (f : A -> nat) (l : list A) i x y :
  l !! i = Some x -> sum_list_with f (<[i := y]> l) + f x = sum_list_with f l + f y.
Proof.
  revert i; induction l as [|z l IH]; intros [|i] Hi; try done.
  - injection Hi as ->. cbn. lia.
  - change (<[S i := y]> (z :: l)) with (z :: <[i := y]> l). cbn [sum_list_with]. specialize (IH i Hi). lia.
Qed.

Lemma elem_of_insert {A} (l : list A) i x y : l !! i = Some x -> forall z, z ∈ <[i := y]> l -> z = y \/ z ∈ l.
Proof.
  intros Hi z (j & Hj)%list_elem_of_lookup. destruct (decide (i = j)) as [->|Hij].
  - rewrite list_lookup_insert_eq in Hj by (by eapply lookup_lt_Some). left. congruence.
  - rewrite list_lookup_insert_ne in Hj by done. right. by eapply list_elem_of_lookup_2.
Qed.

Lemma active_pos p ts d t : PI p ts d -> t ∈ ts -> busy t = 1 -> (0 < active p)%nat.
Proof.
  intros HP (l1 & l2 & ->)%list_elem_of_split Hb. rewrite (pi_active _ _ _ HP), sum_list_with_app. cbn. lia.
Qed.

Lemma pos_ok_draining p p' i t : draining p' = draining p -> pos_ok p i t -> pos_ok p' i t.
Proof. intros Hd. unfold pos_ok. by rewrite Hd. Qed.

Lemma PI_goto p ts d i t t' p' d' :
  PI p ts d -> ts !! i = Some t ->
  active p' + busy t = active p + busy t' -> exception p' = exception p -> quit p' = quit p ->
  (draining p' = draining p \/ i = 0 /\ draining p' = true) ->
  (p' = p \/ quit p = false \/ is_Some (exception p)) ->
  pos_ok p' i t' ->
  (t' = Wait -> quit p = false) -> (stopped t' -> quit p = true) ->
  (quit p = false -> awake t' \/ exists j u, j <> i /\ ts !! j = Some u /\ awake u) ->
  (forall e, t' = Lock (Some (Some e)) -> genuine e \/ quit p = true) ->
  (forall r, t' = Join r \/ t' = Done r -> outcome_ok d' r) -> d ⊆ d' ->
  PI p' (<[i := t']> ts) d'.
Proof.
  intros HP Hi Hact Hexc Hq Hdr Hp Hpos Hw Hst Haw Hf Hout Hd. pose proof HP as [].
  pose proof (sum_insert busy ts i t t' Hi) as Hsum. pose proof (lookup_lt_Some _ _ _ Hi) as Hlt.
  pose proof (elem_of_insert ts i t t' Hi) as Hel.
  split; rewrite ?length_insert; try done.
  - intros j u Hj. destruct (decide (i = j)) as [<-|Hij]; [rewrite list_lookup_insert_eq in Hj by done; by injection Hj as <-|].
    rewrite list_lookup_insert_ne in Hj by done. specialize (pi_pos0 j u Hj). destruct Hdr as [Hdr|[-> Hdr]]; [by eapply pos_ok_draining|].
    unfold pos_ok in *. rewrite Hdr. destruct u; try done; try (by destruct pi_pos0); by intros.
  - lia.
  - rewrite Hq. intros Hqt Hin. destruct (Hel Wait Hin) as [Hwt|Hin']; [by rewrite (Hw (eq_sym Hwt)) in Hqt|by apply pi_quit0].
  - rewrite Hq, Hexc. intros Hqt He. destruct Hp as [->|[Hp|[? Hp]]]; [by apply pi_drained0|congruence..].
  - intros e. rewrite Hexc, Hq. apply pi_exc0.
  - rewrite Hq. intros u Hu Hs. destruct (Hel u Hu) as [->|Hu']; [by apply Hst|by eapply pi_stopped0].
  - rewrite Hq. intros Hqf. destruct (Haw Hqf) as [Ha|(j & u & Hj & Hu & Ha)].
    + exists t'. split; [|done]. apply (list_elem_of_lookup_2 _ i). by apply list_lookup_insert_eq.
    + exists u. split; [|done]. apply (list_elem_of_lookup_2 _ j). by rewrite list_lookup_insert_ne.
  - rewrite Hq. intros e He. destruct (Hel _ He) as [He0|He']; [by apply Hf|by apply pi_fails0].
  - intros r [Hr|Hr]; (destruct (Hel _ Hr) as [Hr'|Hr']; [by apply Hout; rewrite <- Hr'; auto|]);
      (assert (outcome_ok d r) as Ho by (apply pi_outcome0; auto)); destruct r; cbn in *; try done; clear -Ho Hd; set_solver.
Qed.

Definition woken (t t' : Thread) : Prop := t' = t \/ t = Wait /\ t' = Woken.

Lemma woken_pos p i t t' : woken t t' -> pos_ok p i t -> pos_ok p i t'.
Proof. by intros [->|[-> ->]]. Qed.

Lemma woken_in ts ts' t' : Forall2 woken ts ts' -> t' ∈ ts' -> t' <> Woken -> t' ∈ ts.
Proof.
  intros HF (i & Hi)%list_elem_of_lookup Hne. destruct (Forall2_lookup_r _ _ _ _ _ HF Hi) as (t & Ht & [->|[_ ?]]); [|done].
  by eapply list_elem_of_lookup_2.
Qed.

Lemma PI_wake p ts ts' d : PI p ts d -> Forall2 woken ts ts' -> PI p ts' d.
Proof.
  intros [] HF. pose proof (Forall2_length _ _ _ HF) as Hlen. split; rewrite <- ?Hlen; try done.
  - intros i t' Hi. destruct (Forall2_lookup_r _ _ _ _ _ HF Hi) as (t & Ht & Hw). eapply woken_pos; [exact Hw|by apply pi_pos0].
  - rewrite pi_active0. clear -HF. induction HF as [|t t' ts ts' [->|[-> ->]] _ IH]; cbn; lia.
  - intros Hq Hin. apply (pi_quit0 Hq). by eapply woken_in.
  - intros t Ht Hs. apply (pi_stopped0 t); [|done]. eapply woken_in; [done|done|]. by intros ->.
  - intros Hq. destruct (pi_awake0 Hq) as (t & (i & Hi)%list_elem_of_lookup & Ha).
    destruct (Forall2_lookup_l _ _ _ _ _ HF Hi) as (t' & Ht' & [->|[-> _]]); [|done]. exists t. split; [by eapply list_elem_of_lookup_2|done].
  - intros e He. apply pi_fails0. by eapply woken_in.
  - intros r [Hr|Hr]; apply pi_outcome0; [left|right]; by eapply woken_in.
Qed.

Lemma woken_refl ts : Forall2 woken ts ts.
Proof. induction ts; constructor; [by left|done]. Qed.

Lemma wake_all_woken ts : Forall2 woken ts (wake_thread <$> ts).
Proof. induction ts as [|t ts IH]; cbn; constructor; [|done]. destruct t; [by left|by right|by left..]. Qed.

Lemma wake_one_woken ts j : ts !! j = Some Wait -> Forall2 woken ts (<[j := Woken]> ts).
Proof.
  revert j; induction ts as [|t ts IH]; intros [|j]; cbn; [done|done|intros [= ->]|intros Hj].
  - constructor; [by right|apply woken_refl].
  - constructor; [by left|by apply IH].
Qed.

Lemma woken_acts ts ts' : Forall2 woken ts ts' -> List.filter acts ts = List.filter acts ts'.
Proof. induction 1 as [|t t' ts ts' [->|[-> ->]] _ IH]; cbn; by rewrite ?IH. Qed.

Lemma PI_spawn p ts d : PI p ts d -> (length ts < maxThreads)%nat -> PI p (ts ++ [Lock None]) d.
Proof.
  intros [] Hl. split; rewrite ?length_app; cbn; try lia; try done.
  - intros i t [Hi|[Hi Ht]]%lookup_app_Some; [by apply pi_pos0|]. apply list_lookup_singleton_Some in Ht as [Hi' <-]. cbn. intros ->. lia.
  - rewrite pi_active0, sum_list_with_app. cbn. lia.
  - intros Hq [Hin|?%list_elem_of_singleton]%elem_of_app; [by apply pi_quit0|done].
  - intros t [Ht| ->%list_elem_of_singleton]%elem_of_app Hs; [by eapply pi_stopped0|done].
  - intros Hq. destruct (pi_awake0 Hq) as (t & Ht & Ha). exists t. split; [by apply elem_of_app; left|done].
  - intros e [He|?%list_elem_of_singleton]%elem_of_app; [by apply pi_fails0|done].
  - intros r Hr. apply pi_outcome0. rewrite !elem_of_app, !list_elem_of_singleton in Hr. naive_solver.
Qed.

Lemma PI_pending p ts d l : PI p ts d -> quit p = false -> PI (mkPool l (active p) (exception p) (draining p) (quit p)) ts d.
Proof. intros [] Hq. split; cbn; try done. congruence. Qed.

(** *** Every step keeps the invariant *)

Record Inv (s : State) : Prop := {
  inv_graph : GI (graph s) (graph_locked s) (pending (pool s)) (exception (pool s)) (threads s) (called s) (completed s);
  inv_pool : PI (pool s) (threads s) (completed s);
}.

Lemma insert_perm {A} (l : list A) i x : l !! i = Some x -> exists r, l ≡ₚ x :: r /\ forall y, <[i := y]> l ≡ₚ y :: r.
Proof.
  intros Hi. exists (take i l ++ drop (S i) l). pose proof (lookup_lt_Some _ _ _ Hi) as Hlt. split.
  - rewrite <- (take_drop_middle l i x Hi) at 1. by rewrite <- Permutation_middle.
  - intros y. rewrite insert_take_drop by done. by rewrite <- Permutation_middle.
Qed.

Lemma woken_insert ts ts' i t : Forall2 woken ts ts' -> Forall2 woken (<[i := t]> ts) (<[i := t]> ts').
Proof. intros HF. apply Forall2_insert; [done|by left]. Qed.

Lemma enqueue_spec c x s o :
  enqueue c x s = Some o ->
  match o with
  | inl _ => quit (pool s) = true
  | inr s' =>
      quit (pool s) = false /\ graph s' = graph s /\ graph_locked s' = graph_locked s /\ called s' = called s /\ completed s' = completed s /\
      pool s' = mkPool (pending (pool s) ++ [x]) (active (pool s)) (exception (pool s)) (draining (pool s)) (quit (pool s)) /\
      exists ts1, (ts1 = threads s \/ (length (threads s) < maxThreads)%nat /\ ts1 = threads s ++ [Lock None]) /\ Forall2 woken ts1 (threads s')
  end.
Proof.
  unfold enqueue. destruct (quit (pool s)) eqn:Hq; [by intros [= <-]|]. set (s1 := set_pool _ s). set (s2 := if _ : bool then _ else s1).
  assert (graph s2 = graph s /\ graph_locked s2 = graph_locked s /\ called s2 = called s /\ completed s2 = completed s /\ pool s2 = pool s1 /\
    (threads s2 = threads s \/ (length (threads s) < maxThreads)%nat /\ threads s2 = threads s ++ [Lock None])) as (H1 & H2 & H3 & H4 & H5 & H6).
  { subst s2. destruct (_ && _) eqn:Hb; [|by repeat split; left]. apply andb_true_iff in Hb as [_ Hb%Nat.ltb_lt]. by repeat split; right. }
  destruct (notify_one (wake c) s2) as [s3|] eqn:Hn; [|done]. intros [= <-]. split; [done|].
  assert (s3 = set_threads (threads s3) s2 /\ Forall2 woken (threads s2) (threads s3)) as [-> HF].
  { unfold notify_one in Hn. destruct (threads s2 !! wake c) as [[]|] eqn:Hw; try destruct (existsb is_wait (threads s2)); try done;
      injection Hn as <-; (split; [by destruct s2|]); first [by apply wake_one_woken|apply woken_refl]. }
  cbn. rewrite H1, H2, H3, H4, H5. repeat (split; [done|]). by exists (threads s2).
Qed.

(** An item is enqueued by thread [i], which goes on at [t']. *)
Lemma enqueue_goto c x s s' i t t' :
  enqueue c x s = Some (inr s') -> threads s !! i = Some t ->
  GI (graph s) (graph_locked s) (pending (pool s) ++ [x]) (exception (pool s)) (<[i := t']> (threads s)) (called s) (completed s) ->
  PI (pool s) (<[i := t']> (threads s)) (completed s) ->
  Inv (goto i t' s').
Proof.
  intros He Hi HG HP. apply enqueue_spec in He as (Hq & H1 & H2 & H3 & H4 & H5 & ts1 & Hts & HF).
  pose proof (lookup_lt_Some _ _ _ Hi) as Hlt. apply (woken_insert _ _ i t') in HF.
  apply (PI_pending _ _ _ (pending (pool s) ++ [x])) in HP; [|done]. rewrite <- H5 in HP.
  assert (PI (pool s') (<[i := t']> ts1) (completed s) /\ List.filter acts (<[i := t']> ts1) = List.filter acts (<[i := t']> (threads s))) as [HP1 Ha].
  { destruct Hts as [->|[Hl ->]]; [by split|]. rewrite insert_app_l by done. split; [apply PI_spawn; [done|by rewrite length_insert]|].
    rewrite List.filter_app. cbn. by rewrite app_nil_r. }
  split; cbn; rewrite ?H1, ?H2, ?H3, ?H4.
  - rewrite H5. cbn. apply (GI_acts _ _ _ _ _ _ _ _ HG). by rewrite <- (woken_acts _ _ HF), Ha.
  - by eapply PI_wake.
Qed.

Lemma busy_not_quit s i t : Inv s -> threads s !! i = Some t -> busy t = 1 -> quit (pool s) = false \/ is_Some (exception (pool s)).
Proof.
  intros [_ HP] Hi Hb. destruct (quit (pool s)) eqn:Hq; [right|by left]. destruct (exception (pool s)) eqn:He; [by eexists|].
  destruct (pi_drained _ _ _ HP Hq He) as (H0 & _). pose proof (active_pos _ _ _ t HP) as Ha. rewrite H0 in Ha.
  exfalso. assert (0 < 0)%nat by (apply Ha; [by eapply list_elem_of_lookup_2|done]). lia.
Qed.

(** Thread [i] goes on from an item it is in. *)
Lemma PI_work s i w t' d' :
  Inv s -> threads s !! i = Some (Run w) ->
  (exists w', t' = Run w') \/ t' = Lock (Some None) \/ (exists e, t' = Lock (Some (Some e)) /\ (genuine e \/ quit (pool s) = true)) ->
  completed s ⊆ d' -> PI (pool s) (<[i := t']> (threads s)) d'.
Proof.
  intros HI Hi Ht' Hd. pose proof (pi_pos _ _ _ (inv_pool _ HI) _ _ Hi) as Hpos.
  assert (busy t' = 1 /\ pos_ok (pool s) i t' /\ awake t' /\ t' <> Wait /\ ~ stopped t' /\ forall r, ~ (t' = Join r \/ t' = Done r)) as (Hb & Hp & Ha & Hw & Hs & Hr).
  { destruct Ht' as [[w' ->]|[->|(e & -> & _)]]; naive_solver. }
  apply (PI_goto (pool s) _ (completed s) i (Run w) t'); [apply HI|done..|cbn; lia|done|done|by left|by left|done| | |by left| | |done].
  - done.
  - done.
  - intros e ->. destruct Ht' as [[? ?]|[?|(e' & [= <-] & ?)]]; done.
  - intros r Hrr. by destruct (Hr r).
Qed.

Lemma call_spec {A} c n s (ok : A) r : call c n s ok = Some r ->
  match r with inr a => a = ok | inl x => throws (quit (pool s)) n x = true end.
Proof.
  unfold call. destruct (call_throws c) as [x|]; [|by intros [= <-]]. destruct (throws _ n x) eqn:Ht; [|done]. by intros [= <-].
Qed.

Lemma call_genuine n x s : throws (quit (pool s)) n x = true -> genuine (Thrown x) \/ quit (pool s) = true.
Proof. destruct (quit (pool s)); [by right|left; by exists n, x]. Qed.

Section work.
Context (s : State) (i : nat) (w : Work) (HI : Inv s) (Hi : threads s !! i = Some (Run w)).

(** To show the invariant where the item goes on in the state [s'] with the threads of [s]. *)
Lemma Inv_work t' s' :
  (forall r, GI (graph s) (graph_locked s) (pending (pool s)) (exception (pool s)) (Run w :: r) (called s) (completed s) ->
     GI (graph s') (graph_locked s') (pending (pool s)) (exception (pool s)) (t' :: r) (called s') (completed s')) ->
  pool s' = pool s -> threads s' = threads s -> completed s ⊆ completed s' ->
  (exists w', t' = Run w') \/ t' = Lock (Some None) \/ (exists e, t' = Lock (Some (Some e)) /\ (genuine e \/ quit (pool s) = true)) ->
  Inv (goto i t' s').
Proof.
  intros HG Hp Hts Hd Ht'. destruct (insert_perm _ _ _ Hi) as (r & Hr & Hins). split; cbn; rewrite Hp, Hts.
  - eapply GI_perm; [|symmetry; apply Hins]. apply HG. eapply GI_perm; [apply HI|exact Hr].
  - by eapply PI_work.
Qed.

End work.

Lemma work_step_Inv s i w c s' : Inv s -> threads s !! i = Some (Run w) -> work_step c i w s = Some s' -> Inv s'.
Proof.
  intros HI Hi Hs. pose proof (Inv_work s i w HI Hi) as Inv_work. destruct w as [n|n|n rs|n|n|n todo]; cbn [work_step] in Hs.
  - destruct (graph_locked s) eqn:Hl; [done|]. injection Hs as <-. apply Inv_work; [|done|done|done|left; by eexists].
    intros r HG. rewrite Hl. by apply GI_start.
  - destruct (call c n s _) as [o|] eqn:Hc; [|done]. cbn in Hs. injection Hs as <-. apply call_spec in Hc. destruct o as [x|rs].
    + apply Inv_work; [|done|done|done|right; right; eexists; split; [done|by eapply call_genuine]]. intros r HG. by eapply GI_throw.
    + subst rs. apply Inv_work; [|done|done|done|left; by eexists]. intros r HG. by apply GI_getRefs.
  - destruct (graph_locked s) eqn:Hl; [done|]. cbv zeta in Hs.
    assert (Inv (goto i (if decide (refs_of (add_refs n rs (graph s)) n = ∅) then Run (DoWork n) else Lock (Some None)) (set_graph (add_refs n rs (graph s)) false s))) as H'.
    { apply Inv_work; [|done|done|done|destruct (decide _); [left; by eexists|by right; left]]. intros r HG. by apply GI_addRefs. }
    injection Hs as <-. by destruct (decide _).
  - destruct (call c n s ()) as [o|] eqn:Hc; [|done]. cbn in Hs. injection Hs as <-. apply call_spec in Hc. destruct o as [x|].
    + apply Inv_work; [|done|done|done|right; right; eexists; split; [done|by eapply call_genuine]]. intros r HG.
      by apply (GI_called _ _ _ _ n _ _ _ _ false).
    + apply Inv_work; [|done|done|cbn; clear; set_solver|left; by eexists]. intros r HG. by apply (GI_called _ _ _ _ n _ _ _ _ true).
  - destruct (graph_locked s) eqn:Hl; [done|]. injection Hs as <-. apply Inv_work; [|done|done|done|left; by eexists].
    intros r HG. by apply GI_finish.
  - destruct (decide (todo = ∅)) as [->|Hne].
    { injection Hs as <-. apply Inv_work; [|done|done|done|by right; left]. intros r HG. by eapply GI_release_end. }
    destruct (pick c) as [x|]; [|done]. cbn [mbind option_bind] in Hs. destruct (bool_decide (x ∈ todo)) eqn:Hx; [|done].
    apply bool_decide_eq_true in Hx. cbn [negb] in Hs.
    destruct (insert_perm _ _ _ Hi) as (r0 & Hr0 & Hins0).
    pose proof (GI_perm _ _ _ _ _ _ _ _ (inv_graph _ HI) Hr0) as HG0.
    destruct (release_waits _ _ _ _ _ _ _ _ _ _ HG0 Hx) as (Hl & Hn & _). rewrite decide_True in Hs by done.
    destruct (decide (refs_of (graph s) x ∖ {[n]} = ∅)) as [He|He].
    + destruct (enqueue c x _) as [[[]|s1]|] eqn:Hq; [| |done]; cbn [mbind option_bind] in Hs; injection Hs as <-.
      * apply enqueue_spec in Hq. apply Inv_work; [|done|done|done|right; right; eexists; split; [done|by right]].
        intros r HG. apply (GI_release _ _ _ _ _ _ _ _ _ _ HG Hx); [by left; split; [|right]|by right].
      * eapply enqueue_goto; [exact Hq|exact Hi| |].
        -- eapply GI_perm; [|symmetry; apply Hins0]. apply (GI_release _ _ _ _ _ _ _ _ _ _ HG0 Hx); [by right|by left].
        -- cbn. eapply PI_work; [exact HI|exact Hi|left; by eexists|done].
    + injection Hs as <-. apply Inv_work; [|done|done|done|left; by eexists].
      intros r HG. apply (GI_release _ _ _ _ _ _ _ _ _ _ HG Hx); [by left; split; [|left]|by left].
Qed.

Lemma no_wait (ts : list Thread) : Wait ∉ wake_thread <$> ts.
Proof. intros (t & Ht & _)%list_elem_of_fmap. by destruct t. Qed.

Lemma PI_set_quit p ts d exc' :
  PI p ts d -> Wait ∉ ts ->
  (exc' = None -> active p = 0 /\ pending p = [] /\ draining p = true) -> (forall e, exc' = Some e -> genuine e) ->
  PI (mkPool (pending p) (active p) exc' (draining p) true) ts d.
Proof. intros [] Hw Hn He. split; cbn; try done. - intros e Hs. split; [done|by apply He]. - intros e Hf. by right. Qed.

(** All threads but [i] seen after a [notify_all]. *)
Lemma acts_wake ts i t : List.filter acts (<[i := t]> (wake_thread <$> ts)) = List.filter acts (<[i := t]> ts).
Proof. symmetry. apply woken_acts, woken_insert, wake_all_woken. Qed.

Definition looks (t : Thread) : Prop := t = Lock None \/ t = Woken.

Lemma other_awake s i t :
  Inv s -> threads s !! i = Some t -> looks t -> (0 < active (pool s))%nat \/ draining (pool s) = false ->
  exists j u, j <> i /\ threads s !! j = Some u /\ awake u.
Proof.
  intros [_ HP] Hi Ht [Ha|Hd].
  - rewrite (pi_active _ _ _ HP) in Ha. assert (exists u, u ∈ threads s /\ busy u = 1) as (u & (j & Hj)%list_elem_of_lookup & Hu).
    { clear -Ha. induction (threads s) as [|u ts IH]; cbn in Ha; [lia|]. destruct (decide (busy u = 1)) as [Hu|Hu].
      - exists u. split; [by left|done].
      - destruct IH as (v & Hv & ?); [|exists v; split; [by right|done]]. destruct u as [[]| | | | | | | | | |]; cbn in *; lia. }
    exists j, u. split; [|split; [done|by destruct u]]. intros ->. rewrite Hi in Hj. injection Hj as ->. by destruct Ht as [-> | ->].
  - pose proof (pi_main _ _ _ HP) as Hm. destruct (lookup_lt_is_Some_2 _ _ Hm) as [u Hu]. exists 0, u.
    pose proof (pi_pos _ _ _ HP 0 u Hu) as Hp. pose proof (pi_pos _ _ _ HP i t Hi) as Hpi. split; [|split; [done|]].
    + intros <-. destruct Ht as [-> | ->]; cbn in Hpi; rewrite (Hpi eq_refl) in Hd; done.
    + destruct u; cbn in Hp |- *; try done; try (by rewrite (Hp eq_refl) in Hd); destruct Hp as [_ Hp]; congruence.
Qed.

Lemma Inv_wait s i t : Inv s -> threads s !! i = Some t -> looks t -> Inv (wait_for_item i s).
Proof.
  intros HI Hi Ht. destruct (insert_perm _ _ _ Hi) as (r & Hr & Hins). pose proof HI as [HG HP].
  pose proof (GI_perm _ _ _ _ _ _ _ _ HG Hr) as HGr. pose proof (pi_pos _ _ _ HP i t Hi) as Hpos.
  assert (acts t = false /\ busy t = 0 /\ (i = 0 -> draining (pool s) = true) /\ wake_thread t = t) as (Hat & Hbt & Hdt & Hwt) by (by destruct Ht as [-> | ->]).
  assert (pos_ok (pool s) i (returned i) /\ acts (returned i) = false /\ busy (returned i) = 0 /\ returned i <> Wait /\ stopped (returned i) /\
    (forall e, returned i <> Lock (Some (Some e))) /\ forall r, ~ (returned i = Join r \/ returned i = Done r)) as (Hp1 & Hp2 & Hp3 & Hp4 & Hp5 & Hp6 & Hp7).
  { unfold returned. destruct (Nat.eqb_spec i 0); cbn; naive_solver. }
  unfold wait_for_item. destruct (quit (pool s)) eqn:Hq.
  - split; cbn.
    + eapply GI_perm; [|symmetry; apply Hins]. by eapply GI_idle.
    + apply (PI_goto (pool s) _ (completed s) i t); try done; [lia|by left|by left|congruence|by intros e ?%Hp6|by intros r' ?%Hp7].
  - destruct (pending (pool s)) as [|x rest] eqn:Hpend.
    + destruct ((active (pool s) =? 0)%nat && draining (pool s)) eqn:Hb.
      * apply andb_true_iff in Hb as [Ha%Nat.eqb_eq Hd]. split; cbn.
        -- apply (GI_acts _ _ _ _ (<[i := returned i]> (threads s))); [|by rewrite acts_wake]. eapply GI_perm; [|symmetry; apply Hins]. by eapply GI_idle.
        -- pose proof (PI_wake _ _ _ _ HP (wake_all_woken (threads s))) as HP'.
           apply (PI_set_quit _ _ _ (exception (pool s))) in HP'; [|apply no_wait|done|by intros e [_ ?]%(pi_exc _ _ _ HP)]. rewrite Hpend in HP'.
           eapply (PI_goto _ _ _ i t); [exact HP'|by rewrite list_lookup_fmap, Hi; cbn; rewrite Hwt|cbn; lia|done|done|by left|by left|..]; try done.
           ++ by intros e ?%Hp6.
           ++ by intros r' ?%Hp7.
      * split; cbn.
        -- rewrite Hpend in *. eapply GI_perm; [|symmetry; apply Hins]. by eapply GI_idle.
        -- apply (PI_goto (pool s) _ (completed s) i t); try done; [cbn; lia|by left|by left| |].
           ++ intros _. right. apply (other_awake s i t); [done..|]. apply andb_false_iff in Hb as [Hb%Nat.eqb_neq|?]; [left; lia|by right].
           ++ by intros r' [?|?].
    + split; cbn.
      * eapply GI_perm; [|symmetry; apply Hins]. by eapply GI_take.
      * apply (PI_goto (pool s) _ (completed s) i t); try done; [cbn; lia|by left|by right; left|by left|by intros r' [?|?]].
Qed.

(** The next step of a thread overwrites where it was. *)
Lemma wait_for_item_goto i t s : wait_for_item i (goto i t s) = wait_for_item i s.
Proof.
  unfold wait_for_item, goto, notify_all, set_threads, set_pool. cbn.
  destruct (quit (pool s)); [by rewrite list_insert_insert_eq|]. destruct (pending (pool s)); [|by rewrite list_insert_insert_eq].
  destruct (_ && _); [by rewrite list_fmap_insert, list_insert_insert_eq|by rewrite list_insert_insert_eq].
Qed.

Lemma Inv_item_done s i exc : Inv s -> threads s !! i = Some (Lock (Some exc)) -> Inv (goto i (Lock None) (item_done exc s)).
Proof.
  intros HI Hi. destruct (insert_perm _ _ _ Hi) as (r & Hr & Hins). pose proof HI as [HG HP].
  pose proof (GI_perm _ _ _ _ _ _ _ _ HG Hr) as HGr. pose proof (pi_pos _ _ _ HP i _ Hi) as Hpos.
  pose proof (busy_not_quit s i _ HI Hi eq_refl) as Hbq.
  assert (0 < active (pool s))%nat as Ha by (eapply active_pos; [exact HP|by eapply list_elem_of_lookup_2|done]).
  assert (forall e : option thrown, (exc <> None -> is_Some e) -> exception (pool s) = e ->
    Inv (goto i (Lock None) (set_pool (mkPool (pending (pool s)) (active (pool s) - 1) e (draining (pool s)) (quit (pool s))) s))) as Hkeep.
  { intros e He <-. split; cbn.
    - eapply GI_perm; [|symmetry; apply Hins]. apply (GI_recorded _ _ _ _ exc); [done|]. destruct exc; [left; by apply He|by right].
    - apply (PI_goto (pool s) _ (completed s) i (Lock (Some exc))); try done; [cbn; lia|by left|by right|by left|by intros r' [?|?]]. }
  unfold item_done. destruct exc as [e|]; [|by apply Hkeep]. destruct (exception (pool s)) as [e'|] eqn:He; [by apply Hkeep|].
  assert (genuine e) as Hgen.
  { destruct (pi_fails _ _ _ HP e) as [?|Hq]; [by eapply list_elem_of_lookup_2|done|]. by destruct Hbq as [Hbq|[? Hbq]]; [rewrite Hbq in Hq|]. }
  split; cbn.
  - apply (GI_acts _ _ _ _ (<[i := Lock None]> (threads s))); [|by rewrite acts_wake].
    eapply GI_perm; [|symmetry; apply Hins]. by eapply GI_record.
  - pose proof (PI_wake _ _ _ _ HP (wake_all_woken (threads s))) as HP'.
    apply (PI_set_quit _ _ _ (Some e)) in HP'; [|apply no_wait|done|by intros ? [= <-]].
    eapply (PI_goto _ _ _ i (Lock (Some (Some e)))); [exact HP'|by rewrite list_lookup_fmap, Hi|cbn; lia|done|done|by left|by right; right; eexists|..]; try done.
    by intros r' [?|?].
Qed.

(** What is left when the pool is drained waits for something that is left. *)
Lemma drained_outcome s : Inv s -> quit (pool s) = true -> exception (pool s) = None -> AfterWork ∈ threads s ->
  outcome_ok (completed s) (if decide (left (graph s) = ∅) then Returned else Cyclic).
Proof.
  intros [HG HP] Hq He Haw. destruct (pi_drained _ _ _ HP Hq He) as (Ha & Hp & Hd).
  assert (forall t, t ∈ threads s -> thread_items t = [] /\ fails t = false) as Hts.
  { intros t Ht. assert (busy t = 0) as Hb.
    { rewrite (pi_active _ _ _ HP) in Ha. apply list_elem_of_split in Ht as (l1 & l2 & Heq). rewrite Heq, sum_list_with_app in Ha. cbn in Ha. lia. }
    apply list_elem_of_lookup in Ht as [i Hi]. pose proof (pi_pos _ _ _ HP i t Hi) as Hpos.
    destruct t as [[]| | | | | | | | | |]; cbn in Hb, Hpos |- *; try done; destruct Hpos; congruence. }
  assert (items (pending (pool s)) (threads s) = []) as Hi.
  { rewrite Hp. unfold items. cbn. clear -Hts. induction (threads s) as [|t ts IH]; [done|]. cbn.
    destruct (Hts t) as [-> _]; [by left|]. apply IH. intros u Hu. apply Hts. by right. }
  assert (existsb fails (threads s) = false) as Hf.
  { clear -Hts. induction (threads s) as [|t ts IH]; [done|]. cbn. destruct (Hts t) as [_ ->]; [by left|]. apply IH. intros u Hu. apply Hts. by right. }
  destruct (gi_covered _ _ _ _ _ _ _ HG) as [Hs|[Hs|Hcov]]; [rewrite He in Hs; by destruct Hs|congruence|]. rewrite Hi in Hcov.
  case_decide as Hl; cbn.
  - pose proof (gi_gone _ _ _ _ _ _ _ HG) as Hgone. rewrite Hl in Hgone. clear -Hgone. set_solver.
  - exists (left (graph s)). split; [done|]. split; [apply HG|]. intros n Hn. destruct (Hcov n Hn) as [Hin|(S & HS & HSn)]; [by apply not_elem_of_nil in Hin|].
    destruct (gi_refs _ _ _ _ _ _ _ HG n S HS) as (_ & HSl & HSd & _). apply set_choose_L in HSn as [m Hm]. exists m. split; [by apply HSl|by apply HSd].
Qed.

Lemma thread_step_Inv c i s s' : Inv s -> thread_step c i s = Some s' -> Inv s'.
Proof.
  intros HI Hs. unfold thread_step in Hs. destruct (threads s !! i) as [t|] eqn:Hi; [|done]. cbn in Hs.
  destruct (insert_perm _ _ _ Hi) as (r & Hr & Hins). pose proof HI as [HG HP].
  pose proof (GI_perm _ _ _ _ _ _ _ _ HG Hr) as HGr. pose proof (pi_pos _ _ _ HP i _ Hi) as Hpos.
  destruct t as [did| | |w| | |rest| | |o|]; try done.
  - injection Hs as <-. destruct did as [exc|]; cbn; [|eapply Inv_wait; [done|done|by left]].
    pose proof (active_pos _ _ _ (Lock (Some exc)) HP (list_elem_of_lookup_2 _ _ _ Hi) eq_refl) as Ha.
    destruct (Nat.eqb_spec (active (pool s)) 0); [lia|]. rewrite <- (wait_for_item_goto i (Lock None)).
    apply (Inv_wait _ i (Lock None)); [by apply Inv_item_done| |by left]. cbn. apply list_lookup_insert_eq.
    unfold item_done. destruct exc, (exception (pool s)); cbn; rewrite ?length_fmap; by eapply lookup_lt_Some.
  - injection Hs as <-. eapply Inv_wait; [done|done|by right].
  - by eapply work_step_Inv.
  - destruct Hpos as [-> Hdr]. destruct (decide (rest = ∅)) as [->|Hne].
    + injection Hs as <-. split; cbn; [eapply GI_perm; [|symmetry; apply Hins]; eapply GI_process; [done|by right]|].
      apply (PI_goto (pool s) _ (completed s) 0 (Enqueue ∅)); try done; [by left|by left|by left|by intros r' [?|?]].
    + destruct (pick c) as [x|]; [|done]. cbn [mbind option_bind] in Hs. destruct (bool_decide (x ∈ rest)) eqn:Hx; [|done].
      apply bool_decide_eq_true in Hx. cbn [negb] in Hs. destruct (enqueue c x s) as [[[]|s1]|] eqn:He; [| |done]; cbn in Hs; injection Hs as <-.
      * apply enqueue_spec in He. destruct (exception (pool s)) as [e|] eqn:Hexc; [|by destruct (pi_drained _ _ _ HP He Hexc) as (_ & _ & ?); congruence].
        split; cbn; [eapply GI_perm; [|symmetry; apply Hins]; rewrite Hexc; eapply GI_process; [done|left; by eexists]|].
        apply (PI_goto (pool s) _ (completed s) 0 (Enqueue rest)); try done; [by left|by left|by left|by intros r' [?|?]].
      * eapply enqueue_goto; [exact He|exact Hi| |].
        -- eapply GI_perm; [|symmetry; apply Hins]. by apply GI_enqueue.
        -- apply (PI_goto (pool s) _ (completed s) 0 (Enqueue rest)); try done; [by left|by left|by left|by intros r' [?|?]].
  - destruct Hpos as [-> Hdr]. injection Hs as <-. split; cbn; [eapply GI_perm; [|symmetry; apply Hins]; by eapply GI_idle|].
    apply (PI_goto (pool s) _ (completed s) 0 Process); try done; [by right| |by left|by intros r' [?|?]].
    destruct (quit (pool s)) eqn:Hq; [|by right; left]. right; right. destruct (exception (pool s)) eqn:He; [by eexists|].
    destruct (pi_drained _ _ _ HP Hq He) as (_ & _ & ?). congruence.
  - destruct Hpos as [-> Hdr]. assert (quit (pool s) = true) as Hq by (by apply (pi_stopped _ _ _ HP AfterWork); [eapply list_elem_of_lookup_2|]).
    rewrite Hq in Hs. cbn [negb] in Hs.
    assert (forall o, outcome_ok (completed s) o -> Inv (goto 0 (Join o) (shutdown s))) as Hjoin.
    { intros o Ho. split; cbn.
      - apply (GI_acts _ _ _ _ (<[0 := Join o]> (threads s))); [|by rewrite acts_wake]. eapply GI_perm; [|symmetry; apply Hins]. by eapply GI_idle.
      - pose proof (PI_wake _ _ _ _ HP (wake_all_woken (threads s))) as HP'.
        apply (PI_set_quit _ _ _ (exception (pool s))) in HP'; [|apply no_wait|by apply (pi_drained _ _ _ HP)|by intros e [_ ?]%(pi_exc _ _ _ HP)].
        eapply (PI_goto _ _ _ 0 AfterWork); [exact HP'|by rewrite list_lookup_fmap, Hi|done|done|done|by left|by left|..]; try done.
        by intros r' [[= <-]|?]. }
    destruct (exception (pool s)) as [e|] eqn:He.
    + injection Hs as <-. apply Hjoin. by apply (pi_exc _ _ _ HP).
    + destruct (graph_locked s); [done|]. injection Hs as <-. apply Hjoin.
      apply drained_outcome; [done|done|done|by eapply list_elem_of_lookup_2].
  - destruct (forallb is_exited (drop 1 (threads s))); [|done]. injection Hs as <-. destruct Hpos as [-> Hdr].
    assert (quit (pool s) = true) as Hq by (by apply (pi_stopped _ _ _ HP (Join o)); [eapply list_elem_of_lookup_2|]).
    split; cbn; [eapply GI_perm; [|symmetry; apply Hins]; by eapply GI_idle|].
    apply (PI_goto (pool s) _ (completed s) 0 (Join o)); try done; [by left|by left|congruence|].
    intros r' [?|[= <-]]; [done|]. apply (pi_outcome _ _ _ HP). left. by eapply list_elem_of_lookup_2.
Qed.

Lemma wake_up_Inv i s s' : Inv s -> wake_up i s = Some s' -> Inv s'.
Proof.
  intros [HG HP] Hs. unfold wake_up in Hs. destruct (threads s !! i) as [[]|] eqn:Hi; try done. injection Hs as <-.
  pose proof (wake_one_woken _ _ Hi) as HF. split; cbn; [|by eapply PI_wake].
  apply (GI_acts _ _ _ _ _ _ _ _ HG). by rewrite (woken_acts _ _ HF).
Qed.

Lemma start_Inv : Inv start.
Proof.
  split; cbn.
  - split; cbn; try done.
    + rewrite app_nil_r. apply NoDup_elements.
    + constructor; [|done]. intros n Hn. split; [done|]. split; [apply not_elem_of_nil|by left].
    + clear. set_solver.
    + by intros n ?%not_elem_of_nil.
    + constructor.
    + by intros n ?%not_elem_of_nil.
    + right; right. intros n Hn. left. rewrite app_nil_r. by apply elem_of_elements.
  - split; cbn; try done; try lia.
    + intros i t [-> <-]%list_lookup_singleton_Some. done.
    + intros t ->%list_elem_of_singleton. done.
    + intros _. exists (Enqueue nodes). split; [by left|done].
    + by intros e ?%list_elem_of_singleton.
    + intros r [?%list_elem_of_singleton|?%list_elem_of_singleton]; done.
Qed.

(** *** There is always a step, until the end *)

Lemma existsb_wait (ts : list Thread) : existsb is_wait ts = true -> exists j, ts !! j = Some Wait.
Proof.
  intros (t & Hin & Ht)%List.existsb_exists. apply list_elem_of_In, list_elem_of_lookup in Hin as [j Hj]. exists j. by destruct t.
Qed.

Lemma enqueue_some c x s : exists w o, enqueue (mkChoice c w None) x s = Some o.
Proof.
  unfold enqueue. destruct (quit (pool s)); [by exists 0; eexists|]. set (s2 := if _ : bool then _ else _).
  destruct (existsb is_wait (threads s2)) eqn:Hw.
  - apply existsb_wait in Hw as [j Hj]. exists j. cbn. fold s2. unfold notify_one. rewrite Hj. by eexists.
  - exists 0. cbn. fold s2. unfold notify_one. destruct (threads s2 !! 0) as [[]|]; rewrite ?Hw; by eexists.
Qed.

Definition can_step (s : State) : Prop := exists c i s', thread_step c i s = Some s'.

Lemma release_steps s i n todo : threads s !! i = Some (Run (Release n todo)) -> can_step s.
Proof.
  intros Hi. destruct (decide (todo = ∅)) as [->|Hne].
  - exists (mkChoice None 0 None), i. unfold thread_step. rewrite Hi. by eexists.
  - pose proof (set_choose_L _ Hne) as [x Hx]. destruct (enqueue_some (Some x) x (set_graph (release n x (graph s)) true s)) as (w & o & Ho).
    exists (mkChoice (Some x) w None), i. unfold thread_step. rewrite Hi. cbn [mbind option_bind work_step pick].
    rewrite decide_False by done. rewrite bool_decide_true by done. cbn [negb]. destruct (decide (n ∈ refs_of (graph s) x)); [|by eexists].
    destruct (decide (refs_of (graph s) x ∖ {[n]} = ∅)); [|by eexists]. unfold release in Ho. rewrite Ho. by eexists.
Qed.

Lemma locked_release s : Inv s -> graph_locked s = true -> exists i n todo, threads s !! i = Some (Run (Release n todo)).
Proof.
  intros [HG _] Hl. pose proof (gi_locks _ _ _ _ _ _ _ HG) as Hs. rewrite Hl in Hs. clear -Hs.
  assert (exists t, t ∈ threads s /\ locks t = 1) as (t & (i & Hi)%list_elem_of_lookup & Ht).
  { induction (threads s) as [|t ts IH]; [done|]. cbn in Hs. destruct (decide (locks t = 1)); [exists t; split; [by left|done]|].
    destruct IH as (u & Hu & ?); [|exists u; split; [by right|done]]. destruct t as [| | |[]| | | | | | |]; cbn in *; lia. }
  destruct t as [| | |[]| | | | | | |]; try done. by do 3 eexists.
Qed.

Lemma awake_steps s i t : Inv s -> threads s !! i = Some t -> awake t -> can_step s.
Proof.
  intros HI Hi Ha. destruct (graph_locked s) eqn:Hl.
  { destruct (locked_release s HI Hl) as (j & n & todo & Hj). by eapply release_steps. }
  assert (is_Some (thread_step (mkChoice None 0 None) i s) \/ exists rest, t = Enqueue rest /\ rest <> ∅) as [[s' Hs]|(rest & -> & Hne)].
  - unfold thread_step. rewrite Hi. cbn [mbind option_bind]. destruct t as [did| | |w| | |rest| | | |]; try done; try (left; by eexists).
    + left. destruct w as [n|n|n rs|n|n|n todo]; cbn [work_step]; rewrite ?Hl; try (by eexists).
      pose proof (gi_locks _ _ _ _ _ _ _ (inv_graph _ HI)) as Hs. rewrite Hl in Hs. pose proof (list_elem_of_lookup_2 _ _ _ Hi) as (l1 & l2 & Heq)%list_elem_of_split.
      rewrite Heq, sum_list_with_app in Hs. cbn in Hs. lia.
    + destruct (decide (rest = ∅)); [left; by eexists|right; by exists rest].
  - by exists (mkChoice None 0 None), i, s'.
  - pose proof (set_choose_L _ Hne) as [x Hx]. destruct (enqueue_some (Some x) x s) as (w & o & Ho).
    exists (mkChoice (Some x) w None), i. unfold thread_step. rewrite Hi. cbn [mbind option_bind pick].
    rewrite decide_False by done. rewrite bool_decide_true by done. cbn [negb]. rewrite Ho. by eexists.
Qed.

Lemma Inv_progress s : Inv s -> (exists r, threads s !! 0 = Some (Done r)) \/ can_step s.
Proof.
  intros HI. pose proof (inv_pool _ HI) as HP. pose proof (inv_graph _ HI) as HG. pose proof (pi_main _ _ _ HP) as Hm.
  destruct (lookup_lt_is_Some_2 _ _ Hm) as [t0 H0]. pose proof (pi_pos _ _ _ HP 0 t0 H0) as Hp0.
  destruct (quit (pool s)) eqn:Hq.
  2:{ right. destruct (pi_awake _ _ _ HP Hq) as (t & (i & Hi)%list_elem_of_lookup & Ha). by eapply awake_steps. }
  assert (forall i t, threads s !! i = Some t -> t <> Wait /\ t <> Aborted) as Hnw.
  { intros i t Hi%list_elem_of_lookup_2. split; intros ->; [by apply (pi_quit _ _ _ HP Hq)|].
    pose proof (gi_threads _ _ _ _ _ _ _ HG) as Ht. rewrite Forall_forall in Ht. by apply (Ht Aborted). }
  destruct (Hnw 0 t0 H0) as [Hw0 Ha0].
  destruct t0 as [did| | |w| | |rest| | |r|r]; try done; try (right; by eapply awake_steps).
  - right. destruct (exception (pool s)) as [e|] eqn:He.
    + exists (mkChoice None 0 None), 0. unfold thread_step. rewrite H0. cbn. rewrite Hq, He. by eexists.
    + exists (mkChoice None 0 None), 0. unfold thread_step. rewrite H0. cbn. rewrite Hq, He. cbn. destruct (graph_locked s) eqn:Hl; [|by eexists].
      destruct (locked_release s HI Hl) as (j & n & todo & Hj). pose proof (active_pos _ _ _ _ HP (list_elem_of_lookup_2 _ _ _ Hj) eq_refl) as Ha.
      destruct (pi_drained _ _ _ HP Hq He) as (Ha' & _). lia.
  - right. destruct (forallb is_exited (drop 1 (threads s))) eqn:Hf.
    + exists (mkChoice None 0 None), 0. unfold thread_step. rewrite H0. cbn. rewrite Hf. by eexists.
    + assert (exists t, t ∈ drop 1 (threads s) /\ is_exited t = false) as (t & (j & Hj)%list_elem_of_lookup & Ht).
      { clear -Hf. induction (drop 1 (threads s)) as [|t ts IH]; [done|]. cbn in Hf. destruct (is_exited t) eqn:He; [|exists t; split; [by left|done]].
        destruct (IH Hf) as (u & Hu & ?). exists u. split; [by right|done]. }
      rewrite lookup_drop in Hj. apply (awake_steps s (1 + j) t HI Hj). destruct (Hnw _ _ Hj) as [? ?].
      pose proof (pi_pos _ _ _ HP _ _ Hj) as Hp. destruct t; try done; by destruct Hp.
  - left. by exists r.
Qed.

(** *** Every step makes a measure smaller *)

(** What is left to do of a node that is not being worked on, in units of
    [node_cost]; of an item in the queue; of a thread. *)
Definition waiting (g : Graph) (n : N) : nat :=
  if decide (n ∈ left g) then
    match refs g !! n with None => 2 | Some waits_for => if decide (waits_for = ∅) then 0 else 1 end
  else 0.
Definition item_cost : nat := size nodes + 8.
Definition node_cost : nat := item_cost + 7.
Definition thread_cost (t : Thread) : nat :=
  match t with
  | Lock None => 5
  | Lock (Some _) => 6
  | Wait => 4
  | Woken => 5
  | Run (Start _) => size nodes + 12
  | Run (GetRefs _) => size nodes + 11
  | Run (AddRefs _ _) => size nodes + 10
  | Run (DoWork _) => size nodes + 9
  | Run (Finish _) => size nodes + 8
  | Run (Release _ todo) => 7 + size todo
  | Exited | Aborted => 0
  | Enqueue rest => 10 + node_cost * size rest
  | Process => 9
  | AfterWork => 3
  | Join _ => 2
  | Done _ => 1
  end.
Definition cost (s : State) : nat :=
  sum_list_with thread_cost (threads s) + item_cost * length (pending (pool s)) +
  node_cost * sum_list_with (waiting (graph s)) (elements nodes) + (if quit (pool s) then 0 else S (1 `max` maxThreads)).

Lemma sum_le {A} (f f' : A -> nat) (l : list A) : (forall x, x ∈ l -> (f' x <= f x)%nat) -> (sum_list_with f' l <= sum_list_with f l)%nat.
Proof.
  induction l as [|x l IH]; cbn; intros Hf; [done|]. pose proof (Hf x ltac:(left)). specialize (IH (fun y Hy => Hf y (list_elem_of_further _ _ _ Hy))). lia.
Qed.

Lemma sum_lt {A} (f f' : A -> nat) (l : list A) x :
  x ∈ l -> (f' x < f x)%nat -> (forall y, y ∈ l -> (f' y <= f y)%nat) -> (sum_list_with f' l < sum_list_with f l)%nat.
Proof.
  intros (l1 & l2 & ->)%list_elem_of_split Hx Hf. rewrite !sum_list_with_app. cbn.
  pose proof (sum_le f f' l1 ltac:(intros; apply Hf; set_solver)). pose proof (sum_le f f' l2 ltac:(intros; apply Hf; set_solver)). lia.
Qed.

Lemma wake_all_cost ts : (sum_list_with thread_cost (wake_thread <$> ts) <= sum_list_with thread_cost ts + length ts)%nat.
Proof. induction ts as [|t ts IH]; cbn; [done|]. destruct t as [[]| | |[]| | | | | | |]; cbn in *; lia. Qed.

(** With nobody to wake. *)
Lemma wake_none (ts : list Thread) : Wait ∉ ts -> wake_thread <$> ts = ts.
Proof.
  induction ts as [|t ts IH]; [done|]. intros Hw. cbn. rewrite IH by (intros ?; apply Hw; by right). f_equal.
  destruct t; try done. exfalso. apply Hw. left.
Qed.

Lemma goto_cost s i t t' : threads s !! i = Some t -> (cost (goto i t' s) + thread_cost t = cost s + thread_cost t')%nat.
Proof. intros Hi. unfold cost. cbn. pose proof (sum_insert thread_cost _ _ _ t' Hi). lia. Qed.

Lemma enqueue_cost c x s s' i t :
  enqueue c x s = Some (inr s') -> threads s !! i = Some t -> t <> Wait ->
  threads s' !! i = Some t /\ (cost s' <= cost s + item_cost + 6)%nat.
Proof.
  unfold enqueue. destruct (quit (pool s)) eqn:Hq; [done|]. intros He Hi Ht. set (s1 := set_pool _ s) in He.
  assert (cost s1 = cost s + item_cost) as Hc1 by (unfold cost; cbn; rewrite Hq, length_app; cbn; lia).
  set (s2 := if _ : bool then _ else s1) in He.
  assert (threads s2 !! i = Some t /\ cost s2 <= cost s1 + 5)%nat as [Hi2 Hc2].
  { subst s2. destruct (_ && _); [|by split; [|lia]]. split; [cbn; rewrite lookup_app_l; [done|by eapply lookup_lt_Some]|].
    unfold cost. cbn. rewrite sum_list_with_app. cbn. lia. }
  clearbody s2. unfold notify_one in He.
  assert (s' = s2 \/ threads s2 !! wake c = Some Wait /\ s' = goto (wake c) Woken s2) as [->|[Hw ->]].
  { destruct (threads s2 !! wake c) as [[]|]; try destruct (existsb is_wait (threads s2)); cbn in He; try done; injection He as <-; auto. }
  - split; [done|lia].
  - pose proof (goto_cost _ _ _ Woken Hw) as Hg. cbn [thread_cost] in Hg. split; [|lia].
    cbn. rewrite list_lookup_insert_ne; [done|]. intros Heq. rewrite Heq in Hw. congruence.
Qed.

Lemma elem_nodes g l p e ts c d n : GI g l p e ts c d -> n ∈ left g -> n ∈ elements nodes.
Proof. intros HG Hn. apply elem_of_elements. by apply (gi_left _ _ _ _ _ _ _ HG). Qed.

Lemma set_graph_cost s g l :
  (forall n, (waiting g n <= waiting (graph s) n)%nat) -> (cost (set_graph g l s) <= cost s)%nat.
Proof. intros Hw. unfold cost. cbn. pose proof (sum_le (waiting (graph s)) (waiting g) (elements nodes) (fun n _ => Hw n)). nia. Qed.

Lemma wait_cost s i t : Inv s -> threads s !! i = Some t -> looks t -> (cost (wait_for_item i s) < cost s)%nat.
Proof.
  intros [HG HP] Hi Ht. assert (thread_cost t = 5 /\ wake_thread t = t) as [Hc Hwt] by (by destruct Ht as [-> | ->]).
  assert (thread_cost (returned i) <= 3)%nat as Hr by (unfold returned; destruct (i =? 0)%nat; cbn; lia).
  unfold wait_for_item. destruct (quit (pool s)) eqn:Hq.
  - pose proof (goto_cost s i t (returned i) Hi). lia.
  - destruct (pending (pool s)) as [|x rest] eqn:Hp.
    + destruct (_ && _).
      * set (s1 := set_pool _ s). assert (threads (notify_all s1) !! i = Some t) as Hi1 by (cbn; by rewrite list_lookup_fmap, Hi; cbn; rewrite Hwt).
        pose proof (goto_cost _ i t (returned i) Hi1) as Hg.
        assert (cost (notify_all s1) < cost s)%nat; [|lia]. unfold cost. cbn. rewrite Hq, Hp. cbn.
        pose proof (wake_all_cost (threads s)). pose proof (pi_size _ _ _ HP). lia.
      * pose proof (goto_cost s i t Wait Hi) as Hg. cbn [thread_cost] in Hg. lia.
    + set (s1 := set_pool _ s). assert (threads s1 !! i = Some t) as Hi1 by done. pose proof (goto_cost _ _ _ (Run (Start x)) Hi1) as Hg.
      assert (cost s1 + item_cost = cost s)%nat as Hs by (unfold cost; cbn; rewrite Hq, Hp; cbn; lia).
      cbn [thread_cost] in Hg. unfold item_cost in Hs. lia.
Qed.

Lemma done_cost s i exc : Inv s -> threads s !! i = Some (Lock (Some exc)) -> (cost (goto i (Lock None) (item_done exc s)) < cost s)%nat.
Proof.
  intros HI Hi. pose proof (busy_not_quit s i _ HI Hi eq_refl) as Hbq. destruct HI as [HG HP].
  assert (cost (item_done exc s) <= cost s /\ threads (item_done exc s) !! i = Some (Lock (Some exc)))%nat as [Hc Hi1].
  { unfold item_done. destruct exc as [e|]; [|done]. destruct (exception (pool s)) as [e'|]; [done|].
    destruct Hbq as [Hq|[? ?]]; [|done]. split; [|cbn; by rewrite list_lookup_fmap, Hi].
    unfold cost. cbn. rewrite Hq. pose proof (wake_all_cost (threads s)). pose proof (pi_size _ _ _ HP). lia. }
  pose proof (goto_cost _ _ _ (Lock None) Hi1) as Hg. cbn [thread_cost] in Hg. lia.
Qed.

Lemma waiting_insert g x X rr n :
  refs g !! x <> Some ∅ -> (waiting (mkGraph (left g) (<[x := X]> (refs g)) rr) n <= waiting g n)%nat.
Proof.
  intros Hx. unfold waiting. cbn. destruct (decide (n ∈ left g)); [|done]. destruct (decide (n = x)) as [->|Hn]; [|by rewrite lookup_insert_ne].
  rewrite lookup_insert_eq. destruct (refs g !! x) as [Y|]; [|destruct (decide (X = ∅)); lia].
  destruct (decide (Y = ∅)) as [->|]; [done|]. destruct (decide (X = ∅)); lia.
Qed.

Lemma waiting_delete g n m : (waiting (mkGraph (left g ∖ {[n]}) (delete n (refs g)) (delete n (rrefs g))) m <= waiting g m)%nat.
Proof.
  unfold waiting. cbn. destruct (decide (m = n)) as [->|Hm].
  - rewrite decide_False by (clear; set_solver). lia.
  - rewrite lookup_delete_ne by done. destruct (decide (m ∈ left g)); [destruct (decide (m ∈ left g ∖ {[n]})); [done|lia]|]. rewrite decide_False; [done|]. clear -n0. set_solver.
Qed.

(** A node that waits for nothing any more may be enqueued. *)
Lemma release_cost s i n x todo :
  Inv s -> threads s !! i = Some (Run (Release n todo)) -> x ∈ todo ->
  (cost (set_graph (release n x (graph s)) true s) <= cost s)%nat /\
  (refs_of (graph s) x ∖ {[n]} = ∅ -> (cost (set_graph (release n x (graph s)) true s) + node_cost <= cost s)%nat).
Proof.
  intros HI Hi Hx. destruct (insert_perm _ _ _ Hi) as (r0 & Hr0 & _).
  pose proof (GI_perm _ _ _ _ _ _ _ _ (inv_graph _ HI) Hr0) as HG.
  destruct (release_waits _ _ _ _ _ _ _ _ _ _ HG Hx) as (_ & _ & _ & _ & (X & HX & HnX) & _).
  assert (X <> ∅) as HXn by (intros ->; by apply not_elem_of_empty in HnX).
  assert (forall m, waiting (release n x (graph s)) m <= waiting (graph s) m)%nat as Hle by (intros m; apply waiting_insert; congruence).
  split; [by apply set_graph_cost|]. intros He.
  destruct (gi_refs _ _ _ _ _ _ _ HG x X HX) as (Hxl & _).
  assert (waiting (release n x (graph s)) x < waiting (graph s) x)%nat as Hlt.
  { unfold waiting. cbn. rewrite !decide_True by done. rewrite lookup_insert_eq, HX, He. rewrite decide_True, decide_False by done. lia. }
  pose proof (sum_lt _ _ _ _ (elem_nodes _ _ _ _ _ _ _ _ HG Hxl) Hlt (fun m _ => Hle m)) as Hs.
  unfold cost. cbn -[Nat.mul waiting]. nia.
Qed.

Lemma size_take (x : N) (X : gset N) : x ∈ X -> size X = S (size (X ∖ {[x]})).
Proof.
  intros Hx. rewrite (union_difference_L {[x]} X) at 1 by (clear -Hx; set_solver).
  rewrite size_union by (clear; set_solver). by rewrite size_singleton.
Qed.

Lemma work_step_cost s i w c s' : Inv s -> threads s !! i = Some (Run w) -> work_step c i w s = Some s' -> (cost s' < cost s)%nat.
Proof.
  intros HI Hi Hs. destruct (insert_perm _ _ _ Hi) as (r0 & Hr0 & _).
  pose proof (GI_perm _ _ _ _ _ _ _ _ (inv_graph _ HI) Hr0) as HG. pose proof HG as []. apply Forall_cons in gi_threads0 as [Hok _].
  assert (forall s1 t, threads s1 = threads s -> (cost s1 <= cost s)%nat -> (thread_cost t < thread_cost (Run w))%nat -> (cost (goto i t s1) < cost s)%nat) as Hgo.
  { intros s1 t Ht Hc1 Hct. rewrite <- Ht in Hi. pose proof (goto_cost s1 i _ t Hi). lia. }
  destruct w as [n|n|n rs|n|n|n todo]; cbn [work_step] in Hs.
  - destruct (graph_locked s); [done|]. injection Hs as <-. apply Hgo; [done|done|]. destruct (refs (graph s) !! n); cbn; lia.
  - destruct (call c n s _) as [o|]; [|done]. cbn in Hs. injection Hs as <-. destruct o; apply Hgo; try done; cbn; lia.
  - destruct (graph_locked s); [done|]. cbv zeta in Hs. destruct Hok as (_ & _ & Hn & _).
    assert (cost (set_graph (add_refs n rs (graph s)) false s) <= cost s)%nat as Hc.
    { apply set_graph_cost. intros m. apply waiting_insert. congruence. }
    destruct (decide _); injection Hs as <-; apply Hgo; try done; cbn; lia.
  - destruct (call c n s _) as [o|]; [|done]. cbn in Hs. injection Hs as <-. destruct o; apply Hgo; try done; cbn; lia.
  - destruct (graph_locked s); [done|]. injection Hs as <-. apply Hgo; [done|by apply set_graph_cost|]. cbn.
    destruct Hok as (_ & _ & _ & Hsym). assert (rrefs_of (graph s) n ⊆ nodes) as Hsub.
    { intros m Hm%Hsym. unfold refs_of in Hm. destruct (refs (graph s) !! m) as [X|] eqn:HX; [|by apply not_elem_of_empty in Hm].
      apply gi_left0. exact (proj1 (gi_refs0 m X HX)). }
    pose proof (subseteq_size _ _ Hsub). lia.
  - destruct (decide (todo = ∅)) as [->|Hne].
    { injection Hs as <-. apply Hgo; [done|apply set_graph_cost; intros m; apply waiting_delete|]. cbn. lia. }
    destruct (pick c) as [x|]; [|done]. cbn [mbind option_bind] in Hs. destruct (bool_decide (x ∈ todo)) eqn:Hx; [|done].
    apply bool_decide_eq_true in Hx. cbn [negb] in Hs. destruct (release_cost _ _ _ _ _ HI Hi Hx) as [Hc Hce].
    pose proof (size_take _ _ Hx) as Hsz.
    destruct (decide (n ∈ refs_of (graph s) x)); [|injection Hs as <-; apply Hgo; [done|done|cbn; lia]].
    destruct (decide (refs_of (graph s) x ∖ {[n]} = ∅)) as [He|He].
    + specialize (Hce He). destruct (enqueue c x _) as [[[]|s1]|] eqn:Hq; [| |done]; cbn [mbind option_bind] in Hs; injection Hs as <-.
      * apply Hgo; [done|exact Hc|cbn; lia].
      * pose proof (enqueue_cost c x _ s1 i _ Hq Hi ltac:(done)) as [Hi1 Hc1]. pose proof (goto_cost s1 i _ (Run (Release n (todo ∖ {[x]}))) Hi1) as Hg.
        fold (release n x (graph s)) in Hc1. cbn [thread_cost] in Hg. unfold node_cost in Hce. lia.
    + injection Hs as <-. apply Hgo; [done|exact Hc|cbn; lia].
Qed.

Lemma thread_step_cost c i s s' : Inv s -> thread_step c i s = Some s' -> (cost s' < cost s)%nat.
Proof.
  intros HI Hs. unfold thread_step in Hs. destruct (threads s !! i) as [t|] eqn:Hi; [|done]. cbn [mbind option_bind] in Hs.
  pose proof (fun t' => goto_cost s i t t' Hi) as Hg. pose proof (inv_pool _ HI) as HP. pose proof (pi_pos _ _ _ HP i _ Hi) as Hpos.
  destruct t as [did| | |w| | |rest| | |o|]; try done.
  - injection Hs as <-. destruct did as [exc|]; cbn [lock_step]; [|eapply wait_cost; [done|done|by left]].
    destruct (active (pool s) =? 0)%nat; [specialize (Hg Aborted); cbn [thread_cost] in Hg; lia|].
    pose proof (done_cost _ _ _ HI Hi) as Hd. pose proof (Inv_item_done _ _ _ HI Hi) as HI'.
    rewrite <- (wait_for_item_goto i (Lock None)). etrans; [eapply wait_cost; [exact HI'| |by left]|exact Hd].
    cbn. apply list_lookup_insert_eq. unfold item_done. destruct exc, (exception (pool s)); cbn; rewrite ?length_fmap; by eapply lookup_lt_Some.
  - injection Hs as <-. eapply wait_cost; [done|done|by right].
  - by eapply work_step_cost.
  - destruct (decide (rest = ∅)) as [->|Hne]; [injection Hs as <-; specialize (Hg Process); cbn [thread_cost] in Hg; lia|].
    destruct (pick c) as [x|]; [|done]. cbn [mbind option_bind] in Hs. destruct (bool_decide (x ∈ rest)) eqn:Hx; [|done].
    apply bool_decide_eq_true in Hx. cbn [negb] in Hs. destruct (enqueue c x s) as [[[]|s1]|] eqn:He; [| |done]; cbn [mbind option_bind] in Hs; injection Hs as <-.
    + specialize (Hg Process). cbn [thread_cost] in Hg. lia.
    + destruct (enqueue_cost _ _ _ _ _ _ He Hi ltac:(done)) as [Hi1 Hc1]. pose proof (goto_cost _ _ _ (Enqueue (rest ∖ {[x]})) Hi1) as Hg1.
      cbn [thread_cost] in Hg1. rewrite (size_take _ _ Hx) in Hg1. unfold node_cost in Hg1. nia.
  - injection Hs as <-. pose proof (goto_cost (set_pool (mkPool (pending (pool s)) (active (pool s)) (exception (pool s)) true (quit (pool s))) s) i _ (Lock None) Hi) as Hg1.
    cbn [thread_cost] in Hg1. unfold cost in Hg1 |- *. cbn -[Nat.mul] in *. lia.
  - destruct Hpos as [-> Hdr]. assert (quit (pool s) = true) as Hq by (by apply (pi_stopped _ _ _ HP AfterWork); [eapply list_elem_of_lookup_2|]).
    rewrite Hq in Hs. cbn [negb] in Hs.
    assert (forall o, cost (goto 0 (Join o) (shutdown s)) < cost s)%nat as Hj.
    { intros o. specialize (Hg (Join o)). cbn [thread_cost] in Hg. unfold cost in *. cbn -[Nat.mul] in *.
      rewrite wake_none by (by apply (pi_quit _ _ _ HP)). rewrite Hq in *. lia. }
    destruct (exception (pool s)); [by injection Hs as <-|]. destruct (graph_locked s); [done|by injection Hs as <-].
  - destruct (forallb _ _); [|done]. injection Hs as <-. specialize (Hg (Done o)). cbn [thread_cost] in Hg. lia.
Qed.

(** *** [process] returns when the workers have *)

Definition no_done (ts : list Thread) : Prop := forall r, Done r ∉ ts.

Lemma no_done_insert ts i t : no_done ts -> (forall r, t <> Done r) -> no_done (<[i := t]> ts).
Proof.
  intros Hn Ht r (j & Hj)%list_elem_of_lookup. destruct (decide (i = j)) as [->|Hij].
  - apply list_lookup_insert_Some in Hj as [(_ & -> & _)|(? & _)]; [by apply (Ht r)|done].
  - rewrite list_lookup_insert_ne in Hj by done. by apply (Hn r), (list_elem_of_lookup_2 _ j).
Qed.

Lemma no_done_wake ts : no_done ts -> no_done (wake_thread <$> ts).
Proof. intros Hn r (t & Ht & Hin)%list_elem_of_fmap. destruct t; try done. injection Ht as <-. by apply (Hn r). Qed.

Lemma no_done_enqueue c x s s' : enqueue c x s = Some (inr s') -> no_done (threads s) -> no_done (threads s').
Proof.
  intros (_ & _ & _ & _ & _ & _ & ts1 & Hts & HF)%enqueue_spec Hn r Hr.
  apply (woken_in _ _ _ HF) in Hr; [|done]. destruct Hts as [->|[_ ->]]; [by apply (Hn r)|].
  apply elem_of_app in Hr as [Hr|Hr%list_elem_of_singleton]; [by apply (Hn r)|done].
Qed.

Lemma no_done_wait s i : no_done (threads s) -> no_done (threads (wait_for_item i s)).
Proof.
  intros Hn. assert (forall r, returned i <> Done r) as Hr by (intros r; unfold returned; by destruct (i =? 0)%nat).
  unfold wait_for_item. destruct (quit (pool s)); [by apply no_done_insert|]. destruct (pending (pool s)); [|by apply no_done_insert].
  destruct (_ && _); apply no_done_insert; try done. by apply no_done_wake.
Qed.

Lemma no_done_work s i w c s' : work_step c i w s = Some s' -> no_done (threads s) -> no_done (threads s').
Proof.
  intros Hs Hn. assert (forall s1 t, threads s1 = threads s -> (forall r, t <> Done r) -> no_done (threads (goto i t s1))) as Hgo.
  { intros s1 t Ht Hd. cbn. rewrite Ht. by apply no_done_insert. }
  destruct w as [n|n|n rs|n|n|n todo]; cbn [work_step] in Hs.
  - destruct (graph_locked s); [done|]. injection Hs as <-. by apply Hgo.
  - destruct (call c n s _) as [[]|]; [| |done]; injection Hs as <-; by apply Hgo.
  - destruct (graph_locked s); [done|]. cbv zeta in Hs. destruct (decide _); injection Hs as <-; by apply Hgo.
  - destruct (call c n s _) as [[]|]; [| |done]; injection Hs as <-; by apply Hgo.
  - destruct (graph_locked s); [done|]. injection Hs as <-. by apply Hgo.
  - destruct (decide (todo = ∅)); [injection Hs as <-; by apply Hgo|]. destruct (pick c) as [x|]; [|done]. cbn [mbind option_bind] in Hs.
    destruct (negb _); [done|]. destruct (decide (n ∈ refs_of (graph s) x)); [|injection Hs as <-; by apply Hgo].
    destruct (decide (refs_of (graph s) x ∖ {[n]} = ∅)); [|injection Hs as <-; by apply Hgo].
    destruct (enqueue c x _) as [[[]|s1]|] eqn:Hq; [| |done]; cbn [mbind option_bind] in Hs; injection Hs as <-; [by apply Hgo|].
    apply no_done_insert; [|done]. by apply (no_done_enqueue _ _ _ _ Hq).
Qed.

Lemma no_done_step c i s s' :
  thread_step c i s = Some s' -> no_done (threads s) ->
  no_done (threads s') \/ exists r, threads s !! i = Some (Join r) /\ s' = goto i (Done r) s /\ forallb is_exited (drop 1 (threads s)) = true.
Proof.
  unfold thread_step. destruct (threads s !! i) as [t|]; [|done]. cbn [mbind option_bind]. intros Hs Hn.
  destruct t as [did| | |w| | |rest| | |o|]; try done.
  - left. injection Hs as <-. destruct did as [exc|]; cbn [lock_step]; [|by apply no_done_wait].
    destruct (active (pool s) =? 0)%nat; [by apply no_done_insert|]. apply no_done_wait.
    unfold item_done. destruct exc, (exception (pool s)); try done. by apply no_done_wake.
  - left. injection Hs as <-. by apply no_done_wait.
  - left. by eapply no_done_work.
  - left. destruct (decide (rest = ∅)); [injection Hs as <-; by apply no_done_insert|]. destruct (pick c) as [x|]; [|done]. cbn [mbind option_bind] in Hs.
    destruct (negb _); [done|]. destruct (enqueue c x s) as [[[]|s1]|] eqn:Hq; [| |done]; cbn [mbind option_bind] in Hs; injection Hs as <-;
      apply no_done_insert; try done. by apply (no_done_enqueue _ _ _ _ Hq).
  - left. injection Hs as <-. by apply no_done_insert.
  - left. destruct (negb _); [injection Hs as <-; by apply no_done_insert|].
    destruct (exception (pool s)); [|destruct (graph_locked s); [done|]]; injection Hs as <-; (apply no_done_insert; [by apply no_done_wake|done]).
  - right. destruct (forallb _ _) eqn:Hf; [|done]. injection Hs as <-. by exists o.
Qed.

Definition joined (s : State) : Prop :=
  no_done (threads s) \/ exists r, threads s !! 0 = Some (Done r) /\ forall i t, threads s !! S i = Some t -> t = Exited.

(** ** Schedules *)

Inductive Event := Turn (c : Choice) (i : nat) | Spurious (i : nat).
Definition event (e : Event) (s : State) : option State :=
  match e with Turn c i => thread_step c i s | Spurious i => wake_up i s end.
Fixpoint run (evs : list Event) (s : State) : option State :=
  match evs with [] => Some s | e :: evs => event e s ≫= run evs end.
Fixpoint turns (evs : list Event) : nat := match evs with [] => 0 | Turn _ _ :: evs => S (turns evs) | _ :: evs => turns evs end.
Fixpoint spurious (evs : list Event) : nat := match evs with [] => 0 | Spurious _ :: evs => S (spurious evs) | _ :: evs => spurious evs end.

Lemma joined_event e s s' : Inv s -> joined s -> event e s = Some s' -> joined s'.
Proof.
  intros HI [Hn|(r & H0 & Hr)] He.
  - destruct e as [c i|i]; cbn in He.
    + destruct (no_done_step _ _ _ _ He Hn) as [?|(r & Hi & -> & Hf)]; [by left|right; exists r].
      destruct (pi_pos _ _ _ (inv_pool _ HI) i _ Hi) as [-> _]. cbn. split; [apply list_lookup_insert_eq; by eapply lookup_lt_Some|].
      intros i t. rewrite list_lookup_insert_ne by done. intros Ht. rewrite List.forallb_forall in Hf. specialize (Hf t).
      rewrite <- list_elem_of_In in Hf. destruct t; try done; exfalso; cut (false = true); try done; apply Hf, (list_elem_of_lookup_2 _ i); by rewrite lookup_drop.
    + unfold wake_up in He. destruct (threads s !! i) as [[]|]; try done. injection He as <-. left. by apply no_done_insert.
  - destruct e as [c i|i]; cbn in He; [unfold thread_step in He|unfold wake_up in He]; destruct (threads s !! i) as [t|] eqn:Hi; try done;
      destruct i as [|i]; [rewrite H0 in Hi; by injection Hi as <-|apply Hr in Hi; by subst t|rewrite H0 in Hi; by injection Hi as <-|apply Hr in Hi; by subst t].
Qed.

Lemma event_cost e s s' : Inv s -> event e s = Some s' -> (cost s' + turns [e] <= cost s + spurious [e])%nat.
Proof.
  intros HI He. destruct e as [c i|i]; cbn in He |- *; [pose proof (thread_step_cost _ _ _ _ HI He); lia|].
  unfold wake_up in He. destruct (threads s !! i) as [[]|] eqn:Hi; try done. injection He as <-.
  pose proof (goto_cost _ _ _ Woken Hi) as Hg. cbn [thread_cost] in Hg. lia.
Qed.

Lemma run_Inv evs s s' : Inv s -> joined s -> run evs s = Some s' -> Inv s' /\ joined s' /\ (cost s' + turns evs <= cost s + spurious evs)%nat.
Proof.
  revert s; induction evs as [|e evs IH]; cbn [run]; intros s HI HJ Hr; [injection Hr as <-; cbn; split; [done|split; [done|lia]]|].
  destruct (event e s) as [s1|] eqn:He; [|done]. cbn in Hr.
  assert (Inv s1) as HI1 by (destruct e; cbn in He; [by eapply thread_step_Inv|by eapply wake_up_Inv]).
  destruct (IH s1 HI1 (joined_event _ _ _ HI HJ He) Hr) as (? & ? & Hc). split; [done|]. split; [done|].
  pose proof (event_cost _ _ _ HI He) as Hc1. destruct e; cbn in Hc1 |- *; lia.
Qed.

Definition max_turns : nat := 3 * size nodes * (size nodes + 15) + 11 + 1 `max` maxThreads.

Lemma start_cost : (cost start <= max_turns)%nat.
Proof.
  assert (sum_list_with (waiting (graph start)) (elements nodes) <= 2 * size nodes)%nat as Hs.
  { assert (forall n, waiting (graph start) n <= 2)%nat as Hw by (intros n; unfold waiting; cbn; rewrite lookup_empty; destruct (decide _); lia).
    assert (forall l, sum_list_with (waiting (graph start)) l <= 2 * length l)%nat as Hl.
    { intros l. induction l as [|n l IH]; [done|]. cbn [sum_list_with length]. specialize (Hw n). lia. }
    apply (Hl (elements nodes)). }
  unfold cost, max_turns, node_cost, item_cost. cbn -[Nat.mul graph]. unfold node_cost, item_cost. nia.
Qed.

Lemma start_joined : joined start.
Proof. left. by intros r ?%list_elem_of_singleton. Qed.

Lemma run_start evs s : run evs start = Some s -> Inv s /\ joined s /\ (cost s + turns evs <= max_turns + spurious evs)%nat.
Proof.
  intros Hr. destruct (run_Inv _ _ _ start_Inv start_joined Hr) as (? & ? & Hc). pose proof start_cost. split; [done|]. split; [done|]. lia.
Qed.

End pool.

(** ** The properties *)

(** A schedule on two threads: the main thread enqueues two nodes, the second
    of which refers to the first, and both threads process them. *)
Definition two_nodes : gset nat := {[0; 1]}.
Definition two_edges (n : nat) : gset nat := if (n =? 1)%nat then {[0]} else ∅.
Definition no_exn : bool -> nat -> exn -> bool := fun _ _ _ => false.
Definition turn (i : nat) : Event (N := nat) := Turn (mkChoice None 0 None) i.
Definition choose (x j i : nat) : Event (N := nat) := Turn (mkChoice (Some x) j None) i.
Definition two_schedule : list (Event (N := nat)) :=
  [choose 1 0 0; choose 0 0 0; turn 0; turn 0; turn 1; turn 1; turn 1; turn 1; turn 0; turn 0; turn 0; turn 0;
   turn 1; Spurious 1; turn 1; turn 0; turn 0; choose 1 1 0; turn 0; turn 1; turn 1; turn 1; turn 1; turn 1; turn 0;
   turn 1; turn 0; turn 0; turn 0].

(** C16: processing a graph on a pool of threads, under every schedule: a node
    is processed at most once, and only when all nodes of the graph it refers
    to have been; no assertion fails; the pool has no more threads than it
    may; and when [processGraph] returns or throws all workers have
    terminated, and it returns only when every node was processed, rethrows
    only what a call threw while the pool was not shutting down, and reports
    a cycle only when some nodes of the graph wait for each other. *)
Theorem processGraph_spec {N} `{Countable N} (nodes : gset N) getEdges throws maxThreads evs s :
  run getEdges throws maxThreads evs (start nodes) = Some s ->
  NoDup (called s) /\
  (forall n, n ∈ called s -> n ∈ nodes /\ deps nodes getEdges n ⊆ completed s) /\
  (forall n, n ∈ completed s -> n ∈ called s) /\
  Aborted ∉ threads s /\ (length (threads s) <= 1 `max` maxThreads)%nat /\
  forall r, threads s !! 0 = Some (Done r) ->
    (forall i t, threads s !! S i = Some t -> t = Exited) /\ outcome_ok nodes getEdges throws (completed s) r.
Proof.
  intros (HI & HJ & _)%run_start. destruct HI as [HG HP]. split; [apply HG|]. split; [apply HG|]. split; [apply HG|]. split.
  - intros Ha. pose proof (gi_threads _ _ _ _ _ _ _ _ _ HG) as Ht. rewrite Forall_forall in Ht. by apply (Ht Aborted).
  - split; [apply HP|]. intros r Hr. destruct HJ as [HJ|(r' & _ & HJ)]; [by apply list_elem_of_lookup_2, HJ in Hr|].
    split; [done|]. apply (pi_outcome _ _ _ _ _ _ _ HP). right. by eapply list_elem_of_lookup_2.
Qed.

Lemma processGraph_spec_witness : exists s,
  run two_edges no_exn 2 two_schedule (start two_nodes) = Some s /\ called s = [0; 1] /\ threads s = [Done Returned; Exited] /\
  outcome_ok two_nodes two_edges no_exn (completed s) Returned.
Proof.
  eexists. split; [vm_compute; reflexivity|]. split; [reflexivity|]. split; [reflexivity|].
  refine (proj2 (proj2 (proj2 (proj2 (proj2 (proj2 (processGraph_spec two_nodes two_edges no_exn 2 two_schedule _ _))))) Returned _));
    [vm_compute; reflexivity|reflexivity].
Defined.

(** C17: no schedule runs forever or gets stuck: apart from threads that leave
    [wait] without having been notified, there are at most [max_turns] turns,
    and when no thread has a turn [processGraph] has returned or thrown; it
    has then processed every node, unless a call threw or some nodes wait for
    each other. *)
Theorem processGraph_completes {N} `{Countable N} (nodes : gset N) getEdges throws maxThreads evs s :
  run getEdges throws maxThreads evs (start nodes) = Some s ->
  (turns evs <= max_turns nodes maxThreads + spurious evs)%nat /\
  ((forall c i, thread_step getEdges throws maxThreads c i s = None) ->
   exists r, threads s !! 0 = Some (Done r) /\
     ((forall n e, throws false n e = false) -> ~ deadlocked nodes getEdges -> r = Returned /\ nodes ⊆ completed s)).
Proof.
  intros (HI & HJ & Hc)%run_start. split; [lia|]. intros Hstuck.
  destruct (Inv_progress _ _ _ _ _ HI) as [[r Hr]|(c & i & s' & Hs)]; [|by rewrite Hstuck in Hs]. exists r. split; [done|].
  intros Hnt Hnd. pose proof (pi_outcome _ _ _ _ _ _ _ (inv_pool _ _ _ _ _ HI) r) as Ho.
  destruct r as [|e|]; [split; [done|]| |]; cbn in Ho.
  - apply Ho. right. by eapply list_elem_of_lookup_2.
  - destruct Ho as (n & x & _ & Hx); [right; by eapply list_elem_of_lookup_2|]. by rewrite Hnt in Hx.
  - destruct Hnd. apply Ho. right. by eapply list_elem_of_lookup_2.
Qed.

Lemma processGraph_completes_witness : exists s,
  run two_edges no_exn 2 two_schedule (start two_nodes) = Some s /\ max_turns two_nodes 2 = 115 /\ (turns two_schedule <= 116)%nat /\
  two_nodes ⊆ completed s.
Proof.
  assert (~ deadlocked two_nodes two_edges) as Hnd.
  { intros (X & Hne & Hsub & HX). assert (0 ∉ X) as H0.
    { intros (m & _ & Hm)%HX. revert Hm. by vm_compute. }
    apply set_choose_L in Hne as [n Hn]. destruct (HX n Hn) as (m & Hm & Hd).
    assert (m = 0) as ->; [|done]. apply Hsub in Hn. unfold two_nodes in Hn.
    apply elem_of_union in Hn as [->%elem_of_singleton| ->%elem_of_singleton].
    - by apply not_elem_of_empty in Hd.
    - unfold deps in Hd. apply elem_of_intersection in Hd as [Hd _]. apply elem_of_difference in Hd as [Hd _]. change (two_edges 1) with ({[0]} : gset nat) in Hd. by apply elem_of_singleton in Hd. }
  eexists. split; [vm_compute; reflexivity|].
  epose proof (processGraph_completes two_nodes two_edges no_exn 2 two_schedule _ ltac:(vm_compute; reflexivity)) as [Hb Hs].
  split; [reflexivity|]. split; [exact Hb|].
  destruct Hs as (r & _ & Hr); [|by apply Hr].
  intros c [|[|i]]; reflexivity.
Defined.
