(* ===== verification/Pool.v ===== *)
(** * Pool: resources shared by threads

    The class [Pool] of libutil pool.hh: threads get handles of resources from
    a pool of bounded capacity and wait when there is none.  An event is one
    section under the lock, or a call of the factory, of some thread; a
    schedule is a list of events and says what is left open: what the factory
    and the validator answer, and which waiting thread a [notify_one] wakes. *)

From S2P Require Export Prelude.

Local Open Scope Z_scope.

Section pool.
Context {R : Type} `{EqDecision R}.

(** ** State *)

(** [r] is reset when the handle has been moved from. *)
Record Handle := mkHandle { r : option R; bad : bool }.
(** Where a thread is: outside of [get], in [wait], notified, or in [get]
    while the factory runs.  [Aborted] is a failed assertion. *)
Inductive Place := Ready | Waiting | Woken | Creating | Aborted.
Record Thread := mkThread { at_ : Place; handles : list Handle }.
(** The last resource of [idle] is its back.  [inUse] and [max] are of type
    [size_t]. *)
Record State := mkState { inUse : Z; max : Z; idle : list R; threads : list Thread }.

Inductive Event :=
  | Get (i : nat) (validator : R -> result bool)
  | Make (i : nat) (factory : result R) (wake : nat)
  | Release (i k : nat) (wake : nat)
  | MarkBad (i k : nat)
  | Move (i k : nat)
  | WakeUp (i : nat)
  | FlushBad (validator : R -> result bool)
  | Clear
  | IncCapacity
  | DecCapacity.

Definition size_t (n : Z) : Z := n mod 2 ^ 64.
(** The default capacity. *)
Definition size_max : Z := 2 ^ 64 - 1.

(** The constructor, for [n] threads. *)
Definition new_pool (max : Z) (n : nat) : State := mkState 0 max [] (replicate n (mkThread Ready [])).

(** ** Operations *)

Definition set_thread (i : nat) (t : Thread) (s : State) : State := mkState (inUse s) (max s) (idle s) (<[i := t]> (threads s)).
Definition set_inUse (n : Z) (s : State) : State := mkState (size_t n) (max s) (idle s) (threads s).
Definition set_idle (l : list R) (s : State) : State := mkState (inUse s) (max s) l (threads s).
Definition set_max (n : Z) (s : State) : State := mkState (inUse s) (size_t n) (idle s) (threads s).

Definition is_waiting (t : Thread) : bool := match at_ t with Waiting => true | _ => false end.
(** Wakes the chosen thread, which waits unless none does. *)
Definition notify_one (j : nat) (s : State) : option State :=
  match threads s !! j with
  | Some (mkThread Waiting hs) => Some (set_thread j (mkThread Woken hs) s)
  | _ => if existsb is_waiting (threads s) then None else Some s
  end.

(** The loop of [get] over the idle resources, from the back: what is popped
    and not valid is dropped.  The list is the reverse of [idle]. *)
Fixpoint take_valid (validator : R -> result bool) (l : list R) : result (option R) * list R :=
  match l with
  | [] => (Ok None, [])
  | p :: l =>
      match validator p with
      | Ok true => (Ok (Some p), l)
      | Ok false => take_valid validator l
      | Throw e => (Throw e, l)
      end
  end.

(** The section of [get] under the lock, also after a [wait]. *)
Definition get (i : nat) (t : Thread) (validator : R -> result bool) (s : State) : State :=
  if bool_decide (idle s = []) && (max s <=? inUse s) then set_thread i (mkThread Waiting (handles t)) s
  else
    let '(p, l) := take_valid validator (reverse (idle s)) in
    let s := set_idle (reverse l) s in
    match p with
    | Ok (Some p) => set_thread i (mkThread Ready (handles t ++ [mkHandle (Some p) false])) (set_inUse (inUse s + 1) s)
    | Ok None => set_thread i (mkThread Creating (handles t)) (set_inUse (inUse s + 1) s)
    | Throw _ => set_thread i (mkThread Ready (handles t)) s
    end.

(** The resources of the pool. *)
Definition held (t : Thread) : list R := omap r (handles t).
Definition resources (s : State) : list R := idle s ++ (threads s ≫= held).

(** The factory returns, and gives an instance that is new, or throws. *)
Definition make (i : nat) (t : Thread) (factory : result R) (wake : nat) (s : State) : option State :=
  match factory with
  | Ok p => if decide (p ∈ resources s) then None else Some (set_thread i (mkThread Ready (handles t ++ [mkHandle (Some p) false])) s)
  | Throw _ => notify_one wake (set_thread i (mkThread Ready (handles t)) (set_inUse (inUse s - 1) s))
  end.

(** [~Handle] *)
Definition release (i : nat) (t : Thread) (k : nat) (wake : nat) (s : State) : option State :=
  h ← handles t !! k;
  let t := mkThread (at_ t) (delete k (handles t)) in
  match r h with
  | None => Some (set_thread i t s)
  | Some p =>
      let s := if bad h then s else set_idle (idle s ++ [p]) s in
      if inUse s =? 0 then Some (set_thread i (mkThread Aborted (handles t)) s)
      else notify_one wake (set_thread i t (set_inUse (inUse s - 1) s))
  end.

Definition markBad (i : nat) (t : Thread) (k : nat) (s : State) : option State :=
  h ← handles t !! k;
  Some (set_thread i (mkThread (at_ t) (<[k := mkHandle (r h) true]> (handles t))) s).

(** [Handle(Handle && h)]: the new handle is the last one. *)
Definition move (i : nat) (t : Thread) (k : nat) (s : State) : option State :=
  h ← handles t !! k;
  Some (set_thread i (mkThread (at_ t) (<[k := mkHandle None (bad h)]> (handles t) ++ [mkHandle (r h) false])) s).

Definition incCapacity (s : State) : State := set_max (max s + 1) s.
Definition decCapacity (s : State) : State := set_max (max s - 1) s.
Definition count (s : State) : Z := size_t (Z.of_nat (length (idle s)) + inUse s).
Definition capacity (s : State) : Z := max s.

(** An exception of the validator leaves [idle] as it is. *)
Fixpoint still_valid (validator : R -> result bool) (l : list R) : result (list R) :=
  match l with
  | [] => Ok []
  | p :: l => b ← validator p; rest ← still_valid validator l; Ok (if b : bool then p :: rest else rest)
  end.
Definition flushBad (validator : R -> result bool) (s : State) : State :=
  match still_valid validator (idle s) with Ok valid => set_idle valid s | Throw _ => s end.
Definition clear (s : State) : list R * State := (idle s, set_idle [] s).
(** [~Pool] *)
Definition destroy (s : State) : result State :=
  _ ← assertb (inUse s =? 0);
  Ok (mkState (inUse s) 0 [] (threads s)).

(** ** Schedules *)

Definition in_get (t : Thread) : bool := match at_ t with Ready => false | _ => true end.
Definition running (t : Thread) : option Thread := if in_get t then None else Some t.

Definition step (e : Event) (s : State) : option State :=
  match e with
  | Get i validator =>
      t ← threads s !! i;
      match at_ t with Ready | Woken => Some (get i t validator s) | _ => None end
  | Make i factory wake =>
      t ← threads s !! i;
      match at_ t with Creating => make i t factory wake s | _ => None end
  | Release i k wake => t ← threads s !! i; t ← running t; release i t k wake s
  | MarkBad i k => t ← threads s !! i; t ← running t; markBad i t k s
  | Move i k => t ← threads s !! i; t ← running t; move i t k s
  | WakeUp i =>
      t ← threads s !! i;
      match at_ t with Waiting => Some (set_thread i (mkThread Woken (handles t)) s) | _ => None end
  | FlushBad validator => Some (flushBad validator s)
  | Clear => Some (snd (clear s))
  | IncCapacity => Some (incCapacity s)
  | DecCapacity => Some (decCapacity s)
  end.
Fixpoint run (es : list Event) (s : State) : option State :=
  match es with [] => Some s | e :: es => s ← step e s; run es s end.

(** Events that keep the capacity. *)
Definition keeps_capacity (e : Event) : bool := match e with IncCapacity | DecCapacity => false | _ => true end.
(** No validator called by [get] throws. *)
Definition no_throw (e : Event) : Prop := match e with Get _ validator => forall p, exists b, validator p = Ok b | _ => True end.

(** ** Invariant *)

(** A slot is a handle of a resource, or one that is being made. *)
Definition slots (t : Thread) : list (option R) := (Some <$> held t) ++ (match at_ t with Creating => [None] | _ => [] end).
Definition woken (t : Thread) : list unit := match at_ t with Woken => [()] | _ => [] end.
Definition nslots (ts : list Thread) : Z := Z.of_nat (length (ts ≫= slots)).
Definition nwoken (ts : list Thread) : Z := Z.of_nat (length (ts ≫= woken)).

Record inv (s : State) : Prop := {
  inv_inUse : inUse s = nslots (threads s);
  inv_max : Z.of_nat (length (idle s)) + inUse s <= max s < 2 ^ 64;
  inv_nodup : NoDup (resources s);
  inv_abort : Forall (fun t => at_ t <> Aborted) (threads s);
}.
(** A free slot is known to a thread that has been woken for it, if any waits. *)
Definition wakes_but (d : Z) (s : State) : Prop := existsb is_waiting (threads s) = true -> max s - inUse s <= nwoken (threads s) + d.
Definition wakes : State -> Prop := wakes_but 0.

Lemma bind_insert {A B} (f : A -> list B) (l : list A) i x y : l !! i = Some x ->
  (<[i := y]> l ≫= f) ++ f x ≡ₚ (l ≫= f) ++ f y.
Proof.
  intros Hi. rewrite <- (take_drop_middle l i x Hi) at 2. rewrite insert_take_drop by (by eapply lookup_lt_Some).
  rewrite !bind_app, !bind_cons. solve_Permutation.
Qed.
Lemma bind_insert_length {A B} (f : A -> list B) (l : list A) i x y : l !! i = Some x ->
  (length (<[i := y]> l ≫= f) + length (f x) = length (l ≫= f) + length (f y))%nat.
Proof. intros Hi. rewrite <- !length_app. by rewrite bind_insert. Qed.

Lemma nslots_insert ts i t t' : ts !! i = Some t ->
  nslots (<[i := t']> ts) = nslots ts + Z.of_nat (length (slots t')) - Z.of_nat (length (slots t)).
Proof. intros Hi. unfold nslots. pose proof (bind_insert_length slots ts i t t' Hi). lia. Qed.
Lemma nwoken_insert ts i t t' : ts !! i = Some t ->
  nwoken (<[i := t']> ts) = nwoken ts + Z.of_nat (length (woken t')) - Z.of_nat (length (woken t)).
Proof. intros Hi. unfold nwoken. pose proof (bind_insert_length woken ts i t t' Hi). lia. Qed.

Lemma waits_insert ts i t t' : ts !! i = Some t -> is_waiting t' = false -> existsb is_waiting (<[i := t']> ts) = true ->
  existsb is_waiting ts = true.
Proof.
  intros Hi Ht. rewrite !existsb_exists. intros (x & Hx & Hw). apply list_elem_of_In, list_elem_of_lookup in Hx as [j Hj].
  destruct (decide (i = j)) as [<-|Hij].
  - rewrite list_lookup_insert_eq in Hj by (by eapply lookup_lt_Some). injection Hj as <-. congruence.
  - rewrite list_lookup_insert_ne in Hj by done. exists x. split; [|done]. apply list_elem_of_In. by eapply list_elem_of_lookup_2.
Qed.

Lemma submseteq_NoDup {A} (l k : list A) : l ⊆+ k -> NoDup k -> NoDup l.
Proof. intros [k' Hk]%submseteq_Permutation. rewrite Hk. by intros [? _]%NoDup_app. Qed.

Lemma pool_change s i t t' l n extra : inv s -> threads s !! i = Some t ->
  n = inUse s + Z.of_nat (length (slots t')) - Z.of_nat (length (slots t)) -> Z.of_nat (length l) + n <= max s ->
  NoDup (extra ++ resources s) -> l ++ held t' ⊆+ extra ++ idle s ++ held t -> at_ t' <> Aborted ->
  inv (mkState n (max s) l (<[i := t']> (threads s))).
Proof.
  intros [Hu Hm Hd Ha] Hi Hn Hl Hx Hsub Hab. split; cbn [inUse max idle threads].
  - by rewrite (nslots_insert _ _ _ _ Hi), <- Hu.
  - lia.
  - revert Hx. apply submseteq_NoDup. unfold resources. cbn [idle threads]. rewrite <- (take_drop_middle (threads s) i t Hi) at 2.
    rewrite insert_take_drop by (by eapply lookup_lt_Some). rewrite !bind_app, !bind_cons.
    set (A := take i (threads s) ≫= held). set (B := drop (S i) (threads s) ≫= held).
    transitivity ((l ++ held t') ++ (A ++ B)); [apply Permutation_submseteq; solve_Permutation|].
    transitivity ((extra ++ idle s ++ held t) ++ (A ++ B)); [by apply submseteq_app|apply Permutation_submseteq; solve_Permutation].
  - by apply Forall_insert.
Qed.

Lemma wakes_change d d' s i t t' l n : wakes_but d s -> threads s !! i = Some t ->
  (is_waiting t' = false /\ inUse s + Z.of_nat (length (woken t)) + d <= n + Z.of_nat (length (woken t')) + d' \/ max s <= n /\ d' = 0) ->
  wakes_but d' (mkState n (max s) l (<[i := t']> (threads s))).
Proof.
  intros Hw Hi [[Ht Hn]|[Hn ->]]; unfold wakes_but; cbn [inUse max threads]; [|unfold nwoken; lia].
  rewrite (nwoken_insert _ _ _ _ Hi). intros Hs%(waits_insert _ _ _ _ Hi Ht). specialize (Hw Hs). lia.
Qed.

Lemma notify_one_cases j s s' : notify_one j s = Some s' ->
  s' = s /\ existsb is_waiting (threads s) = false \/
  exists hs, threads s !! j = Some (mkThread Waiting hs) /\ s' = set_thread j (mkThread Woken hs) s.
Proof.
  unfold notify_one. destruct (threads s !! j) as [[[] hs]|] eqn:Hj; try (destruct (existsb is_waiting (threads s)); [done|]; intros [= <-]; by left).
  intros [= <-]. right. by exists hs.
Qed.

Lemma notify_one_inv j s s' : notify_one j s = Some s' -> inv s -> inv s'.
Proof.
  intros [[-> _]|(hs & Hj & ->)]%notify_one_cases Hi; [done|]. unfold set_thread.
  eapply (pool_change _ _ _ (mkThread Woken hs) _ _ []); [done|exact Hj| |apply Hi|apply Hi| |done]; [unfold slots, held; cbn; lia|done].
Qed.
Lemma notify_one_wakes j s s' : notify_one j s = Some s' -> wakes_but 1 s -> wakes s'.
Proof.
  intros [[-> Hf]|(hs & Hj & ->)]%notify_one_cases Hw.
  - intros Ht. congruence.
  - apply (wakes_change 1 0 _ _ _ _ _ _ Hw Hj). left. split; [done|]. cbn. lia.
Qed.

Lemma take_valid_sublist validator l : forall p rest, take_valid validator l = (p, rest) ->
  match p with Ok (Some x) => [x] ++ rest ⊆+ l | Ok None => rest = [] | Throw _ => rest ⊆+ l end /\ (length rest <= length l)%nat /\
  (forall x, p = Ok (Some x) -> (length rest < length l)%nat).
Proof.
  induction l as [|x l IH]; intros p rest; cbn [take_valid]; [by intros [= <- <-]|].
  destruct (validator x) as [[]|e]; [intros [= <- <-]|intros Hr|intros [= <- <-]].
  - split; [done|]. cbn. split; [lia|]. intros. lia.
  - destruct (IH _ _ Hr) as (Hs & Hl & Hlt). cbn [length]. split; [|split; [lia|intros y ->; specialize (Hlt y eq_refl); lia]].
    destruct p as [[y|]|]; [|done|]; (etransitivity; [exact Hs|]); by apply submseteq_cons.
  - split; [by apply submseteq_cons|]. cbn. split; [lia|]. done.
Qed.

Lemma held_app t h : held (mkThread Ready (handles t ++ [h])) = held t ++ (match r h with Some p => [p] | None => [] end).
Proof. unfold held. cbn [handles]. rewrite omap_app. cbn. by destruct (r h). Qed.

Lemma size_t_small n : 0 <= n < 2 ^ 64 -> size_t n = n.
Proof. intros. by apply Z.mod_small. Qed.

Lemma inUse_nonneg s : inv s -> 0 <= inUse s.
Proof. intros [-> _ _ _]. unfold nslots. lia. Qed.

Lemma reverse_submseteq (l : list R) : reverse l ≡ₚ l.
Proof. apply reverse_Permutation. Qed.

(** A thread that is not in the factory has a slot for each resource it
    holds. *)
Lemma slots_held t : at_ t <> Creating -> length (slots t) = length (held t).
Proof. intros Ht. unfold slots. destruct (at_ t); try done; by rewrite app_nil_r, length_fmap. Qed.

Lemma get_inv i t validator s : inv s -> threads s !! i = Some t -> at_ t = Ready \/ at_ t = Woken -> inv (get i t validator s).
Proof.
  intros Hinv Hi Ht. pose proof (inUse_nonneg s Hinv) as Hpos. pose proof (inv_max s Hinv) as Hmax. assert (at_ t <> Creating) as Hc by (destruct Ht as [-> | ->]; done).
  unfold get. destruct (bool_decide (idle s = []) && (max s <=? inUse s)) eqn:Hfull.
  { eapply (pool_change _ _ _ _ _ _ []); [done|exact Hi| |lia|apply Hinv|done|done]. rewrite !slots_held by done. unfold held. cbn. lia. }
  assert (Z.of_nat (length (idle s)) + inUse s < max s \/ idle s <> []) as Hslot.
  { apply andb_false_iff in Hfull as [Hne%bool_decide_eq_false|Hlt%Z.leb_gt]; [by right|]. destruct (idle s); [left; cbn in *; lia|by right]. }
  destruct (take_valid validator (reverse (idle s))) as [[[p|]|e] rest] eqn:Htake; apply take_valid_sublist in Htake as (Hs & Hl & Hlt);
    rewrite length_reverse in Hl, Hlt.
  - specialize (Hlt p eq_refl). rewrite reverse_submseteq in Hs.
    unfold set_thread, set_inUse, set_idle; cbn [inUse max idle threads]. rewrite size_t_small by lia.
    eapply (pool_change _ _ _ _ _ _ []); [done|exact Hi| |rewrite length_reverse; lia|apply Hinv| |done].
    + rewrite !slots_held by done. rewrite held_app, length_app. cbn. lia.
    + rewrite held_app. cbn [r app]. rewrite reverse_submseteq. transitivity (([p] ++ rest) ++ held t); [apply Permutation_submseteq; solve_Permutation|].
      cbn [app] in *. by apply (submseteq_app (p :: rest)).
  - subst rest. unfold set_thread, set_inUse, set_idle; cbn [inUse max idle threads]. assert (inUse s + 1 <= max s) by (destruct Hslot as [?|?]; [lia|destruct (idle s); [done|cbn in *; lia]]).
    rewrite size_t_small by lia. eapply (pool_change _ _ _ _ _ _ []); [done|exact Hi| |cbn; lia|apply Hinv| |done].
    + rewrite (slots_held t) by done. unfold slots, held. cbn. rewrite length_app, length_fmap. cbn. lia.
    + cbn [reverse app]. by apply submseteq_inserts_l.
  - rewrite reverse_submseteq in Hs. unfold set_thread, set_idle; cbn [inUse max idle threads].
    eapply (pool_change _ _ _ _ _ _ []); [done|exact Hi| |rewrite length_reverse; lia|apply Hinv| |done].
    + rewrite !slots_held by done. unfold held. cbn. lia.
    + rewrite reverse_submseteq. cbn [app]. change (held (mkThread Ready (handles t))) with (held t). by apply submseteq_app.
Qed.

Lemma take_valid_no_throw validator l : (forall p, exists b, validator p = Ok b) -> exists p, (take_valid validator l).1 = Ok p.
Proof. intros Hv. induction l as [|x l IH]; cbn; [by exists None|]. destruct (Hv x) as [[] ->]; [by exists (Some x)|done]. Qed.

Lemma get_wakes i t validator s : inv s -> threads s !! i = Some t -> at_ t = Ready \/ at_ t = Woken ->
  (forall p, exists b, validator p = Ok b) -> wakes s -> wakes (get i t validator s).
Proof.
  intros Hinv Hi Ht Hv Hw. unfold get. pose proof (inUse_nonneg s Hinv) as Hpos. pose proof (inv_max s Hinv) as Hmax.
  destruct (bool_decide (idle s = []) && (max s <=? inUse s)) eqn:Hfull.
  { apply andb_true_iff in Hfull as [_ Hle%Z.leb_le]. apply (wakes_change 0 0 s i t); [done|done|]. by right. }
  assert (Z.of_nat (length (woken t)) <= 1) as H1 by (unfold woken; destruct (at_ t); cbn; lia).
  assert (inUse s + 1 < 2 ^ 64) as Hsmall.
  { apply andb_false_iff in Hfull as [Hne%bool_decide_eq_false|Hlt%Z.leb_gt]; [destruct (idle s); [done|cbn in *; lia]|lia]. }
  destruct (take_valid_no_throw validator (reverse (idle s)) Hv) as [p Hp]. destruct (take_valid _ _) as [q rest]. cbn in Hp. subst q.
  destruct p as [p|]; unfold set_thread, set_inUse, set_idle; cbn [inUse max idle threads]; rewrite size_t_small by lia;
    (apply (wakes_change 0 0 s i t); [done|done|]; left; split; [done|]; cbn; lia).
Qed.

Lemma held_bind (l : list Handle) : omap r l = l ≫= (fun h => option_list (r h)).
Proof. induction l as [|h l IH]; [done|]. cbn. rewrite IH. by destruct (r h). Qed.

Lemma release_held t k h : handles t !! k = Some h -> held t ≡ₚ option_list (r h) ++ omap r (delete k (handles t)).
Proof. intros Hk. unfold held. rewrite (delete_Permutation _ _ _ Hk) at 1. cbn. by destruct (r h). Qed.
Lemma markBad_held t k h : handles t !! k = Some h -> omap r (<[k := mkHandle (r h) true]> (handles t)) ≡ₚ held t.
Proof.
  intros Hk. unfold held. rewrite !held_bind. apply (Permutation_app_inv_r (option_list (r h))).
  exact (bind_insert _ _ _ _ (mkHandle (r h) true) Hk).
Qed.
Lemma move_held t k h : handles t !! k = Some h -> omap r (<[k := mkHandle None (bad h)]> (handles t) ++ [mkHandle (r h) false]) ≡ₚ held t.
Proof.
  intros Hk. unfold held. rewrite omap_app, !held_bind. cbn [mbind list_bind r app]. rewrite app_nil_r.
  rewrite (bind_insert (fun h => option_list (r h)) _ _ _ (mkHandle None (bad h)) Hk). cbn. by rewrite app_nil_r.
Qed.

(** A thread outside of [get] does something with its handles. *)
Lemma ready_inv s i t hs l n : inv s -> threads s !! i = Some t -> at_ t = Ready ->
  n = inUse s + Z.of_nat (length (omap r hs)) - Z.of_nat (length (held t)) -> Z.of_nat (length l) + n <= max s ->
  l ++ omap r hs ⊆+ idle s ++ held t -> inv (mkState n (max s) l (<[i := mkThread (at_ t) hs]> (threads s))).
Proof.
  intros Hinv Hi Ht Hn Hl Hs. eapply (pool_change _ _ _ _ _ _ []); [done|exact Hi| |done|apply Hinv|done|cbn; by rewrite Ht].
  rewrite !slots_held by (cbn; by rewrite Ht). exact Hn.
Qed.

Lemma release_inv i t k wake s s' : inv s -> threads s !! i = Some t -> at_ t = Ready -> release i t k wake s = Some s' ->
  inv s' /\ (wakes s -> wakes s').
Proof.
  intros Hinv Hi Ht. unfold release. destruct (handles t !! k) as [h|] eqn:Hk; [|done]. cbn [mbind option_bind].
  pose proof (release_held t k h Hk) as Hheld. destruct h as [[p|] b]; cbn [r bad option_list app] in *.
  - assert (1 <= inUse s) as Hpos.
    { rewrite (inv_inUse s Hinv). unfold nslots. pose proof (bind_insert_length slots _ _ t (mkThread Ready []) Hi) as Hlen.
      rewrite (slots_held t), Hheld in Hlen by by rewrite Ht. cbn in Hlen. lia. }
    pose proof (inv_max s Hinv) as Hmax. set (s1 := if b then s else set_idle (idle s ++ [p]) s).
    assert (inUse s1 = inUse s /\ max s1 = max s /\ threads s1 = threads s) as (Hu & Hm & Hts) by (unfold s1; by destruct b).
    assert (idle s1 ++ omap r (delete k (handles t)) ⊆+ idle s ++ held t) as Hsub.
    { rewrite Hheld. unfold s1. destruct b; cbn [idle set_idle]; [by apply submseteq_skips_l, submseteq_cons|].
      apply Permutation_submseteq. rewrite <- app_assoc. done. }
    assert (Z.of_nat (length (idle s1)) <= Z.of_nat (length (idle s)) + 1) as Hlen by (unfold s1; destruct b; cbn [idle set_idle]; rewrite ?length_app; cbn; lia).
    rewrite Hu. rewrite (proj2 (Z.eqb_neq _ _)) by lia. unfold set_thread, set_inUse. cbn [inUse max idle threads].
    rewrite Hm, Hts, size_t_small by lia. intros Hn. split.
    + apply (notify_one_inv _ _ _ Hn). apply ready_inv; try done; [|lia]. rewrite Hheld. cbn. lia.
    + intros Hw. apply (notify_one_wakes _ _ _ Hn). apply (wakes_change 0 1 s i t); [done|done|]. left. unfold is_waiting, woken. cbn. rewrite Ht.
      split; [done|]. cbn. lia.
  - cbn in Hheld. intros [= <-]. unfold set_thread. split.
    + apply ready_inv; try done; [pose proof (Permutation_length Hheld); lia|apply Hinv|]. by rewrite Hheld.
    + intros Hw. apply (wakes_change 0 0 s i t); [done|done|]. left. unfold is_waiting, woken. cbn. rewrite Ht. split; [done|]. lia.
Qed.

Lemma ready_same s i t hs : inv s -> threads s !! i = Some t -> at_ t = Ready -> omap r hs ≡ₚ held t ->
  inv (set_thread i (mkThread (at_ t) hs) s) /\ (wakes s -> wakes (set_thread i (mkThread (at_ t) hs) s)).
Proof.
  intros Hinv Hi Ht Hp. unfold set_thread. split.
  - apply ready_inv; try done; [rewrite Hp; lia|apply Hinv|]. by rewrite Hp.
  - intros Hw. apply (wakes_change 0 0 s i t); [done|done|]. left. unfold is_waiting, woken. cbn. rewrite Ht. split; [done|]. lia.
Qed.

Lemma make_inv i t factory wake s s' : inv s -> threads s !! i = Some t -> at_ t = Creating -> make i t factory wake s = Some s' ->
  inv s' /\ (wakes s -> wakes s').
Proof.
  intros Hinv Hi Ht. pose proof (inv_max s Hinv) as Hmax. assert (length (slots t) = S (length (held t))) as Hslots.
  { unfold slots. rewrite Ht, length_app, length_fmap. cbn. lia. }
  destruct factory as [p|e]; cbn [make].
  - case_decide as Hnew; [done|]. intros [= <-]. unfold set_thread. split.
    + eapply (pool_change _ _ _ _ _ _ [p]); [done|exact Hi| |apply Hinv|by apply NoDup_cons; split; [|apply Hinv]| |done].
      * rewrite Hslots, slots_held, held_app, length_app by done. cbn. lia.
      * rewrite held_app. apply Permutation_submseteq. cbn [r]. solve_Permutation.
    + intros Hw. apply (wakes_change 0 0 s i t); [done|done|]. left. unfold is_waiting, woken. cbn. rewrite Ht. split; [done|]. cbn. lia.
  - assert (1 <= inUse s) as Hpos.
    { rewrite (inv_inUse s Hinv). unfold nslots. pose proof (bind_insert_length slots _ _ t (mkThread Ready []) Hi) as Hlen.
      rewrite Hslots in Hlen. cbn in Hlen. lia. }
    unfold set_thread, set_inUse. cbn [inUse max idle threads]. rewrite size_t_small by lia. intros Hn. split.
    + apply (notify_one_inv _ _ _ Hn). eapply (pool_change _ _ _ _ _ _ []); [done|exact Hi| |lia|apply Hinv|done|done].
      rewrite Hslots, slots_held by done. unfold held. cbn. lia.
    + intros Hw. apply (notify_one_wakes _ _ _ Hn). apply (wakes_change 0 1 s i t); [done|done|]. left. unfold woken. rewrite Ht. split; [done|]. cbn. lia.
Qed.

Lemma still_valid_sublist validator l l' : still_valid validator l = Ok l' -> l' ⊆+ l.
Proof.
  revert l'. induction l as [|p l IH]; intros l'; cbn [still_valid]; [by intros [= <-]|]. unfold mbind, result_bind.
  destruct (validator p) as [b|]; [|done]. destruct (still_valid validator l) as [rest|]; [|done]. intros [= <-].
  destruct b; [apply submseteq_skip|apply submseteq_cons]; by apply IH.
Qed.
Lemma set_idle_inv l s : inv s -> l ⊆+ idle s -> inv (set_idle l s).
Proof.
  intros [Hu Hm Hd Ha] Hl. pose proof (submseteq_length _ _ Hl). split; unfold set_idle; cbn [inUse max idle threads]; [done|lia| |done].
  revert Hd. apply submseteq_NoDup. unfold resources. by apply submseteq_app.
Qed.

Lemma pool_step e s s' : inv s -> step e s = Some s' -> keeps_capacity e = true -> inv s' /\ (no_throw e -> wakes s -> wakes s').
Proof.
  intros Hinv Hs Hc. destruct e as [i v|i f w|i k w|i k|i k|i|v| | |]; cbn [step no_throw] in *; try done;
    try (destruct (threads s !! i) as [t|] eqn:Hi; [|done]; cbn [mbind option_bind] in Hs; unfold running, in_get in Hs; destruct (at_ t) eqn:Ht; try done;
      cbn [mbind option_bind] in Hs).
  - injection Hs as <-. split; [apply get_inv; auto|intros; apply get_wakes; auto].
  - injection Hs as <-. split; [apply get_inv; auto|intros; apply get_wakes; auto].
  - destruct (make_inv _ _ _ _ _ _ Hinv Hi Ht Hs). auto.
  - destruct (release_inv _ _ _ _ _ _ Hinv Hi Ht Hs). auto.
  - unfold markBad in Hs. destruct (handles t !! k) as [h|] eqn:Hk; [|done]. injection Hs as <-.
    destruct (ready_same _ _ _ _ Hinv Hi Ht (markBad_held t k h Hk)). auto.
  - unfold move in Hs. destruct (handles t !! k) as [h|] eqn:Hk; [|done]. injection Hs as <-.
    destruct (ready_same _ _ _ _ Hinv Hi Ht (move_held t k h Hk)). auto.
  - injection Hs as <-. unfold set_thread. split.
    + eapply (pool_change _ _ _ _ _ _ []); [done|exact Hi| |apply Hinv|apply Hinv|done|done]. rewrite !slots_held by (cbn; by rewrite ?Ht). unfold held. cbn. lia.
    + intros _ Hw. apply (wakes_change 0 0 s i t); [done|done|]. left. unfold woken. rewrite Ht. split; [done|]. cbn. lia.
  - injection Hs as <-. unfold flushBad. destruct (still_valid v (idle s)) as [l|] eqn:Hv; [|done].
    split; [apply set_idle_inv; [done|by eapply still_valid_sublist]|done].
  - injection Hs as <-. split; [apply set_idle_inv; [done|apply submseteq_nil_l]|done].
Qed.

Lemma pool_run es : forall s s', inv s -> run es s = Some s' -> Forall (fun e => keeps_capacity e = true) es ->
  inv s' /\ (Forall no_throw es -> wakes s -> wakes s').
Proof.
  induction es as [|e es IH]; intros s s' Hinv Hr Hc; [by injection Hr as <-|]. cbn [run] in Hr. apply Forall_cons in Hc as [He Hc].
  destruct (step e s) as [s1|] eqn:Hs; [|done]. destruct (pool_step e s s1 Hinv Hs He) as [Hinv1 Hw1]. destruct (IH s1 s' Hinv1 Hr Hc) as [Hinv' Hw'].
  split; [done|]. intros [Hn Hns]%Forall_cons Hw. auto.
Qed.

Lemma notify_one_max j s s' : notify_one j s = Some s' -> max s' = max s.
Proof. by intros [[-> _]|(hs & _ & ->)]%notify_one_cases. Qed.
Lemma get_max i t validator s : max (get i t validator s) = max s.
Proof. unfold get. destruct (_ && _); [done|]. by destruct (take_valid _ _) as [[[p|]|e] rest]. Qed.
Lemma step_max e s s' : step e s = Some s' -> keeps_capacity e = true -> max s' = max s.
Proof.
  intros Hs Hc. destruct e as [i v|i f w|i k w|i k|i k|i|v| | |]; cbn [step] in *; try done;
    try (destruct (threads s !! i) as [t|]; [|done]; cbn [mbind option_bind] in Hs; unfold running in Hs; destruct (in_get t), (at_ t); try done;
      cbn [mbind option_bind] in Hs).
  all: unfold make, release, markBad, move, flushBad in Hs; repeat case_match; simplify_eq/=; try done; try apply get_max.
  all: try by (apply notify_one_max in Hs as ->).
  all: destruct (handles t !! k) as [[[p|] []]|]; cbn in Hs; simplify_eq/=; try done; destruct (inUse s =? 0); simplify_eq/=; try done;
    by apply notify_one_max in Hs as ->.
Qed.
Lemma run_max es : forall s s', run es s = Some s' -> Forall (fun e => keeps_capacity e = true) es -> max s' = max s.
Proof.
  induction es as [|e es IH]; intros s s' Hr Hc; [by injection Hr as <-|]. cbn [run] in Hr. apply Forall_cons in Hc as [He Hc].
  destruct (step e s) as [s1|] eqn:Hs; [|done]. by rewrite (IH s1 s' Hr Hc), (step_max e s s1 Hs He).
Qed.

Lemma list_bind_none {A B} (f : A -> list B) (l : list A) : (forall x, x ∈ l -> f x = []) -> l ≫= f = [].
Proof. induction l as [|x l IH]; intros Hl; [done|]. rewrite bind_cons, (Hl x), IH by (left || intros; apply Hl; by right). done. Qed.
Lemma replicate_bind {A B} n (x : A) (f : A -> list B) : f x = [] -> replicate n x ≫= f = [].
Proof. intros Hx. induction n as [|n IH]; [done|]. cbn [replicate]. by rewrite bind_cons, Hx, IH. Qed.

Lemma new_pool_inv m n : 0 <= m < 2 ^ 64 -> inv (new_pool m n) /\ wakes (new_pool m n).
Proof.
  intros Hm. unfold new_pool. split.
  - split; cbn [inUse max idle threads].
    + unfold nslots. by rewrite replicate_bind.
    + cbn. lia.
    + unfold resources. cbn [idle threads]. rewrite replicate_bind by done. constructor.
    + by apply Forall_replicate.
  - unfold wakes, wakes_but. cbn [threads]. intros Hw. apply existsb_exists in Hw as (t & Ht%list_elem_of_In & Hw).
    by apply elem_of_replicate in Ht as [-> _].
Qed.

(** C18: However many threads get, make, use, move, mark and release
    resources of a pool of fixed capacity, with any answers of the factory
    and the validator: no assertion fails; the resources that are idle and
    those behind handles are all distinct, so that none is had by two; they
    and those being made are never more than the capacity, and [inUse] counts
    the latter two.  If no validator called by [get] throws, no wake-up is
    lost: while a thread waits, every free slot has a thread that was woken
    for it, so when all threads in [get] wait, as many slots as the capacity
    are in use.  Outside of handles and the factory, the pool may be
    destroyed. *)
Theorem Pool_spec m n es s : 0 <= m < 2 ^ 64 -> run es (new_pool m n) = Some s -> Forall (fun e => keeps_capacity e = true) es ->
  Forall (fun t => at_ t <> Aborted) (threads s) /\
  NoDup (idle s ++ (threads s ≫= held)) /\
  inUse s = Z.of_nat (length (threads s ≫= slots)) /\
  count s = Z.of_nat (length (idle s)) + inUse s /\ count s <= m /\
  (Forall no_throw es -> forall t, t ∈ threads s -> at_ t = Waiting ->
     m - inUse s <= Z.of_nat (length (threads s ≫= woken)) /\
     ((forall t, t ∈ threads s -> at_ t <> Woken) -> inUse s = m)) /\
  ((threads s ≫= slots) = [] -> exists s', destroy s = Ok s').
Proof.
  intros Hm Hr Hc. destruct (new_pool_inv m n Hm) as [Hi Hw]. destruct (pool_run es _ _ Hi Hr Hc) as [Hinv Hwakes].
  pose proof (run_max es _ _ Hr Hc : max s = m) as Hmax. pose proof (inUse_nonneg s Hinv) as Hpos. pose proof (inv_max s Hinv) as Hle.
  assert (count s = Z.of_nat (length (idle s)) + inUse s) as Hcount by (unfold count; apply size_t_small; lia).
  split_and!; [apply Hinv|apply Hinv|apply Hinv|done|lia| |].
  - intros Hn t Ht Hwait. assert (existsb is_waiting (threads s) = true) as Hex.
    { apply existsb_exists. exists t. split; [by apply list_elem_of_In|]. unfold is_waiting. by rewrite Hwait. }
    specialize (Hwakes Hn Hw Hex). rewrite Hmax, Z.add_0_r in Hwakes. split; [exact Hwakes|]. intros Hno.
    assert (nwoken (threads s) = 0) as Hz; [|unfold nwoken in *; lia]. unfold nwoken. rewrite (list_bind_none woken); [done|].
    intros u Hu. specialize (Hno u Hu). unfold woken. by destruct (at_ u).
  - intros Hnone. unfold destroy. rewrite (inv_inUse s Hinv). unfold nslots. rewrite Hnone. by eexists.
Qed.
End pool.

(** ** What modelling showed *)

Definition valid (p : nat) : result bool := Ok true.
Definition hand_over : list (@Event nat) := [Get 0 valid; Make 0 (Ok 7%nat) 0; Get 1 valid; Release 0 0 1].

Lemma Pool_spec_witness : exists s, run hand_over (new_pool 1 2) = Some s /\ at_ <$> threads s = [Ready; Woken] /\
  NoDup (idle s ++ (threads s ≫= held)) /\ count s <= 1.
Proof.
  eexists. split; [reflexivity|]. split; [reflexivity|].
  destruct (Pool_spec 1 2 hand_over _ ltac:(lia) eq_refl ltac:(repeat constructor)) as (_ & H1 & _ & _ & H2 & _).
  split; [exact H1|exact H2].
Defined.

(** A handle that was marked bad and is moved is not bad any more: the
    resource goes back to the pool. *)
Lemma move_forgets_bad : idle <$> run [Get 0 valid; Make 0 (Ok 7%nat) 0; MarkBad 0 0; Move 0 0; Release 0 1 0; Release 0 0 0] (new_pool 1 1) = Some [7%nat].
Proof. reflexivity. Qed.

(** When the validator throws, the notification that [get] was woken by is
    lost: a thread waits, though no resource is in use. *)
Lemma throwing_validator_loses_wakeup : exists s,
  run [Get 0 valid; Make 0 (Ok 7%nat) 0; Get 1 valid; Get 2 valid; Release 0 0 1; Get 1 (fun _ => Throw Error)] (new_pool 1 3) = Some s /\
  at_ <$> threads s = [Ready; Ready; Waiting] /\ inUse s = 0 /\ idle s = [] /\ (threads s ≫= held) = [].
Proof. eexists. split; [reflexivity|]. done. Qed.

(** A pool of the default capacity has none after [incCapacity]. *)
Lemma incCapacity_wraps : exists s, run [IncCapacity; Get 0 valid] (@new_pool nat size_max 1) = Some s /\ capacity s = 0 /\ at_ <$> threads s = [Waiting].
Proof. eexists. split; [reflexivity|]. done. Qed.
