(* ===== verification/Sort.v ===== *)
(** * Sort: stable sorting with any comparator

    sort.hh: merging two sorted runs through a working buffer, insertion
    sort, the search for runs and [peeksort] over them, on arrays whose
    elements are moved about.  An access outside the array, an iterator that
    leaves it and the use of an element that was moved away have no
    behaviour: the functions return [None]. *)

From S2P Require Export Prelude.
From Stdlib Require Import Sorting.Sorted.

(** ** Moving elements *)

Section sort.
Context {V : Type}.
Implicit Types (x y : V) (b e i j : nat).

(** The range that is sorted and the working buffer: [None] is an element
    that was moved away, or the default value the buffer starts with. *)
Record Mem := mkMem { range : list (option V); working : list (option V) }.
Definition M (R : Type) : Type := Mem -> option (R * Mem).
#[export] Instance M_ret : MRet M := fun R r m => Some (r, m).
#[export] Instance M_bind : MBind M := fun R S k c m => '(r, m) ← c m; k r m.
Definition undefined {R} : M R := fun _ => None.

(** [*i] *)
Definition get i : M V := fun m => match range m !! i with Some (Some x) => Some (x, m) | _ => None end.
Definition get_working i : M V := fun m => match working m !! i with Some (Some x) => Some (x, m) | _ => None end.
(** [*i = std::move(x)] *)
Definition put i x : M () := fun m =>
  if (i <? length (range m))%nat then Some ((), mkMem (<[i := Some x]> (range m)) (working m)) else None.
Definition put_working i x : M () := fun m =>
  if (i <? length (working m))%nat then Some ((), mkMem (range m) (<[i := Some x]> (working m))) else None.
(** [std::move( *i)] *)
Definition move i : M V := fun m =>
  match range m !! i with Some (Some x) => Some (x, mkMem (<[i := None]> (range m)) (working m)) | _ => None end.
Definition move_working i : M V := fun m =>
  match working m !! i with Some (Some x) => Some (x, mkMem (range m) (<[i := None]> (working m))) | _ => None end.

(** [std::swap], [std::prev], [std::next], [std::reverse] *)
Definition swap i j : M () := x ← move i; y ← move j; put i y;; put j x.
Definition prev i : M nat := match i with 0 => undefined | S i => mret i end.
Definition next i : M nat := fun m => if (i <? length (range m))%nat then Some (S i, m) else None.
Definition reverse_range i j : M () := fun m =>
  if (i <=? j)%nat && (j <=? length (range m))%nat
  then Some ((), mkMem (take i (range m) ++ reverse (take (j - i) (drop i (range m))) ++ drop j (range m)) (working m)) else None.

(** [std::move(first, last, out)], into the buffer and back, for [n] elements *)
Fixpoint move_in (n i out : nat) : M nat :=
  match n with
  | 0 => mret out
  | S n => x ← move i; put_working out x;; move_in n (S i) (S out)
  end.
Fixpoint move_out (n i out : nat) : M nat :=
  match n with
  | 0 => mret out
  | S n => x ← move_working i; put out x;; move_out n (S i) (S out)
  end.

(** ** The functions *)

Section comp.
Context (comp : V -> V -> bool).

(** The loop of [mergeSortedRunsInPlace]; [fuel] is the number of elements. *)
Fixpoint merge_loop (fuel workingLeft workingMiddle workingRight workingEnd output : nat) : M () :=
  if negb (workingLeft =? workingMiddle)%nat && negb (workingRight =? workingEnd)%nat then
    match fuel with
    | 0 => undefined
    | S fuel =>
        r ← get_working workingRight;
        l ← get_working workingLeft;
        if negb (comp r l) then
          x ← move_working workingLeft;
          put output x;; merge_loop fuel (S workingLeft) workingMiddle workingRight workingEnd (S output)
        else
          x ← move_working workingRight;
          put output x;; merge_loop fuel workingLeft workingMiddle (S workingRight) workingEnd (S output)
    end
  else
    move_out (workingMiddle - workingLeft) workingLeft output;;
    move_out (workingEnd - workingRight) workingRight output;;
    mret ().

Definition mergeSortedRunsInPlace b middle e : M () :=
  workingMiddle ← move_in (middle - b) b 0;
  workingEnd ← move_in (e - middle) middle workingMiddle;
  merge_loop (e - b) 0 workingMiddle workingMiddle workingEnd b.

(** The inner loop of [insertionsort], with the insertion point [d] elements
    after the start, and the outer one, for [n] elements. *)
Fixpoint insert_at d b : M () :=
  match d with
  | 0 => mret ()
  | S d =>
      x ← get (b + S d);
      y ← get (b + d);
      if comp x y then swap (b + S d) (b + d);; insert_at d b else mret ()
  end.
Fixpoint insert_from (n current : nat) b : M () :=
  match n with
  | 0 => mret ()
  | S n => insert_at (current - b) b;; insert_from n (S current) b
  end.
Definition insertionsort b e : M () :=
  if (b =? e)%nat then mret () else insert_from (e - S b) (S b) b.

(** The runs: [n] is the number of elements after the first one. *)
Fixpoint grow_prefix (c : V -> V -> bool) (n : nat) b : M nat :=
  match n with
  | 0 => mret (S b)
  | S n => x ← get (S b); y ← get b; if c x y then grow_prefix c n (S b) else mret (S b)
  end.
Definition strictlyDecreasingPrefix (c : V -> V -> bool) b e : M nat :=
  if (b =? e)%nat then mret b else grow_prefix c (e - S b) b.

Fixpoint grow_suffix (c : V -> V -> bool) (n : nat) e : M nat :=
  last ← prev e;
  match n with
  | 0 => mret last
  | S n => before ← prev last; x ← get last; y ← get before; if c x y then grow_suffix c n last else mret last
  end.
Definition strictlyDecreasingSuffix (c : V -> V -> bool) b e : M nat :=
  if (b =? e)%nat then mret e else grow_suffix c (e - S b) e.

Definition not_fn (c : V -> V -> bool) (x y : V) : bool := negb (c x y).
Definition weaklyIncreasingPrefix b e : M nat := strictlyDecreasingPrefix (not_fn comp) b e.
Definition weaklyIncreasingSuffix b e : M nat := strictlyDecreasingSuffix (not_fn comp) b e.

Definition insertionsortThreshold : nat := 16.

(** The run across the middle, with the elements [x] there and [y] before. *)
Definition find_run x y (before leftRunEnd middle rightRunBegin : nat) : M (nat * nat) :=
  if negb (comp x y) then
    i ← weaklyIncreasingSuffix leftRunEnd middle;
    j ← weaklyIncreasingPrefix before rightRunBegin;
    mret (i, j)
  else
    i ← strictlyDecreasingSuffix comp leftRunEnd middle;
    j ← strictlyDecreasingPrefix comp before rightRunBegin;
    reverse_range i j;;
    mret (i, j).

Fixpoint peeksortImpl (fuel : nat) (b e leftRunEnd rightRunBegin : nat) : M () :=
  match fuel with
  | 0 => undefined
  | S fuel =>
      if (leftRunEnd =? e)%nat || (rightRunBegin =? b)%nat then mret ()
      else
        let length := e - b in
        if (length <=? insertionsortThreshold)%nat then insertionsort b e
        else
          let middle := b + length / 2 in
          if (middle <=? leftRunEnd)%nat then
            leftRunEnd' ← next leftRunEnd;
            peeksortImpl fuel leftRunEnd e leftRunEnd' rightRunBegin;;
            mergeSortedRunsInPlace b leftRunEnd e
          else if (rightRunBegin <=? middle)%nat then
            rightRunBegin' ← prev rightRunBegin;
            peeksortImpl fuel b rightRunBegin leftRunEnd rightRunBegin';;
            mergeSortedRunsInPlace b rightRunBegin e
          else
            before ← prev middle;
            x ← get middle;
            y ← get before;
            '(i, j) ← find_run x y before leftRunEnd middle rightRunBegin;
            if (i =? b)%nat && (j =? e)%nat then mret ()
            else if (middle - i <? j - middle)%nat then
              before_i ← prev i;
              peeksortImpl fuel b i leftRunEnd before_i;;
              peeksortImpl fuel i e j rightRunBegin;;
              mergeSortedRunsInPlace b i e
            else
              after_j ← next j;
              peeksortImpl fuel b j leftRunEnd i;;
              peeksortImpl fuel j e after_j rightRunBegin;;
              mergeSortedRunsInPlace b j e
  end.

(** The working buffer starts with default values. *)
Definition allocate (n : nat) : M () := fun m => Some ((), mkMem (range m) (replicate n None)).

Definition peeksort b e : M () :=
  let length := e - b in
  if (length <=? 1)%nat then mret ()
  else if (length =? 2)%nat then
    last ← prev e;
    x ← get last;
    y ← get b;
    if comp x y then swap b last else mret ()
  else
    allocate length;;
    peeksortImpl (S length) b e b e.

End comp.

(** ** What the steps do to the arrays *)

(** [c] runs from [m] and ends as [P] says. *)
Definition runs {R} (c : M R) (m : Mem) (P : R -> Mem -> Prop) : Prop := exists r m', c m = Some (r, m') /\ P r m'.

Lemma runs_ret {R} (r : R) m (P : R -> Mem -> Prop) : P r m -> runs (mret r) m P.
Proof. intros HP. by exists r, m. Qed.

Lemma runs_bind {R S} (c : M R) (k : R -> M S) m P : runs c m (fun r m' => runs (k r) m' P) -> runs (c ≫= k) m P.
Proof. intros (r & m' & Hc & s & m'' & Hk & HP). exists s, m''. split; [|done]. unfold mbind, M_bind. rewrite Hc. exact Hk. Qed.

Lemma runs_mono {R} (c : M R) m (P Q : R -> Mem -> Prop) : runs c m P -> (forall r m', P r m' -> Q r m') -> runs c m Q.
Proof. intros (r & m' & Hc & HP) HQ. exists r, m'. auto. Qed.

Implicit Types (pre post w : list (option V)).

Lemma lookup_mid {A} (l1 l2 : list A) a n : n = length l1 -> (l1 ++ a :: l2) !! n = Some a.
Proof. intros ->. by apply list_lookup_middle. Qed.

Lemma insert_mid {A} (l1 l2 : list A) a a' n : n = length l1 -> <[n := a']> (l1 ++ a :: l2) = l1 ++ a' :: l2.
Proof. intros ->. rewrite insert_app_r_alt by done. by rewrite Nat.sub_diag. Qed.

Lemma runs_get i x pre post w (P : V -> Mem -> Prop) :
  i = length pre -> P x (mkMem (pre ++ Some x :: post) w) -> runs (get i) (mkMem (pre ++ Some x :: post) w) P.
Proof. intros Hi HP. eexists x, _. split; [|exact HP]. unfold get. cbn. by rewrite lookup_mid. Qed.

Lemma runs_get_at k x (l : list V) i pre post w (P : V -> Mem -> Prop) :
  i = (length pre + k)%nat -> l !! k = Some x -> P x (mkMem (pre ++ (Some <$> l) ++ post) w) -> runs (get i) (mkMem (pre ++ (Some <$> l) ++ post) w) P.
Proof.
  intros -> Hk HP. eexists x, _. split; [|exact HP]. unfold get. cbn. rewrite lookup_app_r by lia. replace (length pre + k - length pre) with k by lia.
  rewrite lookup_app_l by (rewrite length_fmap; by eapply lookup_lt_Some). by rewrite list_lookup_fmap, Hk.
Qed.

Lemma runs_get_working i x pre post a (P : V -> Mem -> Prop) :
  i = length pre -> P x (mkMem a (pre ++ Some x :: post)) -> runs (get_working i) (mkMem a (pre ++ Some x :: post)) P.
Proof. intros Hi HP. eexists x, _. split; [|exact HP]. unfold get_working. cbn. by rewrite lookup_mid. Qed.

Lemma runs_move i x pre post w (P : V -> Mem -> Prop) :
  i = length pre -> P x (mkMem (pre ++ None :: post) w) -> runs (move i) (mkMem (pre ++ Some x :: post) w) P.
Proof. intros Hi HP. eexists x, _. split; [|exact HP]. unfold move. cbn. by rewrite lookup_mid, insert_mid. Qed.

Lemma runs_move_working i x pre post a (P : V -> Mem -> Prop) :
  i = length pre -> P x (mkMem a (pre ++ None :: post)) -> runs (move_working i) (mkMem a (pre ++ Some x :: post)) P.
Proof. intros Hi HP. eexists x, _. split; [|exact HP]. unfold move_working. cbn. by rewrite lookup_mid, insert_mid. Qed.

Lemma runs_put i x o pre post w (P : unit -> Mem -> Prop) :
  i = length pre -> P () (mkMem (pre ++ Some x :: post) w) -> runs (put i x) (mkMem (pre ++ o :: post) w) P.
Proof.
  intros Hi HP. eexists (), _. split; [|exact HP]. unfold put. cbn [range working]. rewrite insert_mid by done.
  destruct (Nat.ltb_spec i (length (pre ++ o :: post))); [done|]. rewrite length_app in *. cbn in *. lia.
Qed.

Lemma runs_put_working i x o pre post a (P : unit -> Mem -> Prop) :
  i = length pre -> P () (mkMem a (pre ++ Some x :: post)) -> runs (put_working i x) (mkMem a (pre ++ o :: post)) P.
Proof.
  intros Hi HP. eexists (), _. split; [|exact HP]. unfold put_working. cbn [range working]. rewrite insert_mid by done.
  destruct (Nat.ltb_spec i (length (pre ++ o :: post))); [done|]. rewrite length_app in *. cbn in *. lia.
Qed.

Lemma snoc_app {A} (l1 : list A) a l2 : l1 ++ a :: l2 = (l1 ++ [a]) ++ l2.
Proof. by rewrite <- app_assoc. Qed.

Lemma runs_swap_down i j x y pre post w (P : unit -> Mem -> Prop) :
  j = length pre -> i = S (length pre) ->
  P () (mkMem (pre ++ Some x :: Some y :: post) w) -> runs (swap i j) (mkMem (pre ++ Some y :: Some x :: post) w) P.
Proof.
  intros Hj Hi HP. assert (i = length (pre ++ [Some y]) /\ i = length (pre ++ [None (A := V)]) /\ i = length (pre ++ [Some x])) as (H1 & H2 & H3) by (rewrite !length_app; cbn; lia).
  unfold swap. apply runs_bind. rewrite snoc_app. apply runs_move; [done|]. apply runs_bind. rewrite <- snoc_app. apply runs_move; [done|].
  apply runs_bind. rewrite snoc_app. apply runs_put; [done|]. rewrite <- snoc_app. by apply runs_put.
Qed.

Lemma runs_swap_up i j x y pre post w (P : unit -> Mem -> Prop) :
  i = length pre -> j = S (length pre) ->
  P () (mkMem (pre ++ Some x :: Some y :: post) w) -> runs (swap i j) (mkMem (pre ++ Some y :: Some x :: post) w) P.
Proof.
  intros Hi Hj HP. assert (j = length (pre ++ [None (A := V)]) /\ j = length (pre ++ [Some x])) as (H1 & H2) by (rewrite !length_app; cbn; lia).
  unfold swap. apply runs_bind. apply runs_move; [done|]. apply runs_bind. rewrite snoc_app. apply runs_move; [done|].
  apply runs_bind. rewrite <- snoc_app. apply runs_put; [done|]. rewrite snoc_app. apply runs_put; [done|]. by rewrite <- snoc_app.
Qed.

Lemma runs_next i m (P : nat -> Mem -> Prop) : (i < length (range m))%nat -> P (S i) m -> runs (next i) m P.
Proof. intros Hi HP. eexists _, _. split; [|exact HP]. unfold next. by destruct (Nat.ltb_spec i (length (range m))); [|lia]. Qed.

Lemma runs_prev i m (P : nat -> Mem -> Prop) : (0 < i)%nat -> P (i - 1) m -> runs (prev i) m P.
Proof. intros Hi HP. destruct i as [|i]; [lia|]. exists i, m. split; [done|]. by replace (S i - 1) with i in HP by lia. Qed.

Lemma runs_reverse i j pre (l : list V) post w (P : unit -> Mem -> Prop) :
  i = length pre -> j = (length pre + length l)%nat -> P () (mkMem (pre ++ (Some <$> reverse l) ++ post) w) ->
  runs (reverse_range i j) (mkMem (pre ++ (Some <$> l) ++ post) w) P.
Proof.
  intros -> -> HP. eexists (), _. split; [|exact HP]. unfold reverse_range. cbn [range working]. rewrite !length_app, length_fmap.
  destruct (Nat.leb_spec (length pre) (length pre + length l)); [|lia].
  destruct (Nat.leb_spec (length pre + length l) (length pre + (length l + length post))); [|lia]. cbn [andb].
  rewrite take_app_length, drop_app_length. replace (length pre + length l - length pre) with (length (Some <$> l)) by (rewrite length_fmap; lia).
  rewrite take_app_length. do 3 f_equal. rewrite fmap_reverse. do 2 f_equal.
  rewrite app_assoc. rewrite drop_app_length'; [done|]. by rewrite length_app, length_fmap.
Qed.

(** *** Merging *)

Lemma move_in_runs xs : forall pre post w1 o w2 i out (P : nat -> Mem -> Prop),
  i = length pre -> out = length w1 -> length o = length xs ->
  P (out + length xs)%nat (mkMem (pre ++ replicate (length xs) None ++ post) (w1 ++ (Some <$> xs) ++ w2)) ->
  runs (move_in (length xs) i out) (mkMem (pre ++ (Some <$> xs) ++ post) (w1 ++ o ++ w2)) P.
Proof.
  induction xs as [|x xs IH]; intros pre post w1 o w2 i out P Hi Hout Ho HP.
  - destruct o; [|done]. apply runs_ret. by rewrite Nat.add_0_r in HP.
  - destruct o as [|o0 o]; [done|]. cbn [move_in length fmap list_fmap app]. apply runs_bind. apply runs_move; [done|]. apply runs_bind. apply runs_put_working; [done|].
    rewrite (snoc_app pre), (snoc_app w1). apply IH; [rewrite length_app; cbn; lia..|by injection Ho|].
    rewrite <- !snoc_app. cbn [length] in HP. replace (S out + length xs)%nat with (out + S (length xs))%nat by lia. exact HP.
Qed.

Lemma move_out_runs xs : forall pre o post w1 w2 i out (P : nat -> Mem -> Prop),
  i = length w1 -> out = length pre -> length o = length xs ->
  P (out + length xs)%nat (mkMem (pre ++ (Some <$> xs) ++ post) (w1 ++ replicate (length xs) None ++ w2)) ->
  runs (move_out (length xs) i out) (mkMem (pre ++ o ++ post) (w1 ++ (Some <$> xs) ++ w2)) P.
Proof.
  induction xs as [|x xs IH]; intros pre o post w1 w2 i out P Hi Hout Ho HP.
  - destruct o; [|done]. apply runs_ret. by rewrite Nat.add_0_r in HP.
  - destruct o as [|o0 o]; [done|]. cbn [move_out length fmap list_fmap app]. apply runs_bind. apply runs_move_working; [done|]. apply runs_bind. apply runs_put; [done|].
    rewrite (snoc_app pre), (snoc_app w1). apply IH; [rewrite length_app; cbn; lia..|by injection Ho|].
    rewrite <- !snoc_app. cbn [length] in HP. replace (S out + length xs)%nat with (out + S (length xs))%nat by lia. exact HP.
Qed.

Section specs.
Context (comp : V -> V -> bool).

(** The merge of two lists. *)
Fixpoint merge (xs : list V) : list V -> list V :=
  fix merge_right ys :=
    match xs, ys with
    | [], _ => ys
    | _, [] => xs
    | x :: xs', y :: ys' => if comp y x then y :: merge_right ys' else x :: merge xs' ys
    end.

Lemma merge_nil_r xs : merge xs [] = xs.
Proof. by destruct xs. Qed.
Lemma merge_nil_l ys : merge [] ys = ys.
Proof. by destruct ys. Qed.

Lemma merge_cons x xs y ys : merge (x :: xs) (y :: ys) = if comp y x then y :: merge (x :: xs) ys else x :: merge xs (y :: ys).
Proof. done. Qed.

Lemma merge_perm xs ys : merge xs ys ≡ₚ xs ++ ys.
Proof.
  revert ys; induction xs as [|x xs IHx]; intros ys; [by rewrite merge_nil_l|].
  induction ys as [|y ys IHy]; [by rewrite merge_nil_r, app_nil_r|].
  rewrite merge_cons. destruct (comp y x); [rewrite IHy; by rewrite Permutation_middle|cbn; by rewrite IHx].
Qed.

(** What is left of one of the runs. *)
Lemma merge_rest_runs xs ys pre o post w1 mid w2 (P : unit -> Mem -> Prop) :
  length o = (length xs + length ys)%nat -> xs = [] \/ ys = [] ->
  (forall w', length w' = (length w1 + length xs + length mid + length ys + length w2)%nat -> P () (mkMem (pre ++ (Some <$> merge xs ys) ++ post) w')) ->
  runs (move_out (length xs) (length w1) (length pre);; move_out (length ys) (length w1 + length xs + length mid) (length pre);; mret ())
    (mkMem (pre ++ o ++ post) (w1 ++ (Some <$> xs) ++ mid ++ (Some <$> ys) ++ w2)) P.
Proof.
  intros Ho Hnil HP. destruct Hnil as [->| ->]; cbn [length fmap list_fmap app move_out] in *.
  - apply runs_bind, runs_ret, runs_bind. rewrite (app_assoc w1). apply (move_out_runs ys pre o post); [rewrite length_app; lia|done|lia|].
    apply runs_ret. rewrite merge_nil_l in HP. apply HP. rewrite !length_app, length_replicate. lia.
  - apply runs_bind. apply (move_out_runs xs pre o post); [done|done|lia|].
    apply runs_bind, runs_ret, runs_ret. rewrite merge_nil_r in HP. apply HP. rewrite !length_app, length_replicate. lia.
Qed.

Lemma merge_loop_rest fuel xs ys pre o post w1 mid w2 (P : unit -> Mem -> Prop) :
  xs = [] \/ ys = [] -> length o = (length xs + length ys)%nat ->
  (forall w', length w' = (length w1 + length xs + length mid + length ys + length w2)%nat -> P () (mkMem (pre ++ (Some <$> merge xs ys) ++ post) w')) ->
  runs (merge_loop comp fuel (length w1) (length w1 + length xs) (length w1 + length xs + length mid) (length w1 + length xs + length mid + length ys) (length pre))
    (mkMem (pre ++ o ++ post) (w1 ++ (Some <$> xs) ++ mid ++ (Some <$> ys) ++ w2)) P.
Proof.
  intros Hnil Ho HP. pose proof (merge_rest_runs xs ys pre o post w1 mid w2 P Ho Hnil HP) as Hr.
  assert (negb (length w1 =? length w1 + length xs)%nat && negb (length w1 + length xs + length mid =? length w1 + length xs + length mid + length ys)%nat = false) as Hc.
  { destruct Hnil as [->| ->]; cbn [length]; rewrite Nat.add_0_r, Nat.eqb_refl; [done|by rewrite andb_false_r]. }
  destruct fuel; cbn [merge_loop]; rewrite Hc;
    (replace (length w1 + length xs - length w1) with (length xs) by lia);
    (replace (length w1 + length xs + length mid + length ys - (length w1 + length xs + length mid)) with (length ys) by lia); exact Hr.
Qed.

Lemma merge_loop_runs fuel : forall xs ys pre o post w1 mid w2 (P : unit -> Mem -> Prop),
  (length xs + length ys <= fuel)%nat -> length o = (length xs + length ys)%nat ->
  (forall w', length w' = (length w1 + length xs + length mid + length ys + length w2)%nat -> P () (mkMem (pre ++ (Some <$> merge xs ys) ++ post) w')) ->
  runs (merge_loop comp fuel (length w1) (length w1 + length xs) (length w1 + length xs + length mid) (length w1 + length xs + length mid + length ys) (length pre))
    (mkMem (pre ++ o ++ post) (w1 ++ (Some <$> xs) ++ mid ++ (Some <$> ys) ++ w2)) P.
Proof.
  induction fuel as [|fuel IH]; intros xs ys pre o post w1 mid w2 P Hf Ho HP.
  { apply merge_loop_rest; [|done|done]. destruct xs; [by left|cbn in *; lia]. }
  destruct xs as [|x xs]; [apply merge_loop_rest; [by left|done|done]|]. destruct ys as [|y ys]; [apply merge_loop_rest; [by right|done|done]|].
  cbn [merge_loop]. rewrite (proj2 (Nat.eqb_neq (length w1) _)), (proj2 (Nat.eqb_neq (_ + length mid) _)) by (cbn [length]; lia). cbn [negb andb].
  destruct o as [|o0 o]; [cbn in Ho; lia|]. cbn [fmap list_fmap].
  apply runs_bind. rewrite (app_assoc w1), (app_assoc _ mid). apply runs_get_working; [by rewrite !length_app; cbn; rewrite length_fmap|].
  apply runs_bind. rewrite <- !(app_assoc _ mid), <- (app_assoc w1). cbn [app]. apply runs_get_working; [done|].
  rewrite merge_cons in HP. destruct (comp y x); cbn [negb]; apply runs_bind.
  - rewrite (app_comm_cons _ _ (Some x)), (app_assoc w1), (app_assoc _ mid). apply runs_move_working; [by rewrite !length_app; cbn; rewrite length_fmap|].
    apply runs_bind. cbn [app]. apply runs_put; [done|].
    pose proof (IH (x :: xs) ys (pre ++ [Some y]) o post w1 (mid ++ [None]) w2 P) as IH'. rewrite !length_app in IH'. cbn [length] in IH'.
    rewrite <- !snoc_app in IH'. rewrite <- !app_assoc. cbn [app fmap list_fmap length] in IH' |- *.
    replace (S (length pre)) with (length pre + 1)%nat by lia.
    replace (S (length w1 + S (length xs) + length mid)) with (length w1 + S (length xs) + (length mid + 1))%nat by lia.
    replace (length w1 + S (length xs) + length mid + S (length ys))%nat with (length w1 + S (length xs) + (length mid + 1) + length ys)%nat by lia.
    apply IH'; [cbn in *; lia..|]. intros w' Hw'. apply HP. cbn in *. lia.
  - apply runs_move_working; [done|]. apply runs_bind. cbn [app]. apply runs_put; [done|].
    pose proof (IH xs (y :: ys) (pre ++ [Some x]) o post (w1 ++ [None]) mid w2 P) as IH'. rewrite !length_app in IH'. cbn [length] in IH'.
    rewrite <- !snoc_app in IH'. cbn [app fmap list_fmap length] in IH' |- *.
    replace (S (length pre)) with (length pre + 1)%nat by lia.
    replace (length w1 + S (length xs))%nat with (length w1 + 1 + length xs)%nat by lia.
    replace (S (length w1)) with (length w1 + 1)%nat by lia.
    apply IH'; [cbn in *; lia..|]. intros w' Hw'. apply HP. cbn in *. lia.
Qed.

Lemma merge_runs xs ys pre post w b middle e (P : unit -> Mem -> Prop) :
  b = length pre -> middle = (b + length xs)%nat -> e = (middle + length ys)%nat -> (e - b <= length w)%nat ->
  (forall w', length w' = length w -> P () (mkMem (pre ++ (Some <$> merge xs ys) ++ post) w')) ->
  runs (mergeSortedRunsInPlace comp b middle e) (mkMem (pre ++ (Some <$> xs ++ ys) ++ post) w) P.
Proof.
  intros -> -> -> Hw HP. unfold mergeSortedRunsInPlace. rewrite fmap_app, <- app_assoc.
  rewrite <- (take_drop (length xs) w) at 1. rewrite <- (take_drop (length ys) (drop (length xs) w)). set (w2 := drop (length ys) _).
  set (o1 := take (length xs) w). set (o2 := take (length ys) _).
  assert (length o1 = length xs) as H1 by (subst o1; rewrite length_take; lia).
  assert (length o2 = length ys) as H2 by (subst o2; rewrite length_take, length_drop; lia).
  assert (length w2 = length w - (length xs + length ys)) as Hl2 by (subst w2; rewrite !length_drop; lia). clearbody o1 o2 w2.
  replace (length pre + length xs - length pre) with (length xs) by lia.
  replace (length pre + length xs + length ys - (length pre + length xs)) with (length ys) by lia.
  replace (length pre + length xs + length ys - length pre) with (length xs + length ys)%nat by lia.
  apply runs_bind. apply (move_in_runs xs pre _ [] o1); [done|done|done|]. apply runs_bind. cbn [app]. rewrite (app_assoc pre).
  apply (move_in_runs ys _ _ (Some <$> xs) o2); [by rewrite length_app, length_replicate|by rewrite length_fmap|done|].
  rewrite <- (app_assoc pre), (app_assoc (replicate _ _)).
  pose proof (merge_loop_runs (length xs + length ys) xs ys pre (replicate (length xs) None ++ replicate (length ys) None) post [] [] w2 P) as Hm.
  cbn [length app] in Hm. rewrite Nat.add_0_r in Hm. apply Hm; [lia|by rewrite length_app, !length_replicate|].
  intros w' Hw'. apply HP. lia.
Qed.

(** *** Insertion sort *)

(** Inserting into a sorted list that is held in reverse. *)
Fixpoint ins (x : V) (rl : list V) : list V :=
  match rl with
  | [] => [x]
  | y :: rl' => if comp x y then y :: ins x rl' else x :: y :: rl'
  end.
Definition isort (l : list V) : list V := reverse (fold_left (fun rl x => ins x rl) l []).

Lemma insert_at_runs x rl : forall pre post w b (P : unit -> Mem -> Prop),
  b = length pre -> P () (mkMem (pre ++ (Some <$> reverse (ins x rl)) ++ post) w) ->
  runs (insert_at comp (length rl) b) (mkMem (pre ++ (Some <$> reverse rl) ++ Some x :: post) w) P.
Proof.
  induction rl as [|y rl IH]; intros pre post w b P -> HP; [by apply runs_ret|]. cbn [insert_at length].
  rewrite reverse_cons, fmap_app, <- app_assoc. cbn [fmap list_fmap app]. set (r := Some <$> reverse rl).
  assert (length r = length rl) as Hr by (subst r; by rewrite length_fmap, length_reverse).
  apply runs_bind. rewrite (app_assoc pre), (snoc_app _ (Some y)). apply runs_get; [rewrite !length_app; cbn; lia|].
  apply runs_bind. rewrite <- snoc_app. apply runs_get; [rewrite !length_app; lia|]. cbn [ins] in HP. destruct (comp x y).
  - apply runs_bind. apply runs_swap_down; [rewrite length_app; lia..|]. rewrite <- app_assoc. apply IH; [done|].
    by rewrite reverse_cons, fmap_app, <- app_assoc in HP.
  - apply runs_ret. rewrite <- app_assoc. rewrite !reverse_cons, !fmap_app in HP. fold r in HP. rewrite <- !(app_assoc r) in HP. rewrite <- ?app_assoc in HP. exact HP.
Qed.

Lemma length_ins x rl : length (ins x rl) = S (length rl).
Proof. induction rl as [|y rl IH]; [done|]. cbn. destruct (comp x y); cbn; by rewrite ?IH. Qed.

Lemma insert_from_runs l : forall rl pre post w b current (P : unit -> Mem -> Prop),
  b = length pre -> current = (b + length rl)%nat ->
  P () (mkMem (pre ++ (Some <$> reverse (fold_left (fun rl x => ins x rl) l rl)) ++ post) w) ->
  runs (insert_from comp (length l) current b) (mkMem (pre ++ (Some <$> reverse rl) ++ (Some <$> l) ++ post) w) P.
Proof.
  induction l as [|x l IH]; intros rl pre post w b current P Hb -> HP; [by apply runs_ret|]. cbn [insert_from length fmap list_fmap app].
  apply runs_bind. replace (b + length rl - b) with (length rl) by lia. apply insert_at_runs; [done|].
  apply IH; [done|rewrite length_ins; lia|exact HP].
Qed.

Lemma insertionsort_runs l pre post w b e (P : unit -> Mem -> Prop) :
  b = length pre -> e = (b + length l)%nat -> P () (mkMem (pre ++ (Some <$> isort l) ++ post) w) ->
  runs (insertionsort comp b e) (mkMem (pre ++ (Some <$> l) ++ post) w) P.
Proof.
  intros Hb -> HP. unfold insertionsort. destruct l as [|x l].
  - rewrite Nat.add_0_r, Nat.eqb_refl. by apply runs_ret.
  - rewrite (proj2 (Nat.eqb_neq b _)) by (cbn; lia). replace (b + length (x :: l) - S b) with (length l) by (cbn; lia).
    apply (insert_from_runs l [x]); [done|cbn; lia|exact HP].
Qed.

Lemma ins_perm x rl : ins x rl ≡ₚ x :: rl.
Proof. induction rl as [|y rl IH]; [done|]. cbn. destruct (comp x y); [|done]. rewrite IH. apply Permutation_swap. Qed.

Lemma isort_perm l : isort l ≡ₚ l.
Proof.
  unfold isort. rewrite reverse_Permutation.
  enough (forall rl, fold_left (fun rl x => ins x rl) l rl ≡ₚ rl ++ l) as Hf by (by rewrite Hf).
  induction l as [|x l IH]; intros rl; cbn; [by rewrite app_nil_r|]. by rewrite IH, ins_perm, <- Permutation_middle.
Qed.

(** *** Runs *)

(** Each pair of neighbours is in [c], the later one first. *)
Definition run_of (c : V -> V -> bool) : list V -> Prop := Sorted (fun x y => c y x = true).

Lemma grow_prefix_runs c l : forall x pre w b (P : nat -> Mem -> Prop) post,
  b = length pre ->
  (forall l1 l2, l = l1 ++ l2 -> run_of c (x :: l1) -> (forall y l', l = y :: l' -> c y x = true -> l1 <> []) ->
     P (S b + length l1)%nat (mkMem (pre ++ (Some <$> x :: l) ++ post) w)) ->
  runs (grow_prefix c (length l) b) (mkMem (pre ++ (Some <$> x :: l) ++ post) w) P.
Proof.
  induction l as [|y l IH]; intros x pre w b P post -> HP; cbn [grow_prefix length].
  - apply runs_ret. specialize (HP [] [] eq_refl). rewrite Nat.add_0_r in HP. apply HP; [by repeat constructor|done].
  - cbn [fmap list_fmap app]. apply runs_bind. rewrite (snoc_app pre). apply runs_get; [rewrite length_app; cbn; lia|].
    apply runs_bind. rewrite <- snoc_app. apply runs_get; [done|]. destruct (c y x) eqn:Hc.
    + rewrite (snoc_app pre). apply IH; [rewrite length_app; cbn; lia|]. intros l1 l2 -> Hr _. rewrite <- snoc_app.
      specialize (HP (y :: l1) l2 eq_refl). cbn [length] in HP. replace (S (length pre) + S (length l1))%nat with (S (S (length pre)) + length l1)%nat in HP by lia.
      apply HP; [|done]. constructor; [done|by constructor].
    + apply runs_ret. specialize (HP [] (y :: l) eq_refl). rewrite Nat.add_0_r in HP. apply HP; [by repeat constructor|].
      intros y' l' [= <- <-]. congruence.
Qed.

Lemma run_snoc c l y x : run_of c (l ++ [y]) -> c x y = true -> run_of c (l ++ [y; x]).
Proof.
  intros Hr Hc. induction l as [|z l IH]; cbn in *; [by repeat constructor|].
  apply Sorted_inv in Hr as [Hr Hh]. constructor; [by apply IH|]. destruct l; cbn in *; (apply HdRel_inv in Hh; by constructor).
Qed.

Lemma run_join c l1 x l2 : run_of c (l1 ++ [x]) -> run_of c (x :: l2) -> run_of c (l1 ++ x :: l2).
Proof.
  intros H1 H2. induction l1 as [|z l1 IH]; cbn in *; [done|]. apply Sorted_inv in H1 as [Hr Hh]. constructor; [by apply IH|].
  destruct l1; cbn in *; (apply HdRel_inv in Hh; by constructor).
Qed.

Lemma grow_suffix_runs c l : forall x pre post w e (P : nat -> Mem -> Prop),
  e = S (length pre + length l) ->
  (forall l1 l2, l = l1 ++ l2 -> run_of c (l2 ++ [x]) -> P (length pre + length l1)%nat (mkMem (pre ++ (Some <$> l ++ [x]) ++ post) w)) ->
  runs (grow_suffix c (length l) e) (mkMem (pre ++ (Some <$> l ++ [x]) ++ post) w) P.
Proof.
  induction l as [|y l IH] using rev_ind; intros x pre post w e P -> HP; [|rewrite length_app; cbn [length]; rewrite Nat.add_1_r]; cbn [grow_suffix length];
    apply runs_bind, runs_ret.
  - apply runs_ret. apply (HP [] []); [done|by repeat constructor].
  - rewrite Nat.add_succ_r. apply runs_bind, runs_ret. apply runs_bind.
    assert (pre ++ (Some <$> (l ++ [y]) ++ [x]) ++ post = (pre ++ (Some <$> l)) ++ Some y :: Some x :: post) as Heq by (rewrite !fmap_app, <- !app_assoc; done).
    rewrite Heq, snoc_app. apply runs_get; [rewrite !length_app, length_fmap; cbn; lia|]. apply runs_bind. rewrite <- snoc_app.
    apply runs_get; [by rewrite length_app, length_fmap|]. rewrite <- Heq. destruct (c x y) eqn:Hc.
    + rewrite fmap_app, <- (app_assoc _ (Some <$> [x])). apply IH; [done|]. intros l1 l2 -> Hr. rewrite (app_assoc _ (Some <$> [x])), <- fmap_app.
      apply (HP l1 (l2 ++ [y])); [by rewrite app_assoc|]. rewrite <- app_assoc. by apply run_snoc.
    + apply runs_ret. replace (S (length pre + length l)) with (length pre + length (l ++ [y]))%nat by (rewrite length_app; cbn; lia).
      apply (HP (l ++ [y]) []); [by rewrite app_nil_r|by repeat constructor].
Qed.

(** ** Order *)

(** A strict weak order, the comparators sorting is meant for. *)
Record strict_weak_order : Prop := {
  irreflexive x : comp x x = false;
  transitive x y z : comp x y = true -> comp y z = true -> comp x z = true;
  equivalence_transitive x y z :
    comp x y = false -> comp y x = false -> comp y z = false -> comp z y = false -> comp x z = false /\ comp z x = false;
}.

Definition equivalent x y : bool := negb (comp x y) && negb (comp y x).
Definition sorted : list V -> Prop := StronglySorted (fun x y => comp y x = false).
Definition class z (l : list V) : list V := List.filter (equivalent z) l.
(** The same elements, and those that are equivalent in the same order. *)
Definition same (l l' : list V) : Prop := l ≡ₚ l' /\ (strict_weak_order -> forall z, class z l = class z l').

#[export] Instance same_equivalence : Equivalence same.
Proof.
  split; [by intros l|intros l l' [? H]; split; [done|by intros ? z; rewrite H]|].
  intros l1 l2 l3 [H1 H2] [H3 H4]. split; [by etrans|]. intros Hc z. by rewrite H2, H4.
Qed.

Lemma class_app z l l' : class z (l ++ l') = class z l ++ class z l'.
Proof. apply List.filter_app. Qed.

#[export] Instance same_app : Proper (same ==> same ==> same) (app (A := V)).
Proof. intros l1 l1' [H1 H2] l2 l2' [H3 H4]. split; [by rewrite H1, H3|]. intros Hc z. by rewrite !class_app, H2, H4. Qed.

Lemma same_length l l' : same l l' -> length l = length l'.
Proof. intros [Hp _]. by apply Permutation_length. Qed.

Section order.
#[local] Set Default Proof Using "All".
Context (Hc : strict_weak_order).

Lemma comp_asym x y : comp x y = true -> comp y x = false.
Proof. intros H1. destruct (comp y x) eqn:H2; [|done]. pose proof (transitive Hc x y x H1 H2) as H3. by rewrite (irreflexive Hc) in H3. Qed.

(** Not greater is transitive. *)
Lemma le_trans x y z : comp y x = false -> comp z y = false -> comp z x = false.
Proof.
  intros H1 H2. destruct (comp z x) eqn:H3; [|done]. destruct (comp x y) eqn:H4; [pose proof (transitive Hc z x y H3 H4); congruence|].
  destruct (comp y z) eqn:H5; [pose proof (transitive Hc y z x H5 H3); congruence|].
  destruct (equivalence_transitive Hc x y z H4 H1 H5 H2). congruence.
Qed.

Lemma class_nil z l : Forall (fun y => equivalent z y = false) l -> class z l = [].
Proof. induction 1 as [|y l Hy _ IH]; [done|]. cbn. by rewrite Hy. Qed.

(** Nothing of a list above [x] is in the class of something below or next to [x]. *)
Lemma class_above z x l : equivalent z x = true -> Forall (fun y => comp x y = true) l -> class z l = [].
Proof.
  intros [H1%negb_true_iff H2%negb_true_iff]%andb_true_iff Hl. apply class_nil. eapply Forall_impl; [exact Hl|]. cbn. intros y Hy. unfold equivalent.
  destruct (comp z y) eqn:H3; [done|]. pose proof (le_trans x z y). destruct (comp y z) eqn:H4; [done|]. 
  destruct (equivalence_transitive Hc x z y H2 H1 H3 H4). congruence.
Qed.

Lemma lt_sorted x y l : comp y x = true -> sorted (x :: l) -> Forall (fun z => comp y z = true) (x :: l).
Proof.
  intros Hy [Hs Hl]%StronglySorted_inv. constructor; [done|]. eapply Forall_impl; [exact Hl|]. cbn. intros z Hz.
  destruct (comp y z) eqn:H1; [done|]. pose proof (le_trans x z y Hz H1). congruence.
Qed.

Lemma merge_class z xs ys : sorted xs -> class z (merge xs ys) = class z xs ++ class z ys.
Proof.
  revert ys; induction xs as [|x xs IHx]; intros ys Hs; [by rewrite merge_nil_l|].
  induction ys as [|y ys IHy]; [by rewrite merge_nil_r, app_nil_r|]. rewrite merge_cons. destruct (comp y x) eqn:Hyx.
  - cbn [class List.filter]. fold (class z). destruct (equivalent z y) eqn:Hz; [|exact IHy].
    change (y :: class z (merge (x :: xs) ys) = class z (x :: xs) ++ y :: class z ys). rewrite IHy.
    by rewrite (class_above z y _ Hz (lt_sorted x y xs Hyx Hs)).
  - apply StronglySorted_inv in Hs as [Hs _]. unfold class in *. cbn [List.filter]. rewrite IHx by done. by destruct (equivalent z x).
Qed.

Lemma merge_sorted xs ys : sorted xs -> sorted ys -> sorted (merge xs ys).
Proof.
  revert ys; induction xs as [|x xs IHx]; intros ys Hx Hy; [by rewrite merge_nil_l|].
  induction ys as [|y ys IHy]; [by rewrite merge_nil_r|]. rewrite merge_cons. 
  pose proof Hx as [Hx' Hlx]%StronglySorted_inv. pose proof Hy as [Hy' Hly]%StronglySorted_inv. destruct (comp y x) eqn:Hyx.
  - constructor; [by apply IHy|]. rewrite merge_perm. apply Forall_app. split; [|done].
    eapply Forall_impl; [exact (lt_sorted x y xs Hyx Hx)|]. cbn. intros. by apply comp_asym.
  - constructor; [by apply IHx|]. rewrite merge_perm. apply Forall_app. split; [done|]. constructor; [done|].
    eapply Forall_impl; [exact Hly|]. cbn. intros u Hu. by apply (le_trans x y u).
Qed.

Lemma merge_same xs ys : sorted xs -> sorted ys -> same (xs ++ ys) (merge xs ys) /\ sorted (merge xs ys).
Proof.
  intros Hx Hy. split; [|by apply merge_sorted]. split; [by rewrite merge_perm|]. intros _ z. by rewrite class_app, merge_class.
Qed.

Lemma class_below z x l : equivalent z x = true -> Forall (fun y => comp y x = true) l -> class z l = [].
Proof.
  intros [H1%negb_true_iff H2%negb_true_iff]%andb_true_iff Hl. apply class_nil. eapply Forall_impl; [exact Hl|]. cbn. intros y Hy. unfold equivalent.
  destruct (comp z y) eqn:H3; [done|]. destruct (comp y z) eqn:H4; [done|].
  destruct (equivalence_transitive Hc x z y H2 H1 H3 H4). congruence.
Qed.

Lemma class_reverse z l : class z (reverse l) = reverse (class z l).
Proof. induction l as [|x l IH]; [done|]. rewrite reverse_cons, class_app, IH. unfold class. cbn [List.filter]. destruct (equivalent z x); [by rewrite reverse_cons|by rewrite app_nil_r]. Qed.

Lemma ssorted_app (R : V -> V -> Prop) l1 l2 :
  StronglySorted R l1 -> StronglySorted R l2 -> (forall x, x ∈ l1 -> Forall (R x) l2) -> StronglySorted R (l1 ++ l2).
Proof.
  intros H1 H2 Hx. induction H1 as [|x l1 H1 IH Hl]; [done|]. constructor; [apply IH; intros y Hy; apply Hx; by right|].
  apply Forall_app. split; [done|apply Hx; by left].
Qed.

Lemma ssorted_reverse (R : V -> V -> Prop) l : StronglySorted R l -> StronglySorted (fun x y => R y x) (reverse l).
Proof.
  induction 1 as [|x l Hl IH Hx]; [constructor|]. rewrite reverse_cons. apply ssorted_app; [done|by repeat constructor|].
  intros y Hy. rewrite Forall_forall in Hx. apply Forall_singleton, Hx. by rewrite elem_of_reverse in Hy.
Qed.

Lemma ins_sorted x rl :
  StronglySorted (fun x y => comp x y = false) rl -> StronglySorted (fun x y => comp x y = false) (ins x rl) /\ forall z, class z (ins x rl) = class z [x] ++ class z rl.
Proof.
  induction 1 as [|y rl Hrl [IH IHc] Hy]; [split; [by repeat constructor|intros z; by rewrite app_nil_r]|]. cbn [ins]. destruct (comp x y) eqn:Hxy.
  - split.
    + constructor; [done|]. rewrite ins_perm. constructor; [by apply comp_asym|done].
    + intros z. change (y :: ins x rl) with ([y] ++ ins x rl). rewrite class_app, IHc. change (y :: rl) with ([y] ++ rl). rewrite class_app, !app_assoc. f_equal.
      destruct (equivalent z x) eqn:Hz; [|cbn; rewrite Hz; by rewrite app_nil_r]. rewrite (class_above z x [y] Hz) by (by repeat constructor). by rewrite app_nil_r.
  - split; [|intros z; change (x :: y :: rl) with ([x] ++ y :: rl); by rewrite class_app]. constructor; [by constructor|]. constructor; [done|].
    eapply Forall_impl; [exact Hy|]. cbn. intros u Hu. by apply (le_trans u y x).
Qed.

Lemma isort_same l : same l (isort l) /\ sorted (isort l).
Proof.
  assert (forall rl, StronglySorted (fun x y => comp x y = false) rl ->
    StronglySorted (fun x y => comp x y = false) (fold_left (fun rl x => ins x rl) l rl) /\
    forall z, class z (reverse (fold_left (fun rl x => ins x rl) l rl)) = class z (reverse rl) ++ class z l) as Hf.
  { induction l as [|x l IH]; intros rl Hrl; cbn [fold_left]; [split; [done|intros z; by rewrite app_nil_r]|].
    destruct (ins_sorted x rl Hrl) as [Hs Hi]. destruct (IH _ Hs) as [IH1 IH2]. split; [done|]. intros z. rewrite IH2.
    change (x :: l) with ([x] ++ l). rewrite class_app, app_assoc. f_equal. rewrite !class_reverse, Hi. rewrite reverse_app. f_equal. cbn. by destruct (equivalent z x). }
  destruct (Hf [] ltac:(constructor)) as [H1 H2]. split; [split; [by rewrite isort_perm|by intros _ z; unfold isort; rewrite H2]|]. by apply ssorted_reverse.
Qed.

Lemma weak_run_sorted l : run_of (not_fn comp) l -> sorted l.
Proof.
  intros Hr. apply Sorted_StronglySorted; [intros x y z; by apply le_trans|].
  induction Hr as [|x l Hr IH Hh]; constructor; [done|]. destruct Hh as [|y l Hy]; constructor. by apply negb_true_iff.
Qed.

Lemma strict_run_same l : run_of comp l -> same l (reverse l) /\ sorted (reverse l).
Proof.
  intros Hr. apply Sorted_StronglySorted in Hr; [|intros x y z H1 H2; by apply (transitive Hc z y x)]. split.
  - split; [by rewrite reverse_Permutation|]. intros _ z. induction Hr as [|x l Hr IH Hx]; [done|]. rewrite reverse_cons, class_app, <- IH.
    change (x :: l) with ([x] ++ l). rewrite class_app. destruct (equivalent z x) eqn:Hz; [|cbn; rewrite Hz; by rewrite app_nil_r].
    by rewrite (class_below z x l Hz Hx), app_nil_r.
  - apply ssorted_reverse in Hr. revert Hr. generalize (reverse l). clear l. intros l Hr. induction Hr as [|x l Hr IH Hx]; constructor; [done|].
    eapply Forall_impl; [exact Hx|]. cbn. intros y. apply comp_asym.
Qed.
End order.

(** ** [peeksort] *)

Definition sorted_if (l : list V) : Prop := strict_weak_order -> sorted l.

Lemma merged xs ys xs' ys' :
  same xs xs' -> same ys ys' -> sorted_if xs' -> sorted_if ys' -> same (xs ++ ys) (merge xs' ys') /\ sorted_if (merge xs' ys').
Proof.
  intros Hx Hy Hsx Hsy. split; [|by intros Hc; apply merge_sorted; auto]. rewrite Hx, Hy. split; [by rewrite merge_perm|].
  intros Hc z. by rewrite class_app, merge_class by auto.
Qed.

(** What a call is to do with the part [l] of the range. *)
Definition sorts (c : nat -> nat -> nat -> nat -> M ()) (l : list V) : Prop := forall pre post w b e lre rrb p q (P : unit -> Mem -> Prop),
  b = length pre -> e = (b + length l)%nat -> lre = (b + p)%nat -> rrb = (b + q)%nat ->
  (length l <= length w)%nat -> (p <= length l)%nat -> (q <= length l)%nat -> (p <= q)%nat \/ p = length l \/ q = 0 ->
  sorted_if (take p l) -> sorted_if (drop q l) ->
  (forall l' w', same l l' -> sorted_if l' -> length w' = length w -> P () (mkMem (pre ++ (Some <$> l') ++ post) w')) ->
  runs (c b e lre rrb) (mkMem (pre ++ (Some <$> l) ++ post) w) P.

Lemma mem_split pre (l1 l2 : list V) post w : mkMem (pre ++ (Some <$> l1 ++ l2) ++ post) w = mkMem ((pre ++ (Some <$> l1)) ++ (Some <$> l2) ++ post) w.
Proof. by rewrite fmap_app, <- !app_assoc. Qed.
Lemma mem_split_l pre (l1 l2 : list V) post w : mkMem (pre ++ (Some <$> l1 ++ l2) ++ post) w = mkMem (pre ++ (Some <$> l1) ++ (Some <$> l2) ++ post) w.
Proof. by rewrite fmap_app, <- !app_assoc. Qed.

Section parts.
Context (c : nat -> nat -> nat -> nat -> M ()) (xs ys : list V) (pre post w : list (option V)) (P : unit -> Mem -> Prop).
Context (Hw : (length (xs ++ ys) <= length w)%nat).
Context (HP : forall l' w', same (xs ++ ys) l' -> sorted_if l' -> length w' = length w -> P () (mkMem (pre ++ (Some <$> l') ++ post) w')).

Lemma sort_right b m e lre rrb p q :
  sorts c ys -> sorted_if xs -> b = length pre -> m = (b + length xs)%nat -> e = (m + length ys)%nat ->
  lre = (m + p)%nat -> rrb = (m + q)%nat ->
  (p <= length ys)%nat -> (q <= length ys)%nat -> (p <= q)%nat \/ p = length ys \/ q = 0 ->
  sorted_if (take p ys) -> sorted_if (drop q ys) ->
  runs (c m e lre rrb;; mergeSortedRunsInPlace comp b m e) (mkMem (pre ++ (Some <$> xs ++ ys) ++ post) w) P.
Proof using Hw HP.
  intros Hs Hx -> -> -> -> -> Hp Hq Hpq Hsp Hsq. rewrite length_app in Hw. apply runs_bind. rewrite mem_split.
  eapply (Hs _ _ _ _ _ _ _ p q); [by rewrite length_app, length_fmap|done..|lia|done|done|done|done|done|].
  intros ys' w' Hy Hsy Hlw. pose proof (same_length _ _ Hy). rewrite <- mem_split. apply merge_runs; [done|lia|lia|lia|].
  intros w'' Hlw'. destruct (merged xs ys xs ys' ltac:(done) Hy Hx Hsy). apply HP; [done|done|lia].
Qed.

Lemma sort_left b m e lre rrb p q :
  sorts c xs -> sorted_if ys -> b = length pre -> m = (b + length xs)%nat -> e = (m + length ys)%nat ->
  lre = (b + p)%nat -> rrb = (b + q)%nat ->
  (p <= length xs)%nat -> (q <= length xs)%nat -> (p <= q)%nat \/ p = length xs \/ q = 0 ->
  sorted_if (take p xs) -> sorted_if (drop q xs) ->
  runs (c b m lre rrb;; mergeSortedRunsInPlace comp b m e) (mkMem (pre ++ (Some <$> xs ++ ys) ++ post) w) P.
Proof using Hw HP.
  intros Hs Hy -> -> -> -> -> Hp Hq Hpq Hsp Hsq. rewrite length_app in Hw. apply runs_bind. rewrite mem_split_l.
  eapply (Hs _ _ _ _ _ _ _ p q); [done..|lia|done|done|done|done|done|].
  intros xs' w' Hx Hsx Hlw. pose proof (same_length _ _ Hx). rewrite <- mem_split_l. apply merge_runs; [done|lia|lia|lia|].
  intros w'' Hlw'. destruct (merged xs ys xs' ys Hx ltac:(done) Hsx Hy). apply HP; [done|done|lia].
Qed.
End parts.

Lemma sort_both c xs ys pre post w (P : unit -> Mem -> Prop) b m e lre1 rrb1 p1 q1 lre2 rrb2 p2 q2 :
  sorts c xs -> sorts c ys -> (length (xs ++ ys) <= length w)%nat -> b = length pre -> m = (b + length xs)%nat -> e = (m + length ys)%nat ->
  lre1 = (b + p1)%nat -> rrb1 = (b + q1)%nat -> lre2 = (m + p2)%nat -> rrb2 = (m + q2)%nat ->
  (p1 <= length xs)%nat -> (q1 <= length xs)%nat -> (p1 <= q1)%nat \/ p1 = length xs \/ q1 = 0 ->
  (p2 <= length ys)%nat -> (q2 <= length ys)%nat -> (p2 <= q2)%nat \/ p2 = length ys \/ q2 = 0 ->
  sorted_if (take p1 xs) -> sorted_if (drop q1 xs) -> sorted_if (take p2 ys) -> sorted_if (drop q2 ys) ->
  (forall l' w', same (xs ++ ys) l' -> sorted_if l' -> length w' = length w -> P () (mkMem (pre ++ (Some <$> l') ++ post) w')) ->
  runs (c b m lre1 rrb1;; c m e lre2 rrb2;; mergeSortedRunsInPlace comp b m e) (mkMem (pre ++ (Some <$> xs ++ ys) ++ post) w) P.
Proof.
  intros Hsx Hsy Hw -> -> -> -> -> -> -> Hp1 Hq1 Hpq1 Hp2 Hq2 Hpq2 Hs1 Hs2 Hs3 Hs4 HP. pose proof Hw as Hw'. rewrite length_app in Hw'.
  apply runs_bind. rewrite mem_split_l. eapply (Hsx _ _ _ _ _ _ _ p1 q1); [done..|lia|done|done|done|done|done|].
  intros xs' w' Hx Hsx' Hlw. pose proof (same_length _ _ Hx) as Hlx. rewrite <- mem_split_l.
  apply (sort_right c xs' ys pre post w' P) with (p := p2) (q := q2); try done; [rewrite length_app; lia| |lia].
  intros l' w'' Hl' Hsl Hlw''. apply HP; [by rewrite Hx|done|lia].
Qed.

Lemma run_sorted_weak l : run_of (not_fn comp) l -> sorted_if l.
Proof. intros Hr Hc. by apply weak_run_sorted. Qed.

Lemma single_sorted x : sorted_if [x].
Proof. intros _. by repeat constructor. Qed.

Lemma short_sorted l : (length l <= 1)%nat -> sorted_if l.
Proof. intros Hl _. destruct l as [|x [|]]; [constructor|by repeat constructor|cbn in Hl; lia]. Qed.

(** The run of [c] around two neighbours. *)
Lemma around_runs c x y ls rs pre post w lre middle rrb (P : nat -> Mem -> Prop) (k : nat -> nat -> M (nat * nat)) (Q : nat * nat -> Mem -> Prop) :
  c y x = true -> lre = length pre -> middle = (lre + S (length ls))%nat -> rrb = (middle + S (length rs))%nat ->
  (forall l1 d r2, ls ++ x :: y :: rs = l1 ++ d ++ r2 -> run_of c d -> (length l1 <= length ls)%nat -> (length r2 <= length rs)%nat ->
     runs (k (lre + length l1)%nat (lre + length l1 + length d)%nat) (mkMem (pre ++ (Some <$> ls ++ x :: y :: rs) ++ post) w) Q) ->
  runs (i ← strictlyDecreasingSuffix c lre middle; j ← strictlyDecreasingPrefix c (middle - 1) rrb; k i j) (mkMem (pre ++ (Some <$> ls ++ x :: y :: rs) ++ post) w) Q.
Proof.
  intros Hc -> -> -> HQ. apply runs_bind. unfold strictlyDecreasingSuffix. rewrite (proj2 (Nat.eqb_neq _ _)) by lia.
  rewrite (snoc_app ls) at 1. rewrite mem_split_l. replace (length pre + S (length ls) - S (length pre)) with (length ls) by lia.
  apply grow_suffix_runs; [lia|]. intros l1 l2 -> Hr1. rewrite <- mem_split_l, <- snoc_app. apply runs_bind.
  unfold strictlyDecreasingPrefix. rewrite (proj2 (Nat.eqb_neq _ _)) by lia. rewrite mem_split.
  replace (length pre + S (length (l1 ++ l2)) + S (length rs) - S (length pre + S (length (l1 ++ l2)) - 1)) with (length (y :: rs)) by (cbn; lia).
  apply grow_prefix_runs; [rewrite (length_app pre), length_fmap; lia|]. intros r1 r2 Hrs Hr2 Hne. rewrite <- mem_split.
  destruct r1 as [|y' r1]; [by destruct (Hne y rs eq_refl Hc)|]. injection Hrs as <- ->.
  replace (S (length pre + S (length (l1 ++ l2)) - 1) + length (y :: r1))%nat with (length pre + length l1 + length (l2 ++ x :: y :: r1))%nat by (rewrite !length_app; cbn; lia).
  apply (HQ l1 (l2 ++ x :: y :: r1) r2); [by rewrite <- !app_assoc|by apply run_join|rewrite length_app; lia..].
Qed.

Lemma find_run_runs x y ls rs pre post w before lre middle rrb (Q : nat * nat -> Mem -> Prop) :
  lre = length pre -> middle = (lre + S (length ls))%nat -> before = middle - 1 -> rrb = (middle + S (length rs))%nat ->
  (forall l1 d r2, same (ls ++ x :: y :: rs) (l1 ++ d ++ r2) -> sorted_if d -> (length l1 <= length ls)%nat -> (length r2 <= length rs)%nat ->
     Q ((lre + length l1)%nat, (lre + length l1 + length d)%nat) (mkMem (pre ++ (Some <$> l1 ++ d ++ r2) ++ post) w)) ->
  runs (find_run comp y x before lre middle rrb) (mkMem (pre ++ (Some <$> ls ++ x :: y :: rs) ++ post) w) Q.
Proof.
  intros -> -> -> -> HQ. unfold find_run. destruct (comp y x) eqn:Hc; cbn [negb].
  - apply (around_runs comp x y ls rs) with (P := fun _ _ => True); [done..|]. intros l1 d r2 Heq Hr Hl1 Hr2. rewrite Heq. apply runs_bind.
    rewrite mem_split, mem_split_l. apply runs_reverse; [by rewrite length_app, length_fmap|by rewrite length_app, length_fmap|].
    apply runs_ret. rewrite <- mem_split_l, <- mem_split. rewrite <- (length_reverse d). apply HQ; [|intros Hc'; by apply strict_run_same|done|done].
    rewrite Heq. split; [by rewrite reverse_Permutation|]. intros Hc' z. rewrite !class_app. do 2 f_equal. by apply (strict_run_same Hc' d Hr).
  - apply (around_runs (not_fn comp) x y ls rs) with (P := fun _ _ => True); [unfold not_fn; by rewrite Hc|done..|]. intros l1 d r2 Heq Hr Hl1 Hr2. rewrite Heq. apply runs_ret.
    apply HQ; [by rewrite Heq|by apply run_sorted_weak|done|done].
Qed.

(** The three calls of [peeksortImpl]. *)
Section impl.
Context (fuel : nat) (IH : forall l, (length l < fuel)%nat -> sorts (peeksortImpl comp fuel) l).
Context (l : list V) (pre post w : list (option V)) (p q : nat) (P : unit -> Mem -> Prop).
Context (Hlen : (length l < S fuel)%nat) (Hw : (length l <= length w)%nat).
Context (Hp : (p <= length l)%nat) (Hq : (q <= length l)%nat) (Hpq : (p <= q)%nat) (Hsp : sorted_if (take p l)) (Hsq : sorted_if (drop q l)).
Context (HP : forall l' w', same l l' -> sorted_if l' -> length w' = length w -> P () (mkMem (pre ++ (Some <$> l') ++ post) w')).
Notation b := (length pre).
Notation e := (length pre + length l)%nat.

Lemma impl_left_run : (0 < p < length l)%nat -> 
  runs (leftRunEnd' ← next (b + p)%nat; peeksortImpl comp fuel (b + p)%nat e leftRunEnd' (b + q)%nat;; mergeSortedRunsInPlace comp b (b + p)%nat e)
    (mkMem (pre ++ (Some <$> l) ++ post) w) P.
Proof using All.
  intros Hp0. apply runs_bind, runs_next; [cbn; rewrite !length_app, length_fmap; lia|].
  assert (length (take p l) = p) as Hl1 by (rewrite length_take; lia). assert (length (drop p l) = length l - p) as Hl2 by apply length_drop.
  replace (Some <$> l) with (Some <$> take p l ++ drop p l) by (by rewrite take_drop). apply (sort_right _ _ _ _ _ _ _) with (p := 1) (q := q - p); rewrite ?take_drop, ?Hl1, ?Hl2; try done; try lia.
  - apply IH. lia.
  - apply short_sorted. rewrite length_take. lia.
  - rewrite drop_drop. by replace (p + (q - p))%nat with q by lia.
Qed.

Lemma impl_right_run : (0 < q < length l)%nat ->
  runs (rightRunBegin' ← prev (b + q)%nat; peeksortImpl comp fuel b (b + q)%nat (b + p)%nat rightRunBegin';; mergeSortedRunsInPlace comp b (b + q)%nat e)
    (mkMem (pre ++ (Some <$> l) ++ post) w) P.
Proof using All.
  intros Hq0. apply runs_bind, runs_prev; [lia|].
  assert (length (take q l) = q) as Hl1 by (rewrite length_take; lia). assert (length (drop q l) = length l - q) as Hl2 by apply length_drop.
  replace (Some <$> l) with (Some <$> take q l ++ drop q l) by (by rewrite take_drop). apply (sort_left _ _ _ _ _ _ _) with (p := p) (q := q - 1); rewrite ?take_drop, ?Hl1, ?Hl2; try done; try lia.
  - apply IH. lia.
  - rewrite take_take. by replace (p `min` q) with p by lia.
  - apply short_sorted. rewrite length_drop. lia.
Qed.

(** With a run across the middle. *)
Lemma impl_middle_run a l1 d r2 r h :
  same l (a ++ l1 ++ d ++ r2 ++ r) -> length a = p -> length r = length l - q -> sorted_if a -> sorted_if d -> sorted_if r ->
  h = (length l / 2)%nat -> (p + length l1 < h)%nat -> (h < p + length l1 + length d)%nat ->
  let i := (b + p + length l1)%nat in let j := (b + p + length l1 + length d)%nat in
  runs (if (i =? b)%nat && (j =? e)%nat then mret ()
        else if (b + h - i <? j - (b + h))%nat then
          before_i ← prev i; peeksortImpl comp fuel b i (b + p) before_i;; peeksortImpl comp fuel i e j (b + q);; mergeSortedRunsInPlace comp b i e
        else
          after_j ← next j; peeksortImpl comp fuel b j (b + p) i;; peeksortImpl comp fuel j e after_j (b + q);; mergeSortedRunsInPlace comp b j e)
    (mkMem (pre ++ (Some <$> a ++ l1 ++ d ++ r2 ++ r) ++ post) w) P.
Proof using All.
  intros Hs Ha Hr Hsa Hsd Hsr Hh Hi Hj i j. pose proof (same_length _ _ Hs) as Hl. rewrite !length_app in Hl.
  assert (2 * h <= length l /\ length l <= 2 * h + 1)%nat as [Hh1 Hh2].
  { subst h. pose proof (Nat.div_mod (length l) 2). pose proof (Nat.mod_upper_bound (length l) 2). lia. } clear Hh.
  destruct (Nat.eqb_spec i b) as [Hib|Hib], (Nat.eqb_spec j e) as [Hje|Hje]; cbn [andb].
  1: { apply runs_ret. assert (a = [] /\ l1 = [] /\ r2 = [] /\ r = []) as (-> & -> & -> & ->).
       { subst i j. repeat split; apply nil_length_inv; lia. }
       cbn [app] in *. rewrite !app_nil_r in *. by apply HP. }
  all: assert (forall l' w', same (a ++ l1 ++ d ++ r2 ++ r) l' -> sorted_if l' -> length w' = length w -> P () (mkMem (pre ++ (Some <$> l') ++ post) w')) as HP' by (intros; apply HP; [by etrans|done|done]).
  all: destruct (Nat.ltb_spec (b + h - i) (j - (b + h))) as [Hlt|Hge]; try (subst i j; lia).
  all: try (apply runs_bind, runs_prev; [subst i; lia|]; rewrite (app_assoc a l1); apply sort_both with (p1 := p) (q1 := p + length l1 - 1) (p2 := length d) (q2 := length d + length r2)).
  all: try (apply runs_bind, runs_next; [cbn; rewrite !length_app, length_fmap, !length_app; subst j; lia|];
    rewrite (app_assoc l1 d), (app_assoc a (l1 ++ d)); apply sort_both with (p1 := p) (q1 := p + length l1) (p2 := 1) (q2 := length r2)).
  all: rewrite <- ?app_assoc, ?length_app; try done; try (subst i j; lia); try (apply IH; rewrite !length_app; subst i j; lia).
  all: first
    [ apply short_sorted; rewrite ?length_take, ?length_drop, ?length_app; lia
    | rewrite <- Ha, take_app_length; done
    | rewrite take_app_length; done
    | rewrite drop_app_length; done
    | rewrite app_assoc, drop_app_length' by (rewrite length_app; lia); done ].
Qed.
End impl.

Lemma list_middle l p h q : (p < h)%nat -> (h < q)%nat -> (q <= length l)%nat ->
  exists ls x y rs, l = take p l ++ ls ++ x :: y :: rs ++ drop q l /\ h = (p + S (length ls))%nat /\ q = (h + S (length rs))%nat /\ l !! (h - 1) = Some x /\ l !! h = Some y.
Proof.
  intros Hp Hq Hl. destruct (lookup_lt_is_Some_2 l (h - 1)) as [x Hx]; [lia|]. destruct (lookup_lt_is_Some_2 l h) as [y Hy]; [lia|].
  exists (take (h - 1 - p) (drop p l)), x, y, (take (q - S h) (drop (S h) l)). rewrite !length_take, !length_drop. split; [|split; [lia|split; [lia|done]]].
  replace (drop q l) with (drop (q - S h) (drop (S h) l)) by (rewrite drop_drop; f_equal; lia). rewrite take_drop.
  rewrite <- (drop_S l y h Hy). replace h with (S (h - 1)) at 2 by lia. rewrite <- (drop_S l x (h - 1) Hx).
  replace (drop (h - 1) l) with (drop (h - 1 - p) (drop p l)) by (rewrite drop_drop; f_equal; lia). by rewrite !take_drop.
Qed.

Lemma peeksortImpl_runs fuel : forall l, (length l < fuel)%nat -> sorts (peeksortImpl comp fuel) l.
Proof.
  induction fuel as [|fuel IH]; intros l Hlen; [lia|]. intros pre post w b e lre rrb p q P -> -> -> -> Hw Hp Hq Hpq Hsp Hsq HP. cbn [peeksortImpl].
  destruct (Nat.eqb_spec (length pre + p) (length pre + length l)) as [He|He]; cbn [orb].
  { apply runs_ret. apply HP; [done| |done]. replace p with (length l) in Hsp by lia. by rewrite firstn_all in Hsp. }
  destruct (Nat.eqb_spec (length pre + q) (length pre)) as [Hb|Hb].
  { apply runs_ret. apply HP; [done| |done]. by replace q with 0 in Hsq by lia. }
  replace (length pre + length l - length pre) with (length l) by lia. unfold insertionsortThreshold.
  destruct (Nat.leb_spec (length l) 16) as [Hsmall|Hbig].
  { apply insertionsort_runs; [done|done|]. apply HP; [|intros Hc; by apply isort_same|done].
    split; [by rewrite isort_perm|]. intros Hc. by apply (isort_same Hc l). }
  assert (8 <= length l / 2 < length l)%nat as Hh.
  { pose proof (Nat.div_mod (length l) 2). pose proof (Nat.mod_upper_bound (length l) 2). lia. }
  remember (length l / 2)%nat as h eqn:Hdiv. cbv zeta.
  destruct (Nat.leb_spec (length pre + h) (length pre + p)) as [Hcase|Hcase]; [apply impl_left_run; try done; lia|].
  destruct (Nat.leb_spec (length pre + q) (length pre + h)) as [Hcase'|Hcase']; [apply impl_right_run; try done; lia|].
  destruct (list_middle l p h q) as (ls & x & y & rs & Hl & Hh1 & Hq1 & Hx & Hy); [lia..|].
  assert (length (take p l) = p) as Ha by (rewrite length_take; lia). assert (length (drop q l) = length l - q) as Hr by apply length_drop.
  apply runs_bind, runs_prev; [lia|].
  pose proof Hsp as Hsa. pose proof Hsq as Hsr. set (a := take p l) in Hl, Ha, Hsa. set (r := drop q l) in Hl, Hr, Hsr. clearbody a r. set (rest := fun ij : nat * nat => _).
  assert (forall l1 d r2, same (ls ++ x :: y :: rs) (l1 ++ d ++ r2) -> sorted_if d -> (length l1 <= length ls)%nat -> (length r2 <= length rs)%nat ->
    runs (rest ((length pre + p + length l1)%nat, (length pre + p + length l1 + length d)%nat)) (mkMem (pre ++ (Some <$> a ++ l1 ++ d ++ r2 ++ r) ++ post) w) P) as Hrest.
  { intros l1 d r2 Hs Hd Hl1 Hr2. pose proof (same_length _ _ Hs) as Hls. rewrite !length_app in Hls. cbn [length] in Hls.
    apply (impl_middle_run fuel IH l pre post w p q P Hlen Hw Hp Hq ltac:(lia) Hsp Hsq HP a l1 d r2 r h); try done; try lia.
    rewrite Hl at 1. rewrite (app_assoc d), (app_assoc l1), <- Hs. by rewrite <- app_assoc. }
  clearbody rest.
  assert (mkMem (pre ++ (Some <$> l) ++ post) w = mkMem ((pre ++ (Some <$> a)) ++ (Some <$> ls ++ x :: y :: rs) ++ (Some <$> r) ++ post) w) as Hmem.
  { rewrite Hl at 1. rewrite (app_comm_cons rs), (app_comm_cons _ _ x), (app_assoc ls). by rewrite !fmap_app, <- !app_assoc. }
  assert (length (pre ++ (Some <$> a)) = length pre + p)%nat as Hpa by (by rewrite length_app, length_fmap, Ha).
  apply runs_bind, (runs_get_at h y); [done|done|]. apply runs_bind, (runs_get_at (h - 1) x); [lia|done|]. rewrite Hmem.
  apply runs_bind. apply find_run_runs; [lia..|]. intros l1 d r2 Hs Hd Hl1 Hr2.
  assert (forall m, m = mkMem (pre ++ (Some <$> a ++ l1 ++ d ++ r2 ++ r) ++ post) w -> runs (rest ((length pre + p + length l1)%nat, (length pre + p + length l1 + length d)%nat)) m P) as Hrm.
  { intros m ->. by apply Hrest. }
  apply Hrm. by rewrite !fmap_app, <- !app_assoc.
Qed.

Theorem peeksort_runs l pre post w b e (P : unit -> Mem -> Prop) :
  b = length pre -> e = (b + length l)%nat ->
  (forall l' w', same l l' -> sorted_if l' -> P () (mkMem (pre ++ (Some <$> l') ++ post) w')) ->
  runs (peeksort comp b e) (mkMem (pre ++ (Some <$> l) ++ post) w) P.
Proof.
  intros -> -> HP. unfold peeksort. replace (length pre + length l - length pre) with (length l) by lia.
  destruct (Nat.leb_spec (length l) 1) as [H1|H1]; [apply runs_ret; apply HP; [done|by apply short_sorted]|].
  destruct (Nat.eqb_spec (length l) 2) as [H2|H2].
  - destruct l as [|x [|y [|]]]; try done. apply runs_bind, runs_prev; [lia|]. cbn [length fmap list_fmap app].
    apply runs_bind. rewrite (snoc_app pre). apply runs_get; [rewrite length_app; cbn; lia|]. rewrite <- snoc_app. apply runs_bind, runs_get; [done|].
    destruct (comp y x) eqn:Hyx.
    + apply runs_swap_up; [done|lia|]. apply (HP [y; x]).
      * split; [apply Permutation_swap|]. intros Hc z. refine (proj2 (proj1 (strict_run_same Hc [x; y] _)) Hc z). by repeat constructor.
      * intros Hc. constructor; [by repeat constructor|]. constructor; [by apply comp_asym|done].
    + apply runs_ret. apply (HP [x; y]); [done|]. intros Hc. constructor; [by repeat constructor|]. by constructor.
  - apply runs_bind. eexists (), _. split; [reflexivity|]. cbn [range].
    apply (peeksortImpl_runs (S (length l)) l) with (p := 0) (q := length l); rewrite ?length_replicate; try done; try lia.
    + apply short_sorted. rewrite length_take. lia.
    + apply short_sorted. rewrite length_drop. lia.
    + intros l' w' Hs Hsl _. by apply HP.
Qed.
End specs.
End sort.

(** ** The property *)

(** C19: for any comparator whatsoever [peeksort] ends, accesses nothing
    outside the range it is given and the buffer it allocates, loses no
    element and leaves the rest of the array alone: the result is a
    permutation of the range.  If the comparator is a strict weak order, the
    result is sorted and equivalent elements are in the order they had. *)
Theorem peeksort_spec {V} (comp : V -> V -> bool) (pre l post : list V) w :
  exists l' w',
    peeksort comp (length pre) (length pre + length l) (mkMem (Some <$> pre ++ l ++ post) w) = Some ((), mkMem (Some <$> pre ++ l' ++ post) w') /\
    l' ≡ₚ l /\
    (strict_weak_order comp -> sorted comp l' /\ forall z, class comp z l' = class comp z l).
Proof.
  destruct (peeksort_runs comp l (Some <$> pre) (Some <$> post) w (length pre) (length pre + length l)
    (fun _ m' => exists l' w', m' = mkMem (Some <$> pre ++ l' ++ post) w' /\ same comp l l' /\ sorted_if comp l')) as ([] & m & Hm & l' & w' & -> & [Hp Hs] & Hsl).
  - by rewrite length_fmap.
  - done.
  - intros l' w' Hs Hsl. exists l', w'. split; [by rewrite !fmap_app|done].
  - exists l', w'. split; [rewrite (fmap_app Some pre (l ++ post)), (fmap_app Some l post); exact Hm|]. split; [done|]. intros Hc. split; [by apply Hsl|]. intros z. by rewrite Hs.
Qed.

(** Numbers by their tens, in an array with two more elements around them. *)
Definition by_tens (x y : nat) : bool := (x / 10 <? y / 10)%nat.
Definition some_numbers : list nat := [31; 12; 15; 40; 41; 3; 2; 1; 39; 38; 37; 20; 21; 22; 23; 24; 11; 12; 50; 9; 8; 8; 71; 6; 3; 12; 14; 36; 41].

Lemma by_tens_order : strict_weak_order by_tens.
Proof.
  split; unfold by_tens.
  - intros x. apply Nat.ltb_irrefl.
  - intros x y z. rewrite !Nat.ltb_lt. lia.
  - intros x y z. rewrite !Nat.ltb_ge. lia.
Qed.

Lemma peeksort_spec_witness : exists l' w',
  peeksort by_tens 1 30 (mkMem (Some <$> [100] ++ some_numbers ++ [0]) []) = Some ((), mkMem (Some <$> [100] ++ l' ++ [0]) w') /\
  sorted by_tens l' /\ class by_tens 10 l' = [12; 15; 11; 12; 12; 14] /\ ~ sorted by_tens some_numbers.
Proof.
  destruct (peeksort_spec by_tens [100] some_numbers [0] []) as (l' & w' & Hr & _ & Hs). destruct (Hs by_tens_order) as [Hl' Hc].
  exists l', w'. split; [exact Hr|]. split; [exact Hl'|]. split; [rewrite Hc; reflexivity|].
  intros [_ Hall]%StronglySorted_inv. apply Forall_inv in Hall. discriminate Hall.
Defined.
