(* ===== verification/PathLocks.v ===== *)
(** * PathLocks: lock files that are deleted when they are released

    libstore/pathlocks.cc and unix/pathlocks.cc: processes that lock and
    unlock sets of paths through lock files, as steps from one system call to
    the next taken in any order.  A lock file is an inode with its size and
    who holds its [flock]; the directory says which inode a name is.  The
    name of a lock file is that of its path here, without the [.lock]. *)

From S2P Require Export Prelude.
From Stdlib Require Import Sorting.Sorted.

#[local] Set Default Proof Using "All".

Section locks.
Context {Path : Type} `{Countable Path} (before : Path -> Path -> Prop) `{!RelDecision before} `{!StrictOrder before}.

(** ** State *)

(** [lf_path] is the name the file was created under; the file system does not
    know it. *)
Record LockFile := mkLockFile { lf_path : Path; lf_size : nat; lf_holder : option nat }.

(** Where a process is: in [lockPaths], with the stale file it has still open,
    the file it has opened, the path and those that come after it; in
    [unlock], which returns [false] from [lockPaths] if that [failed]. *)
Inductive At :=
  | Idle
  | Open (stale : option nat) (x : Path) (rest : list Path)
  | CloseStale (stale ino : nat) (x : Path) (rest : list Path)
  | TryLock (ino : nat) (x : Path) (rest : list Path)
  | WaitLock (ino : nat) (x : Path) (rest : list Path)
  | Stat (ino : nat) (x : Path) (rest : list Path)
  | Locked
  | Unlock (failed : bool)
  | WriteToken (failed : bool)
  | Close (failed : bool)
  | Refused.

(** A process with one [PathLocks], and the [wait] it called [lockPaths] with. *)
Record Proc := mkProc { at_ : At; fds : list (nat * Path); wait : bool; deletePaths : bool }.
Definition idle : Proc := mkProc Idle [] true false.
Record State := mkState { dir : gmap Path nat; files : gmap nat LockFile; next_ino : nat; procs : gmap nat Proc }.
Definition proc (s : State) (i : nat) : Proc := default idle (procs s !! i).
Definition set_proc (i : nat) (p : Proc) (s : State) : State := mkState (dir s) (files s) (next_ino s) (<[i := p]> (procs s)).
Definition set_file (ino : nat) (f : LockFile) (s : State) : State := mkState (dir s) (<[ino := f]> (files s)) (next_ino s) (procs s).
Definition set_dir (d : gmap Path nat) (s : State) : State := mkState d (files s) (next_ino s) (procs s).
Definition goto (i : nat) (a : At) (s : State) : State :=
  let p := proc s i in set_proc i (mkProc a (fds p) (wait p) (deletePaths p)) s.

(** ** The operations *)

(** [open] with [O_CREAT] *)
Definition openLockFile (x : Path) (s : State) : nat * State :=
  match dir s !! x with
  | Some ino => (ino, s)
  | None => (next_ino s, mkState (<[x := next_ino s]> (dir s)) (<[next_ino s := mkLockFile x 0 None]> (files s)) (S (next_ino s)) (procs s))
  end.

(** An exclusive [flock], if nobody holds one. *)
Definition flock (i ino : nat) (s : State) : option State :=
  f ← files s !! ino;
  match lf_holder f with
  | None => Some (set_file ino (mkLockFile (lf_path f) (lf_size f) (Some i)) s)
  | Some _ => None
  end.

(** Closing the descriptor gives up the lock. *)
Definition close_fd (i ino : nat) (s : State) : State :=
  match files s !! ino with
  | Some f => if decide (lf_holder f = Some i) then set_file ino (mkLockFile (lf_path f) (lf_size f) None) s else s
  | None => s
  end.

(** [unlink] may fail, which [tryUnlink] ignores. *)
Definition tryUnlink (ok : bool) (x : Path) (s : State) : State := if ok then set_dir (delete x (dir s)) s else s.
(** [writeFull(desc, "d")] at the start of the file *)
Definition write_token (ino : nat) (s : State) : State :=
  match files s !! ino with Some f => set_file ino (mkLockFile (lf_path f) (lf_size f `max` 1) (lf_holder f)) s | None => s end.

(** What is left open of a step: whether [unlink] succeeds, and whether a
    signal interrupts a waiting [flock]; [lockFile] returns [false] then. *)
Record Choice := mkChoice { unlink_ok : bool; interrupted : bool }.

(** [lockPaths] and [unlock]. *)
Definition next_path (rest : list Path) : At := match rest with [] => Locked | x :: rest => Open None x rest end.

Definition step (c : Choice) (i : nat) (s : State) : option State :=
  let p := proc s i in
  match at_ p with
  | Idle | Locked | Refused => None
  | Open stale x rest =>
      let '(ino, s) := openLockFile x s in
      Some (goto i (match stale with Some o => CloseStale o ino x rest | None => TryLock ino x rest end) s)
  | CloseStale o ino x rest => Some (goto i (TryLock ino x rest) (close_fd i o s))
  | TryLock ino x rest =>
      Some match flock i ino s with
           | Some s => goto i (Stat ino x rest) s
           | None => goto i (if wait p then WaitLock ino x rest else Unlock true) s
           end
  | WaitLock ino x rest =>
      if interrupted c then Some (goto i (Stat ino x rest) s)
      else s ← flock i ino s; Some (goto i (Stat ino x rest) s)
  | Stat ino x rest =>
      f ← files s !! ino;
      Some (if (lf_size f =? 0)%nat then set_proc i (mkProc (next_path rest) (fds p ++ [(ino, x)]) (wait p) (deletePaths p)) s
            else goto i (Open (Some ino) x rest) s)
  | Unlock failed =>
      Some match fds p with
           | [] => goto i (if failed then Refused else Idle) s
           | (_, x) :: _ => if deletePaths p then goto i (WriteToken failed) (tryUnlink (unlink_ok c) x s) else goto i (Close failed) s
           end
  | WriteToken failed =>
      match fds p with
      | [] => None
      | (ino, _) :: _ => Some (goto i (Close failed) (write_token ino s))
      end
  | Close failed =>
      match fds p with
      | [] => None
      | (ino, _) :: rest => Some (set_proc i (mkProc (Unlock failed) rest (wait p) (deletePaths p)) (close_fd i ino s))
      end
  end.

(** A [std::set] is in order. *)
Fixpoint in_order (l : list Path) : bool :=
  match l with [] => true | x :: l => forallb (fun y => bool_decide (before x y)) l && in_order l end.

(** What the processes do besides: call [lockPaths] on a set of paths,
    [setDeletion] and [unlock], and die, which closes their files. *)
Inductive Event :=
  | Step (c : Choice) (i : nat)
  | LockPaths (i : nat) (paths : list Path) (wait_ : bool)
  | SetDeletion (i : nat) (b : bool)
  | Release (i : nat)
  | Die (i : nat).

Definition event (e : Event) (s : State) : option State :=
  match e with
  | Step c i => step c i s
  | LockPaths i paths w =>
      let p := proc s i in
      if negb (in_order paths) then None
      else match at_ p with
           | Idle | Refused => Some (set_proc i (mkProc (next_path paths) [] w (deletePaths p)) s)
           | _ => None
           end
  | SetDeletion i b =>
      let p := proc s i in
      match at_ p with
      | Idle | Refused | Locked => Some (set_proc i (mkProc (at_ p) (fds p) (wait p) b) s)
      | _ => None
      end
  | Release i => match at_ (proc s i) with Locked => Some (goto i (Unlock false) s) | _ => None end
  | Die i =>
      Some (mkState (dir s) ((fun f => if decide (lf_holder f = Some i) then mkLockFile (lf_path f) (lf_size f) None else f) <$> files s)
              (next_ino s) (delete i (procs s)))
  end.

Fixpoint run (evs : list Event) (s : State) : option State :=
  match evs with [] => Some s | e :: evs => event e s ≫= run evs end.
Definition start : State := mkState ∅ ∅ 0 ∅.

(** ** What is assumed, and what holds *)

(** No signal interrupts a waiting [flock], and no process dies between the
    two steps of [deleteLockFile]. *)
Definition orderly (e : Event) (s : State) : Prop :=
  match e with
  | Step c i => interrupted c = false
  | Die i => match at_ (proc s i) with WriteToken _ => False | _ => True end
  | _ => True
  end.
Fixpoint orderly_run (evs : list Event) (s : State) : Prop :=
  match evs with [] => True | e :: evs => orderly e s /\ match event e s with Some s' => orderly_run evs s' | None => True end end.

(** The locks a process has and is not giving up right now. *)
Definition kept_fds (p : Proc) : list (nat * Path) := match at_ p with WriteToken _ | Close _ => tail (fds p) | _ => fds p end.
Definition owns (s : State) (i : nat) (x : Path) : Prop := x ∈ (kept_fds (proc s i)).*2.

Definition to_lock (a : At) : list Path :=
  match a with Open _ x rest | CloseStale _ _ x rest | TryLock _ x rest | WaitLock _ x rest | Stat _ x rest => x :: rest | _ => [] end.

Section inv.
Context (d : gmap Path nat) (fs : gmap nat LockFile) (i : nat).

Definition is_file (ino : nat) (x : Path) : Prop := exists f, fs !! ino = Some f /\ lf_path f = x.
Definition held (ino : nat) (x : Path) : Prop := exists f, fs !! ino = Some f /\ lf_path f = x /\ lf_holder f = Some i.
Definition good (ino : nat) (x : Path) : Prop := exists f, fs !! ino = Some f /\ lf_size f = 0 /\ d !! x = Some ino.

Definition at_ok (a : At) (l : list (nat * Path)) : Prop :=
  match a with
  | Open (Some o) x _ => held o x
  | CloseStale o ino x _ => held o x /\ is_file ino x
  | TryLock ino x _ | WaitLock ino x _ => is_file ino x
  | Stat ino x _ => held ino x
  | WriteToken _ | Close _ => l <> []
  | Idle | Refused => l = []
  | _ => True
  end.

Record proc_ok (p : Proc) : Prop := {
  po_held : forall ino x, (ino, x) ∈ fds p -> held ino x;
  po_at : at_ok (at_ p) (fds p);
  po_good : forall ino x, (ino, x) ∈ kept_fds p -> good ino x;
  po_sorted : StronglySorted before ((fds p).*2 ++ to_lock (at_ p));
}.
End inv.

(** Which files a process may hold. *)
Definition may_hold (p : Proc) (ino : nat) : Prop :=
  ino ∈ (fds p).*1 \/ match at_ p with Open (Some o) _ _ | CloseStale o _ _ _ => ino = o | Stat o _ _ => ino = o | _ => False end.
Definition unlinking (p : Proc) (ino : nat) : Prop :=
  match at_ p, fds p with WriteToken _, (o, _) :: _ => ino = o | _, _ => False end.

Record Inv (s : State) : Prop := {
  inv_procs : forall i, proc_ok (dir s) (files s) i (proc s i);
  inv_holder : forall ino f i, files s !! ino = Some f -> lf_holder f = Some i -> may_hold (proc s i) ino;
  inv_dir : forall x ino, dir s !! x = Some ino -> is_file (files s) ino x;
  inv_fresh : forall ino, (next_ino s <= ino)%nat -> files s !! ino = None;
  inv_linked : forall ino f, files s !! ino = Some f ->
    dir s !! lf_path f = Some ino \/ lf_size f <> 0 \/ exists i, unlinking (proc s i) ino;
}.

(** ** The invariant *)

Lemma proc_set i p s j : proc (set_proc i p s) j = if decide (j = i) then p else proc s j.
Proof. unfold proc. cbn. case_decide as Hj; [subst; by rewrite lookup_insert_eq|by rewrite lookup_insert_ne]. Qed.

Lemma kept_in (p : Proc) e : e ∈ kept_fds p -> e ∈ fds p.
Proof using Type. unfold kept_fds. destruct (at_ p); try done; destruct (fds p); try done; by right. Qed.

(** What a process knows stays true whatever the others do to files they hold. *)
Lemma proc_ok_frame d fs d' fs' i p :
  (forall ino f, fs !! ino = Some f -> exists f', fs' !! ino = Some f' /\ lf_path f' = lf_path f /\
     (lf_holder f = Some i -> lf_holder f' = Some i /\ lf_size f' = lf_size f)) ->
  (forall x ino f, fs !! ino = Some f -> lf_holder f = Some i -> d !! x = Some ino -> d' !! x = Some ino) ->
  proc_ok d fs i p -> proc_ok d' fs' i p.
Proof.
  intros Hf Hd []. assert (forall ino x, held fs i ino x -> held fs' i ino x) as Hheld.
  { intros ino x (f & Hi & Hx & Hh). destruct (Hf ino f Hi) as (f' & ? & ? & Hk). destruct (Hk Hh). exists f'. split; [done|]. split; [congruence|done]. }
  assert (forall ino x, is_file fs ino x -> is_file fs' ino x) as His.
  { intros ino x (f & Hi & Hx). destruct (Hf ino f Hi) as (f' & ? & ? & _). exists f'. split; [done|congruence]. }
  split.
  - intros ino x Hin. by apply Hheld, po_held0.
  - destruct (at_ p) as [|[]| | | | | | | | |]; cbn in *; try done; auto. destruct po_at0. auto.
  - intros ino x Hin. destruct (po_good0 ino x Hin) as (f & Hi & Hs & Hdx). destruct (po_held0 ino x (kept_in _ _ Hin)) as (f0 & Hi0 & _ & Hh).
    rewrite Hi in Hi0. injection Hi0 as <-. destruct (Hf ino f Hi) as (f' & Hf' & _ & Hk). destruct (Hk Hh) as [_ Hs']. exists f'. split; [done|]. split; [congruence|by eapply Hd].
  - done.
Qed.

(** The invariant but for the process [i] that takes a step; [U] are the files
    it has unlinked without having written the token. *)
Record InvX (i : nat) (U : nat -> Prop) (s : State) : Prop := {
  ix_procs : forall j, j <> i -> proc_ok (dir s) (files s) j (proc s j);
  ix_holder : forall ino f j, j <> i -> files s !! ino = Some f -> lf_holder f = Some j -> may_hold (proc s j) ino;
  ix_dir : forall x ino, dir s !! x = Some ino -> is_file (files s) ino x;
  ix_fresh : forall ino, (next_ino s <= ino)%nat -> files s !! ino = None;
  ix_linked : forall ino f, files s !! ino = Some f ->
    dir s !! lf_path f = Some ino \/ lf_size f <> 0 \/ U ino \/ exists j, j <> i /\ unlinking (proc s j) ino;
}.

Lemma Inv_drop i s : Inv s -> InvX i (unlinking (proc s i)) s.
Proof.
  intros []. split; eauto. intros ino f Hf. destruct (inv_linked0 ino f Hf) as [?|[?|[j Hj]]]; auto.
  destruct (decide (j = i)) as [->|]; eauto 10.
Qed.

Lemma locks_put i U s p :
  InvX i U s -> proc_ok (dir s) (files s) i p ->
  (forall ino f, files s !! ino = Some f -> lf_holder f = Some i -> may_hold p ino) -> (forall ino, U ino -> unlinking p ino) ->
  Inv (set_proc i p s).
Proof.
  intros [] Hp Hh HU. split; cbn; try done.
  - intros j. rewrite proc_set. case_decide; [by subst|by apply ix_procs0].
  - intros ino f j Hf Hj. rewrite proc_set. case_decide; [subst; eauto|eauto].
  - intros ino f Hf. destruct (ix_linked0 ino f Hf) as [?|[?|[Hu|(j & Hj & Hu)]]]; auto.
    + right; right. exists i. rewrite proc_set, decide_True by done. auto.
    + right; right. exists j. by rewrite proc_set, decide_False.
Qed.

(** A file is changed by who holds it, or locked while nobody does. *)
Lemma InvX_set_file i U U' s ino f f' :
  InvX i U s -> files s !! ino = Some f -> lf_path f' = lf_path f -> (lf_holder f = None \/ lf_holder f = Some i) ->
  (lf_holder f' = None \/ lf_holder f' = Some i) -> (lf_size f <> 0 -> lf_size f' <> 0) ->
  (forall n, U n -> U' n \/ n = ino /\ lf_size f' <> 0) ->
  InvX i U' (set_file ino f' s).
Proof.
  intros [] Hf Hpath Hh Hh' Hs HU. split; cbn.
  - intros j Hj. apply (proc_ok_frame (dir s) (files s)); [|done|by apply ix_procs0].
    intros n g Hg. destruct (decide (n = ino)) as [->|Hn]; [|exists g; by rewrite lookup_insert_ne].
    rewrite Hf in Hg. injection Hg as <-. exists f'. rewrite lookup_insert_eq. split; [done|]. split; [done|]. intros Hg. destruct Hh; congruence.
  - intros n g j Hj Hg Hgj. destruct (decide (n = ino)) as [->|Hn].
    + rewrite lookup_insert_eq in Hg. injection Hg as <-. destruct Hh'; congruence.
    + rewrite lookup_insert_ne in Hg by done. by eapply ix_holder0.
  - intros x n Hd. destruct (ix_dir0 x n Hd) as (g & Hg & Hx). destruct (decide (n = ino)) as [->|Hn].
    + exists f'. rewrite lookup_insert_eq. split; [done|congruence].
    + exists g. by rewrite lookup_insert_ne.
  - intros n Hn. rewrite lookup_insert_ne; [by apply ix_fresh0|]. intros ->. rewrite ix_fresh0 in Hf; done.
  - intros n g Hg. destruct (decide (n = ino)) as [->|Hn].
    + rewrite lookup_insert_eq in Hg. injection Hg as <-. rewrite Hpath.
      destruct (ix_linked0 ino f Hf) as [?|[?|[Hu|?]]]; auto. destruct (HU _ Hu) as [?|[_ ?]]; auto.
    + rewrite lookup_insert_ne in Hg by done. destruct (ix_linked0 n g Hg) as [?|[?|[Hu|?]]]; auto. destruct (HU _ Hu) as [?|[? _]]; auto.
Qed.

Lemma InvX_open i U s x : InvX i U s -> let '(ino, s') := openLockFile x s in
  InvX i U s' /\ is_file (files s') ino x /\ procs s' = procs s /\
  (forall d' fs' p, d' = dir s' -> fs' = files s' -> proc_ok (dir s) (files s) i p -> proc_ok d' fs' i p) /\
  (forall ino f j, files s' !! ino = Some f -> lf_holder f = Some j -> files s !! ino = Some f).
Proof.
  intros HI. pose proof HI as []. unfold openLockFile. destruct (dir s !! x) as [ino|] eqn:Hd.
  { split; [done|]. split; [by apply ix_dir0|]. split; [done|]. split; [by intros d' fs' p -> ->|done]. }
  assert (files s !! next_ino s = None) as Hn by (by apply ix_fresh0).
  assert (forall j p, proc_ok (dir s) (files s) j p -> proc_ok (<[x := next_ino s]> (dir s)) (<[next_ino s := mkLockFile x 0 None]> (files s)) j p) as Hframe.
  { intros j p. apply proc_ok_frame.
    - intros ino f Hf. exists f. rewrite lookup_insert_ne; [done|]. intros <-. congruence.
    - intros y ino f _ _ Hy. rewrite lookup_insert_ne; [done|]. intros <-. congruence. }
  split; [|split; [|split; [done|split]]].
  - split; cbn.
    + intros j Hj. by apply Hframe, ix_procs0.
    + intros ino f j Hj Hf Hh. apply lookup_insert_Some in Hf as [[_ <-]|[_ Hf]]; [done|by eapply ix_holder0].
    + intros y ino Hy. apply lookup_insert_Some in Hy as [[<- <-]|[Hxy Hy]]; [exists (mkLockFile x 0 None); by rewrite lookup_insert_eq|].
      destruct (ix_dir0 y ino Hy) as (f & Hf & ?). exists f. rewrite lookup_insert_ne; [done|]. intros <-. congruence.
    + intros ino Hino. rewrite lookup_insert_ne by lia. apply ix_fresh0. lia.
    + intros ino f Hf. apply lookup_insert_Some in Hf as [[<- <-]|[Hne Hf]]; [left; cbn; by rewrite lookup_insert_eq|].
      destruct (ix_linked0 ino f Hf) as [Hl|?]; [left|by right]. rewrite lookup_insert_ne; [done|]. intros Hx; congruence.
  - exists (mkLockFile x 0 None). cbn. by rewrite lookup_insert_eq.
  - intros d' fs' p -> ->. apply Hframe.
  - cbn. intros ino f j Hf Hh. apply lookup_insert_Some in Hf as [[<- <-]|[_ Hf]]; done.
Qed.

Lemma InvX_flock i U s ino s' : InvX i U s -> flock i ino s = Some s' ->
  exists f, files s !! ino = Some f /\ lf_holder f = None /\ s' = set_file ino (mkLockFile (lf_path f) (lf_size f) (Some i)) s /\ InvX i U s'.
Proof.
  intros HI. unfold flock. destruct (files s !! ino) as [f|] eqn:Hf; [|done]. cbn. destruct (lf_holder f) eqn:Hh; [done|]. intros [= <-].
  exists f. repeat (split; [done|]). eapply (InvX_set_file i U U s ino f); cbn; auto.
Qed.

Lemma InvX_close i U s ino : InvX i U s -> InvX i U (close_fd i ino s).
Proof.
  intros HI. unfold close_fd. destruct (files s !! ino) as [f|] eqn:Hf; [|done]. case_decide as Hh; [|done].
  eapply (InvX_set_file i U U s ino f); cbn; auto.
Qed.

Lemma InvX_token i U s ino x : InvX i U s -> held (files s) i ino x -> (forall n, U n -> n = ino) ->
  InvX i (fun _ => False) (write_token ino s).
Proof.
  intros HI (f & Hf & _ & Hh) HU. unfold write_token. rewrite Hf. eapply (InvX_set_file i U); cbn; eauto; [lia|].
  intros n Hn. right. split; [by apply HU|lia].
Qed.

(** Only the holder of a file unlinks it. *)
Lemma InvX_unlink i s ino x ok : InvX i (fun _ => False) s -> held (files s) i ino x -> good (dir s) (files s) ino x ->
  InvX i (fun n => n = ino) (tryUnlink ok x s).
Proof.
  intros [] (f & Hf & Hx & Hh) (f' & Hf' & _ & Hd). rewrite Hf in Hf'. injection Hf' as <-. destruct ok; cbn; [|split; try done; intros n g Hg; destruct (ix_linked0 n g Hg) as [?|[?|[?|?]]]; auto; done].
  split; cbn; try done.
  - intros j Hj. apply (proc_ok_frame (dir s) (files s)); [intros n g Hg; by exists g| |by apply ix_procs0].
    intros y n g Hg Hgj Hy. destruct (decide (y = x)) as [->|Hyx]; [|by rewrite lookup_delete_ne]. rewrite Hd in Hy. injection Hy as ->. congruence.
  - intros y n Hy. apply lookup_delete_Some in Hy as [_ Hy]. by apply ix_dir0.
  - intros n g Hg. destruct (ix_linked0 n g Hg) as [Hl|[?|[?|?]]]; [|by auto|done|by auto]. destruct (decide (n = ino)) as [->|Hn]; [by right; right; left|].
    left. destruct (decide (lf_path g = x)) as [Hgx|Hgx]; [|by rewrite lookup_delete_ne]. rewrite Hgx, Hd in Hl. congruence.
Qed.

(** What the files of a process become when it gives one up. *)
Lemma close_held i ino s n x : held (files s) i n x -> n <> ino -> held (files (close_fd i ino s)) i n x.
Proof.
  intros (f & Hf & Hx & Hh) Hn. unfold close_fd. destruct (files s !! ino) eqn:Hi; [|by exists f]. case_decide; [|by exists f].
  exists f. cbn. by rewrite lookup_insert_ne.
Qed.

Lemma close_is_file i ino s n x : is_file (files s) n x -> is_file (files (close_fd i ino s)) n x.
Proof.
  intros (f & Hf & Hx). unfold close_fd. destruct (files s !! ino) as [g|] eqn:Hi; [|by exists f]. case_decide; [|by exists f].
  destruct (decide (n = ino)) as [->|Hn]; [|exists f; cbn; by rewrite lookup_insert_ne].
  eexists. cbn. rewrite lookup_insert_eq. split; [done|]. cbn. congruence.
Qed.

Lemma close_good i ino s n x : good (dir s) (files s) n x -> good (dir (close_fd i ino s)) (files (close_fd i ino s)) n x.
Proof.
  intros (f & Hf & Hs & Hd). unfold close_fd. destruct (files s !! ino) as [g|] eqn:Hi; [|by exists f]. case_decide; [|by exists f].
  destruct (decide (n = ino)) as [->|Hn]; [|exists f; cbn; by rewrite lookup_insert_ne].
  eexists. cbn. rewrite lookup_insert_eq. split; [done|]. cbn. split; [congruence|done].
Qed.

Lemma close_holder i ino s n f : files (close_fd i ino s) !! n = Some f -> lf_holder f = Some i -> n <> ino /\ files s !! n = Some f.
Proof.
  unfold close_fd. destruct (files s !! ino) as [g|] eqn:Hi.
  - case_decide as Hg; cbn.
    + intros [[_ <-]|[Hne ?]]%lookup_insert_Some Hh; [done|]. by split.
    + intros Hn Hh. split; [|done]. intros ->. congruence.
  - intros Hn Hh. split; [|done]. intros ->. congruence.
Qed.

Lemma sorted_paths (l l' : list Path) x : StronglySorted before (l ++ x :: l') -> x ∉ l.
Proof.
  intros Hs Hin. apply list_elem_of_split in Hin as (l1 & l2 & ->). rewrite <- app_assoc in Hs. induction l1 as [|y l1 IH]; cbn in Hs.
  - apply StronglySorted_inv in Hs as [_ Hf]. rewrite Forall_forall in Hf. apply (irreflexivity before x), Hf. apply elem_of_app. right. left.
  - apply StronglySorted_inv in Hs as [Hs _]. auto.
Qed.

Lemma sorted_after (l l' : list Path) x y : StronglySorted before (l ++ x :: l') -> y ∈ l' -> before x y.
Proof.
  induction l as [|z l IH]; cbn; intros [Hs Hf]%StronglySorted_inv Hin; [|by apply IH]. rewrite Forall_forall in Hf. by apply Hf.
Qed.

(** A process holds different files for different paths. *)
Lemma held_fun d fs i p ino x y : proc_ok d fs i p -> (ino, y) ∈ fds p -> is_file fs ino x -> x = y.
Proof. intros HP Hin (f & Hf & <-). destruct (po_held _ _ _ _ HP _ _ Hin) as (g & Hg & <- & _). congruence. Qed.

Lemma held_is_file fs i ino x : held fs i ino x -> is_file fs ino x.
Proof. intros (f & ? & ? & _). by exists f. Qed.

Lemma InvX_ext i (U U' : nat -> Prop) s : (forall n, U n -> U' n) -> InvX i U s -> InvX i U' s.
Proof. intros HU []. split; try done. intros ino f Hf. destruct (ix_linked0 ino f Hf) as [?|[?|[?|?]]]; auto. Qed.

Lemma goto_eq i a s s' : procs s' = procs s -> goto i a s' = set_proc i (mkProc a (fds (proc s i)) (wait (proc s i)) (deletePaths (proc s i))) s'.
Proof. intros Hp. unfold goto. by replace (proc s' i) with (proc s i) by (unfold proc; by rewrite Hp). Qed.

Lemma ssorted_l (l l' : list Path) : StronglySorted before (l ++ l') -> StronglySorted before (l ++ []).
Proof.
  rewrite app_nil_r. induction l as [|x l IH]; cbn; [constructor|]. intros [Hs Hf]%StronglySorted_inv. apply Forall_app in Hf as [Hf _]. constructor; auto.
Qed.

(** The first of the files is not among the others. *)
Lemma head_apart d fs i p ino x l n y :
  proc_ok d fs i p -> fds p = (ino, x) :: l -> (n, y) ∈ l -> n <> ino /\ y <> x.
Proof.
  intros HP Hl Hin. pose proof (po_sorted _ _ _ _ HP) as Hs. rewrite Hl in Hs. cbn in Hs. apply StronglySorted_inv in Hs as [_ Hf]. rewrite Forall_forall in Hf.
  assert (y <> x) as Hyx.
  { intros ->. apply (irreflexivity before x), Hf, elem_of_app. left. apply list_elem_of_fmap. by exists (n, x). }
  split; [|done]. intros ->. apply Hyx. eapply (held_fun d fs i p ino); [done|rewrite Hl; by left|].
  eapply held_is_file, (po_held _ _ _ _ HP). rewrite Hl. by right.
Qed.

(** An open file that is not yet locked for good is not among them either. *)
Lemma tail_apart d fs i p x rest ino n y :
  proc_ok d fs i p -> to_lock (at_ p) = x :: rest -> is_file fs ino x -> (n, y) ∈ fds p -> n <> ino.
Proof.
  intros HP Ha Hi Hin ->. pose proof (po_sorted _ _ _ _ HP) as Hs. rewrite Ha in Hs. apply sorted_paths in Hs. apply Hs.
  rewrite (held_fun _ _ _ _ _ _ _ HP Hin Hi). apply list_elem_of_fmap. by exists (ino, y).
Qed.

Section step_cases.
Context (i : nat) (s : State) (l : list (nat * Path)) (w del : bool).
Context (HI : Inv s).

Lemma open_Inv stale x rest : proc s i = mkProc (Open stale x rest) l w del -> forall ino s1, openLockFile x s = (ino, s1) ->
  Inv (goto i (match stale with Some o => CloseStale o ino x rest | None => TryLock ino x rest end) s1).
Proof.
  intros Hp ino s1 Ho. pose proof (inv_procs _ HI i) as HP. pose proof (Inv_drop i s HI) as HX. rewrite Hp in HX, HP.
  pose proof (fun ino f => inv_holder _ HI ino f i) as Hmay. rewrite Hp in Hmay.
  apply (InvX_ext _ _ (fun _ => False)) in HX; [|by intros]. pose proof (InvX_open i _ s x HX) as Hop. rewrite Ho in Hop.
  destruct Hop as (HX1 & Hino & Hpr & Hpo & Hold). specialize (Hpo _ _ _ eq_refl eq_refl HP). destruct Hpo as [Hheld Hat Hgood Hsorted].
  rewrite (goto_eq i _ s s1 Hpr), Hp. cbn [fds wait deletePaths] in *. eapply locks_put; [exact HX1| | |by intros].
  - split; cbn in *; try done; [by destruct stale|by destruct stale|by destruct stale].
  - intros n f Hf Hh. specialize (Hmay n f (Hold _ _ _ Hf Hh) Hh). destruct Hmay as [?|Hm]; [by left|right]. cbn in *. by destruct stale.
Qed.

Lemma closeStale_Inv o ino x rest : proc s i = mkProc (CloseStale o ino x rest) l w del -> Inv (goto i (TryLock ino x rest) (close_fd i o s)).
Proof.
  intros Hp. pose proof (inv_procs _ HI i) as HP. pose proof (Inv_drop i s HI) as HX. rewrite Hp in HX, HP.
  pose proof (fun ino f => inv_holder _ HI ino f i) as Hmay. rewrite Hp in Hmay.
  apply (InvX_ext _ _ (fun _ => False)) in HX; [|by intros]. pose proof HP as [Hheld [Ho Hino] Hgood Hsorted].
  rewrite (goto_eq i _ s) by (unfold close_fd; destruct (files s !! o); [by case_decide|done]). rewrite Hp. cbn [fds wait deletePaths] in *.
  eapply locks_put; [by apply InvX_close| | |by intros].
  - split; cbn in *; [|by apply close_is_file|intros n y Hin; by apply close_good, Hgood|done].
    intros n y Hin. apply close_held; [by apply Hheld|]. by eapply (tail_apart _ _ _ _ x rest o n y HP); [|apply held_is_file in Ho|].
  - intros n f Hf Hh. destruct (close_holder _ _ _ _ _ Hf Hh) as [Hn Hf']. destruct (Hmay n f Hf' Hh) as [?|Hm]; [by left|done].
Qed.

Lemma locked_Inv a ino x rest s1 : proc s i = mkProc a l w del -> (a = TryLock ino x rest \/ a = WaitLock ino x rest) ->
  flock i ino s = Some s1 -> Inv (goto i (Stat ino x rest) s1).
Proof.
  intros Hp Ha Hfl. pose proof (inv_procs _ HI i) as HP. pose proof (Inv_drop i s HI) as HX. rewrite Hp in HX, HP.
  pose proof (fun ino f => inv_holder _ HI ino f i) as Hmay. rewrite Hp in Hmay.
  apply (InvX_ext _ _ (fun _ => False)) in HX; [|by destruct Ha as [-> | ->]].
  destruct (InvX_flock _ _ _ _ _ HX Hfl) as (f & Hf & Hnh & -> & HX1).
  assert (proc_ok (dir s) (files (set_file ino (mkLockFile (lf_path f) (lf_size f) (Some i)) s)) i (mkProc a l w del)) as HP1.
  { apply (proc_ok_frame (dir s) (files s)); [|done|done]. intros n g Hg. cbn. destruct (decide (n = ino)) as [->|Hn]; [|exists g; by rewrite lookup_insert_ne].
    rewrite Hf in Hg. injection Hg as <-. eexists. rewrite lookup_insert_eq. split; [done|]. split; [done|]. congruence. }
  destruct HP1 as [Hheld Hat Hgood Hsorted]. rewrite (goto_eq i _ s) by done. rewrite Hp. cbn [fds wait deletePaths at_] in *.
  eapply locks_put; [exact HX1| | |by intros].
  - split; cbn in *; [done| |by destruct Ha as [-> | ->]|by destruct Ha as [-> | ->]].
    assert (is_file (files s) ino x) as (g & Hg & Hx) by (pose proof (po_at _ _ _ _ HP) as Hat0; by destruct Ha as [-> | ->]).
    rewrite Hf in Hg. injection Hg as <-. eexists. rewrite lookup_insert_eq. by split.
  - cbn. intros n g Hg Hh. destruct (decide (n = ino)) as [->|Hn]; [by right|]. rewrite lookup_insert_ne in Hg by done.
    destruct (Hmay n g Hg Hh) as [?|Hm]; [by left|by destruct Ha as [-> | ->]].
Qed.

Lemma moved_Inv a a' : proc s i = mkProc a l w del ->
  at_ok (files s) i a' l -> kept_fds (mkProc a' l w del) ⊆ kept_fds (mkProc a l w del) -> StronglySorted before (l.*2 ++ to_lock a') ->
  (forall n, may_hold (mkProc a l w del) n -> may_hold (mkProc a' l w del) n) -> (forall n, ~ unlinking (mkProc a l w del) n) ->
  Inv (goto i a' s).
Proof.
  intros Hp Hat Hk Hs Hm Hu. pose proof (inv_procs _ HI i) as HP. pose proof (Inv_drop i s HI) as HX. rewrite Hp in HX, HP.
  rewrite (goto_eq i _ s) by done. rewrite Hp. cbn [fds wait deletePaths] in *. destruct HP as [Hheld _ Hgood _].
  eapply locks_put; [exact HX| | |by intros n ?%Hu].
  - split; try done. intros ino x Hin. by apply Hgood, Hk.
  - intros n f Hf Hh. apply Hm. rewrite <- Hp. by eapply inv_holder.
Qed.

Lemma stat_Inv ino x rest f : proc s i = mkProc (Stat ino x rest) l w del -> files s !! ino = Some f -> lf_size f = 0 ->
  Inv (set_proc i (mkProc (next_path rest) (l ++ [(ino, x)]) w del) s).
Proof.
  intros Hp Hf Hsz. pose proof (inv_procs _ HI i) as HP. pose proof (Inv_drop i s HI) as HX. rewrite Hp in HX, HP.
  pose proof (fun ino f => inv_holder _ HI ino f i) as Hmay. rewrite Hp in Hmay. destruct HP as [Hheld Hat Hgood Hsorted]. cbn [at_ fds to_lock at_ok] in *.
  destruct Hat as (g & Hg & Hx & Hh). rewrite Hf in Hg. injection Hg as <-.
  assert (good (dir s) (files s) ino x) as Hgx.
  { exists f. split; [done|]. split; [done|]. rewrite <- Hx. destruct (inv_linked _ HI ino f Hf) as [?|[?|(j & Hu)]]; [done|done|].
    assert (j = i) as ->; [|by rewrite Hp in Hu]. unfold unlinking in Hu. destruct (at_ (proc s j)); try done. destruct (fds (proc s j)) as [|[o y] l'] eqn:Hl; [done|]. subst o.
    destruct (po_held _ _ _ _ (inv_procs _ HI j) ino y) as (g & Hg & _ & Hgh); [rewrite Hl; by left|]. congruence. }
  eapply locks_put; [exact HX| |..].
  - split; cbn [at_ fds].
    + intros n y [Hin|Hin]%elem_of_app; [by apply Hheld|]. apply list_elem_of_singleton in Hin as [= -> ->]. by exists f.
    + by destruct rest.
    + assert (kept_fds (mkProc (next_path rest) (l ++ [(ino, x)]) w del) = l ++ [(ino, x)]) as -> by (by destruct rest).
      intros n y [Hin|Hin]%elem_of_app; [by apply Hgood|]. by apply list_elem_of_singleton in Hin as [= -> ->].
    + rewrite fmap_app, <- app_assoc. replace ((_ <$> [(ino, x)]) ++ to_lock (next_path rest)) with (x :: rest); [done|]. by destruct rest.
  - intros n g Hg Hgh. destruct (Hmay n g Hg Hgh) as [Hin|Hm]; left; cbn; rewrite fmap_app, elem_of_app; [by left|right]. cbn in *. subst n. by left.
  - intros n Hn. by destruct Hn.
Qed.

Lemma unlink_Inv failed ino x l' ok : proc s i = mkProc (Unlock failed) l w del -> l = (ino, x) :: l' ->
  Inv (goto i (WriteToken failed) (tryUnlink ok x s)).
Proof.
  intros Hp Hl. pose proof (inv_procs _ HI i) as HP. pose proof (Inv_drop i s HI) as HX. rewrite Hp in HX, HP.
  pose proof (fun ino f => inv_holder _ HI ino f i) as Hmay. rewrite Hp in Hmay.
  apply (InvX_ext _ _ (fun _ => False)) in HX; [|by intros n Hn].
  pose proof (fun n y Hin => head_apart _ _ _ _ _ _ l' n y HP Hl Hin) as Hapart. destruct HP as [Hheld _ Hgood Hsorted]. cbn [at_ fds to_lock] in *.
  assert ((ino, x) ∈ l) as Hin by (rewrite Hl; by left).
  rewrite (goto_eq i _ s) by (by destruct ok). rewrite Hp. cbn [fds wait deletePaths].
  assert (files (tryUnlink ok x s) = files s) as Hfs by (by destruct ok).
  eapply locks_put; [apply (InvX_unlink _ _ ino); [done|by apply Hheld|by apply Hgood]| | |].
  - rewrite Hfs. split; cbn [at_ fds to_lock at_ok kept_fds]; [done|by rewrite Hl| |done]. rewrite Hl. cbn [tail]. intros n y Hny.
    destruct (Hapart n y Hny) as [_ Hyx]. destruct (Hgood n y) as (f & Hf & Hsz & Hd); [cbn; rewrite Hl; by right|]. exists f.
    split; [done|]. split; [done|]. destruct ok; [|done]. cbn. by rewrite lookup_delete_ne.
  - rewrite Hfs. intros n f Hf Hh. destruct (Hmay n f Hf Hh) as [?|Hm]; [by left|done].
  - intros n ->. unfold unlinking. cbn. by rewrite Hl.
Qed.

Lemma token_Inv failed ino x l' : proc s i = mkProc (WriteToken failed) l w del -> l = (ino, x) :: l' ->
  Inv (goto i (Close failed) (write_token ino s)).
Proof.
  intros Hp Hl. pose proof (inv_procs _ HI i) as HP. pose proof (Inv_drop i s HI) as HX. rewrite Hp in HX, HP.
  pose proof (fun ino f => inv_holder _ HI ino f i) as Hmay. rewrite Hp in Hmay.
  pose proof (fun n y Hin => head_apart _ _ _ _ _ _ l' n y HP Hl Hin) as Hapart. destruct HP as [Hheld _ Hgood Hsorted]. cbn [at_ fds to_lock] in *.
  assert (held (files s) i ino x) as Hh0 by (apply Hheld; rewrite Hl; by left).
  pose proof (InvX_token _ _ _ _ _ HX Hh0) as HX'. destruct Hh0 as (f0 & Hf0 & Hx0 & Hh0).
  assert (write_token ino s = set_file ino (mkLockFile (lf_path f0) (lf_size f0 `max` 1) (lf_holder f0)) s) as Hw by (unfold write_token; by rewrite Hf0).
  rewrite (goto_eq i _ s) by (by rewrite Hw). rewrite Hp. cbn [fds wait deletePaths].
  eapply locks_put; [apply HX'; unfold unlinking; cbn; by rewrite Hl| | |by intros]; rewrite Hw; cbn [files dir set_file].
  - split; cbn [at_ fds to_lock at_ok kept_fds]; [|by rewrite Hl| |done].
    + intros n y Hny. destruct (Hheld n y Hny) as (f & Hf & Hx & Hh). destruct (decide (n = ino)) as [->|Hn].
      * eexists. rewrite lookup_insert_eq. split; [done|]. cbn. by rewrite Hf0 in Hf; injection Hf as <-.
      * exists f. by rewrite lookup_insert_ne.
    + rewrite Hl. cbn [tail]. intros n y Hny. destruct (Hapart n y Hny) as [Hn _].
      destruct (Hgood n y) as (f & Hf & Hsz & Hd); [cbn; by rewrite Hl|]. exists f. by rewrite lookup_insert_ne.
  - intros n f Hf Hh. destruct (decide (n = ino)) as [->|Hn]; [|rewrite lookup_insert_ne in Hf by done];
      [destruct (Hmay ino f0 Hf0 Hh0) as [?|Hm]|destruct (Hmay n f Hf Hh) as [?|Hm]]; [by left|done|by left|done].
Qed.

Lemma close_Inv failed ino x l' : proc s i = mkProc (Close failed) l w del -> l = (ino, x) :: l' ->
  Inv (set_proc i (mkProc (Unlock failed) l' w del) (close_fd i ino s)).
Proof.
  intros Hp Hl. pose proof (inv_procs _ HI i) as HP. pose proof (Inv_drop i s HI) as HX. rewrite Hp in HX, HP.
  pose proof (fun ino f => inv_holder _ HI ino f i) as Hmay. rewrite Hp in Hmay.
  apply (InvX_ext _ _ (fun _ => False)) in HX; [|by intros n Hn].
  pose proof (fun n y Hin => head_apart _ _ _ _ _ _ l' n y HP Hl Hin) as Hapart. destruct HP as [Hheld _ Hgood Hsorted]. cbn [at_ fds to_lock] in *.
  eapply locks_put; [by apply InvX_close| | |by intros].
  - split; cbn [at_ fds to_lock at_ok kept_fds]; [|done| |].
    + intros n y Hny. apply close_held; [apply Hheld; rewrite Hl; by right|by apply (Hapart n y)].
    + intros n y Hny. apply close_good, Hgood. cbn. by rewrite Hl.
    + rewrite Hl in Hsorted. cbn in Hsorted. by apply StronglySorted_inv in Hsorted as [? _].
  - intros n f Hf Hh. destruct (close_holder _ _ _ _ _ Hf Hh) as [Hn Hf']. destruct (Hmay n f Hf' Hh) as [Hin|Hm]; [left|done].
    cbn in *. rewrite Hl in Hin. cbn in Hin. by apply elem_of_cons in Hin as [?|?].
Qed.
End step_cases.

Lemma step_Inv c i s s' : Inv s -> interrupted c = false -> step c i s = Some s' -> Inv s'.
Proof.
  intros HI Hint Hs. pose proof (po_at _ _ _ _ (inv_procs _ HI i)) as Hat. pose proof (po_sorted _ _ _ _ (inv_procs _ HI i)) as Hso.
  unfold step in Hs. destruct (proc s i) as [a l w del] eqn:Hp. cbn [at_ fds wait deletePaths] in *.
  destruct a as [|stale x rest|o ino x rest|ino x rest|ino x rest|ino x rest| |failed|failed|failed|]; try done.
  - destruct (openLockFile x s) as [ino s1] eqn:Ho. injection Hs as <-. by eapply open_Inv.
  - injection Hs as <-. by eapply closeStale_Inv.
  - destruct (flock i ino s) as [s1|] eqn:Hf; injection Hs as <-; [eapply locked_Inv; [done|done|by left|done]|].
    destruct w; (eapply moved_Inv; [done|done|done|done| |intros n [?|?]; [by left|done]|by intros n Hn]); [done|by eapply ssorted_l].
  - rewrite Hint in Hs. destruct (flock i ino s) as [s1|] eqn:Hf; [|done]. injection Hs as <-. eapply locked_Inv; [done|done|by right|done].
  - destruct (files s !! ino) as [f|] eqn:Hf; [|done]. cbn in Hs. injection Hs as <-. destruct (Nat.eqb_spec (lf_size f) 0).
    + by eapply stat_Inv.
    + eapply moved_Inv; [done|done|done|done|done|intros m [?|?]; [by left|by right]|by intros m Hm].
  - injection Hs as <-. destruct l as [|[ino x] l']; [|destruct del].
    + destruct failed; (eapply moved_Inv; [done|done|done|done|done|intros n Hn; exact Hn|by intros n Hn]).
    + by eapply unlink_Inv.
    + eapply moved_Inv; [done|done|done|by intros e He; right|done|intros n [?|?]; [by left|done]|by intros n Hn].
  - destruct l as [|[ino x] l']; [done|]. injection Hs as <-. by eapply token_Inv.
  - destruct l as [|[ino x] l']; [done|]. injection Hs as <-. by eapply close_Inv.
Qed.

Lemma in_order_sorted l : in_order l = true -> StronglySorted before l.
Proof.
  induction l as [|x l IH]; [constructor|]. cbn. intros [Hf Hl]%andb_true_iff. constructor; [by apply IH|].
  apply Forall_forall. intros y Hy. rewrite List.forallb_forall in Hf. eapply bool_decide_eq_true, Hf. by apply list_elem_of_In.
Qed.

(** A process without open files calls [lockPaths], or changes a flag. *)
Lemma call_Inv i s a l w del p' : Inv s -> proc s i = mkProc a l w del ->
  (a = Idle \/ a = Refused) /\ (exists paths, in_order paths = true /\ at_ p' = next_path paths) /\ fds p' = [] \/
  (a = Idle \/ a = Refused \/ a = Locked) /\ at_ p' = a /\ fds p' = l ->
  Inv (set_proc i p' s).
Proof.
  intros HI Hp Hcase. pose proof (inv_procs _ HI i) as HP. pose proof (Inv_drop i s HI) as HX. rewrite Hp in HX, HP.
  pose proof (fun ino f => inv_holder _ HI ino f i) as Hmay. rewrite Hp in Hmay. destruct HP as [Hheld Hat Hgood Hsorted]. cbn [at_ fds] in *.
  destruct p' as [a' l' w' del']. cbn [at_ fds] in *.
  assert (forall n, ~ unlinking (mkProc a l w del) n) as Hnu by (intros n Hn; destruct Hcase as [[[-> | ->] _]|[[-> |[-> | ->]] _]]; done).
  destruct Hcase as [(Ha & (paths & Hord & ->) & ->)|(Ha & -> & ->)].
  - assert (l = []) as -> by (by destruct Ha as [-> | ->]). eapply locks_put; [exact HX| | |by intros n ?%Hnu].
    + split; cbn [at_ fds]; [by intros n x ?%not_elem_of_nil|by destruct paths| |].
      * intros n x Hn. apply kept_in in Hn. by apply not_elem_of_nil in Hn.
      * replace (to_lock (next_path paths)) with paths by (by destruct paths). by apply in_order_sorted.
    + intros n f Hf Hh. destruct (Hmay n f Hf Hh) as [Hin|Hm]; [by apply not_elem_of_nil in Hin|by destruct Ha as [-> | ->]].
  - eapply locks_put; [exact HX| | |by intros n ?%Hnu].
    + split; cbn [at_ fds]; [done|done| |done]. intros n x Hn. apply Hgood. by destruct Ha as [-> |[-> | ->]].
    + intros n f Hf Hh. destruct (Hmay n f Hf Hh) as [Hin|Hm]; [by left|by right].
Qed.

Lemma die_Inv i s : Inv s -> orderly (Die i) s ->
  Inv (mkState (dir s) ((fun f => if decide (lf_holder f = Some i) then mkLockFile (lf_path f) (lf_size f) None else f) <$> files s)
         (next_ino s) (delete i (procs s))).
Proof.
  intros HI Ho. pose proof HI as []. set (g := fun f : LockFile => _).
  assert (forall f, lf_path (g f) = lf_path f /\ lf_size (g f) = lf_size f) as Hg by (intros f; unfold g; by case_decide).
  assert (forall f j, lf_holder (g f) = Some j -> j <> i /\ lf_holder f = Some j) as Hh.
  { intros f j. unfold g. case_decide; [done|]. intros Hj. split; [|done]. intros ->. done. }
  assert (forall f j, j <> i -> lf_holder f = Some j -> lf_holder (g f) = Some j) as Hh'.
  { intros f j Hj Hf. unfold g. case_decide; [congruence|done]. }
  assert (forall j, proc (mkState (dir s) (g <$> files s) (next_ino s) (delete i (procs s))) j = if decide (j = i) then idle else proc s j) as Hpr.
  { intros j. unfold proc. cbn. case_decide as Hj; [subst; by rewrite lookup_delete_eq|by rewrite lookup_delete_ne]. }
  split; cbn [dir files next_ino].
  - intros j. rewrite Hpr. case_decide as Hj.
    + split; cbn; try done; try by intros n x ?%not_elem_of_nil. constructor.
    + apply (proc_ok_frame (dir s) (files s)); [|done|done]. intros n f Hf. exists (g f). rewrite lookup_fmap, Hf. destruct (Hg f). split; [done|]. split; [done|]. auto.
  - intros n f j Hf Hj. rewrite lookup_fmap in Hf. destruct (files s !! n) as [f0|] eqn:Hf0; [|done]. cbn in Hf. injection Hf as <-.
    destruct (Hh _ _ Hj). rewrite Hpr, decide_False by done. eauto.
  - intros x n Hd. destruct (inv_dir0 x n Hd) as (f & Hf & Hx). exists (g f). rewrite lookup_fmap, Hf. split; [done|]. destruct (Hg f). congruence.
  - intros n Hn. by rewrite lookup_fmap, inv_fresh0.
  - intros n f Hf. rewrite lookup_fmap in Hf. destruct (files s !! n) as [f0|] eqn:Hf0; [|done]. cbn in Hf. injection Hf as <-.
    destruct (Hg f0) as [-> ->]. destruct (inv_linked0 n f0 Hf0) as [?|[?|(j & Hj)]]; [by left|by right; left|right; right].
    exists j. rewrite Hpr. case_decide as Hji; [|done]. subst j. cbn in Ho. unfold unlinking in Hj. by destruct (at_ (proc s i)).
Qed.

Lemma event_Inv e s s' : Inv s -> orderly e s -> event e s = Some s' -> Inv s'.
Proof.
  intros HI Ho He. destruct e as [c i|i paths w|i b|i|i]; cbn in He, Ho.
  - by eapply step_Inv.
  - destruct (in_order paths) eqn:Hord; [|done]. destruct (proc s i) as [a l w' del] eqn:Hp. cbn in He.
    destruct a; try done; injection He as <-; (eapply call_Inv; [done|done|left]; cbn; eauto 10).
  - destruct (proc s i) as [a l w' del] eqn:Hp. cbn in He. destruct a; try done; injection He as <-; (eapply call_Inv; [done|done|right]; cbn; auto).
  - destruct (proc s i) as [a l w' del] eqn:Hp. cbn in He. destruct a; try done. injection He as <-.
    pose proof (po_sorted _ _ _ _ (inv_procs _ HI i)) as Hso. rewrite Hp in Hso.
    eapply moved_Inv; [done|done|done|done|done|intros n [?|?]; [by left|done]|by intros n Hn].
  - injection He as <-. by apply die_Inv.
Qed.

Lemma locks_start : Inv start.
Proof.
  split; cbn; try done.
  intros i. unfold proc. cbn. rewrite lookup_empty. split; cbn; try done; try by intros n x ?%not_elem_of_nil. constructor.
Qed.

Lemma locks_run evs s s' : Inv s -> orderly_run evs s -> run evs s = Some s' -> Inv s'.
Proof.
  revert s; induction evs as [|e evs IH]; cbn; intros s HI Ho Hr; [by injection Hr as <-|]. destruct Ho as [Ho Hos].
  destruct (event e s) as [s1|] eqn:He; [|done]. cbn in Hr. apply (IH s1); [by eapply event_Inv|done|done].
Qed.

Lemma Inv_exclusive s i j x : Inv s -> owns s i x -> owns s j x -> i = j.
Proof.
  intros HI (e1 & -> & H1)%list_elem_of_fmap (e2 & Hx & H2)%list_elem_of_fmap. destruct e1 as [n1 x1], e2 as [n2 x2]. cbn in Hx. subst x2.
  destruct (po_good _ _ _ _ (inv_procs _ HI i) n1 x1 H1) as (_ & _ & _ & Hd1). destruct (po_good _ _ _ _ (inv_procs _ HI j) n2 x1 H2) as (_ & _ & _ & Hd2).
  rewrite Hd1 in Hd2. injection Hd2 as <-.
  destruct (po_held _ _ _ _ (inv_procs _ HI i) n1 x1 (kept_in _ _ H1)) as (f1 & Hf1 & _ & Hh1).
  destruct (po_held _ _ _ _ (inv_procs _ HI j) n1 x1 (kept_in _ _ H2)) as (f2 & Hf2 & _ & Hh2). congruence.
Qed.

(** ** There is always a step *)

Definition blocked (s : State) (i : nat) (x : Path) : Prop :=
  exists ino rest f k, at_ (proc s i) = WaitLock ino x rest /\ files s !! ino = Some f /\ lf_holder f = Some k.
Definition unoccupied (a : At) : Prop := match a with Idle | Refused => True | _ => False end.
Definition can_step (s : State) : Prop := exists i s', step (mkChoice true false) i s = Some s'.

Lemma steps s i : Inv s -> ~ unoccupied (at_ (proc s i)) -> at_ (proc s i) = Locked \/ can_step s \/ exists x, blocked s i x.
Proof.
  intros HI Hu. pose proof (po_at _ _ _ _ (inv_procs _ HI i)) as Hat. destruct (proc s i) as [a l w del] eqn:Hp. cbn in *.
  assert (is_Some (step (mkChoice true false) i s) -> can_step s) as Hcan by (intros [s' ?]; by exists i, s').
  unfold step in Hcan. rewrite Hp in Hcan. cbn in Hcan. destruct a as [|stale x rest|o ino x rest|ino x rest|ino x rest|ino x rest| |failed|failed|failed|]; cbn in Hat; try done.
  - right; left. apply Hcan. destruct (openLockFile x s). by eexists.
  - right; left. apply Hcan. by eexists.
  - right; left. apply Hcan. by eexists.
  - destruct Hat as (f & Hf & _). unfold flock in Hcan. rewrite Hf in Hcan. cbn in Hcan. destruct (lf_holder f) as [k|] eqn:Hh.
    + right; right. exists x, ino, rest, f, k. by rewrite Hp.
    + right; left. apply Hcan. by eexists.
  - destruct Hat as (f & Hf & _). rewrite Hf in Hcan. cbn in Hcan. right; left. apply Hcan. by eexists.
  - by left.
  - right; left. apply Hcan. by eexists.
  - destruct l as [|[ino x] l']; [done|]. right; left. apply Hcan. by eexists.
  - destruct l as [|[ino x] l']; [done|]. right; left. apply Hcan. by eexists.
Qed.

(** Who holds the file a process waits for has it on its list, and waits only
    for what comes later. *)
Lemma blocked_holder s i x : Inv s -> blocked s i x ->
  exists k, ~ unoccupied (at_ (proc s k)) /\ forall y, blocked s k y -> before x y.
Proof.
  intros HI (ino & rest & f & k & Hai & Hf & Hh). exists k. pose proof (inv_holder _ HI ino f k Hf Hh) as Hm.
  pose proof (inv_procs _ HI k) as HPk. pose proof (po_at _ _ _ _ (inv_procs _ HI i)) as Hx. rewrite Hai in Hx. cbn in Hx.
  split.
  - intros Hu. pose proof (po_at _ _ _ _ HPk) as Hak. destruct Hm as [Hm|Hm]; destruct (at_ (proc s k)); try done; cbn in Hak; rewrite Hak in Hm; by apply not_elem_of_nil in Hm.
  - intros y (ino' & rest' & f' & k' & Hak & _). unfold may_hold in Hm. rewrite Hak in Hm. destruct Hm as [Hm|Hm]; [|done].
    apply list_elem_of_fmap in Hm as ([n z] & -> & Hin). cbn in *. pose proof (held_fun _ _ _ _ _ _ _ HPk Hin Hx) as <-.
    pose proof (po_sorted _ _ _ _ HPk) as Hs. rewrite Hak in Hs. cbn in Hs.
    apply (list_elem_of_fmap_2 snd) in Hin. cbn in Hin. apply list_elem_of_split in Hin as (l1 & l2 & Hl). rewrite Hl in Hs. rewrite <- app_assoc in Hs.
    apply (sorted_after _ _ _ _ Hs), elem_of_app. right. left.
Qed.

Lemma Inv_no_deadlock s i : Inv s -> ~ unoccupied (at_ (proc s i)) -> (exists k, at_ (proc s k) = Locked) \/ can_step s.
Proof.
  intros HI Hu. set (waits := fun p : Proc => match at_ p with WaitLock _ x _ => Some x | _ => None end).
  set (X := list_to_set (omap waits (map_to_list (procs s)).*2) : gset Path).
  assert (forall k x, blocked s k x -> x ∈ X) as HX.
  { intros k x (ino & rest & f & k' & Ha & _). apply elem_of_list_to_set, list_elem_of_omap. unfold proc in Ha. destruct (procs s !! k) as [p|] eqn:Hk; [|done].
    exists p. split; [|unfold waits; cbn in Ha; by rewrite Ha]. apply list_elem_of_fmap. exists (k, p). split; [done|by apply elem_of_map_to_list]. }
  destruct (steps s i HI Hu) as [?|[?|[x0 Hb]]]; [left; by exists i|by right|].
  assert (X ≠ ∅) as Hne by (intros Hn; by apply HX in Hb; rewrite Hn in Hb; apply not_elem_of_empty in Hb).
  destruct (minimal_exists_elem_of_L (flip before) X Hne) as (x & Hx & Hmin).
  apply elem_of_list_to_set, list_elem_of_omap in Hx as (p & Hp & Hw). apply list_elem_of_fmap in Hp as ([k p'] & -> & Hk%elem_of_map_to_list). cbn in Hw.
  assert (proc s k = p') as Hpk by (unfold proc; by rewrite Hk). unfold waits in Hw. destruct (at_ p') as [| | | |ino y rest| | | | | |] eqn:Ha; try done. injection Hw as ->.
  rewrite <- Hpk in Ha. assert (~ unoccupied (at_ (proc s k))) as Hku by (rewrite Ha; intros HH; exact HH). destruct (steps s k HI Hku) as [?|[?|[y Hy]]]; [left; by exists k|by right|].
  assert (y = x) as -> by (destruct Hy as (? & ? & ? & ? & Ha' & _); congruence).
  destruct (blocked_holder s k x HI Hy) as (h & Hh & Hlater). destruct (steps s h HI Hh) as [?|[?|[y Hy']]]; [left; by exists h|by right|].
  pose proof (Hlater y Hy') as Hxy. pose proof (Hmin y (HX _ _ Hy') Hxy) as Hyx. cbn in Hyx.
  destruct (irreflexivity before x). by trans y.
Qed.
End locks.

(** ** The properties *)

(** Two processes and two paths: the second waits for a file that the first
    deletes before it gives up its lock. *)
Definition call (i : nat) (paths : list nat) : Event (Path := nat) := LockPaths i paths true.
Definition turn (i : nat) : Event (Path := nat) := Step (mkChoice true false) i.
Definition two_paths : list Event :=
  [call 0 [3; 7]; call 1 [7]; turn 0; turn 1; turn 0; turn 1; turn 0; turn 1; turn 0; turn 0; SetDeletion 1 true; Release 1;
   turn 1; turn 1; turn 1; turn 0; turn 1; turn 0; turn 0; turn 0; turn 0; turn 0].
#[local] Instance lt_order : StrictOrder Nat.lt.
Proof. split; [intros x; apply Nat.lt_irrefl|intros x y z; apply Nat.lt_trans]. Qed.

(** C21: mutual exclusion, although the lock files are deleted: however the
    processes take turns, two of them never have the same path locked, and
    the lock file of a path that is locked is in place.  This assumes that no
    signal interrupts a process that waits for a lock and that none dies
    between the two steps of deleting a lock file. *)
Theorem lockPaths_exclusive {Path} `{Countable Path} (before : Path -> Path -> Prop) `{!RelDecision before, !StrictOrder before} evs s i x :
  orderly_run before evs start -> run before evs start = Some s -> owns s i x ->
  (forall j, owns s j x -> i = j) /\
  exists ino f, dir s !! x = Some ino /\ files s !! ino = Some f /\ lf_holder f = Some i /\ lf_size f = 0.
Proof.
  intros Ho Hr Hi. pose proof (locks_run before evs _ _ (locks_start before) Ho Hr) as HI. split; [intros j; by eapply Inv_exclusive|].
  apply list_elem_of_fmap in Hi as ([ino y] & -> & Hin). cbn.
  destruct (po_good _ _ _ _ _ (inv_procs _ _ HI i) _ _ Hin) as (f & Hf & Hs & Hd).
  destruct (po_held _ _ _ _ _ (inv_procs _ _ HI i) _ _ (kept_in _ _ Hin)) as (g & Hg & _ & Hh). exists ino, f.
  rewrite Hf in Hg. injection Hg as <-. done.
Qed.

Lemma lockPaths_exclusive_witness : exists s,
  run Nat.lt two_paths start = Some s /\ at_ (proc s 0) = Locked /\ kept_fds (proc s 0) = [(0, 3); (2, 7)] /\ forall j, owns s j 7 -> 0 = j.
Proof.
  eexists. split; [vm_compute; reflexivity|]. split; [reflexivity|]. split; [reflexivity|].
  refine (proj1 (lockPaths_exclusive Nat.lt two_paths _ 0 7 _ _ _)); [vm_compute; tauto|vm_compute; reflexivity|].
  apply list_elem_of_fmap. exists (2, 7). split; [reflexivity|]. vm_compute. right. left.
Defined.

(** C22: no deadlock: while a process is in [lockPaths] or [unlock], some
    process can take a step, unless one has its locks and has yet to give
    them up. *)
Theorem lockPaths_no_deadlock {Path} `{Countable Path} (before : Path -> Path -> Prop) `{!RelDecision before, !StrictOrder before} evs s i :
  orderly_run before evs start -> run before evs start = Some s -> ~ unoccupied (at_ (proc s i)) ->
  (exists k, at_ (proc s k) = Locked) \/ exists k s', step (mkChoice true false) k s = Some s'.
Proof. intros Ho Hr Hi. exact (Inv_no_deadlock before s i (locks_run before evs _ _ (locks_start before) Ho Hr) Hi). Qed.

Lemma lockPaths_no_deadlock_witness : exists s, run Nat.lt (take 13 two_paths) start = Some s /\ at_ (proc s 0) = WaitLock 1 7 [] /\
  ((exists k, at_ (proc s k) = Locked) \/ exists k s', step (mkChoice true false) k s = Some s').
Proof.
  eexists. split; [vm_compute; reflexivity|]. split; [reflexivity|].
  refine (lockPaths_no_deadlock Nat.lt (take 13 two_paths) _ 0 _ _ _); [vm_compute; tauto|vm_compute; reflexivity|vm_compute; exact (fun H => H)].
Defined.

(** A signal that interrupts the wait makes [lockFile] return [false], which
    [lockPaths] does not look at. *)
Lemma interrupted_wait_is_no_lock : exists s,
  run Nat.lt [call 0 [7]; turn 0; turn 0; turn 0; call 1 [7]; turn 1; turn 1; Step (mkChoice true true) 1; turn 1] start = Some s /\
  owns s 0 7 /\ owns s 1 7.
Proof. eexists. split; [vm_compute; reflexivity|]. split; left. Qed.

(** A process that dies between unlinking a lock file and writing the token
    leaves a file that looks as if it were in place. *)
Lemma died_while_deleting : exists s,
  run Nat.lt [call 0 [7]; turn 0; turn 0; turn 0; call 1 [7]; turn 1; turn 1; SetDeletion 0 true; Release 0; turn 0; Die 0;
       turn 1; turn 1; call 2 [7]; turn 2; turn 2; turn 2] start = Some s /\
  owns s 1 7 /\ owns s 2 7.
Proof. eexists. split; [vm_compute; reflexivity|]. split; left. Qed.

(** If the unlinking fails, whoever locks the path afterwards opens, locks and
    closes the file for ever. *)
Lemma failed_unlink_spins : exists s,
  run Nat.lt [call 0 [7]; turn 0; turn 0; turn 0; SetDeletion 0 true; Release 0; Step (mkChoice false false) 0; turn 0; turn 0; turn 0;
       call 1 [7]; turn 1; turn 1; turn 1] start = Some s /\
  at_ (proc s 1) = Open (Some 0) 7 [] /\ run Nat.lt [turn 1; turn 1; turn 1; turn 1] s = Some s.
Proof. eexists. split; [vm_compute; reflexivity|]. split; vm_compute; reflexivity. Qed.
