(* ===== verification/LRUCache.v ===== *)
(** * LRUCache: the least-recently used cache

    libutil/lru-cache.hh.  An element of the [std::list] is the iterator of a
    map entry and the entry holds the list iterator back; as each key has one
    entry and one list element, both iterators are the key.  [recency] is the
    specification: the entries in the order of their last use. *)

From S2P Require Export Prelude.

Section LRUCache.
Context {K V : Type} `{Countable K}.

Record LRUCache := mkLRU { capacity : nat; data : gmap K V; lru : list K }.

Definition new_LRUCache (capacity : nat) : LRUCache := mkLRU capacity ∅ [].

(** [lru.erase(it)] *)
Definition list_erase (k : K) (l : list K) : list K := filter (fun k' => k' <> k) l.
(** [promote]: splicing to the end. *)
Definition promote (k : K) (l : list K) : list K := list_erase k l ++ [k].

Definition erase (c : LRUCache) (key : K) : bool * LRUCache :=
  match data c !! key with
  | None => (false, c)
  | Some _ => (true, mkLRU (capacity c) (delete key (data c)) (list_erase key (lru c)))
  end.

Definition upsert (c : LRUCache) (key : K) (value : V) : result LRUCache :=
  if (capacity c =? 0)%nat then Ok c
  else
    let c := (erase c key).2 in
    let c := if (capacity c <=? size (data c))%nat
             then match lru c with
                  | oldest :: lru' => mkLRU (capacity c) (delete oldest (data c)) lru'
                  | [] => c
                  end
             else c in
    _ ← assertb (bool_decide (data c !! key = None));
    Ok (mkLRU (capacity c) (<[key := value]> (data c)) (lru c ++ [key])).

(** [get], and [getOrNullptr], whose pointer is to the value in the map. *)
Definition get (c : LRUCache) (key : K) : option V * LRUCache :=
  match data c !! key with
  | None => (None, c)
  | Some value => (Some value, mkLRU (capacity c) (data c) (promote key (lru c)))
  end.

Definition cache_size (c : LRUCache) : nat := size (data c).
Definition clear (c : LRUCache) : LRUCache := mkLRU (capacity c) ∅ [].

(** ** Specification *)

Record wf (c : LRUCache) : Prop := {
  wf_NoDup : NoDup (lru c);
  wf_keys : forall k, k ∈ lru c <-> is_Some (data c !! k);
  wf_size : (size (data c) <= capacity c)%nat;
}.

(** The entries, least recently used first. *)
Definition entries (d : gmap K V) (l : list K) : list (K * V) :=
  omap (fun k => (fun v => (k, v)) <$> d !! k) l.
Definition recency (c : LRUCache) : list (K * V) := entries (data c) (lru c).

Definition without (k : K) (l : list (K * V)) : list (K * V) := filter (fun e => e.1 <> k) l.

Definition spec_upsert (cap : nat) (l : list (K * V)) (k : K) (v : V) : list (K * V) :=
  if (cap =? 0)%nat then l
  else let l := without k l in (if (cap <=? length l)%nat then drop 1 l else l) ++ [(k, v)].

Definition spec_lookup (k : K) (l : list (K * V)) : option V := list_to_map (M := gmap K V) l !! k.

Definition spec_get (l : list (K * V)) (k : K) : option V * list (K * V) :=
  match spec_lookup k l with
  | Some v => (Some v, without k l ++ [(k, v)])
  | None => (None, l)
  end.

Definition spec_erase (l : list (K * V)) (k : K) : bool * list (K * V) :=
  match spec_lookup k l with Some _ => (true, without k l) | None => (false, l) end.

(** *** Lemmas *)

Lemma new_wf n : wf (new_LRUCache n).
Proof. split; cbn; [constructor| |rewrite map_size_empty; lia]. intros k. rewrite lookup_empty. set_solver. Qed.

Lemma wf_length c : wf c -> length (lru c) = size (data c).
Proof.
  intros [Hnd Hk _]. rewrite <- size_dom, <- (size_list_to_set (C := gset K) (lru c) Hnd).
  f_equal. apply set_eq. intros k. by rewrite elem_of_list_to_set, Hk, elem_of_dom.
Qed.

Lemma entries_cons d k l :
  entries d (k :: l) = match d !! k with Some v => (k, v) :: entries d l | None => entries d l end.
Proof. unfold entries. cbn. by destruct (d !! k). Qed.
Lemma entries_app d l1 l2 : entries d (l1 ++ l2) = entries d l1 ++ entries d l2.
Proof. apply omap_app. Qed.

Lemma recency_ext (d d' : gmap K V) (l : list K) :
  (forall k, k ∈ l -> d !! k = d' !! k) ->
  entries d l = entries d' l.
Proof.
  induction l as [|k l IH]; intros Hd; [done|].
  rewrite !entries_cons, (Hd k ltac:(left)), IH by (intros; apply Hd; by right). done.
Qed.

Lemma recency_keys c : wf c -> (recency c).*1 = lru c.
Proof.
  intros [_ Hk _]. unfold recency. assert (forall k, k ∈ lru c -> is_Some (data c !! k)) as Hs by (intros; by apply Hk).
  clear Hk. revert Hs. generalize (lru c) as l. induction l as [|k l IH]; intros Hs; [done|].
  rewrite entries_cons. destruct (Hs k ltac:(left)) as [v ->]. rewrite fmap_cons. f_equal. apply IH. intros k' ?. apply Hs. by right.
Qed.

Lemma recency_length c : wf c -> length (recency c) = size (data c).
Proof. intros Hw. rewrite <- wf_length, <- recency_keys, length_fmap by done. done. Qed.

Lemma recency_lookup c k : wf c -> spec_lookup k (recency c) = data c !! k.
Proof.
  intros Hw. unfold spec_lookup. destruct (data c !! k) as [v|] eqn:Hd.
  - apply elem_of_list_to_map; [rewrite recency_keys by done; apply Hw|].
    unfold recency, entries. apply list_elem_of_omap. exists k. rewrite Hd. split; [|done]. apply (wf_keys _ Hw). by eexists.
  - apply not_elem_of_list_to_map. rewrite recency_keys by done. intros Hin%(wf_keys _ Hw). rewrite Hd in Hin. by destruct Hin.
Qed.

Lemma recency_without (d : gmap K V) k (l : list K) :
  entries d (list_erase k l) = without k (entries d l).
Proof.
  unfold list_erase, without. induction l as [|k' l IH]; [done|]. rewrite filter_cons, (entries_cons d k' l).
  destruct (decide (k' = k)) as [->|Hne].
  - rewrite decide_False by (intros Hc; by apply Hc). rewrite IH. destruct (d !! k); [|done].
    rewrite filter_cons, decide_False by (cbn; intros Hc; by apply Hc). done.
  - rewrite decide_True by done. rewrite entries_cons, IH. destruct (d !! k'); [|done].
    by rewrite filter_cons, decide_True.
Qed.

Lemma list_erase_NoDup k l : NoDup l -> NoDup (list_erase k l).
Proof. apply NoDup_filter. Qed.

Lemma elem_of_list_erase k k' l : k' ∈ list_erase k l <-> k' <> k /\ k' ∈ l.
Proof. unfold list_erase. by rewrite list_elem_of_filter. Qed.

Lemma list_erase_id k l : k ∉ l -> list_erase k l = l.
Proof.
  unfold list_erase. induction l as [|k' l IH]; [done|]. intros Hn. rewrite filter_cons, decide_True by set_solver.
  rewrite IH by set_solver. done.
Qed.

(** Erasing, spelled out. *)
Lemma erase_snd c k :
  wf c -> (erase c k).2 = mkLRU (capacity c) (delete k (data c)) (list_erase k (lru c)).
Proof.
  intros Hw. unfold erase. destruct (data c !! k) eqn:Hd; [done|]. cbn [snd].
  rewrite delete_id, list_erase_id by (try done; intros Hin%(wf_keys _ Hw); rewrite Hd in Hin; by destruct Hin).
  by destruct c.
Qed.

Lemma erase_wf c k : wf c -> wf (erase c k).2.
Proof.
  intros Hw. rewrite erase_snd by done. pose proof Hw as [Hnd Hk Hs].
  split; cbn [lru data capacity].
  - by apply list_erase_NoDup.
  - intros k'. rewrite elem_of_list_erase, Hk, lookup_delete_is_Some. naive_solver.
  - etrans; [|exact Hs]. rewrite <- !size_dom. apply subseteq_size. rewrite dom_delete_L. set_solver.
Qed.

Lemma erase_recency c k : wf c -> recency (erase c k).2 = without k (recency c).
Proof.
  intros Hw. rewrite erase_snd by done. unfold recency at 1; cbn [data lru].
  rewrite (recency_ext _ (data c)).
  - apply recency_without.
  - intros k' [Hne _]%elem_of_list_erase. by rewrite lookup_delete_ne.
Qed.

(** Retiring the oldest entry. *)
Definition retire (c : LRUCache) : LRUCache :=
  match lru c with
  | oldest :: lru' => mkLRU (capacity c) (delete oldest (data c)) lru'
  | [] => c
  end.

Lemma retire_spec c :
  wf c -> wf (retire c) /\ recency (retire c) = drop 1 (recency c) /\ size (data (retire c)) = (size (data c) - 1)%nat.
Proof.
  intros Hw. pose proof (wf_length _ Hw) as Hlen. pose proof Hw as [Hnd Hk Hs]. unfold retire.
  destruct (lru c) as [|o l] eqn:Hl.
  - split; [done|]. unfold recency. rewrite Hl. split; [done|]. simpl in Hlen. lia.
  - assert (is_Some (data c !! o)) as [v Hv] by (apply Hk; left). apply NoDup_cons in Hnd as [Ho Hnd].
    assert (size (delete o (data c)) = (size (data c) - 1)%nat) as Hsz by (rewrite map_size_delete_Some by eauto; lia).
    split; [|split].
    + split; cbn [lru data capacity]; [done| |lia].
      intros k. rewrite lookup_delete_is_Some, <- Hk, elem_of_cons. split; [|naive_solver].
      intros Hin. split; [|by right]. intros ->. done.
    + unfold recency; cbn [data lru]. rewrite Hl, entries_cons, Hv. cbn [drop].
      apply recency_ext. intros k Hin. rewrite lookup_delete_ne; [done|]. intros ->. done.
    + done.
Qed.

Lemma upsert_spec c k v :
  wf c -> exists c', upsert c k v = Ok c' /\ wf c' /\ capacity c' = capacity c /\
    recency c' = spec_upsert (capacity c) (recency c) k v.
Proof.
  intros Hw. unfold upsert, spec_upsert. destruct (Nat.eqb_spec (capacity c) 0) as [H0|H0]; [by exists c|].
  pose proof (erase_wf c k Hw) as Hw1. pose proof (erase_recency c k Hw) as Hr1.
  assert (capacity (erase c k).2 = capacity c) as Hc1 by (by rewrite erase_snd).
  assert (data (erase c k).2 !! k = None) as Hk1 by (rewrite erase_snd by done; apply lookup_delete_eq).
  rewrite <- Hr1, recency_length, <- Hc1 by done. rewrite <- Hc1 in H0. revert Hw1 Hk1 H0. clear.
  generalize ((erase c k).2) as c1. intros c1 Hw1 Hk1 H0. fold (retire c1).
  pose proof (retire_spec c1 Hw1) as (Hw2 & Hr2 & Hs2).
  assert (capacity (retire c1) = capacity c1) as Hc2 by (unfold retire; by destruct (lru c1)).
  assert (data (retire c1) !! k = None) as Hk2.
  { unfold retire. destruct (lru c1); [done|]. cbn. apply lookup_delete_None. auto. }
  set (c2 := if (capacity c1 <=? size (data c1))%nat then retire c1 else c1).
  assert (wf c2 /\ data c2 !! k = None /\ capacity c2 = capacity c1 /\ (size (data c2) < capacity c1)%nat /\
    recency c2 = if (capacity c1 <=? size (data c1))%nat then drop 1 (recency c1) else recency c1)
    as (Hw3 & Hk3 & Hc3 & Hs3 & Hr3).
  { unfold c2. pose proof (wf_size _ Hw1). destruct (Nat.leb_spec (capacity c1) (size (data c1))); repeat split; auto; try apply Hw2; try apply Hw1; lia. }
  rewrite bool_decide_true by done. cbn [assertb throw_if negb mbind result_bind].
  eexists. split; [done|]. assert (k ∉ lru c2) as Hn by (intros Hin%(wf_keys _ Hw3); rewrite Hk3 in Hin; by destruct Hin).
  split; [split; cbn [lru data capacity]|split; [done|]].
  - apply NoDup_app. split; [apply Hw3|]. split; [set_solver|apply NoDup_singleton].
  - intros k'. rewrite elem_of_app, list_elem_of_singleton, lookup_insert_is_Some, (wf_keys _ Hw3).
    destruct (decide (k = k')); naive_solver.
  - rewrite map_size_insert_None by done. lia.
  - rewrite <- Hr3. unfold recency; cbn [data lru]. rewrite entries_app, entries_cons, lookup_insert_eq. f_equal.
    apply recency_ext. intros k' Hin. rewrite lookup_insert_ne; [done|]. intros ->. done.
Qed.

(** What the map holds afterwards. *)
Lemma upsert_data c c' k v k' v' :
  upsert c k v = Ok c' -> data c' !! k' = Some v' -> (k' = k /\ v' = v) \/ data c !! k' = Some v'.
Proof.
  unfold upsert. destruct (capacity c =? 0)%nat; [intros [= <-]; by right|]. fold (retire (erase c k).2).
  intros (_ & _ & [= <-])%bind_Ok. cbn [data]. rewrite lookup_insert_Some. intros [[<- <-]|[_ Hl]]; [by left|right].
  assert (data (erase c k).2 !! k' = Some v') as He.
  { destruct (_ <=? _)%nat; [|done]. unfold retire in Hl. destruct (lru _); [done|]. cbn [data] in Hl. by apply lookup_delete_Some in Hl as [_ ?]. }
  unfold erase in He. destruct (data c !! k); [|done]. cbn [snd data] in He. by apply lookup_delete_Some in He as [_ ?].
Qed.

Lemma get_keeps_data c k : data (get c k).2 = data c.
Proof. unfold get. by destruct (data c !! k). Qed.

Lemma get_fst c k : (get c k).1 = data c !! k.
Proof. unfold get. by destruct (data c !! k). Qed.

Lemma get_spec c k :
  wf c -> wf (get c k).2 /\ capacity (get c k).2 = capacity c /\
    ((get c k).1, recency (get c k).2) = spec_get (recency c) k.
Proof.
  intros Hw. unfold get, spec_get. rewrite recency_lookup by done. destruct (data c !! k) as [v|] eqn:Hd; [|done].
  cbn [fst snd]. pose proof Hw as [Hnd Hk Hs].
  assert (k ∈ lru c) as Hin by (apply Hk; by eexists). split; [split; cbn [lru data capacity]|split; [done|]].
  - unfold promote. apply NoDup_app. split; [by apply list_erase_NoDup|]. split; [|apply NoDup_singleton].
    intros k' [? _]%elem_of_list_erase ->%list_elem_of_singleton. done.
  - intros k'. unfold promote. rewrite <- Hk, elem_of_app, elem_of_list_erase, list_elem_of_singleton.
    destruct (decide (k' = k)); naive_solver.
  - done.
  - f_equal. unfold recency at 1, promote; cbn [data lru]. rewrite entries_app, recency_without, entries_cons. by rewrite Hd.
Qed.
End LRUCache.
Arguments LRUCache _ _ {_ _}.

(** C40: the cache implements its specification: the operations keep the map
    and the list in step and the number of entries within the capacity, an
    insertion replaces the entry of its key and retires the least recently
    used entry when the cache is full, and a lookup finds what was last
    inserted and makes it the most recently used. *)
Theorem LRUCache_refines {K V} `{Countable K} (c : LRUCache K V) k v :
  wf c ->
  (exists c', upsert c k v = Ok c' /\ wf c' /\ recency c' = spec_upsert (capacity c) (recency c) k v) /\
  (wf (get c k).2 /\ ((get c k).1, recency (get c k).2) = spec_get (recency c) k) /\
  (wf (erase c k).2 /\ ((erase c k).1, recency (erase c k).2) = spec_erase (recency c) k) /\
  cache_size c = length (recency c) /\ (cache_size c <= capacity c)%nat.
Proof.
  intros Hw. destruct (upsert_spec c k v Hw) as (c' & ? & ? & _ & ?). destruct (get_spec c k Hw) as (? & _ & ?).
  split; [by exists c'|]. split; [done|]. split; [|by unfold cache_size; rewrite recency_length; [split; [|apply Hw]|]].
  split; [by apply erase_wf|]. unfold spec_erase. rewrite recency_lookup by done.
  pose proof (erase_recency c k Hw) as Hr. unfold erase in *. destruct (data c !! k); cbn [fst snd] in *; [by rewrite Hr|done].
Qed.

Lemma LRUCache_refines_witness :
  exists c : LRUCache positive nat,
    upsert (new_LRUCache 2) 1%positive 10%nat = Ok c /\ wf c /\ recency c = [(1%positive, 10%nat)].
Proof.
  destruct (LRUCache_refines (new_LRUCache 2) 1%positive 10%nat (new_wf 2)) as [(c' & Hu & Hw & Hr) _].
  exists c'. split; [exact Hu|]. split; [exact Hw|]. rewrite Hr. vm_compute. reflexivity.
Defined.
