(* ===== verification/FileSystemAt.v ===== *)
(** * FileSystemAt: opening files beneath a directory

    libutil/unix/file-system-at.cc on a disk that does not change: walking
    from an open directory to a file beneath it without going through a
    symbolic link, with [openat2] where the kernel has it and component by
    component where not.  A descriptor is what it was opened on, a path of the
    disk. *)

From S2P Require Export DiskCalls.
Local Open Scope Z_scope.

(** ** Paths and their components *)

Definition of_components (cs : list bytes) : CanonPath := unchecked (join_path cs).

Lemma of_components_inj cs ds : Forall good cs -> Forall good ds -> of_components cs = of_components ds -> cs = ds.
Proof. intros Hc Hd [= H]. apply join_inj; [by apply Forall_good_plain..|done]. Qed.

Lemma isRoot_of cs : Forall good cs -> isRoot (of_components cs) = bool_decide (cs = []).
Proof. intros Hc. by apply isRoot_join, Forall_good_plain. Qed.

Lemma elems_of cs : Forall good cs -> elems (of_components cs) = cs.
Proof. intros Hc. by apply elems_join, Forall_good_plain. Qed.

Lemma join_path_snoc cs c : join_path (cs ++ [c]) = joinE cs ++ slash :: c.
Proof. unfold join_path. rewrite decide_False by (by destruct cs). apply joinE_snoc. Qed.

Section snoc.
Context (cs : list bytes) (c : bytes) (Hcs : Forall good (cs ++ [c])).
Notation p := (of_components (cs ++ [c])).

Lemma isRoot_snoc : isRoot p = false.
Proof using Hcs. rewrite isRoot_of by done. by rewrite bool_decide_false by (by destruct cs). Qed.

Lemma rfind_snoc : rfind_char slash (path p) = Some (length (joinE cs)).
Proof using Hcs.
  pose proof Hcs as [_ [Hg _]%Forall_cons]%Forall_app. cbn [of_components path].
  rewrite join_path_snoc. apply rfind_char_app. apply Hg.
Qed.

Lemma parent_snoc : parent p = Some (of_components cs).
Proof using Hcs.
  unfold parent. rewrite isRoot_snoc, rfind_snoc. cbn [of_components path]. rewrite join_path_snoc. f_equal.
  unfold of_components, join_path. f_equal. case_decide as Hn; [by rewrite Hn|]. rewrite Nat.max_r; [by rewrite take_app_length|].
  rewrite <- joinE_nil in Hn. destruct (joinE cs); [done|]. simpl. lia.
Qed.

Lemma baseName_snoc : baseName p = Some c.
Proof using Hcs.
  unfold baseName. rewrite isRoot_snoc, rfind_snoc. cbn [of_components path]. rewrite join_path_snoc. f_equal.
  rewrite cons_middle, app_assoc. replace (S (length (joinE cs))) with (length (joinE cs ++ [slash])) by (rewrite length_app; simpl; lia).
  apply drop_app_length.
Qed.

Lemma concat_comp_of : concat_comp (of_components cs) c = Ok (of_components (cs ++ [c])).
Proof using Hcs. pose proof Hcs as [Hc [Hg _]%Forall_cons]%Forall_app. by apply push_join. Qed.

Lemma pop_snoc : pop p = Ok (of_components cs).
Proof using Hcs. apply pop_join. by apply Forall_good_plain. Qed.
End snoc.

Lemma CanonPath_new_single n : good n -> CanonPath_new n = Ok (of_components [n]).
Proof.
  intros Hg. rewrite CanonPath_new_eq, decide_False by apply Hg.
  rewrite components_no_slash by apply Hg. by rewrite resolve_good by auto.
Qed.

Lemma concat_path_of cs ds : Forall good cs -> Forall good ds ->
  concat_path (of_components cs) (of_components ds) = of_components (cs ++ ds).
Proof.
  intros Hc Hd. unfold concat_path, extend. rewrite !isRoot_of by done.
  case_bool_decide as Hdn; [subst; by rewrite app_nil_r|]. case_bool_decide as Hcn.
  - subst cs. cbn [app]. unfold of_components, rel. cbn [path]. change (join_path []) with [slash].
    f_equal. unfold join_path. rewrite decide_False by done. destruct ds as [|d ds]; [done|]. by rewrite joinE_cons.
  - unfold of_components, abs, join_path. cbn [path]. rewrite !decide_False by (by destruct cs). by rewrite joinE_app.
Qed.

Lemma removePrefix_of cs ds : Forall good (cs ++ ds) ->
  removePrefix (of_components (cs ++ ds)) (of_components cs) = Ok (of_components ds).
Proof.
  intros Hcd. pose proof Hcd as [Hc Hd]%Forall_app.
  destruct (removePrefix_extend (of_components (cs ++ ds)) (of_components cs)) as (r & -> & (rs & Hrs & Hr) & He).
  - by apply canonical_of.
  - by apply canonical_of.
  - unfold of_components. rewrite isWithin_join by (by apply Forall_good_plain).
    apply bool_decide_true. by apply prefix_app_r.
  - destruct r as [r]. cbn [path] in Hr. subst r. f_equal. fold (of_components rs) in *.
    pose proof (concat_path_of cs rs Hc Hrs) as H. unfold concat_path in H. rewrite He in H.
    apply of_components_inj in H; [|done|by apply Forall_app]. apply app_inv_head in H. by subst.
Qed.

(** ** The system calls *)

Definition fd : Type := list bytes.
Inductive errno := ENOENT | ENOTDIR | ELOOP | EINVAL.
#[export] Instance errno_eq_dec : EqDecision errno.
Proof. solve_decision. Defined.

Record oflags := mkFlags { O_DIRECTORY : bool; O_PATH : bool }.
Definition O_RDONLY : oflags := mkFlags false false.
Definition O_RDONLY_DIRECTORY : oflags := mkFlags true false.
Definition O_DIRECTORY_PATH : oflags := mkFlags true true.

Section calls.
Context (d : Disk) (openat2_supported : bool).

(** [fstat] of an open file, and [fstatat(..., AT_SYMLINK_NOFOLLOW)] of a
    component in an open directory. *)
Definition sys_fstat (f : fd) : option PosixStat := DiskCalls.maybeLstat f d.
Definition sys_fstatat (dir : fd) (name : bytes) : errno + PosixStat :=
  match lookup_path d dir with
  | Some (NDir _ _ _) => match sys_fstat (dir ++ [name]) with Some st => inr st | None => inl ENOENT end
  | _ => inl ENOTDIR
  end.

(** [openat(dir, name, flags | O_NOFOLLOW)] of a component. *)
Definition sys_openat (dir : fd) (name : bytes) (flags : oflags) : errno + fd :=
  match sys_fstatat dir name with
  | inl e => inl e
  | inr st =>
      match ps_type st with
      | S_IFDIR => inr (dir ++ [name])
      | S_IFREG => if O_DIRECTORY flags then inl ENOTDIR else inr (dir ++ [name])
      | S_IFLNK =>
          if O_DIRECTORY flags then inl ENOTDIR
          else if O_PATH flags then inr (dir ++ [name]) else inl ELOOP
      end
  end.

(** [openat2(..., RESOLVE_BENEATH | RESOLVE_NO_SYMLINKS)] of a relative path. *)
Fixpoint sys_openat2 (dir : fd) (path : list bytes) (flags : oflags) (O_NOFOLLOW : bool) : errno + fd :=
  match path with
  | [] => inr dir
  | name :: path =>
      match sys_fstatat dir name with
      | inl e => inl e
      | inr st =>
          match ps_type st, path with
          | S_IFDIR, _ => sys_openat2 (dir ++ [name]) path flags O_NOFOLLOW
          | S_IFREG, [] => if O_DIRECTORY flags then inl ENOTDIR else inr (dir ++ [name])
          | S_IFREG, _ => inl ENOTDIR
          | S_IFLNK, [] => if O_PATH flags && O_NOFOLLOW then inr (dir ++ [name]) else inl ELOOP
          | S_IFLNK, _ => inl ELOOP
          end
      end
  end.

(** [readlinkat]; the path is a component or, when it is empty, the file itself. *)
Definition sys_readlinkat (dir : fd) (path : list bytes) : errno + bytes :=
  match lookup_path d (dir ++ path) with
  | Some (NLeaf i) =>
      match inodes d !! i with
      | Some (mkInode (LSymlink t) _) => inr t
      | Some _ => inl EINVAL
      | None => inl ENOENT
      end
  | Some (NDir _ _ _) => inl EINVAL
  | None => inl ENOENT
  end.

(** ** libutil/unix/file-system-at.cc *)

Definition fstat (f : fd) : result PosixStat := from_opt SystemError (sys_fstat f).
Definition fstatat (dir : fd) (name : bytes) : result PosixStat :=
  match sys_fstatat dir name with inl _ => Throw SystemError | inr st => Ok st end.
Definition maybeFstatat (dir : fd) (name : bytes) : result (option PosixStat) :=
  match sys_fstatat dir name with
  | inl ENOENT | inl ENOTDIR => Ok None
  | inl _ => Throw SystemError
  | inr st => Ok (Some st)
  end.

(** The loop that grows the buffer ends at the length of the target; the
    error number of the [SysError] is kept. *)
Definition readLinkAt (dir : fd) (path : CanonPath) : errno + bytes := sys_readlinkat dir (elems path).

(** What the failure to open a component becomes. *)
Definition open_error (dir : fd) (component : bytes) (e : errno) : result errno :=
  match e with
  | ENOTDIR =>
      st ← maybeFstatat dir component;
      match st with
      | Some st => _ ← throw_if (bool_decide (ps_type st = S_IFLNK)) SymlinkNotAllowed; Ok ENOTDIR
      | None => Ok ENOTDIR
      end
  | ELOOP => Throw SymlinkNotAllowed
  | e => Ok e
  end.

Section callback.
Context {St : Type} (dirFdCallback : option (fd -> CanonPath -> ST St unit)).

(** The loop over all components but the last: the directory they lead to,
    none when there are none.  A directory is handed to the callback once the
    one below it is open. *)
Fixpoint open_parents (dirFd : fd) (parentFd : option fd) (currentRelPath : CanonPath) (components : list bytes)
    : ST St (errno + option fd) :=
  match components with
  | [] => mret (inr parentFd)
  | component :: components =>
      _ ← slift (assertb (bool_decide (component <> #"..") && negb (bool_decide (head component = Some slash))));
      let prevRelPath := currentRelPath in
      currentRelPath ← slift (concat_comp currentRelPath component);
      let cur := default dirFd parentFd in
      match sys_openat cur component O_DIRECTORY_PATH with
      | inl e => e ← slift (open_error cur component e); mret (inl e)
      | inr parentFd2 =>
          _ ← match dirFdCallback, parentFd with
              | Some cb, Some parentFd => cb parentFd prevRelPath
              | _, _ => mret ()
              end;
          open_parents dirFd (Some parentFd2) currentRelPath components
      end
  end.

Definition openFileEnsureBeneathNoSymlinksIterative (dirFd : fd) (path : CanonPath) (flags : oflags) : ST St (errno + fd) :=
  let nrComponents := length (elems path) in
  _ ← slift (assertb (1 <=? nrComponents)%nat);
  r ← open_parents dirFd None root (take (nrComponents - 1) (elems path));
  match r with
  | inl e => mret (inl e)
  | inr parentFd =>
      let cur := default dirFd parentFd in
      lastComponent ← slift (from_opt AssertFailed (baseName path));
      match sys_openat cur lastComponent flags with
      | inl e => e ← slift (open_error cur lastComponent e); mret (inl e)
      | inr f => mret (inr f)
      end
  end.

Definition openFileEnsureBeneathNoSymlinks (dirFd : fd) (path : CanonPath) (flags : oflags) : ST St (errno + fd) :=
  _ ← slift (assertb (negb (bool_decide (head (rel path) = Some slash))));
  _ ← slift (assertb (negb (isRoot path)));
  if openat2_supported then
    match sys_openat2 dirFd (elems path) flags (O_PATH flags && negb (O_DIRECTORY flags)) with
    | inl ELOOP => slift (Throw SymlinkNotAllowed)
    | r => mret r
    end
  else openFileEnsureBeneathNoSymlinksIterative dirFd path flags.
End callback.

(** ** What opening beneath a directory does *)

Definition is_dir (f : fd) : Prop := exists m t es, lookup_path d f = Some (NDir m t es).

Fixpoint beneath (dir : fd) (path : list bytes) (flags : oflags) : result (errno + fd) :=
  match path with
  | [] => Ok (inr dir)
  | name :: path =>
      match sys_fstatat dir name with
      | inl e => Ok (inl e)
      | inr st =>
          match ps_type st, path with
          | S_IFDIR, _ => beneath (dir ++ [name]) path flags
          | S_IFREG, [] => Ok (if O_DIRECTORY flags then inl ENOTDIR else inr (dir ++ [name]))
          | S_IFREG, _ => Ok (inl ENOTDIR)
          | S_IFLNK, [] => if O_PATH flags && negb (O_DIRECTORY flags) then Ok (inr (dir ++ [name])) else Throw SymlinkNotAllowed
          | S_IFLNK, _ => Throw SymlinkNotAllowed
          end
      end
  end.

Lemma sys_fstatat_error dir name e : sys_fstatat dir name = inl e -> e = ENOENT \/ e = ENOTDIR.
Proof.
  unfold sys_fstatat. destruct (lookup_path d dir) as [[]|]; [intros [= <-]; by right| |intros [= <-]; by right].
  destruct (sys_fstat _); intros [= <-]. by left.
Qed.

Lemma beneath_openat2 dir path flags :
  beneath dir path flags
  = match sys_openat2 dir path flags (O_PATH flags && negb (O_DIRECTORY flags)) with
    | inl ELOOP => Throw SymlinkNotAllowed
    | r => Ok r
    end.
Proof.
  revert dir; induction path as [|name path IH]; intros dir; [done|]. cbn [beneath sys_openat2].
  destruct (sys_fstatat dir name) as [e|st] eqn:Hst; [by apply sys_fstatat_error in Hst as [-> | ->]|].
  destruct (ps_type st), path; try done; try apply IH; destruct flags as [[] []]; done.
Qed.

(** Opening one component. *)
Lemma beneath_openat dir name flags :
  match sys_openat dir name flags with
  | inl e => (r ← open_error dir name e; Ok (inl r)) = beneath dir [name] flags
  | inr f => f = dir ++ [name] /\ beneath dir [name] flags = Ok (inr f)
  end.
Proof.
  unfold sys_openat, open_error, maybeFstatat. cbn [beneath]. destruct (sys_fstatat dir name) as [e|st] eqn:Hst.
  - pose proof (sys_fstatat_error _ _ _ Hst) as [-> | ->]; done.
  - destruct (ps_type st) eqn:Ht, flags as [[] []]; cbn; rewrite ?Ht; done.
Qed.

(** ... and going on from it. *)
Lemma beneath_step dir c comps last flags :
  beneath dir (c :: comps ++ [last]) flags
  = match sys_openat dir c O_DIRECTORY_PATH with
    | inl e => r ← open_error dir c e; Ok (inl r)
    | inr f => beneath f (comps ++ [last]) flags
    end.
Proof.
  pose proof (beneath_openat dir c O_DIRECTORY_PATH) as Ho.
  destruct (sys_openat dir c O_DIRECTORY_PATH) as [e|f] eqn:Hop; [rewrite Ho|destruct Ho as [-> _]];
    unfold sys_openat in Hop; cbn [beneath]; (destruct (sys_fstatat dir c) as [|st]; [done|]);
    destruct (ps_type st); try done; by destruct comps.
Qed.

Section callback.
Context {St : Type} (dirFdCallback : option (fd -> CanonPath -> ST St unit)) (I : St -> Prop) (dirFd : fd).
(** The callback keeps [I] when it is given a directory and its path from the start. *)
Context (cb_keeps : forall cb cs s, dirFdCallback = Some cb -> cs <> [] -> Forall good cs -> is_dir (dirFd ++ cs) -> I s ->
  leads (cb (dirFd ++ cs) (of_components cs)) s (fun _ => I) (fun _ _ => False)).

Definition fd_at (cs : list bytes) : option fd := match cs with [] => None | _ => Some (dirFd ++ cs) end.

Lemma fd_at_default cs : default dirFd (fd_at cs) = dirFd ++ cs.
Proof. destruct cs; [cbn; by rewrite app_nil_r|done]. Qed.

Lemma fd_at_snoc cs c : fd_at (cs ++ [c]) = Some (dirFd ++ cs ++ [c]).
Proof. by destruct cs. Qed.

Lemma sys_openat_dir dir name f : sys_openat dir name O_DIRECTORY_PATH = inr f -> is_dir f.
Proof.
  unfold sys_openat, sys_fstatat, sys_fstat, DiskCalls.maybeLstat, is_dir.
  destruct (lookup_path d dir) as [[|m t es]|]; [done| |done].
  destruct (lookup_path d (dir ++ [name])) as [x|] eqn:Hx; [|done]. cbn [mbind option_bind].
  destruct x as [i|m' t' es']; cbn [stat_node].
  - destruct (inodes d !! i) as [[[] ?]|]; done.
  - intros [= <-]. by do 3 eexists.
Qed.

Lemma open_parents_spec flags last comps : forall pre s,
  Forall good (pre ++ comps) -> (pre = [] \/ is_dir (dirFd ++ pre)) -> I s ->
  leads (open_parents dirFdCallback dirFd (fd_at pre) (of_components pre) comps) s
    (fun r s' => I s' /\
       match r with
       | inl e => beneath (dirFd ++ pre) (comps ++ [last]) flags = Ok (inl e)
       | inr o => o = fd_at (pre ++ comps) /\
           beneath (dirFd ++ pre) (comps ++ [last]) flags = beneath (dirFd ++ pre ++ comps) [last] flags
       end)
    (fun e s' => I s' /\ beneath (dirFd ++ pre) (comps ++ [last]) flags = Throw e).
Proof using cb_keeps.
  induction comps as [|c comps IH]; intros pre s Hg Hpre Hs; cbn [open_parents].
  { unfold leads. cbn. by rewrite app_nil_r. }
  pose proof Hg as [Hgp [Hc Hgc]%Forall_cons]%Forall_app.
  assert (assertb (bool_decide (c <> #"..") && negb (bool_decide (head c = Some slash))) = Ok ()) as ->.
  { rewrite bool_decide_true by apply Hc. rewrite bool_decide_false; [done|]. destruct c as [|x c]; [done|].
    intros [= ->]. destruct Hc as (_&_&_&Hs'&_). apply Hs'. by left. }
  unfold leads at 1. rewrite slift_bind_Ok, concat_comp_of by (apply Forall_app; auto). rewrite slift_bind_Ok, fd_at_default.
  cbn [app]. rewrite (beneath_step (dirFd ++ pre) c comps last flags).
  pose proof (beneath_openat (dirFd ++ pre) c O_DIRECTORY_PATH) as Ho.
  destruct (sys_openat (dirFd ++ pre) c O_DIRECTORY_PATH) as [e|f] eqn:Hop.
  - destruct (open_error (dirFd ++ pre) c e); done.
  - destruct Ho as [-> _]. apply leads_bind.
    assert (forall s, I s -> leads (open_parents dirFdCallback dirFd (Some ((dirFd ++ pre) ++ [c])) (of_components (pre ++ [c])) comps) s
      (fun r s' => I s' /\
         match r with
         | inl e => beneath ((dirFd ++ pre) ++ [c]) (comps ++ [last]) flags = Ok (inl e)
         | inr o => o = fd_at (pre ++ c :: comps) /\
             beneath ((dirFd ++ pre) ++ [c]) (comps ++ [last]) flags = beneath (dirFd ++ pre ++ c :: comps) [last] flags
         end)
      (fun e s' => I s' /\ beneath ((dirFd ++ pre) ++ [c]) (comps ++ [last]) flags = Throw e)) as Hrest.
    { intros s1 Hs1. specialize (IH (pre ++ [c]) s1). rewrite <- !app_assoc, fd_at_snoc in IH. rewrite <- !app_assoc.
      apply IH; [done| |done]. right. apply sys_openat_dir in Hop. by rewrite <- app_assoc in Hop. }
    destruct dirFdCallback as [cb|] eqn:Hcb, (fd_at pre) as [pfd|] eqn:Hfd; try by apply Hrest.
    destruct pre as [|c0 pre]; [done|]. injection Hfd as <-. eapply leads_mono.
    + apply (cb_keeps cb (c0 :: pre)); [done..| |done]. by destruct Hpre.
    + intros u s1 Hs1. by apply Hrest.
    + by intros.
Qed.

(** Opening a path that is not empty does what [beneath] says, whichever way
    it goes, and keeps what the callback keeps. *)
Lemma open_beneath cs flags s :
  Forall good cs -> cs <> [] -> I s ->
  leads (openFileEnsureBeneathNoSymlinks dirFdCallback dirFd (of_components cs) flags) s
    (fun r s' => I s' /\ beneath dirFd cs flags = Ok r) (fun e s' => I s' /\ beneath dirFd cs flags = Throw e).
Proof using cb_keeps.
  intros Hg Hcs Hs. unfold openFileEnsureBeneathNoSymlinks.
  assert (bool_decide (head (rel (of_components cs)) = Some slash) = false) as ->.
  { apply bool_decide_false. unfold rel, of_components, join_path. cbn [path]. rewrite decide_False by done.
    destruct cs as [|c cs]; [done|]. rewrite joinE_cons. apply Forall_cons in Hg as [(Hc & _ & _ & Hsl & _) _].
    cbn [drop]. destruct c as [|x c]; [done|]. intros [= ->]. apply Hsl. by left. }
  rewrite isRoot_of by done. rewrite bool_decide_false by done.
  unfold leads at 1. cbn [negb assertb throw_if]. rewrite !slift_bind_Ok, elems_of by done.
  destruct openat2_supported.
  { rewrite beneath_openat2. destruct (sys_openat2 _ _ _ _) as [[]|]; done. }
  destruct cs as [|last comps _] using rev_ind; [done|]. unfold openFileEnsureBeneathNoSymlinksIterative.
  rewrite elems_of, length_app by done. cbn [length]. rewrite Nat.add_sub, take_app_length.
  replace (1 <=? length comps + 1)%nat with true by (symmetry; apply Nat.leb_le; lia).
  cbn [assertb throw_if negb]. rewrite slift_bind_Ok. apply leads_bind. eapply leads_mono.
  - pose proof Hg as [Hg' _]%Forall_app.
    pose proof (open_parents_spec flags last comps [] s Hg' (or_introl eq_refl) Hs) as H. rewrite app_nil_r in H. exact H.
  - intros [e|o] s1 [Hs1 H1]; [done|]. destruct H1 as [-> ->]. cbn [app]. rewrite fd_at_default, baseName_snoc by done.
    cbn [from_opt]. unfold leads at 1. rewrite slift_bind_Ok. pose proof (beneath_openat (dirFd ++ comps) last flags) as Ho.
    destruct (sys_openat (dirFd ++ comps) last flags) as [e|f]; [|by destruct Ho].
    rewrite <- Ho. destruct (open_error _ _ e); done.
  - by intros e s1 H1.
Qed.
End callback.
End calls.

(** ** Beneath a directory, by what the disk shows *)

(** The file a path leads to without going through a symbolic link. *)
Fixpoint resolve_file (f : File) (path : list bytes) : result (option File) :=
  match path with
  | [] => Ok (Some f)
  | name :: path =>
      match f with
      | Directory es => match entry_lookup name es with Some f => resolve_file f path | None => Ok None end
      | Symlink _ => Throw SymlinkNotAllowed
      | Regular _ _ => Ok None
      end
  end.

Lemma resolve_file_node f path g : resolve_file f path = Ok (Some g) <-> node_at f path = Some g.
Proof.
  revert f; induction path as [|n path IH]; intros f; cbn [resolve_file node_at]; [split; by intros [= ->]|].
  destruct f as [|es|]; [done| |done]. destruct (entry_lookup n es); [apply IH|done].
Qed.

Lemma resolve_file_snoc f path n :
  resolve_file f (path ++ [n])
  = g ← resolve_file f path;
    match g with
    | Some (Directory es) => Ok (entry_lookup n es)
    | Some (Symlink _) => Throw SymlinkNotAllowed
    | _ => Ok None
    end.
Proof.
  revert f; induction path as [|c path IH]; intros f; cbn [resolve_file app].
  - destruct f as [|es|]; cbn; [done| |done]. by destruct (entry_lookup n es).
  - destruct f as [|es|]; cbn; [done| |done]. by destruct (entry_lookup c es).
Qed.

(** [open] of the in-memory file system goes the same way. *)
Lemma open_at_resolve f path b :
  match resolve_file f path with
  | Throw e => open_at f path None b = Throw e
  | Ok None => open_at f path None b = Ok None
  | Ok (Some g) => exists f', open_at f path None b = Ok (Some f') /\ node_at f' path = Some g
  end.
Proof.
  revert f b; induction path as [|n path IH]; intros f b; cbn [resolve_file open_at].
  - by exists f.
  - destruct f as [|es|]; [done| |done]. destruct (entry_lookup n es) as [f|]; [|done]. specialize (IH f b).
    destruct (resolve_file f path) as [[g|]|e]; [|by rewrite IH..].
    destruct IH as (f' & -> & Hf'). eexists. split; [done|]. cbn [node_at]. by rewrite entry_lookup_insert.
Qed.

Lemma open_read_resolve f cs : Forall good cs -> open_read (mkMemory (Some f)) (of_components cs) = resolve_file f cs.
Proof.
  intros Hg. unfold open_read, open. cbn [mroot]. rewrite elems_of by done. pose proof (open_at_resolve f cs false) as H.
  destruct (resolve_file f cs) as [[g|]|e]; [|by rewrite H..].
  destruct H as (f' & -> & Hf'). cbn [mbind result_bind]. unfold pointee. cbn [mroot mbind option_bind]. rewrite elems_of by done. by rewrite Hf'.
Qed.

(** What [fstat] says of a file the disk shows. *)
Definition stat_shows (st : PosixStat) (f : File) : Prop :=
  match f with
  | Regular x c => ps_type st = S_IFREG /\ ps_size st = length c /\ is_executable (ps_perm st) = x
  | Directory _ => ps_type st = S_IFDIR
  | Symlink _ => ps_type st = S_IFLNK
  end.

Section view.
Context (d : Disk).

Lemma fstat_view p f : view_at d p = Some f -> exists st, sys_fstat d p = Some st /\ stat_shows st f.
Proof.
  unfold view_at, peek, sys_fstat, DiskCalls.maybeLstat, lookup_path.
  destruct (node_lookup (tree d) p) as [[i|m t es]|]; [| |done]; cbn [mbind option_bind stat_node].
  - cbn [view]. destruct (inodes d !! i) as [[[c m|t] ?]|]; intros [= <-]; by eexists.
  - rewrite view_NDir. destruct (view_entries _ _); intros [= <-]. by eexists.
Qed.

Lemma is_dir_view p : is_dir d p -> forall f, view_at d p = Some f -> exists es, f = Directory es.
Proof.
  intros (m & t & es & Hl) f. rewrite (view_at_lookup _ _ _ Hl), view_NDir.
  destruct (view_entries _ _) as [l|]; intros [= <-]. by exists l.
Qed.

Lemma view_dir p es : view_at d p = Some (Directory es) ->
  exists m t ns, lookup_path d p = Some (NDir m t ns) /\ view_entries (inodes d) ns = Some es.
Proof.
  unfold view_at, peek, lookup_path. destruct (node_lookup (tree d) p) as [[i|m t ns]|]; [| |done]; cbn [mbind option_bind].
  - cbn [view]. by destruct (inodes d !! i) as [[[] ?]|].
  - rewrite view_NDir. destruct (view_entries _ _) as [l|] eqn:Hl; intros [= <-]. by exists m, t, ns.
Qed.

Lemma view_is_dir p es : view_at d p = Some (Directory es) -> is_dir d p.
Proof. intros (m & t & ns & Hl & _)%view_dir. by exists m, t, ns. Qed.

Lemma view_entry p es n : view_at d p = Some (Directory es) -> view_at d (p ++ [n]) = entry_lookup n es.
Proof. intros Hv. rewrite (view_at_below _ _ _ _ Hv). cbn. by destruct (entry_lookup n es). Qed.

Lemma fstatat_view p es n :
  view_at d p = Some (Directory es) ->
  match entry_lookup n es with
  | None => sys_fstatat d p n = inl ENOENT
  | Some f => exists st, sys_fstatat d p n = inr st /\ stat_shows st f
  end.
Proof.
  intros Hv. pose proof (view_entry _ _ n Hv) as He. pose proof (view_dir _ _ Hv) as (m & t & ns & Hl & Hns).
  unfold sys_fstatat. rewrite Hl. destruct (entry_lookup n es) as [f|] eqn:Hf.
  - destruct (fstat_view _ _ He) as (st & -> & Hst). by exists st.
  - unfold sys_fstat, DiskCalls.maybeLstat, lookup_path in *. rewrite node_lookup_app, Hl. cbn [mbind option_bind node_lookup].
    pose proof (view_entries_lookup _ _ _ n Hns) as Hn. rewrite Hf in Hn. by destruct (entry_lookup n ns).
Qed.

(** Opening a path finds what resolving it finds. *)
Lemma beneath_resolve dirFlag cs : cs <> [] -> forall p es,
  view_at d p = Some (Directory es) ->
  match resolve_file (Directory es) cs with
  | Throw e => beneath d p cs (mkFlags dirFlag false) = Throw e
  | Ok None => beneath d p cs (mkFlags dirFlag false) = Ok (inl ENOENT) \/
      (beneath d p cs (mkFlags dirFlag false) = Ok (inl ENOTDIR) /\ (2 <= length cs)%nat)
  | Ok (Some (Directory _)) => beneath d p cs (mkFlags dirFlag false) = Ok (inr (p ++ cs))
  | Ok (Some (Regular _ _)) => beneath d p cs (mkFlags dirFlag false) = Ok (if dirFlag then inl ENOTDIR else inr (p ++ cs))
  | Ok (Some (Symlink _)) => beneath d p cs (mkFlags dirFlag false) = Throw SymlinkNotAllowed
  end.
Proof.
  induction cs as [|c cs IH]; [done|]. intros _ p es Hv.
  pose proof (fstatat_view _ _ c Hv) as Hst. pose proof (view_entry _ _ c Hv) as He. cbn [resolve_file beneath].
  destruct (entry_lookup c es) as [f|]; [destruct Hst as (st & -> & Hst)|rewrite Hst; by left].
  destruct cs as [|c' cs]; [destruct f as [x b|es'|t]; [destruct Hst as (Hst & _)|..]; cbn in Hst |- *; by rewrite Hst|].
  destruct f as [x b|es'|t]; [destruct Hst as (Hst & _)|..]; cbn [stat_shows] in Hst; rewrite Hst;
    [right; split; [done|cbn; lia]| |done].
  specialize (IH ltac:(done) _ _ He). rewrite <- app_assoc in IH. cbn [app] in IH.
  destruct (resolve_file (Directory es') (c' :: cs)) as [[[]|]|]; [done..| |done].
  destruct IH as [?|[? ?]]; [by left|right; split; [done|cbn [length] in *; lia]].
Qed.

(** Going on from a directory on the way. *)
Lemma beneath_app cs ds flags : forall p,
  is_dir d (p ++ cs) -> beneath d p (cs ++ ds) flags = beneath d (p ++ cs) ds flags.
Proof.
  induction cs as [|c cs IH]; intros p Hd; cbn [app]; [by rewrite app_nil_r|].
  assert (exists x, lookup_path d (p ++ [c]) = Some x /\ is_dir d ((p ++ [c]) ++ cs) /\
    exists m t es, x = NDir m t es) as (x & Hx & Hd' & m & t & es & ->).
  { destruct Hd as (m & t & es & Hl). unfold is_dir, lookup_path in *. rewrite cons_middle, app_assoc in Hl.
    rewrite node_lookup_app in Hl. destruct (node_lookup (tree d) (p ++ [c])) as [x|] eqn:Hx; [|done]. exists x.
    split; [done|]. cbn [mbind option_bind] in Hl. split; [exists m, t, es; unfold lookup_path; by rewrite node_lookup_app, Hx|].
    destruct x as [i|m' t' es']; [|by do 3 eexists]. clear IH. by destruct cs; cbn [node_lookup] in Hl. }
  assert (is_dir d p) as (m0 & t0 & es0 & Hp).
  { unfold is_dir, lookup_path in *. rewrite node_lookup_app in Hx. destruct (node_lookup (tree d) p) as [[i|]|]; [done| |done].
    by do 3 eexists. }
  cbn [beneath]. unfold sys_fstatat, sys_fstat, DiskCalls.maybeLstat. rewrite Hp, Hx. cbn [mbind option_bind stat_node ps_type].
  rewrite IH by done. by rewrite <- app_assoc.
Qed.
End view.

(** C12: walking component by component and [openat2] open the same files
    below a directory and fail in the same way, whatever the flags: both
    return what the walk that never follows a symbolic link finds. *)
Theorem open_variants_agree d dirFd cs flags :
  Forall good cs -> cs <> [] ->
  openFileEnsureBeneathNoSymlinks d true (St := unit) None dirFd (of_components cs) flags ()
  = openFileEnsureBeneathNoSymlinks d false None dirFd (of_components cs) flags () /\
  (openFileEnsureBeneathNoSymlinks d false None dirFd (of_components cs) flags ()).1 = beneath d dirFd cs flags.
Proof.
  intros Hg Hcs.
  assert (forall b, openFileEnsureBeneathNoSymlinks d b None dirFd (of_components cs) flags () = (beneath d dirFd cs flags, ())) as H.
  { intros b. pose proof (open_beneath d b (St := unit) None (fun _ => True) dirFd ltac:(done) cs flags () Hg Hcs I) as H.
    unfold leads in H. by destruct (openFileEnsureBeneathNoSymlinks d b None dirFd _ flags ()) as [[r|e] []]; destruct H as [_ ->]. }
  by rewrite !H.
Qed.

Definition linked_disk : Disk :=
  mkDisk (NDir 0x1ED 1 [(#"a", NDir 0x1ED 1 [(#"f", NLeaf 0); (#"l", NLeaf 1)])])
    {[0%nat := mkInode (LRegular #"hi" 0x124) 1; 1%nat := mkInode (LSymlink #"f") 1]} 2.

Lemma open_variants_agree_witness :
  openFileEnsureBeneathNoSymlinks linked_disk true (St := unit) None [] (of_components [ #"a"; #"l"]) O_RDONLY_DIRECTORY ()
  = (Throw SymlinkNotAllowed, ()).
Proof.
  destruct (open_variants_agree linked_disk [] [ #"a"; #"l"] O_RDONLY_DIRECTORY) as [-> _].
  - refine (bool_decide_unpack _ _). vm_compute. exact I.
  - done.
  - vm_compute. reflexivity.
Defined.
