(* ===== verification/PosixAccessor.v ===== *)
(** * PosixAccessor: reading files of the file system

    libutil/posix-source-accessor.cc on a disk that does not change.  The
    accessors that are alive are kept by number ([SourceAccessor::number]);
    each has a cache of open directories, and all caches share a limit.  The
    theorem is that whatever is cached, an accessor answers as the in-memory
    file system that holds what the disk shows below its root. *)

From S2P Require Export FileSystemAt LRUCache.
Local Open Scope Z_scope.

#[export] Instance CanonPath_countable : Countable CanonPath.
Proof. apply (inj_countable' path unchecked). by intros []. Defined.

(** ** State *)

Record PosixDirectorySourceAccessor := mkDir {
  dirFd : fd;
  trackLastModified : bool;
  dirFdCache : option (LRUCache CanonPath fd);
  mtime : Z;
}.
Definition set_cache (c : option (LRUCache CanonPath fd)) (a : PosixDirectorySourceAccessor) : PosixDirectorySourceAccessor :=
  mkDir (dirFd a) (trackLastModified a) c (mtime a).
Definition set_mtime (t : Z) (a : PosixDirectorySourceAccessor) : PosixDirectorySourceAccessor :=
  mkDir (dirFd a) (trackLastModified a) (dirFdCache a) t.

Record PosixFileSourceAccessor := mkFile { file_fd : fd; file_st : PosixStat; file_mtime : Z }.

(** The accessors and the static members: the number of cached directories
    and the registry of accessors that have a cache. *)
Record Posix := mkPosix {
  accessors : gmap nat PosixDirectorySourceAccessor;
  nextNumber : nat;
  globalDirFdCount : Z;
  globalDirFdCacheRegistry : list nat;
}.
Definition set_accessors (m : gmap nat PosixDirectorySourceAccessor) (s : Posix) : Posix :=
  mkPosix m (nextNumber s) (globalDirFdCount s) (globalDirFdCacheRegistry s).
Definition add_count (n : Z) (s : Posix) : Posix :=
  mkPosix (accessors s) (nextNumber s) (u32 (globalDirFdCount s + n)) (globalDirFdCacheRegistry s).

Definition cache_len (a : PosixDirectorySourceAccessor) : Z :=
  match dirFdCache a with Some c => Z.of_nat (cache_size c) | None => 0 end.

Definition sourceAccessorStatFromPosixStat (st : PosixStat) : Stat :=
  mkStat (match ps_type st with S_IFREG => tRegular | S_IFDIR => tDirectory | S_IFLNK => tSymlink end)
    (if decide (ps_type st = S_IFREG) then Some (Z.of_nat (ps_size st)) else None)
    (bool_decide (ps_type st = S_IFREG) && is_executable (ps_perm st)).

(** The CAS loop leaves the greater of the two. *)
Definition maybeUpdateMtime (track : bool) (mtime seenMTime : Z) : Z :=
  if track && (mtime <? seenMTime) then seenMTime else mtime.

(** [std::map::emplace] *)
Definition emplace {A} (name : bytes) (x : A) (l : list (bytes * A)) : list (bytes * A) :=
  match entry_lookup name l with Some _ => l | None => entry_insert name x l end.

(** ** Entries in the order of their names *)

Lemma entry_insert_perm {A} n (x : A) l : n ∉ l.*1 -> entry_insert n x l ≡ₚ (n, x) :: l.
Proof.
  induction l as [|[m y] l IH]; [done|]. cbn [entry_insert fmap list_fmap fst]. rewrite not_elem_of_cons. intros [Hn Hl].
  destruct (bytes_compare n m) eqn:Hc; [by apply bytes_compare_eq in Hc|done|]. rewrite IH by done. apply Permutation_swap.
Qed.

Lemma entry_insert_sorted {A} n (x : A) l :
  n ∉ l.*1 -> StronglySorted bytes_lt (l.*1) -> StronglySorted bytes_lt ((entry_insert n x l).*1).
Proof.
  intros Hn Hs. induction l as [|[m y] l IH]; cbn [entry_insert fmap list_fmap fst] in *; [by repeat constructor|].
  apply StronglySorted_cons in Hs as [Hm Hs]. apply not_elem_of_cons in Hn as [Hnm Hnl].
  destruct (bytes_compare n m) eqn:Hc; cbn [fmap list_fmap fst].
  - by apply bytes_compare_eq in Hc.
  - constructor; [by constructor|]. constructor; [done|]. eapply Forall_impl; [exact Hm|]. intros k Hk. by etrans.
  - constructor; [by apply IH|]. rewrite entry_insert_perm by done. cbn. constructor; [|done].
    unfold bytes_lt. rewrite bytes_compare_antisym, Hc. done.
Qed.

Lemma sorted_entries_eq {A} (l l' : list (bytes * A)) :
  StronglySorted bytes_lt (l.*1) -> StronglySorted bytes_lt (l'.*1) -> l ≡ₚ l' -> l = l'.
Proof.
  intros Hl Hl' Hp.
  assert (forall l : list (bytes * A), StronglySorted bytes_lt (l.*1) -> StronglySorted (fun x y => bytes_lt (x.1) (y.1)) l) as Hk.
  { clear. induction l as [|x l IH]; [constructor|]. cbn. intros [Hx Hs]%StronglySorted_cons. constructor; [by apply IH|].
    exact (proj1 (Forall_fmap fst _ l) Hx). }
  apply (StronglySorted_unique_strong (fun x y => bytes_lt (x.1) (y.1))); [|by apply Hk..|done].
  intros x y _ _ Hxy Hyx. exfalso. apply (irreflexivity bytes_lt (x.1)). by etrans.
Qed.

Lemma emplace_all {A} (T : bytes -> A) (skip : bytes -> bool) names : forall acc,
  NoDup (acc.*1 ++ names) -> StronglySorted bytes_lt (acc.*1) ->
  exists res,
    foreach (fun entries name => if skip name then Ok entries else Ok (emplace name (T name) entries)) acc names = Ok res /\
    StronglySorted bytes_lt (res.*1) /\ res ≡ₚ acc ++ ((fun n => (n, T n)) <$> List.filter (fun n => negb (skip n)) names).
Proof.
  induction names as [|n names IH]; intros acc Hnd Hs; cbn [foreach List.filter]; [exists acc; by rewrite app_nil_r|].
  rewrite <- Permutation_middle in Hnd. apply NoDup_cons in Hnd as [Hn Hnd]. rewrite elem_of_app in Hn.
  destruct (skip n); cbn [mbind result_bind negb]; [by apply IH|].
  assert (n ∉ acc.*1) as Hna by tauto.
  assert (emplace n (T n) acc = entry_insert n (T n) acc) as ->.
  { unfold emplace, entry_lookup. destruct (List.find _ acc) as [e|] eqn:Hf; [|done].
    apply List.find_some in Hf as [Hin <-%bool_decide_eq_true]. exfalso. apply Hna, list_elem_of_fmap. exists e.
    split; [done|by apply list_elem_of_In]. }
  destruct (IH (entry_insert n (T n) acc)) as (res & -> & Hrs & Hp).
  - rewrite entry_insert_perm by done. cbn. rewrite NoDup_cons, elem_of_app. tauto.
  - by apply entry_insert_sorted.
  - exists res. split; [done|]. split; [done|]. rewrite Hp, entry_insert_perm by done. cbn. by rewrite Permutation_middle.
Qed.

Section posix.
Context (d : Disk) (openat2_supported : bool).
(** [readdir] lists the names in some order, with the two dot entries. *)
Context (readdir : list bytes -> list bytes).
(** [getGlobalFdLimit()] *)
Context (globalFdLimit : Z).
(** Where a path leads whose final component may be a symbolic link. *)
Context (follow : list bytes -> errno + fd).

Notation openBeneath := (openFileEnsureBeneathNoSymlinks d openat2_supported).

Definition Posix_ := ST Posix.

(** ** Descriptors and caches *)

Definition get_accessor (this : nat) : ST Posix PosixDirectorySourceAccessor :=
  accs ← gets accessors; slift (from_opt AssertFailed (accs !! this)).
Definition put_accessor (this : nat) (a : PosixDirectorySourceAccessor) : ST Posix unit :=
  modify (fun s => set_accessors (<[this := a]> (accessors s)) s).
Definition see_mtime (this : nat) (t : Z) : ST Posix unit :=
  a ← get_accessor this; put_accessor this (set_mtime (maybeUpdateMtime (trackLastModified a) (mtime a) t) a).

(** [invalidateCache]: an accessor forgets its directories. *)
Definition clear_cache (this : nat) (a : PosixDirectorySourceAccessor) (s : Posix) : Posix :=
  match dirFdCache a with
  | Some c => set_accessors (<[this := set_cache (Some (clear c)) a]> (accessors s)) (add_count (- Z.of_nat (cache_size c)) s)
  | None => s
  end.
Definition invalidateCache (this : nat) : ST Posix unit := a ← get_accessor this; modify (clear_cache this a).

(** The loop over the registry: what is left of it, and the state. *)
Fixpoint evict (registry : list nat) (s : Posix) : list nat * Posix :=
  match registry with
  | [] => ([], s)
  | id :: rest =>
      if globalDirFdCount s <? globalFdLimit then (registry, s)
      else
        match accessors s !! id with
        | None => evict rest s
        | Some accessor => let '(rest, s) := evict rest (clear_cache id accessor s) in (id :: rest, s)
        end
  end.
Definition maybeEvictFromGlobalCaches : ST Posix unit :=
  modify (fun s =>
    if globalDirFdCount s <? globalFdLimit then s
    else
      let '(registry, s) := evict (globalDirFdCacheRegistry s) s in
      mkPosix (accessors s) (nextNumber s) (globalDirFdCount s) registry).

Definition insertIntoDirFdCache (this : nat) (key : CanonPath) (f : fd) : ST Posix unit :=
  a ← get_accessor this;
  cache ← slift (from_opt AssertFailed (dirFdCache a));
  let before := cache_size cache in
  cache ← slift (upsert cache key f);
  _ ← put_accessor this (set_cache (Some cache) a);
  modify (add_count (Z.of_nat (cache_size cache) - Z.of_nat before)).

(** ** Opening the directory of a path *)

(** The loop from [p] towards the root: the nearest directory in the cache,
    with its path. *)
Fixpoint nearest (fuel : nat) (p : CanonPath) (cache : LRUCache CanonPath fd)
    : result (option (CanonPath * fd)) * LRUCache CanonPath fd :=
  match get cache p with
  | (Some f, cache) => (Ok (Some (p, f)), cache)
  | (None, cache) =>
      if isRoot p then (Ok None, cache)
      else
        match fuel, pop p with
        | S fuel, Ok p => nearest fuel p cache
        | O, _ => (Throw AssertFailed, cache)
        | _, Throw e => (Throw e, cache)
        end
  end.

Definition makeDirFdCallback (this : nat) (a : PosixDirectorySourceAccessor) : option (fd -> CanonPath -> ST Posix unit) :=
  match dirFdCache a with None => None | Some _ => Some (fun f key => insertIntoDirFdCache this key f) end.

Definition search_cache (this : nat) (a : PosixDirectorySourceAccessor) (parent : CanonPath)
    : ST Posix (option (CanonPath * fd)) :=
  match dirFdCache a with
  | None => mret None
  | Some cache =>
      let '(hit, cache) := nearest (length (path parent)) parent cache in
      _ ← put_accessor this (set_cache (Some cache) a);
      slift hit
  end.

(** The descriptor, and whether it comes with an owner. *)
Definition openParent (this : nat) (p : CanonPath) : ST Posix (errno + (fd * bool)) :=
  a ← get_accessor this;
  _ ← slift (assertb (negb (isRoot p)));
  parent ← slift (from_opt AssertFailed (parent p));
  if isRoot parent then mret (inr (dirFd a, false))
  else
    _ ← maybeEvictFromGlobalCaches;
    a ← get_accessor this;
    hit ← search_cache this a parent;
    match hit with
    | Some (p, f) =>
        if decide (p = parent) then mret (inr (f, true))
        else
          relPath ← slift (removePrefix parent p);
          let cb := (fun (base : fd -> CanonPath -> ST Posix unit) f relKey => base f (concat_path p relKey)) <$> makeDirFdCallback this a in
          r ← openBeneath cb f relPath O_RDONLY_DIRECTORY;
          mret match r with inl e => inl e | inr f => inr (f, true) end
    | None =>
        r ← openBeneath (makeDirFdCallback this a) (dirFd a) parent O_RDONLY_DIRECTORY;
        mret match r with inl e => inl e | inr f => inr (f, true) end
    end.

(** [None] stands for [INVALID_DESCRIPTOR]. *)
Definition openParentAndUpsert (this : nat) (path : CanonPath) (ignoreMissing : bool) : ST Posix (option fd) :=
  r ← openParent this path;
  match r with
  | inl e =>
      if decide (e = ENOENT \/ e = ENOTDIR) then
        if ignoreMissing then mret None else slift (Throw FileNotFound)
      else slift (Throw SystemError)
  | inr (parentFd, owning) =>
      a ← get_accessor this;
      _ ← match dirFdCache a with
          | Some _ =>
              if owning : bool then
                parent ← slift (from_opt AssertFailed (parent path));
                insertIntoDirFdCache this parent parentFd
              else mret ()
          | None => mret ()
          end;
      mret (Some parentFd)
  end.

(** The component of a path, in its directory. *)
Definition open_below (parentFd : fd) (path : CanonPath) (flags : oflags) : ST Posix (errno + fd) :=
  name ← slift (from_opt AssertFailed (baseName path));
  p ← slift (CanonPath_new name);
  openBeneath None parentFd p flags.

(** ** [PosixDirectorySourceAccessor] *)

Definition dir_maybeLstat (this : nat) (path : CanonPath) : ST Posix (option Stat) :=
  a ← get_accessor this;
  st ← (if isRoot path then st ← slift (fstat d (dirFd a)); mret (Some st)
        else
          parentFd ← openParentAndUpsert this path true;
          match parentFd with
          | None => mret None
          | Some parentFd =>
              name ← slift (from_opt AssertFailed (baseName path));
              match sys_fstatat d parentFd name with
              | inl ENOENT => mret None
              | inl _ => slift (Throw SystemError)
              | inr st => mret (Some st)
              end
          end);
  match st with
  | None => mret None
  | Some st => _ ← see_mtime this (ps_mtime st); mret (Some (sourceAccessorStatFromPosixStat st))
  end.

(** What [copyFdRange] copies of an open file. *)
Definition copyFdRange (f : fd) (offset nbytes : nat) : result bytes :=
  match lookup_path d f with
  | Some (NLeaf i) =>
      match inodes d !! i with
      | Some (mkInode (LRegular c _) _) =>
          _ ← throw_if (length c <? offset + nbytes)%nat EndOfFile;
          Ok (take nbytes (drop offset c))
      | _ => Throw SystemError
      end
  | _ => Throw SystemError
  end.

Definition new_file_accessor (f : fd) (track : bool) (st : PosixStat) : result PosixFileSourceAccessor :=
  _ ← assertb (bool_decide (ps_type st = S_IFREG));
  Ok (mkFile f st (maybeUpdateMtime track 0 (ps_mtime st))).

Definition file_readFile (a : PosixFileSourceAccessor) (path : CanonPath) : result (option Z * bytes) :=
  _ ← throw_if (negb (isRoot path)) NotADirectory;
  data ← copyFdRange (file_fd a) 0 (ps_size (file_st a));
  Ok (Some (Z.of_nat (ps_size (file_st a))), data).

Definition dir_readFile (this : nat) (path : CanonPath) : ST Posix (option Z * bytes) :=
  _ ← slift (throw_if (isRoot path) NotARegularFile);
  parentFd ← openParentAndUpsert this path false;
  parentFd ← slift (from_opt SystemError parentFd);
  fileFd ← open_below parentFd path O_RDONLY;
  match fileFd with
  | inl ENOENT => slift (Throw FileNotFound)
  | inl _ => slift (Throw SystemError)
  | inr fileFd =>
      st ← slift (fstat d fileFd);
      _ ← slift (throw_if (negb (bool_decide (ps_type st = S_IFREG))) NotARegularFile);
      a ← get_accessor this;
      fileAccessor ← slift (new_file_accessor fileFd (trackLastModified a) st);
      _ ← see_mtime this (ps_mtime st);
      slift (file_readFile fileAccessor root)
  end.

Definition openSubdirectory (this : nat) (path : CanonPath) : ST Posix fd :=
  if isRoot path then
    a ← get_accessor this;
    match lookup_path d (dirFd a) with
    | Some (NDir _ _ _) => mret (dirFd a)
    | _ => slift (Throw SystemError)
    end
  else
    parentFd ← openParentAndUpsert this path false;
    parentFd ← slift (from_opt SystemError parentFd);
    r ← open_below parentFd path O_RDONLY_DIRECTORY;
    match r with
    | inl ENOTDIR => slift (Throw NotADirectory)
    | inl _ => slift (Throw SystemError)
    | inr f => mret f
    end.

(** [d_type] of an entry. *)
Definition d_type (f : fd) (name : bytes) : option Type_ :=
  match sys_fstatat d f name with
  | inr st => Some (st_type (sourceAccessorStatFromPosixStat st))
  | inl _ => None
  end.

Definition read_entries (f : fd) : result (list (bytes * option Type_)) :=
  match lookup_path d f with
  | Some (NDir _ _ es) =>
      foreach (fun entries name =>
                 if bool_decide (name = #".") || bool_decide (name = #"..") then Ok entries
                 else Ok (emplace name (d_type f name) entries)) [] (readdir (es.*1))
  | _ => Throw SystemError
  end.

Definition dir_readDirectory (this : nat) (path : CanonPath) : ST Posix (list (bytes * option Type_)) :=
  f ← openSubdirectory this path;
  slift (read_entries f).

(** The variant with a callback runs it with an accessor of the directory,
    which has no cache and is gone afterwards. *)
Definition dir_readDirectory_cb {A} (this : nat) (dirPath : CanonPath) (callback : nat -> CanonPath -> ST Posix A) : ST Posix A :=
  f ← openSubdirectory this dirPath;
  a ← get_accessor this;
  n ← gets nextNumber;
  _ ← modify (fun s => mkPosix (<[n := mkDir f (trackLastModified a) None 0]> (accessors s)) (S n)
                 (globalDirFdCount s) (globalDirFdCacheRegistry s));
  finally (r ← callback n root; sub ← get_accessor n; _ ← see_mtime this (mtime sub); mret r)
    (fun s => set_accessors (delete n (accessors s))
       (match accessors s !! n with Some sub => clear_cache n sub s | None => s end)).

Definition dir_readLink (this : nat) (path : CanonPath) : ST Posix bytes :=
  _ ← slift (throw_if (isRoot path) NotASymlink);
  parentFd ← openParentAndUpsert this path false;
  parentFd ← slift (from_opt SystemError parentFd);
  name ← slift (from_opt AssertFailed (baseName path));
  p ← slift (CanonPath_new name);
  match readLinkAt d parentFd p with
  | inl EINVAL => slift (Throw NotASymlink)
  | inl _ => slift (Throw SystemError)
  | inr t => mret t
  end.

(** ** [PosixFileSourceAccessor] *)

Definition file_maybeLstat (a : PosixFileSourceAccessor) (path : CanonPath) : result (option Stat) :=
  if negb (isRoot path) then Ok None else Ok (Some (sourceAccessorStatFromPosixStat (file_st a))).
Definition file_readDirectory (a : PosixFileSourceAccessor) (path : CanonPath) : result (list (bytes * option Type_)) :=
  Throw NotADirectory.
Definition file_readLink (a : PosixFileSourceAccessor) (path : CanonPath) : result bytes :=
  if negb (isRoot path) then Throw NotADirectory else Throw NotASymlink.

(** ** [makeFSSourceAccessor] *)

Inductive FSSourceAccessor :=
  | AsFile (a : PosixFileSourceAccessor)
  | AsDirectory (this : nat)
  | AsSymlink (m : MemorySourceAccessor) (mtime : Z).

(** [open] of an absolute path. *)
Definition sys_open (path : list bytes) : errno + fd :=
  match sys_fstat d path with
  | None => inl ENOENT
  | Some st => match ps_type st with S_IFLNK => inl ELOOP | _ => inr path end
  end.
Inductive FinalSymlink := Follow | DontFollow.
Definition openFileReadonly (path : list bytes) (finalSymlink : FinalSymlink) : errno + fd :=
  match finalSymlink with Follow => follow path | DontFollow => sys_open path end.

Definition makeFSSourceAccessor (root : list bytes) (track : bool) (finalSymlink : FinalSymlink) : ST Posix FSSourceAccessor :=
  match openFileReadonly root finalSymlink with
  | inl e =>
      match finalSymlink, e with
      | DontFollow, ELOOP =>
          filename ← slift (from_opt AssertFailed (last root));
          parentFd ← slift (match lookup_path d (removelast root) with
                            | Some (NDir _ _ _) => Ok (removelast root)
                            | _ => Throw SystemError
                            end);
          relPath ← slift (fromFilename filename);
          mtime ← (if track then st ← slift (fstatat d parentFd filename); mret (ps_mtime st) else mret 0);
          linkTarget ← slift (match readLinkAt d parentFd relPath with inl _ => Throw SystemError | inr t => Ok t end);
          m ← slift (mem_createSymlink (mkMemory None) CanonPath.root linkTarget);
          mret (AsSymlink m mtime)
      | _, _ => slift (Throw SystemError)
      end
  | inr f =>
      st ← slift (fstat d f);
      match ps_type st with
      | S_IFREG => a ← slift (new_file_accessor f track st); mret (AsFile a)
      | S_IFDIR =>
          n ← gets nextNumber;
          let dirFdCacheSize := Z.to_nat (globalFdLimit `div` 8) in
          let cache := if (dirFdCacheSize =? 0)%nat then None else Some (new_LRUCache dirFdCacheSize) in
          _ ← modify (fun s => mkPosix (<[n := mkDir f track cache 0]> (accessors s)) (S n) (globalDirFdCount s)
                 (List.filter (fun i => bool_decide (is_Some (accessors s !! i))) (globalDirFdCacheRegistry s) ++ [n]));
          mret (AsDirectory n)
      | S_IFLNK => slift (Throw Error)
      end
  end.

(** ** The accessor *)

Definition fs_maybeLstat (a : FSSourceAccessor) (path : CanonPath) : ST Posix (option Stat) :=
  match a with
  | AsFile a => slift (file_maybeLstat a path)
  | AsDirectory n => dir_maybeLstat n path
  | AsSymlink m _ => slift (mem_maybeLstat m path)
  end.
(** [SourceAccessor::lstat] and [pathExists]; a file's own [pathExists] is
    whether the path is the root. *)
Definition fs_lstat (a : FSSourceAccessor) (path : CanonPath) : ST Posix Stat :=
  st ← fs_maybeLstat a path; slift (from_opt FileNotFound st).
Definition fs_pathExists (a : FSSourceAccessor) (path : CanonPath) : ST Posix bool :=
  match a with
  | AsFile a => mret (isRoot path)
  | AsDirectory n => st ← dir_maybeLstat n path; mret (bool_decide (is_Some st))
  | AsSymlink m _ => slift (mem_pathExists m path)
  end.
Definition fs_readFile (a : FSSourceAccessor) (path : CanonPath) : ST Posix (option Z * bytes) :=
  match a with
  | AsFile a => slift (file_readFile a path)
  | AsDirectory n => dir_readFile n path
  | AsSymlink m _ => slift (mem_readFile m path)
  end.
Definition fs_readDirectory (a : FSSourceAccessor) (path : CanonPath) : ST Posix (list (bytes * option Type_)) :=
  match a with
  | AsFile a => slift (file_readDirectory a path)
  | AsDirectory n => dir_readDirectory n path
  | AsSymlink m _ => slift (mem_readDirectory m path)
  end.
Definition fs_readLink (a : FSSourceAccessor) (path : CanonPath) : ST Posix bytes :=
  match a with
  | AsFile a => slift (file_readLink a path)
  | AsDirectory n => dir_readLink n path
  | AsSymlink m _ => slift (mem_readLink m path)
  end.
Definition getLastModified (a : FSSourceAccessor) (track : bool) : ST Posix (option Z) :=
  match a with
  | AsFile a => mret (if track then Some (file_mtime a) else None)
  | AsDirectory n => a ← get_accessor n; mret (if trackLastModified a then Some (mtime a) else None)
  | AsSymlink _ mtime => mret (if track then Some mtime else None)
  end.

(** ** The invariant of the caches *)

(** A cached directory is the one its key leads to from the root. *)
Definition entry_ok (a : PosixDirectorySourceAccessor) (key : CanonPath) (f : fd) : Prop :=
  exists cs, cs <> [] /\ Forall good cs /\ key = of_components cs /\ f = dirFd a ++ cs /\ is_dir d f.
Definition cache_ok (a : PosixDirectorySourceAccessor) (c : LRUCache CanonPath fd) : Prop :=
  wf c /\ forall key f, data c !! key = Some f -> entry_ok a key f.
Definition accessor_ok (a : PosixDirectorySourceAccessor) : Prop :=
  is_dir d (dirFd a) /\ forall c, dirFdCache a = Some c -> cache_ok a c.

Definition total (m : gmap nat PosixDirectorySourceAccessor) : Z := map_fold (fun _ a n => cache_len a + n) 0 m.

Record coherent (s : Posix) : Prop := {
  coh_accessors : forall n a, accessors s !! n = Some a -> accessor_ok a;
  coh_count : globalDirFdCount s = u32 (total (accessors s));
  coh_next : forall n, (nextNumber s <= n)%nat -> accessors s !! n = None;
}.

(** What no operation changes of an accessor, but its number. *)
Definition statics (a : PosixDirectorySourceAccessor) : fd * bool * bool :=
  (dirFd a, trackLastModified a, bool_decide (is_Some (dirFdCache a))).
Definition same_accessors (s s' : Posix) : Prop := statics <$> accessors s' = statics <$> accessors s.

Lemma total_insert m n a a' : m !! n = Some a -> total (<[n := a']> m) = total m - cache_len a + cache_len a'.
Proof.
  assert (forall m n a, m !! n = Some a -> total m = cache_len a + total (delete n m)) as Hd.
  { intros m0 n0 a0 H0. unfold total. rewrite (map_fold_delete_L _ 0 n0 a0 m0); [done|intros; cbn; lia|done]. }
  intros Hn. rewrite (Hd m n a Hn), (Hd (<[n := a']> m) n a') by apply lookup_insert_eq.
  rewrite delete_insert_eq. lia.
Qed.

Lemma u32_add x y : u32 (u32 x + y) = u32 (x + y).
Proof. unfold u32. by rewrite Zplus_mod_idemp_l. Qed.

Lemma cache_len_nonneg a : 0 <= cache_len a.
Proof. unfold cache_len. destruct (dirFdCache a); lia. Qed.

Section inv.
Context (S0 : gmap nat (fd * bool * bool)).
Definition Inv (s : Posix) : Prop := coherent s /\ statics <$> accessors s = S0.

Lemma Inv_lookup s n : Inv s -> statics <$> accessors s !! n = S0 !! n.
Proof. intros [_ <-]. by rewrite lookup_fmap. Qed.

(** Replacing an accessor, with the count adjusted by what its cache gained. *)
Lemma Inv_put s n a a' registry count :
  Inv s -> accessors s !! n = Some a -> accessor_ok a' -> statics a' = statics a ->
  count = u32 (globalDirFdCount s + (cache_len a' - cache_len a)) ->
  Inv (mkPosix (<[n := a']> (accessors s)) (nextNumber s) count registry).
Proof.
  intros [[Ha Hc Hn] HS] Hl Ha' Hst ->. split; [split; cbn|cbn].
  - intros m b. destruct (decide (m = n)) as [->|Hm]; [rewrite lookup_insert_eq; by intros [= <-]|].
    rewrite lookup_insert_ne by done. apply Ha.
  - rewrite Hc, u32_add, (total_insert _ _ _ _ Hl). f_equal. lia.
  - intros m Hm. destruct (decide (m = n)) as [->|Hmn]; [by rewrite Hn in Hl|]. rewrite lookup_insert_ne by done. by apply Hn.
  - rewrite fmap_insert, Hst, HS. apply insert_id. by rewrite <- HS, lookup_fmap, Hl.
Qed.

Lemma Inv_registry s r : Inv s -> Inv (mkPosix (accessors s) (nextNumber s) (globalDirFdCount s) r).
Proof. intros [[Ha Hc Hn] HS]. done. Qed.

Lemma clear_ok a c : accessor_ok a -> accessor_ok (set_cache (Some (clear c)) a).
Proof.
  intros [Hd _]. split; [exact Hd|]. intros c' [= <-]. split; [|done].
  split; cbn; [constructor| |rewrite map_size_empty; lia].
  intros k. rewrite lookup_empty. split; [by intros ?%not_elem_of_nil|by intros []].
Qed.

Lemma Inv_clear s n a : Inv s -> accessors s !! n = Some a -> Inv (clear_cache n a s).
Proof.
  intros HI Hl. unfold clear_cache. destruct (dirFdCache a) as [c|] eqn:Hc; [|done].
  apply (Inv_put s n a); [done..| | |].
  - apply clear_ok. by apply HI in Hl.
  - unfold statics, set_cache. cbn. by rewrite Hc.
  - unfold cache_len, set_cache. cbn. rewrite Hc. unfold cache_size, clear. cbn. rewrite map_size_empty. done.
Qed.

Lemma Inv_evict registry s : Inv s -> Inv (evict registry s).2.
Proof.
  revert s; induction registry as [|id rest IH]; intros s HI; cbn [evict]; [done|].
  destruct (globalDirFdCount s <? globalFdLimit); [done|].
  destruct (accessors s !! id) as [a|] eqn:Ha; [|by apply IH].
  specialize (IH (clear_cache id a s) (Inv_clear _ _ _ HI Ha)). by destruct (evict rest _).
Qed.

Lemma Inv_maybeEvict s : Inv s -> leads maybeEvictFromGlobalCaches s (fun _ => Inv) (fun _ _ => False).
Proof.
  intros HI. unfold leads, maybeEvictFromGlobalCaches, modify. destruct (globalDirFdCount s <? globalFdLimit); [done|].
  pose proof (Inv_evict (globalDirFdCacheRegistry s) s HI) as H. destruct (evict _ s) as [r s']. by apply Inv_registry.
Qed.

(** The accessor the calls are on. *)
Context (this : nat) (root : fd) (track cached : bool) (Hthis : S0 !! this = Some (root, track, cached)).

Definition mine (a : PosixDirectorySourceAccessor) : Prop :=
  dirFd a = root /\ trackLastModified a = track /\ bool_decide (is_Some (dirFdCache a)) = cached /\ accessor_ok a.

Lemma mine_statics a : mine a -> statics a = (root, track, cached).
Proof using Type. unfold mine, statics. by intros (-> & -> & -> & _). Qed.

Lemma lead_get {B} s (k : PosixDirectorySourceAccessor -> ST Posix B) Q E :
  Inv s -> (forall a, accessors s !! this = Some a -> mine a -> leads (k a) s Q E) -> leads (get_accessor this ≫= k) s Q E.
Proof using Hthis.
  intros HI Hk. pose proof (Inv_lookup s this HI) as Hl. rewrite Hthis in Hl.
  destruct (accessors s !! this) as [a|] eqn:Ha; [|done]. injection Hl as Hr Ht Hc.
  unfold leads. rewrite (ST_bind_Ok _ _ _ a s); [apply (Hk a); [done|]; repeat (split; [done|]); by apply HI in Ha|].
  unfold get_accessor, gets, slift, mbind, ST_bind. by rewrite Ha.
Qed.

(** Changing the accessor but for its cache. *)
Lemma lead_see s t : Inv s -> leads (see_mtime this t) s (fun _ => Inv) (fun _ _ => False).
Proof using Hthis.
  intros HI. unfold see_mtime. apply lead_get; [done|]. intros a Ha Hm. unfold leads, put_accessor, modify.
  apply (Inv_put s this a); [done|done|by apply HI in Ha|done|].
  destruct HI as [[_ Hc _] _]. rewrite Hc, u32_add. f_equal. unfold cache_len. cbn. lia.
Qed.

Lemma lead_insert s cs :
  Inv s -> cached = true -> cs <> [] -> Forall good cs -> is_dir d (root ++ cs) ->
  leads (insertIntoDirFdCache this (of_components cs) (root ++ cs)) s (fun _ => Inv) (fun _ _ => False).
Proof using Hthis.
  intros HI Hcached Hcs Hg Hd. unfold insertIntoDirFdCache. apply lead_get; [done|]. intros a Ha Hm.
  pose proof Hm as (Hr & Ht & Hb & Hok). rewrite Hcached in Hb. apply bool_decide_eq_true in Hb as [c Hc].
  rewrite Hc. unfold leads. cbn [from_opt]. rewrite slift_bind_Ok.
  destruct Hok as [Hrd Hcc]. destruct (Hcc c Hc) as [Hw Hent].
  destruct (upsert_spec c (of_components cs) (root ++ cs) Hw) as (c' & Hu & Hw' & _). rewrite Hu, slift_bind_Ok.
  unfold put_accessor. rewrite modify_bind. unfold modify, set_accessors, add_count. cbn.
  apply (Inv_put s this a); [done|done| | |].
  - split; [exact Hrd|]. intros c0 [= <-]. split; [done|]. intros key f Hkey.
    destruct (upsert_data _ _ _ _ _ _ Hu Hkey) as [[-> ->]|Hold].
    + exists cs. unfold set_cache; cbn. by rewrite Hr.
    + by apply Hent.
  - unfold statics, set_cache. cbn. by rewrite Hc.
  - f_equal. unfold cache_len, set_cache. cbn. rewrite Hc. lia.
Qed.

Lemma leads_slift_Ok {St A B} (a : A) (f : A -> ST St B) s Q E : leads (f a) s Q E -> leads (slift (Ok a) ≫= f) s Q E.
Proof. done. Qed.
Lemma leads_slift_Throw {St A B} e (f : A -> ST St B) s Q (E : exn -> St -> Prop) : E e s -> leads (slift (Throw e) ≫= f) s Q E.
Proof. done. Qed.

(** *** Opening the directory of a path *)

Lemma nearest_spec a cs : Forall good cs -> forall fuel c, (length cs <= fuel)%nat -> cache_ok a c ->
  let '(r, c') := nearest fuel (of_components cs) c in
  cache_ok a c' /\ data c' = data c /\
  (r = Ok None \/ exists ds es, cs = ds ++ es /\ ds <> [] /\ r = Ok (Some (of_components ds, dirFd a ++ ds)) /\ is_dir d (dirFd a ++ ds)).
Proof.
  intros Hg. induction cs as [|x cs IH] using rev_ind; intros fuel c Hf [Hw Hent];
    pose proof (get_keeps_data c) as Hgd; pose proof (get_fst c) as Hgf;
    assert (forall k, cache_ok a (get c k).2) as Hget by (intros k; split; [apply get_spec, Hw|intros k' f'; rewrite Hgd; apply Hent]).
  - assert (data c !! of_components [] = None) as Hnone.
    { destruct (data c !! of_components []) as [f|] eqn:Hd; [|done]. apply Hent in Hd as (ds & Hds & Hgs & Heq & _).
      by apply of_components_inj in Heq; [subst|constructor|]. }
    destruct fuel; cbn [nearest]; specialize (Hgf (of_components [])); specialize (Hgd (of_components [])); specialize (Hget (of_components []));
      destruct (get c (of_components [])) as [[f|] c']; cbn in *; try congruence; (split; [done|]; split; [done|by left]).
  - rewrite length_app in Hf. cbn in Hf. destruct fuel as [|fuel]; [lia|]. cbn [nearest].
    specialize (Hgf (of_components (cs ++ [x]))). specialize (Hgd (of_components (cs ++ [x]))). specialize (Hget (of_components (cs ++ [x]))).
    destruct (get c (of_components (cs ++ [x]))) as [[f|] c'] eqn:Hgc; cbn [fst snd] in *.
    + split; [done|]. split; [done|]. right. symmetry in Hgf. apply Hent in Hgf as (ds & Hds & Hgs & Heq & -> & Hdir).
      apply of_components_inj in Heq as <-; [|done..]. exists (cs ++ [x]), []. by rewrite app_nil_r.
    + rewrite isRoot_snoc, pop_snoc by done. pose proof Hg as [Hg' _]%Forall_app.
      specialize (IH Hg' fuel c' ltac:(lia) Hget). destruct (nearest fuel _ c') as [r c'']. destruct IH as (H1 & H2 & H3).
      split; [done|]. split; [congruence|]. destruct H3 as [?|(ds & es & -> & ? & ? & ?)]; [by left|right].
      exists ds, (es ++ [x]). by rewrite app_assoc.
Qed.

Lemma lead_search s a cs :
  Inv s -> accessors s !! this = Some a -> mine a -> Forall good cs ->
  leads (search_cache this a (of_components cs)) s
    (fun r s' => Inv s' /\
       match r with
       | None => True
       | Some (p, f) => exists ds es, cs = ds ++ es /\ ds <> [] /\ p = of_components ds /\ f = root ++ ds /\ is_dir d f /\ cached = true
       end)
    (fun _ _ => False).
Proof using Hthis.
  intros HI Ha Hm Hg. unfold search_cache. pose proof Hm as (Hr & Ht & Hb & Hrd & Hcc).
  destruct (dirFdCache a) as [c|] eqn:Hc; [|done].
  assert (length cs <= length (path (of_components cs)))%nat as Hlen.
  { apply length_le_join. }
  pose proof (nearest_spec a cs Hg _ c Hlen (Hcc c eq_refl)) as Hn.
  destruct (nearest _ (of_components cs) c) as [hit c']. destruct Hn as (Hok & Hdata & Hhit).
  unfold leads. unfold put_accessor. rewrite modify_bind. cbn [fst snd].
  assert (Inv (set_accessors (<[this:=set_cache (Some c') a]> (accessors s)) s)) as HI'.
  { apply (Inv_put s this a); [done|done| | |].
    - split; [done|]. by intros c0 [= <-].
    - unfold statics, set_cache. cbn. by rewrite Hc.
    - destruct HI as [[_ Hcount _] _]. rewrite Hcount, u32_add. f_equal. unfold cache_len, set_cache, cache_size. cbn.
      rewrite Hc, Hdata. lia. }
  destruct Hhit as [-> |(ds & es & -> & Hds & -> & Hdir)]; [done|]. cbn. split; [done|].
  exists ds, es. rewrite Hr in *. rewrite <- Hb. done.
Qed.

(** The directory of [cs ++ [x]]. *)
Lemma lead_openParent s cs x :
  Inv s -> Forall good (cs ++ [x]) ->
  leads (openParent this (of_components (cs ++ [x]))) s
    (fun r s' => Inv s' /\ beneath d root cs O_RDONLY_DIRECTORY = Ok (match r with inl e => inl e | inr (f, _) => inr f end) /\
       match r with inr (_, true) => cs <> [] | _ => True end)
    (fun e s' => Inv s' /\ beneath d root cs O_RDONLY_DIRECTORY = Throw e).
Proof using Hthis.
  intros HI Hg. pose proof Hg as [Hgc _]%Forall_app. unfold openParent. apply lead_get; [done|]. intros a Ha Hm.
  rewrite isRoot_snoc, parent_snoc by done. apply leads_slift_Ok, leads_slift_Ok.
  rewrite isRoot_of by done. case_bool_decide as Hcs.
  { subst cs. cbn. split; [done|]. split; [|done]. by destruct Hm as (-> & _). }
  apply leads_bind. eapply leads_mono; [by apply Inv_maybeEvict| |done]. intros u s1 HI1; cbn beta in HI1. clear a Ha Hm.
  apply lead_get; [done|]. intros a Ha Hm. apply leads_bind. eapply leads_mono; [by apply lead_search| |done].
  intros hit s2 (HI2 & Hhit). destruct Hm as (Hr & _ & Hb & Hrd & _).
  assert (forall pre cs', Forall good (pre ++ cs') -> cs' <> [] -> is_dir d (root ++ pre) ->
    forall cb : option (fd -> CanonPath -> ST Posix unit),
    (forall cbf, cb = Some cbf -> cached = true /\ forall f ks, Forall good ks ->
      cbf f (of_components ks) = insertIntoDirFdCache this (concat_path (of_components pre) (of_components ks)) f) ->
    leads (openBeneath cb (root ++ pre) (of_components cs') O_RDONLY_DIRECTORY ≫= (fun r => mret match r with inl e => inl e | inr f => inr (f, true) end)) s2
      (fun r s' => Inv s' /\ beneath d root (pre ++ cs') O_RDONLY_DIRECTORY = Ok (match r with inl e => inl e | inr (f, _) => inr f end) /\
         match r with inr (_, true) => pre ++ cs' <> [] | _ => True end)
      (fun e s' => Inv s' /\ beneath d root (pre ++ cs') O_RDONLY_DIRECTORY = Throw e)) as Hopen.
  { intros pre cs' Hgp Hcs' Hdir cb Hcb. pose proof Hgp as [Hg1 Hg2]%Forall_app. rewrite beneath_app by done.
    apply leads_bind. eapply leads_mono; [apply (open_beneath d openat2_supported cb Inv)|..]; [|done|done|done| |by intros].
    - intros cbf ds s3 Heq Hds Hgd Hd3 HI3. destruct (Hcb cbf Heq) as [Hcached ->]; [|done]. rewrite concat_path_of, <- app_assoc by done.
      apply lead_insert; [done|done|by destruct pre|by apply Forall_app|by rewrite app_assoc].
    - intros r s3 [HI3 Hb3]. unfold leads. cbn. split; [done|]. rewrite Hb3. destruct r; [done|]. split; [done|]. by destruct pre. }
  destruct hit as [[p f]|].
  - destruct Hhit as (ds & es & -> & Hds & -> & -> & Hdir & Hcached).
    pose proof Hgc as [Hgd Hge]%Forall_app.
    case_decide as Heq.
    + apply of_components_inj in Heq; [|done..]. rewrite <- Heq. unfold leads. cbn. split; [done|].
      split; [|done]. rewrite <- (app_nil_r ds) at 1. by rewrite beneath_app.
    + rewrite removePrefix_of by done. apply leads_slift_Ok. apply Hopen; [done| |done|].
      * intros ->. by rewrite app_nil_r in Heq.
      * intros cbf Hcb. split; [done|]. unfold makeDirFdCallback in Hcb. destruct (dirFdCache a); [|done].
        cbn in Hcb. by injection Hcb as <-.
  - rewrite Hr. specialize (Hopen [] cs). rewrite app_nil_r in Hopen. apply Hopen; [done..| |].
    + by rewrite <- Hr.
    + intros cbf Hcb. unfold makeDirFdCallback in Hcb. destruct (dirFdCache a) eqn:Hc; [|done]. injection Hcb as <-.
      split; [by rewrite <- Hb|]. intros f ks Hks. by rewrite concat_path_of.
Qed.

(** *** The operations *)

Context (es : list (bytes * File)) (Hview : view_at d root = Some (Directory es)).
Notation resolved := (resolve_file (Directory es)).

(** [m] answers as [spec], but for the exception when nothing is found. *)
Definition missing_errors : list exn := [FileNotFound; SystemError; NotADirectory].
Definition answers {A} (m : ST Posix A) (s : Posix) (spec : result A) : Prop :=
  leads m s (fun a s' => Inv s' /\ spec = Ok a)
    (fun e s' => Inv s' /\ (spec = Throw e \/ spec = Throw FileNotFound /\ e ∈ missing_errors)).

Lemma beneath_parent cs : Forall good cs ->
  match resolved cs with
  | Throw e => beneath d root cs O_RDONLY_DIRECTORY = Throw e
  | Ok (Some (Directory _)) => beneath d root cs O_RDONLY_DIRECTORY = Ok (inr (root ++ cs))
  | Ok (Some (Symlink _)) => beneath d root cs O_RDONLY_DIRECTORY = Throw SymlinkNotAllowed
  | _ => exists e, (e = ENOENT \/ e = ENOTDIR) /\ beneath d root cs O_RDONLY_DIRECTORY = Ok (inl e)
  end.
Proof using Hview.
  intros Hg. destruct (decide (cs = [])) as [->|Hcs]; [cbn; by rewrite app_nil_r|].
  pose proof (beneath_resolve d true cs Hcs _ _ Hview) as H.
  destruct (resolved cs) as [[[]|]|]; [by exists ENOTDIR; auto|done..| |done].
  destruct H as [H|[H _]]; [exists ENOENT|exists ENOTDIR]; auto.
Qed.

Lemma lead_upsert s cs x ignoreMissing :
  Inv s -> Forall good (cs ++ [x]) ->
  leads (openParentAndUpsert this (of_components (cs ++ [x])) ignoreMissing) s
    (fun o s' => Inv s' /\
       match o with
       | Some f => f = root ++ cs /\ exists es', resolved cs = Ok (Some (Directory es'))
       | None => ignoreMissing = true /\ resolved (cs ++ [x]) = Ok None
       end)
    (fun e s' => Inv s' /\ (resolved (cs ++ [x]) = Throw e \/ (e = FileNotFound /\ ignoreMissing = false /\ resolved (cs ++ [x]) = Ok None))).
Proof using Hthis Hview.
  intros HI Hg. pose proof Hg as [Hgc _]%Forall_app. unfold openParentAndUpsert. apply leads_bind.
  pose proof (beneath_parent cs Hgc) as Hb. rewrite resolve_file_snoc.
  eapply leads_mono; [by apply lead_openParent|..]; cbn beta.
  - intros r s1 (HI1 & Hr & Hown). rewrite Hr in Hb. destruct r as [e|[f owning]].
    + assert ((e = ENOENT \/ e = ENOTDIR) /\ (resolved cs = Ok None \/ exists b c, resolved cs = Ok (Some (Regular b c)))) as [He Hc].
      { destruct (resolved cs) as [[[]|]|]; try done; destruct Hb as (e' & He' & [= <-]); split; eauto. }
      rewrite decide_True by done. destruct ignoreMissing; (split; [done|]).
      * split; [done|]. by destruct Hc as [-> |(b & c & ->)].
      * right. split; [done|]. split; [done|]. by destruct Hc as [-> |(b & c & ->)].
    + assert (f = root ++ cs /\ exists es', resolved cs = Ok (Some (Directory es'))) as (-> & es' & He).
      { destruct (resolved cs) as [[[]|]|]; try done; try (by destruct Hb as (? & _ & ?)). injection Hb as ->. eauto. }
      apply lead_get; [done|]. intros a Ha Hm. apply leads_bind.
      assert (is_dir d (root ++ cs)) as Hdir.
      { apply resolve_file_node in He. apply (view_is_dir _ _ es'). by rewrite (view_at_below _ _ _ _ Hview). }
      apply leads_mono with (Q := fun _ => Inv) (E := fun _ _ => False); [| |done].
      * destruct Hm as (_ & _ & Hb' & _). destruct (dirFdCache a) as [c|]; [|done]. destruct owning; [|done].
        rewrite parent_snoc by done. apply leads_slift_Ok. by apply lead_insert.
      * intros u s2 HI2. cbn beta in HI2. unfold leads. cbn. split; [done|]. split; [done|]. by exists es'.
  - intros e s1 [HI1 He]. split; [done|]. left. rewrite He in Hb.
    destruct (resolved cs) as [[[]|]|]; try done; try (by destruct Hb as (? & _ & ?)); by injection Hb as ->.
Qed.

Lemma mem_open cs : Forall good cs -> open_read (mkMemory (Some (Directory es))) (of_components cs) = resolved cs.
Proof. apply open_read_resolve. Qed.

Lemma stat_shows_stat st f : stat_shows st f -> sourceAccessorStatFromPosixStat st = file_lstat f.
Proof.
  unfold sourceAccessorStatFromPosixStat. destruct f as [x c|l|t]; cbn [stat_shows file_lstat].
  - intros (-> & -> & <-). done.
  - by intros ->.
  - by intros ->.
Qed.

Lemma answers_maybeLstat s cs : Inv s -> Forall good cs ->
  answers (dir_maybeLstat this (of_components cs)) s (option_map file_lstat <$> resolved cs).
Proof using Hthis Hview.
  intros HI Hg. unfold dir_maybeLstat, answers. apply lead_get; [done|]. intros a Ha (Hr & _ & _ & _).
  assert (forall o s1, Inv s1 -> match o with Some st => exists f, stat_shows st f /\ resolved cs = Ok (Some f) | None => resolved cs = Ok None end ->
    leads (match o with None => mret None | Some st => _ ← see_mtime this (ps_mtime st); mret (Some (sourceAccessorStatFromPosixStat st)) end) s1
      (fun a s' => Inv s' /\ (option_map file_lstat <$> resolved cs) = Ok a)
      (fun e s' => Inv s' /\ ((option_map file_lstat <$> resolved cs) = Throw e \/
         (option_map file_lstat <$> resolved cs) = Throw FileNotFound /\ e ∈ missing_errors))) as Hlast.
  { intros [st|] s1 HI1 Ho.
    - destruct Ho as (f & Hf & ->). apply leads_bind. eapply leads_mono; [by apply lead_see| |done].
      intros u s2 HI2; cbn beta in HI2. unfold leads. cbn. split; [done|]. by rewrite (stat_shows_stat _ _ Hf).
    - by rewrite Ho. }
  rewrite isRoot_of by done. case_bool_decide as Hcs.
  - subst cs. destruct (fstat_view d _ _ Hview) as (st & Hst & Hsh). unfold fstat. rewrite Hr, Hst.
    apply (Hlast (Some st)); [done|]. by exists (Directory es).
  - destruct cs as [|x cs _] using rev_ind; [done|]. apply leads_bind, leads_bind.
    eapply leads_mono; [by apply lead_upsert|..]; cbn beta.
    + intros [f|] s1 [HI1 Ho]; [|by apply (Hlast None); [|apply Ho]]. destruct Ho as (-> & es' & He).
      rewrite baseName_snoc by done. apply leads_slift_Ok.
      pose proof He as Hv. apply resolve_file_node in Hv. rewrite <- (view_at_below _ _ _ _ Hview) in Hv.
      pose proof (fstatat_view d _ _ x Hv) as Hst. rewrite resolve_file_snoc, He in *. cbn [mbind result_bind] in *.
      destruct (entry_lookup x es') as [g|]; [destruct Hst as (st & -> & Hst)|rewrite Hst].
      * apply (Hlast (Some st)); [done|]. by exists g.
      * by apply (Hlast None).
    + intros e s1 [HI1 [->|(_ & ? & _)]]; [|done]. by split; [|left].
Qed.

(** Opening a file in the directory of its path. *)
Lemma lead_open_below dirFlag s cs x es' :
  Inv s -> Forall good (cs ++ [x]) -> resolved cs = Ok (Some (Directory es')) ->
  leads (open_below (root ++ cs) (of_components (cs ++ [x])) (mkFlags dirFlag false)) s
    (fun r s' => Inv s' /\
       match entry_lookup x es' with
       | None => r = inl ENOENT
       | Some (Directory _) => r = inr (root ++ cs ++ [x])
       | Some (Regular _ _) => r = (if dirFlag then inl ENOTDIR else inr (root ++ cs ++ [x]))
       | Some (Symlink _) => False
       end)
    (fun e s' => Inv s' /\ e = SymlinkNotAllowed /\ exists t, entry_lookup x es' = Some (Symlink t)).
Proof using Hview.
  intros HI Hg He. pose proof Hg as [Hgc Hgx]%Forall_app. unfold open_below. rewrite baseName_snoc by done. apply leads_slift_Ok.
  rewrite CanonPath_new_single by (by apply Forall_singleton). apply leads_slift_Ok.
  pose proof He as Hv. apply resolve_file_node in Hv. rewrite <- (view_at_below _ _ _ _ Hview) in Hv.
  pose proof (beneath_resolve d dirFlag [x] ltac:(done) _ _ Hv) as Hb. cbn [resolve_file length] in Hb. rewrite <- app_assoc in Hb.
  eapply leads_mono; [by apply (open_beneath d openat2_supported None Inv)|..]; cbn beta.
  - intros r s1 [HI1 Hr]. split; [done|]. rewrite Hr in Hb. destruct (entry_lookup x es') as [[]|]; try (by injection Hb as ->); [done|].
    destruct Hb as [?|[_ ?]]; [congruence|lia].
  - intros e s1 [HI1 Hr]. split; [done|]. rewrite Hr in Hb. destruct (entry_lookup x es') as [[]|]; try done.
    + split; [congruence|eauto].
    + by destruct Hb as [?|[? _]].
Qed.

(** The operations that need the path's directory. *)
Lemma answers_below {A} s cs x (k : option fd -> ST Posix A) (spec : File -> result A) :
  Inv s -> Forall good (cs ++ [x]) ->
  (forall s1 es', Inv s1 -> resolved cs = Ok (Some (Directory es')) ->
     answers (k (Some (root ++ cs))) s1 (f ← from_opt FileNotFound (entry_lookup x es'); spec f)) ->
  answers (openParentAndUpsert this (of_components (cs ++ [x])) false ≫= k) s
    (o ← resolved (cs ++ [x]); f ← from_opt FileNotFound o; spec f).
Proof using Hthis Hview.
  intros HI Hg Hk. unfold answers. apply leads_bind. eapply leads_mono; [by apply lead_upsert|..]; cbn beta.
  - intros [f|] s1 [HI1 Ho]; [|by destruct Ho]. destruct Ho as (-> & es' & He). specialize (Hk s1 es' HI1 He).
    rewrite resolve_file_snoc, He. exact Hk.
  - intros e s1 [HI1 [->|(-> & _ & ->)]]; (split; [done|]); by left.
Qed.

Definition file_contents (f : File) : result (option Z * bytes) :=
  match f with
  | Regular _ c => Ok (Some (Z.of_nat (length c)), c)
  | Directory _ => Throw NotARegularFile
  | Symlink _ => Throw SymlinkNotAllowed
  end.

Lemma copy_whole p x c : view_at d p = Some (Regular x c) -> copyFdRange p 0 (length c) = Ok c.
Proof.
  unfold view_at, peek, copyFdRange, lookup_path. destruct (node_lookup (tree d) p) as [[i|m t l]|]; [| |done]; cbn [mbind option_bind].
  - cbn [view]. destruct (inodes d !! i) as [[[c' m|t] ?]|]; intros [= _ <-]. rewrite Nat.add_0_l, Nat.ltb_irrefl, drop_0.
    cbn. by rewrite firstn_all.
  - rewrite view_NDir. by destruct (view_entries _ _).
Qed.

Lemma answers_readFile s cs : Inv s -> Forall good cs ->
  answers (dir_readFile this (of_components cs)) s (o ← resolved cs; f ← from_opt FileNotFound o; file_contents f).
Proof using Hthis Hview.
  intros HI Hg. unfold dir_readFile. rewrite isRoot_of by done. case_bool_decide as Hcs.
  { subst cs. unfold answers. apply leads_slift_Throw. split; [done|by left]. }
  destruct cs as [|x cs _] using rev_ind; [done|]. apply leads_slift_Ok, (answers_below s cs x _ file_contents); [done..|].
  intros s1 es' HI1 He. apply leads_slift_Ok, leads_bind. eapply leads_mono; [by apply (lead_open_below false)|..]; cbn beta.
  - intros r s2 [HI2 Hr]. pose proof He as Hv. apply resolve_file_node in Hv. rewrite <- (view_at_below _ _ _ _ Hview) in Hv.
    pose proof (view_entry d _ _ x Hv) as Hx. rewrite <- app_assoc in Hx.
    destruct (entry_lookup x es') as [g|]; [|subst r; split; [done|by left]].
    destruct (fstat_view d _ _ Hx) as (st & Hst & Hsh).
    destruct g as [b c|l|t]; [destruct Hsh as (Ht & Hs & _)| |done]; subst r; cbn [stat_shows] in *; unfold fstat; rewrite Hst; apply leads_slift_Ok.
    + rewrite Ht. apply leads_slift_Ok, lead_get; [done|]. intros a Ha Hm. unfold new_file_accessor. rewrite Ht.
      apply leads_slift_Ok, leads_bind. eapply leads_mono; [by apply lead_see| |done]. intros u s3 HI3; cbn beta in HI3.
      unfold leads, file_readFile, slift. cbn [isRoot throw_if file_fd file_st]. rewrite Hs, (copy_whole _ _ _ Hx). done.
    + rewrite Hsh. apply leads_slift_Throw. split; [done|by left].
  - intros e s2 (HI2 & -> & t & ->). split; [done|by left].
Qed.

Definition file_target (f : File) : result bytes := match f with Symlink t => Ok t | _ => Throw NotASymlink end.

Lemma answers_readLink s cs : Inv s -> Forall good cs ->
  answers (dir_readLink this (of_components cs)) s (o ← resolved cs; f ← from_opt FileNotFound o; file_target f).
Proof using Hthis Hview.
  intros HI Hg. unfold dir_readLink. rewrite isRoot_of by done. case_bool_decide as Hcs.
  { subst cs. unfold answers. apply leads_slift_Throw. split; [done|by left]. }
  destruct cs as [|x cs _] using rev_ind; [done|]. apply leads_slift_Ok, (answers_below s cs x _ file_target); [done..|].
  intros s1 es' HI1 He. apply leads_slift_Ok. rewrite baseName_snoc by done. apply leads_slift_Ok.
  pose proof Hg as [_ Hgx]%Forall_app. rewrite CanonPath_new_single by (by apply Forall_singleton). apply leads_slift_Ok.
  pose proof He as Hv. apply resolve_file_node in Hv. rewrite <- (view_at_below _ _ _ _ Hview) in Hv.
  pose proof (view_entry d _ _ x Hv) as Hx. pose proof (view_dir d _ _ Hv) as (m & t & ns & Hl & Hns).
  pose proof (view_entries_lookup _ _ _ x Hns) as Hxe.
  unfold readLinkAt, sys_readlinkat, lookup_path in *. rewrite elems_of by done. rewrite node_lookup_app, Hl. cbn [mbind option_bind node_lookup].
  unfold answers, leads. destruct (entry_lookup x ns) as [n|], (entry_lookup x es') as [g|]; try done.
  - destruct n as [i|m' t' l]; [|rewrite view_NDir in Hxe; destruct (view_entries _ l); [|done]; injection Hxe as <-; split; [done|by left]].
    cbn [view] in Hxe. destruct (inodes d !! i) as [[[c md|tg] ?]|]; [| |done]; injection Hxe as <-; cbn; (split; [done|]); [by left|done].
  - cbn. split; [done|]. right. split; [done|]. right. left.
Qed.

Definition file_entries (f : File) : result (list (bytes * option Type_)) :=
  match f with
  | Directory es => Ok (foldl (fun res e => entry_insert (e.1) (Some (st_type (file_lstat (e.2)))) res) [] es)
  | Regular _ _ => Throw NotADirectory
  | Symlink _ => Throw SymlinkNotAllowed
  end.

Lemma answers_openSubdirectory {A} s cs (k : fd -> ST Posix A) (spec : list (bytes * File) -> result A) :
  Inv s -> Forall good cs ->
  (forall s1 es', Inv s1 -> view_at d (root ++ cs) = Some (Directory es') -> answers (k (root ++ cs)) s1 (spec es')) ->
  answers (openSubdirectory this (of_components cs) ≫= k) s
    (o ← resolved cs; f ← from_opt FileNotFound o;
     match f with Directory es => spec es | Regular _ _ => Throw NotADirectory | Symlink _ => Throw SymlinkNotAllowed end).
Proof using Hthis Hview.
  intros HI Hg Hk. unfold openSubdirectory. rewrite isRoot_of by done. case_bool_decide as Hcs.
  - subst cs. unfold answers. apply leads_bind, lead_get; [done|]. intros a Ha (Hr & _ & _ & Hd & _). rewrite Hr in *.
    destruct Hd as (m & t & ns & ->). specialize (Hk s es HI). rewrite app_nil_r in Hk. by apply Hk.
  - destruct cs as [|x cs _] using rev_ind; [done|]. unfold answers.
    assert (forall {B} (m : ST Posix (option fd)) (g : option fd -> ST Posix B) (h : B -> ST Posix A), ((m ≫= g) ≫= h) s = (m ≫= (fun o => g o ≫= h)) s) as Hassoc.
    { intros B m g h. unfold mbind, ST_bind. by destruct (m s) as [[o|e] s']. }
    unfold leads. rewrite Hassoc. apply (answers_below s cs x _
      (fun f => match f with Directory es => spec es | Regular _ _ => Throw NotADirectory | Symlink _ => Throw SymlinkNotAllowed end)); [done..|].
    intros s1 es' HI1 He. unfold answers. apply leads_bind, leads_slift_Ok, leads_bind.
    eapply leads_mono; [by apply (lead_open_below true)|..]; cbn beta.
    + intros r s2 [HI2 Hr]. pose proof He as Hv. apply resolve_file_node in Hv. rewrite <- (view_at_below _ _ _ _ Hview) in Hv.
      pose proof (view_entry d _ _ x Hv) as Hx. rewrite <- app_assoc in Hx.
      destruct (entry_lookup x es') as [[b c|l|t]|]; subst; [|by apply Hk|done|]; (split; [done|]); [by left|].
      right. split; [done|]. right. left.
    + intros e s2 (HI2 & -> & t & ->). split; [done|by left].
Qed.

Context (readdir_lists : forall names, readdir names ≡ₚ [ #"."; #".."] ++ names).

(** Directories are maps with valid names. *)
Definition directory_ok (es : list (bytes * File)) : Prop := StronglySorted bytes_lt (es.*1) /\ Forall good (es.*1).
Context (names_ok : forall p es', view_at d (root ++ p) = Some (Directory es') -> directory_ok es').

Lemma view_entries_keys inos ns l : view_entries inos ns = Some l -> l.*1 = ns.*1.
Proof.
  unfold view_entries. revert l; induction ns as [|[n x] ns IH]; intros l; cbn [mapM]; [by intros [= <-]|].
  cbn [fst snd]. destruct (view inos x) as [f|]; [|done]. cbn [mbind option_bind]. destruct (mapM _ ns) as [l'|]; [|done].
  cbn. intros [= <-]. cbn. by rewrite (IH l').
Qed.

Lemma file_entries_sorted l : StronglySorted bytes_lt (l.*1) ->
  file_entries (Directory l) = Ok ((fun e => (e.1, Some (st_type (file_lstat (e.2))))) <$> l).
Proof. intros Hs. exact (mem_readDirectory_sorted (mkMemory (Some (Directory l))) [] l (Forall_nil_2 _) eq_refl Hs). Qed.

Definition dots (name : bytes) : bool := bool_decide (name = #".") || bool_decide (name = #"..").

Lemma dots_good n : good n -> dots n = false.
Proof. intros (_ & H1 & H2 & _). unfold dots. by rewrite !bool_decide_false. Qed.

Lemma filter_dots names : Forall good names -> List.filter (fun n => negb (dots n)) names = names.
Proof.
  induction 1 as [|n names Hn _ IH]; [done|]. cbn [List.filter]. by rewrite (dots_good n Hn), IH.
Qed.

Lemma List_filter_perm {A} (P : A -> bool) l l' : l ≡ₚ l' -> List.filter P l ≡ₚ List.filter P l'.
Proof.
  induction 1; cbn [List.filter]; repeat match goal with |- context [P ?x] => destruct (P x) end; try done.
  - by constructor.
  - apply Permutation_swap.
  - by etrans.
Qed.

Lemma read_entries_view p l : view_at d p = Some (Directory l) -> directory_ok l -> read_entries p = file_entries (Directory l).
Proof using readdir_lists.
  intros Hv [Hs Hg]. pose proof (view_dir d _ _ Hv) as (m & t & ns & Hl & Hns). unfold read_entries. rewrite Hl.
  rewrite <- (view_entries_keys _ _ _ Hns), file_entries_sorted by done.
  pose proof (sorted_NoDup _ Hs) as Hnd.
  destruct (emplace_all (d_type p) dots (readdir (l.*1)) []) as (res & Hres & Hrs & Hp); [|constructor|].
  - rewrite readdir_lists. cbn. rewrite !NoDup_cons, not_elem_of_cons. rewrite Forall_forall in Hg.
    split; [split; [done|]|split; [|done]]; intros Hin%Hg; destruct Hin as (_ & ? & ? & _); done.
  - unfold dots in Hres. rewrite Hres. f_equal. apply sorted_entries_eq; [done|by rewrite <- list_fmap_compose|].
    rewrite Hp, (List_filter_perm _ _ _ (readdir_lists _)). cbn [app List.filter]. rewrite filter_dots by done.
    change (negb (dots #".")) with false. change (negb (dots #"..")) with false. cbn iota.
    apply reflexive_eq. rewrite <- list_fmap_compose. apply list_fmap_ext. intros i [n f] Hi. cbn.
    f_equal. unfold d_type. pose proof (fstatat_view d _ _ n Hv) as Hst.
    apply list_elem_of_lookup_2, list_elem_of_split in Hi as (l1 & l2 & ->). rewrite (entry_lookup_sorted n f l1 l2) in Hst by done.
    destruct Hst as (st & -> & Hst). by rewrite (stat_shows_stat _ _ Hst).
Qed.

Lemma answers_readDirectory s cs : Inv s -> Forall good cs ->
  answers (dir_readDirectory this (of_components cs)) s (o ← resolved cs; f ← from_opt FileNotFound o; file_entries f).
Proof using Hthis Hview readdir_lists names_ok.
  intros HI Hg. unfold dir_readDirectory.
  apply (answers_openSubdirectory s cs _ (fun l => file_entries (Directory l))); [done..|].
  intros s1 es' HI1 Hv. unfold answers, leads, slift. rewrite (read_entries_view _ _ Hv) by (by eapply names_ok). done.
Qed.
End inv.

(** *** The variant with a callback *)

Lemma Inv_add S0 s n a :
  Inv S0 s -> n = nextNumber s -> accessor_ok a -> cache_len a = 0 ->
  Inv (<[n := statics a]> S0) (mkPosix (<[n := a]> (accessors s)) (S n) (globalDirFdCount s) (globalDirFdCacheRegistry s)).
Proof.
  intros [[Ha Hc Hn] HS] -> Hok H0. split; [split; cbn|cbn].
  - intros m b. rewrite lookup_insert_Some. intros [[_ <-]|[_ ?]]; eauto.
  - rewrite Hc. f_equal. unfold total. rewrite (map_fold_insert_L _ _ _ a); [|intros; cbn; lia|by apply Hn].
    by rewrite H0.
  - intros m Hm. rewrite lookup_insert_ne by lia. apply Hn. lia.
  - by rewrite fmap_insert, HS.
Qed.

Lemma Inv_remove S0 s n b :
  Inv (<[n := b]> S0) s -> S0 !! n = None -> 
  Inv S0 (set_accessors (delete n (accessors s)) (match accessors s !! n with Some sub => clear_cache n sub s | None => s end)).
Proof.
  intros HI Hn. pose proof (Inv_lookup _ s n HI) as Hl. rewrite lookup_insert_eq in Hl.
  destruct (accessors s !! n) as [a|] eqn:Ha; [|done].
  assert (delete n (accessors s) = delete n (accessors (clear_cache n a s))) as ->.
  { unfold clear_cache. destruct (dirFdCache a); [|done]. unfold set_accessors. cbn. by rewrite delete_insert_eq. }
  pose proof (Inv_clear _ _ _ _ HI Ha) as HI'.
  assert (exists a', accessors (clear_cache n a s) !! n = Some a' /\ cache_len a' = 0) as (a' & Ha' & H0).
  { unfold clear_cache. destruct (dirFdCache a) as [c|] eqn:Hc.
    - exists (set_cache (Some (clear c)) a). unfold set_accessors. cbn. by rewrite lookup_insert_eq.
    - exists a. unfold cache_len. by rewrite Hc. }
  revert HI' Ha'. generalize (clear_cache n a s) as s'. clear s HI Hl Ha. intros s [[Hok Hc Hnx] HS] Ha. split; [split; cbn|cbn].
  - intros m b0 [_ Hm]%lookup_delete_Some. eauto.
  - rewrite Hc. f_equal. pose proof (total_insert (accessors s) n a' a' Ha) as Ht. rewrite <- insert_delete_eq in Ht.
    unfold total at 1 in Ht. rewrite (map_fold_insert_L _ _ _ a') in Ht; [|intros; cbn; lia|apply lookup_delete_eq]. unfold total in *. lia.
  - intros m Hm. rewrite lookup_delete_None. right. by apply Hnx.
  - rewrite fmap_delete, HS, delete_insert_id; done.
Qed.

Lemma answers_readDirectory_cb {A} (S0 : gmap nat (fd * bool * bool)) (this : nat) (root : fd) track cached es s cs (callback : nat -> CanonPath -> ST Posix A) (spec : list (bytes * File) -> result A) :
  S0 !! this = Some (root, track, cached) -> view_at d root = Some (Directory es) ->
  Inv S0 s -> Forall good cs ->
  (forall n s1 es', S0 !! n = None -> view_at d (root ++ cs) = Some (Directory es') ->
     Inv (<[n := (root ++ cs : fd, track, false)]> S0) s1 ->
     answers (<[n := (root ++ cs : fd, track, false)]> S0) (callback n CanonPath.root) s1 (spec es')) ->
  answers S0 (dir_readDirectory_cb this (of_components cs) callback) s
    (o ← resolve_file (Directory es) cs; f ← from_opt FileNotFound o;
     match f with Directory es => spec es | Regular _ _ => Throw NotADirectory | Symlink _ => Throw SymlinkNotAllowed end).
Proof.
  intros Hthis Hview HI Hg Hcb. unfold dir_readDirectory_cb.
  apply (answers_openSubdirectory S0 this root track cached Hthis es Hview s cs _ spec); [done..|]. intros s1 es' HI1 Hv.
  unfold answers. eapply lead_get; [done..|]. intros a Ha (Hr & Ht & Hb & Hok). unfold leads at 1.
  rewrite gets_bind, modify_bind. set (n := nextNumber s1). set (sub := mkDir (root ++ cs) (trackLastModified a) None 0).
  assert (S0 !! n = None) as Hn.
  { destruct HI1 as [[_ _ Hn] <-]. by rewrite lookup_fmap, (Hn n). }
  assert (statics sub = (root ++ cs, track, false)) as Hst by (unfold statics, sub; cbn; by rewrite Ht).
  pose proof (Inv_add S0 s1 n sub HI1 eq_refl) as HI2. rewrite Hst in HI2.
  specialize (HI2 ltac:(split; [by eapply view_is_dir|done]) eq_refl). set (s2 := mkPosix _ _ _ _) in *.
  fold (leads (finally (r ← callback n CanonPath.root; sub ← get_accessor n; _ ← see_mtime this (mtime sub); mret r)
    (fun s => set_accessors (delete n (accessors s)) (match accessors s !! n with Some sub => clear_cache n sub s | None => s end))) s2
    (fun a s' => Inv S0 s' /\ spec es' = Ok a) (fun e s' => Inv S0 s' /\ (spec es' = Throw e \/ spec es' = Throw FileNotFound /\ e ∈ missing_errors))).
  apply leads_finally, leads_bind. eapply leads_mono; [by apply (Hcb n s2 es')|..]; cbn beta.
  - intros r s3 [HI3 Hs]. apply (lead_get (<[n := (root ++ cs : fd, track, false)]> S0) n (root ++ cs) track false); [apply lookup_insert_eq|done|]. intros a3 Ha3 Hm3. apply leads_bind.
    assert (this <> n) as Hne by (intros Heq; rewrite Heq, Hn in Hthis; done).
    eapply leads_mono; [eapply (lead_see _ this)| |]; [by rewrite lookup_insert_ne|done| |done].
    intros u s4 HI4. cbn beta in HI4. unfold leads. cbn. split; [|done]. by eapply Inv_remove.
  - intros e s3 [HI3 Hs]. split; [|done]. by eapply Inv_remove.
Qed.

(** ** What an accessor is of *)

Definition rooted (s : Posix) (a : FSSourceAccessor) (root : fd) : Prop :=
  match a with
  | AsFile a => file_fd a = root /\ sys_fstat d root = Some (file_st a) /\ exists x c, view_at d root = Some (Regular x c)
  | AsDirectory n => exists a, accessors s !! n = Some a /\ dirFd a = root
  | AsSymlink m _ => m = mkMemory (view_at d root) /\ exists t, view_at d root = Some (Symlink t)
  end.

(** The result of a call, and what it leaves. *)
Definition agrees {A} (r spec : result A) : Prop :=
  r = spec \/ spec = Throw FileNotFound /\ exists e, r = Throw e /\ e ∈ missing_errors.
Definition performs {A} (m : ST Posix A) (s : Posix) (spec : result A) : Prop :=
  let '(r, s') := m s in agrees r spec /\ coherent s' /\ same_accessors s s'.

Lemma answers_performs {A} s (m : ST Posix A) spec spec' :
  answers (statics <$> accessors s) m s spec -> spec' = spec -> performs m s spec'.
Proof.
  unfold answers, leads, performs, agrees, same_accessors. intros H ->. destruct (m s) as [[a|e] s']; destruct H as [[Hc Hs] H]; (split; [|done]).
  - by left.
  - destruct H as [-> |[-> He]]; [by left|right]. split; [done|]. by exists e.
Qed.

Lemma mret_performs {A} s (r spec : result A) : coherent s -> agrees r spec -> performs (slift r) s spec.
Proof. intros Hc Ha. unfold performs, slift. by split. Qed.

Lemma mem_pathExists_resolve f cs : Forall good cs ->
  mem_pathExists (mkMemory (Some f)) (of_components cs) = (fun o => bool_decide (is_Some o)) <$> resolve_file f cs.
Proof.
  intros Hg. unfold mem_pathExists, open. cbn [mroot]. rewrite elems_of by done. pose proof (open_at_resolve f cs false) as H.
  destruct (resolve_file f cs) as [[g|]|e]; [destruct H as (f' & -> & _)|by rewrite H..]. done.
Qed.

Section spec.
Context (readdir_lists : forall names, readdir names ≡ₚ [ #"."; #".."] ++ names).
Context (root : fd) (f : File) (Hview : view_at d root = Some f).
Context (names_ok : forall p es', view_at d (root ++ p) = Some (Directory es') -> directory_ok es').
Notation mem := (mkMemory (view_at d root)).

Definition performs_as_memory (a : FSSourceAccessor) (s : Posix) (path : CanonPath) : Prop :=
  performs (fs_maybeLstat a path) s (mem_maybeLstat mem path) /\
  performs (fs_lstat a path) s (mem_lstat mem path) /\
  performs (fs_pathExists a path) s (mem_pathExists mem path) /\
  performs (fs_readFile a path) s (mem_readFile mem path) /\
  performs (fs_readDirectory a path) s (mem_readDirectory mem path) /\
  performs (fs_readLink a path) s (mem_readLink mem path).

Lemma performs_directory n s cs : coherent s -> Forall good cs -> rooted s (AsDirectory n) root ->
  performs_as_memory (AsDirectory n) s (of_components cs).
Proof using readdir_lists Hview names_ok.
  intros Hc Hg (a & Ha & Hr). assert (Inv (statics <$> accessors s) s) as HI by done.
  pose proof (coh_accessors _ Hc _ _ Ha) as [Hdir _]. rewrite Hr in Hdir. destruct (is_dir_view d root Hdir f Hview) as [es ->].
  assert ((statics <$> accessors s) !! n = Some (root, trackLastModified a, bool_decide (is_Some (dirFdCache a)))) as Hthis
    by (rewrite lookup_fmap, Ha, <- Hr; done).
  pose proof (answers_maybeLstat _ _ _ _ _ Hthis es Hview s cs HI Hg) as Hst.
  unfold performs_as_memory. cbn [fs_maybeLstat fs_lstat fs_pathExists fs_readFile fs_readDirectory fs_readLink]. rewrite Hview.
  unfold mem_lstat, mem_maybeLstat, mem_readFile, mem_readDirectory, mem_readLink. rewrite !open_read_resolve by done.
  split_and!.
  - eapply answers_performs; [exact Hst|]. by destruct (resolve_file _ cs).
  - apply (answers_performs _ _ (o ← option_map file_lstat <$> resolve_file (Directory es) cs; from_opt FileNotFound o)).
    + unfold answers in *. apply leads_bind. eapply leads_mono; [exact Hst|..]; cbn beta.
      * intros o s1 [HI1 ->]. destruct o; (split; [done|]); [done|by left].
      * intros e s1 [HI1 [->|[-> He]]]; (split; [done|]); [by left|by right].
    + by destruct (resolve_file _ cs).
  - rewrite mem_pathExists_resolve by done.
    apply (answers_performs _ _ (o ← option_map file_lstat <$> resolve_file (Directory es) cs; Ok (bool_decide (is_Some o)))).
    + unfold answers in *. apply leads_bind. eapply leads_mono; [exact Hst|..]; cbn beta.
      * by intros o s1 [HI1 ->].
      * intros e s1 [HI1 [->|[-> He]]]; (split; [done|]); [by left|by right].
    + by destruct (resolve_file _ cs) as [[]|].
  - eapply answers_performs; [by apply (answers_readFile _ _ _ _ _ Hthis es Hview)|]. by destruct (resolve_file _ cs) as [[[]|]|].
  - eapply answers_performs; [by apply (answers_readDirectory _ _ _ _ _ Hthis es Hview readdir_lists names_ok)|]. by destruct (resolve_file _ cs) as [[[]|]|].
  - eapply answers_performs; [by apply (answers_readLink _ _ _ _ _ Hthis es Hview)|]. by destruct (resolve_file _ cs) as [[[]|]|].
Qed.

Lemma performs_file a s cs : coherent s -> Forall good cs -> rooted s (AsFile a) root ->
  performs_as_memory (AsFile a) s (of_components cs).
Proof using Hview.
  intros Hc Hg (Hfd & Hst & x & c & Hreg). rewrite Hreg in Hview. injection Hview as <-.
  destruct (fstat_view d _ _ Hreg) as (st & Hst' & Hsh). rewrite Hst in Hst'. injection Hst' as <-.
  unfold performs_as_memory, fs_lstat. cbn [fs_maybeLstat fs_pathExists fs_readFile fs_readDirectory fs_readLink].
  unfold mem_lstat, mem_maybeLstat, mem_readFile, mem_readDirectory, mem_readLink. rewrite Hreg, !open_read_resolve, mem_pathExists_resolve by done.
  assert (resolve_file (Regular x c) cs = Ok (if isRoot (of_components cs) then Some (Regular x c) else None)) as ->.
  { rewrite isRoot_of by done. by destruct cs. }
  unfold file_maybeLstat, file_readFile, file_readDirectory, file_readLink.
  rewrite (stat_shows_stat _ _ Hsh). destruct Hsh as (_ & Hs & _). rewrite Hfd, Hs, (copy_whole _ _ _ Hreg).
  assert (NotADirectory ∈ missing_errors) as Hin by (right; right; left).
  destruct (isRoot (of_components cs)); unfold performs, slift, mbind, ST_bind; cbn; split_and!;
    first [done|by left|right; split; [done|by exists NotADirectory]].
Qed.

Lemma performs_symlink m t s cs : coherent s -> rooted s (AsSymlink m t) root ->
  performs_as_memory (AsSymlink m t) s (of_components cs).
Proof using Hview.
  intros Hc (-> & _). unfold performs_as_memory. cbn [fs_maybeLstat fs_pathExists fs_readFile fs_readDirectory fs_readLink].
  assert (forall {A} (r : result A), performs (slift r) s r) as Hr by (intros; apply mret_performs; [done|by left]).
  split_and!; try apply Hr. unfold fs_lstat, mem_lstat. cbn [fs_maybeLstat]. specialize (Hr _ (st ← mem_maybeLstat mem (of_components cs); from_opt FileNotFound st)).
  unfold performs, slift, mbind, ST_bind in *. by destruct (mem_maybeLstat _ _).
Qed.
End spec.

Lemma new_cache_ok a n : accessor_ok (set_cache None a) -> dirFdCache a = Some (new_LRUCache n) -> accessor_ok a.
Proof.
  intros [Hd _] Hc. split; [exact Hd|]. rewrite Hc. intros c [= <-]. split; [apply new_wf|done].
Qed.

Lemma sys_open_view p f : view_at d p = Some f ->
  match f with
  | Symlink _ => sys_open p = inl ELOOP
  | _ => sys_open p = inr p
  end.
Proof.
  intros (st & Hst & Hsh)%fstat_view. unfold sys_open. rewrite Hst. destruct f; cbn in Hsh; [destruct Hsh as (-> & _)|rewrite Hsh..]; done.
Qed.

Lemma parent_is_dir p n x : lookup_path d (p ++ [n]) = Some x -> is_dir d p.
Proof.
  unfold is_dir, lookup_path. rewrite node_lookup_app. destruct (node_lookup (tree d) p) as [[i|m t l]|]; [done| |done].
  intros _. by do 3 eexists.
Qed.

Lemma make_spec root track s f :
  is_dir d [] -> Forall good root -> view_at d root = Some f -> coherent s ->
  leads (makeFSSourceAccessor root track DontFollow) s
    (fun a s' => coherent s' /\ rooted s' a root /\ forall n b, accessors s !! n = Some b -> accessors s' !! n = Some b)
    (fun _ _ => False).
Proof.
  intros Htop Hg Hv Hc. unfold makeFSSourceAccessor. cbn [openFileReadonly]. pose proof (sys_open_view _ _ Hv) as Ho.
  destruct (fstat_view d _ _ Hv) as (st & Hst & Hsh). destruct f as [x c|l|t]; rewrite Ho; unfold fstat; cbv beta iota; [rewrite Hst|rewrite Hst|].
  - apply leads_slift_Ok. destruct Hsh as (Ht & _). rewrite Ht. unfold new_file_accessor. rewrite Ht. unfold leads. cbn.
    split; [done|]. split; [|done]. split; [done|]. split; [done|]. by exists x, c.
  - apply leads_slift_Ok. cbn in Hsh. rewrite Hsh. unfold leads. rewrite gets_bind, modify_bind. cbv zeta. set (a := mkDir _ _ _ _).
    assert (accessor_ok a /\ cache_len a = 0) as [Hok H0].
    { destruct (Z.to_nat (globalFdLimit `div` 8) =? 0)%nat eqn:Hn; subst a; rewrite ?Hn.
      - split; [|done]. split; [by eapply view_is_dir|done].
      - split; [|done]. eapply new_cache_ok; [|done]. split; [by eapply view_is_dir|done]. }
    pose proof (Inv_add (statics <$> accessors s) s (nextNumber s) a ltac:(done) eq_refl Hok H0) as [HI _].
    split; [by destruct HI; split|]. split; [exists a; cbn; by rewrite lookup_insert_eq|].
    intros n b Hb. cbn. rewrite lookup_insert_ne; [done|]. intros <-. by rewrite (coh_next _ Hc) in Hb.
  - destruct root as [|n p _] using rev_ind; [destruct (is_dir_view d _ Htop _ Hv) as (? & ?); done|].
    rewrite last_snoc, removelast_last. apply leads_slift_Ok.
    pose proof Hg as [_ [Hn _]%Forall_cons]%Forall_app.
    assert (exists x, lookup_path d (p ++ [n]) = Some x) as [x Hx].
    { unfold view_at, peek, lookup_path in *. destruct (node_lookup _ _); [eauto|done]. }
    pose proof (parent_is_dir _ _ _ Hx) as (m0 & t0 & e0 & Hp). rewrite Hp. apply leads_slift_Ok.
    assert (fromFilename n = Ok (of_components [n])) as ->.
    { unfold fromFilename. rewrite CanonPath_new_single by done. cbn [mbind result_bind]. rewrite elems_of by auto.
      assert (rel (of_components [n]) = n) as -> by (unfold of_components, rel, join_path; cbn [path]; rewrite decide_False, joinE_cons by done; cbn; by rewrite app_nil_r).
      by rewrite bool_decide_false by auto. }
    apply leads_slift_Ok.
    assert (readLinkAt d p (of_components [n]) = inr t) as ->.
    { unfold readLinkAt, sys_readlinkat. rewrite elems_of by auto. rewrite Hx. rewrite (view_at_lookup _ _ _ Hx) in Hv.
      destruct x as [i|m t1 ns]; [|rewrite view_NDir in Hv; by destruct (view_entries _ _)].
      cbn [view] in Hv. destruct (inodes d !! i) as [[[c md|tg] ?]|]; [done| |done]. by injection Hv as ->. }
    assert (sys_fstatat d p n = inr st) as Hat by (unfold sys_fstatat; by rewrite Hp, Hst).
    unfold fstatat. rewrite Hat.
    unfold leads. destruct track; cbn; (split; [done|]); (split; [|done]); unfold rooted; rewrite Hv; (split; [done|by eexists]).
Qed.
End posix.

Lemma rooted_same d s s' a root : same_accessors s s' -> rooted d s a root -> rooted d s' a root.
Proof.
  intros Hs. destruct a as [a|n|m t]; cbn [rooted]; [done| |done]. intros (a & Ha & Hr).
  apply (f_equal (fun m => m !! n)) in Hs. rewrite !lookup_fmap, Ha in Hs. cbn in Hs.
  destruct (accessors s' !! n) as [a'|] eqn:Ha'; [|done]. exists a'. split; [done|]. injection Hs as -> _ _. done.
Qed.

Lemma performs_Ok {A} d (m : ST Posix A) s x spec :
  performs d m s spec -> spec = Ok x -> exists s', m s = (Ok x, s') /\ coherent d s' /\ same_accessors s s'.
Proof.
  unfold performs. destruct (m s) as [r s']. intros ([-> |[-> _]] & Hc & Hs) He; [|done]. exists s'. by rewrite He.
Qed.

(** ** The theorem *)

(** A file all of whose directories have valid names, in order. *)
Inductive names_valid : File -> Prop :=
  | names_valid_Regular x c : names_valid (Regular x c)
  | names_valid_Symlink t : names_valid (Symlink t)
  | names_valid_Directory es : directory_ok es -> Forall (fun e => names_valid (e.2)) es -> names_valid (Directory es).

Lemma names_valid_at f p es : names_valid f -> node_at f p = Some (Directory es) -> directory_ok es.
Proof.
  revert f; induction p as [|n p IH]; intros f Hf; cbn [node_at].
  - intros [= ->]. by inversion Hf.
  - destruct f as [|l|]; [done| |done]. unfold entry_lookup. destruct (List.find _ l) as [e|] eqn:He; [|done].
    apply List.find_some in He as [Hin _]. inversion Hf as [| |? _ Hl]; subst. apply IH. cbn.
    rewrite Forall_forall in Hl. by apply Hl, list_elem_of_In.
Qed.


(** A directory with a file and a symbolic link two levels below it. *)
Definition sample_disk : Disk :=
  mkDisk (NDir 0x1ED 1 [(#"r", NDir 0x1ED 1 [(#"a", NDir 0x1ED 1 [(#"b", NDir 0x1ED 1 [(#"f", NLeaf 0); (#"l", NLeaf 1)])])])])
    {[0%nat := mkInode (LRegular #"hi" 0x124) 1; 1%nat := mkInode (LSymlink #"f") 1]} 2.
Definition sample_readdir (names : list bytes) : list bytes := [ #"."; #".."] ++ names.

