(* ===== verification/FileHasher.v ===== *)
(** * FileHasher: hashes captured while an archive is restored

    [AsyncFileHasher], [FileHashingSink] and [restorePathCapturingHashes] of
    libstore/local-store.cc: while files are written, the hash of each is
    computed, on a thread of its own or inline, to be used by [Optimise]
    later; and a file whose contents the link farm has already is replaced by
    a link. *)

From S2P Require Export Restore AsyncHash.
From S2P Require Export Optimise FileSystemAt.
Local Open Scope Z_scope.

(** ** The hasher *)

Section hasher.
Context `{L : HashLib}.

(** An event of the stream the restoring sends. *)
Inductive Ev := EvBegin (k : bytes) | EvExec | EvSize (s : Z) | EvData (d : bytes) | EvEnd.

Record FileHasher := mkFileHasher { fh_key : bytes; fh_hash : option HashSink; fh_size : Z; fh_out : gmap bytes Hash }.
Definition FileHasher_new : FileHasher := mkFileHasher [] None 0 ∅.

Definition with_hash (g : HashSink -> result HashSink) (h : FileHasher) : result FileHasher :=
  s ← from_opt AssertFailed (fh_hash h);
  s ← g s;
  Ok (mkFileHasher (fh_key h) (Some s) (fh_size h) (fh_out h)).

Definition fh_begin (k : bytes) (h : FileHasher) : result FileHasher :=
  s ← foreach (fun t x => writeString x t) (HashSink_new SHA256) [narVersionMagic1; #"("; #"type"; #"regular"];
  Ok (mkFileHasher k (Some s) (fh_size h) (fh_out h)).
Definition fh_exec (h : FileHasher) : result FileHasher :=
  with_hash (fun s => s ← writeString #"executable" s; writeString [] s) h.
Definition fh_setSize (n : Z) (h : FileHasher) : result FileHasher :=
  with_hash (fun s => s ← writeString #"contents" s; sink_num s n) (mkFileHasher (fh_key h) (fh_hash h) n (fh_out h)).
Definition fh_data (d : bytes) (h : FileHasher) : result FileHasher := with_hash (fun s => sink s d) h.
(** [tryDedup] is called between [finish] and the insertion; it cannot throw
    and touches the disk only. *)
Definition fh_end (h : FileHasher) : result FileHasher :=
  s ← from_opt AssertFailed (fh_hash h);
  s ← writePadding (Z.to_nat (fh_size h)) s;
  s ← writeString #")" s;
  r ← HashSink_finish s;
  Ok (mkFileHasher [] None (fh_size h) (<[fh_key h := hr_hash r]> (fh_out h))).

Definition fh_handle (h : FileHasher) (e : Ev) : result FileHasher :=
  match e with
  | EvBegin k => fh_begin k h
  | EvExec => fh_exec h
  | EvSize n => fh_setSize n h
  | EvData d => fh_data d h
  | EvEnd => fh_end h
  end.

(** What [fileBegin] and the others do: push the event for the thread, or
    handle it. *)
Class Feeds (G : Type) := feed : G -> Ev -> result G.
#[export] Instance feeds_thread : Feeds (list Ev) := fun q e => Ok (q ++ [e]).
#[export] Instance feeds_inline : Feeds FileHasher := fh_handle.
End hasher.

(** ** The sink *)

Section sink.
Context {F C G : Type} `{FileSystemObjectSink F C} `{!Feeds G}.

Record FileHashingSink := mkFileHashingSink { hs_inner : F; hs_prefix : CanonPath; hs_hasher : G }.
Record HashingCRF := mkHashingCRF { hc_inner : C; hc_prefix : CanonPath; hc_hasher : G }.

Definition hs_set (s : FileHashingSink) (f : F) : FileHashingSink := mkFileHashingSink f (hs_prefix s) (hs_hasher s).

Definition hs_createDirectory (s : FileHashingSink) (path : CanonPath) : result FileHashingSink :=
  f ← createDirectory (hs_inner s) path; Ok (hs_set s f).
Definition hs_enterDirectory (s : FileHashingSink) (path : CanonPath) : result (FileHashingSink * CanonPath) :=
  '(d, rel) ← enterDirectory (hs_inner s) path;
  _ ← assertb (isRoot rel || bool_decide (rel = path));
  Ok (mkFileHashingSink d (if isRoot rel then concat_path (hs_prefix s) path else hs_prefix s) (hs_hasher s), rel).
Definition hs_leaveDirectory (s : FileHashingSink) (path : CanonPath) (d : FileHashingSink) : result FileHashingSink :=
  f ← leaveDirectory (hs_inner s) path (hs_inner d); Ok (mkFileHashingSink f (hs_prefix s) (hs_hasher d)).
Definition hs_createSymlink (s : FileHashingSink) (path : CanonPath) (target : bytes) : result FileHashingSink :=
  f ← createSymlink (hs_inner s) path target; Ok (hs_set s f).

Definition hs_crf_open (s : FileHashingSink) (path : CanonPath) : result HashingCRF :=
  c ← crf_open (hs_inner s) path;
  g ← feed (hs_hasher s) (EvBegin (abs (concat_path (hs_prefix s) path)));
  Ok (mkHashingCRF c (hs_prefix s) g).
(** An event, then the same call of the inner sink. *)
Definition hc_call (e : Ev) (call : C -> result C) (c : HashingCRF) : result HashingCRF :=
  g ← feed (hc_hasher c) e;
  i ← call (hc_inner c);
  Ok (mkHashingCRF i (hc_prefix c) g).
Definition hs_crf_close (c : HashingCRF) : result FileHashingSink :=
  g ← feed (hc_hasher c) EvEnd;
  f ← crf_close (hc_inner c);
  Ok (mkFileHashingSink f (hc_prefix c) g).

#[export] Instance FileHashingSink_sink : FileSystemObjectSink FileHashingSink HashingCRF := {|
  createDirectory := hs_createDirectory;
  enterDirectory := hs_enterDirectory;
  leaveDirectory := hs_leaveDirectory;
  createSymlink := hs_createSymlink;
  crf_open := hs_crf_open;
  crf_skipContents _ := false;
  crf_isExecutable := hc_call EvExec crf_isExecutable;
  crf_preallocate c n := hc_call (EvSize n) (fun i => crf_preallocate i n) c;
  crf_write c data := hc_call (EvData data) (fun i => crf_write i data) c;
  crf_close := hs_crf_close;
|}.
End sink.
Arguments FileHashingSink : clear implicits.
Arguments HashingCRF : clear implicits.

(** ** Restoring *)

Section capturing.
Context `{L : HashLib}.
Context (now umask : Z) (preallocateContents fallocate_supported : bool).

#[local] Instance restoring : FileSystemObjectSink RestoreSink RestoreRegularFile :=
  RestoreSink_sink now umask preallocateContents fallocate_supported.

(** [chmod(dir, 0755)] and [setWriteTime(dir, 1, 1, false)] *)
Definition canonicalise_dirs (dirs : list (list bytes)) (d : Disk) : result Disk :=
  foreach (fun d dir => d ← chmod_dir dir 0x1ED d; utimens_dir dir 1 d) d dirs.

(** [finish], after the thread has handled what it was sent
    ([AsyncHash.finished_result]). *)
Definition hashed (events : list Ev) : result (gmap bytes Hash) :=
  match foldl (handle_event fh_handle) (FileHasher_new, None) events with
  | (h, None) => Ok (fh_out h)
  | (_, Some e) => Throw e
  end.

(** The restoring proper, with the hashes when [finish] has returned. *)
Definition restore_hashing (threaded : bool) (inner : RestoreSink) : P (RestoreSink * gmap bytes Hash) :=
  if threaded then
    s ← parseDump (F := FileHashingSink RestoreSink (list Ev)) false (mkFileHashingSink inner root []);
    hashes ← plift (hashed (hs_hasher s));
    mret (hs_inner s, hashes)
  else
    s ← parseDump (F := FileHashingSink RestoreSink FileHasher) false (mkFileHashingSink inner root FileHasher_new);
    mret (hs_inner s, fh_out (hs_hasher s)).

(** [restorePathCapturingHashes] of an archive; links into the farm are made
    by [tryDedup], below. *)
Definition restorePathCapturingHashes (threaded : bool) (path : list bytes) (canonical : bool) (d : Disk) : P (Disk * gmap bytes Hash) :=
  '(s, hashes) ← restore_hashing threaded (mkRestoreSink d path None canonical (if canonical then Some [] else None));
  d ← plift (canonicalise_dirs (default [] (deferCanonicalDirs s)) (rs_disk s));
  mret (d, hashes).

(** ** Finishing the directories *)

Notation new_dir := (new_dir now umask).
Notation restored := (restored now umask).
Notation restored_entry := (restored_entry now umask).
Definition finished : Z * Z := (0x1ED, 1).

Lemma canonicalise_dirs_app l1 l2 d : canonicalise_dirs (l1 ++ l2) d = (canonicalise_dirs l1 d ≫= canonicalise_dirs l2).
Proof. apply foreach_app. Qed.

Lemma entry_lookup_mid {A} k (x : A) l1 l2 : k ∉ l1.*1 -> entry_lookup k (l1 ++ (k, x) :: l2) = Some x.
Proof.
  unfold entry_lookup. induction l1 as [|[n y] l1 IH]; cbn [app List.find fst fmap list_fmap]; intros Hk.
  - by rewrite bool_decide_true.
  - apply not_elem_of_cons in Hk as [Hn Hk]. rewrite bool_decide_false by done. by apply IH.
Qed.
Lemma entry_replace_mid {A} k (x y : A) l1 l2 : k ∉ l1.*1 -> entry_replace k y (l1 ++ (k, x) :: l2) = l1 ++ (k, y) :: l2.
Proof.
  induction l1 as [|[n z] l1 IH]; cbn [app entry_replace fmap list_fmap fst]; intros Hk.
  - by rewrite bool_decide_true.
  - apply not_elem_of_cons in Hk as [Hn Hk]. rewrite bool_decide_false by done. by rewrite IH.
Qed.

Lemma update_path_id d p x : lookup_path d p = Some x -> update_path (fun _ => x) p d = d.
Proof. intros Hl. unfold update_path. rewrite (node_update_id _ _ _ _ Hl) by done. by destruct d. Qed.
Lemma update_path_update d p f g : update_path f p (update_path g p d) = update_path (fun x => f (g x)) p d.
Proof. unfold update_path. cbn [tree inodes next_ino]. by rewrite node_update_update. Qed.
Lemma update_path_ext d p f g x : lookup_path d p = Some x -> f x = g x -> update_path f p d = update_path g p d.
Proof. intros Hl He. unfold update_path. by rewrite (node_update_ext _ _ _ _ _ Hl He). Qed.
Lemma lookup_update_path d p g x : lookup_path d p = Some x -> lookup_path (update_path g p d) p = Some (g x).
Proof. apply lookup_update. Qed.

(** What finishing the directories of [f] does to the node that holds it. *)
Definition finishes (f : File) : Prop := forall d base x c inos,
  lookup_path d base = Some x -> restored c inos new_dir new_dir f x -> ok_file f ->
  exists x', canonicalise_dirs (all_dirs base f) d = Ok (update_path (fun _ => x') base d) /\
    restored c inos finished finished f x'.

Lemma finishes_entries c inos m t base es : Forall (fun e => finishes (e.2)) es -> forall d ns1 ns,
  lookup_path d base = Some (NDir m t (ns1 ++ ns)) -> Forall2 (restored_entry c inos new_dir) es ns ->
  Forall (fun e => ok_file (e.2)) es -> NoDup (ns1.*1 ++ es.*1) ->
  exists ns', canonicalise_dirs (dirs_below base es) d = Ok (update_path (fun _ => NDir m t (ns1 ++ ns')) base d) /\
    Forall2 (restored_entry c inos finished) es ns'.
Proof.
  induction 1 as [|[k f] es Hf _ IH]; intros d ns1 ns Hl Hr Hok Hnd; inversion Hr as [|? [k' x] ? ns2 [Hk Hx] Hr2]; subst.
  - exists []. split; [|constructor]. cbn. by rewrite update_path_id.
  - cbn [fst snd fmap list_fmap] in *. subst k'. apply Forall_cons in Hok as [Hokf Hok].
    assert (k ∉ ns1.*1) as Hk1 by (intros H; apply NoDup_app in Hnd as (_ & Hd & _); apply (Hd k H); left).
    assert (lookup_path d (base ++ [k]) = Some x) as Hlk.
    { unfold lookup_path in *. rewrite node_lookup_app, Hl. cbn [mbind option_bind node_lookup]. by rewrite entry_lookup_mid. }
    destruct (Hf d (base ++ [k]) x c inos Hlk Hx Hokf) as (x' & Hc & Hx').
    assert (update_path (fun _ => x') (base ++ [k]) d = update_path (fun _ => NDir m t (ns1 ++ (k, x') :: ns2)) base d) as Hu.
    { unfold update_path. rewrite (node_update_below _ _ _ _ _ _ _ _ Hl (entry_lookup_mid _ _ _ _ Hk1)).
      f_equal. eapply node_update_ext; [exact Hl|]. cbn. by rewrite entry_replace_mid. }
    destruct (IH (update_path (fun _ => NDir m t (ns1 ++ (k, x') :: ns2)) base d) (ns1 ++ [(k, x')]) ns2) as (ns' & Hes & Hr'); try done.
    { rewrite (lookup_update_path _ _ _ _ Hl). by rewrite <- app_assoc. }
    { rewrite fmap_app, <- app_assoc. exact Hnd. }
    exists ((k, x') :: ns'). split; [|by constructor]. unfold dirs_below. rewrite fmap_cons, join_cons, canonicalise_dirs_app.
    cbn [fst snd]. rewrite Hc, Hu. cbn [mbind result_bind]. unfold dirs_below in Hes. rewrite Hes. f_equal.
    rewrite update_path_update. by rewrite <- app_assoc.
Qed.

Lemma finish_dir d base m t ns : lookup_path d base = Some (NDir m t ns) ->
  canonicalise_dirs [base] d = Ok (update_path (fun _ => NDir (finished.1) (finished.2) ns) base d).
Proof.
  intros Hl. unfold canonicalise_dirs. cbn [foreach]. unfold chmod_dir, with_dir at 1. rewrite Hl. cbn [mbind result_bind].
  unfold utimens_dir, with_dir. rewrite (lookup_update_path _ _ _ _ Hl). cbn [mbind result_bind]. f_equal.
  rewrite update_path_update. by eapply update_path_ext.
Qed.

Lemma finishes_file f : finishes f.
Proof.
  induction f as [x d|es IH|tg] using File_ind'; intros dk base n c inos Hl Hr Hok.
  - exists n. split; [cbn; by rewrite update_path_id|]. by destruct n.
  - destruct n as [|m t ns]; [done|]. apply restored_Directory in Hr as [_ Hr]. inversion_clear Hok as [|? Hs Hn Hok'|].
    destruct (finishes_entries c inos m t base es IH dk [] ns) as (ns' & Hc & Hr'); try done.
    { by apply sorted_NoDup. }
    exists (NDir (finished.1) (finished.2) ns'). rewrite all_dirs_Directory, canonicalise_dirs_app, Hc. cbn [mbind result_bind].
    split; [|by apply restored_Directory]. rewrite (finish_dir _ _ m t ns').
    + by rewrite update_path_update.
    + by rewrite (lookup_update_path _ _ _ _ Hl).
  - exists n. split; [cbn; by rewrite update_path_id|]. by destruct n.
Qed.

(** The directories below the root. *)
Lemma finishes_root f d base x c inos :
  lookup_path d base = Some x -> restored c inos new_dir new_dir f x -> ok_file f ->
  exists x', canonicalise_dirs (root_dirs base f) d = Ok (update_path (fun _ => x') base d) /\
    restored c inos new_dir finished f x'.
Proof.
  intros Hl Hr Hok. destruct f as [xb dt|es|tg]; cbn [root_dirs].
  - exists x. split; [cbn; by rewrite update_path_id|]. by destruct x.
  - destruct x as [|m t ns]; [done|]. apply restored_Directory in Hr as [Ht Hr]. inversion_clear Hok as [|? Hs Hn Hok'|].
    destruct (finishes_entries c inos m t base es) with (d := d) (ns1 := @nil (bytes * Node)) (ns := ns) as (ns' & Hc & Hr'); try done.
    { apply Forall_forall. intros e _. apply finishes_file. }
    { by apply sorted_NoDup. }
    exists (NDir m t ns'). split; [exact Hc|]. by apply restored_Directory.
  - exists x. split; [cbn; by rewrite update_path_id|]. by destruct x.
Qed.
End capturing.

(** ** What the hasher computes *)

Definition file_events (k : bytes) (x : bool) (c : bytes) : list Ev :=
  EvBegin k :: (if x then [EvExec] else []) ++ [EvSize (Z.of_nat (length c)); EvData c; EvEnd].

(** The regular files of a tree, in the order they are written. *)
Fixpoint regular_files (cs : list bytes) (f : File) : list (list bytes * (bool * bytes)) :=
  match f with
  | Regular x c => [(cs, (x, c))]
  | Directory es =>
      (fix go (es : list (bytes * File)) := match es with
                   | [] => []
                   | e :: es => regular_files (cs ++ [e.1]) (e.2) ++ go es
                   end) es
  | Symlink _ => []
  end.
Lemma regular_files_Directory cs es : regular_files cs (Directory es) = mjoin ((fun e => regular_files (cs ++ [e.1]) (e.2)) <$> es).
Proof.
  cbn [regular_files]. induction es as [|e es IH]; [done|]. rewrite fmap_cons, join_cons. by rewrite <- IH.
Qed.
Definition tree_events (cs : list bytes) (f : File) : list Ev :=
  mjoin ((fun e => file_events (join_path (e.1)) (e.2.1) (e.2.2)) <$> regular_files cs f).

Lemma tree_events_Directory cs es : tree_events cs (Directory es) = mjoin ((fun e => tree_events (cs ++ [e.1]) (e.2)) <$> es).
Proof.
  unfold tree_events. rewrite regular_files_Directory. induction es as [|e es IH]; [done|].
  rewrite !fmap_cons, !join_cons, fmap_app, join_app. by rewrite IH.
Qed.

Lemma entry_lookup_member {A} n (x : A) l : entry_lookup n l = Some x -> (n, x) ∈ l.
Proof.
  unfold entry_lookup. induction l as [|[m y] l IH]; [done|]. cbn [List.find fst]. case_bool_decide as Hm.
  - intros [= ->]. subst m. left.
  - intros Hx. right. by apply IH.
Qed.

Lemma elem_of_regular_files f : ok_file f -> forall cs q x c,
  (q, (x, c)) ∈ regular_files cs f <-> exists r, q = cs ++ r /\ node_at f r = Some (Regular x c).
Proof.
  induction f as [xb dt|es IH|tg] using File_ind'; intros Hok cs q x c.
  - cbn [regular_files]. rewrite list_elem_of_singleton. split.
    + intros [= -> -> ->]. exists []. by rewrite app_nil_r.
    + intros ([|n r] & -> & Hn); [|done]. rewrite app_nil_r. injection Hn as -> ->. done.
  - rewrite regular_files_Directory. inversion_clear Hok as [|? Hs Hn Hok'|]. rewrite Forall_forall in IH, Hok'. rewrite list_elem_of_join. split.
    + intros (l & Hl & (e & -> & He)%list_elem_of_fmap). apply IH in Hl as (r & -> & Hr); [|done|by apply Hok'].
      exists (e.1 :: r). rewrite <- app_assoc. split; [done|]. cbn [node_at]. apply list_elem_of_split in He as (l1 & l2 & ->).
      destruct e as [k g]. by rewrite entry_lookup_sorted.
    + intros ([|n r] & -> & Hr); [done|]. cbn [node_at] in Hr. destruct (entry_lookup n es) as [g|] eqn:Hg; [|done]. cbn [mbind option_bind] in Hr.
      apply entry_lookup_member in Hg. exists (regular_files (cs ++ [n]) g). split.
      * apply (IH (n, g)); [done|by apply (Hok' (n, g))|]. exists r. by rewrite <- app_assoc.
      * apply list_elem_of_fmap. by exists (n, g).
  - split; [by intros ?%elem_of_nil|]. by intros ([|n r] & _ & Hr).
Qed.

Section hashing.
Context `{L : HashLib} `{!HashLibLaws L}.

Lemma digests_string h d x : digests SHA256 h d -> exists h', writeString x h = Ok h' /\ digests SHA256 h' (d ++ enc_string x).
Proof using HashLibLaws0.
  intros Hd. pose proof (same_string (digests SHA256) (digests_sink SHA256) x (mkStringSink d) h Hd) as Hs.
  rewrite (writeString_eq StringSink_nil StringSink_app) in Hs. cbn [same_run sink StringSink_sink sink_s] in Hs. unfold same_run in Hs. destruct (writeString x h) as [h'|]; [|done]. by exists h'.
Qed.
Lemma digests_strings xs : forall h d, digests SHA256 h d ->
  exists h', foreach (fun t x => writeString x t) h xs = Ok h' /\ digests SHA256 h' (d ++ nar_tags xs).
Proof using HashLibLaws0.
  induction xs as [|x xs IH]; intros h d Hd; cbn [foreach].
  - exists h. split; [done|]. by rewrite app_nil_r.
  - destruct (digests_string h d x Hd) as (h1 & -> & H1). destruct (IH h1 _ H1) as (h2 & H2 & H3). exists h2. split; [exact H2|].
    rewrite <- app_assoc in H3. unfold nar_tags. by rewrite fmap_cons, join_cons.
Qed.
Lemma digests_padding h d n : digests SHA256 h d -> exists h', writePadding n h = Ok h' /\ digests SHA256 h' (d ++ pad_bytes n).
Proof using HashLibLaws0.
  intros Hd. unfold writePadding, pad_bytes. destruct (n mod 8 =? 0)%nat; cbn [negb].
  - exists h. by rewrite app_nil_r.
  - by apply digests_sink.
Qed.

(** A file begun under the name [k], of which [d] has been hashed. *)
Definition hashing (k d : bytes) (n : Z) (out : gmap bytes Hash) (h : FileHasher) : Prop :=
  exists s, h = mkFileHasher k (Some s) n out /\ digests SHA256 s d.

Lemma begin_ok k h : exists h', fh_begin k h = Ok h' /\ hashing k (nar_tags [narVersionMagic1; #"("; #"type"; #"regular"]) (fh_size h) (fh_out h) h'.
Proof using HashLibLaws0.
  unfold fh_begin. destruct (digests_strings [narVersionMagic1; #"("; #"type"; #"regular"] _ _ (digests_new SHA256)) as (s & -> & Hs).
  eexists. split; [done|]. eexists. split; [done|exact Hs].
Qed.
Lemma with_hash_ok g k d e n out h :
  (forall s, digests SHA256 s d -> exists s', g s = Ok s' /\ digests SHA256 s' (d ++ e)) -> hashing k d n out h ->
  exists h', with_hash g h = Ok h' /\ hashing k (d ++ e) n out h'.
Proof using Type.
  intros Hg (s & -> & Hs). unfold with_hash. cbn. destruct (Hg s Hs) as (s' & -> & Hs'). eexists. split; [done|]. by exists s'.
Qed.
Lemma exec_ok k d n out h : hashing k d n out h -> exists h', fh_exec h = Ok h' /\ hashing k (d ++ nar_tags [ #"executable"; []]) n out h'.
Proof using HashLibLaws0.
  apply with_hash_ok. intros s Hs. destruct (digests_strings [ #"executable"; []] s d Hs) as (s' & H1 & H2). exists s'. split; [|done].
  cbn [foreach] in H1. destruct (writeString #"executable" s) as [s1|]; [|done]. cbn [mbind result_bind] in *. by destruct (writeString [] s1).
Qed.
Lemma size_ok k d n n' out h : hashing k d n out h ->
  exists h', fh_setSize n' h = Ok h' /\ hashing k (d ++ enc_string #"contents" ++ enc_num n') n' out h'.
Proof using HashLibLaws0.
  intros (s & -> & Hs). apply with_hash_ok with (d := d); [|by exists s]. clear s Hs. intros s Hs.
  destruct (digests_string s d #"contents" Hs) as (s1 & -> & H1). cbn [mbind result_bind]. rewrite sink_num_eq.
  destruct (digests_sink SHA256 s1 _ (enc_num n') H1) as (s2 & -> & H2). exists s2. split; [done|]. by rewrite app_assoc.
Qed.
Lemma end_ok k d n out h f : hashing k d n out h -> d ++ pad_bytes (Z.to_nat n) ++ enc_string #")" = archive f ->
  fh_end h = Ok (mkFileHasher [] None n (<[k := hash_of SHA256 (archive f)]> out)).
Proof using HashLibLaws0.
  intros (s & -> & Hs) Hf. unfold fh_end. cbn [fh_hash from_opt mbind result_bind fh_size].
  destruct (digests_padding s d (Z.to_nat n) Hs) as (s1 & -> & H1). cbn [mbind result_bind].
  destruct (digests_string s1 _ #")" H1) as (s2 & -> & H2). cbn [mbind result_bind]. rewrite <- app_assoc, Hf in H2.
  rewrite (digests_finish SHA256 s2 _ H2). done.
Qed.

Lemma archive_regular x c : archive (Regular x c) =
  ((nar_tags [narVersionMagic1; #"("; #"type"; #"regular"] ++ nar_tags (if x then [ #"executable"; []] else [])) ++
   (enc_string #"contents" ++ enc_num (Z.of_nat (length c))) ++ c) ++ pad_bytes (length c) ++ enc_string #")".
Proof using Type.
  assert (enc_string c = enc_num (Z.of_nat (length c)) ++ c ++ pad_bytes (length c)) as Hc by done.
  unfold archive. cbn [nar]. unfold nar_tags. destruct x; cbn [app fmap list_fmap mjoin list_join];
    rewrite Hc, ?app_nil_r, <- ?app_assoc; done.
Qed.

(** One file. *)
Lemma handle_file k x c h :
  foreach fh_handle h (file_events k x c) =
  Ok (mkFileHasher [] None (Z.of_nat (length c)) (<[k := hash_of SHA256 (archive (Regular x c))]> (fh_out h))).
Proof using HashLibLaws0.
  unfold file_events. cbn [foreach app fh_handle]. destruct (begin_ok k h) as (h1 & -> & H1). cbn [mbind result_bind].
  assert (exists h2, foreach fh_handle h1 (if x then [EvExec] else []) = Ok h2 /\
    hashing k (nar_tags [narVersionMagic1; #"("; #"type"; #"regular"] ++ nar_tags (if x then [ #"executable"; []] else [])) (fh_size h) (fh_out h) h2) as (h2 & E2 & H2).
  { destruct x; cbn [foreach fh_handle].
    - destruct (exec_ok _ _ _ _ _ H1) as (h2 & -> & H2). by exists h2.
    - exists h1. split; [done|]. change (nar_tags []) with (@nil ascii). by rewrite app_nil_r. }
  rewrite foreach_app, E2. cbn [mbind result_bind foreach fh_handle].
  destruct (size_ok _ _ _ (Z.of_nat (length c)) _ _ H2) as (h3 & -> & H3). cbn [mbind result_bind].
  unfold fh_data. destruct (with_hash_ok (fun s => sink s c) k _ c _ _ h3 (fun s => digests_sink SHA256 s _ c) H3) as (h4 & -> & H4). cbn [mbind result_bind].
  rewrite (end_ok k _ _ _ h4 (Regular x c) H4); [done|]. rewrite Nat2Z.id, archive_regular, <- !app_assoc. done.
Qed.

Definition file_hash_of (e : list bytes * (bool * bytes)) : bytes * Hash :=
  (join_path (e.1), hash_of SHA256 (archive (Regular (e.2.1) (e.2.2)))).

Lemma handle_files l : forall h, exists h', foreach fh_handle h (mjoin ((fun e => file_events (join_path (e.1)) (e.2.1) (e.2.2)) <$> l)) = Ok h' /\
  fh_out h' = foldl (fun m e => <[(file_hash_of e).1 := (file_hash_of e).2]> m) (fh_out h) l.
Proof using HashLibLaws0.
  induction l as [|e l IH]; intros h; [by exists h|]. rewrite fmap_cons, join_cons, foreach_app, handle_file. cbn [mbind result_bind].
  destruct (IH (mkFileHasher [] None (Z.of_nat (length (e.2.2))) (<[join_path (e.1) := hash_of SHA256 (archive (Regular (e.2.1) (e.2.2)))]> (fh_out h)))) as (h' & E & H).
  by exists h'.
Qed.

Lemma inserted_lookup {A} (g : A -> bytes * Hash) l k v : forall m : gmap bytes Hash,
  (forall a b, a ∈ l -> b ∈ l -> (g a).1 = (g b).1 -> (g a).2 = (g b).2) ->
  foldl (fun m e => <[(g e).1 := (g e).2]> m) m l !! k = Some v <->
  (exists a, a ∈ l /\ g a = (k, v)) \/ (forall a, a ∈ l -> (g a).1 <> k) /\ m !! k = Some v.
Proof.
  induction l as [|a l IH]; intros m Hg; cbn [foldl].
  - split; [intros H; right; split; [intros a Ha; by apply elem_of_nil in Ha|done]|]. intros [(a & Ha & _)|[_ H]]; [by apply elem_of_nil in Ha|done].
  - rewrite IH by (intros x y Hx Hy; apply Hg; by right). split.
    + intros [(b & Hb & E)|[Hn Hm]]; [left; exists b; split; [by right|done]|].
      destruct (decide ((g a).1 = k)) as [Ek|Ek].
      * rewrite Ek, lookup_insert_eq in Hm. injection Hm as Hm. left. exists a. split; [left|]. destruct (g a); cbn in *; by subst.
      * rewrite lookup_insert_ne in Hm by done. right. split; [|done]. intros b [->|Hb]%elem_of_cons; [done|by apply Hn].
    + intros [(b & [->|Hb]%elem_of_cons & E)|[Hn Hm]].
      * destruct (decide (Exists (fun c => (g c).1 = k) l)) as [(c & Hc & Ec)%Exists_exists|Hno].
        -- left. exists c. split; [done|]. pose proof (Hg a c ltac:(left) ltac:(by right)) as Hac. rewrite E in Hac. specialize (Hac (eq_sym Ec)).
           destruct (g c); cbn in *; by subst.
        -- right. split; [intros c Hc Ec; apply Hno, Exists_exists; by exists c|]. rewrite E. cbn. by rewrite lookup_insert_eq.
      * left. by exists b.
      * right. split; [intros b Hb; apply Hn; by right|]. rewrite lookup_insert_ne; [done|]. apply Hn. left.
Qed.

(** The hashes of the regular files of [f], by their paths. *)
Definition hashes_of (f : File) (hashes : gmap bytes Hash) : Prop := forall k h,
  hashes !! k = Some h <-> exists q x c, node_at f q = Some (Regular x c) /\ k = join_path q /\ h = hash_of SHA256 (archive (Regular x c)).

Lemma node_at_good f : ok_file f -> forall q g, node_at f q = Some g -> Forall good q.
Proof using Type.
  induction f as [xb dt|es IH|tg] using File_ind'; intros Hok [|n q] g Hq; try done; try constructor.
  - cbn [node_at] in Hq. destruct (entry_lookup n es) as [f'|] eqn:Hn; [|done].
    apply entry_lookup_member in Hn. inversion_clear Hok as [|? _ Hnm _|]. rewrite Forall_forall in Hnm.
    apply (Hnm n). apply list_elem_of_fmap. by exists (n, f').
  - cbn [node_at] in Hq. destruct (entry_lookup n es) as [f'|] eqn:Hn; [|done]. cbn [mbind option_bind] in Hq.
    apply entry_lookup_member in Hn. inversion_clear Hok as [|? _ _ Hok'|]. rewrite Forall_forall in IH, Hok'.
    by apply (IH (n, f') Hn (Hok' _ Hn) q g).
Qed.

Lemma tree_hashed f : ok_file f -> exists h, foreach fh_handle FileHasher_new (tree_events [] f) = Ok h /\ hashes_of f (fh_out h).
Proof using HashLibLaws0.
  intros Hok. destruct (handle_files (regular_files [] f) FileHasher_new) as (h & E & Ho). exists h. split; [exact E|].
  intros k v. rewrite Ho, inserted_lookup.
  - split.
    + intros [([q [x c]] & Hq & [= <- <-])|[_ H]]; [|cbn [FileHasher_new fh_out] in H; by rewrite lookup_empty in H].
      apply elem_of_regular_files in Hq as (r & -> & Hr); [|done]. by exists r, x, c.
    + intros (q & x & c & Hq & -> & ->). left. exists (q, (x, c)). split; [|done]. apply elem_of_regular_files; [done|]. by exists q.
  - intros [q1 [x1 c1]] [q2 [x2 c2]] H1 H2 E12. apply elem_of_regular_files in H1 as (r1 & -> & H1), H2 as (r2 & -> & H2); [|done..].
    cbn [app file_hash_of fst snd] in *. apply join_inj in E12; [|by eapply Forall_good_plain, node_at_good..]. subst r2. rewrite H1 in H2. by injection H2 as -> ->.
Qed.

Lemma hashed_tree f : ok_file f -> exists m, hashed (tree_events [] f) = Ok m /\ hashes_of f m.
Proof using HashLibLaws0.
  intros Hok. destruct (tree_hashed f Hok) as (h & E & Ho). exists (fh_out h). split; [|done]. unfold hashed.
  assert (forall l h0, foreach fh_handle h0 l = Ok h -> foldl (handle_event fh_handle) (h0, None) l = (h, None)) as Hf; [|by rewrite (Hf _ _ E)].
  clear. induction l as [|e l IH]; intros h0 Hl; cbn [foreach foldl] in *; [by simplify_eq|].
  apply bind_Ok in Hl as (h1 & He & Hl). unfold handle_event at 2. cbn [fst snd]. rewrite He. by apply IH.
Qed.
End hashing.

(** ** What the sink does *)

Section building.
Context {F C G : Type} `{FileSystemObjectSink F C} `{!Feeds G}.
(** A directory is entered at its own root or at the same path. *)
Context (enter_rel : forall (f : F) p d rel, enterDirectory f p = Ok (d, rel) -> rel = root \/ rel = p).
Notation hsink := (FileHashingSink F G).

Lemma build_hashing file : forall (f : F) qs ps (g g' : G),
  Forall good qs -> Forall good ps -> ok_file file -> foreach feed g (tree_events (qs ++ ps) file) = Ok g' ->
  build (mkFileHashingSink f (of_components qs) g : hsink) (of_components ps) file =
  (f' ← build f (of_components ps) file; Ok (mkFileHashingSink f' (of_components qs) g')).
Proof using enter_rel.
  induction file as [x c|es IH|t] using File_ind'; intros f qs ps g g' Hqs Hps Hok Hg.
  - unfold tree_events in Hg. cbn [regular_files fmap list_fmap fst snd mjoin list_join] in Hg. rewrite app_nil_r in Hg.
    unfold file_events in Hg. cbn [foreach] in Hg. apply bind_Ok in Hg as (g1 & Hg1 & Hg). rewrite foreach_app in Hg. apply bind_Ok in Hg as (g2 & Hg2 & Hg).
    cbn [foreach] in Hg. apply bind_Ok in Hg as (g3 & Hg3 & Hg). apply bind_Ok in Hg as (g4 & Hg4 & Hg). apply bind_Ok in Hg as (g5 & Hg5 & [= <-]).
    cbn [build]. unfold build_regular. cbn [crf_open crf_isExecutable crf_preallocate crf_write crf_close FileHashingSink_sink]. unfold hs_crf_open. cbn [hs_inner hs_prefix hs_hasher].
    destruct (crf_open f _) as [c0|]; [|done]. cbn [mbind result_bind]. rewrite concat_path_of by done. cbn [abs of_components path]. rewrite Hg1. cbn [mbind result_bind].
    assert ((if x then hc_call EvExec crf_isExecutable (mkHashingCRF c0 (of_components qs) g1) else Ok (mkHashingCRF c0 (of_components qs) g1)) =
      (c1 ← (if x then crf_isExecutable c0 else Ok c0); Ok (mkHashingCRF c1 (of_components qs) g2))) as ->.
    { destruct x; cbn [foreach] in Hg2; [|by injection Hg2 as ->]. apply bind_Ok in Hg2 as (g2' & Hg2 & [= ->]).
      unfold hc_call. cbn [hc_hasher hc_inner hc_prefix]. by rewrite Hg2. }
    destruct (if x then crf_isExecutable c0 else Ok c0) as [c1|]; [|done]. cbn [mbind result_bind].
    unfold hc_call. cbn [hc_hasher hc_inner hc_prefix]. rewrite Hg3. cbn [mbind result_bind].
    destruct (crf_preallocate c1 _) as [c2|]; [|done]. cbn [mbind result_bind hc_hasher hc_inner hc_prefix]. rewrite Hg4. cbn [mbind result_bind].
    destruct (crf_write c2 c) as [c3|]; [|done]. cbn [mbind result_bind]. unfold hs_crf_close. cbn [hc_hasher hc_inner hc_prefix]. rewrite Hg5. cbn [mbind result_bind].
    by destruct (crf_close c3).
  - rewrite !build_Directory. cbn [enterDirectory leaveDirectory FileHashingSink_sink]. unfold hs_enterDirectory. cbn [hs_inner hs_prefix hs_hasher].
    destruct (enterDirectory f _) as [[d rel]|] eqn:He; [|done]. cbn [mbind result_bind]. apply enter_rel in He.
    assert (exists qs' ps', (if isRoot rel then concat_path (of_components qs) (of_components ps) else of_components qs) = of_components qs' /\
      rel = of_components ps' /\ qs' ++ ps' = qs ++ ps /\ Forall good qs' /\ Forall good ps' /\ isRoot rel || bool_decide (rel = of_components ps) = true)
      as (qs' & ps' & -> & -> & Eq & Hqs' & Hps' & ->).
    { destruct (isRoot rel) eqn:Er.
      - exists (qs ++ ps), []. rewrite concat_path_of by done. split; [done|]. split; [|by rewrite app_nil_r, Forall_app].
        destruct He as [->| ->]; [done|]. rewrite isRoot_of in Er by done. apply bool_decide_eq_true in Er. by subst ps.
      - exists qs, ps. destruct He as [->| ->]; [done|]. split; [done|]. split; [done|]. split; [done|]. split; [done|]. split; [done|]. by apply bool_decide_eq_true. }
    cbn [assertb throw_if negb mbind result_bind]. rewrite <- Eq in Hg. rewrite tree_events_Directory in Hg.
    inversion_clear Hok as [|? _ Hn Hok'|].
    enough (build_entries (of_components ps') (mkFileHashingSink d (of_components qs') g : hsink) es =
      (d' ← build_entries (of_components ps') d es; Ok (mkFileHashingSink d' (of_components qs') g'))) as ->.
    { destruct (build_entries _ d es) as [d'|]; [|done]. cbn [mbind result_bind]. unfold hs_leaveDirectory. cbn [hs_inner hs_prefix hs_hasher].
      by destruct (leaveDirectory f _ d'). }
    clear He Eq. revert d g Hg. induction es as [|[n fe] es IHes]; intros d g Hg; unfold build_entries; cbn [foreach].
    { cbn in Hg. by injection Hg as ->. }
    rewrite fmap_cons, join_cons, foreach_app in Hg. apply bind_Ok in Hg as (g1 & Hg1 & Hg). cbn [fst snd fmap list_fmap] in *.
    apply Forall_cons in IH as [IHf IH], Hn as [[Hn1 _] Hn], Hok' as [Hok1 Hok']. cbn [fst snd] in *.
    rewrite concat_comp_of by (apply Forall_app; auto). cbn [mbind result_bind].
    rewrite (IHf d qs' (ps' ++ [n]) g g1); [|done|by apply Forall_app; auto|done|by rewrite app_assoc].
    destruct (build d _ fe) as [d1|]; [|done]. cbn [mbind result_bind]. by apply IHes.
  - cbn [build createSymlink FileHashingSink_sink]. unfold hs_createSymlink. cbn [hs_inner]. cbn in Hg. injection Hg as <-.
    by destruct (createSymlink f _ t).
Qed.
End building.

(** ** The whole *)

Section whole.
Context `{L : HashLib} `{!HashLibLaws L}.
Context (now umask : Z) (preallocateContents fallocate_supported : bool).
Notation run := (restorePathCapturingHashes now umask preallocateContents fallocate_supported).
#[local] Instance restoring_sink : FileSystemObjectSink RestoreSink RestoreRegularFile :=
  RestoreSink_sink now umask preallocateContents fallocate_supported.

Lemma restore_enter_rel (s : RestoreSink) p d rel : enterDirectory s p = Ok (d, rel) -> rel = root \/ rel = p.
Proof using Type.
  cbn [enterDirectory restoring_sink RestoreSink_sink]. unfold rs_enterDirectory. intros Hr. apply bind_Ok in Hr as (s1 & _ & Hr).
  destruct (isRoot p); [injection Hr as _ <-; by right|]. apply bind_Ok in Hr as (fd & _ & Hr). apply bind_Ok in Hr as (fd' & _ & [= _ <-]). by left.
Qed.

Lemma feed_thread_all l : forall q, foreach (feed (G := list Ev)) q l = Ok (q ++ l).
Proof using Type.
  induction l as [|e l IH]; intros q; cbn [foreach]; [by rewrite app_nil_r|]. cbn [feed feeds_thread mbind result_bind].
  rewrite IH. by rewrite <- app_assoc.
Qed.

Lemma P_bind_eq {A B} (p : P A) (k : A -> P B) s : (p ≫= k) s = ('(a, s') ← p s; k a s').
Proof. unfold mbind, P_bind. by destruct (p s) as [[a s']|e]. Qed.

(** Both ways to hash, given the file that the archive holds. *)
Lemma restore_hashing_archive threaded inner f r : ok_file f -> (height f <= narMaxDepth)%nat ->
  exists m, hashes_of f m /\
    restore_hashing now umask preallocateContents fallocate_supported threaded inner (archive f ++ r) = (s ← build inner root f; Ok ((s, m), r)).
Proof using HashLibLaws0.
  intros Hok Hh. unfold restore_hashing. change root with (of_components []). destruct threaded.
  - destruct (hashed_tree f Hok) as (m & Em & Hm). exists m. split; [done|]. rewrite P_bind_eq, parseDump_build by done. change root with (of_components []).
    erewrite (build_hashing restore_enter_rel f inner [] [] [] (tree_events [] f)); [|done|done|done|apply feed_thread_all].
    destruct (build inner _ f) as [s|]; [|done]. cbn [mbind result_bind hs_hasher hs_inner].
    by rewrite plift_cases, Em.
  - destruct (tree_hashed f Hok) as (h & Em & Hm). exists (fh_out h). split; [done|]. rewrite P_bind_eq, parseDump_build by done. change root with (of_components []).
    erewrite (build_hashing restore_enter_rel f inner [] [] FileHasher_new h); [|done|done|done|exact Em].
    by destruct (build inner _ f) as [s|].
Qed.

Lemma restore_hashing_Ok threaded inner src s' m r :
  restore_hashing now umask preallocateContents fallocate_supported threaded inner src = Ok ((s', m), r) ->
  exists f, src = archive f ++ r /\ ok_file f /\ (height f <= narMaxDepth)%nat /\ build inner root f = Ok s' /\ hashes_of f m.
Proof using HashLibLaws0.
  intros Hr. assert (exists f, src = archive f ++ r /\ ok_file f /\ (height f <= narMaxDepth)%nat) as (f & -> & Hok & Hh).
  { unfold restore_hashing in Hr. destruct threaded; rewrite P_bind_eq in Hr; apply bind_Ok in Hr as ([s1 r1] & Hp & Hr);
      apply parseDump_parsed in Hp as (f & -> & Hok & Hh & _); try done; exists f; [|by injection Hr as _ _ <-].
    rewrite plift_cases in Hr. apply bind_Ok in Hr as (h & _ & Hr). by injection Hr as _ _ <-. }
  exists f. split; [done|]. split; [done|]. split; [done|].
  destruct (restore_hashing_archive threaded inner f r Hok Hh) as (m' & Hm & E). rewrite E in Hr.
  apply bind_Ok in Hr as (s & Hb & [= <- <-]). done.
Qed.

Lemma capturing_outcome threaded dir n canonical d m t es :
  lookup_path d dir = Some (NDir m t es) -> good n -> disk_ok d ->
  (forall f r, entry_lookup n es = None -> ok_file f -> (height f <= narMaxDepth)%nat -> preallocatable preallocateContents f ->
     exists d' hashes, run threaded (dir ++ [n]) canonical d (archive f ++ r) = Ok ((d', hashes), r)) /\
  (forall s d' hashes r, Z.of_nat (length s) <= max_off_t -> run threaded (dir ++ [n]) canonical d s = Ok ((d', hashes), r) ->
     entry_lookup n es = None /\
     exists f x, s = archive f ++ r /\ ok_file f /\ (height f <= narMaxDepth)%nat /\ added now dir n x d d' /\
       restored now umask canonical (inodes d') (new_dir now umask) (dir_meta now umask canonical) f x /\
       view (inodes d') x = Some f /\ hashes_of f hashes).
Proof using HashLibLaws0.
  intros Hl Hg Hd. set (s0 := mkRestoreSink d (dir ++ [n]) None canonical (if canonical then Some [] else None)).
  assert (forall f, entry_lookup n es = None -> ok_file f -> preallocatable preallocateContents f ->
    exists s' d' x, build s0 root f = Ok s' /\ canonicalise_dirs (default [] (deferCanonicalDirs s')) (rs_disk s') = Ok d' /\
      added now dir n x d d' /\ restored now umask canonical (inodes d') (new_dir now umask) (dir_meta now umask canonical) f x) as Hall.
  { intros f Hn Hok Hp. destruct (build_root now umask preallocateContents fallocate_supported f s0 dir n m t es) as (x & s' & Hb & Ha & Hdef & Hr); try done.
    cbn [s0 rs_disk dstPath rs_canonical] in *. exists s'.
    pose proof (added_lookup now dir n x d (rs_disk s') m t es Hl Ha) as Hx.
    destruct canonical; cbn [deferred s0 rs_canonical deferCanonicalDirs] in Hdef.
    - rewrite Hdef. cbn [fmap option_fmap option_map default app]. change (Restore.fin s0) with false in Hr. cbn [dir_meta] in Hr.
      destruct (finishes_root now umask f (rs_disk s') (dir ++ [n]) x true (inodes (rs_disk s')) Hx Hr Hok) as (x' & Hc & Hr').
      exists (update_path (fun _ => x') (dir ++ [n]) (rs_disk s')), x'. split; [done|]. split; [exact Hc|]. split; [|exact Hr'].
      destruct Ha as [Ht Hgr]. split; [|by eapply grown_same]. cbn [update_path tree]. rewrite Ht. by eapply update_new.
    - rewrite Hdef. exists (rs_disk s'), x. done. }
  split.
  - intros f r Hn Hok Hh Hp. destruct (Hall f Hn Hok Hp) as (s' & d' & x & Hb & Hc & _).
    destruct (restore_hashing_archive threaded s0 f r Hok Hh) as (h & _ & Hrun). exists d', h.
    unfold restorePathCapturingHashes. fold s0. rewrite P_bind_eq, Hrun, Hb. cbn [mbind result_bind]. by rewrite plift_cases, Hc.
  - intros src d' hashes r Hs Hrun. unfold restorePathCapturingHashes in Hrun. fold s0 in Hrun. rewrite P_bind_eq in Hrun.
    apply bind_Ok in Hrun as ([[s' h] r'] & Hrun & Hc). apply restore_hashing_Ok in Hrun as (f & -> & Hok & Hh & Hb & Hm).
    rewrite plift_cases in Hc. apply bind_Ok in Hc as (d1 & Hc & [= <- <- <-]).
    destruct (entry_lookup n es) as [y|] eqn:Hn; [by apply (build_exists now umask preallocateContents fallocate_supported f s0 dir n m t es y) in Hb|].
    split; [done|]. destruct (Hall f eq_refl Hok) as (s2 & d2 & x & Hb2 & Hc2 & Ha & Hr).
    { apply nar_preallocatable. intros _. unfold archive in Hs. rewrite !length_app in Hs. lia. }
    rewrite Hb in Hb2. injection Hb2 as <-. rewrite Hc in Hc2. injection Hc2 as <-. exists f, x. split; [done|]. split; [done|]. split; [done|].
    split; [done|]. split; [done|]. split; [by eapply restored_view|done].
Qed.
End whole.

(** ** Deduplication *)

Section dedup.
Context `{L : HashLib}.
Context (env : nat -> Disk -> Disk) (refuses : nat -> option errc) (clock : nat -> Z).
Context (realStoreDir : list bytes).
Notation linksDir := (linksDir realStoreDir).

(** [file.native() + ".dedup~"] *)
Definition dedup_tmp (file : list bytes) : list bytes := removelast file ++ [default [] (last file) ++ #".dedup~"].

(** [tryDedup] for the file restored at [file], whose size is [size]: whether
    it was replaced. *)
Definition tryDedup (file : list bytes) (size : Z) (h : Hash) : ST World bool :=
  if size =? 0 then mret false
  else
    scatch
      (name ← slift (Hashing.to_string h Nix32 false);
       let link := linksDir ++ [name] in
       let tmp := dedup_tmp file in
       st ← sys_stat env refuses clock link;
       match st with
       | inl _ => mret false
       | inr st =>
           if negb (Z.of_nat (ps_size st) =? size) then mret false
           else
             r ← sys_link env refuses clock link tmp;
             match r with
             | inl _ => mret false
             | inr () =>
                 r ← sys_rename env refuses clock tmp file;
                 match r with
                 | inl _ => _ ← sys_unlink env refuses clock tmp; mret false
                 | inr () => mret true
                 end
             end
       end)
      (fun _ => true) (fun _ => mret false).

Lemma tryDedup_returns file size h w : exists b, (tryDedup file size h w).1 = Ok b.
Proof using Type.
  unfold tryDedup. destruct (size =? 0); [by exists false|]. unfold scatch.
  match goal with |- context [match ?m w with _ => _ end] => destruct (m w) as [[b|e] w'] end; [by exists b|by exists false].
Qed.

Context `{!HashLibLaws L}.
(** Files with the same name in the farm are equal. *)
Context (known : File -> Prop).
Context (known_names : forall f g n, known f -> known g -> link_name f = Ok n -> link_name g = Ok n -> f = g).
(** The file, and the paths that are looked at. *)
Context (file : list bytes) (f : File) (Hf : known f).
Context (P : list bytes -> Prop) (V : list bytes -> option File) (P_file : P file) (V_file : V file = Some f).
Context (P_tmp : forall p, P p -> apart p (dedup_tmp file)) (links_tmp : forall n, apart (linksDir ++ [n]) (dedup_tmp file)).
Notation farm_ok := (farm_ok realStoreDir known).
Notation Inv := (World.Inv P V farm_ok).
Context (env_keeps : forall k d, Inv d -> Inv (env k d)).
Context (env_tmp : forall k d, view_at (env k d) (dedup_tmp file) = view_at d (dedup_tmp file)).

Lemma apart_tmp_Inv d d' : Inv d -> (forall p, apart p (dedup_tmp file) -> view_at d' p = view_at d p) -> Inv d'.
Proof using P_tmp links_tmp.
  intros [Hh Hd] Hs. split.
  - intros p Hp. rewrite Hs by (by apply P_tmp). by apply Hh.
  - intros n g. rewrite Hs by apply links_tmp. apply Hd.
Qed.

Lemma unlink_tmp_keeps : keeps w_disk Inv (sys_unlink env refuses clock (dedup_tmp file)) (fun _ => True).
Proof using P_tmp links_tmp env_keeps.
  eapply keeps_mono; [apply (keeps_sys _ _ _ _ env_keeps _ (fun _ => True))|by intros []].
  intros now d a d' Hd Hr. destruct (DiskCalls.unlink _ _ _) as [e|d1] eqn:Hu; [done|]. injection Hr as <- <-.
  apply unlink_view in Hu as [_ Hs]. split; [|done]. by eapply apart_tmp_Inv.
Qed.

(** The link and the renaming. *)
Lemma swap_keeps n : link_name f = Ok n ->
  keeps w_disk Inv
    (r ← sys_link env refuses clock (linksDir ++ [n]) (dedup_tmp file);
     match r with
     | inl _ => mret false
     | inr () =>
         r ← sys_rename env refuses clock (dedup_tmp file) file;
         match r with
         | inl _ => _ ← sys_unlink env refuses clock (dedup_tmp file); mret false
         | inr () => mret true
         end
     end) (fun _ => True).
Proof using known_names Hf P_file V_file P_tmp links_tmp env_keeps env_tmp.
  intros Hn w Hw. apply leads_bind. unfold leads at 1, sys_link, sys. pose proof (env_keeps (w_tick w) _ Hw) as [Hh Hd].
  destruct (refuses (w_tick w)); [done|]. destruct (hard_link _ _ _ _) as [e|d1] eqn:Hk; [done|]. cbv beta iota.
  apply hard_link_view in Hk as ((x & Hx & Hx') & _ & Hsame).
  destruct (Hd _ _ Hx) as [Hkx Hnx]. assert (inode_file x = f) as Hxf by (by eapply known_names). rewrite Hxf in Hx'.
  assert (Inv d1) as Hd1 by (eapply apart_tmp_Inv; [split; [exact Hh|exact Hd]|exact Hsame]).
  apply leads_bind. unfold leads at 1, sys_rename, sys. cbn [w_disk w_tick].
  pose proof (env_keeps (S (w_tick w)) _ Hd1) as Hd2. pose proof (env_tmp (S (w_tick w)) d1) as Htmp. rewrite Hx' in Htmp.
  set (d2 := env (S (w_tick w)) d1) in *.
  assert (forall w', Inv (w_disk w') -> leads (_ ← sys_unlink env refuses clock (dedup_tmp file); mret false) w'
    (fun _ w' => Inv (w_disk w') /\ True) (fun _ w' => Inv (w_disk w'))) as Hfail.
  { intros w' Hw'. apply (keeps_bind w_disk Inv _ _ (fun _ => True) (fun _ : bool => True)); [apply unlink_tmp_keeps|intros _ _; by apply keeps_ret|done]. }
  destruct (refuses (S (w_tick w))); [by apply Hfail|].
  destruct (rename _ _ _ d2) as [e|d3] eqn:Hr; [by apply Hfail|]. cbv beta iota. unfold leads. cbn. split; [|done].
  destruct Hd2 as [Hh2 Hf2]. eapply apart_tmp_Inv; [split; [exact Hh2|exact Hf2]|]. intros p Hp.
  apply (rename_view _ _ _ _ _ f Hr); [by apply apart_sym, P_tmp|done|by rewrite (Hh2 _ P_file)|done].
Qed.

Lemma tryDedup_keeps size : keeps w_disk Inv (tryDedup file size (hash_of SHA256 (archive f))) (fun _ => True).
Proof using known_names Hf P_file V_file P_tmp links_tmp env_keeps env_tmp.
  unfold tryDedup. destruct (size =? 0); [by apply keeps_ret|]. apply keeps_scatch; [|by intros; apply keeps_ret].
  apply (keeps_bind _ _ _ _ (fun n => link_name f = Ok n)); [by apply keeps_lift|]. intros n Hn. cbv zeta.
  eapply keeps_bind; [by apply (keeps_stat _ _ _ _ env_keeps _ (fun _ => True))|]. intros [e|st] _; [by apply keeps_ret|].
  destruct (negb _); [by apply keeps_ret|]. by apply swap_keeps.
Qed.
End dedup.

(** ** Properties *)




(** A restored file whose contents the farm has. *)
Definition farm_name : bytes := #"0000000000000400001i5mjpcsb8cdr62bbqd5p000000000000d".
Definition restored_next_to_farm : Disk :=
  mkDisk (NDir 0x1ED 1 [(#"s", NDir 0x1ED 1 [(#".links", NDir 0x1ED 1 [(farm_name, NLeaf 0)]); (#"a", NLeaf 1)])])
    (<[0%nat := mkInode (LRegular #"x" 0x124) 1]> {[1%nat := mkInode (LRegular #"x" 0x124) 1]}) 2.

