(* ===== verification/Strings.v ===== *)
(** * Strings: tokenizing, splitting and concatenating

    libutil/strings-inline.hh.  A position in the string is the rest of the
    string from there; a container result is the list of its insertions. *)

From S2P Require Export Bytes.

Section separators.
Context (separators : bytes).

Definition is_sep (c : ascii) : bool := bool_decide (c ∈ separators).

(** [find_first_not_of]: the rest of the string from there. *)
Fixpoint skip_seps (s : bytes) : bytes :=
  match s with
  | [] => []
  | c :: s' => if is_sep c then skip_seps s' else s
  end.

(** Up to [find_first_of], and the rest from there. *)
Fixpoint to_sep (s : bytes) : bytes * bytes :=
  match s with
  | [] => ([], [])
  | c :: s' => if is_sep c then ([], s) else let '(a, b) := to_sep s' in (c :: a, b)
  end.

(** [basicTokenizeString]; a token takes at least a character. *)
Fixpoint tokenize_loop (fuel : nat) (s : bytes) : list bytes :=
  match fuel, skip_seps s with
  | _, [] | O, _ => []
  | S fuel, c :: s' => let '(a, b) := to_sep s' in (c :: a) :: tokenize_loop fuel b
  end.
Definition tokenizeString (s : bytes) : list bytes := tokenize_loop (length s) s.

(** [basicSplitStringInto] *)
Fixpoint split_loop (fuel : nat) (s : bytes) : list bytes :=
  match fuel with
  | O => []
  | S fuel =>
      let '(a, b) := to_sep s in
      a :: match b with [] => [] | _ :: b' => split_loop fuel b' end
  end.
Definition splitString (s : bytes) : list bytes := split_loop (S (length s)) s.
End separators.

(** [basicConcatStringsSep] *)
Definition concatStringsSep (sep : bytes) (ss : list bytes) : bytes :=
  (foldl (fun (st : bytes * bool) i => ((if st.2 then st.1 ++ sep else st.1) ++ i, true)) ([], false) ss).1.

(** [dropEmptyInitThenConcatStringsSep] *)
Definition dropEmptyInitThenConcatStringsSep (sep : bytes) (ss : list bytes) : bytes :=
  foldl (fun s i => (if negb (length s =? 0)%nat then s ++ sep else s) ++ i) [] ss.

(** ** Lemmas *)

Lemma concat_tail sep ss a :
  (foldl (fun (st : bytes * bool) i => ((if st.2 then st.1 ++ sep else st.1) ++ i, true)) (a, true) ss).1
  = a ++ mjoin ((fun i => sep ++ i) <$> ss).
Proof.
  revert a; induction ss as [|x ss IH]; intros a; [by rewrite app_nil_r|]. cbn [foldl fst snd].
  rewrite IH, fmap_cons. change (mjoin (?y :: ?l)) with (y ++ mjoin l). by rewrite <- !app_assoc.
Qed.

Lemma concatStringsSep_cons sep x ss :
  concatStringsSep sep (x :: ss) = x ++ mjoin ((fun i => sep ++ i) <$> ss).
Proof. unfold concatStringsSep. cbn [foldl fst snd]. apply concat_tail. Qed.

Section roundtrip.
Context (separators : bytes).

Definition free (s : bytes) : Prop := Forall (fun c => c ∉ separators) s.

Lemma to_sep_free s r : free s -> (r = [] \/ exists c r', r = c :: r' /\ c ∈ separators) -> to_sep separators (s ++ r) = (s, r).
Proof using Type.
  intros Hs Hr. induction Hs as [|c s Hc _ IH]; cbn [app to_sep].
  - destruct Hr as [->|(c & r' & -> & Hc)]; [done|]. cbn. unfold is_sep. by rewrite bool_decide_true.
  - unfold is_sep. rewrite bool_decide_false by done. by rewrite IH.
Qed.

Lemma to_sep_spec s : let '(a, b) := to_sep separators s in
  s = a ++ b /\ free a /\ (b = [] \/ exists c b', b = c :: b' /\ c ∈ separators).
Proof using Type.
  induction s as [|c s IH]; cbn [to_sep]; [split; [done|]; split; [constructor|by left]|].
  unfold is_sep. case_bool_decide as Hc.
  - split; [done|]. split; [constructor|]. right; eauto.
  - destruct (to_sep separators s) as [a b]. destruct IH as (-> & Ha & Hb). split; [done|]. split; [by constructor|done].
Qed.
End roundtrip.

Lemma split_concat c ss :
  ss <> [] -> Forall (fun s => c ∉ s) ss -> splitString [c] (concatStringsSep [c] ss) = ss.
Proof.
  intros Hne Hss. destruct ss as [|x ss]; [done|]. clear Hne. unfold splitString.
  assert (forall fuel, (length (concatStringsSep [c] (x :: ss)) < fuel)%nat ->
    split_loop [c] fuel (concatStringsSep [c] (x :: ss)) = x :: ss) as H; [|apply H; lia].
  revert x Hss. induction ss as [|y ss IH]; intros x [Hx Hss]%Forall_cons fuel Hf;
    (destruct fuel as [|fuel]; [lia|]); rewrite concatStringsSep_cons in *; cbn [split_loop].
  - change (mjoin _) with (@nil ascii). rewrite app_nil_r. rewrite <- (app_nil_r x) at 1.
    rewrite to_sep_free; [done| |by left]. apply Forall_forall. intros d Hd ->%list_elem_of_singleton. done.
  - rewrite fmap_cons in *. change (mjoin (([c] ++ y) :: ?l)) with (c :: y ++ mjoin l) in *.
    rewrite to_sep_free; [|apply Forall_forall; intros d Hd ->%list_elem_of_singleton; done|right; eexists _, _; split; [done|left]].
    f_equal. specialize (IH y Hss fuel). rewrite concatStringsSep_cons in IH. apply IH.
    rewrite length_app in Hf. cbn [length] in Hf. lia.
Qed.

Lemma tokenize_concat c ss :
  Forall (fun s => s <> [] /\ c ∉ s) ss -> tokenizeString [c] (concatStringsSep [c] ss) = ss.
Proof.
  intros Hss. unfold tokenizeString. destruct ss as [|x ss]; [done|].
  assert (forall pre fuel, (pre = [] \/ pre = [c]) -> (length (concatStringsSep [c] (x :: ss)) <= fuel)%nat ->
    tokenize_loop [c] fuel (pre ++ concatStringsSep [c] (x :: ss)) = x :: ss) as H; [|apply (H []); auto].
  revert x Hss. induction ss as [|y ss IH]; intros x [[Hn Hx] Hss]%Forall_cons pre fuel Hpre Hf;
    (destruct x as [|d x]; [done|]); rewrite concatStringsSep_cons in *;
    (destruct fuel as [|fuel]; [simpl in Hf; lia|]); cbn [tokenize_loop];
    (assert (forall r, skip_seps [c] (pre ++ (d :: x) ++ r) = (d :: x) ++ r) as Hsk;
     [intros r; assert (is_sep [c] d = false) as Hd by (unfold is_sep; apply bool_decide_false; set_solver);
      assert (is_sep [c] c = true) as Hc by (unfold is_sep; apply bool_decide_true; set_solver);
      destruct Hpre as [->| ->]; cbn [app skip_seps]; rewrite ?Hc, ?Hd; done|]); rewrite Hsk; cbn [app].
  - change (mjoin _) with (@nil ascii). rewrite to_sep_free; [by destruct fuel| |by left].
    apply Forall_forall. intros e He ->%list_elem_of_singleton. set_solver.
  - rewrite fmap_cons in *. change (mjoin (([c] ++ y) :: ?l)) with (c :: y ++ mjoin l) in *.
    rewrite to_sep_free; [|apply Forall_forall; intros e He ->%list_elem_of_singleton; set_solver|right; eexists _, _; split; [done|left]].
    f_equal. specialize (IH y Hss [c] fuel). rewrite concatStringsSep_cons in IH. apply IH; [by right|].
    rewrite length_app in Hf. cbn [length] in Hf. lia.
Qed.

(** Joining strings with a separator character and taking them apart
    again gives the strings back: splitting for any non-empty list of
    strings without the separator, tokenizing when none of them is empty. *)
Theorem split_join c ss :
  Forall (fun s => c ∉ s) ss ->
  (ss <> [] -> splitString [c] (concatStringsSep [c] ss) = ss) /\
  (Forall (fun s => s <> []) ss -> tokenizeString [c] (concatStringsSep [c] ss) = ss).
Proof.
  intros Hss. split; [intros; by apply split_concat|]. intros Hn. apply tokenize_concat.
  rewrite Forall_forall in *. auto.
Qed.

Lemma split_join_witness :
  splitString #" " (concatStringsSep #" " [ #"a"; []; #"b"]) = [ #"a"; []; #"b"] /\
  tokenizeString #" " (concatStringsSep #" " [ #"a"; #"b"]) = [ #"a"; #"b"].
Proof.
  split.
  - apply (split_join " "%char [ #"a"; []; #"b"]); [|done].
    refine (bool_decide_unpack _ _). vm_compute. exact I.
  - apply (split_join " "%char [ #"a"; #"b"]); refine (bool_decide_unpack _ _); vm_compute; exact I.
Defined.
