(* ===== verification/PathInfo.v ===== *)
(** * PathInfo: what the store knows of a valid path

    libstore/path-info.cc ([ValidPathInfo] and its content address) and
    libutil/signature.cc. *)

From S2P Require Export StoreDir Strings.

(** ** Signatures *)

Record Signature := mkSignature { keyName : bytes; sig : bytes }.
#[export] Instance Signature_eq_dec : EqDecision Signature.
Proof. solve_decision. Defined.
#[export] Instance Signature_countable : Countable Signature.
Proof. apply (inj_countable' (fun s => (keyName s, sig s)) (fun p => mkSignature p.1 p.2)). by intros []. Defined.

Definition parse_sig (s : bytes) : result Signature :=
  match find_char ":" s with
  | None | Some O => Throw FormatError
  | Some colon =>
      let keyName := take colon s in
      sig ← base64.decode (drop (S colon) s);
      _ ← throw_if (bool_decide (keyName = []) || bool_decide (sig = [])) FormatError;
      Ok (mkSignature keyName sig)
  end.

Definition sig_to_string (s : Signature) : bytes := (keyName s ++ #":") ++ base64.encode (sig s).

(** The order of a [std::set<Signature>]. *)
Definition sig_le (s t : Signature) : Prop :=
  bytes_lt (keyName s) (keyName t) \/ keyName s = keyName t /\ bytes_le (sig s) (sig t).
#[export] Instance sig_le_dec : RelDecision sig_le.
Proof. intros s t. unfold sig_le. apply _. Defined.
Definition sig_iter (X : gset Signature) : list Signature := merge_sort sig_le (elements X).

Definition parseMany (sigStrs : gset bytes) : result (gset Signature) :=
  foreach (fun res s => x ← parse_sig s; Ok ({[x]} ∪ res)) ∅ (set_iter sigStrs).
Definition toStrings (sigs : gset Signature) : list bytes := sig_to_string <$> sig_iter sigs.

(** ** [ValidPathInfo] *)

Record ValidPathInfo := mkInfo {
  info_storeDir : bytes;
  deriver : option StorePath;
  narHash : Hash;
  references : StorePathSet;
  registrationTime : Z;
  narSize : Z;
  ultimate : bool;
  sigs : gset Signature;
  ca : option ContentAddress;
  path : StorePath;
}.
#[export] Instance ValidPathInfo_eq_dec : EqDecision ValidPathInfo.
Proof. solve_decision. Defined.

(** [ValidPathInfo(path, UnkeyedValidPathInfo(store, narHash))] *)
Definition new_info (storeDir : bytes) (path : StorePath) (narHash : Hash) : ValidPathInfo :=
  mkInfo storeDir None narHash ∅ 0 0 false ∅ None path.

Definition contentAddressWithReferences (info : ValidPathInfo) : result (option ContentAddressWithReferences) :=
  match ca info with
  | None => Ok None
  | Some c =>
      match method c with
      | ContentAddressMethod.Text =>
          _ ← assertb (bool_decide (path info ∉ references info));
          Ok (Some (CAText (mkTextInfo (ca_hash c) (references info))))
      | ContentAddressMethod.Flat | ContentAddressMethod.NixArchive =>
          let hasSelfReference := bool_decide (path info ∈ references info) in
          let refs := if hasSelfReference then references info ∖ {[path info]} else references info in
          Ok (Some (CAFixed (mkFixedOutputInfo (getFileIngestionMethod (method c)) (ca_hash c)
                               (mkStoreReferences refs hasSelfReference))))
      end
  end.

Definition shortRefs (info : ValidPathInfo) : list bytes := to_string <$> sp_iter (references info).

Section make.
Context `{HashLib} (storeDir : bytes).

Definition isContentAddressed (info : ValidPathInfo) : result bool :=
  fullCaOpt ← contentAddressWithReferences info;
  match fullCaOpt with
  | None => Ok false
  | Some fullCa =>
      n ← name (path info);
      caPath ← makeFixedOutputPathFromCA storeDir n fullCa;
      Ok (bool_decide (caPath = path info))
  end.

Definition makeFromCA (name : bytes) (c : ContentAddressWithReferences) (narHash : Hash) : result ValidPathInfo :=
  path ← makeFixedOutputPathFromCA storeDir name c;
  let references :=
    match c with
    | CAText ti => ti_references ti
    | CAFixed foi =>
        if self (foi_references foi) then {[path]} ∪ others (foi_references foi) else others (foi_references foi)
    end in
  Ok (mkInfo storeDir None narHash references 0 0 false ∅ (Some (mkContentAddress (getMethod c) (getHash c))) path).
End make.

(** ** Lemmas *)

Lemma parse_sig_to_string s :
  keyName s <> [] -> ":"%char ∉ keyName s -> sig s <> [] -> parse_sig (sig_to_string s) = Ok s.
Proof.
  intros Hk Hc Hs. destruct s as [k g]; cbn [keyName sig] in *. unfold parse_sig, sig_to_string; cbn [keyName sig].
  rewrite <- app_assoc. change (#":" ++ ?x) with (":"%char :: x). rewrite find_char_app by done.
  destruct (length k) as [|n] eqn:Hl; [by apply nil_length_inv in Hl|]. rewrite <- Hl.
  replace (S n) with (length k) in * by done.
  rewrite take_app_length. rewrite drop_S_app, base64.decode_encode64. cbn [mbind result_bind].
  by rewrite !bool_decide_false.
Qed.

(** The content address a path info is made from is the one it answers. *)
Lemma makeFromCA_ca `{HashLib} storeDir nm c h info :
  makeFromCA storeDir nm c h = Ok info ->
  (match c with CAText ti => path info ∉ ti_references ti | CAFixed foi => path info ∉ others (foi_references foi) end) ->
  contentAddressWithReferences info = Ok (Some c) /\ makeFixedOutputPathFromCA storeDir nm c = Ok (path info).
Proof.
  unfold makeFromCA. intros Hm Hp. apply bind_Ok in Hm as (p & Hmk & [= <-]).
  cbn [path] in *. split; [|done]. unfold contentAddressWithReferences; cbn [ca references path method ca_hash].
  destruct c as [[ch refs]|[m ch [o s]]]; cbn [getMethod getHash ti_references ti_hash foi_references foi_method foi_hash others self] in *.
  - by rewrite bool_decide_true.
  - assert ((if bool_decide (p ∈ (if s then {[p]} ∪ o else o)) then (if s then {[p]} ∪ o else o) ∖ {[p]}
             else if s then {[p]} ∪ o else o) = o /\ bool_decide (p ∈ (if s then {[p]} ∪ o else o)) = s) as [-> ->].
    { destruct s; [rewrite bool_decide_true by set_solver|rewrite bool_decide_false by done]; split; set_solver. }
    by destruct m.
Qed.

(** A path info made from a content address with references that does not
    list its own path under the other references answers that content
    address, has exactly those references, and passes the check that its
    path is content-addressed. *)
Theorem makeFromCA_isContentAddressed `{HashLibLaws} storeDir nm c h info :
  wf_Hash (getHash c) -> valid_name nm ->
  makeFromCA storeDir nm c h = Ok info ->
  (match c with CAText ti => path info ∉ ti_references ti | CAFixed foi => path info ∉ others (foi_references foi) end) ->
  contentAddressWithReferences info = Ok (Some c) /\ isContentAddressed storeDir info = Ok true.
Proof.
  intros Hw Hn Hm Hp. destruct (makeFromCA_ca storeDir nm c h info Hm Hp) as [Hc Hmk].
  split; [done|]. unfold isContentAddressed. rewrite Hc. cbn [mbind result_bind].
  rewrite (makeFixedOutputPathFromCA_name storeDir nm c _ Hw Hn Hmk). cbn [mbind result_bind].
  rewrite Hmk. cbn [mbind result_bind]. by rewrite bool_decide_true.
Qed.

Lemma makeFromCA_isContentAddressed_witness :
  exists info, @makeFromCA prefix_HashLib #"/nix/store" #"foo" (CAText (mkTextInfo (example_hash SHA256) ∅))
                 (example_hash SHA256) = Ok info /\
    @isContentAddressed prefix_HashLib #"/nix/store" info = Ok true.
Proof.
  destruct (@makeFixedOutputPathFromCA_outcome prefix_HashLib prefix_HashLib_laws #"/nix/store" #"foo"
    (CAText (mkTextInfo (example_hash SHA256) ∅)) (example_hash_wf SHA256) valid_name_foo) as [Hok _].
  destruct (Hok eq_refl) as (p & Hp & _).
  assert (exists info, @makeFromCA prefix_HashLib #"/nix/store" #"foo" (CAText (mkTextInfo (example_hash SHA256) ∅))
                 (example_hash SHA256) = Ok info) as [info Hi].
  { unfold makeFromCA. rewrite Hp. cbn [mbind result_bind]. by eexists. }
  exists info. split; [exact Hi|].
  exact (proj2 (@makeFromCA_isContentAddressed prefix_HashLib prefix_HashLib_laws #"/nix/store" #"foo"
    (CAText (mkTextInfo (example_hash SHA256) ∅)) (example_hash SHA256) info (example_hash_wf SHA256) valid_name_foo Hi
    (not_elem_of_empty _))).
Defined.

(** *** Signatures in the database column *)

Definition good_sig (s : Signature) : Prop :=
  keyName s <> [] /\ ":"%char ∉ keyName s /\ " "%char ∉ keyName s /\ sig s <> [].

#[export] Instance sig_le_total : Total sig_le.
Proof.
  intros [k g] [k' g']. unfold sig_le; cbn [keyName sig]. destruct (decide (k = k')) as [->|Hne].
  - destruct (total bytes_le g g'); auto.
  - destruct (total bytes_le k k') as [H|H]; apply bytes_le_lt in H as [H|H]; auto; congruence.
Qed.

Lemma elem_of_sig_iter s X : s ∈ sig_iter X <-> s ∈ X.
Proof. unfold sig_iter. rewrite merge_sort_Permutation. apply elem_of_elements. Qed.

Lemma parseMany_all X :
  (forall s, s ∈ X -> good_sig s) -> parseMany (list_to_set (toStrings X)) = Ok X.
Proof.
  intros HX. unfold parseMany.
  assert (forall (l : list bytes) (acc : gset Signature), (forall x, x ∈ l -> exists s, x = sig_to_string s /\ good_sig s /\ s ∈ X) ->
    exists Y, foreach (fun (res : gset Signature) s => x ← parse_sig s; Ok ({[x]} ∪ res)) acc l = Ok Y /\
      forall s, s ∈ Y <-> s ∈ acc \/ s ∈ X /\ sig_to_string s ∈ l) as Hl.
  { induction l as [|x l IH]; intros acc Hx.
    - exists acc. split; [done|]. set_solver.
    - cbn [foreach]. destruct (Hx x ltac:(left)) as (s & -> & Hg & Hs). pose proof Hg as (Hg1 & Hg2 & _ & Hg4).
      rewrite parse_sig_to_string by done. cbn [mbind result_bind].
      destruct (IH ({[s]} ∪ acc) ltac:(intros; apply Hx; by right)) as (Y & -> & HY). exists Y. split; [done|].
      intros t. rewrite HY, elem_of_union, elem_of_singleton, elem_of_cons. split.
      + intros [[->|?]|[? ?]]; auto.
      + intros [?|[Ht [He|?]]]; auto. left; left.
        pose proof (HX t Ht) as (Ht1 & Ht2 & _ & Ht4).
        pose proof (parse_sig_to_string t Ht1 Ht2 Ht4) as Hp. rewrite He, parse_sig_to_string in Hp by done. congruence. }
  destruct (Hl (set_iter (list_to_set (toStrings X))) ∅) as (Y & -> & HY).
  - intros x. rewrite elem_of_set_iter, elem_of_list_to_set. unfold toStrings.
    intros (s & -> & Hs%elem_of_sig_iter)%list_elem_of_fmap. exists s. auto.
  - f_equal. apply set_eq. intros s. rewrite HY, elem_of_set_iter, elem_of_list_to_set. unfold toStrings.
    split; [intros [Hs|[Hs _]]; [set_solver|done]|]. intros Hs. right. split; [done|].
    apply list_elem_of_fmap. exists s. by rewrite elem_of_sig_iter.
Qed.

Lemma sig_to_string_space s : good_sig s -> sig_to_string s <> [] /\ " "%char ∉ sig_to_string s.
Proof.
  intros (Hk & _ & Hs & _). unfold sig_to_string. split.
  - destruct (keyName s); done.
  - rewrite !elem_of_app. intros [[?|H]|H]; [done| |by apply base64.encode_no_space in H].
    apply list_elem_of_singleton in H. discriminate.
Qed.
