(* ===== verification/LocalStore.v ===== *)
(** * LocalStore: the database of valid paths

    libstore/local-store.cc and schema.sql: registering, querying, updating
    and invalidating valid paths; and the path info cache of store-api.cc in
    front of it.  The tables are those of schema.sql and every prepared
    statement is a function on them, with the uniqueness and foreign key
    constraints the schema declares; a transaction that throws rolls the
    tables back, and the cache, which is no part of it, stays.  Retrying a
    busy database is not modelled. *)

From S2P Require Export PathInfo LRUCache Graph.

(** ** Tables *)

Definition i64 (z : Z) : Z := let r := u64 z in if decide (r < 2 ^ 63)%Z then r else (r - 2 ^ 64)%Z.

Record Row := mkRow {
  row_id : Z;
  row_path : bytes;
  row_hash : bytes;
  row_registrationTime : Z;
  row_deriver : option bytes;
  row_narSize : option Z;
  row_ultimate : option Z;
  row_sigs : option bytes;
  row_ca : option bytes;
}.

(** [last_id] is the last row id handed out ([autoincrement]). *)
Record DB := mkDB {
  ValidPaths : list Row;
  Refs : gset (Z * Z);
  DerivationOutputs : list (Z * bytes * bytes);
  last_id : Z;
}.

Definition empty_db : DB := mkDB [] ∅ [] 0.

(** ** Statements *)

Definition QueryPathInfo (db : DB) (path : bytes) : option Row :=
  List.find (fun r => bool_decide (row_path r = path)) (ValidPaths db).

(** [insert into ValidPaths]: [path] is unique. *)
Definition RegisterValidPath (db : DB) (row : Z -> Row) : result DB :=
  let id := (last_id db + 1)%Z in
  let r := row id in
  match QueryPathInfo db (row_path r) with
  | Some _ => Throw SQLiteError
  | None => Ok (mkDB (ValidPaths db ++ [r]) (Refs db) (DerivationOutputs db) id)
  end.

(** [update ValidPaths set ... where path = ?] *)
Definition UpdatePathInfo (db : DB) (narSize : option Z) (hash : bytes) (ultimate : option Z)
    (sigs ca : option bytes) (path : bytes) : DB :=
  mkDB ((fun r => if decide (row_path r = path)
                  then mkRow (row_id r) (row_path r) hash (row_registrationTime r) (row_deriver r)
                             narSize ultimate sigs ca
                  else r) <$> ValidPaths db) (Refs db) (DerivationOutputs db) (last_id db).

Definition has_id (db : DB) (id : Z) : bool := existsb (fun r => bool_decide (row_id r = id)) (ValidPaths db).

(** [insert or replace into Refs], with its two foreign keys. *)
Definition AddReference (db : DB) (referrer reference : Z) : result DB :=
  if has_id db referrer && has_id db reference
  then Ok (mkDB (ValidPaths db) ({[(referrer, reference)]} ∪ Refs db) (DerivationOutputs db) (last_id db))
  else Throw SQLiteError.

(** [select path from Refs join ValidPaths on reference = id where referrer = ?] *)
Definition QueryReferences (db : DB) (id : Z) : list bytes :=
  row_path <$> filter (fun r => (id, row_id r) ∈ Refs db) (ValidPaths db).

(** [select path from Refs join ValidPaths on referrer = id where reference = (...)] *)
Definition QueryReferrers (db : DB) (path : bytes) : list bytes :=
  match QueryPathInfo db path with
  | Some r => row_path <$> filter (fun r' => (row_id r', row_id r) ∈ Refs db) (ValidPaths db)
  | None => []
  end.

Definition QueryValidDerivers (db : DB) (path : bytes) : list bytes :=
  row_path <$> filter (fun r => Exists (fun o => o.1.1 = row_id r /\ o.2 = path) (DerivationOutputs db)) (ValidPaths db).

(** [delete from ValidPaths where path = ?]: the trigger removes the
    self-reference, [on delete cascade] what the path refers to, and
    [on delete restrict] fails when another path refers to it. *)
Definition InvalidatePath (db : DB) (path : bytes) : result DB :=
  match QueryPathInfo db path with
  | None => Ok db
  | Some r =>
      let refs := Refs db ∖ {[(row_id r, row_id r)]} in
      let refs := filter (fun e => e.1 <> row_id r) refs in
      if bool_decide (set_Exists (fun e => e.2 = row_id r) refs) then Throw SQLiteError
      else Ok (mkDB (filter (fun r' => row_path r' <> path) (ValidPaths db)) refs
                    (filter (fun o => o.1.1 <> row_id r) (DerivationOutputs db)) (last_id db))
  end.

(** ** The store *)

Definition PathInfoCache : Type := LRUCache StorePath (option ValidPathInfo).

Record LocalStore := mkStore { db : DB; pathInfoCache : PathInfoCache }.

Abbreviation SM := (ST LocalStore).
Definition from_db {A} (f : DB -> A) : SM A := fun s => (Ok (f (db s)), s).
Definition set_db (f : DB -> result DB) : SM unit := fun s =>
  match f (db s) with Ok d => (Ok (), mkStore d (pathInfoCache s)) | Throw e => (Throw e, s) end.
Definition set_cache (f : PathInfoCache -> result PathInfoCache) : SM unit := fun s =>
  match f (pathInfoCache s) with Ok c => (Ok (), mkStore (db s) c) | Throw e => (Throw e, s) end.

(** [SQLiteTxn]: rolled back unless committed. *)
Definition txn {A} (m : SM A) : SM A := fun s =>
  match m s with
  | (Ok a, s') => (Ok a, s')
  | (Throw e, s') => (Throw e, mkStore (db s) (pathInfoCache s'))
  end.

Lemma from_db_bind {A B} g (f : A -> SM B) s : (from_db g ≫= f) s = f (g (db s)) s.
Proof. done. Qed.
Lemma set_db_bind {B} g (f : unit -> SM B) s d : g (db s) = Ok d -> (set_db g ≫= f) s = f () (mkStore d (pathInfoCache s)).
Proof. intros Hg. apply ST_bind_Ok. unfold set_db. by rewrite Hg. Qed.
Lemma set_cache_bind {B} g (f : unit -> SM B) s c :
  g (pathInfoCache s) = Ok c -> (set_cache g ≫= f) s = f () (mkStore (db s) c).
Proof. intros Hg. apply ST_bind_Ok. unfold set_cache. by rewrite Hg. Qed.

Section LocalStore.
Context `{HashLib} (storeDir : bytes).
(** The time [time(nullptr)] gives. *)
Context (now : Z).

Definition parse_all (l : list bytes) : result StorePathSet :=
  foreach (fun (res : StorePathSet) s => p ← parseStorePath storeDir s; Ok ({[p]} ∪ res)) ∅ l.

Definition invalidatePathInfoCacheFor (path : StorePath) : SM unit :=
  set_cache (fun c => Ok (erase c path).2).

(** The columns an info is written to. *)
Definition not_null {A} (x : A) (notNull : bool) : option A := if notNull then Some x else None.
Definition sigs_column (info : ValidPathInfo) : option bytes :=
  not_null (concatStringsSep #" " (toStrings (sigs info))) (negb (bool_decide (sigs info = ∅))).
Definition ca_column (info : ValidPathInfo) : result (option bytes) :=
  s ← renderContentAddress (ca info); Ok (not_null s (bool_decide (is_Some (ca info)))).
Definition narSize_column (info : ValidPathInfo) : option Z :=
  not_null (i64 (narSize info)) (negb (narSize info =? 0)%Z).
Definition ultimate_column (info : ValidPathInfo) : option Z :=
  not_null (if ultimate info then 1 else 0)%Z (ultimate info).

Definition addValidPath (info : ValidPathInfo) : SM Z :=
  isCA ← slift (match ca info with
                | Some _ => isContentAddressed storeDir info
                | None => Ok true
                end);
  _ ← slift (throw_if (negb isCA) Error);
  hash ← slift (Hashing.to_string (narHash info) Base16 true);
  ca ← slift (ca_column info);
  _ ← set_db (fun d => RegisterValidPath d (fun id =>
        mkRow id (printStorePath storeDir (path info)) hash
          (if (registrationTime info =? 0)%Z then now else registrationTime info)
          (printStorePath storeDir <$> deriver info)
          (narSize_column info) (ultimate_column info) (sigs_column info) ca));
  id ← from_db last_id;
  _ ← set_cache (fun c => upsert c (path info) (Some info));
  mret id.

(** An info from its row and references. *)
Definition info_of_row (d : DB) (path : StorePath) (r : Row) : result ValidPathInfo :=
  narHash ← catch (parseAnyPrefixed (row_hash r)) (fun e => bool_decide (e = BadHash)) (fun _ => Throw Error);
  deriver ← match row_deriver r with
            | Some s => d ← parseStorePath storeDir s; Ok (Some d)
            | None => Ok None
            end;
  sigs ← match row_sigs r with
         | Some s => parseMany (list_to_set (tokenizeString #" " s))
         | None => Ok ∅
         end;
  ca ← match row_ca r with Some s => parseOpt s | None => Ok None end;
  references ← parse_all (QueryReferences d (row_id r));
  Ok (mkInfo storeDir deriver narHash references (row_registrationTime r) (u64 (default 0%Z (row_narSize r)))
        (default 0 (row_ultimate r) =? 1)%Z sigs ca path).

Definition queryPathInfoInternal (path : StorePath) : SM (option ValidPathInfo) :=
  d ← from_db id;
  slift (match QueryPathInfo d (printStorePath storeDir path) with
         | None => Ok None
         | Some r => Some <$> info_of_row d path r
         end).

Definition updatePathInfo (info : ValidPathInfo) : SM unit :=
  hash ← slift (Hashing.to_string (narHash info) Base16 true);
  ca ← slift (ca_column info);
  set_db (fun d => Ok (UpdatePathInfo d (narSize_column info) hash (ultimate_column info) (sigs_column info) ca
                         (printStorePath storeDir (path info)))).

Definition queryValidPathId (path : StorePath) : SM Z :=
  r ← from_db (fun d => QueryPathInfo d (printStorePath storeDir path));
  slift (from_opt InvalidPath (row_id <$> r)).

Definition isValidPath_ (path : StorePath) : SM bool :=
  from_db (fun d => bool_decide (is_Some (QueryPathInfo d (printStorePath storeDir path)))).
Definition isValidPathUncached (path : StorePath) : SM bool := isValidPath_ path.

Definition queryAllValidPaths : SM StorePathSet :=
  l ← from_db (fun d => row_path <$> ValidPaths d); slift (parse_all l).

Definition queryReferrers (path : StorePath) : SM StorePathSet :=
  l ← from_db (fun d => QueryReferrers d (printStorePath storeDir path)); slift (parse_all l).

Definition queryValidDerivers (path : StorePath) : SM StorePathSet :=
  l ← from_db (fun d => QueryValidDerivers d (printStorePath storeDir path)); slift (parse_all l).

(** *** Registering *)

(** [infos] in the order of its keys. *)
Definition infos_find (infos : list (StorePath * ValidPathInfo)) (p : StorePath) : option ValidPathInfo :=
  snd <$> List.find (fun e => bool_decide (e.1 = p)) infos.

Definition register_one (i : ValidPathInfo) : SM unit :=
  _ ← slift (assertb (bool_decide (algo (narHash i) = SHA256)));
  v ← isValidPath_ (path i);
  if v : bool then updatePathInfo i else _ ← addValidPath i; mret ().

Definition add_references (i : ValidPathInfo) : SM unit :=
  referrer ← queryValidPathId (path i);
  sforeach (fun j => reference ← queryValidPathId j;
                     set_db (fun d => AddReference d referrer reference)) (sp_iter (references i)).

Definition registerValidPaths (infos : list (StorePath * ValidPathInfo)) : SM unit :=
  txn (
    _ ← sforeach (fun e => register_one (e.2)) infos;
    _ ← sforeach (fun e => add_references (e.2)) infos;
    let paths : StorePathSet := list_to_set ((fun e => path (e.2)) <$> infos) in
    sorted ← slift (topoSort (sp_iter paths)
                      (fun p => Ok (match infos_find infos p with
                                    | Some i => sp_iter (references i)
                                    | None => []
                                    end)));
    match sorted with
    | inl _ => mret ()
    | inr _ => slift (Throw Error)
    end).

Definition registerValidPath (info : ValidPathInfo) : SM unit := registerValidPaths [(path info, info)].

(** *** Invalidating *)

Definition invalidatePath (path : StorePath) : SM unit :=
  _ ← set_db (fun d => InvalidatePath d (printStorePath storeDir path));
  invalidatePathInfoCacheFor path.

Definition invalidatePathChecked (path : StorePath) : SM unit :=
  txn (
    v ← isValidPath_ path;
    if v : bool then
      referrers ← queryReferrers path;
      let referrers := referrers ∖ {[path]} in
      _ ← slift (throw_if (negb (bool_decide (referrers = ∅))) PathInUse);
      invalidatePath path
    else mret ()).

(** *** The cache in front of the database (store-api.cc) *)

Definition cache_get (path : StorePath) : SM (option (option ValidPathInfo)) := fun s =>
  let '(v, c) := get (pathInfoCache s) path in (Ok v, mkStore (db s) c).

Definition isValidPath (path : StorePath) : SM bool :=
  res ← cache_get path;
  match res with
  | Some value => mret (bool_decide (is_Some value))
  | None => isValidPathUncached path
  end.

Definition MissingName : bytes := #"x".

Definition goodStorePath (expected actual : StorePath) : result bool :=
  if bool_decide (hashPart expected = hashPart actual) then
    n ← name expected;
    if bool_decide (n = MissingName) then Ok true
    else m ← name actual; Ok (bool_decide (n = m))
  else Ok false.

Definition queryPathInfo (storePath : StorePath) : SM ValidPathInfo :=
  r ← cache_get storePath;
  match r with
  | Some value => slift (from_opt InvalidPath value)
  | None =>
      info ← queryPathInfoInternal storePath;
      _ ← set_cache (fun c => upsert c storePath info);
      match info with
      | None => slift (Throw InvalidPath)
      | Some info =>
          good ← slift (goodStorePath storePath (path info));
          if good : bool then mret info else slift (Throw InvalidPath)
      end
  end.
End LocalStore.

(** ** The database as a relation *)

Section database.
Context (ds : list bytes).
Notation storeDir := (join_path ds).
Notation print := (printStorePath storeDir).

Lemma print_inj p q : print p = print q -> p = q.
Proof using Type. unfold printStorePath. intros He%app_inv_head. by apply (inj baseName). Qed.

(** [r] is the row of [p]. *)
Definition row_at (d : DB) (p : StorePath) (r : Row) : Prop := r ∈ ValidPaths d /\ row_path r = print p.
Definition valid (d : DB) (p : StorePath) : Prop := exists r, row_at d p r.
Definition refers (d : DB) (p q : StorePath) : Prop :=
  exists r r', row_at d p r /\ row_at d q r' /\ (row_id r, row_id r') ∈ Refs d.

(** What the columns of a row hold. *)
Record row_ok (r : Row) : Prop := {
  ro_path : exists p, wf_StorePath p /\ row_path r = print p;
  ro_hash : exists h, wf_Hash h /\ Hashing.to_string h Base16 true = Ok (row_hash r);
  ro_deriver : forall s, row_deriver r = Some s -> exists p, wf_StorePath p /\ s = print p;
  ro_sigs : forall s, row_sigs r = Some s ->
    exists X, (forall x, x ∈ X -> good_sig x) /\ s = concatStringsSep #" " (toStrings X);
  ro_ca : forall s, row_ca r = Some s -> exists c, wf_Hash (ca_hash c) /\ render c = Ok s;
}.

(** The constraints of the schema, and sound rows. *)
Record db_ok (d : DB) : Prop := {
  ok_ids : NoDup (row_id <$> ValidPaths d);
  ok_paths : NoDup (row_path <$> ValidPaths d);
  ok_last : forall r, r ∈ ValidPaths d -> (0 < row_id r <= last_id d)%Z;
  ok_nonneg : (0 <= last_id d)%Z;
  ok_rows : forall r, r ∈ ValidPaths d -> row_ok r;
  ok_refs : forall a b, (a, b) ∈ Refs d ->
    (exists r, r ∈ ValidPaths d /\ row_id r = a) /\ (exists r, r ∈ ValidPaths d /\ row_id r = b);
}.

Lemma empty_db_ok : db_ok empty_db.
Proof using Type. split; cbn; try (intros; set_solver); try constructor; lia. Qed.

Lemma Query_Some d s r : QueryPathInfo d s = Some r -> r ∈ ValidPaths d /\ row_path r = s.
Proof using Type.
  unfold QueryPathInfo. intros [Hin Hp]%find_some. split; [by apply list_elem_of_In|].
  by apply bool_decide_eq_true in Hp.
Qed.

Lemma Query_None d s r : QueryPathInfo d s = None -> r ∈ ValidPaths d -> row_path r <> s.
Proof using Type.
  unfold QueryPathInfo. intros Hn Hr%list_elem_of_In. apply (find_none _ _ Hn) in Hr. by apply bool_decide_eq_false in Hr.
Qed.

Lemma row_at_unique d p r r' : db_ok d -> row_at d p r -> row_at d p r' -> r = r'.
Proof using Type.
  intros Hok [Hr Hp] [Hr' Hp']. apply list_elem_of_lookup in Hr as [i Hi], Hr' as [j Hj].
  assert ((row_path <$> ValidPaths d) !! i = Some (print p)) as H1 by (by rewrite list_lookup_fmap, Hi, <- Hp).
  assert ((row_path <$> ValidPaths d) !! j = Some (print p)) as H2 by (by rewrite list_lookup_fmap, Hj, <- Hp').
  pose proof (NoDup_lookup _ _ _ _ (ok_paths _ Hok) H1 H2). congruence.
Qed.

Lemma row_id_inj d r r' : db_ok d -> r ∈ ValidPaths d -> r' ∈ ValidPaths d -> row_id r = row_id r' -> r = r'.
Proof using Type.
  intros Hok Hr Hr' He. apply list_elem_of_lookup in Hr as [i Hi], Hr' as [j Hj].
  assert ((row_id <$> ValidPaths d) !! i = Some (row_id r)) as H1 by (by rewrite list_lookup_fmap, Hi).
  assert ((row_id <$> ValidPaths d) !! j = Some (row_id r)) as H2 by (by rewrite list_lookup_fmap, Hj, He).
  pose proof (NoDup_lookup _ _ _ _ (ok_ids _ Hok) H1 H2). congruence.
Qed.

Lemma Query_row_at d p r : db_ok d -> row_at d p r -> QueryPathInfo d (print p) = Some r.
Proof using Type.
  intros Hok Hr. destruct (QueryPathInfo d (print p)) as [r'|] eqn:Hq.
  - apply Query_Some in Hq. f_equal. by eapply row_at_unique.
  - destruct Hr as [Hr Hp]. by apply (Query_None d (print p) r) in Hq.
Qed.

Lemma valid_Query d p : db_ok d -> valid d p <-> is_Some (QueryPathInfo d (print p)).
Proof using Type.
  intros Hok. split.
  - intros [r Hr]. rewrite (Query_row_at d p r) by done. by eexists.
  - intros [r Hr]. exists r. by apply Query_Some.
Qed.

Lemma row_sp d r : db_ok d -> r ∈ ValidPaths d -> exists p, wf_StorePath p /\ row_at d p r.
Proof using Type. intros Hok Hr. destruct (ro_path _ (ok_rows _ Hok r Hr)) as (p & Hp & He). by exists p. Qed.

Lemma row_at_path d p q r : row_at d p r -> row_at d q r -> p = q.
Proof using Type. intros [_ Hp] [_ Hq]. apply print_inj. congruence. Qed.

Lemma valid_wf d p : db_ok d -> valid d p -> wf_StorePath p.
Proof using Type.
  intros Hok [r Hr]. destruct (row_sp d r Hok (proj1 Hr)) as (q & Hq & Hrq).
  by rewrite (row_at_path d p q r).
Qed.

(** Valid paths are closed under references. *)
Lemma refers_valid d p q : refers d p q -> valid d p /\ valid d q.
Proof using Type. intros (r & r' & Hr & Hr' & _). split; by eexists. Qed.

(** References other than to itself; no path is reached from itself by them. *)
Definition ref_edge (d : DB) (p q : StorePath) : Prop := refers d p q /\ p <> q.
Definition acyclic (d : DB) : Prop := forall p, ~ tc (ref_edge d) p p.

Lemma has_id_true d r : r ∈ ValidPaths d -> has_id d (row_id r) = true.
Proof using Type.
  intros Hr. unfold has_id. apply existsb_exists. exists r. split; [by apply list_elem_of_In|]. by apply bool_decide_true.
Qed.

(** *** The statements *)

Lemma RegisterValidPath_ok d p row :
  db_ok d -> ~ valid d p -> (forall i, row_id (row i) = i) -> (forall i, row_path (row i) = print p) ->
  (forall i, row_ok (row i)) ->
  exists d', RegisterValidPath d row = Ok d' /\ db_ok d' /\ last_id d' = (last_id d + 1)%Z /\
    (forall q r, row_at d' q r <-> row_at d q r \/ q = p /\ r = row (last_id d + 1)%Z) /\
    (forall x y, refers d' x y <-> refers d x y).
Proof using Type.
  intros Hok Hnv Hid Hp Hro. unfold RegisterValidPath. rewrite Hp.
  destruct (QueryPathInfo d (print p)) as [r|] eqn:Hq.
  { exfalso. apply Hnv, valid_Query; [done|]. rewrite Hq. by eexists. }
  set (i := (last_id d + 1)%Z). eexists. split; [done|].
  assert (forall r, r ∈ ValidPaths d -> row_id r <> i) as Hfresh.
  { intros r Hr. pose proof (ok_last _ Hok r Hr). unfold i. lia. }
  split; [split; cbn [ValidPaths Refs last_id]|split; [done|split]].
  - rewrite fmap_app. apply NoDup_app. split; [apply Hok|]. split; [|apply NoDup_singleton].
    intros x (r & -> & Hr)%list_elem_of_fmap. cbn. rewrite list_elem_of_singleton, Hid. by apply Hfresh.
  - rewrite fmap_app. apply NoDup_app. split; [apply Hok|]. split; [|apply NoDup_singleton].
    intros x (r & -> & Hr)%list_elem_of_fmap. cbn. rewrite list_elem_of_singleton, Hp. by eapply Query_None.
  - intros r [Hr|Hr]%elem_of_app; [pose proof (ok_last _ Hok r Hr); unfold i; lia|].
    apply list_elem_of_singleton in Hr as ->. rewrite Hid. pose proof (ok_nonneg _ Hok). unfold i. lia.
  - pose proof (ok_nonneg _ Hok). unfold i. lia.
  - intros r [Hr|Hr]%elem_of_app; [by apply Hok|]. apply list_elem_of_singleton in Hr as ->. apply Hro.
  - intros a b Hab. destruct (ok_refs _ Hok a b Hab) as [(r & ? & ?) (r' & ? & ?)]. split; [exists r|exists r']; set_solver.
  - intros q r. unfold row_at; cbn [ValidPaths]. rewrite elem_of_app, list_elem_of_singleton. split.
    + intros [[?| ->] Hr]; [auto|right]. rewrite Hp in Hr. apply print_inj in Hr. done.
    + intros [[? ?]|[-> ->]]; auto.
  - intros x y. unfold refers, row_at; cbn [ValidPaths Refs]. split.
    + intros (r & r' & [Hr Hx] & [Hr' Hy] & Hrr).
      destruct (ok_refs _ Hok _ _ Hrr) as [(r1 & Hr1 & He1) (r2 & Hr2 & He2)].
      apply elem_of_app in Hr as [Hr|Hr%list_elem_of_singleton];
        [|exfalso; apply (Hfresh r1 Hr1); by rewrite He1, Hr, Hid].
      apply elem_of_app in Hr' as [Hr'|Hr'%list_elem_of_singleton];
        [|exfalso; apply (Hfresh r2 Hr2); by rewrite He2, Hr', Hid]. eauto 10.
    + intros (r & r' & [Hr Hx] & [Hr' Hy] & Hrr). exists r, r'. set_solver.
Qed.

Lemma AddReference_ok d p q r r' :
  db_ok d -> row_at d p r -> row_at d q r' ->
  exists d', AddReference d (row_id r) (row_id r') = Ok d' /\ db_ok d' /\
    (forall x r, row_at d' x r <-> row_at d x r) /\
    (forall x y, refers d' x y <-> refers d x y \/ x = p /\ y = q).
Proof using Type.
  intros Hok Hr Hr'. unfold AddReference. rewrite !has_id_true by (apply Hr || apply Hr').
  eexists. split; [done|]. split; [|split; [done|]].
  - destruct Hok as [H1 H2 H3 H4 H5 H6]. split; cbn [ValidPaths Refs last_id]; auto.
    intros a b [[= -> ->]%elem_of_singleton|Hab]%elem_of_union; [|auto]. split; [exists r|exists r']; (split; [apply Hr || apply Hr'|done]).
  - intros x y. unfold refers. split.
    + intros (s & s' & Hs & Hs' & [[= He He']%elem_of_singleton|Hss]%elem_of_union); [right|left; by exists s, s'].
      apply (row_id_inj d) in He as ->; [|done|apply Hs|apply Hr].
      apply (row_id_inj d) in He' as ->; [|done|apply Hs'|apply Hr'].
      split; by eapply row_at_path.
    + intros [(s & s' & Hs & Hs' & Hss)|[-> ->]]; [exists s, s'|exists r, r']; (split; [done|split; [done|]]); set_solver.
Qed.

Lemma UpdatePathInfo_ok d p narSize hash ultimate sigs ca :
  db_ok d ->
  (forall r, row_at d p r -> row_ok (mkRow (row_id r) (row_path r) hash (row_registrationTime r) (row_deriver r)
                                       narSize ultimate sigs ca)) ->
  let d' := UpdatePathInfo d narSize hash ultimate sigs ca (print p) in
  db_ok d' /\ (forall x, valid d' x <-> valid d x) /\ (forall x y, refers d' x y <-> refers d x y) /\
  (forall x r, x <> p -> row_at d x r -> row_at d' x r).
Proof using Type.
  intros Hok Hro d'.
  set (f := fun r : Row => if decide (row_path r = print p)
                           then mkRow (row_id r) (row_path r) hash (row_registrationTime r) (row_deriver r)
                                  narSize ultimate sigs ca
                           else r).
  assert (ValidPaths d' = f <$> ValidPaths d) as Hvp by done.
  assert (forall r, row_id (f r) = row_id r) as Hid by (intros r; unfold f; by case_decide).
  assert (forall r, row_path (f r) = row_path r) as Hpath by (intros r; unfold f; by case_decide).
  assert (forall x r, row_at d x r -> row_at d' x (f r)) as Hat.
  { intros x r [Hr Hx]. split; [|by rewrite Hpath]. rewrite Hvp. apply list_elem_of_fmap. by exists r. }
  assert (forall x r', row_at d' x r' -> exists r, r' = f r /\ row_at d x r) as Hat'.
  { intros x r' [Hr Hx]. rewrite Hvp in Hr. apply list_elem_of_fmap in Hr as (r & -> & Hr).
    exists r. split; [done|]. split; [done|]. by rewrite <- Hpath. }
  split; [|split; [|split]].
  - pose proof Hok as [H1 H2 H3 H4 H5 H6].
    split; rewrite ?Hvp; [| |intros r' (r & -> & Hr)%list_elem_of_fmap; rewrite Hid; by apply H3|done| |].
    + rewrite <- list_fmap_compose. erewrite list_fmap_ext; [exact H1|]. intros i r _. apply Hid.
    + rewrite <- list_fmap_compose. erewrite list_fmap_ext; [exact H2|]. intros i r _. apply Hpath.
    + intros r' (r & -> & Hr)%list_elem_of_fmap. unfold f. case_decide as Hp; [|by apply H5]. apply Hro. done.
    + intros a b Hab. destruct (H6 a b Hab) as [(r & Hr & <-) (r' & Hr' & <-)].
      split; [exists (f r)|exists (f r')]; rewrite Hid; (split; [|done]); apply list_elem_of_fmap; eauto.
  - intros x. split; [intros [r' (r & _ & Hr)%Hat']; by exists r|]. intros [r Hr%Hat]. by eexists.
  - intros x y. split.
    + intros (r1 & r2 & (s1 & -> & Hr1)%Hat' & (s2 & -> & Hr2)%Hat' & Hin). rewrite !Hid in Hin. by exists s1, s2.
    + intros (r1 & r2 & Hr1%Hat & Hr2%Hat & Hin). exists (f r1), (f r2). by rewrite !Hid.
  - intros x r Hne Hr. pose proof (Hat x r Hr) as Hx. unfold f in Hx. rewrite decide_False in Hx; [done|].
    destruct Hr as [_ Hr]. rewrite Hr. intros He%print_inj. done.
Qed.

Lemma InvalidatePath_ok d p :
  db_ok d -> valid d p ->
  ((forall q, refers d q p -> q = p) ->
    exists d', InvalidatePath d (print p) = Ok d' /\ db_ok d' /\
      (forall x r, row_at d' x r <-> row_at d x r /\ x <> p) /\
      (forall x y, refers d' x y <-> refers d x y /\ x <> p)) /\
  (forall q, refers d q p -> q <> p -> InvalidatePath d (print p) = Throw SQLiteError).
Proof using Type.
  intros Hok [r Hr]. pose proof (Query_row_at d p r Hok Hr) as Hq. unfold InvalidatePath. rewrite Hq.
  set (refs := filter _ (Refs d ∖ _)).
  assert (forall a b, (a, b) ∈ refs <-> (a, b) ∈ Refs d /\ a <> row_id r) as Hrefs.
  { intros a b. unfold refs. rewrite elem_of_filter, elem_of_difference, elem_of_singleton. cbn [fst].
    split; [tauto|]. intros [? Hn]. split; [done|]. split; [done|]. congruence. }
  split; [intros Hu|intros q (s & s' & Hs & Hs' & Hss) Hne].
  - rewrite bool_decide_false.
    2: { intros ([a b] & [Hab Ha]%Hrefs & He). cbn [snd] in He. subst b. apply Ha.
         destruct (ok_refs _ Hok _ _ Hab) as [(r1 & Hr1 & <-) _].
         destruct (row_sp d r1 Hok Hr1) as (q & _ & Hq1). f_equal. eapply row_at_unique; [done| |done].
         rewrite <- (Hu q); [done|]. by exists r1, r. }
    eexists. split; [done|].
    match goal with |- db_ok ?X /\ _ => set (d' := X) end.
    assert (forall x s, row_at d' x s <-> row_at d x s /\ x <> p) as Hat.
    { intros x s. unfold row_at, d'; cbn [ValidPaths]. rewrite list_elem_of_filter. split.
      - intros [[Hne Hs] Hx]. split; [done|]. intros ->. done.
      - intros [[Hs Hx] Hne]. split; [|done]. split; [|done]. rewrite Hx. intros He%print_inj. done. }
    assert (forall s, s ∈ ValidPaths d' <-> s ∈ ValidPaths d /\ s <> r) as Hv.
    { intros s. unfold d'; cbn [ValidPaths]. rewrite list_elem_of_filter. split.
      - intros [Hne Hs]. split; [done|]. intros ->. apply Hne, Hr.
      - intros [Hs Hne]. split; [|done]. intros He. apply Hne. by eapply row_at_unique. }
    split; [|split; [done|]].
    + pose proof Hok as [H1 H2 H3 H4 H5 H6].
      split; [| |intros s [Hs _]%Hv; by apply H3|done|intros s [Hs _]%Hv; by apply H5|].
      * unfold d'; cbn [ValidPaths]. eapply sublist_NoDup; [exact H1|]. apply fmap_sublist, sublist_filter.
      * unfold d'; cbn [ValidPaths]. eapply sublist_NoDup; [exact H2|]. apply fmap_sublist, sublist_filter.
      * intros a b [Hab Ha]%Hrefs. destruct (H6 a b Hab) as [(s & Hs & <-) (s' & Hs' & <-)].
        split; [exists s|exists s']; (split; [|done]); apply Hv; (split; [done|]); [congruence|]. intros ->.
        apply Ha. destruct (row_sp d s Hok Hs) as (q & _ & Hqs). f_equal.
        eapply row_at_unique; [done| |exact Hr]. rewrite <- (Hu q); [done|]. by exists s, r.
    + intros x y. unfold refers. split.
      * intros (s & s' & [Hs ?]%Hat & [Hs' ?]%Hat & [Hss _]%Hrefs). split; [by exists s, s'|done].
      * intros [(s & s' & Hs & Hs' & Hss) Hne]. exists s, s'. rewrite !Hat. split; [done|]. split.
        -- split; [done|]. intros ->. apply Hne, Hu. by exists s, s'.
        -- apply Hrefs. split; [done|]. intros He%(row_id_inj d); [|done|apply Hs|apply Hr]. subst s.
           apply Hne. by eapply row_at_path.
  - rewrite bool_decide_true; [done|]. exists (row_id s, row_id s'). cbn [snd].
    rewrite (row_at_unique d p s' r) in * by done. split; [|done]. apply Hrefs. split; [done|].
    intros He%(row_id_inj d); [|done|apply Hs|apply Hr]. subst s. apply Hne. by eapply row_at_path.
Qed.
End database.

(** ** Queries *)

Section queries.
Context (ds : list bytes) (Hds : Forall good ds).
Notation storeDir := (join_path ds).
Notation print := (printStorePath storeDir).

Lemma parse_all_Ok (l : list bytes) :
  (forall s, s ∈ l -> exists p, wf_StorePath p /\ s = print p) ->
  exists X, parse_all storeDir l = Ok X /\ forall p, p ∈ X <-> print p ∈ l.
Proof using Hds.
  intros Hl. unfold parse_all.
  enough (forall acc : StorePathSet, exists X,
    foreach (fun (res : StorePathSet) s => p ← parseStorePath storeDir s; Ok ({[p]} ∪ res)) acc l = Ok X /\
    forall p, p ∈ X <-> p ∈ acc \/ print p ∈ l) as Hacc.
  { destruct (Hacc ∅) as (X & HX & HpX). exists X. split; [done|]. set_solver. }
  induction l as [|s l IH]; intros acc; cbn [foreach].
  - exists acc. split; [done|]. set_solver.
  - destruct (Hl s ltac:(left)) as (p & Hp & ->). rewrite parse_print by done. cbn [mbind result_bind].
    destruct (IH ltac:(intros; apply Hl; by right) ({[p]} ∪ acc)) as (X & HX & HpX). exists X. split; [done|].
    intros q. rewrite HpX, elem_of_cons, elem_of_union, elem_of_singleton. split; [intros [[-> |?]|?]; auto|].
    intros [?|[He%print_inj|?]]; auto.
Qed.

Lemma elem_of_QueryReferences d p r s :
  db_ok ds d -> row_at ds d p r -> s ∈ QueryReferences d (row_id r) <-> exists q, s = print q /\ refers ds d p q.
Proof using Type.
  intros Hok Hr. unfold QueryReferences. rewrite list_elem_of_fmap. split.
  - intros (r' & -> & [Hin Hr']%list_elem_of_filter). destruct (row_sp ds d r' Hok Hr') as (q & _ & Hq).
    exists q. split; [apply Hq|]. by exists r, r'.
  - intros (q & -> & r1 & r2 & Hr1 & Hr2 & Hin). rewrite (row_at_unique ds d p r1 r) in Hin by done.
    exists r2. split; [symmetry; apply Hr2|]. apply list_elem_of_filter. split; [done|apply Hr2].
Qed.

Lemma elem_of_QueryReferrers d p s :
  db_ok ds d -> s ∈ QueryReferrers d (print p) <-> exists q, s = print q /\ refers ds d q p.
Proof using Type.
  intros Hok. unfold QueryReferrers. destruct (QueryPathInfo d (print p)) as [r|] eqn:Hq.
  - apply Query_Some in Hq. rewrite list_elem_of_fmap. split.
    + intros (r' & -> & [Hin Hr']%list_elem_of_filter). destruct (row_sp ds d r' Hok Hr') as (q & _ & Hq').
      exists q. split; [apply Hq'|]. by exists r', r.
    + intros (q & -> & r1 & r2 & Hr1 & Hr2 & Hin). rewrite (row_at_unique ds d p r2 r) in Hin by done.
      exists r1. split; [symmetry; apply Hr1|]. apply list_elem_of_filter. split; [done|apply Hr1].
  - split; [by intros ?%not_elem_of_nil|]. intros (q & _ & _ & r & _ & [Hr Hp] & _).
    by apply (Query_None d (print p) r) in Hq.
Qed.

Lemma queryReferrers_ok p s :
  db_ok ds (db s) -> exists X, queryReferrers storeDir p s = (Ok X, s) /\ forall q, q ∈ X <-> refers ds (db s) q p.
Proof using Hds.
  intros Hok. destruct (parse_all_Ok (QueryReferrers (db s) (print p))) as (X & HX & HpX).
  { intros x (q & -> & Hq)%elem_of_QueryReferrers; [|done]. exists q. split; [|done].
    by apply (valid_wf ds (db s)), (refers_valid ds _ _ _ Hq). }
  exists X. split; [unfold queryReferrers, mbind, ST_bind, from_db, slift; by rewrite HX|].
  intros q. rewrite HpX, elem_of_QueryReferrers by done. split; [intros (q' & ->%print_inj & ?); done|]. by exists q.
Qed.

Lemma queryAllValidPaths_ok s :
  db_ok ds (db s) -> exists X, queryAllValidPaths storeDir s = (Ok X, s) /\ forall p, p ∈ X <-> valid ds (db s) p.
Proof using Hds.
  intros Hok. destruct (parse_all_Ok (row_path <$> ValidPaths (db s))) as (X & HX & HpX).
  { intros x (r & -> & Hr)%list_elem_of_fmap. destruct (row_sp ds _ r Hok Hr) as (p & Hp & Hr'). exists p. split; [done|apply Hr']. }
  exists X. split; [unfold queryAllValidPaths, mbind, ST_bind, from_db, slift; by rewrite HX|].
  intros p. rewrite HpX, list_elem_of_fmap. split; intros (r & Hr); exists r; split; (apply Hr || symmetry; apply Hr).
Qed.

Lemma isValidPath_ok p s :
  db_ok ds (db s) -> isValidPath_ storeDir p s = (Ok (bool_decide (is_Some (QueryPathInfo (db s) (print p)))), s).
Proof using Type. done. Qed.

Lemma queryValidPathId_ok p s r :
  db_ok ds (db s) -> row_at ds (db s) p r -> queryValidPathId storeDir p s = (Ok (row_id r), s).
Proof using Type. intros Hok Hr. unfold queryValidPathId, mbind, ST_bind, from_db, slift. by rewrite (Query_row_at ds (db s) p r) by done. Qed.

Lemma queryValidPathId_invalid p s :
  db_ok ds (db s) -> ~ valid ds (db s) p -> queryValidPathId storeDir p s = (Throw InvalidPath, s).
Proof using Type.
  intros Hok Hv. unfold queryValidPathId, mbind, ST_bind, from_db, slift.
  destruct (QueryPathInfo (db s) (print p)) eqn:Hq; [|done]. destruct Hv. apply valid_Query; [done|]. rewrite Hq. by eexists.
Qed.
End queries.

(** ** Infos and rows *)

Section rows.
Context (ds : list bytes) (Hds : Forall good ds) (now : Z).
Notation storeDir := (join_path ds).
Notation print := (printStorePath storeDir).

(** What the callers register. *)
Record wf_info (i : ValidPathInfo) : Prop := {
  wi_path : wf_StorePath (path i);
  wi_hash : wf_Hash (narHash i);
  wi_sha256 : algo (narHash i) = SHA256;
  wi_deriver : forall p, deriver i = Some p -> wf_StorePath p;
  wi_sigs : forall x, x ∈ sigs i -> good_sig x;
  wi_ca : forall c, ca i = Some c -> wf_Hash (ca_hash c);
}.

Definition time_of (i : ValidPathInfo) : Z := if (registrationTime i =? 0)%Z then now else registrationTime i.

(** [r] holds the columns of [i]. *)
Definition row_of (i : ValidPathInfo) (r : Row) : Prop :=
  row_path r = print (path i) /\ Hashing.to_string (narHash i) Base16 true = Ok (row_hash r) /\
  row_registrationTime r = time_of i /\ row_deriver r = print <$> deriver i /\
  row_narSize r = narSize_column i /\ row_ultimate r = ultimate_column i /\ row_sigs r = sigs_column i /\
  ca_column i = Ok (row_ca r).

Lemma hash_column i : wf_info i -> exists s, Hashing.to_string (narHash i) Base16 true = Ok s.
Proof using Type. intros Hi. apply to_string_Ok, Hi. Qed.

Lemma render_Ok c : wf_Hash (ca_hash c) -> exists s, render c = Ok s.
Proof using Type. intros Hw. pose proof (parse_of_render c Hw) as Hp. destruct (render c) as [s|]; [by exists s|done]. Qed.

Lemma ca_column_Ok i : wf_info i -> exists o, ca_column i = Ok o /\
  forall s, o = Some s -> exists c, ca i = Some c /\ render c = Ok s.
Proof using Type.
  intros Hi. unfold ca_column, renderContentAddress. destruct (ca i) as [c|] eqn:Hc.
  - destruct (render_Ok c) as [s Hs]; [by apply (wi_ca _ Hi)|]. rewrite Hs. cbn [mbind result_bind]. eexists. split; [done|]. intros s' [= <-]. by exists c.
  - by eexists.
Qed.

Lemma sigs_column_Some i s :
  wf_info i -> sigs_column i = Some s -> exists X, (forall x, x ∈ X -> good_sig x) /\ s = concatStringsSep #" " (toStrings X).
Proof using Type.
  intros Hi. unfold sigs_column, not_null. destruct (negb _); [|done]. intros [= <-]. exists (sigs i).
  split; [apply Hi|done].
Qed.

Lemma row_of_ok i r : wf_info i -> row_of i r -> row_ok ds r.
Proof using Type.
  intros Hi (Hp & Hh & _ & Hd & _ & _ & Hs & Hc). split.
  - exists (path i). split; [apply Hi|done].
  - exists (narHash i). split; [apply Hi|done].
  - intros s. rewrite Hd. destruct (deriver i) as [p|] eqn:He; [|done]. intros [= <-]. exists p. split; [by apply (wi_deriver _ Hi)|done].
  - intros s. rewrite Hs. by apply sigs_column_Some.
  - intros s He. destruct (ca_column_Ok i Hi) as (o & Ho & Hc'). rewrite Hc in Ho. injection Ho as <-.
    destruct (Hc' s He) as (c & Hci & Hr). exists c. split; [by apply (wi_ca _ Hi)|done].
Qed.

(** *** Reading a row back *)

Lemma tokenize_sigs X :
  (forall x, x ∈ X -> good_sig x) ->
  parseMany (list_to_set (tokenizeString #" " (concatStringsSep #" " (toStrings X)))) = Ok X.
Proof using Type.
  intros HX. change #" " with [" "%char]. rewrite tokenize_concat; [by apply parseMany_all|]. apply Forall_forall. intros s (x & -> & Hx)%list_elem_of_fmap.
  apply sig_to_string_space, HX. by apply elem_of_sig_iter.
Qed.

Lemma parseOpt_render c s : wf_Hash (ca_hash c) -> render c = Ok s -> parseOpt s = Ok (Some c).
Proof using Type.
  intros Hw Hr. pose proof (parse_of_render c Hw) as Hp. rewrite Hr in Hp. cbn [mbind result_bind] in Hp.
  unfold parseOpt. rewrite decide_False, Hp; [done|]. intros ->. done.
Qed.

Lemma i64_u64 z : (0 <= z < 2 ^ 64)%Z -> u64 (i64 z) = z.
Proof using Type.
  intros Hz. unfold i64. rewrite (u64_small z) by done. case_decide; [by apply u64_small|].
  unfold u64. rewrite <- (Z_mod_plus_full (z - 2 ^ 64) 1 (2 ^ 64)). replace (z - 2 ^ 64 + 1 * 2 ^ 64)%Z with z by lia. by apply Z.mod_small.
Qed.

Lemma narSize_read i : (0 <= narSize i < 2 ^ 64)%Z -> u64 (default 0%Z (narSize_column i)) = narSize i.
Proof using Type.
  intros Hn. unfold narSize_column, not_null. destruct (Z.eqb_spec (narSize i) 0) as [->|]; [done|]. by apply i64_u64.
Qed.

Lemma info_of_row_Ok d i r :
  db_ok ds d -> wf_info i -> row_of i r -> row_at ds d (path i) r -> (0 <= narSize i < 2 ^ 64)%Z ->
  exists X, (forall q, q ∈ X <-> refers ds d (path i) q) /\
    info_of_row storeDir d (path i) r =
    Ok (mkInfo storeDir (deriver i) (narHash i) X (time_of i) (narSize i) (ultimate i) (sigs i) (ca i) (path i)).
Proof using Hds.
  intros Hok Hi (Hp & Hh & Ht & Hd & Hn & Hu & Hs & Hc) Hr Hsz.
  destruct (parse_all_Ok ds Hds (QueryReferences d (row_id r))) as (X & HX & HpX).
  { intros s (q & -> & Hq)%(elem_of_QueryReferences ds d (path i)); [|done..]. exists q. split; [|done].
    by apply (valid_wf ds d), (refers_valid ds _ _ _ Hq). }
  exists X. split.
  { intros q. rewrite HpX, (elem_of_QueryReferences ds d (path i)) by done.
    split; [by intros (q' & ->%print_inj & ?)|]. by exists q. }
  unfold info_of_row. pose proof (parseAnyPrefixed_to_string (narHash i) Base16 (wi_hash _ Hi)) as Hph.
  rewrite Hh in Hph. cbn [mbind result_bind] in Hph. rewrite Hph. cbn [catch mbind result_bind].
  assert (match row_deriver r with Some s => d ← parseStorePath storeDir s; Ok (Some d) | None => Ok None end
          = Ok (deriver i)) as ->.
  { rewrite Hd. destruct (deriver i) as [p|] eqn:He; [|done]. cbn. by rewrite parse_print by (done || by apply (wi_deriver _ Hi)). }
  cbn [mbind result_bind].
  assert (match row_sigs r with Some s => parseMany (list_to_set (tokenizeString #" " s)) | None => Ok ∅ end
          = Ok (sigs i)) as ->.
  { rewrite Hs. unfold sigs_column, not_null. case_bool_decide as He; cbn [negb]; [by rewrite He|]. apply tokenize_sigs, Hi. }
  cbn [mbind result_bind].
  assert (match row_ca r with Some s => parseOpt s | None => Ok None end = Ok (ca i)) as ->.
  { unfold ca_column, renderContentAddress in Hc. destruct (ca i) as [c|] eqn:He; cbn in Hc.
    - destruct (render c) as [s|] eqn:Hren; [|done]. cbn in Hc. injection Hc as <-. by apply parseOpt_render; [apply (wi_ca _ Hi)|].
    - by injection Hc as <-. }
  cbn [mbind result_bind]. rewrite HX. cbn [mbind result_bind]. f_equal.
  rewrite Ht, Hn, Hu, narSize_read by done. f_equal. unfold ultimate_column, not_null. by destruct (ultimate i).
Qed.
End rows.

(** ** Registering *)

Section registering.
Context `{HashLib} (ds : list bytes) (now : Z).
Notation storeDir := (join_path ds).
Notation print := (printStorePath storeDir).
Notation valid := (valid ds).
Notation refers := (refers ds).
Notation row_at := (row_at ds).

Record store_ok (s : LocalStore) : Prop := { so_db : db_ok ds (db s); so_cache : wf (pathInfoCache s) }.

(** [addValidPath] accepts the content address an info claims. *)
Definition ca_fine (i : ValidPathInfo) : Prop := ca i = None \/ isContentAddressed storeDir i = Ok true.

Lemma addValidPath_spec i s :
  store_ok s -> wf_info i -> ~ valid (db s) (path i) ->
  match addValidPath storeDir now i s with
  | (Ok id, s') =>
      ca_fine i /\ store_ok s' /\ (exists r, row_at (db s') (path i) r /\ row_of ds now i r) /\
      (forall q, valid (db s') q <-> valid (db s) q \/ q = path i) /\
      (forall x y, refers (db s') x y <-> refers (db s) x y) /\
      (forall q r, row_at (db s) q r -> row_at (db s') q r)
  | (Throw _, s') => ~ ca_fine i
  end.
Proof using Type.
  intros [Hok Hc] Hi Hv. unfold addValidPath.
  set (check := match ca i with Some _ => isContentAddressed storeDir i | None => Ok true end).
  assert (ca_fine i <-> check = Ok true) as Hcheck.
  { unfold ca_fine, check. destruct (ca i); split; auto. by intros [?|?]. }
  destruct check as [[]|e]; [|intros Hf; apply Hcheck in Hf; discriminate..].
  destruct (hash_column i Hi) as [h Hh]. destruct (ca_column_Ok i Hi) as (c & Hcc & _).
  rewrite slift_bind_Ok. cbn [negb throw_if]. rewrite slift_bind_Ok, Hh, slift_bind_Ok, Hcc, slift_bind_Ok.
  match goal with |- context [RegisterValidPath _ ?f] => set (row := f) end.
  assert (forall n, row_of ds now i (row n)) as Hrow by (intros n; repeat (split; [done|]); done).
  destruct (RegisterValidPath_ok ds (db s) (path i) row Hok Hv) as (d' & Hd & Hok' & Hl & Hat & Hr);
    [done|done|intros n; by eapply row_of_ok|].
  destruct (upsert_spec (pathInfoCache s) (path i) (Some i) Hc) as (c' & Hu & Hc' & _ & _).
  rewrite (set_db_bind _ _ _ _ Hd), from_db_bind, (set_cache_bind _ _ _ c') by done.
  cbn [mret ST_ret db pathInfoCache]. split; [by apply Hcheck|]. split; [done|]. split.
  { exists (row (last_id (db s) + 1)%Z). split; [|done]. apply Hat. by right. }
  split; [|split; [done|intros q r Hq; apply Hat; by left]].
  intros q. unfold LocalStore.valid. split.
  - intros [r [?|[-> _]]%Hat]; [left; by exists r|by right].
  - intros [[r ?]| ->]; eexists; apply Hat; [by left|by right].
Qed.

Lemma updatePathInfo_spec i s :
  store_ok s -> wf_info i ->
  exists s', updatePathInfo storeDir i s = (Ok (), s') /\ store_ok s' /\ pathInfoCache s' = pathInfoCache s /\
    (forall q, valid (db s') q <-> valid (db s) q) /\
    (forall x y, refers (db s') x y <-> refers (db s) x y) /\
    (forall q r, q <> path i -> row_at (db s) q r -> row_at (db s') q r).
Proof using Type.
  intros [Hok Hc] Hi. unfold updatePathInfo.
  destruct (hash_column i Hi) as [h Hh]. destruct (ca_column_Ok i Hi) as (c & Hcc & Hcs).
  rewrite Hh, slift_bind_Ok, Hcc, slift_bind_Ok.
  eexists. split; [done|]. cbn [db pathInfoCache].
  destruct (UpdatePathInfo_ok ds (db s) (path i) (narSize_column i) h (ultimate_column i) (sigs_column i) c Hok)
    as (Hok' & Hv & Hr & Hat); [|done].
  intros r [Hr Hp]. destruct (ok_rows _ _ Hok r Hr) as [R1 R2 R3 R4 R5]. split; cbn [row_path row_hash row_deriver row_sigs row_ca].
  - done.
  - exists (narHash i). split; [apply Hi|done].
  - done.
  - intros x. by apply sigs_column_Some.
  - intros x Hx. destruct (Hcs x Hx) as (c' & Hc' & Hren). exists c'. split; [by apply (wi_ca _ Hi)|done].
Qed.

Lemma register_one_spec i s :
  store_ok s -> wf_info i ->
  match register_one storeDir now i s with
  | (Ok _, s') =>
      (valid (db s) (path i) \/ ca_fine i) /\ store_ok s' /\
      (~ valid (db s) (path i) -> exists r, row_at (db s') (path i) r /\ row_of ds now i r) /\
      (forall q, valid (db s') q <-> valid (db s) q \/ q = path i) /\
      (forall x y, refers (db s') x y <-> refers (db s) x y) /\
      (forall q r, q <> path i -> row_at (db s) q r -> row_at (db s') q r)
  | (Throw _, s') => ~ valid (db s) (path i) /\ ~ ca_fine i
  end.
Proof using Type.
  intros Hs Hi. unfold register_one. rewrite bool_decide_true by apply Hi. cbn [assertb throw_if negb].
  rewrite slift_bind_Ok. unfold isValidPath_. rewrite from_db_bind.
  case_bool_decide as Hv; rewrite <- (valid_Query ds) in Hv by apply Hs.
  - destruct (updatePathInfo_spec i s Hs Hi) as (s' & -> & Hs' & _ & Hvv & Hr & Hat).
    split; [by left|]. split; [done|]. split; [done|]. split; [|done].
    intros q. rewrite Hvv. split; [auto|]. by intros [?| ->].
  - pose proof (addValidPath_spec i s Hs Hi Hv) as Ha.
    destruct (addValidPath storeDir now i s) as [[id|e] s'] eqn:He; [|by rewrite (ST_bind_Throw _ _ _ _ _ He)].
    destruct Ha as (Hf & Hs' & Hrow & Hvv & Hr & Hat). rewrite (ST_bind_Ok _ _ _ _ _ He). cbn [mret ST_ret]. split; [by right|]. split; [done|]. split; [done|].
    split; [done|]. split; [done|]. intros q r _. apply Hat.
Qed.

Lemma add_references_spec i s :
  store_ok s -> valid (db s) (path i) ->
  match add_references storeDir i s with
  | (Ok _, s') =>
      (forall q, q ∈ references i -> valid (db s) q) /\ store_ok s' /\
      (forall q r, row_at (db s') q r <-> row_at (db s) q r) /\
      (forall x y, refers (db s') x y <-> refers (db s) x y \/ x = path i /\ y ∈ references i)
  | (Throw _, _) => exists q, q ∈ references i /\ ~ valid (db s) q
  end.
Proof using Type.
  intros Hs [r Hr]. unfold add_references.
  rewrite (ST_bind_Ok _ _ _ _ _ (queryValidPathId_ok ds (path i) s r (so_db _ Hs) Hr)).
  pose (P := fun (before : list StorePath) s' => (forall q, q ∈ before -> valid (db s) q) /\ store_ok s' /\
       (forall q r, row_at (db s') q r <-> row_at (db s) q r) /\
       (forall x y, refers (db s') x y <-> refers (db s) x y \/ x = path i /\ y ∈ before)).
  set (body := fun j : StorePath => _).
  assert (match sforeach body (sp_iter (references i)) s with
    | (Ok _, s') => P (sp_iter (references i)) s' | (Throw e, _) => exists q, q ∈ references i /\ ~ valid (db s) q end) as Hloop.
  { apply (leads_sforeach P (fun _ _ => exists q, q ∈ references i /\ ~ valid (db s) q)).
    { split; [by intros q ?%not_elem_of_nil|]. split; [done|]. split; [done|]. intros x y. rewrite elem_of_nil. tauto. }
    intros before j rest s1 Hl (P1 & P2 & P3 & P4). unfold body, leads.
    assert (j ∈ references i) as Hj by (apply elem_of_sp_iter; rewrite Hl; set_solver).
    destruct (QueryPathInfo (db s) (print j)) as [r'|] eqn:Hq.
    - apply Query_Some in Hq as Hr'. fold (row_at (db s) j r') in Hr'.
      rewrite (ST_bind_Ok _ _ _ _ _ (queryValidPathId_ok ds j s1 r' (so_db _ P2) (proj2 (P3 _ _) Hr'))).
      destruct (AddReference_ok ds (db s1) (path i) j r r' (so_db _ P2)) as (d' & Hd & Hok' & Hat & Hrf); [by apply P3..|].
      unfold set_db. rewrite Hd. split; [|split; [split; [done|apply P2]|split; [|]]].
      + intros q [Hq'| ->%list_elem_of_singleton]%elem_of_app; [auto|]. by exists r'.
      + intros q r1. cbn [db]. by rewrite Hat, P3.
      + intros x y. cbn [db]. rewrite Hrf, P4, elem_of_app, list_elem_of_singleton. naive_solver.
    - assert (~ valid (db s) j) as Hv by (intros Hv%(valid_Query ds); [rewrite Hq in Hv; by destruct Hv|apply Hs]).
      assert (~ valid (db s1) j) as Hv1 by (intros [r1 Hr1%P3]; apply Hv; by exists r1).
      rewrite (ST_bind_Throw _ _ _ _ _ (queryValidPathId_invalid ds j s1 (so_db _ P2) Hv1)). by exists j. }
  destruct (sforeach body _ s) as [[u|e] s']; [|done]. destruct Hloop as (H1 & H2 & H3 & H4).
  split; [intros q; rewrite <- elem_of_sp_iter; auto|]. split; [done|]. split; [done|]. intros x y. by rewrite H4, elem_of_sp_iter.
Qed.

(** *** The whole operation *)

Context (infos : list (StorePath * ValidPathInfo)).

(** A [std::map] from the path of each info. *)
Definition wf_infos : Prop :=
  (forall e, e ∈ infos -> e.1 = path e.2 /\ wf_info e.2) /\ NoDup infos.*1.
Definition registered (p : StorePath) : Prop := exists e, e ∈ infos /\ p = path e.2.
Definition new_ref (p q : StorePath) : Prop := exists e, e ∈ infos /\ p = path e.2 /\ q ∈ references e.2.
(** The references among the infos, self-references left out. *)
Definition info_edge (p q : StorePath) : Prop := new_ref p q /\ p <> q /\ registered q.

Lemma infos_find_in e : wf_infos -> e ∈ infos -> infos_find infos (path e.2) = Some e.2.
Proof using Type.
  intros [Hwf Hnd] He. unfold infos_find. destruct (List.find _ infos) as [e'|] eqn:Hf; cbn.
  - apply find_some in Hf as [He'%list_elem_of_In Hp%bool_decide_eq_true]. do 2 f_equal.
    rewrite <- (proj1 (Hwf e He)) in Hp. apply list_elem_of_lookup in He as [n Hn], He' as [m Hm].
    assert (infos.*1 !! n = Some e.1) as H1 by (by rewrite list_lookup_fmap, Hn).
    assert (infos.*1 !! m = Some e.1) as H2 by (by rewrite list_lookup_fmap, Hm, <- Hp).
    pose proof (NoDup_lookup _ _ _ _ Hnd H1 H2). congruence.
  - apply list_elem_of_In in He as Hi. apply (find_none _ _ Hf) in Hi. apply bool_decide_eq_false in Hi.
    destruct Hi. apply (Hwf e He).
Qed.

(** The sort of the operation sees the references among the infos. *)
Definition registered_paths : StorePathSet := list_to_set ((fun e : StorePath * ValidPathInfo => path e.2) <$> infos).
Definition children (p : StorePath) : list StorePath :=
  match infos_find infos p with Some i => sp_iter (references i) | None => [] end.

Lemma elem_of_registered_paths p : p ∈ sp_iter registered_paths <-> registered p.
Proof using Type.
  unfold registered_paths, registered. rewrite elem_of_sp_iter, elem_of_list_to_set, list_elem_of_fmap. naive_solver.
Qed.

Lemma edge_info_edge x y : wf_infos -> edge (sp_iter registered_paths) children x y <-> info_edge x y.
Proof using Type.
  intros Hwf. unfold edge, info_edge. rewrite !elem_of_registered_paths. split.
  - intros (Hy & Hne & (e & He & ->) & Hr). split; [|done]. exists e. split; [done|]. split; [done|].
    unfold children in Hy. rewrite (infos_find_in e) in Hy by done. by apply elem_of_sp_iter.
  - intros ((e & He & -> & Hy) & Hne & Hr). split; [|split; [done|split; [|done]]].
    + unfold children. rewrite (infos_find_in e) by done. by apply elem_of_sp_iter.
    + by exists e.
Qed.

(** Why a registration is refused. *)
Definition refused (d : DB) : Prop :=
  (exists e, e ∈ infos /\ ~ valid d (path e.2) /\ ~ ca_fine e.2) \/
  (exists p q, new_ref p q /\ ~ valid d q /\ ~ registered q) \/
  (exists p, tc info_edge p p).

Lemma register_loop s :
  store_ok s -> wf_infos ->
  match sforeach (fun e => register_one storeDir now e.2) infos s with
  | (Ok _, s') =>
      store_ok s' /\ (forall e, e ∈ infos -> valid (db s) (path e.2) \/ ca_fine e.2) /\
      (forall p, valid (db s') p <-> valid (db s) p \/ registered p) /\
      (forall p q, refers (db s') p q <-> refers (db s) p q) /\
      (forall e, e ∈ infos -> ~ valid (db s) (path e.2) ->
         exists r, row_at (db s') (path e.2) r /\ row_of ds now e.2 r)
  | (Throw _, s') => exists e, e ∈ infos /\ ~ valid (db s) (path e.2) /\ ~ ca_fine e.2
  end.
Proof using Type.
  intros Hs [Hwf Hnd].
  pose (P := fun (before : list (StorePath * ValidPathInfo)) s' =>
      store_ok s' /\ (forall e, e ∈ before -> valid (db s) (path e.2) \/ ca_fine e.2) /\
      (forall p, valid (db s') p <-> valid (db s) p \/ exists e, e ∈ before /\ p = path e.2) /\
      (forall p q, refers (db s') p q <-> refers (db s) p q) /\
      (forall e, e ∈ before -> ~ valid (db s) (path e.2) ->
         exists r, row_at (db s') (path e.2) r /\ row_of ds now e.2 r)).
  apply (leads_sforeach P (fun _ _ => exists e, e ∈ infos /\ ~ valid (db s) (path e.2) /\ ~ ca_fine e.2)).
  { unfold P. setoid_rewrite elem_of_nil. split; [done|]. split; [done|]. split; [|done]. naive_solver. }
  intros before e rest s1 Hl (P1 & P2 & P3 & P4 & P5). unfold leads.
  assert (e ∈ infos) as He by (rewrite Hl; set_solver).
  assert (forall e', e' ∈ before -> path e'.2 <> path e.2) as Hne.
  { intros e' He' Heq. rewrite Hl, fmap_app, fmap_cons in Hnd. apply NoDup_app in Hnd as (_ & Hnd & _).
    apply (Hnd (path e'.2)); [apply list_elem_of_fmap; exists e'; split; [|done]|].
    - symmetry. apply Hwf. rewrite Hl. set_solver.
    - rewrite Heq, <- (proj1 (Hwf e He)). left. }
  assert (valid (db s1) (path e.2) -> valid (db s) (path e.2)) as Hv.
  { intros [?|(e' & He' & Heq)]%P3; [done|]. by destruct (Hne e' He'). }
  pose proof (register_one_spec e.2 s1 P1 (proj2 (Hwf e He))) as Hr.
  destruct (register_one storeDir now e.2 s1) as [[u|x] s2].
  - destruct Hr as (R1 & R2 & R3 & R4 & R5 & R6). split; [done|]. split; [|split; [|split; [intros p q; by rewrite R5|]]].
    + intros e' [?| ->%list_elem_of_singleton]%elem_of_app; [auto|]. destruct R1; auto.
    + intros p. rewrite R4, P3. setoid_rewrite elem_of_app. setoid_rewrite list_elem_of_singleton. naive_solver.
    + intros e' [He'| ->%list_elem_of_singleton]%elem_of_app Hn; [|apply R3; tauto].
      destruct (P5 e' He' Hn) as (r & Hr & Hro). exists r. split; [|done]. apply R6; [by apply Hne|done].
  - exists e. split; [done|]. split; [|apply Hr]. intros Hve. apply (proj1 Hr), P3. by left.
Qed.

Lemma references_loop s :
  store_ok s -> (forall e, e ∈ infos -> valid (db s) (path e.2)) ->
  match sforeach (fun e => add_references storeDir e.2) infos s with
  | (Ok _, s') =>
      store_ok s' /\ (forall p q, new_ref p q -> valid (db s) q) /\
      (forall p r, row_at (db s') p r <-> row_at (db s) p r) /\
      (forall p q, refers (db s') p q <-> refers (db s) p q \/ new_ref p q)
  | (Throw _, s') => exists p q, new_ref p q /\ ~ valid (db s) q
  end.
Proof using Type.
  intros Hs Hv.
  pose (P := fun (before : list (StorePath * ValidPathInfo)) s' =>
      store_ok s' /\ (forall e q, e ∈ before -> q ∈ references e.2 -> valid (db s) q) /\
      (forall p r, row_at (db s') p r <-> row_at (db s) p r) /\
      (forall p q, refers (db s') p q <->
         refers (db s) p q \/ exists e, e ∈ before /\ p = path e.2 /\ q ∈ references e.2)).
  assert (match sforeach (fun e : StorePath * ValidPathInfo => add_references storeDir e.2) infos s with
    | (Ok _, s') => P infos s' | (Throw _, _) => exists p q, new_ref p q /\ ~ valid (db s) q end) as Hloop.
  { apply (leads_sforeach P (fun _ _ => exists p q, new_ref p q /\ ~ valid (db s) q)).
    { unfold P. setoid_rewrite elem_of_nil. split; [done|]. split; [done|]. split; [done|]. naive_solver. }
    intros before e rest s1 Hl (P1 & P2 & P3 & P4). unfold leads.
    assert (e ∈ infos) as He by (rewrite Hl; set_solver).
    assert (forall q, valid (db s1) q <-> valid (db s) q) as Hvv by (intros q; unfold LocalStore.valid; by setoid_rewrite P3).
    pose proof (add_references_spec e.2 s1 P1 (proj2 (Hvv _) (Hv e He))) as Hr.
    destruct (add_references storeDir e.2 s1) as [[u|x] s2].
    - destruct Hr as (R1 & R2 & R3 & R4). split; [done|]. split; [|split; [intros p r; by rewrite R3|]].
      + intros e' q [?| ->%list_elem_of_singleton]%elem_of_app Hq; [by eapply P2|]. by apply Hvv, R1.
      + intros p q. rewrite R4, P4. setoid_rewrite elem_of_app. setoid_rewrite list_elem_of_singleton. naive_solver.
    - destruct Hr as (q & Hq & Hn). exists (path e.2), q. split; [by exists e|]. by rewrite <- Hvv. }
  destruct (sforeach _ infos s) as [[u|x] s']; [|done]. destruct Hloop as (P1 & P2 & P3 & P4).
  split; [done|]. split; [|done]. intros p q (e & He & _ & Hq). by eapply P2.
Qed.

Lemma registerValidPaths_outcome s :
  store_ok s -> wf_infos ->
  match registerValidPaths storeDir now infos s with
  | (Ok _, s') =>
      store_ok s' /\ ~ refused (db s) /\
      (forall p, valid (db s') p <-> valid (db s) p \/ registered p) /\
      (forall p q, refers (db s') p q <-> refers (db s) p q \/ new_ref p q) /\
      (forall e, e ∈ infos -> ~ valid (db s) (path e.2) ->
         exists r, row_at (db s') (path e.2) r /\ row_of ds now e.2 r)
  | (Throw _, s') => db s' = db s /\ refused (db s)
  end.
Proof using Type.
  intros Hs Hwf. unfold registerValidPaths, txn.
  pose proof (register_loop s Hs Hwf) as H1.
  destruct (sforeach _ infos s) as [[u|x] s1] eqn:E1; [rewrite (ST_bind_Ok _ _ _ _ _ E1)|
    rewrite (ST_bind_Throw _ _ _ _ _ E1); split; [done|by left]].
  destruct H1 as (A1 & A2 & A3 & A4 & A5).
  assert (forall e, e ∈ infos -> valid (db s1) (path e.2)) as Hv by (intros e He; apply A3; right; by exists e).
  pose proof (references_loop s1 A1 Hv) as H2.
  destruct (sforeach _ infos s1) as [[u'|x] s2] eqn:E2; [rewrite (ST_bind_Ok _ _ _ _ _ E2)|
    rewrite (ST_bind_Throw _ _ _ _ _ E2); split; [done|]].
  2: { right; left. destruct H2 as (p & q & Hpq & Hn). exists p, q. rewrite A3 in Hn. tauto. }
  destruct H2 as (B1 & B2 & B3 & B4). cbv zeta. fold registered_paths. fold children.
  pose proof (topoSort_ok (sp_iter registered_paths) children) as Ht.
  destruct (topoSort _ _) as [[l|cy]|x]; [| |done]; rewrite slift_bind_Ok.
  - cbn [mret ST_ret]. split; [done|]. split; [|split; [|split; [intros p q; by rewrite B4, A4|]]].
    + intros [(e & He & Hn & Hf)|[(p & q & Hpq & Hn & Hr)|(p & Hp)]].
      * destruct (A2 e He); tauto.
      * apply B2, A3 in Hpq. tauto.
      * apply (topological_acyclic _ _ l Ht p). eapply tc_mono; [|exact Hp]. intros x y. by apply edge_info_edge.
    + intros p. rewrite <- A3. unfold LocalStore.valid. by setoid_rewrite B3.
    + intros e He Hn. destruct (A5 e He Hn) as (r & Hr & Hro). exists r. by rewrite B3.
  - cbn [slift db]. split; [done|]. right; right. exists (cy_parent cy). destruct Ht as [He Hr].
    apply edge_info_edge in He; [|done]. eapply tc_rtc_r; [by apply tc_once|].
    eapply rtc_mono; [|exact Hr]. intros x y. by apply edge_info_edge.
Qed.

(** A registration of new paths keeps the references acyclic: an old path
    refers to old paths only. *)
Lemma registerValidPaths_acyclic_lemma s s' :
  store_ok s -> wf_infos -> (forall e, e ∈ infos -> ~ valid (db s) (path e.2)) ->
  acyclic ds (db s) -> registerValidPaths storeDir now infos s = (Ok (), s') -> acyclic ds (db s').
Proof using Type.
  intros Hs Hwf Hnew Hac Hr. pose proof (registerValidPaths_outcome s Hs Hwf) as Ho. rewrite Hr in Ho.
  destruct Ho as (_ & Hnr & Hv & Href & _).
  assert (forall a b, ref_edge ds (db s') a b -> valid (db s) a -> ref_edge ds (db s) a b /\ valid (db s) b) as Hold.
  { intros a b [[Hab|(e & He & -> & _)]%Href Hne] Ha; [|by destruct (Hnew e He)].
    split; [done|]. apply (refers_valid ds _ _ _ Hab). }
  assert (forall a b, tc (ref_edge ds (db s')) a b ->
    (valid (db s) a -> tc (ref_edge ds (db s)) a b /\ valid (db s) b) /\ (~ valid (db s) b -> tc info_edge a b)) as Htc.
  { assert (forall a b, ref_edge ds (db s') a b -> ~ valid (db s) b -> info_edge a b) as Hnewe.
    { intros a b [Hab Hne] Hb. pose proof (refers_valid ds _ _ _ Hab) as [_ [?|Hrb]%Hv]; [done|].
      apply Href in Hab as [Hab|Hab]; [by destruct Hb; apply (refers_valid ds _ _ _ Hab)|done]. }
    intros a b Hab. induction Hab as [a b Hab|a c b Hac' Hcb [IH1 IH2]].
    - split; [|intros Hb; apply tc_once; auto]. intros Ha. destruct (Hold a b Hab Ha). split; [by apply tc_once|done].
    - split.
      + intros Ha. destruct (Hold a c Hac' Ha) as [He Hc]. destruct (IH1 Hc). split; [by eapply tc_l|done].
      + intros Hb. eapply tc_l; [|by apply IH2]. apply Hnewe; [done|]. intros Hc. by destruct (IH1 Hc). }
  intros x Hx. destruct (Htc x x Hx) as [H1 H2].
  assert (~ valid (db s) x) as Hn by (intros Hvx; destruct (H1 Hvx) as [Hc _]; by apply (Hac x)).
  apply Hnr. right; right. exists x. auto.
Qed.
End registering.

(** ** Theorems *)

Section theorems.
Context `{HashLib} (ds : list bytes) (Hds : Forall good ds) (now : Z).
Notation storeDir := (join_path ds).

Lemma query_registered s infos s' e :
  store_ok ds s -> wf_infos infos -> e ∈ infos -> ~ valid ds (db s) (path e.2) -> (0 <= narSize e.2 < 2 ^ 64)%Z ->
  registerValidPaths storeDir now infos s = (Ok (), s') ->
  queryPathInfoInternal storeDir (path e.2) s' =
  (Ok (Some (mkInfo storeDir (deriver e.2) (narHash e.2) (references e.2) (time_of now e.2) (narSize e.2)
               (ultimate e.2) (sigs e.2) (ca e.2) (path e.2))), s').
Proof using Hds.
  intros Hs Hwf He Hn Hsz Hr. pose proof (registerValidPaths_outcome ds now infos s Hs Hwf) as Ho. rewrite Hr in Ho.
  destruct Ho as ([Hok _] & _ & Hv & Href & Hrow). destruct (Hrow e He Hn) as (r & Hat & Hro).
  destruct (proj1 Hwf e He) as [_ Hi].
  destruct (info_of_row_Ok ds Hds now (db s') e.2 r Hok Hi Hro Hat Hsz) as (X & HX & Hinfo).
  assert (X = references e.2) as ->.
  { apply set_eq. intros q. rewrite HX, Href. split.
    - intros [Hq|(e' & He' & Hp & Hq)]; [by destruct Hn; apply (refers_valid ds _ _ _ Hq)|].
      pose proof (infos_find_in infos e Hwf He) as H1. rewrite Hp, (infos_find_in infos e' Hwf He') in H1.
      injection H1 as H1. by rewrite <- H1.
    - intros Hq. right. by exists e. }
  unfold queryPathInfoInternal. rewrite from_db_bind. unfold id.
  rewrite (Query_row_at ds (db s') (path e.2) r Hok Hat), Hinfo. done.
Qed.

Lemma invalidatePathChecked_outcome p s :
  store_ok ds s ->
  match invalidatePathChecked storeDir p s with
  | (Ok _, s') =>
      store_ok ds s' /\ (forall q, refers ds (db s) q p -> q = p) /\
      (forall q, valid ds (db s') q <-> valid ds (db s) q /\ q <> p) /\
      (forall x y, refers ds (db s') x y <-> refers ds (db s) x y /\ x <> p)
  | (Throw e, s') => e = PathInUse /\ s' = s /\ exists q, refers ds (db s) q p /\ q <> p
  end.
Proof using Hds.
  intros [Hok Hc]. unfold invalidatePathChecked, txn, isValidPath_. rewrite from_db_bind.
  case_bool_decide as Hv; rewrite <- (valid_Query ds) in Hv by done.
  - destruct (queryReferrers_ok ds Hds p s Hok) as (X & HX & HpX). rewrite (ST_bind_Ok _ _ _ _ _ HX). cbv zeta.
    case_bool_decide as He; cbn [negb throw_if].
    + rewrite slift_bind_Ok. unfold invalidatePath.
      assert (forall q, refers ds (db s) q p -> q = p) as Hu.
      { intros q Hq%HpX. destruct (decide (q = p)); [done|]. set_solver. }
      destruct (InvalidatePath_ok ds (db s) p Hok Hv) as [(d' & Hd & Hok' & Hat & Hr) _]; [done|].
      rewrite (set_db_bind _ _ _ _ Hd). unfold invalidatePathInfoCacheFor, set_cache. cbn [db pathInfoCache].
      split; [split; [done|by apply erase_wf]|]. split; [done|]. split; [|done].
      intros q. unfold valid. split.
      * intros [r [? ?]%Hat]. split; [by exists r|done].
      * intros [[r ?] ?]. exists r. by apply Hat.
    + rewrite slift_bind_Throw. split; [done|]. split; [by destruct s|].
      apply set_choose_L in He as [q [Hq%HpX Hne]%elem_of_difference]. exists q. set_solver.
  - cbn [mret ST_ret]. split; [done|]. split; [intros q Hq; destruct Hv; by apply (refers_valid ds _ _ _ Hq)|].
    split.
    + intros q. split; [|tauto]. intros Hq. split; [done|]. by intros ->.
    + intros x y. split; [|tauto]. intros Hxy. split; [done|]. intros ->. apply Hv, (refers_valid ds _ _ _ Hxy).
Qed.
End theorems.

(** ** The properties *)

(** C6: registering is all or nothing.  When [registerValidPaths] returns, the
    database is sound, the valid paths are the old ones and the registered
    ones, the references are the old ones and those of the infos, and every
    path that was not valid has the row of its info.  It throws exactly when
    a new info claims a content address it does not have, an info refers to a
    path that is neither valid nor registered with it, or the infos refer to
    each other in a cycle; then the tables are as they were. *)
Theorem registerValidPaths_spec `{HashLib} ds now infos s :
  store_ok ds s -> wf_infos infos ->
  match registerValidPaths (join_path ds) now infos s with
  | (Ok _, s') =>
      store_ok ds s' /\ ~ refused ds infos (db s) /\
      (forall p, valid ds (db s') p <-> valid ds (db s) p \/ registered infos p) /\
      (forall p q, refers ds (db s') p q <-> refers ds (db s) p q \/ new_ref infos p q) /\
      (forall e, e ∈ infos -> ~ valid ds (db s) (path e.2) ->
         exists r, row_at ds (db s') (path e.2) r /\ row_of ds now e.2 r)
  | (Throw _, s') => db s' = db s /\ refused ds infos (db s)
  end.
Proof. apply registerValidPaths_outcome. Qed.

(** C32: registering paths that were not valid keeps the references acyclic
    (references of a path to itself apart). *)
Theorem registerValidPaths_acyclic `{HashLib} ds now infos s s' :
  store_ok ds s -> wf_infos infos -> (forall e, e ∈ infos -> ~ valid ds (db s) (path e.2)) ->
  acyclic ds (db s) -> registerValidPaths (join_path ds) now infos s = (Ok (), s') -> acyclic ds (db s').
Proof. apply registerValidPaths_acyclic_lemma. Qed.


(** C23: [invalidatePathChecked] makes exactly the given path invalid and
    drops its references, or throws [PathInUse] and changes nothing when
    another valid path refers to it; a path that is not valid is left alone. *)
Theorem invalidatePathChecked_spec ds p s :
  Forall good ds -> store_ok ds s ->
  match invalidatePathChecked (join_path ds) p s with
  | (Ok _, s') =>
      store_ok ds s' /\ (forall q, refers ds (db s) q p -> q = p) /\
      (forall q, valid ds (db s') q <-> valid ds (db s) q /\ q <> p) /\
      (forall x y, refers ds (db s') x y <-> refers ds (db s) x y /\ x <> p)
  | (Throw e, s') => e = PathInUse /\ s' = s /\ exists q, refers ds (db s) q p /\ q <> p
  end.
Proof. intros Hds Hs. by apply invalidatePathChecked_outcome. Qed.

(** *** Examples *)

Definition empty_store : LocalStore := mkStore empty_db (new_LRUCache 65536).
Lemma empty_store_ok ds : store_ok ds empty_store.
Proof. split; [apply empty_db_ok|apply new_wf]. Qed.
Lemma empty_invalid ds p : ~ valid ds empty_db p.
Proof. intros (r & Hr & _). by apply not_elem_of_nil in Hr. Qed.
Lemma empty_acyclic ds : acyclic ds empty_db.
Proof.
  intros p Hp. assert (exists q, refers ds empty_db p q) as [q Hq] by (inversion Hp as [? ? [??]|? ? ? [??]]; by eexists).
  by apply (empty_invalid ds p), (refers_valid ds _ _ q).
Qed.

Definition other_path : StorePath := mkStorePath (replicate 32 "b"%char ++ #"-bar").
Lemma other_wf : wf_StorePath other_path.
Proof.
  split; [|done]. destruct (StorePath_new_cases (baseName other_path)) as [[_ Hv]|[H _]]; [done|]. vm_compute in H. discriminate.
Qed.

Definition example_info (p : StorePath) (refs : StorePathSet) : ValidPathInfo :=
  mkInfo #"/nix/store" None (example_hash SHA256) refs 0 120 true ∅ None p.
Definition example_infos : list (StorePath * ValidPathInfo) :=
  [(example_path, example_info example_path {[example_path]});
   (other_path, example_info other_path {[example_path]})].

Lemma example_info_wf p refs : wf_StorePath p -> wf_info (example_info p refs).
Proof. intros Hp. split; [done|apply example_hash_wf|done|done|set_solver|done]. Qed.

Lemma wf_single i : wf_info i -> wf_infos [(path i, i)].
Proof.
  intros Hi. split; [|apply NoDup_singleton]. by intros e ->%list_elem_of_singleton.
Qed.

Lemma example_infos_wf : wf_infos example_infos.
Proof.
  split.
  - intros e [->|[->|[]%not_elem_of_nil]%elem_of_cons]%elem_of_cons;
      (split; [done|]); apply example_info_wf; [apply example_wf|apply other_wf].
  - refine (bool_decide_unpack _ _). vm_compute. exact I.
Qed.

Definition example_store : LocalStore :=
  (@registerValidPaths prefix_HashLib #"/nix/store" 1700000000 example_infos empty_store).2.

Lemma example_registration :
  @registerValidPaths prefix_HashLib #"/nix/store" 1700000000 example_infos empty_store = (Ok (), example_store).
Proof.
  assert ((@registerValidPaths prefix_HashLib #"/nix/store" 1700000000 example_infos empty_store).1 = Ok ()) as Hr
    by (vm_compute; reflexivity).
  rewrite <- Hr. apply surjective_pairing.
Qed.

Lemma example_store_ok : store_ok [ #"nix"; #"store"] example_store.
Proof.
  pose proof (@registerValidPaths_outcome prefix_HashLib [ #"nix"; #"store"] 1700000000 example_infos empty_store
                (empty_store_ok _) example_infos_wf) as Hs.
  change (join_path [ #"nix"; #"store"]) with #"/nix/store" in Hs. rewrite example_registration in Hs. apply Hs.
Qed.

Lemma registerValidPaths_spec_witness :
  store_ok [ #"nix"; #"store"] example_store /\
  (forall p, valid [ #"nix"; #"store"] (db example_store) p <-> valid [ #"nix"; #"store"] empty_db p \/ registered example_infos p).
Proof.
  pose proof (@registerValidPaths_spec prefix_HashLib [ #"nix"; #"store"] 1700000000 example_infos empty_store
                (empty_store_ok _) example_infos_wf) as Hs.
  change (join_path [ #"nix"; #"store"]) with #"/nix/store" in Hs. rewrite example_registration in Hs.
  exact (conj (proj1 Hs) (proj1 (proj2 (proj2 Hs)))).
Defined.

Lemma registerValidPaths_acyclic_witness : acyclic [ #"nix"; #"store"] (db example_store).
Proof.
  exact (@registerValidPaths_acyclic prefix_HashLib [ #"nix"; #"store"] 1700000000 example_infos empty_store example_store
           (empty_store_ok _) example_infos_wf (fun _ _ => empty_invalid _ _) (empty_acyclic _) example_registration).
Defined.


Lemma invalidatePathChecked_spec_witness :
  store_ok [ #"nix"; #"store"] example_store /\
  (invalidatePathChecked #"/nix/store" example_path example_store).1 = Throw PathInUse /\
  (invalidatePathChecked #"/nix/store" example_path example_store).2 = example_store.
Proof.
  split; [exact example_store_ok|].
  pose proof (invalidatePathChecked_spec [ #"nix"; #"store"] example_path example_store good_nix_store example_store_ok) as Hs.
  change (join_path [ #"nix"; #"store"]) with #"/nix/store" in Hs.
  assert ((invalidatePathChecked #"/nix/store" example_path example_store).1 = Throw PathInUse) as Ht by (vm_compute; reflexivity).
  split; [exact Ht|]. destruct (invalidatePathChecked #"/nix/store" example_path example_store) as [r s].
  cbn [fst snd] in *. rewrite Ht in Hs. exact (proj1 (proj2 Hs)).
Defined.

(** *** What the code does beyond that *)

(** The cache is no part of the transaction: after a registration that is
    rolled back, the path is taken for valid. *)
Lemma failed_registration_cached :
  exists s, @registerValidPaths prefix_HashLib #"/nix/store" 1700000000
              [(example_path, example_info example_path {[other_path]})] empty_store = (Throw InvalidPath, s) /\
    (isValidPath #"/nix/store" example_path s).1 = Ok true /\ (isValidPath_ #"/nix/store" example_path s).1 = Ok false.
Proof.
  set (r := @registerValidPaths prefix_HashLib #"/nix/store" 1700000000
              [(example_path, example_info example_path {[other_path]})] empty_store).
  exists r.2. split; [|split; vm_compute; reflexivity].
  assert (r.1 = Throw InvalidPath) as <- by (vm_compute; reflexivity). apply surjective_pairing.
Qed.

(** A registration time of zero is the current time in the database and zero
    in the cache. *)
Lemma cached_registrationTime :
  match (queryPathInfo #"/nix/store" example_path example_store).1 with
  | Ok i => registrationTime i = 0%Z
  | _ => False
  end /\
  match (queryPathInfoInternal #"/nix/store" example_path example_store).1 with
  | Ok (Some i) => registrationTime i = 1700000000%Z
  | _ => False
  end.
Proof. split; vm_compute; reflexivity. Qed.

(** Registering a valid path again updates its row but not the cache. *)
Lemma stale_cache :
  exists s, @registerValidPath prefix_HashLib #"/nix/store" 1700000000
              (mkInfo #"/nix/store" None (example_hash SHA256) ∅ 0 240 true ∅ None example_path) example_store = (Ok (), s) /\
    match (queryPathInfo #"/nix/store" example_path s).1 with Ok i => narSize i = 120%Z | _ => False end /\
    match (queryPathInfoInternal #"/nix/store" example_path s).1 with Ok (Some i) => narSize i = 240%Z | _ => False end.
Proof.
  set (r := @registerValidPath prefix_HashLib #"/nix/store" 1700000000
              (mkInfo #"/nix/store" None (example_hash SHA256) ∅ 0 240 true ∅ None example_path) example_store).
  exists r.2. split; [|split; vm_compute; reflexivity].
  assert (r.1 = Ok ()) as <- by (vm_compute; reflexivity). apply surjective_pairing.
Qed.

(** The sort of a registration sees only its own infos, so that a cycle
    through a path that is valid already is not detected. *)
Definition cyclic_store : LocalStore :=
  (@registerValidPath prefix_HashLib #"/nix/store" 1700000000 (example_info example_path {[other_path]}) example_store).2.

Lemma undetected_cycle :
  (@registerValidPath prefix_HashLib #"/nix/store" 1700000000 (example_info example_path {[other_path]}) example_store).1 = Ok () /\
  ~ acyclic [ #"nix"; #"store"] (db cyclic_store).
Proof.
  split; [vm_compute; reflexivity|]. intros Hac. apply (Hac example_path).
  assert (registerValidPath #"/nix/store" 1700000000 (H := prefix_HashLib) (example_info example_path {[other_path]}) example_store
          = (Ok (), cyclic_store)) as Hr.
  { unfold cyclic_store. rewrite (surjective_pairing (registerValidPath _ _ _ _)) at 1. f_equal. }
  pose proof (@registerValidPaths_outcome prefix_HashLib [ #"nix"; #"store"] 1700000000
    [(example_path, example_info example_path {[other_path]})] example_store example_store_ok
    (wf_single _ (example_info_wf example_path {[other_path]} example_wf))) as Ho.
  change (join_path [ #"nix"; #"store"]) with #"/nix/store" in Ho. unfold registerValidPath in Hr. cbn [path example_info] in Hr.
  rewrite Hr in Ho. destruct Ho as (_ & _ & _ & Href & _).
  pose proof (@registerValidPaths_outcome prefix_HashLib [ #"nix"; #"store"] 1700000000 example_infos empty_store
    (empty_store_ok _) example_infos_wf) as Hb.
  change (join_path [ #"nix"; #"store"]) with #"/nix/store" in Hb. rewrite example_registration in Hb. destruct Hb as (_ & _ & _ & Hb & _).
  apply (tc_l _ _ other_path); [|apply tc_once]; (split; [apply Href|apply (bool_decide_unpack _); vm_compute; exact I]).
  - right. exists (example_path, example_info example_path {[other_path]}).
    split; [apply list_elem_of_here|]. split; [reflexivity|].
    change (other_path ∈ ({[other_path]} : StorePathSet)). apply elem_of_singleton. reflexivity.
  - left. apply Hb. right. exists (other_path, example_info other_path {[example_path]}).
    split; [apply list_elem_of_further, list_elem_of_here|]. split; [reflexivity|].
    change (example_path ∈ ({[example_path]} : StorePathSet)). apply elem_of_singleton. reflexivity.
Qed.
