(* ===== verification/Verify.v ===== *)
(** * Verify: checking the store against the disk

    [verifyPath], [verifyAllValidPaths] and [verifyStore] of
    libstore/local-store.cc.  The names [readdir] finds in the store directory
    and the accessors that read links and store objects are parameters: the
    disk does not change meanwhile. *)

From S2P Require Export LocalStore HashPath.

(** The locals of [verifyAllValidPaths] that [verifyPath] is given
    references to, and the store. *)
Record Verification := mkVerification
  { v_store : LocalStore; v_done : StorePathSet; v_validPaths : StorePathSet; v_errors : bool }.

Definition with_store {A} (m : SM A) : ST Verification A := fun v =>
  let '(r, s) := m (v_store v) in (r, mkVerification s (v_done v) (v_validPaths v) (v_errors v)).
Definition set_done (f : StorePathSet -> StorePathSet) : ST Verification unit :=
  modify (fun v => mkVerification (v_store v) (f (v_done v)) (v_validPaths v) (v_errors v)).
Definition set_validPaths (f : StorePathSet -> StorePathSet) : ST Verification unit :=
  modify (fun v => mkVerification (v_store v) (v_done v) (f (v_validPaths v)) (v_errors v)).
Definition set_errors (b : bool) : ST Verification unit :=
  modify (fun v => mkVerification (v_store v) (v_done v) (v_validPaths v) b).

(** A loop with a local variable. *)
Fixpoint sfold {St A B} (f : B -> A -> ST St B) (b : B) (l : list A) : ST St B :=
  match l with [] => mret b | x :: l => b ← f b x; sfold f b l end.

Section verify.
Context `{L : HashLib} (storeDir : bytes).

(** [fuel] bounds the depth of the recursion. *)
Fixpoint verifyPath (fuel : nat) (existsInStoreDir : StorePath -> bool) (path : StorePath) : ST Verification unit :=
  match fuel with
  | O => slift (Throw AssertFailed)
  | S fuel =>
      d ← gets v_done;
      if bool_decide (path ∈ d) then mret ()
      else
        _ ← set_done (fun d => {[path]} ∪ d);
        if negb (existsInStoreDir path) then
          referrers ← with_store (queryReferrers storeDir path);
          canInvalidate ← sfold (fun canInvalidate i =>
              if bool_decide (i <> path) then
                _ ← verifyPath fuel existsInStoreDir i;
                vp ← gets v_validPaths;
                mret (if bool_decide (i ∈ vp) then false else canInvalidate)
              else mret canInvalidate) true (sp_iter referrers);
          if canInvalidate : bool then with_store (invalidatePath storeDir path)
          else set_errors true
        else set_validPaths (fun vp => {[path]} ∪ vp)
  end.

(** The names of the store directory that are store paths. *)
Definition storePathsInStoreDir (entries : list bytes) : result StorePathSet :=
  foreach (fun (res : StorePathSet) name =>
    catch (p ← StorePath_new name; Ok ({[p]} ∪ res)) is_BadStorePath (fun _ => Ok res)) ∅ entries.

(** Checks [all] paths; one more level than there are is enough fuel. *)
Definition verify_paths (inDir all : StorePathSet) : SM (bool * StorePathSet) := fun s =>
  let '(r, v) := sforeach (verifyPath (S (size all)) (fun p => bool_decide (p ∈ inDir))) (sp_iter all)
                   (mkVerification s ∅ ∅ false) in
  (match r with Ok _ => Ok (v_errors v, v_validPaths v) | Throw e => Throw e end, v_store v).

Definition verifyAllValidPaths (entries : list bytes) : SM (bool * StorePathSet) :=
  inDir ← slift (storePathsInStoreDir entries);
  all ← queryAllValidPaths storeDir;
  verify_paths inDir all.

(** ** [verifyStore] *)

(** How the disk is read: the files of the links directory in the order of
    its entries, and the objects of the store. *)
Context (links : list (bytes * SourceAccessor)) (storeObject : StorePath -> SourceAccessor).
Context (useCaseHack : bool).

(** The contents of a link against its name. *)
Definition link_modified (link : bytes * SourceAccessor) : result bool :=
  h ← hashPath_ingest link.2 FileIngestionMethod.NixArchive SHA256 everything useCaseHack root;
  hash ← Hashing.to_string h.1 Nix32 false;
  Ok (negb (bool_decide (hash = link.1))).

(** The object [queryPathInfo] returned is the one the cache holds, if it
    holds any, and it is written to through a [const_pointer_cast]. *)
Definition write_info (p : StorePath) (info : ValidPathInfo) : SM unit :=
  set_cache (fun c => Ok (mkLRU (capacity c) (alter (fun _ => Some info) p (data c)) (lru c))).

Definition set_narHash (h : Hash) (i : ValidPathInfo) : ValidPathInfo :=
  mkInfo (info_storeDir i) (deriver i) h (references i) (registrationTime i) (narSize i) (ultimate i) (sigs i) (ca i) (PathInfo.path i).
Definition set_narSize (n : Z) (i : ValidPathInfo) : ValidPathInfo :=
  mkInfo (info_storeDir i) (deriver i) (narHash i) (references i) (registrationTime i) n (ultimate i) (sigs i) (ca i) (PathInfo.path i).

(** The body of the [try] for one path: whether it was modified. *)
Definition check_contents (i : StorePath) : SM bool :=
  nullHash ← slift (new_Hash SHA256);
  info ← queryPathInfo storeDir i;
  current ← slift (hashPath (storeObject i) FileSerialisationMethod.NixArchive (algo (narHash info)) everything useCaseHack root);
  if negb (Hash_eqb (narHash info) nullHash) && negb (Hash_eqb (narHash info) (hr_hash current)) then mret true
  else
    let fix_hash := Hash_eqb (narHash info) nullHash in
    let info := if fix_hash then set_narHash (hr_hash current) info else info in
    let fix_size := (narSize info =? 0)%Z in
    let info := if fix_size then set_narSize (numBytesDigested current) info else info in
    _ ← (if fix_hash || fix_size then write_info i info else mret ());
    _ ← (if fix_hash || fix_size then updatePathInfo storeDir info else mret ());
    mret false.

Definition verifyStore (entries : list bytes) (checkContents repair : bool) : SM bool :=
  if repair then slift (Throw Unsupported)
  else
    '(errors, validPaths) ← verifyAllValidPaths entries;
    if checkContents then
      errors ← slift (foreach (fun (errors : bool) link => m ← link_modified link; Ok (if m : bool then true else errors)) errors links);
      sfold (fun (errors : bool) i =>
        scatch (m ← check_contents i; mret (if m : bool then true else errors)) is_Error
          (fun _ => _ ← isValidPath storeDir i; mret true)) errors (sp_iter validPaths)
    else mret errors.
End verify.

(** ** What [verifyPath] does *)

Section verifying.
Context (ds : list bytes).
Notation storeDir := (join_path ds).
Notation print := (printStorePath storeDir).
Notation valid := LocalStore.valid.
(** The database at the start, and which paths are on disk. *)
Context (d0 : DB) (exist : StorePath -> bool).
Notation valid0 := (valid ds d0).
Notation edge0 := (ref_edge ds d0).

(** A path on disk refers to [p]. *)
Definition held (p : StorePath) : Prop := exists q, edge0 q p /\ exist q = true.
(** What is removed: neither on disk nor referred to by anything there. *)
Definition gone (p : StorePath) : Prop := exist p = false /\ ~ held p.
(** A path to be removed that is referred to by one that cannot be. *)
Definition stuck (p : StorePath) : Prop := valid0 p /\ gone p /\ exists q, edge0 q p /\ held q.

(** The paths that have been dealt with. *)
Definition finished (stack : list StorePath) (v : Verification) (q : StorePath) : Prop := q ∈ v_done v /\ q ∉ stack.

Record v_inv (stack : list StorePath) (v : Verification) : Prop := {
  vi_store : store_ok ds (v_store v);
  vi_done : forall q, q ∈ v_done v -> valid0 q;
  vi_stack : forall q, q ∈ stack -> q ∈ v_done v;
  vi_valid : forall q, valid ds (db (v_store v)) q <-> valid0 q /\ ~ (finished stack v q /\ gone q);
  vi_refs : forall x y, refers ds (db (v_store v)) x y <-> refers ds d0 x y /\ valid ds (db (v_store v)) x;
  vi_present : forall q, q ∈ v_validPaths v <-> finished stack v q /\ exist q = true;
  vi_errors : v_errors v = true <-> exists q, finished stack v q /\ exist q = false /\ held q;
  vi_stuck : forall q, finished stack v q -> ~ stuck q;
}.

Lemma with_store_Ok {A} (m : SM A) v a s :
  m (v_store v) = (Ok a, s) -> with_store m v = (Ok a, mkVerification s (v_done v) (v_validPaths v) (v_errors v)).
Proof using Type. unfold with_store. by intros ->. Qed.

(** The frame of a call: what holds of its outcome. *)
Definition visited (stack : list StorePath) (v : Verification) (ps : list StorePath)
    (r : result unit * Verification) : Prop :=
  match r with
  | (Ok _, v') => v_inv stack v' /\ v_done v ⊆ v_done v' /\ forall p, p ∈ ps -> p ∈ v_done v'
  | (Throw e, _) => e = SQLiteError /\ exists q, stuck q
  end.

Lemma enter_inv stack v p :
  v_inv stack v -> valid0 p -> p ∉ v_done v ->
  v_inv (p :: stack) (mkVerification (v_store v) ({[p]} ∪ v_done v) (v_validPaths v) (v_errors v)).
Proof using Type.
  intros Hi Hv Hp.
  assert (forall q, finished (p :: stack) (mkVerification (v_store v) ({[p]} ∪ v_done v) (v_validPaths v) (v_errors v)) q
                    <-> finished stack v q) as Hf.
  { intros q. unfold finished. cbn [v_done]. rewrite elem_of_union, elem_of_singleton, not_elem_of_cons.
    split; [intros ([-> | ?] & ? & ?); tauto|]. intros [? ?]. split; [tauto|]. split; [congruence|done]. }
  split; cbn [v_store v_done v_validPaths v_errors]; try apply Hi.
  - intros q [->%elem_of_singleton|Hq]%elem_of_union; [done|by apply Hi].
  - intros q [-> |Hq]%elem_of_cons; [set_solver|]. apply elem_of_union_r. by apply Hi.
  - intros q. rewrite Hf. apply Hi.
  - intros q. rewrite Hf. apply Hi.
  - rewrite (vi_errors _ _ Hi). by setoid_rewrite Hf.
  - intros q. rewrite Hf. apply Hi.
Qed.

(** A path on disk. *)
Lemma present_inv stack v p :
  v_inv stack v -> valid0 p -> p ∉ v_done v -> exist p = true ->
  v_inv stack (mkVerification (v_store v) ({[p]} ∪ v_done v) ({[p]} ∪ v_validPaths v) (v_errors v)).
Proof using Type.
  intros Hi Hv Hp He. assert (p ∉ stack) as Hps by (intros Hin; by apply Hp, Hi).
  assert (forall q, finished stack (mkVerification (v_store v) ({[p]} ∪ v_done v) ({[p]} ∪ v_validPaths v) (v_errors v)) q
                    <-> finished stack v q \/ q = p) as Hf.
  { intros q. unfold finished. cbn [v_done]. rewrite elem_of_union, elem_of_singleton.
    split; [tauto|]. intros [? | ->]; tauto. }
  split; cbn [v_store v_done v_validPaths v_errors]; try apply Hi.
  - intros q [->%elem_of_singleton|Hq]%elem_of_union; [done|by apply Hi].
  - intros q Hq. apply elem_of_union_r. by apply Hi.
  - intros q. rewrite Hf, (vi_valid _ _ Hi q). unfold gone. split; intros [? Hn]; (split; [done|]).
    + intros ([? | ->] & ? & ?); [tauto|congruence].
    + tauto.
  - intros q. rewrite Hf, elem_of_union, elem_of_singleton, (vi_present _ _ Hi q). split; [|tauto].
    intros [-> |?]; tauto.
  - rewrite (vi_errors _ _ Hi). setoid_rewrite Hf. split; intros (q & Hq & Hm & Hh); exists q; [tauto|].
    destruct Hq as [Hq| ->]; [tauto|congruence].
  - intros q [Hq| ->]%Hf; [by apply Hi|]. intros (_ & [? _] & _). congruence.
Qed.

(** A path that is not on disk, once those that refer to it are finished. *)
Lemma leave_inv stack v p :
  v_inv (p :: stack) v -> p ∉ stack -> exist p = false -> (forall q, edge0 q p -> finished (p :: stack) v q) ->
  ~ stuck p -> forall s' errs,
  store_ok ds s' ->
  (forall q, valid ds (db s') q <-> valid ds (db (v_store v)) q /\ (gone p -> q <> p)) ->
  (forall x y, refers ds (db s') x y <-> refers ds (db (v_store v)) x y /\ (gone p -> x <> p)) ->
  (errs = true <-> v_errors v = true \/ held p) ->
  v_inv stack (mkVerification s' (v_done v) (v_validPaths v) errs).
Proof using Type.
  intros Hi Hps He Hq Hst s' errs Hs Hv Hr Herr.
  assert (forall q, finished stack v q <-> finished (p :: stack) v q \/ q = p) as Hf.
  { intros q. unfold finished. rewrite not_elem_of_cons. split; [destruct (decide (q = p)); tauto|].
    intros [? | ->]; [tauto|]. split; [apply (vi_stack _ _ Hi); left|done]. }
  assert (forall q, finished stack (mkVerification s' (v_done v) (v_validPaths v) errs) q <-> finished stack v q) as Hf' by done.
  split; cbn [v_store v_done v_validPaths v_errors]; try done; try apply Hi.
  - intros q Hin. apply (vi_stack _ _ Hi). by right.
  - intros q. rewrite Hf', Hf, Hv, (vi_valid _ _ Hi q). split.
    + intros [[H0 Hn] Hg]. split; [done|]. intros [[Hfin| ->] Hgq]; [tauto|]. by apply Hg.
    + intros [H0 Hn]. split; [tauto|]. intros Hg ->. tauto.
  - intros x y. rewrite Hr, Hv, (vi_refs _ _ Hi x y). tauto.
  - intros q. rewrite Hf', Hf, (vi_present _ _ Hi q). split; [tauto|]. intros [[? | ->] ?]; [tauto|congruence].
  - rewrite Herr, (vi_errors _ _ Hi). setoid_rewrite Hf'. setoid_rewrite Hf. split.
    + intros [(q & Hfq & ? & ?)|Hh]; [exists q; tauto|]. exists p. tauto.
    + intros (q & [Hfq| ->] & ? & ?); [left; by exists q|by right].
  - intros q [Hfq| ->]%Hf; [by apply Hi|done].
Qed.
Context (Hds : Forall good ds) (Hok0 : db_ok ds d0) (Hac : acyclic ds d0).
Context (all : StorePathSet) (Hall : forall p, p ∈ all <-> valid0 p).

Lemma held_dec p : held p \/ ~ held p.
Proof using Hds Hok0.
  destruct (queryReferrers_ok ds Hds p (mkStore d0 (new_LRUCache 0)) Hok0) as (X & _ & HX).
  destruct (decide (set_Exists (fun q => q <> p /\ exist q = true) X)) as [(q & Hq & Hn & He)|Hn].
  - left. exists q. split; [split; [by apply HX|done]|done].
  - right. intros (q & [Hq Hqp] & He). apply Hn. exists q. split; [by apply HX|done].
Qed.

Lemma edge_valid q p : edge0 q p -> valid0 q.
Proof using Type. intros [Hq _]. apply (refers_valid ds _ _ _ Hq). Qed.

(** The loop over the paths that refer to [p]. *)
Lemma referrers_loop fuel stack p :
  (forall i v, v_inv (p :: stack) v -> edge0 i p -> p ∈ v_done v ->
     size (all ∖ v_done v) < fuel -> visited (p :: stack) v [i] (verifyPath storeDir fuel exist i v)) ->
  (forall i, edge0 i p -> i ∉ p :: stack) ->
  forall l c v, v_inv (p :: stack) v -> (forall i, i ∈ l -> refers ds d0 i p) -> p ∈ v_done v ->
  size (all ∖ v_done v) < fuel ->
  let r := sfold (fun canInvalidate i =>
              if bool_decide (i <> p) then
                _ ← verifyPath storeDir fuel exist i;
                vp ← gets v_validPaths;
                mret (if bool_decide (i ∈ vp) then false else canInvalidate)
              else mret canInvalidate) c l v in
  match r with
  | (Ok b, v') =>
      v_inv (p :: stack) v' /\ v_done v ⊆ v_done v' /\ (forall i, i ∈ l -> i <> p -> i ∈ v_done v') /\
      (b = true <-> c = true /\ forall i, i ∈ l -> i <> p -> exist i = false)
  | (Throw e, _) => e = SQLiteError /\ exists q, stuck q
  end.
Proof using Hok0 Hac Hall Hds.
  intros IH Hfresh l. induction l as [|i l IHl]; intros c v Hi Hl Hp Hf; cbn [sfold].
  { cbn. split; [done|]. split; [done|]. split; [set_solver|]. split; [|tauto]. intros ->. split; [done|set_solver]. }
  cbv zeta. case_bool_decide as Hne.
  - assert (edge0 i p) as He by (split; [apply Hl; left|done]).
    pose proof (IH i v Hi He Hp Hf) as Hv. unfold visited in Hv.
    unfold mbind at 1, ST_bind at 1. unfold mbind at 1, ST_bind at 1.
    destruct (verifyPath storeDir fuel exist i v) as [[u|e] v1]; [|done].
    destruct Hv as (Hi1 & Hd1 & Hin1). rewrite gets_bind. cbn [mret ST_ret].
    specialize (IHl (if bool_decide (i ∈ v_validPaths v1) then false else c) v1 Hi1 ltac:(intros; apply Hl; by right) ltac:(set_solver)).
    assert (size (all ∖ v_done v1) < fuel) as Hf1.
    { eapply Nat.le_lt_trans; [|exact Hf]. apply subseteq_size. set_solver. }
    specialize (IHl Hf1). cbv zeta in IHl.
    destruct (sfold _ _ l v1) as [[b|e] v2]; [|done]. destruct IHl as (Hi2 & Hd2 & Hin2 & Hb).
    assert (i ∈ v_validPaths v1 <-> exist i = true) as Hvp.
    { rewrite (vi_present _ _ Hi1 i). unfold finished. split; [tauto|]. intros ?. split; [|done].
      split; [apply Hin1; left|by apply Hfresh]. }
    split; [done|]. split; [set_solver|]. split.
    + intros j [-> |Hj]%elem_of_cons Hjp; [|by apply Hin2]. apply Hd2, Hin1. left.
    + rewrite Hb. case_bool_decide as Hx; rewrite Hvp in Hx.
      * split; [by intros [? _]|]. intros [_ Hall']. rewrite (Hall' i) in Hx; [done|left|done].
      * apply not_true_is_false in Hx. split; intros [-> Ha]; (split; [done|]).
        -- intros j [-> |Hj]%elem_of_cons Hjp; [done|by apply Ha].
        -- intros j Hj. apply Ha. by right.
  - unfold mbind at 1, ST_bind at 1. cbn [mret ST_ret]. subst i.
    specialize (IHl c v Hi ltac:(intros; apply Hl; by right) Hp Hf). cbv zeta in IHl.
    destruct (sfold _ _ l v) as [[b|e] v2]; [|done]. destruct IHl as (Hi2 & Hd2 & Hin2 & Hb).
    split; [done|]. split; [done|]. split.
    + intros j [-> |Hj]%elem_of_cons Hjp; [done|by apply Hin2].
    + rewrite Hb. split; intros [-> Ha]; (split; [done|]).
      * intros j [-> |Hj]%elem_of_cons Hjp; [done|by apply Ha].
      * intros j Hj. apply Ha. by right.
Qed.

Lemma verifyPath_visited fuel : forall stack p v,
  v_inv stack v -> valid0 p -> (forall x, x ∈ stack -> tc edge0 p x) -> size (all ∖ v_done v) < fuel ->
  visited stack v [p] (verifyPath storeDir fuel exist p v).
Proof using Hok0 Hac Hall Hds.
  induction fuel as [|fuel IH]; intros stack p v Hi Hv Hst Hf; [lia|]. cbn [verifyPath].
  rewrite gets_bind. case_bool_decide as Hd.
  { cbn. split; [done|]. split; [done|]. intros q ->%list_elem_of_singleton. done. }
  unfold set_done. rewrite modify_bind. destruct (exist p) eqn:He; cbn [negb].
  { cbn. split; [by apply present_inv|]. split; [set_solver|]. intros q ->%list_elem_of_singleton. set_solver. }
  pose proof (enter_inv stack v p Hi Hv Hd) as Hi1. set (v1 := mkVerification _ ({[p]} ∪ v_done v) _ _) in *.
  assert (p ∉ stack) as Hps by (intros Hin; apply Hd; by apply Hi).
  destruct (queryReferrers_ok ds Hds p (v_store v1) (so_db _ _ (vi_store _ _ Hi1))) as (X & HX & HpX).
  rewrite (ST_bind_Ok _ _ _ _ _ (with_store_Ok _ _ _ _ HX)). change (mkVerification (v_store v1) (v_done v1) (v_validPaths v1) (v_errors v1)) with v1.
  assert (forall i, edge0 i p -> i ∉ p :: stack) as Hfresh.
  { intros i Hip [-> |Hin]%elem_of_cons; [by destruct Hip|]. apply (Hac i). eapply tc_l; [exact Hip|]. by apply Hst. }
  assert (size (all ∖ v_done v1) < fuel) as Hf1.
  { assert (all ∖ v_done v1 ⊂ all ∖ v_done v) as Hs; [|apply subset_size in Hs; lia].
    apply (strict_spec_alt (all ∖ v_done v1)). split; [cbn; set_solver|]. cbn. intros Heq.
    assert (p ∈ all ∖ v_done v) as Hin by (apply elem_of_difference; split; [by apply Hall|done]).
    rewrite <- Heq in Hin. set_solver. }
  pose proof (referrers_loop fuel stack p) as Hloop.
  assert (forall i v0, v_inv (p :: stack) v0 -> edge0 i p -> p ∈ v_done v0 -> size (all ∖ v_done v0) < fuel ->
            visited (p :: stack) v0 [i] (verifyPath storeDir fuel exist i v0)) as Hcall.
  { intros i v0 Hi0 Hip Hp0 Hs0. apply IH; [done|by apply (edge_valid i p)| |done].
    intros x [-> |Hx]%elem_of_cons; [by apply tc_once|]. eapply tc_l; [exact Hip|]. by apply Hst. }
  specialize (Hloop Hcall Hfresh (sp_iter X) true v1 Hi1). 
  specialize (Hloop ltac:(intros i Hin%elem_of_sp_iter%HpX; by apply (vi_refs _ _ Hi1 i p)) ltac:(cbn; set_solver) Hf1).
  cbv zeta in Hloop.
  match type of Hloop with match ?r with _ => _ end => destruct r as [[b|e] v2] eqn:Hr end;
    [|rewrite (ST_bind_Throw _ _ _ _ _ Hr); done].
  rewrite (ST_bind_Ok _ _ _ _ _ Hr). destruct Hloop as (Hi2 & Hd2 & Hin2 & Hb).
  (* everything that refers to [p] is finished *)
  assert (forall q, edge0 q p -> q ∈ X \/ finished (p :: stack) v1 q /\ gone q) as Href.
  { intros q Hq. destruct (decide (q ∈ X)) as [|Hn]; [by left|]. right.
    destruct (decide (q ∈ v_done v1)) as [Hqd|Hqd].
    - split; [split; [done|by apply Hfresh]|]. destruct (held_dec q) as [Hh|Hh].
      + exfalso. apply Hn, HpX, (vi_refs _ _ Hi1). split; [apply Hq|]. apply (vi_valid _ _ Hi1). split; [by apply (edge_valid q p)|].
        intros (_ & _ & ?). done.
      + split; [|done]. apply not_true_is_false. intros Hex. apply Hn, HpX, (vi_refs _ _ Hi1). split; [apply Hq|].
        apply (vi_valid _ _ Hi1). split; [by apply (edge_valid q p)|]. intros (_ & ? & _). congruence.
    - exfalso. apply Hn, HpX, (vi_refs _ _ Hi1). split; [apply Hq|]. apply (vi_valid _ _ Hi1).
      split; [by apply (edge_valid q p)|]. by intros [[? _] _]. }
  assert (forall q, edge0 q p -> finished (p :: stack) v2 q) as Hfin.
  { intros q Hq. split; [|by apply Hfresh]. destruct (Href q Hq) as [Hx|[[Hx _] _]]; [|by apply Hd2].
    apply Hin2; [by apply elem_of_sp_iter|]. apply Hq. }
  assert (b = true <-> ~ held p) as Hbh.
  { rewrite Hb. split.
    - intros [_ Hm] (q & Hq & Hex). destruct (Href q Hq) as [Hx|[_ [? _]]]; [|congruence].
      rewrite (Hm q) in Hex; [done|by apply elem_of_sp_iter|apply Hq].
    - intros Hh. split; [done|]. intros i Hin%elem_of_sp_iter%HpX Hne. apply not_true_is_false. intros Hex.
      apply Hh. exists i. split; [split; [by apply (vi_refs _ _ Hi1 i p)|done]|done]. }
  assert (v_done v ⊆ v_done v2 /\ p ∈ v_done v2) as [Hdv Hpv] by (cbn in Hd2; set_solver).
  destruct (vi_store _ _ Hi2) as [Hdb2 Hc2].
  assert (LocalStore.valid ds (db (v_store v2)) p) as Hvp.
  { apply (vi_valid _ _ Hi2). split; [done|]. intros [[_ Hn] _]. apply Hn. left. }
  destruct b.
  - assert (gone p) as Hg by (split; [done|]; by apply Hbh).
    destruct (InvalidatePath_ok ds (db (v_store v2)) p Hdb2 Hvp) as [Hok Hbad].
    pose proof (proj1 Hbh eq_refl) as Hnh.
    assert ((exists q, edge0 q p /\ held q) \/ forall q, edge0 q p -> ~ held q) as Hcase.
    { destruct (queryReferrers_ok ds Hds p (mkStore d0 (new_LRUCache 0)) Hok0) as (Y & _ & HY).
      assert (forall Z : list StorePath, (exists q, q ∈ Z /\ held q) \/ forall q, q ∈ Z -> ~ held q) as Hex.
      { induction Z as [|z Z [(q & ? & ?)|IHZ]]; [right; set_solver|left; exists q; set_solver|].
        destruct (held_dec z); [left; exists z; set_solver|]. right. intros q [-> |?]%elem_of_cons; auto. }
      destruct (Hex (elements (Y ∖ {[p]}))) as [(q & Hq & Hh)|Hno].
      - left. exists q. split; [|done]. apply elem_of_elements, elem_of_difference in Hq as [Hq%HY Hn].
        split; [done|]. set_solver.
      - right. intros q [Hq Hn]. apply Hno, elem_of_elements, elem_of_difference. split; [by apply HY|set_solver]. }
    unfold with_store, invalidatePath.
    destruct Hcase as [(q & Hq & Hh)|Hno].
    + (* the path that refers to it is still in the database *)
      assert (refers ds (db (v_store v2)) q p) as Hqp.
      { apply (vi_refs _ _ Hi2). split; [apply Hq|]. apply (vi_valid _ _ Hi2). split; [by apply (edge_valid q p)|].
        intros (_ & _ & ?). done. }
      assert (set_db (fun d => InvalidatePath d (print p)) (v_store v2) = (Throw SQLiteError, v_store v2)) as Hthrow.
      { unfold set_db. by rewrite (Hbad q Hqp (proj2 Hq)). }
      rewrite (ST_bind_Throw _ _ _ _ _ Hthrow). cbn. split; [done|]. exists p. split; [done|]. split; [done|]. by exists q.
    + assert (forall q, refers ds (db (v_store v2)) q p -> q = p) as Hself.
      { intros q Hq. destruct (decide (q = p)) as [|Hne]; [done|]. exfalso.
        apply (vi_refs _ _ Hi2) in Hq as [Hq Hqv]. assert (edge0 q p) as Hqe by done.
        apply (vi_valid _ _ Hi2) in Hqv as [_ Hn]. apply Hn. split; [by apply Hfin|]. split; [|by apply Hno].
        destruct (exist q) eqn:Hex; [|done]. exfalso. apply Hnh. by exists q. }
      destruct (Hok Hself) as (d' & Hd' & Hdok & Hat & Hrf).
      rewrite (set_db_bind _ _ _ _ Hd'). unfold invalidatePathInfoCacheFor, set_cache. cbn [db pathInfoCache].
      cbn. split; [|split; [done|]; by intros q ->%list_elem_of_singleton].
      apply (leave_inv stack v2 p); try done.
      * intros (_ & _ & q & Hq & Hh). by apply (Hno q).
      * split; [done|by apply erase_wf].
      * intros q. cbn [db]. unfold valid. split.
        -- intros [r [? ?]%Hat]. split; [by exists r|done].
        -- intros [[r ?] Hn]. exists r. apply Hat. split; [done|by apply Hn].
      * intros x y. cbn [db]. rewrite Hrf. tauto.
      * tauto.
  - assert (held p) as Hh.
    { destruct (held_dec p) as [|Hn]; [done|]. by apply Hbh in Hn. }
    unfold set_errors, modify. cbn. split; [|split; [done|]; by intros q ->%list_elem_of_singleton].
    apply (leave_inv stack v2 p); try done.
    + by intros (_ & [_ ?] & _).
    + intros q. unfold gone. tauto.
    + intros x y. unfold gone. tauto.
    + tauto.
Qed.
(** The whole check. *)
Lemma verify_loop s :
  db s = d0 -> store_ok ds s ->
  match sforeach (verifyPath storeDir (S (size all)) exist) (sp_iter all) (mkVerification s ∅ ∅ false) with
  | (Ok _, v) => v_inv [] v /\ forall p, valid0 p -> finished [] v p
  | (Throw e, _) => e = SQLiteError /\ exists q, stuck q
  end.
Proof using Hok0 Hac Hall Hds.
  intros Hs Hok.
  pose proof (leads_sforeach (fun before v => v_inv [] v /\ forall p, p ∈ before -> p ∈ v_done v)
    (fun e _ => e = SQLiteError /\ exists q, stuck q) (verifyPath storeDir (S (size all)) exist) (sp_iter all)
    (mkVerification s ∅ ∅ false)) as Hl.
  assert (v_inv [] (mkVerification s ∅ ∅ false)) as Hi0.
  { assert (forall q, ~ finished [] (mkVerification s ∅ ∅ false) q) as Hn by (intros q [? _]; set_solver).
    split; cbn [v_store v_done v_validPaths v_errors]; rewrite ?Hs.
    - done.
    - intros q Hq. by apply elem_of_empty in Hq.
    - intros q Hq. by apply not_elem_of_nil in Hq.
    - intros q. split; [|tauto]. intros ?. split; [done|]. intros [? _]. by eapply Hn.
    - intros x y. split; [|tauto]. intros Hr. split; [done|]. by apply (refers_valid ds _ _ _ Hr).
    - intros q. split; [by intros ?%elem_of_empty|]. intros [? _]. exfalso. by eapply Hn.
    - split; [done|]. intros (q & ? & _). exfalso. by eapply Hn.
    - intros q Hq. by destruct (Hn q). }
  unfold leads in Hl.
  destruct (sforeach _ (sp_iter all) (mkVerification s ∅ ∅ false)) as [[u|e] v].
  - destruct Hl as [Hi Hin]; [split; [done|set_solver]| |].
    + intros before x rest v1 Hl [Hi1 Hb]. unfold leads.
      assert (valid0 x) as Hx by (apply Hall, elem_of_sp_iter; rewrite Hl; set_solver).
      pose proof (verifyPath_visited (S (size all)) [] x v1 Hi1 Hx ltac:(set_solver)) as Hv.
      specialize (Hv ltac:(apply Nat.lt_succ_r, subseteq_size; set_solver)). unfold visited in Hv.
      destruct (verifyPath _ _ _ x v1) as [[u1|e] v2]; [|done]. destruct Hv as (Hi2 & Hd & Hin).
      split; [done|]. intros q [Hq|Hq]%elem_of_app; [apply Hd; by apply Hb|]. by apply Hin.
    + split; [done|]. intros q Hq. split; [|set_solver]. by apply Hin, elem_of_sp_iter, Hall.
  - apply Hl; [split; [done|set_solver]|].
    intros before x rest v1 Hl' [Hi1 Hb]. unfold leads.
    assert (valid0 x) as Hx by (apply Hall, elem_of_sp_iter; rewrite Hl'; set_solver).
    pose proof (verifyPath_visited (S (size all)) [] x v1 Hi1 Hx ltac:(set_solver)) as Hv.
    specialize (Hv ltac:(apply Nat.lt_succ_r, subseteq_size; set_solver)). unfold visited in Hv.
    destruct (verifyPath _ _ _ x v1) as [[u1|e'] v2]; [|done]. destruct Hv as (Hi2 & Hd & Hin).
    split; [done|]. intros q [Hq|Hq]%elem_of_app; [apply Hd; by apply Hb|]. by apply Hin.
Qed.
End verifying.

(** ** Properties *)

(** The store path is an entry of the store directory. *)
Definition on_disk (entries : list bytes) (p : StorePath) : bool :=
  bool_decide (baseName p ∈ entries /\ StorePath_new (baseName p) = Ok p).

Lemma storePathsInStoreDir_ok entries :
  exists X, storePathsInStoreDir entries = Ok X /\ forall p, bool_decide (p ∈ X) = on_disk entries p.
Proof.
  unfold storePathsInStoreDir.
  enough (forall acc : StorePathSet, exists X,
    foreach (fun (res : StorePathSet) name =>
      catch (p ← StorePath_new name; Ok ({[p]} ∪ res)) is_BadStorePath (fun _ => Ok res)) acc entries = Ok X /\
    forall p, p ∈ X <-> p ∈ acc \/ baseName p ∈ entries /\ StorePath_new (baseName p) = Ok p) as Hacc.
  { destruct (Hacc ∅) as (X & HX & Hp). exists X. split; [done|]. intros p. apply bool_decide_ext. rewrite Hp. set_solver. }
  induction entries as [|n entries IH]; intros acc; cbn [foreach].
  - exists acc. split; [done|]. intros p. split; [by left|]. intros [?|[? _]]; [done|set_solver].
  - destruct (StorePath_new_cases n) as [[Hn Hv]|[Hn Hv]]; rewrite Hn; cbn [mbind result_bind catch is_BadStorePath].
    + destruct (IH ({[mkStorePath n]} ∪ acc)) as (X & HX & Hp). exists X. split; [done|]. intros p. rewrite Hp.
      rewrite elem_of_union, elem_of_singleton, elem_of_cons. split.
      * intros [[-> |?]|[? ?]]; [right; split; [by left|done]|by left|]. right. tauto.
      * intros [?|[[He|?] ?]]; [tauto| |tauto]. left. left. destruct p. cbn in He. by subst.
    + destruct (IH acc) as (X & HX & Hp). exists X. split; [done|]. intros p. rewrite Hp, elem_of_cons. split; [tauto|].
      intros [?|[[He|?] He']]; [tauto| |tauto]. rewrite He, Hn in He'. done.
Qed.

Lemma stuck_ext ds d f g : (forall p, f p = g p) ->
  (forall p, held ds d f p <-> held ds d g p) /\ (forall p, gone ds d f p <-> gone ds d g p) /\
  (forall p, stuck ds d f p <-> stuck ds d g p).
Proof.
  intros Hfg.
  assert (forall p, held ds d f p <-> held ds d g p) as Hh by (intros p; unfold held; by setoid_rewrite Hfg).
  assert (forall p, gone ds d f p <-> gone ds d g p) as Hg by (intros p; unfold gone; by rewrite Hfg, Hh).
  split; [done|]. split; [done|]. intros p. unfold stuck. rewrite Hg. by setoid_rewrite Hh.
Qed.

Lemma verifyAllValidPaths_outcome ds entries s :
  Forall good ds -> store_ok ds s -> acyclic ds (db s) ->
  let disk := on_disk entries in
  match verifyAllValidPaths (join_path ds) entries s with
  | (Ok (errors, validPaths), s') =>
      store_ok ds s' /\ (forall p, ~ stuck ds (db s) disk p) /\
      (forall p, p ∈ validPaths <-> LocalStore.valid ds (db s) p /\ disk p = true) /\
      (forall p, LocalStore.valid ds (db s') p <-> LocalStore.valid ds (db s) p /\ ~ gone ds (db s) disk p) /\
      (forall p q, refers ds (db s') p q <-> refers ds (db s) p q /\ ~ gone ds (db s) disk p) /\
      (errors = true <-> exists p, LocalStore.valid ds (db s) p /\ disk p = false /\ held ds (db s) disk p)
  | (Throw e, s') => e = SQLiteError /\ exists p, stuck ds (db s) disk p
  end.
Proof.
  intros Hds Hs Hac disk. unfold verifyAllValidPaths.
  destruct (storePathsInStoreDir_ok entries) as (inDir & -> & Hdisk). rewrite slift_bind_Ok.
  destruct (queryAllValidPaths_ok ds Hds s (so_db _ _ Hs)) as (all & Hall & HpA). rewrite (ST_bind_Ok _ _ _ _ _ Hall).
  unfold verify_paths. set (ex := fun p : StorePath => bool_decide (p ∈ inDir)).
  assert (forall p, ex p = disk p) as Hex by exact Hdisk. clearbody ex.
  destruct (stuck_ext ds (db s) ex disk Hex) as (Eh & Eg & Es).
  pose proof (verify_loop ds (db s) ex Hds (so_db _ _ Hs) Hac all HpA s eq_refl Hs) as Hl.
  destruct (sforeach _ (sp_iter all) _) as [[u|e] v]; cbn [fst snd]; cbv beta iota zeta.
  - destruct Hl as [Hi Hfin]. split; [apply Hi|].
    assert (forall q, finished [] v q <-> LocalStore.valid ds (db s) q) as Hf.
    { intros q. split; [|apply Hfin]. intros [Hq _]. by apply (vi_done _ _ _ _ _ Hi). }
    split; [|split; [|split; [|split]]].
    + intros p Hp%Es. eapply (vi_stuck _ _ _ _ _ Hi p); [|done]. apply Hf, Hp.
    + intros p. rewrite (vi_present _ _ _ _ _ Hi p), Hf. by rewrite <- Hex.
    + intros p. rewrite (vi_valid _ _ _ _ _ Hi p), Hf, <- Eg. tauto.
    + intros p q. rewrite (vi_refs _ _ _ _ _ Hi p q), (vi_valid _ _ _ _ _ Hi p), Hf, <- Eg. split; [|].
      * intros [Hr [Hv Hn]]. split; [done|]. tauto.
      * intros [Hr Hn]. split; [done|]. split; [apply (refers_valid ds _ _ _ Hr)|]. tauto.
    + rewrite (vi_errors _ _ _ _ _ Hi). setoid_rewrite Hf. setoid_rewrite Eh. by setoid_rewrite Hex.
  - destruct Hl as [-> (q & Hq)]. split; [done|]. exists q. by apply Es.
Qed.

(** *** One path's contents *)

(** What is decided of a path whose info and object can be read. *)
Lemma check_contents_modified `{L : HashLib} `{!HashLibLaws L} storeDir storeObject useCaseHack i info d s s1 :
  queryPathInfo storeDir i s = (Ok info, s1) ->
  dump_of (storeObject i) FileSerialisationMethod.NixArchive everything useCaseHack root = Ok d ->
  let a := algo (narHash info) in
  let null := mkHash (regularHashSize SHA256) (replicate maxHashSize (bZ 0)) SHA256 in
  let modified := negb (Hash_eqb (narHash info) null) && negb (Hash_eqb (narHash info) (hash_of a d)) in
  modified = true /\ check_contents storeDir storeObject useCaseHack i s = (Ok true, s1) \/
  modified = false /\ (Hash_eqb (narHash info) null = false -> narSize info <> 0%Z ->
    check_contents storeDir storeObject useCaseHack i s = (Ok false, s1)).
Proof.
  intros Hq Hd a null modified. unfold check_contents. rewrite new_Hash_Ok, slift_bind_Ok.
  rewrite (ST_bind_Ok _ _ _ _ _ Hq), hashPath_dump, Hd. cbn [fmap result_fmap]. rewrite slift_bind_Ok.
  cbn [hr_hash hash_result numBytesDigested]. fold null a. fold modified.
  destruct modified; [by left|]. right. split; [done|]. intros Hn Hs. rewrite Hn.
  by rewrite (proj2 (Z.eqb_neq _ _)) by done.
Qed.


Lemma example_store_acyclic : acyclic [ #"nix"; #"store"] (db example_store).
Proof.
  exact (@registerValidPaths_acyclic_lemma prefix_HashLib [ #"nix"; #"store"] 1700000000 example_infos empty_store example_store
           (empty_store_ok _) example_infos_wf (fun _ _ => empty_invalid _ _) (empty_acyclic _) example_registration).
Qed.


(** *** Two paths missing in a row *)

Definition third_path : StorePath := mkStorePath (replicate 32 "c"%char ++ #"-baz").
Definition chain_store : LocalStore :=
  (@registerValidPath prefix_HashLib #"/nix/store" 1700000000 (example_info third_path {[other_path]}) example_store).2.

(** Of a chain of three paths only the one that nothing refers to is on disk.
    The one in the middle is kept because of it; the last one is then found
    to have no referrer on disk, and its removal violates the foreign key: the
    verification throws instead of reporting the two. *)
Lemma verify_stuck :
  (@registerValidPath prefix_HashLib #"/nix/store" 1700000000 (example_info third_path {[other_path]}) example_store).1 = Ok () /\
  (verifyAllValidPaths #"/nix/store" [baseName third_path] chain_store).1 = Throw SQLiteError.
Proof. split; vm_compute; reflexivity. Qed.
