(* ===== verification/AddToStore.v ===== *)
(** * AddToStore: adding an archive to the store

    [LocalStore::addToStore] of libstore/local-store.cc: the calls on the
    disk, among other processes ([World]), and those on the database
    ([LocalStore]), which only this process changes meanwhile.  Locks and
    temporary roots have no effect here but on what the others leave alone;
    a collection [autoGC] starts is one of the others.  The calls
    [restorePath] makes are one step: what it writes is private to it until
    it returns, and when one of them fails it leaves [debris] there. *)

From S2P Require Export LocalStore References Restore Delete Optimise.
Local Open Scope Z_scope.

Record Adding := mkAdding { ad_opt : Opt; ad_store : LocalStore }.

Definition on_opt {A} : ST Opt A -> ST Adding A := zoom ad_opt (fun o s => mkAdding o (ad_store s)).
Definition on_store {A} : ST LocalStore A -> ST Adding A := zoom ad_store (fun l s => mkAdding (ad_opt s) l).
Definition on_calls {A} (m : ST World A) : ST Adding A := on_opt (on_world m).

(** ** Rows of the database after a registration *)

Section rows.
Context `{L : HashLib} (ds : list bytes) (now : Z).
Notation storeDir := (join_path ds).
Notation row_at := (row_at ds).
Notation valid := (LocalStore.valid ds).

(** The columns that tell what the archive of the path is. *)
Definition columns_of (i : ValidPathInfo) (r : Row) : Prop :=
  Hashing.to_string (narHash i) Base16 true = Ok (row_hash r) /\ row_narSize r = narSize_column i.

Lemma updatePathInfo_columns i s s' r :
  updatePathInfo storeDir i s = (Ok (), s') -> row_at (db s') (PathInfo.path i) r -> columns_of i r.
Proof using Type.
  unfold updatePathInfo, columns_of. destruct (Hashing.to_string (narHash i) Base16 true) as [h|] eqn:Hh; [|done].
  rewrite slift_bind_Ok. destruct (ca_column i) as [c|]; [|done]. rewrite slift_bind_Ok. intros [= <-] [Hr Hp].
  cbn [db UpdatePathInfo ValidPaths] in Hr. apply list_elem_of_fmap in Hr as (r0 & -> & _).
  case_decide as Hd; [done|]. by destruct Hd.
Qed.

Lemma register_one_rows i s :
  store_ok ds s -> wf_info i ->
  match register_one storeDir now i s with
  | (Ok _, s') =>
      store_ok ds s' /\ (forall q, valid (db s') q <-> valid (db s) q \/ q = PathInfo.path i) /\
      (forall q r, q <> PathInfo.path i -> row_at (db s') q r -> row_at (db s) q r) /\
      (forall r, row_at (db s') (PathInfo.path i) r -> columns_of i r)
  | (Throw _, _) => True
  end.
Proof using Type.
  intros Hs Hi. pose proof (register_one_spec ds now i s Hs Hi) as H.
  destruct (register_one storeDir now i s) as [[u|e] s'] eqn:He; [|done]. destruct H as (_ & Hs' & Hnew & Hv & _ & Hat).
  split; [done|]. split; [done|]. split.
  - intros q r Hq Hr. assert (valid (db s) q) as [r0 Hr0] by (assert (valid (db s') q) as [?| ->]%Hv by (by exists r); done).
    pose proof (Hat q r0 Hq Hr0) as Hr0'. by rewrite (row_at_unique ds _ _ _ _ (so_db _ _ Hs') Hr Hr0').
  - intros r Hr. destruct (decide (is_Some (QueryPathInfo (db s) (printStorePath storeDir (PathInfo.path i))))) as [Hq|Hq].
    + unfold register_one in He. rewrite bool_decide_true in He by apply Hi. cbn [assertb throw_if negb] in He.
      rewrite slift_bind_Ok in He. unfold isValidPath_ in He. rewrite from_db_bind, bool_decide_true in He by done.
      destruct u. by eapply updatePathInfo_columns.
    + rewrite <- (valid_Query ds) in Hq by apply Hs. destruct (Hnew Hq) as (r0 & Hr0 & (_ & Hh & _ & _ & Hn & _)).
      rewrite (row_at_unique ds _ _ _ _ (so_db _ _ Hs') Hr Hr0). done.
Qed.

Lemma registerValidPath_rows i s :
  store_ok ds s -> wf_info i ->
  match registerValidPath storeDir now i s with
  | (Ok _, s') =>
      store_ok ds s' /\ (forall q, valid (db s') q <-> valid (db s) q \/ q = PathInfo.path i) /\
      (forall q r, q <> PathInfo.path i -> row_at (db s') q r -> row_at (db s) q r) /\
      (forall r, row_at (db s') (PathInfo.path i) r -> columns_of i r)
  | (Throw _, s') => db s' = db s
  end.
Proof using Type.
  intros Hs Hi. pose proof (wf_single i Hi) as Hwf.
  pose proof (registerValidPaths_outcome ds now [(PathInfo.path i, i)] s Hs Hwf) as Hout.
  unfold registerValidPath. destruct (registerValidPaths storeDir now _ s) as [[u|e] s'] eqn:Hr; [|apply Hout].
  destruct Hout as (Hs' & _ & Hv & _). split; [done|].
  assert (forall q, registered [(PathInfo.path i, i)] q <-> q = PathInfo.path i) as Hreg.
  { intros q. split; [by intros (e & ->%list_elem_of_singleton & ->)|]. intros ->. eexists. split; [by apply list_elem_of_singleton|done]. }
  split; [intros q; by rewrite Hv, Hreg|]. unfold registerValidPaths, txn in Hr. cbn [sforeach snd] in Hr.
  pose proof (register_one_rows i s Hs Hi) as H1. unfold mbind, ST_bind in Hr.
  destruct (register_one storeDir now i s) as [[u1|e1] s1]; [|done]. destruct H1 as (Hs1 & Hv1 & Hold & Hnew). cbn [mret ST_ret] in Hr.
  pose proof (add_references_spec ds i s1 Hs1 (proj2 (Hv1 _) (or_intror eq_refl))) as H2.
  destruct (add_references storeDir i s1) as [[u2|e2] s2]; [|done]. destruct H2 as (_ & _ & Hat & _). cbn [mret ST_ret] in Hr.
  assert (db s' = db s2) as ->.
  { unfold slift in Hr. destruct (topoSort _ _) as [[l|cy]|e3]; cbn in Hr; first [discriminate Hr|by injection Hr as _ <-]. }
  split; [intros q r Hq Hr'; by apply Hold, Hat|]. intros r Hr'. by apply Hnew, Hat.
Qed.
End rows.

(** ** The operation *)

Section add.
Context `{L : HashLib}.
Context (env : nat -> Disk -> Disk) (refuses : nat -> option errc) (clock : nat -> Z).
Context (debris : nat -> Disk -> Disk).
(** The umask, the settings [preallocateContents] and [autoOptimiseStore],
    whether the file system preallocates, and whether the store directory
    grants a default access control list. *)
Context (umask : Z) (preallocateContents fallocate_supported autoOptimiseStore dirGrantsDefaultAcl : bool).
Context (ds realStoreDir : list bytes) (pid : Z) (fuel : nat).
(** The time of the registration. *)
Context (now : Z).
Notation storeDir := (join_path ds).

Definition toRealPath (p : StorePath) : list bytes := realStoreDir ++ [to_string p].

(** [restorePath] from a source; returns what it has not read. *)
Definition restore (path : list bytes) (canonical : bool) (source : bytes) : ST World bytes := fun w =>
  let k := w_tick w in
  let d := env k (w_disk w) in
  match refuses k with
  | Some _ => (Throw SystemError, mkWorld (debris k d) (S k))
  | None =>
      match restorePath (clock k) umask preallocateContents fallocate_supported false path canonical (renumbered d) source with
      | Ok (d', rest) => (Ok rest, mkWorld d' (S k))
      | Throw e => (Throw e, mkWorld (debris k d) (S k))
      end
  end.

(** A [HashSink] that is written what was read through the [TeeSource]. *)
Definition hash_read (source rest : bytes) : result HashResult :=
  h ← sink (HashSink_new SHA256) (take (length source - length rest) source);
  HashSink_finish h.

(** The content address of what is at the path of the object. *)
Definition actual_ca_hash (p : StorePath) (specified : ContentAddress) : ST World Hash :=
  sys_result env refuses clock (fun _ d =>
    caSink ← HashModuloSink_new (algo (ca_hash specified)) (hashPart p);
    caSink ← dumpPath_as (fs_accessor d (toRealPath p)) (serialisation_of (getFileIngestionMethod (method specified)))
               everything false root caSink;
    r ← HashModuloSink_finish caSink;
    Ok (hr_hash r, d)).

Definition canonicalise_object (canonicalRestore : bool) (realPath : list bytes) : ST World unit :=
  if canonicalRestore then canonicaliseTimestampAndPermissions env refuses clock realPath
  else canonicalisePathMetaData_ env refuses clock fuel realPath.

(** The part under the lock, when the path is to be added. *)
Definition add_object (info : ValidPathInfo) (source : bytes) (repair : bool) : ST Adding unit :=
  let realPath := toRealPath (PathInfo.path info) in
  let canonicalRestore := negb dirGrantsDefaultAcl in
  _ ← on_calls (deletePath env refuses clock fuel realPath);
  rest ← on_calls (restore realPath canonicalRestore source);
  hashResult ← slift (hash_read source rest);
  _ ← slift (throw_if (negb (Hash_eqb (hr_hash hashResult) (narHash info))) Error);
  _ ← slift (throw_if (negb (numBytesDigested hashResult =? narSize info)) Error);
  _ ← match ca info with
      | None => mret ()
      | Some specified =>
          actualHash ← on_calls (actual_ca_hash (PathInfo.path info) specified);
          slift (throw_if (negb (Hash_eqb (ca_hash specified) actualHash)) Error)
      end;
  _ ← on_calls (canonicalise_object canonicalRestore realPath);
  _ ← on_opt (optimisePath env refuses clock realStoreDir pid autoOptimiseStore fuel realPath repair);
  on_store (registerValidPath storeDir now info).

(** [addToStore(info, source, repair, checkSigs)] *)
Definition addToStore (info : ValidPathInfo) (source : bytes) (repair : bool) : ST Adding unit :=
  known ← (if repair then mret false else on_store (isValidPath storeDir (PathInfo.path info)));
  if known : bool then mret ()
  else
    known ← (if repair then mret false else on_store (isValidPathUncached storeDir (PathInfo.path info)));
    if known : bool then on_store (invalidatePathInfoCacheFor (PathInfo.path info))
    else add_object info source repair.

(** ** Integrity *)

Lemma actual_ca_hash_keeps I p c : (forall k d, I d -> I (env k d)) -> keeps w_disk I (actual_ca_hash p c) (fun _ => True).
Proof using Type. intros HI. apply keeps_result; [done|]. intros t d h d' Hd Hr. by inv_result. Qed.

Section integrity.
Context `{!HashLibLaws L} (Hds : Forall good ds).
Context (info : ValidPathInfo) (source : bytes) (Hinfo : wf_info info).
Context (Hsource : Z.of_nat (length source) <= max_off_t).
Notation own := (PathInfo.path info).

(** The objects that are protected, and what they show. *)
Context (object : StorePath -> Prop) (object_wf : forall p, object p -> wf_StorePath p).
Context (V : list bytes -> option File).
Definition other (n : bytes) : Prop := exists p, object p /\ p <> own /\ n = baseName p.
Definition ours (n : bytes) : Prop := n = baseName own \/ other n.
Context (V_object : forall p, object p -> p <> own -> is_Some (V (toRealPath p))).

Notation others := (object_path realStoreDir other).
Notation all_paths := (object_path realStoreDir ours).
Notation linksDir := (linksDir realStoreDir).
Notation tempLink := (tempLink realStoreDir pid).

(** The files of these objects and of the new one: different ones have
    different names in the farm. *)
Context (known : File -> Prop).
Context (known_ok : forall f, known f -> ok_file f /\ is_leaf f = true).
Context (known_names : forall f g n, known f -> known g -> link_name f = Ok n -> link_name g = Ok n -> f = g).
Context (V_known : forall p f, others p -> V p = Some f -> is_leaf f = true -> known f).
Context (new_known : forall f rest q g, source = archive f ++ rest -> ok_file f -> (height f <= narMaxDepth)%nat -> node_at f q = Some g -> is_leaf g = true -> known g).
Notation farm_ok := (farm_ok realStoreDir known).

(** What the other processes leave alone, and what a failed restore does. *)
Context (env_same : forall k d p, all_paths p -> view_at (env k d) p = view_at d p).
Context (env_farm : forall k d, farm_ok d -> farm_ok (env k d)).
Context (env_temp : forall k d c, view_at (env k d) (tempLink c) = view_at d (tempLink c)).
Context (env_shape : forall k d r, shape_at (env k d) (toRealPath own ++ r) = shape_at d (toRealPath own ++ r)).
Context (debris_apart : forall k d p, apart p (toRealPath own) -> view_at (debris k d) p = view_at d p).

Lemma baseName_head p c : wf_StorePath p -> head (baseName p) = Some c -> c <> "."%char.
Proof using Type.
  intros [[Hl Hh _] _] Hc. rewrite Forall_forall in Hh. destruct (baseName p) as [|x s]; [done|]. injection Hc as ->.
  destruct (hash_not_special c) as (_ & _ & ?); [|done]. apply Hh. left.
Qed.

Lemma wf_names_ok n : (exists p, wf_StorePath p /\ n = baseName p) -> n <> #".links" /\ forall k, realStoreDir ++ [n] <> tempLink k.
Proof using Type.
  intros (p & Hp & ->). split.
  - intros He. by eapply (baseName_head p "."%char); rewrite ?He.
  - intros k He%app_inv_head. injection He as He. by eapply (baseName_head p "."%char); rewrite ?He.
Qed.

Lemma ours_fine : ours_ok realStoreDir pid ours.
Proof using Hinfo object_wf.
  intros n Hn. apply wf_names_ok. destruct Hn as [->|(p & Hp & _ & ->)]; [exists own|exists p]; split; auto. apply Hinfo.
Qed.

Lemma others_ours p : others p -> all_paths p.
Proof using Type. intros (n & r & -> & Hn). exists n, r. split; [done|by right]. Qed.
Lemma own_path r : all_paths (toRealPath own ++ r).
Proof using Type. exists (baseName own), r. unfold toRealPath. split; [by rewrite <- app_assoc|by left]. Qed.

Lemma others_apart p : others p -> apart p (toRealPath own).
Proof using Type.
  intros (n & r & -> & q & _ & Hq & ->). apply apart_names. intros He. by apply Hq, (inj baseName).
Qed.
Lemma links_own n : apart (linksDir ++ [n]) (toRealPath own).
Proof using pid Hinfo object_wf.
  apply apart_sym, (object_links realStoreDir pid ours ours_fine). rewrite <- (app_nil_r (toRealPath own)). apply own_path.
Qed.

Lemma farm_apart d d' : farm_ok d -> (forall p, apart p (toRealPath own) -> view_at d' p = view_at d p) -> farm_ok d'.
Proof using pid Hinfo object_wf. intros Hf Hs n f. rewrite Hs by apply links_own. apply Hf. Qed.

(** *** Before the object is there *)

Notation Inv1 := (World.Inv others V farm_ok).

Lemma env_Inv1 k d : Inv1 d -> Inv1 (env k d).
Proof using env_same env_farm. intros [Hh Hf]. split; [|by apply env_farm]. intros p Hp. rewrite env_same by (by apply others_ours). by apply Hh. Qed.

Lemma Inv1_apart d d' : Inv1 d -> (forall p, apart p (toRealPath own) -> view_at d' p = view_at d p) -> Inv1 d'.
Proof using pid Hinfo object_wf. apply Inv_view; [apply others_apart|apply farm_apart]. Qed.

Lemma delete_own : keeps w_disk Inv1 (deletePath env refuses clock fuel (toRealPath own)) (fun _ => True).
Proof using pid Hinfo object_wf env_same env_farm env_shape.
  apply deletePath_keeps; [apply others_apart|apply farm_apart|apply env_Inv1|apply env_shape].
Qed.

(** What [restore] leaves: the file of the archive that was read. *)
Lemma restore_own canonical w :
  Inv1 (w_disk w) ->
  leads (restore (toRealPath own) canonical source) w
    (fun rest w' => Inv1 (w_disk w') /\
       exists f, source = archive f ++ rest /\ ok_file f /\ (height f <= narMaxDepth)%nat /\ view_at (w_disk w') (toRealPath own) = Some f)
    (fun _ w' => Inv1 (w_disk w')).
Proof using pid Hinfo Hsource object_wf env_same env_farm debris_apart.
  intros Hw. unfold leads, restore. apply (env_Inv1 (w_tick w)) in Hw. set (d := env (w_tick w) (w_disk w)) in *.
  assert (Inv1 (debris (w_tick w) d)) as Hdeb by (apply (Inv1_apart d); [done|apply debris_apart]).
  destruct (refuses (w_tick w)); [done|]. destruct (renumbered_ok d) as [Hok Hnum].
  destruct (restorePath _ _ _ _ _ _ _ _ _) as [[d' rest]|e] eqn:Hr; [|done].
  apply restorePath_Ok in Hr as (m & t & es & f & x & Hl & _ & Hs & Hf & Hh & Ha & Hv); [|by apply wf_StorePath_good, Hinfo|done|done].
  cbn [w_disk]. split.
  - apply (Inv1_apart d); [done|]. intros p Hp. by apply (added_apart (clock (w_tick w)) realStoreDir (to_string own) x (renumbered d)).
  - exists f. split; [done|]. split; [done|]. split; [done|]. unfold toRealPath. erewrite view_at_lookup; [exact Hv|]. by eapply added_lookup.
Qed.

Lemma hash_read_archive f rest :
  source = archive f ++ rest -> hash_read source rest = Ok (hash_result SHA256 (archive f)).
Proof using L HashLibLaws0.
  intros Hs. unfold hash_read. assert (take (length source - length rest) source = archive f) as ->.
  { rewrite Hs, length_app, Nat.add_sub, take_app_length. done. }
  destruct (digests_sink SHA256 _ [] (archive f) (digests_new SHA256)) as (h & -> & Hh). by apply digests_finish.
Qed.

(** *** Once it is there *)

Notation a_disk := (fun s => w_disk (o_world (ad_opt s))).

(** Calls that keep an invariant of the disk, and the database. *)
Definition framed {A} (I : Disk -> Prop) (m : ST Adding A) : Prop := forall s, I (a_disk s) ->
  leads m s (fun _ s' => I (a_disk s') /\ ad_store s' = ad_store s) (fun _ s' => I (a_disk s') /\ ad_store s' = ad_store s).

Lemma framed_opt {A} I (m : ST Opt A) : keeps (fun s => w_disk (o_world s)) I m (fun _ => True) -> framed I (on_opt m).
Proof using Type.
  intros Hm s Hs. apply leads_zoom. eapply leads_mono; [by apply Hm| |done]. intros a o [Ho _]. done.
Qed.
Lemma framed_calls {A} I (m : ST World A) : keeps w_disk I m (fun _ => True) -> framed I (on_calls m).
Proof using Type. intros Hm. apply framed_opt. by apply (keeps_zoom _ _ w_disk). Qed.
Lemma framed_bind {A B} I (m : ST Adding A) (f : A -> ST Adding B) : framed I m -> (forall a, framed I (f a)) -> framed I (m ≫= f).
Proof using Type.
  intros Hm Hf s Hs. apply leads_bind. eapply leads_mono; [by apply Hm| |done].
  intros a s' [Hs' <-]. by apply Hf.
Qed.
Lemma framed_lift {A} I (r : result A) : framed I (slift r).
Proof using Type. intros s Hs. unfold leads, slift. by destruct r. Qed.

Section present.
Context (d1 : Disk) (f : File) (rest : bytes) (Hd1 : Inv1 d1) (Hf : view_at d1 (toRealPath own) = Some f) (Hread : source = archive f ++ rest)
  (Hok : ok_file f) (Hdepth : (height f <= narMaxDepth)%nat).
Notation V1 := (view_at d1).
Notation Inv2 := (World.Inv all_paths V1 farm_ok).

Lemma V1_known p g : all_paths p -> V1 p = Some g -> is_leaf g = true -> known g.
Proof using d1 f rest Hd1 Hf Hread Hok Hdepth V_known new_known.
  intros (n & r & -> & [->|Hn]) Hg Hl.
  - apply (new_known f rest r); [done|done|done| |done]. rewrite <- Hg. symmetry. rewrite <- (view_at_below _ _ _ r Hf).
    unfold toRealPath. by rewrite <- app_assoc.
  - assert (others (realStoreDir ++ n :: r)) as Ho by (by exists n, r). apply (V_known _ _ Ho); [|done].
    by rewrite <- (proj1 Hd1 _ Ho).
Qed.

Lemma env_Inv2 k d : Inv2 d -> Inv2 (env k d).
Proof using env_same env_farm. intros [Hh Hfm]. split; [|by apply env_farm]. intros p Hp. rewrite env_same by done. by apply Hh. Qed.

Lemma Inv2_Inv1 d : Inv2 d -> Inv1 d /\ view_at d (toRealPath own) = Some f.
Proof using d1 f Hd1 Hf.
  intros [Hh Hfm]. split.
  - split; [|done]. intros p Hp. rewrite Hh by (by apply others_ours). by apply (proj1 Hd1).
  - rewrite Hh; [done|]. rewrite <- (app_nil_r (toRealPath own)). apply own_path.
Qed.

Lemma own_all : all_paths (toRealPath own).
Proof using Type. rewrite <- (app_nil_r (toRealPath own)). apply own_path. Qed.

Lemma canonicalise_object_keeps b : keeps w_disk Inv2 (canonicalise_object b (toRealPath own)) (fun _ => True).
Proof using env_same env_farm.
  unfold canonicalise_object. destruct b.
  - apply canonicalise_keeps; [apply farm_same|apply env_Inv2|apply own_all].
  - apply canonicalisePath_keeps; [apply farm_same|apply env_Inv2| |apply own_all]. intros p c. apply object_below.
Qed.


Lemma optimise_object_keeps repair :
  keeps (fun s => w_disk (o_world s)) Inv2
    (optimisePath env refuses clock realStoreDir pid autoOptimiseStore fuel (toRealPath own) repair) (fun _ => True).
Proof using pid L HashLibLaws0 Hinfo object_wf known_ok known_names V_known new_known env_same env_farm env_temp Hd1 Hf Hread Hok Hdepth.
  unfold optimisePath. destruct autoOptimiseStore; [|by apply keeps_ret].
  eapply keeps_bind; [by apply keeps_modify|]. intros _ _.
  apply (optimisePath_keeps env refuses clock realStoreDir pid ours ours_fine known known_ok known_names V1 V1_known env_Inv2 env_temp);
    [apply own_all|done|lia|done].
Qed.

(** From the hash of what was read to the registration. *)
Lemma checked_object repair s :
  Inv2 (a_disk s) ->
  leads (hashResult ← slift (hash_read source rest);
         _ ← slift (throw_if (negb (Hash_eqb (hr_hash hashResult) (narHash info))) Error);
         _ ← slift (throw_if (negb (numBytesDigested hashResult =? narSize info)) Error);
         _ ← match ca info with
             | None => mret ()
             | Some specified =>
                 actualHash ← on_calls (actual_ca_hash own specified);
                 slift (throw_if (negb (Hash_eqb (ca_hash specified) actualHash)) Error)
             end;
         _ ← on_calls (canonicalise_object (negb dirGrantsDefaultAcl) (toRealPath own));
         _ ← on_opt (optimisePath env refuses clock realStoreDir pid autoOptimiseStore fuel (toRealPath own) repair);
         on_store (registerValidPath storeDir now info)) s
    (fun _ s' => Inv2 (a_disk s') /\ registerValidPath storeDir now info (ad_store s) = (Ok (), ad_store s') /\
       narHash info = hash_of SHA256 (archive f) /\ narSize info = u64 (Z.of_nat (length (archive f))))
    (fun _ s' => Inv2 (a_disk s') /\
       (ad_store s' = ad_store s \/ exists e, registerValidPath storeDir now info (ad_store s) = (Throw e, ad_store s'))).
Proof using pid L HashLibLaws0 Hinfo object_wf known_ok known_names V_known new_known env_same env_farm env_temp Hd1 Hf Hread Hok Hdepth.
  intros Hs. rewrite (hash_read_archive f rest Hread). apply leads_bind. unfold leads at 1, slift. cbn [hash_result hr_hash numBytesDigested].
  apply leads_bind. unfold leads at 1, slift. destruct (Hash_eqb _ _) eqn:Hh; [|cbn; by auto]. cbn [negb throw_if].
  apply leads_bind. unfold leads at 1, slift. destruct (Z.eqb_spec (u64 (Z.of_nat (length (archive f)))) (narSize info)) as [Hn|]; [|cbn; by auto]. cbn [negb throw_if].
  assert (narHash info = hash_of SHA256 (archive f)) as Hhash.
  { symmetry. destruct (hashString_Ok SHA256 (archive f)) as (h & He & Hw & Ha & _). rewrite hashString_hash_of in He. injection He as <-.
    apply Hash_eqb_eq; [done|apply Hinfo| |done]. rewrite Ha. symmetry. apply Hinfo. }
  assert (forall (m k : ST Adding unit), framed Inv2 m ->
    (forall s1, Inv2 (a_disk s1) -> ad_store s1 = ad_store s -> leads k s1
       (fun _ s' => Inv2 (a_disk s') /\ registerValidPath storeDir now info (ad_store s) = (Ok (), ad_store s') /\
          narHash info = hash_of SHA256 (archive f) /\ narSize info = u64 (Z.of_nat (length (archive f))))
       (fun _ s' => Inv2 (a_disk s') /\
          (ad_store s' = ad_store s \/ exists e, registerValidPath storeDir now info (ad_store s) = (Throw e, ad_store s')))) ->
    forall s1, Inv2 (a_disk s1) -> ad_store s1 = ad_store s -> leads (_ ← m; k) s1
       (fun _ s' => Inv2 (a_disk s') /\ registerValidPath storeDir now info (ad_store s) = (Ok (), ad_store s') /\
          narHash info = hash_of SHA256 (archive f) /\ narSize info = u64 (Z.of_nat (length (archive f))))
       (fun _ s' => Inv2 (a_disk s') /\
          (ad_store s' = ad_store s \/ exists e, registerValidPath storeDir now info (ad_store s) = (Throw e, ad_store s')))) as Hstep.
  { intros m k Hm Hk s1 Hs1 He. apply leads_bind. eapply leads_mono; [by apply Hm| |].
    - intros u s2 [Hs2 He2]. apply Hk; [done|congruence].
    - intros e s2 [Hs2 He2]. split; [done|]. left. congruence. }
  apply Hstep; [| |done|done].
  { destruct (ca info) as [c|]; [|apply (framed_lift _ (Ok ()))]. apply framed_bind; [by apply framed_calls, actual_ca_hash_keeps, env_Inv2|].
    intros h. apply framed_lift. }
  apply Hstep; [by apply framed_calls, canonicalise_object_keeps|].
  apply Hstep; [by apply framed_opt, optimise_object_keeps|].
  intros s1 Hs1 He. apply leads_zoom. unfold leads. rewrite He.
  destruct (registerValidPath storeDir now info (ad_store s)) as [[[]|e] l]; cbn [ad_opt ad_store]; [done|]. split; [done|]. right. by exists e.
Qed.
End present.

(** What the columns of the row tell of the object. *)
Definition registered_as (st st' : LocalStore) (f : File) : Prop :=
  registerValidPath storeDir now info st = (Ok (), st') /\
  narHash info = hash_of SHA256 (archive f) /\ narSize info = u64 (Z.of_nat (length (archive f))).

Lemma add_object_spec repair s :
  Inv1 (a_disk s) ->
  leads (add_object info source repair) s
    (fun _ s' => Inv1 (a_disk s') /\
       exists f, view_at (a_disk s') (toRealPath own) = Some f /\ registered_as (ad_store s) (ad_store s') f)
    (fun _ s' => Inv1 (a_disk s') /\
       (ad_store s' = ad_store s \/ exists e, registerValidPath storeDir now info (ad_store s) = (Throw e, ad_store s'))).
Proof using pid L HashLibLaws0 Hinfo Hsource object_wf known_ok known_names V_known new_known env_same env_farm env_temp env_shape debris_apart.
  intros Hs. unfold add_object. apply leads_bind.
  eapply leads_mono; [by apply (framed_calls Inv1); [apply delete_own|]| |by intros e s' [? ?]; auto].
  intros u s1 [Hs1 He1]. apply leads_bind, leads_zoom, leads_zoom.
  eapply leads_mono; [by apply restore_own| |by intros e w Hw; cbn; auto].
  intros rest w [Hw (f & Hread & Hok & Hdepth & Hv)]. set (s2 := mkAdding _ _). change w with (o_world (ad_opt s2)) in Hw, Hv.
  replace (ad_store s) with (ad_store s2) by done.
  eapply leads_mono; [apply (checked_object (w_disk w) f rest Hw Hv Hread Hok Hdepth repair s2)| |].
  - split; [by intros p _|apply Hw].
  - intros u' s' [Hi Hreg]. apply (Inv2_Inv1 _ f Hw Hv) in Hi as [Hi Hv']. split; [done|]. by exists f.
  - intros e s' [Hi Hreg]. by apply (Inv2_Inv1 _ f Hw Hv) in Hi as [Hi _].
Qed.
End integrity.

Lemma isValidPath_quiet p st :
  store_ok ds st -> exists b st', isValidPath storeDir p st = (Ok b, st') /\ db st' = db st /\ store_ok ds st'.
Proof using Type.
  intros [Hdb Hc]. unfold isValidPath. destruct (LRUCache.get_spec (pathInfoCache st) p Hc) as [Hc' _].
  unfold mbind, ST_bind, cache_get. destruct (LRUCache.get (pathInfoCache st) p) as [[v|] c]; eexists _, _; (split; [reflexivity|]); done.
Qed.

(** The row of a path tells what is on disk. *)
Definition intact (d : Disk) (p : StorePath) (r : Row) : Prop :=
  exists f, view_at d (toRealPath p) = Some f /\
    Hashing.to_string (hash_of SHA256 (archive f)) Base16 true = Ok (row_hash r) /\
    u64 (default 0 (row_narSize r)) = u64 (Z.of_nat (length (archive f))).

Notation disk_of s := (w_disk (o_world (ad_opt s))).
Notation db_of s := (db (ad_store s)).
Notation valid_in s := (LocalStore.valid ds (db_of s)).

Section outcome.
Context `{!HashLibLaws L} (info : ValidPathInfo) (source : bytes) (repair : bool) (s : Adding) (known : File -> Prop).
Notation own := (PathInfo.path info).
Context (Hinfo : wf_info info) (Hsource : Z.of_nat (length source) <= max_off_t) (Hstore : store_ok ds (ad_store s)).
(** The cache does not claim the path to be valid when it is not. *)
Context (Hcache : (isValidPath storeDir own (ad_store s)).1 = Ok true -> valid_in s own).
(** Every valid path is intact, and the farm true. *)
Context (Hintact : forall p r, row_at ds (db_of s) p r -> intact (disk_of s) p r).
Context (Hfarm : farm_ok realStoreDir known (disk_of s)).
(** The files of the store and of the archive: different ones have different
    names in the farm. *)
Context (known_ok : forall f, known f -> ok_file f /\ is_leaf f = true).
Context (known_names : forall f g n, known f -> known g -> link_name f = Ok n -> link_name g = Ok n -> f = g).
Context (known_old : forall p q g, valid_in s p -> view_at (disk_of s) (toRealPath p ++ q) = Some g -> is_leaf g = true -> known g).
Context (known_new : forall f rest q g, source = archive f ++ rest -> ok_file f -> (height f <= narMaxDepth)%nat -> node_at f q = Some g -> is_leaf g = true -> known g).
(** What the other processes leave alone, and where a failed restore leaves
    debris. *)
Context (env_objects : forall k d p q, valid_in s p \/ p = own -> view_at (env k d) (toRealPath p ++ q) = view_at d (toRealPath p ++ q)).
Context (env_farm : forall k d, farm_ok realStoreDir known d -> farm_ok realStoreDir known (env k d)).
Context (env_temp : forall k d c, view_at (env k d) (tempLink realStoreDir pid c) = view_at d (tempLink realStoreDir pid c)).
Context (env_shape : forall k d q, shape_at (env k d) (toRealPath own ++ q) = shape_at d (toRealPath own ++ q)).
Context (debris_apart : forall k d p, apart p (toRealPath own) -> view_at (debris k d) p = view_at d p).

Notation before := (fun p => valid_in s p).
Notation Inv0 := (World.Inv (object_path realStoreDir (other info before)) (view_at (disk_of s)) (farm_ok realStoreDir known)).

(** What holds when the call returns, and when it throws. *)
Definition returned (s' : Adding) : Prop :=
  (forall p r, row_at ds (db_of s') p r -> intact (disk_of s') p r) /\ forall p, valid_in s' p <-> valid_in s p \/ p = own.
Definition thrown (s' : Adding) : Prop :=
  (forall p r, row_at ds (db_of s') p r -> (repair = true -> p <> own) -> intact (disk_of s') p r) /\ db_of s' = db_of s.

Lemma old_intact p s' r : p <> own -> Inv0 (disk_of s') -> row_at ds (db_of s) p r -> intact (disk_of s') p r.
Proof using Hintact.
  intros Hp [Hh _] Hr. destruct (Hintact p r Hr) as (f & Hf & Hrest). exists f. split; [|done]. rewrite Hh; [done|].
  exists (baseName p), []. split; [done|]. exists p. split; [by exists r|done].
Qed.

Lemma env_ours k d p : object_path realStoreDir (ours info before) p -> view_at (env k d) p = view_at d p.
Proof using env_objects.
  intros (n & q & -> & Hn).
  assert (forall x, valid_in s x \/ x = own -> view_at (env k d) (realStoreDir ++ baseName x :: q) = view_at d (realStoreDir ++ baseName x :: q)) as H.
  { intros x Hx. pose proof (env_objects k d x q Hx) as He. unfold toRealPath, StorePath.to_string in He. by rewrite <- app_assoc in He. }
  destruct Hn as [->|(x & Hx & _ & ->)]; auto.
Qed.

Lemma others_known p f :
  object_path realStoreDir (other info before) p -> view_at (disk_of s) p = Some f -> is_leaf f = true -> known f.
Proof using known_old.
  intros (n & q & -> & x & Hx & _ & ->) Hv Hl. apply (known_old x q f Hx); [|done]. unfold toRealPath. by rewrite <- app_assoc.
Qed.

Lemma rows_returned st s' f :
  db_of st = db_of s -> store_ok ds (ad_store st) -> Inv0 (disk_of s') -> view_at (disk_of s') (toRealPath own) = Some f ->
  registered_as info (ad_store st) (ad_store s') f -> returned s'.
Proof using Hinfo Hintact.
  intros Hdb Hok Hi Hf (Hreg & Hh & Hn). pose proof (registerValidPath_rows ds now info (ad_store st) Hok Hinfo) as Hrows.
  rewrite Hreg in Hrows. destruct Hrows as (_ & Hv & Hrest & Hown). split; [|intros p; by rewrite Hv, Hdb].
  intros p r Hr. destruct (decide (p = own)) as [->|Hp]; [|apply (old_intact p s' r Hp Hi); rewrite <- Hdb; by apply Hrest].
  destruct (Hown r Hr) as [Hc1 Hc2]. exists f. split; [done|]. split; [by rewrite <- Hh|].
  rewrite Hc2, narSize_read; [done|]. rewrite Hn. by apply Z.mod_pos_bound.
Qed.

Lemma rows_thrown st s' :
  db_of st = db_of s -> store_ok ds (ad_store st) -> (repair = false -> ~ valid_in s own) -> Inv0 (disk_of s') ->
  (ad_store s' = ad_store st \/ exists e, registerValidPath storeDir now info (ad_store st) = (Throw e, ad_store s')) -> thrown s'.
Proof using Hinfo Hintact.
  intros Hdb Hok Hnew Hi Hreg. assert (db_of s' = db_of s) as Hdb'.
  { destruct Hreg as [->|(e' & Hreg)]; [done|]. pose proof (registerValidPath_rows ds now info (ad_store st) Hok Hinfo) as Hrows.
    rewrite Hreg in Hrows. by rewrite Hrows. }
  split; [|done]. rewrite Hdb'. intros p r Hr Hp. apply (old_intact p s' r); [|done|done]. intros ->.
  destruct repair; [by apply Hp|]. apply Hnew; [done|]. by exists r.
Qed.

Lemma add_outcome st :
  ad_opt st = ad_opt s -> db_of st = db_of s -> store_ok ds (ad_store st) -> (repair = false -> ~ valid_in s own) ->
  leads (add_object info source repair) st (fun _ => returned) (fun _ => thrown).
Proof using HashLibLaws0 Hinfo Hsource Hstore Hintact Hfarm known_ok known_names known_old known_new
    env_objects env_farm env_temp env_shape debris_apart.
  intros Hop Hdb Hok Hnew.
  assert (Inv0 (disk_of st)) as Hinv by (rewrite Hop; split; [by intros p _|done]).
  eapply leads_mono; [exact (add_object_spec info source Hinfo Hsource before
      (fun p Hp => valid_wf ds (db_of s) p (so_db _ _ Hstore) Hp) (view_at (disk_of s)) known known_ok known_names
      others_known known_new env_ours env_farm env_temp env_shape debris_apart repair st Hinv)| |].
  - intros _ s' (Hi & f & Hf & Hreg). by eapply (rows_returned st).
  - intros e s' (Hi & Hreg). by apply (rows_thrown st).
Qed.

(** A path that is said to be valid: nothing happens. *)
Lemma said_valid st : ad_opt st = ad_opt s -> db_of st = db_of s -> valid_in s own -> returned st.
Proof using Hintact.
  intros Hop Hdb Hv. unfold returned. rewrite Hop, Hdb. split; [done|]. intros p. split; [auto|]. by intros [?| ->].
Qed.

Lemma addToStore_outcome : leads (addToStore info source repair) s (fun _ => returned) (fun _ => thrown).
Proof using HashLibLaws0 Hinfo Hsource Hstore Hcache Hintact Hfarm known_ok known_names known_old known_new
    env_objects env_farm env_temp env_shape debris_apart.
  pose proof add_outcome as Hadd. unfold addToStore. destruct repair eqn:Hrep.
  { apply leads_bind, (Hadd s); done. }
  destruct (isValidPath_quiet own (ad_store s) Hstore) as (b & st' & Hq & Hdb & Hok). rewrite Hq in Hcache.
  apply leads_bind, leads_zoom. unfold leads. rewrite Hq. destruct b; cbn [fst] in Hcache.
  { apply said_valid; [done|done|by apply Hcache]. }
  apply leads_bind, leads_zoom. unfold leads at 1. unfold isValidPathUncached, isValidPath_, from_db. cbn [ad_store ad_opt].
  case_bool_decide as Hv; cbn [ad_store ad_opt].
  - assert (valid_in s own) as Hv' by (rewrite <- Hdb; by apply (valid_Query ds), Hv; apply Hok).
    apply leads_zoom. unfold leads, invalidatePathInfoCacheFor, set_cache. by apply said_valid.
  - apply (Hadd (mkAdding (ad_opt s) st')); [done|done|done|]. intros _ Hv'. apply Hv. apply (valid_Query ds); [apply Hok|]. by rewrite Hdb.
Qed.

End outcome.
End add.

(** An empty store, and an archive to add to it. *)
Definition bare_store : Adding :=
  mkAdding (mkOpt (mkWorld (mkDisk (NDir 0x1ED 1 [(#"s", NDir 0x1ED 1 [(#".links", NDir 0x1ED 1 [])])]) ∅ 0) 0) ∅ false 0 0 0) empty_store.
Definition one_file : File := Regular false #"x".
Definition one_info : ValidPathInfo :=
  mkInfo #"/nix/store" None (@hash_of prefix_HashLib SHA256 (archive one_file)) ∅ 1700000000
    (u64 (Z.of_nat (length (archive one_file)))) false ∅ None example_path.

