(* ===== verification/AddFromDump.v ===== *)
(** * AddFromDump: adding a dump to the store

    [LocalStore::addToStoreFromDump] and [LocalStore::createTempDirInStore] of
    libstore/local-store.cc, with [createTempDir], [makeTempPath],
    [writeFile] and [moveFile] of libutil/file-system.cc: an object whose path
    is not known before its contents are.  What fits in a buffer is hashed
    there; what does not is restored to a temporary directory of the store
    while it is hashed, and moved to the path it turns out to have.  As in
    [AddToStore], restoring is one step, and so is hashing what is at a path. *)

From S2P Require Export AddToStore.
Local Open Scope Z_scope.

(** ** Reading into the buffer *)

(** [constexpr size_t chunkSize = 65536] *)
Definition chunkSize : nat := Nat.pow 2 16.

(** The loop that fills the buffer: whether the source ended, what was read
    and what was not. *)
Fixpoint fill_buffer (narBufferSize fuel : nat) (dump source : bytes) : bool * bytes * bytes :=
  match fuel with
  | O => (false, dump, source)
  | S fuel =>
      if (length dump <? narBufferSize)%nat then
        let want := (chunkSize `min` (narBufferSize - length dump))%nat in
        match source with
        | [] => (true, dump, [])
        | _ => fill_buffer narBufferSize fuel (dump ++ take want source) (drop want source)
        end
      else (false, dump, source)
  end.

Lemma fill_buffer_eq narBufferSize fuel : forall dump source,
  (length source < fuel)%nat -> (length dump <= narBufferSize)%nat ->
  fill_buffer narBufferSize fuel dump source =
    ((length dump + length source <? narBufferSize)%nat,
     take narBufferSize (dump ++ source), drop narBufferSize (dump ++ source)).
Proof.
  assert (0 < chunkSize)%nat as Hc by (apply Nat.ltb_lt; vm_compute; reflexivity).
  induction fuel as [|fuel IH]; intros dump source Hf Hd; [lia|]. cbn [fill_buffer].
  destruct (Nat.ltb_spec (length dump) narBufferSize) as [Hl|Hl].
  - set (want := (chunkSize `min` (narBufferSize - length dump))%nat). assert (0 < want)%nat as Hw by (unfold want; lia).
    destruct source as [|c source].
    + rewrite app_nil_r, take_ge, drop_ge by lia. f_equal. f_equal. symmetry. apply Nat.ltb_lt. cbn. lia.
    + rewrite IH; rewrite ?length_drop, ?length_app, ?length_take; [|cbn [length] in *; lia|unfold want; lia].
      rewrite <- app_assoc, take_drop. do 2 f_equal. apply eq_true_iff_eq. rewrite !Nat.ltb_lt. unfold want. cbn [length]. lia.
  - assert (length dump = narBufferSize) as <- by lia. rewrite take_app_length, drop_app_length. f_equal. f_equal.
    symmetry. apply Nat.ltb_ge. lia.
Qed.

(** ** Files *)

Section files.
Context (now umask : Z).

(** The loop of [writeFile]: what is read at a time is written. *)
Fixpoint write_pieces (fuel : nat) (i offset : nat) (source : bytes) (d : Disk) : result Disk :=
  match fuel, source with
  | _, [] => Ok d
  | O, _ => Throw AssertFailed
  | S fuel, _ =>
      let piece := take chunkSize source in
      d ← pwrite now i offset piece d;
      write_pieces fuel i (offset + length piece) (drop chunkSize source) d
  end.

(** [openNewFileForWrite] with [O_CREAT | O_TRUNC | O_NOFOLLOW] *)
Definition openNewFileForWrite (path : list bytes) (mode : Z) (d : Disk) : result (nat * Disk) :=
  match lookup_path d path with
  | None => name ← from_opt SystemError (last path); create_excl now (removelast path) name (masked umask mode) d
  | Some (NLeaf i) => d ← with_file i (fun _ m _ => mkInode (LRegular [] m) now) d; Ok (i, d)
  | Some (NDir _ _ _) => Throw SystemError
  end.

(** [writeFile(path, source, mode, sync, FinalSymlink::DontFollow)] *)
Definition writeFile (path : list bytes) (source : bytes) (mode : Z) (d : Disk) : result Disk :=
  '(i, d) ← openNewFileForWrite path mode d;
  write_pieces (S (length source)) i 0 source d.
End files.

(** [info.narSize = n] *)
Definition set_narSize (n : Z) (i : ValidPathInfo) : ValidPathInfo :=
  mkInfo (info_storeDir i) (deriver i) (narHash i) (references i) (registrationTime i) n (ultimate i) (sigs i) (ca i) (PathInfo.path i).

(** ** The operation *)

Section dump.
Context `{L : HashLib}.
Context (env : nat -> Disk -> Disk) (refuses : nat -> option errc) (clock : nat -> Z).
(** What a failed restore leaves; which calls of [flock] are interrupted; and
    the counter of temporary names, which other threads advance too. *)
Context (debris : nat -> list bytes -> Disk -> Disk) (interrupted : nat -> bool) (counter : nat -> Z).
Context (umask : Z) (preallocateContents fallocate_supported autoOptimiseStore dirGrantsDefaultAcl : bool).
Context (narBufferSize : nat).
Context (ds realStoreDir : list bytes) (pid : Z) (fuel : nat).
Context (now : Z).
Notation storeDir := (join_path ds).
Notation toRealPath := (toRealPath realStoreDir).

(** [makeTempPath] *)
Definition makeTempPath (root : list bytes) (suffix : bytes) (n : Z) : list bytes :=
  root ++ [suffix ++ #"-" ++ dec pid ++ #"-" ++ dec n].

Definition sys_mkdir (path : list bytes) (mode : Z) : ST World (errc + unit) :=
  sys env refuses clock (fun now d =>
    match lookup_path d path, last path with
    | Some _, _ => inl file_exists
    | None, None => inl no_such_file_or_directory
    | None, Some name =>
        match mkdirat now (removelast path) name (masked umask mode) d with
        | Ok d => inr ((), d)
        | Throw _ => inl no_such_file_or_directory
        end
    end).

(** [fuel] bounds the names that are taken. *)
Fixpoint createTempDir (fuel : nat) (tmpRoot : list bytes) (prefix : bytes) (mode : Z) : ST World (list bytes) :=
  match fuel with
  | O => slift (Throw AssertFailed)
  | S fuel =>
      k ← gets w_tick;
      let tmpDir := makeTempPath tmpRoot prefix (counter k) in
      r ← sys_mkdir tmpDir mode;
      match r with
      | inr () => mret tmpDir
      | inl file_exists => createTempDir fuel tmpRoot prefix mode
      | inl _ => slift (Throw SystemError)
      end
  end.

(** [lockFile(desc, ltWrite, true)]: false when it is interrupted. *)
Definition lockFile_wait : ST World bool :=
  k ← gets w_tick;
  _ ← or_throw (sys env refuses clock (fun _ d => inr ((), d)));
  mret (negb (interrupted k)).

(** The loop; returns the directory and whether its descriptor is valid. *)
Fixpoint createTempDirInStore_ (fuel : nat) (lockedByUs : bool) : ST World (list bytes * bool) :=
  match fuel with
  | O => slift (Throw AssertFailed)
  | S fuel' =>
      tmpDirFn ← createTempDir fuel realStoreDir #"tmp" 0x1C0;
      r ← open_directory env refuses clock tmpDirFn;
      let opened := match r with inl _ => false | inr () => true end in
      lockedByUs ← (if opened then lockFile_wait else mret lockedByUs);
      st ← maybe_lstat env refuses clock tmpDirFn;
      if negb (match st with Some _ => true | None => false end) || negb lockedByUs
      then createTempDirInStore_ fuel' lockedByUs
      else mret (tmpDirFn, opened)
  end.
Definition createTempDirInStore : ST World (list bytes * bool) := createTempDirInStore_ fuel false.

(** [moveFile]; source and destination are on one file system ([EXDEV]). *)
Definition moveFile (oldName newName : list bytes) : ST World unit :=
  r ← sys_rename env refuses clock oldName newName;
  match r with
  | inr () => mret ()
  | inl _ =>
      temp ← createTempDir fuel (removelast newName) #"rename-tmp" 0x1ED;
      r ← sys_rmdir env refuses clock temp;
      match r with
      | inl no_such_file_or_directory | inr () => mret ()
      | inl _ => slift (Throw SystemError)
      end
  end.

(** [restorePathCapturingHashes] without hashes to capture; returns what it
    has not read. *)
Definition restorePath_as (t : Z) (path : list bytes) (method : FileSerialisationMethod.t) (canonical : bool)
    (source : bytes) (d : Disk) : result (Disk * bytes) :=
  match method with
  | FileSerialisationMethod.Flat => d ← writeFile t umask path source 0x1B6 d; Ok (d, [])
  | FileSerialisationMethod.NixArchive => restorePath t umask preallocateContents fallocate_supported false path canonical d source
  end.
Definition restore_as (path : list bytes) (method : FileSerialisationMethod.t) (canonical : bool) (source : bytes) : ST World bytes := fun w =>
  let k := w_tick w in
  let d := env k (w_disk w) in
  match refuses k with
  | Some _ => (Throw SystemError, mkWorld (debris k path d) (S k))
  | None =>
      match restorePath_as (clock k) path method canonical source (renumbered d) with
      | Ok (d', rest) => (Ok rest, mkWorld d' (S k))
      | Throw e => (Throw e, mkWorld (debris k path d) (S k))
      end
  end.

(** [hashPath] and [dumpPath] of a path on disk. *)
Definition hash_at (path : list bytes) (method : FileSerialisationMethod.t) (a : HashAlgorithm) : ST World HashResult :=
  sys_result env refuses clock (fun _ d =>
    r ← hashPath (fs_accessor d path) method a everything false root; Ok (r, d)).

(** The sink that is written what is read through the [TeeSource]. *)
Definition hash_stream (a : HashAlgorithm) (data : bytes) : result HashResult :=
  h ← sink (HashSink_new a) data; HashSink_finish h.

Section operation.
Context (name : bytes) (dumpMethod : FileSerialisationMethod.t) (hashMethod : ContentAddressMethod.t) (hashAlgo : HashAlgorithm).
Context (references : StorePathSet) (repair : bool).

Definition methodsMatch : bool := bool_decide (dumpMethod = serialisation_of (getFileIngestionMethod hashMethod)).
Definition canonicalRestore : bool := bool_decide (dumpMethod = FileSerialisationMethod.NixArchive) && negb dirGrantsDefaultAcl.

(** What is done with the object once it is at its path. *)
Definition register_dumped (dumpHash : HashResult) (desc : ContentAddressWithReferences) (dstPath : StorePath) : ST Adding unit :=
  let realPath := toRealPath dstPath in
  narHash ← (if bool_decide (dumpMethod <> FileSerialisationMethod.NixArchive) || bool_decide (hashAlgo <> SHA256)
             then on_calls (hash_at realPath FileSerialisationMethod.NixArchive SHA256)
             else mret dumpHash);
  _ ← on_calls (canonicalise_object env refuses clock fuel canonicalRestore realPath);
  _ ← on_opt (optimisePath env refuses clock realStoreDir pid autoOptimiseStore fuel realPath repair);
  info ← slift (makeFromCA storeDir name desc (hr_hash narHash));
  on_store (registerValidPath storeDir now (set_narSize (numBytesDigested narHash) info)).

(** The part under the lock, when the path is to be added: [temp] is where
    the dump was restored, if it was, and [dump] the buffer. *)
Definition install (temp : option (list bytes)) (dump : bytes) (dumpHash : HashResult)
    (desc : ContentAddressWithReferences) (dstPath : StorePath) : ST Adding unit :=
  let realPath := toRealPath dstPath in
  _ ← on_calls (deletePath env refuses clock fuel realPath);
  _ ← on_calls (match temp with
                | None => _ ← restore_as realPath (serialisation_of (getFileIngestionMethod hashMethod)) canonicalRestore dump; mret ()
                | Some tempPath => moveFile tempPath realPath
                end);
  register_dumped dumpHash desc dstPath.

(** From the hash of the dump on. *)
Definition add_dumped (temp : option (list bytes)) (dump : bytes) (dumpHash : HashResult) : ST Adding StorePath :=
  r ← (if methodsMatch then mret dumpHash
       else on_calls (hash_at (default [] temp) (serialisation_of (getFileIngestionMethod hashMethod)) hashAlgo));
  desc ← slift (fromParts hashMethod (hr_hash r) (mkStoreReferences references false));
  dstPath ← slift (makeFixedOutputPathFromCA storeDir name desc);
  known ← (if repair then mret false else on_store (isValidPath storeDir dstPath));
  if known : bool then mret dstPath
  else
    known ← (if repair then mret false else on_store (isValidPathUncached storeDir dstPath));
    _ ← (if known : bool then on_store (invalidatePathInfoCacheFor dstPath)
         else install temp dump dumpHash desc dstPath);
    mret dstPath.

(** [addToStoreFromDump(source0, name, dumpMethod, hashMethod, hashAlgo, references, repair, nullptr)] *)
Definition addToStoreFromDump (source : bytes) : ST Adding StorePath :=
  let '(inMemory, dump, later) := fill_buffer narBufferSize (S (length source)) [] source in
  if inMemory && methodsMatch then
    dumpHash ← slift (hash_stream hashAlgo dump);
    add_dumped None dump dumpHash
  else
    '(tempDir, _) ← on_calls createTempDirInStore;
    let tempPath := tempDir ++ [ #"x"] in
    finally
      (rest ← on_calls (restore_as tempPath dumpMethod canonicalRestore (dump ++ later));
       dumpHash ← slift (hash_stream hashAlgo (dump ++ take (length later - length rest) later));
       add_dumped (Some tempPath) [] dumpHash)
      (ignoring (on_calls (deletePath env refuses clock fuel tempDir))).
End operation.
End dump.

(** ** Changes at one path *)

(** Only what is at and below [top] differs. *)
Definition elsewhere (top : list bytes) (d d' : Disk) : Prop :=
  (forall p, apart p top -> view_at d' p = view_at d p) /\
  (forall p, ~ top `prefix_of` p -> shape_at d' p = shape_at d p).

Lemma elsewhere_alters q c g d : alters c g -> elsewhere (q ++ [c]) d (update_path g q d).
Proof.
  intros Hg. split; intros p Hp; [by apply (view_at_alters _ _ c)|].
  unfold shape_at, lookup_path, update_path. cbn [tree]. by apply (shape_alters _ _ c).
Qed.

Lemma rmdir_elsewhere now path d d' : rmdir now path d = inr d' -> elsewhere path d d'.
Proof.
  unfold rmdir. destruct (lookup_path d path) as [[i|? ? [|]]|]; [done| |done..]. destruct (last path) as [n|] eqn:Hl; [|done].
  apply last_removelast in Hl. intros [= <-]. rewrite Hl at 1. apply elsewhere_alters, alters_take.
Qed.

Lemma mkdirat_new now umask path n mode d d' :
  last path = Some n -> lookup_path d path = None -> mkdirat now (removelast path) n (masked umask mode) d = Ok d' ->
  elsewhere path d d' /\ forall c, view_at d' (path ++ [c]) = None.
Proof.
  intros Hl%last_removelast Hn Hm. unfold mkdirat, new_entry in Hm. set (q := removelast path) in *. rewrite Hl in Hn |- *.
  destruct (lookup_path d q) as [[|m t es]|] eqn:Hq; [done| |done]. destruct (entry_lookup n es) eqn:He; [done|]. injection Hm as <-.
  split; [apply elsewhere_alters, alters_put|]. intros c. unfold view_at, peek, update_path. cbn [tree inodes].
  by rewrite node_lookup_app, (lookup_new now q n d m t es Hq).
Qed.

(** What [rename] moves. *)
Lemma rename_moves now src dst d d' f :
  rename now src dst d = inr d' -> apart src dst -> view_at d src = Some f ->
  view_at d' dst = Some f /\ forall p, apart p src -> apart p dst -> view_at d' p = view_at d p.
Proof.
  unfold rename. intros Hr Ha Hs. destruct (lookup_path d src) as [x|] eqn:Hx; [|done].
  rewrite (view_at_lookup _ _ _ Hx) in Hs.
  destruct (last src) as [ns|] eqn:Hls; [|done]. destruct (last dst) as [nd|] eqn:Hld; [|done].
  destruct (lookup_path d (removelast dst)) as [[|m t es]|] eqn:Hq; [done| |done].
  apply last_removelast in Hls, Hld. set (q := removelast dst) in *. set (q' := removelast src) in *.
  rewrite bool_decide_false in Hr by (intros ->; by destruct Ha as [[] _]).
  rewrite bool_decide_false in Hr by apply Ha.
  assert ((d' = d /\ view_at d dst = Some f) \/ d' = update_path (set_entry now nd x) q (update_path (take_entry now ns) q' d)) as [[-> Hd]| ->].
  { destruct (entry_lookup nd es) as [y|] eqn:Hy; [|destruct x; injection Hr as <-; by right].
    destruct x as [i|? ? ?], y as [j|? ? [|]]; try discriminate Hr; try (injection Hr as <-; by right).
    case_bool_decide as Hij; injection Hr as <-; [|by right]. left. split; [done|]. subst j.
    unfold view_at, peek. unfold lookup_path in Hq. rewrite Hld, node_lookup_app, Hq. cbn. by rewrite Hy. }
  - split; [done|]. auto.
  - set (d1 := update_path (take_entry now ns) q' d). split.
    + assert (shape_at d1 q = Some None) as (m1 & t1 & es1 & Hq1)%shape_dir.
      { rewrite (proj2 (elsewhere_alters q' ns _ d (alters_take now ns))); [apply shape_dir; eauto|].
        intros Hp. rewrite <- Hls in Hp. apply (proj1 Ha). etrans; [exact Hp|]. rewrite Hld. by apply prefix_app_r. }
      unfold view_at, peek, update_path. cbn [tree inodes]. rewrite Hld, node_lookup_app. unfold lookup_path in Hq1.
      rewrite (lookup_update _ _ _ _ Hq1). cbn [set_entry mbind option_bind node_lookup]. rewrite entry_lookup_set. exact Hs.
    + intros p Hp1 Hp2. transitivity (view_at d1 p); [apply (view_at_alters _ _ nd); [apply alters_set|by rewrite <- Hld]|].
      apply (view_at_alters _ _ ns); [apply alters_take|by rewrite <- Hls].
Qed.

(** ** Writing a file *)

Lemma set_inode_id i x d : inodes d !! i = Some x -> set_inode i x d = d.
Proof. intros Hi. unfold set_inode. rewrite insert_id by done. by destruct d. Qed.
Lemma set_inode_twice i x y d : set_inode i x (set_inode i y d) = set_inode i x d.
Proof. unfold set_inode. cbn [tree inodes next_ino]. by rewrite insert_insert_eq. Qed.

Lemma write_pieces_ok now fuel i : forall offset source d c m t,
  inodes d !! i = Some (mkInode (LRegular c m) t) -> length c = offset -> (length source < fuel)%nat ->
  exists t', write_pieces now fuel i offset source d = Ok (set_inode i (mkInode (LRegular (c ++ source) m) t') d).
Proof.
  assert (0 < chunkSize)%nat as Hc by (apply Nat.ltb_lt; vm_compute; reflexivity).
  induction fuel as [|fuel IH]; intros offset source d c m t Hi Hl Hf; [lia|]. cbn [write_pieces].
  destruct source as [|b source]; [exists t; by rewrite app_nil_r, set_inode_id|]. set (s := b :: source) in *.
  unfold pwrite, with_file. rewrite Hi. cbn [mbind result_bind]. rewrite (take_ge c), (drop_ge c), app_nil_r by lia.
  set (d1 := set_inode i _ d).
  destruct (IH (offset + length (take chunkSize s))%nat (drop chunkSize s) d1 (c ++ take chunkSize s) m now) as (t' & Ht').
  - unfold d1, set_inode. cbn [inodes]. by rewrite lookup_insert_eq.
  - by rewrite length_app, Hl.
  - rewrite length_drop. unfold s in *. cbn [length] in *. lia.
  - exists t'. rewrite Ht'. unfold d1. by rewrite set_inode_twice, <- app_assoc, take_drop.
Qed.

(** Where nothing is shown, the file is new. *)
Lemma writeFile_view now umask dir n mode source d d' :
  disk_ok d -> numbered (next_ino d) (tree d) -> view_at d (dir ++ [n]) = None ->
  writeFile now umask (dir ++ [n]) source mode d = Ok d' ->
  view_at d' (dir ++ [n]) = Some (Regular (is_executable (masked umask mode)) source) /\
  forall p, apart p (dir ++ [n]) -> view_at d' p = view_at d p.
Proof.
  intros Hok Hnum Hv Hw. unfold writeFile, openNewFileForWrite in Hw. destruct (lookup_path d (dir ++ [n])) as [[i|m t es]|] eqn:Hl; [|done|].
  - exfalso. rewrite (view_at_lookup _ _ _ Hl), view_NLeaf in Hv. unfold with_file in Hw.
    by destruct (inodes d !! i) as [x|].
  - rewrite last_snoc, removelast_last in Hw. cbn [from_opt mbind result_bind] in Hw. unfold create_excl in Hw.
    destruct (lookup_path d dir) as [[|m t es]|] eqn:Hd; try (by unfold new_inode, new_entry in Hw; rewrite Hd in Hw).
    destruct (entry_lookup n es) eqn:He; [by unfold new_inode, new_entry in Hw; rewrite Hd, He in Hw|].
    rewrite (new_inode_ok now dir n d m t es Hd He) in Hw. cbn [mbind result_bind] in Hw.
    destruct (write_pieces_ok now (S (length source)) (next_ino d) 0 source _ [] (masked umask mode) now
      (leaf_added_inode now dir n (mkInode (LRegular [] (masked umask mode)) now) d) eq_refl) as (t' & Ht'); [lia|].
    rewrite Ht' in Hw. injection Hw as <-. rewrite set_inode_added. cbn [app].
    set (X := mkInode _ _). pose proof (leaf_added_added now dir n X d Hok) as Ha. split.
    + rewrite (view_at_lookup _ _ _ (added_lookup now _ _ _ _ _ _ _ _ Hd Ha)), view_NLeaf, leaf_added_inode. done.
    + intros p Hp. by apply (added_apart now dir n (NLeaf (next_ino d))).
Qed.

(** ** Nothing at a path *)

Definition gone (p : list bytes) (d : Disk) : Prop := view_at d p = None /\ shape_at d p <> Some None.

Lemma gone_lstat p d : gone p d <-> maybeLstat p d = None.
Proof.
  unfold gone, maybeLstat. rewrite shape_dir. destruct (lookup_path d p) as [[i|m t es]|] eqn:Hl; cbn [mbind option_bind stat_node].
  - rewrite (view_at_lookup _ _ _ Hl), view_NLeaf. destruct (inodes d !! i) as [[[c m|g] t]|]; cbn; [naive_solver..|].
    split; [done|]. intros _. split; [done|]. by intros (? & ? & ? & ?).
  - split; [|done]. intros [_ []]. eauto.
  - split; [done|]. intros _. split; [|by intros (? & ? & ? & ?)]. unfold view_at, peek. unfold lookup_path in Hl. by rewrite Hl.
Qed.

Lemma absent_gone p d : lookup_path d p = None -> gone p d.
Proof. intros Hl. apply gone_lstat. unfold maybeLstat. by rewrite Hl. Qed.

Lemma take_entry_absent now q n d : lookup_path (update_path (take_entry now n) q d) (q ++ [n]) = None.
Proof.
  unfold lookup_path, update_path. cbn [tree]. rewrite node_lookup_app.
  destruct (node_lookup (tree d) q) as [y|] eqn:Hy; [|by rewrite lookup_update_None].
  rewrite (lookup_update _ _ _ _ Hy). destruct y as [|m t es]; [done|]. cbn. by rewrite entry_lookup_remove.
Qed.

Lemma unlink_gone now p d :
  match DiskCalls.unlink now p d with inr d' => gone p d' | inl no_such_file_or_directory => gone p d | inl _ => True end.
Proof.
  unfold DiskCalls.unlink. destruct (lookup_path d p) as [[i|]|] eqn:Hl; [|done|by apply absent_gone].
  destruct (last p) as [n|] eqn:Hn; [|done]. apply last_removelast in Hn. apply absent_gone. rewrite Hn at 2. apply take_entry_absent.
Qed.
Lemma rmdir_gone now p d :
  match rmdir now p d with inr d' => gone p d' | inl no_such_file_or_directory => gone p d | inl _ => True end.
Proof.
  unfold rmdir. destruct (lookup_path d p) as [[i|? ? [|]]|] eqn:Hl; [done| |done|by apply absent_gone].
  destruct (last p) as [n|] eqn:Hn; [|done]. apply last_removelast in Hn. apply absent_gone. rewrite Hn at 2. apply take_entry_absent.
Qed.

Lemma leads_any {St A} (m : ST St A) s : leads m s (fun _ _ => True) (fun _ _ => True).
Proof. unfold leads. by destruct (m s) as [[] ?]. Qed.

(** A deletion that returns has left nothing, provided that no call is
    refused with the error that says so. *)
Section deleted.
Context (env : nat -> Disk -> Disk) (refuses : nat -> option errc) (clock : nat -> Z).
Context (honest : forall k, refuses k <> Some no_such_file_or_directory).
Notation d_disk s := (w_disk (dl_world s)).

Lemma delete_gone_ fuel top s :
  leads (deletePath_ env refuses clock fuel top) s (fun _ s' => dl_ex s' = None -> gone top (d_disk s')) (fun _ _ => True).
Proof using honest.
  destruct fuel as [|fuel]; [done|]. cbn [deletePath_]. apply leads_bind.
  eapply leads_mono; [apply leads_any| |done]. intros filename s1 _. apply leads_bind.
  eapply leads_mono; [apply leads_any| |done]. intros _ s2 _. clear s s1.
  apply leads_bind. unfold in_world at 1. apply leads_zoom. unfold World.maybe_lstat, sys_stat. apply leads_bind. unfold leads at 1, sys at 1.
  destruct (refuses _) as [e|] eqn:He; [destruct e; try done; by destruct (honest (w_tick (dl_world s2)))|].
  destruct (maybeLstat top _) as [st|] eqn:Hst; [|cbn; intros _; by apply gone_lstat].
  cbn [leads mret ST_ret]. unfold leads at 1, mret, ST_ret. apply leads_bind. eapply leads_mono; [apply leads_any| |done]. intros _ s3 _.
  cbv zeta. apply leads_bind. eapply leads_mono; [apply leads_any| |done]. intros _ s4 _. clear s2 s3 He Hst.
  apply leads_bind. unfold in_world. apply leads_zoom. unfold leads at 1.
  assert (forall f : Z -> Disk -> errc + Disk,
    (forall now d, match f now d with inr d' => gone top d' | inl no_such_file_or_directory => gone top d | inl _ => True end) ->
    match sys env refuses clock (fun now d => match f now d with inl e => inl e | inr d => inr ((), d) end) (dl_world s4) with
    | (Ok a, t) => leads match a with inl no_such_file_or_directory | inr () => mret () | inl _ => note_failure SystemError end
        (mkDeletion t (dl_freed s4) (dl_ex s4)) (fun _ s' => dl_ex s' = None -> gone top (d_disk s')) (fun _ _ => True)
    | (Throw _, _) => True
    end) as Hcall.
  { intros f Hf. unfold sys. destruct (refuses _) as [e|] eqn:He.
    - destruct e; try (by destruct (honest (w_tick (dl_world s4)))); unfold leads, note_failure, Prelude.modify; cbn; by destruct (dl_ex s4).
    - pose proof (Hf (clock (w_tick (dl_world s4))) (env (w_tick (dl_world s4)) (w_disk (dl_world s4)))) as H.
      destruct (f _ _) as [e|d']; [|by intros _]. destruct e; try (by intros _); unfold leads, note_failure, Prelude.modify; cbn; by destruct (dl_ex s4). }
  case_bool_decide; [apply (Hcall (fun now d => rmdir now top d)); intros; apply rmdir_gone|
    apply (Hcall (fun now d => DiskCalls.unlink now top d)); intros; apply unlink_gone].
Qed.

Lemma deletePath_gone fuel top w :
  leads (deletePath env refuses clock fuel top) w (fun _ w' => gone top (w_disk w')) (fun _ _ => True).
Proof using honest.
  assert (leads (deletePath_at env refuses clock fuel top) (mkDeletion w 0 None) (fun _ s => gone top (d_disk s)) (fun _ _ => True)) as H.
  { unfold deletePath_at. apply leads_bind. unfold leads at 1, slift, assertb. case_bool_decide as Htop; [done|]. cbn [negb].
    apply leads_bind. unfold in_world at 1. apply leads_zoom. unfold leads at 1, open_directory, sys. cbn [dl_world].
    destruct (refuses _) as [e|] eqn:He; [destruct e; try done; by destruct (honest (w_tick w))|].
    destruct (lookup_path _ (removelast top)) as [[i|m t es]|] eqn:Hl; [done| |].
    - apply leads_bind. eapply leads_mono; [apply delete_gone_| |done]. intros [] s Hs. apply leads_bind.
      unfold leads at 1, gets. destruct (dl_ex s) eqn:Hex; [done|]. by apply Hs.
    - cbn. apply absent_gone. destruct top as [|c top _] using rev_ind; [done|]. rewrite removelast_last in Hl.
      unfold lookup_path in *. by rewrite node_lookup_app, Hl. }
  unfold leads, deletePath in *. destruct (deletePath_at _ _ _ _ _ _) as [[[]|e] s]; [exact H|done].
Qed.
End deleted.

(** ** Temporary directories *)

Section temporary.
Context (env : nat -> Disk -> Disk) (refuses : nat -> option errc) (clock : nat -> Z).
Context (interrupted : nat -> bool) (counter : nat -> Z) (umask pid : Z).
(** An invariant that what is at temporary names of [root] does not matter for. *)
Context (I : Disk -> Prop) (env_keeps : forall k d, I d -> I (env k d)) (root : list bytes) (suffix : bytes).
Notation temp := (makeTempPath pid root suffix).
Context (I_elsewhere : forall n d d', I d -> elsewhere (temp n) d d' -> I d').

(** It is made, empty. *)
Lemma createTempDir_ok mode fuel : forall w, I (w_disk w) ->
  leads (createTempDir env refuses clock counter umask pid fuel root suffix mode) w
    (fun p w' => I (w_disk w') /\ exists n, p = temp n /\ forall c, view_at (w_disk w') (p ++ [c]) = None) (fun _ w' => I (w_disk w')).
Proof using env_keeps I_elsewhere.
  induction fuel as [|fuel IH]; intros w Hw; [done|]. cbn [createTempDir]. apply leads_bind. unfold leads at 1, gets.
  set (n := counter (w_tick w)). cbv zeta. apply leads_bind. unfold leads at 1, sys_mkdir, sys.
  apply (env_keeps (w_tick w)) in Hw. set (d := env (w_tick w) (w_disk w)) in *.
  assert (forall e w', I (w_disk w') -> leads (match e with file_exists => createTempDir env refuses clock counter umask pid fuel root suffix mode
      | _ => slift (Throw SystemError) end) w'
      (fun p w' => I (w_disk w') /\ exists n, p = temp n /\ forall c, view_at (w_disk w') (p ++ [c]) = None) (fun _ w' => I (w_disk w'))) as Herr.
  { intros e w' Hw'. destruct e; try done. by apply IH. }
  destruct (refuses (w_tick w)) as [e|]; [by apply (Herr e)|].
  destruct (lookup_path d (temp n)) as [x|] eqn:Hl; [by apply (Herr file_exists)|].
  assert (last (temp n) = Some (suffix ++ #"-" ++ dec pid ++ #"-" ++ dec n)) as Hlast by apply last_snoc. rewrite Hlast.
  destruct (mkdirat _ _ _ _ d) as [d'|] eqn:Hm; [|by apply (Herr no_such_file_or_directory)].
  destruct (mkdirat_new _ _ _ _ _ _ _ Hlast Hl Hm) as [He Hc]. unfold leads, mret, ST_ret. cbn [w_disk].
  split; [by eapply I_elsewhere|]. by exists n.
Qed.

Lemma sys_rmdir_temp n : keeps w_disk I (sys_rmdir env refuses clock (temp n)) (fun _ => True).
Proof using env_keeps I_elsewhere.
  eapply keeps_mono; [apply (keeps_sys _ _ _ _ env_keeps _ (fun _ => True))|by intros []].
  intros now d a d' Hd Hr. destruct (rmdir now (temp n) d) as [e|d1] eqn:Hk; [done|]. injection Hr as <- <-.
  split; [|done]. by eapply I_elsewhere, rmdir_elsewhere.
Qed.
End temporary.

Section temporary_store.
Context (env : nat -> Disk -> Disk) (refuses : nat -> option errc) (clock : nat -> Z).
Context (interrupted : nat -> bool) (counter : nat -> Z) (umask : Z) (realStoreDir : list bytes) (pid : Z).
Context (I : Disk -> Prop) (env_keeps : forall k d, I d -> I (env k d)).
Notation temp := (makeTempPath pid realStoreDir #"tmp").
Context (I_elsewhere : forall n d d', I d -> elsewhere (temp n) d d' -> I d').
(** The others leave alone what is in our temporary directories. *)
Context (env_in_temp : forall k d n q, view_at (env k d) (temp n ++ q) = view_at d (temp n ++ q)).

Definition fresh_temp (p : list bytes) (d : Disk) : Prop := exists n, p = temp n /\ forall c, view_at d (p ++ [c]) = None.

(** A call that changes nothing. *)
Lemma quiet_call {A} (f : Z -> Disk -> errc + (A * Disk)) (Q : Disk -> Prop) :
  (forall k d, Q d -> Q (env k d)) -> (forall now d a d', f now d = inr (a, d') -> d' = d) ->
  keeps w_disk Q (sys env refuses clock f) (fun _ => True).
Proof using Type.
  intros He Hf. eapply keeps_mono; [apply (keeps_sys _ _ _ _ He _ (fun _ => True))|done].
  intros now d a d' Hd Hr. by rewrite (Hf _ _ _ _ Hr).
Qed.

Lemma createTempDirInStore_ok fuel : forall locked w, I (w_disk w) ->
  leads (createTempDirInStore_ env refuses clock interrupted counter umask realStoreDir pid fuel locked) w
    (fun r w' => I (w_disk w') /\ fresh_temp r.1 (w_disk w')) (fun _ w' => I (w_disk w')).
Proof using env_keeps I_elsewhere env_in_temp.
  induction fuel as [|fuel IH]; intros locked w Hw; [done|]. cbn [createTempDirInStore_]. apply leads_bind.
  eapply leads_mono; [by apply (createTempDir_ok env refuses clock counter umask pid I env_keeps realStoreDir #"tmp" I_elsewhere)| |done].
  intros p w1 [Hw1 Hp]. set (Q := fun d => I d /\ fresh_temp p d).
  assert (forall k d, Q d -> Q (env k d)) as HQ.
  { intros k d [Hd (n & -> & Hn)]. split; [by apply env_keeps|]. exists n. split; [done|]. intros c. by rewrite env_in_temp. }
  assert (Q (w_disk w1)) as HQ1 by done.
  assert (forall {A} (m : ST World A) (k : A -> ST World (list bytes * bool)) w,
    keeps w_disk Q m (fun _ => True) -> Q (w_disk w) ->
    (forall a w, Q (w_disk w) -> leads (k a) w (fun r w' => I (w_disk w') /\ fresh_temp r.1 (w_disk w')) (fun _ w' => I (w_disk w'))) ->
    leads (m ≫= k) w (fun r w' => I (w_disk w') /\ fresh_temp r.1 (w_disk w')) (fun _ w' => I (w_disk w'))) as Hstep.
  { intros A m k w0 Hm H0 Hk. apply leads_bind. eapply leads_mono; [by apply Hm| |by intros e w' [? _]]. intros a w' [? _]. by apply Hk. }
  apply Hstep; [| exact HQ1|].
  { apply quiet_call; [done|]. intros now d a d'. destruct (lookup_path d p) as [[]|]; [done| |done]. by intros [= _ <-]. }
  intros r w2 H2. cbv zeta. apply Hstep; [|exact H2|].
  { destruct r as [e|[]]; cbv beta iota; [by apply keeps_ret|]. unfold lockFile_wait. eapply keeps_bind; [apply keeps_gets|]. intros k _.
    apply (keeps_bind _ _ _ _ (fun _ => True)); [|intros; by apply keeps_ret]. apply keeps_or_throw.
    eapply keeps_mono; [apply quiet_call; [done|]|by intros []]. by intros now d a d' [= _ <-]. }
  intros locked' w3 H3. apply Hstep; [|exact H3|].
  { eapply keeps_mono; [by apply (keeps_maybe_lstat _ _ _ _ HQ _ (fun _ => True))|done]. }
  intros st w4 [H4 Hf4]. destruct (_ || _); [by apply IH|done].
Qed.
End temporary_store.

(** ** Integrity *)

Lemma leads_and {St A} (m : ST St A) s (Q Q' : A -> St -> Prop) (E E' : exn -> St -> Prop) :
  leads m s Q E -> leads m s Q' E' -> leads m s (fun a s' => Q a s' /\ Q' a s') (fun e s' => E e s' /\ E' e s').
Proof. unfold leads. destruct (m s) as [[a|e] s']; auto. Qed.

(** What a dump is the dump of, and what it leaves. *)
Definition dumped (method : FileSerialisationMethod.t) (source : bytes) (f : File) (rest : bytes) : Prop :=
  match method with
  | FileSerialisationMethod.Flat => f = Regular false source /\ rest = []
  | FileSerialisationMethod.NixArchive => source = archive f ++ rest /\ ok_file f /\ (height f <= narMaxDepth)%nat
  end.

Lemma dumped_inj method source f g r r' : dumped method source f r -> dumped method source g r' -> f = g /\ r = r'.
Proof.
  destruct method; cbn [dumped]; [intros [-> ->] [-> ->]; done|]. intros (-> & ? & ?) (? & ? & ?). by apply archive_inj.
Qed.

Lemma dumped_length method source f rest : dumped method source f rest -> (length rest <= length source)%nat.
Proof. destruct method; cbn; [intros [_ ->]; cbn; lia|]. intros [-> _]. rewrite length_app. lia. Qed.

(** What a reader that leaves [rest] has read, with what was in the buffer. *)
Lemma stream_eq n (source rest : bytes) : (length rest <= length source)%nat ->
  take n source ++ take (length (drop n source) - length rest) (drop n source) = take (n `max` (length source - length rest)) source.
Proof.
  intros Hl. rewrite take_take_drop, length_drop. destruct (Nat.le_gt_cases n (length source)); [f_equal; lia|]. by rewrite !take_ge by lia.
Qed.
Lemma stream_archive n f (rest : bytes) : rest = [] \/ (n <= length (archive f))%nat ->
  take (n `max` (length (archive f ++ rest) - length rest)) (archive f ++ rest) = archive f.
Proof.
  rewrite length_app. intros [-> |Hn].
  - rewrite take_ge; [by rewrite app_nil_r|]. rewrite app_nil_r. cbn [length]. lia.
  - replace (n `max` _)%nat with (length (archive f)) by lia. apply take_app_length.
Qed.

Section calls.
Context `{L : HashLib} `{!HashLibLaws L}.
Context (env : nat -> Disk -> Disk) (refuses : nat -> option errc) (clock : nat -> Z) (debris : nat -> list bytes -> Disk -> Disk).
Context (umask : Z) (preallocateContents fallocate_supported : bool).
Context (I : Disk -> Prop) (env_keeps : forall k d, I d -> I (env k d)).
Context (debris_apart : forall k path d p, apart p path -> view_at (debris k path d) p = view_at d p).

Lemma hash_stream_ok a data : hash_stream a data = Ok (hash_result a data).
Proof using HashLibLaws0.
  unfold hash_stream. destruct (digests_sink a _ [] data (digests_new a)) as (h & -> & Hh). by apply digests_finish.
Qed.

Lemma hash_at_keeps path method a f :
  (forall d, I d -> view_at d path = Some f) ->
  keeps w_disk I (hash_at env refuses clock path method a)
    (fun r => exists b, dump_of (memory_accessor (mkMemory (Some f))) method everything false root = Ok b /\ r = hash_result a b).
Proof using HashLibLaws0 env_keeps.
  intros Hf. apply keeps_result; [done|]. intros t d r d' Hd Hr. apply bind_Ok in Hr as (r' & Hr & [= <- <-]). split; [done|].
  unfold fs_accessor in Hr. rewrite (Hf d Hd), hashPath_dump in Hr. destruct (dump_of _ _ _ _ _) as [b|]; [|done].
  injection Hr as <-. by exists b.
Qed.
Lemma hash_at_frame path method a : keeps w_disk I (hash_at env refuses clock path method a) (fun _ => True).
Proof using env_keeps. apply keeps_result; [done|]. intros t d r d' Hd Hr. apply bind_Ok in Hr as (r' & Hr & [= <- <-]). done. Qed.

Section at_path.
Context (dir : list bytes) (n : bytes) (Hn : good n).
Notation path := (dir ++ [n]).
Context (I_apart : forall d d', I d -> (forall p, apart p path -> view_at d' p = view_at d p) -> I d').
Context (env_path : forall k d, view_at (env k d) path = view_at d path).

Lemma restorePath_as_ok t method canonical source d d' rest :
  Z.of_nat (length source) <= max_off_t -> view_at d path = None ->
  restorePath_as umask preallocateContents fallocate_supported t path method canonical source (renumbered d) = Ok (d', rest) ->
  (forall p, apart p path -> view_at d' p = view_at d p) /\ exists f, dumped method source f rest /\ view_at d' path = Some f.
Proof using Hn.
  intros Hs Hv Hr. destruct (renumbered_ok d) as [Hok Hnum]. destruct method; cbn [restorePath_as] in Hr.
  - apply bind_Ok in Hr as (d1 & Hw & [= <- <-]). apply writeFile_view in Hw as [Hf Ha]; [|done..]. split; [exact Ha|].
    exists (Regular false source). split; [done|]. rewrite Hf. do 2 f_equal. unfold is_executable, masked.
    rewrite (Z.land_comm 0x1B6), <- Z.land_assoc. by rewrite Z.land_0_r.
  - apply restorePath_Ok in Hr as (m & x & es & f & y & Hl & _ & -> & Hf & Hh & Ha & Hvy); [|done..]. split.
    + intros p Hp. by apply (added_apart t dir n y (renumbered d)).
    + exists f. split; [done|]. erewrite view_at_lookup; [exact Hvy|]. by eapply added_lookup.
Qed.

Lemma restore_as_ok method canonical source w :
  Z.of_nat (length source) <= max_off_t -> I (w_disk w) -> view_at (w_disk w) path = None ->
  leads (restore_as env refuses clock debris umask preallocateContents fallocate_supported path method canonical source) w
    (fun rest w' => I (w_disk w') /\ exists f, dumped method source f rest /\ view_at (w_disk w') path = Some f)
    (fun _ w' => I (w_disk w')).
Proof using Hn I_apart env_keeps env_path debris_apart.
  intros Hs Hw Hv. unfold leads, restore_as. apply (env_keeps (w_tick w)) in Hw. rewrite <- (env_path (w_tick w)) in Hv.
  set (d := env (w_tick w) (w_disk w)) in *.
  assert (I (debris (w_tick w) path d)) as Hdeb by (apply (I_apart d); [done|apply debris_apart]).
  destruct (refuses (w_tick w)); [done|]. destruct (restorePath_as _ _ _ _ _ _ _ _ _) as [[d' rest]|e] eqn:Hr; [|done].
  apply restorePath_as_ok in Hr as [Ha Hf]; [|done..]. split; [by apply (I_apart d)|done].
Qed.
End at_path.
End calls.

Lemma baseName_start p a b l : wf_StorePath p -> baseName p = a :: b :: l -> illegal_hash_char a = false /\ illegal_hash_char b = false.
Proof. intros [[_ Hh _] _] Hp. rewrite Hp in Hh. inversion Hh as [|? ? Ha Hh']; subst. inversion Hh' as [|? ? Hb _]; subst. done. Qed.

Lemma makeFixedOutputPathFromCA_wf `{HashLibLaws} storeDir nm ca p :
  wf_Hash (getHash ca) -> valid_name nm -> makeFixedOutputPathFromCA storeDir nm ca = Ok p -> wf_StorePath p.
Proof.
  intros Hw Hv Hm. destruct (makeFixedOutputPathFromCA_outcome storeDir nm ca Hw Hv) as [Hok Hbad].
  assert (ca_acceptable ca \/ ~ ca_acceptable ca) as [Ha|Ha].
  { destruct ca as [[h refs]|[m h refs]]; cbn; [destruct (decide (algo h = SHA256)); auto|].
    destruct (decide (algo h = SHA256)), (decide (m = FileIngestionMethod.NixArchive)),
      (decide (refs = mkStoreReferences ∅ false)); tauto. }
  - destruct (Hok Ha) as (q & Hq & Hwf & _). congruence.
  - rewrite (Hbad Ha) in Hm. discriminate.
Qed.
Lemma fromParts_hash m h refs desc : fromParts m h refs = Ok desc -> getHash desc = h.
Proof. destruct m; cbn; [by intros [= <-]..|]. destruct (self refs); [done|]. by intros [= <-]. Qed.

(** A path info that is only for its path. *)
Definition at_path `{HashLib} (p : StorePath) : ValidPathInfo := mkInfo [] None (hash_of SHA256 []) ∅ 0 0 false ∅ None p.

Lemma hash_of_wf `{HashLibLaws} a d : wf_Hash (hash_of a d) /\ algo (hash_of a d) = a.
Proof. destruct (hashString_Ok a d) as (h & Hh & Hw & Ha & _). rewrite hashString_hash_of in Hh. by injection Hh as <-. Qed.

Lemma at_path_wf `{HashLibLaws} p : wf_StorePath p -> wf_info (at_path p).
Proof.
  intros Hp. destruct (hash_of_wf SHA256 []) as [Hw Ha].
  split; cbn; [done..|discriminate| |discriminate]. intros x Hx. by apply not_elem_of_empty in Hx.
Qed.

Section integrity.
Context `{L : HashLib} `{!HashLibLaws L}.
Context (env : nat -> Disk -> Disk) (refuses : nat -> option errc) (clock : nat -> Z).
Context (debris : nat -> list bytes -> Disk -> Disk) (interrupted : nat -> bool) (counter : nat -> Z).
Context (umask : Z) (preallocateContents fallocate_supported autoOptimiseStore dirGrantsDefaultAcl : bool).
Context (narBufferSize : nat).
Context (ds realStoreDir : list bytes) (pid : Z) (fuel : nat) (now : Z).
Notation storeDir := (join_path ds).
Notation toRealPath := (toRealPath realStoreDir).
Notation disk_of s := (w_disk (o_world (ad_opt s))).
Notation db_of s := (db (ad_store s)).
Notation valid_in s := (LocalStore.valid ds (db_of s)).

Context (name : bytes) (dumpMethod : FileSerialisationMethod.t) (hashMethod : ContentAddressMethod.t) (hashAlgo : HashAlgorithm).
Context (references : StorePathSet) (repair : bool) (source : bytes).
Context (s : Adding) (known : File -> Prop).
Notation fim := (serialisation_of (getFileIngestionMethod hashMethod)).
Notation methodsMatch := (methodsMatch dumpMethod hashMethod).

(** What is hashed for the content address, and the path it gives. *)
Definition digested (b : bytes) : Prop :=
  if methodsMatch then
    if (length source <? narBufferSize)%nat then b = source
    else exists f rest, dumped dumpMethod source f rest /\ b = take (narBufferSize `max` (length source - length rest)) source
  else exists f rest, dumped dumpMethod source f rest /\ dump_of (memory_accessor (mkMemory (Some f))) fim everything false root = Ok b.
Definition destination (p : StorePath) : Prop :=
  exists b desc, digested b /\ fromParts hashMethod (hash_of hashAlgo b) (mkStoreReferences references false) = Ok desc /\
    makeFixedOutputPathFromCA storeDir name desc = Ok p.

Context (Hname : valid_name name) (Hsource : Z.of_nat (length source) <= max_off_t) (Hstore : store_ok ds (ad_store s)).
(** The path, when there is one. *)
Context (own : StorePath) (Hown : forall p, destination p -> p = own).
(** When the hash of the dump is registered as that of the object: that
    nothing which follows an archive is taken into the buffer with it. *)
Context (Hexact : dumpMethod = FileSerialisationMethod.NixArchive -> hashAlgo = SHA256 ->
  forall f rest, dumped dumpMethod source f rest -> rest = [] \/ (narBufferSize <= length (archive f))%nat).
Context (Hcache : (isValidPath storeDir own (ad_store s)).1 = Ok true -> valid_in s own).
(** Every valid path is intact, and the farm true. *)
Context (Hintact : forall p r, row_at ds (db_of s) p r -> intact realStoreDir (disk_of s) p r).
Context (Hfarm : farm_ok realStoreDir known (disk_of s)).
(** The files of the store and of the dump: different ones have different
    names in the farm. *)
Context (known_ok : forall f, known f -> ok_file f /\ is_leaf f = true).
Context (known_names : forall f g n, known f -> known g -> link_name f = Ok n -> link_name g = Ok n -> f = g).
Context (known_old : forall p q g, valid_in s p -> view_at (disk_of s) (toRealPath p ++ q) = Some g -> is_leaf g = true -> known g).
Context (known_new : forall f rest q g, dumped dumpMethod source f rest -> node_at f q = Some g -> is_leaf g = true -> known g).
(** What the other processes leave alone, our temporary directories too, and
    where a failed restore leaves debris. *)
Notation temp := (makeTempPath pid realStoreDir #"tmp").
Context (env_objects : forall k d p q, valid_in s p \/ p = own -> view_at (env k d) (toRealPath p ++ q) = view_at d (toRealPath p ++ q)).
Context (env_farm : forall k d, farm_ok realStoreDir known d -> farm_ok realStoreDir known (env k d)).
Context (env_temp : forall k d c, view_at (env k d) (tempLink realStoreDir pid c) = view_at d (tempLink realStoreDir pid c)).
Context (env_shape : forall k d q, shape_at (env k d) (toRealPath own ++ q) = shape_at d (toRealPath own ++ q)).
Context (env_in_temp : forall k d n q, view_at (env k d) (temp n ++ q) = view_at d (temp n ++ q)).
Context (env_temp_shape : forall k d n q, shape_at (env k d) (temp n ++ q) = shape_at d (temp n ++ q)).
Context (debris_apart : forall k path d p, apart p path -> view_at (debris k path d) p = view_at d p).
(** No call is refused with the error that says that nothing is there. *)
Context (honest : forall k, refuses k <> Some no_such_file_or_directory).

Notation before := (fun p => valid_in s p).
Notation ownInfo := (at_path own).
Notation others := (object_path realStoreDir (other ownInfo before)).
Notation Inv0 := (World.Inv others (view_at (disk_of s)) (farm_ok realStoreDir known)).
Notation returned := (returned ds realStoreDir ownInfo s).
Notation thrown := (thrown ds realStoreDir ownInfo repair s).

(** *** Names apart *)

Definition suffix_ok (t : bytes) : Prop := t = #"tmp" \/ t = #"rename-tmp".

Lemma object_tmp p q t n : wf_StorePath p -> suffix_ok t -> apart (toRealPath p ++ q) (makeTempPath pid realStoreDir t n).
Proof using Type.
  intros Hp Ht. unfold AddToStore.toRealPath, makeTempPath, StorePath.to_string. rewrite <- app_assoc. apply apart_names.
  intros He. destruct Ht as [->| ->]; cbn in He; destruct (baseName_start _ _ _ _ Hp He) as [Ha Hb].
  - by vm_compute in Ha.
  - by vm_compute in Hb.
Qed.
Lemma links_tmp c t n : suffix_ok t -> apart (linksDir realStoreDir ++ [c]) (makeTempPath pid realStoreDir t n).
Proof using Type. intros [->| ->]; unfold linksDir, makeTempPath; rewrite <- app_assoc; by apply apart_names. Qed.

Lemma others_tmp p t n : suffix_ok t -> others p -> apart p (makeTempPath pid realStoreDir t n).
Proof using Hstore.
  intros Ht (b & r & -> & q & Hq & _ & ->). pose proof (object_tmp q r t n (valid_wf ds _ q (so_db _ _ Hstore) Hq) Ht) as Ha.
  unfold AddToStore.toRealPath, StorePath.to_string in Ha. by rewrite <- app_assoc in Ha.
Qed.

Lemma farm_tmp t n d d' : suffix_ok t ->
  farm_ok realStoreDir known d -> (forall p, apart p (makeTempPath pid realStoreDir t n) -> view_at d' p = view_at d p) ->
  farm_ok realStoreDir known d'.
Proof using Type. intros Ht Hf Hs c f. rewrite Hs by (by apply links_tmp). apply Hf. Qed.

Lemma Inv0_tmp t n d d' : suffix_ok t ->
  Inv0 d -> (forall p, apart p (makeTempPath pid realStoreDir t n) -> view_at d' p = view_at d p) -> Inv0 d'.
Proof using Hstore. intros Ht. apply Inv_view; [intros p; by apply others_tmp|intros ?; by apply farm_tmp]. Qed.

Lemma env_Inv0 k d : Inv0 d -> Inv0 (env k d).
Proof using env_objects env_farm.
  intros [Hh Hf]. split; [|by apply env_farm]. intros p Hp. rewrite (env_ours env ds realStoreDir ownInfo s env_objects); [by apply Hh|].
  by apply others_ours.
Qed.

Lemma start_Inv0 : Inv0 (disk_of s).
Proof using Hfarm. by split; [intros p _|]. Qed.

(** *** Bringing it to its path *)

Section placed.
Context (Hwf : wf_StorePath own).
Notation realPath := (toRealPath own).

Lemma objects_wf p : valid_in s p -> wf_StorePath p.
Proof using Hstore. intros Hp. by apply (valid_wf ds (db_of s) p (so_db _ _ Hstore)). Qed.

Lemma Inv0_own d d' : Inv0 d -> (forall p, apart p realPath -> view_at d' p = view_at d p) -> Inv0 d'.
Proof using Hwf HashLibLaws0 Hstore pid. exact (Inv1_apart realStoreDir pid ownInfo (at_path_wf own Hwf) before objects_wf _ known d d'). Qed.

Lemma env_own k d : view_at (env k d) realPath = view_at d realPath.
Proof using env_objects. pose proof (env_objects k d own [] (or_intror eq_refl)) as H. by rewrite app_nil_r in H. Qed.
Lemma env_gone k d : gone realPath d -> gone realPath (env k d).
Proof using env_objects env_shape.
  intros [Hv Hs]. split; [by rewrite env_own|]. pose proof (env_shape k d []) as He. rewrite app_nil_r in He. by rewrite He.
Qed.

Lemma own_tmp t n : suffix_ok t -> apart realPath (makeTempPath pid realStoreDir t n).
Proof using Hwf. intros Ht. rewrite <- (app_nil_r realPath). by apply object_tmp. Qed.

Lemma own_in_tmp n q : apart (temp n ++ q) realPath.
Proof using Hwf. apply apart_sym, apart_app, own_tmp. by left. Qed.

(** What is in the temporary directory, if there is one. *)
Definition in_temp (x : option (list bytes * File)) (d : Disk) : Prop :=
  match x with None => True | Some (p, f) => (exists n, p = temp n ++ [ #"x"]) /\ view_at d p = Some f end.

Lemma in_temp_env x k d : in_temp x d -> in_temp x (env k d).
Proof using env_in_temp. destruct x as [[p f]|]; [|done]. intros [[n ->] Hv]. split; [by exists n|]. by rewrite env_in_temp. Qed.
Lemma in_temp_own x d d' : in_temp x d -> (forall p, apart p realPath -> view_at d' p = view_at d p) -> in_temp x d'.
Proof using Hwf. destruct x as [[p f]|]; [|done]. intros [[n ->] Hv] Hs. split; [by exists n|]. by rewrite Hs by apply own_in_tmp. Qed.

Lemma delete_phase x w : Inv0 (w_disk w) -> in_temp x (w_disk w) ->
  leads (deletePath env refuses clock fuel realPath) w
    (fun _ w' => Inv0 (w_disk w') /\ in_temp x (w_disk w') /\ gone realPath (w_disk w')) (fun _ w' => Inv0 (w_disk w')).
Proof using Hwf HashLibLaws0 Hstore env_objects env_farm env_shape env_in_temp honest pid.
  intros Hw Hx.
  assert (keeps w_disk (World.Inv others (view_at (disk_of s)) (fun d => farm_ok realStoreDir known d /\ in_temp x d))
    (deletePath env refuses clock fuel realPath) (fun _ => True)) as Hk.
  { apply deletePath_keeps; [apply others_apart| | |exact env_shape].
    - intros d d' [Hf Ht] Hs. split; [|by apply (in_temp_own x d)].
      by apply (farm_apart realStoreDir pid ownInfo (at_path_wf own Hwf) before objects_wf known d).
    - intros k d [Hh [Hf Ht]]. destruct (env_Inv0 k d (conj Hh Hf)) as [Hh' Hf']. split; [done|]. split; [done|]. by apply in_temp_env. }
  eapply leads_mono; [apply leads_and; [apply (Hk w)|apply (deletePath_gone env refuses clock honest fuel realPath w)]| |].
  - split; [apply Hw|]. split; [apply Hw|done].
  - intros a w' [[[Hh [Hf Ht]] _] Hg]. done.
  - intros e w' [[Hh [Hf Ht]] _]. done.
Qed.

Lemma move_phase p f w : Inv0 (w_disk w) -> in_temp (Some (p, f)) (w_disk w) -> gone realPath (w_disk w) ->
  leads (moveFile env refuses clock counter umask pid fuel p realPath) w
    (fun _ w' => Inv0 (w_disk w') /\ (view_at (w_disk w') realPath = Some f \/ gone realPath (w_disk w'))) (fun _ w' => Inv0 (w_disk w')).
Proof using Hwf HashLibLaws0 Hstore env_objects env_farm env_shape env_in_temp.
  intros Hw Hx Hg. unfold moveFile. apply leads_bind. unfold leads at 1, World.sys_rename, sys.
  apply (env_Inv0 (w_tick w)) in Hw. apply (in_temp_env _ (w_tick w)) in Hx. apply (env_gone (w_tick w)) in Hg.
  set (d := env (w_tick w) (w_disk w)) in *.
  set (I := fun d => Inv0 d /\ gone realPath d).
  assert (forall k d, I d -> I (env k d)) as HI by (intros k d' [? ?]; split; [by apply env_Inv0|by apply env_gone]).
  assert (removelast realPath = realStoreDir) as Hroot by apply removelast_last.
  assert (forall n d d', I d -> elsewhere (makeTempPath pid (removelast realPath) #"rename-tmp" n) d d' -> I d') as Helse.
  { rewrite Hroot. intros n d1 d2 [H1 [Hv Hs]] [Hva Hsh]. split; [by apply (Inv0_tmp #"rename-tmp" n d1); [right| |]|].
    pose proof (own_tmp #"rename-tmp" n (or_intror eq_refl)) as Ha. split; [by rewrite Hva|]. rewrite Hsh; [done|]. by intros ?; apply Ha. }
  assert (forall e w', I (w_disk w') ->
    leads (match (e : errc + unit) with inr () => mret () | inl _ =>
         temp ← createTempDir env refuses clock counter umask pid fuel (removelast realPath) #"rename-tmp" 0x1ED;
         r ← sys_rmdir env refuses clock temp;
         match r with inl no_such_file_or_directory | inr () => mret () | inl _ => slift (Throw SystemError) end end) w'
      (fun _ w' => Inv0 (w_disk w') /\ (view_at (w_disk w') realPath = Some f \/ gone realPath (w_disk w'))) (fun _ w' => Inv0 (w_disk w'))) as Herr.
  { intros [e|[]] w' Hw'; [|by split; [|right]; apply Hw']. apply leads_bind.
    eapply leads_mono; [by apply (createTempDir_ok env refuses clock counter umask pid I HI _ _ Helse)| |by intros ? ? []].
    intros t w1 [Hw1 (n & -> & _)]. apply leads_bind.
    eapply leads_mono; [by apply (sys_rmdir_temp env refuses clock pid I HI _ _ Helse n)| |by intros ? ? []].
    intros r w2 [[H2 Hg2] _]. destruct r as [[]|[]]; unfold leads; cbn; auto. }
  destruct (refuses (w_tick w)) as [e|]; [by apply (Herr (inl e))|]. destruct (rename _ p realPath d) as [e|d'] eqn:Hr; [by apply (Herr (inl e))|].
  unfold leads, mret, ST_ret. cbn [w_disk]. destruct Hx as [[n ->] Hv].
  pose proof (rename_moves _ _ _ _ _ f Hr (own_in_tmp n _) Hv) as [Hmoved Hsame]. split; [|by left].
  destruct Hw as [Hh Hf]. split.
  - intros q Hq. rewrite Hsame; [by apply Hh|apply apart_app, others_tmp; [by left|done]|by apply (others_apart realStoreDir ownInfo before)].
  - intros c g. rewrite Hsame; [apply Hf|apply apart_app, links_tmp; by left|].
    exact (links_own realStoreDir pid ownInfo (at_path_wf own Hwf) before objects_wf c).
Qed.
End placed.

(** *** Registering it *)

Section registered.
Context (Hwf : wf_StorePath own) (desc : ContentAddressWithReferences).
Context (Hdesc : makeFixedOutputPathFromCA storeDir name desc = Ok own) (Hgood : wf_Hash (getHash desc)).
Context (st : Adding) (Hdb : db_of st = db_of s) (Hok : store_ok ds (ad_store st)) (Hnew : repair = false -> ~ valid_in s own).
Notation realPath := (toRealPath own).
Notation register := (register_dumped env refuses clock autoOptimiseStore dirGrantsDefaultAcl ds realStoreDir pid fuel now
  name dumpMethod hashAlgo repair).

Lemma thrown_early s' : Inv0 (disk_of s') -> ad_store s' = ad_store st -> thrown s'.
Proof using Hwf HashLibLaws0 Hintact Hdb Hok Hnew now.
  intros Hi He. apply (rows_thrown ds realStoreDir now ownInfo repair s known (at_path_wf own Hwf) Hintact st s'); auto.
Qed.

(** The path info that is registered. *)
Lemma made_info h : wf_Hash h -> algo h = SHA256 ->
  exists i, makeFromCA storeDir name desc h = Ok i /\ PathInfo.path i = own /\ PathInfo.narHash i = h /\ forall n, wf_info (set_narSize n i).
Proof using Hwf Hdesc Hgood.
  intros Hh Ha. unfold makeFromCA. rewrite Hdesc. cbn [mbind result_bind]. eexists. split; [done|]. split; [done|]. split; [done|].
  intros n. split; cbn; [done..|discriminate| |].
  - intros x Hx. by apply not_elem_of_empty in Hx.
  - by intros c [= <-].
Qed.

Lemma dumped_ok f rest : dumped dumpMethod source f rest -> ok_file f /\ (height f <= narMaxDepth)%nat.
Proof using known_ok known_new.
  clear Hexact Hown. intros Hd. pose proof (known_new f rest [] f Hd eq_refl) as Hk. destruct dumpMethod; cbn [dumped] in Hd; [|by destruct Hd].
  destruct Hd as [-> _]. split; [by apply known_ok, Hk|]. apply le_n_S, Nat.le_0_l.
Qed.

Lemma archive_hash f r a : ok_file f -> (height f <= narMaxDepth)%nat ->
  (exists b, dump_of (memory_accessor (mkMemory (Some f))) FileSerialisationMethod.NixArchive everything false root = Ok b /\ r = hash_result a b) ->
  r = hash_result a (archive f).
Proof using HashLibLaws0.
  intros Hf Hh (b & Hb & ->). pose proof (hashPath_all a f Hf Hh) as H. rewrite hashPath_dump, Hb in H. cbn [fmap result_fmap] in H. congruence.
Qed.

(** A move that failed silently is found out. *)
Lemma canonicalise_gone I b w : (forall k d, I d -> I (env k d)) -> (forall d, I d -> gone realPath d) -> I (w_disk w) ->
  leads (canonicalise_object env refuses clock fuel b realPath) w (fun _ _ => False) (fun _ w' => I (w_disk w')).
Proof using Type.
  intros HI Hg Hw. assert (leads (World.lstat env refuses clock realPath) w (fun _ _ => False) (fun _ w' => I (w_disk w'))) as Hl.
  { pose proof (keeps_lstat env refuses clock I HI realPath (fun _ => False)) as Hk.
    eapply leads_mono; [apply Hk; [|done]|by intros a w' [_ []]|done]. intros d st' Hd Hst. by rewrite (proj1 (gone_lstat _ _) (Hg d Hd)) in Hst. }
  unfold canonicalise_object. destruct b; [|destruct fuel; [done|]]; apply leads_bind; (eapply leads_mono; [exact Hl|done|done]).
Qed.

(** A call that keeps the database and an invariant with which it is no harm
    to throw. *)
Lemma safe_step {A} I (m : ST Adding A) (k : A -> ST Adding unit) s1 (R : A -> Prop) :
  (forall s', I (disk_of s') -> ad_store s' = ad_store st -> thrown s') ->
  leads m s1 (fun a s' => (I (disk_of s') /\ ad_store s' = ad_store s1) /\ R a) (fun _ s' => I (disk_of s') /\ ad_store s' = ad_store s1) ->
  ad_store s1 = ad_store st ->
  (forall a s2, R a -> I (disk_of s2) -> ad_store s2 = ad_store st -> leads (k a) s2 (fun _ => returned) (fun _ => thrown)) ->
  leads (m ≫= k) s1 (fun _ => returned) (fun _ => thrown).
Proof using Type.
  intros Ht Hm He Hk. apply leads_bind. eapply leads_mono; [exact Hm| |].
  - intros a s2 [[Hi Hs] Ha]. apply Hk; [done|done|congruence].
  - intros e s2 [Hi Hs]. apply Ht; [done|congruence].
Qed.
Lemma framed_result {A} I (m : ST World A) (R : A -> Prop) s1 : keeps w_disk I m R -> I (disk_of s1) ->
  leads (on_calls m) s1 (fun a s' => (I (disk_of s') /\ ad_store s' = ad_store s1) /\ R a) (fun _ s' => I (disk_of s') /\ ad_store s' = ad_store s1).
Proof using Type.
  intros Hm Hs. apply leads_zoom, leads_zoom. eapply leads_mono; [apply (Hm (o_world (ad_opt s1)) Hs)| |done].
  intros a w [Hw Ha]. done.
Qed.

Lemma register_nothing dumpHash : Inv0 (disk_of st) -> gone realPath (disk_of st) ->
  leads (register dumpHash desc own) st (fun _ => returned) (fun _ => thrown).
Proof using Hwf HashLibLaws0 Hintact Hdb Hok Hnew env_objects env_farm env_shape now.
  intros Hi Hg. set (I := fun d => Inv0 d /\ gone realPath d).
  assert (forall k d, I d -> I (env k d)) as HI by (intros k d [? ?]; split; [by apply env_Inv0|by apply env_gone]).
  assert (forall s', I (disk_of s') -> ad_store s' = ad_store st -> thrown s') as Hthrow by (intros s' [? _]; by apply thrown_early).
  unfold register_dumped. cbv zeta. apply (safe_step I _ _ _ (fun _ => True) Hthrow); [|done|].
  { case_match; [by apply framed_result; [apply hash_at_frame|]|done]. }
  intros r s2 _ H2 He2. apply leads_bind, leads_zoom, leads_zoom.
  eapply leads_mono; [apply (canonicalise_gone I _ (o_world (ad_opt s2)) HI (fun d Hd => proj2 Hd) H2)|done|].
  intros e w Hw. by apply Hthrow.
Qed.

Lemma register_object dumpHash f rest :
  Inv0 (disk_of st) -> view_at (disk_of st) realPath = Some f -> dumped dumpMethod source f rest ->
  (dumpMethod = FileSerialisationMethod.NixArchive -> hashAlgo = SHA256 -> dumpHash = hash_result SHA256 (archive f)) ->
  leads (register dumpHash desc own) st (fun _ => returned) (fun _ => thrown).
Proof using Hwf Hdesc Hgood HashLibLaws0 Hstore Hintact Hdb Hok Hnew known_ok known_names known_old known_new env_objects env_farm env_temp now.
  intros Hi Hv Hd Hdump. destruct (dumped_ok f rest Hd) as [Hf Hh].
  set (I := World.Inv (object_path realStoreDir (ours ownInfo before)) (view_at (disk_of st)) (farm_ok realStoreDir known)).
  pose proof (env_ours env ds realStoreDir ownInfo s env_objects) as Henv.
  assert (forall d, I d -> Inv0 d /\ view_at d realPath = Some f) as HI0
    by exact (Inv2_Inv1 realStoreDir ownInfo before _ known (disk_of st) f Hi Hv).
  assert (forall k d, I d -> I (env k d)) as HI by exact (env_Inv2 env realStoreDir ownInfo before known Henv env_farm (disk_of st)).
  assert (forall s', I (disk_of s') -> ad_store s' = ad_store st -> thrown s') as Hthrow by (intros s' Hs'; apply thrown_early, HI0, Hs').
  assert (I (disk_of st)) as H0 by (split; [by intros p _|apply Hi]).
  unfold register_dumped. cbv zeta. apply (safe_step I _ _ _ (fun r => r = hash_result SHA256 (archive f)) Hthrow); [|done|].
  { case_match eqn:Hc.
    - apply framed_result; [|done]. eapply keeps_mono; [apply (hash_at_keeps env refuses clock I HI realPath _ _ f); intros d Hd'; by apply HI0|].
      intros r. by apply archive_hash.
    - apply orb_false_iff in Hc as [H1 H2]. apply bool_decide_eq_false in H1, H2. split; [done|]. apply Hdump.
      + destruct (decide (dumpMethod = FileSerialisationMethod.NixArchive)); [done|]. by destruct H1.
      + destruct (decide (hashAlgo = SHA256)); [done|]. by destruct H2. }
  intros r s2 -> H2 He2. apply (safe_step I _ _ _ (fun _ => True) Hthrow); [|done|].
  { apply framed_result; [|done]. exact (canonicalise_object_keeps env refuses clock realStoreDir fuel ownInfo before known Henv env_farm (disk_of st) _). }
  intros u s3 _ H3 He3. clear s2 H2 He2. apply (safe_step I _ _ _ (fun _ => True) Hthrow); [|done|].
  { eapply leads_mono; [apply (framed_opt I); [|exact H3]|done|done].
    apply (optimise_object_keeps env refuses clock autoOptimiseStore realStoreDir pid fuel ownInfo (archive f) (at_path_wf own Hwf) before
      objects_wf (view_at (disk_of s)) known known_ok known_names (others_known ds realStoreDir ownInfo s known known_old)) with (f := f) (rest := []);
      [|done..|by rewrite app_nil_r|done|done].
    intros g rest' q x He Hg Hgh Hq Hl. rewrite <- (app_nil_r (archive f)) in He. apply archive_inj in He as [<- _]; [|done..].
    by apply (known_new f rest q x). }
  intros u' s4 _ H4 He4. destruct (hash_of_wf SHA256 (archive f)) as [Hw Ha].
  destruct (made_info _ Hw Ha) as (i & Hmade & Hp & Hhash & Hinfo). cbn [hash_result hr_hash numBytesDigested]. rewrite Hmade.
  apply leads_bind. unfold leads at 1, slift. apply leads_zoom. unfold leads. rewrite He4.
  set (info := set_narSize _ i). assert (other info before = other ownInfo before) as Hother by (unfold other; cbn; by rewrite Hp).
  destruct (HI0 _ H4) as [Hi4 Hv4].
  assert (forall l, returned (mkAdding (ad_opt s4) l) = AddToStore.returned ds realStoreDir info s (mkAdding (ad_opt s4) l)) as Hr
    by (intros l; unfold AddToStore.returned; cbn; by rewrite Hp).
  assert (forall l, thrown (mkAdding (ad_opt s4) l) = AddToStore.thrown ds realStoreDir info repair s (mkAdding (ad_opt s4) l)) as Ht
    by (intros l; unfold AddToStore.thrown; cbn; by rewrite Hp).
  destruct (registerValidPath storeDir now info (ad_store st)) as [[[]|e] l] eqn:Hreg.
  - rewrite Hr. apply (rows_returned ds realStoreDir now info s known (Hinfo _) Hintact st _ f); [done|done|by rewrite Hother| |].
    + cbn. by rewrite Hp.
    + split; [exact Hreg|]. split; [exact Hhash|done].
  - rewrite Ht. apply (rows_thrown ds realStoreDir now info repair s known (Hinfo _) Hintact st); [done|done| |by rewrite Hother|].
    + cbn. by rewrite Hp.
    + right. by exists e.
Qed.
End registered.

(** *** The whole *)

(** What was read is ready to be put at its path. *)
Definition prepared (x : option (list bytes)) (dump : bytes) (d : Disk) : Prop :=
  match x with
  | None => methodsMatch = true /\ dump = source
  | Some p => exists f rest, in_temp (Some (p, f)) d /\ dumped dumpMethod source f rest
  end.
(** The hash of the dump serves for that of the object. *)
Definition hashed_exactly (dumpHash : HashResult) : Prop :=
  dumpMethod = FileSerialisationMethod.NixArchive -> hashAlgo = SHA256 ->
  forall f rest, dumped dumpMethod source f rest -> dumpHash = hash_result SHA256 (archive f).

Notation install := (install env refuses clock debris counter umask preallocateContents fallocate_supported autoOptimiseStore
  dirGrantsDefaultAcl ds realStoreDir pid fuel now name dumpMethod hashMethod hashAlgo repair).

Lemma install_ok x dump dumpHash desc st :
  wf_StorePath own -> makeFixedOutputPathFromCA storeDir name desc = Ok own -> wf_Hash (getHash desc) ->
  db_of st = db_of s -> store_ok ds (ad_store st) -> (repair = false -> ~ valid_in s own) ->
  Inv0 (disk_of st) -> prepared x dump (disk_of st) -> hashed_exactly dumpHash ->
  leads (install x dump dumpHash desc own) st (fun _ => returned) (fun _ => thrown).
Proof using HashLibLaws0 Hsource Hstore Hintact known_ok known_names known_old known_new env_objects env_farm env_temp env_shape
    env_in_temp debris_apart honest.
  intros Hwf Hdesc Hgood Hdb Hok Hnew Hi Hx Hh. unfold AddFromDump.install. cbv zeta.
  assert (forall s', Inv0 (disk_of s') -> ad_store s' = ad_store st -> thrown s') as Hthrow
    by (intros s'; by apply (thrown_early Hwf st Hdb Hok Hnew)).
  assert (exists y, in_temp y (disk_of st) /\ match x, y with
      | None, None => methodsMatch = true /\ dump = source
      | Some p, Some (p', f) => p = p' /\ exists rest, dumped dumpMethod source f rest
      | _, _ => False end) as (y & Hy & Hxy).
  { destruct x as [p|]; [|by exists None]. destruct Hx as (f & rest & Hp & Hf). exists (Some (p, f)). split; [done|]. split; [done|]. by exists rest. }
  apply leads_bind, leads_zoom, leads_zoom.
  eapply leads_mono; [by apply (delete_phase Hwf y)| |intros e w Hw; by apply Hthrow].
  intros u w (Hw & Hwy & Hg). set (s1 := mkAdding _ _). apply leads_bind, leads_zoom, leads_zoom.
  change (o_world (ad_opt s1)) with w. destruct x as [p|], y as [[p' f]|]; try done.
  - destruct Hxy as [<- [rest Hf]].
    eapply leads_mono; [by apply (move_phase Hwf p f)| |intros e w' Hw'; by apply Hthrow].
    intros u' w' [Hw' [Hv|Hg']]; set (s2 := mkAdding _ _).
    + by apply (register_object Hwf desc Hdesc Hgood s2 Hdb Hok Hnew dumpHash f rest); [| | |intros; eapply Hh].
    + by apply (register_nothing Hwf desc s2 Hdb Hok Hnew).
  - destruct Hxy as [Hm ->]. apply bool_decide_eq_true in Hm. rewrite <- Hm. apply leads_bind.
    eapply leads_mono; [apply (restore_as_ok env refuses clock debris umask preallocateContents fallocate_supported (fun d => Inv0 d) env_Inv0 debris_apart
      realStoreDir (StorePath.to_string own) (wf_StorePath_good own Hwf))|..].
    + intros d d'. by apply (Inv0_own Hwf).
    + apply env_own.
    + done.
    + done.
    + apply Hg.
    + intros rest w' [Hw' (f & Hf & Hv)]. unfold leads at 1, mret at 1, ST_ret at 1. set (s2 := mkAdding _ _).
      by apply (register_object Hwf desc Hdesc Hgood s2 Hdb Hok Hnew dumpHash f rest); [| | |intros; eapply Hh].
    + intros e w' Hw'. by apply Hthrow.
Qed.

Lemma destination_wf p : destination p -> wf_StorePath p.
Proof using HashLibLaws0 Hname.
  intros (b & desc & _ & Hd & Hp). eapply makeFixedOutputPathFromCA_wf; [|exact Hname|exact Hp].
  rewrite (fromParts_hash _ _ _ _ Hd). apply hash_of_wf.
Qed.

(** Before anything is done at the path: every valid object is kept. *)
Definition object_name (n : bytes) : Prop := exists p, valid_in s p /\ n = baseName p.
Notation InvE := (World.Inv (object_path realStoreDir object_name) (view_at (disk_of s)) (farm_ok realStoreDir known)).

Lemma InvE_Inv0 d : InvE d -> Inv0 d.
Proof using Type. intros [Hh Hf]. split; [|done]. intros p (n & r & -> & q & Hq & _ & Hn). apply Hh. exists n, r. split; [done|]. by exists q. Qed.

Lemma env_InvE k d : InvE d -> InvE (env k d).
Proof using env_objects env_farm.
  intros [Hh Hf]. split; [|by apply env_farm]. intros p (n & r & -> & q & Hq & ->).
  pose proof (env_objects k d q r (or_introl Hq)) as He. unfold AddToStore.toRealPath, StorePath.to_string in He.
  rewrite <- app_assoc in He. cbn [app] in He. rewrite He. apply Hh. exists (baseName q), r. split; [done|]. by exists q.
Qed.

Lemma InvE_tmp n q d d' : InvE d -> (forall p, apart p (temp n ++ q) -> view_at d' p = view_at d p) -> InvE d'.
Proof using Hstore.
  apply Inv_view.
  - intros p (b & r & -> & x & Hx & ->). apply apart_app. pose proof (object_tmp x r #"tmp" n (objects_wf x Hx) (or_introl eq_refl)) as Ha.
    unfold AddToStore.toRealPath, StorePath.to_string in Ha. by rewrite <- app_assoc in Ha.
  - intros Hf Hs c f. rewrite Hs; [apply Hf|]. apply apart_app, links_tmp. by left.
Qed.

Lemma InvE_intact s' p r : InvE (disk_of s') -> db_of s' = db_of s -> row_at ds (db_of s') p r -> intact realStoreDir (disk_of s') p r.
Proof using Hintact.
  intros [Hh _] Hdb Hr. rewrite Hdb in Hr. destruct (Hintact p r Hr) as (f & Hf & Hrest). exists f. split; [|done]. rewrite Hh; [done|].
  exists (baseName p), []. split; [done|]. exists p. split; [by exists r|done].
Qed.
Lemma InvE_thrown s' : InvE (disk_of s') -> db_of s' = db_of s -> thrown s'.
Proof using Hintact. intros Hi Hdb. split; [|done]. intros p r Hr _. by apply InvE_intact. Qed.
Lemma InvE_returned s' : InvE (disk_of s') -> db_of s' = db_of s -> valid_in s own -> returned s'.
Proof using Hintact.
  intros Hi Hdb Hv. split; [intros p r; by apply InvE_intact|]. intros p. rewrite Hdb. split; [auto|]. cbn. by intros [?| ->].
Qed.

(** *** Removing the temporary directory *)

Lemma cleanup_views n s' p : wf_StorePath p -> valid_in s p \/ p = own ->
  view_at (disk_of (ignoring (on_calls (deletePath env refuses clock fuel (temp n))) s')) (toRealPath p) = view_at (disk_of s') (toRealPath p).
Proof using env_objects env_temp_shape.
  intros Hp Hv. set (top := temp n).
  pose proof (deletePath_keeps env refuses clock (fun q => q = toRealPath p) (view_at (disk_of s')) (fun _ => True) top) as Hk.
  assert (forall q, q = toRealPath p -> apart q top) as H1.
  { intros q ->. rewrite <- (app_nil_r (toRealPath p)). apply object_tmp; [done|by left]. }
  specialize (Hk H1 (fun _ _ _ _ => I)).
  assert (forall k d, World.Inv (fun q => q = toRealPath p) (view_at (disk_of s')) (fun _ => True) d ->
    World.Inv (fun q => q = toRealPath p) (view_at (disk_of s')) (fun _ => True) (env k d)) as H2.
  { intros k d [Hh _]. split; [|done]. intros q ->. pose proof (env_objects k d p [] Hv) as He. rewrite app_nil_r in He. rewrite He. by apply Hh. }
  specialize (Hk H2 (fun k d r => env_temp_shape k d n r) fuel (o_world (ad_opt s')) (conj (fun _ _ => eq_refl) I)).
  unfold leads, ignoring, on_calls, on_opt, on_world, zoom in *.
  destruct (deletePath env refuses clock fuel top (o_world (ad_opt s'))) as [[a|e] w]; cbn; [destruct Hk as [[Hh _] _]|destruct Hk as [Hh _]]; by apply Hh.
Qed.

Lemma cleanup_store n s' : ad_store (ignoring (on_calls (deletePath env refuses clock fuel (temp n))) s') = ad_store s'.
Proof using Type.
  unfold ignoring, on_calls, on_opt, on_world, zoom. by destruct (deletePath _ _ _ _ _ _) as [r w].
Qed.

Lemma cleanup_intact n s' p r : wf_StorePath p -> valid_in s p \/ p = own ->
  intact realStoreDir (disk_of s') p r -> intact realStoreDir (disk_of (ignoring (on_calls (deletePath env refuses clock fuel (temp n))) s')) p r.
Proof using env_objects env_temp_shape.
  intros Hp Hv (f & Hf & Hrest). exists f. split; [|done]. by rewrite cleanup_views.
Qed.

Lemma cleanup_returned n s' : wf_StorePath own -> returned s' -> returned (ignoring (on_calls (deletePath env refuses clock fuel (temp n))) s').
Proof using Hstore env_objects env_temp_shape.
  intros Hwf [Hi Hv]. unfold AddToStore.returned. rewrite cleanup_store. split; [|done]. intros p r Hr.
  assert (valid_in s p \/ p = own) as Hp by (apply Hv; by exists r).
  apply cleanup_intact; [|done|by apply Hi]. destruct Hp as [Hp| ->]; [by apply objects_wf|done].
Qed.
Lemma cleanup_thrown n s' : thrown s' -> thrown (ignoring (on_calls (deletePath env refuses clock fuel (temp n))) s').
Proof using Hstore env_objects env_temp_shape.
  intros [Hi Hdb]. unfold AddToStore.thrown. rewrite cleanup_store. split; [|done]. intros p r Hr Hp.
  assert (valid_in s p) as Hv by (rewrite <- Hdb; by exists r). apply cleanup_intact; [by apply objects_wf|by left|by apply Hi].
Qed.

(** *** From the hash of the dump on *)

Notation add_dumped := (add_dumped env refuses clock debris counter umask preallocateContents fallocate_supported autoOptimiseStore
  dirGrantsDefaultAcl ds realStoreDir pid fuel now name dumpMethod hashMethod hashAlgo references repair).

Lemma in_temp_InvE_env x dump k d : InvE d /\ prepared x dump d -> InvE (env k d) /\ prepared x dump (env k d).
Proof using env_objects env_farm env_in_temp.
  intros [Hi Hp]. split; [by apply env_InvE|]. destruct x as [p|]; [|done]. destruct Hp as (f & rest & Hx & Hf).
  exists f, rest. split; [by apply in_temp_env|done].
Qed.

(** The hash for the content address. *)
Lemma content_hash x dump hb st :
  InvE (disk_of st) -> prepared x dump (disk_of st) -> (methodsMatch = true -> digested hb) ->
  leads (if methodsMatch then mret (hash_result hashAlgo hb)
         else on_calls (hash_at env refuses clock (default [] x) fim hashAlgo)) st
    (fun r s' => (InvE (disk_of s') /\ prepared x dump (disk_of s')) /\ ad_store s' = ad_store st /\
       exists b, digested b /\ r = hash_result hashAlgo b)
    (fun _ s' => InvE (disk_of s') /\ ad_store s' = ad_store st).
Proof using HashLibLaws0 env_objects env_farm env_in_temp.
  intros Hi Hp Hd. unfold digested in *. destruct methodsMatch eqn:Hm.
  { split; [done|]. split; [done|]. exists hb. split; [by apply Hd|done]. }
  destruct x as [p|]; [|destruct Hp as [Hp _]; congruence]. destruct Hp as (f & rest & Hx & Hf). cbn [default].
  set (I := fun d => InvE d /\ in_temp (Some (p, f)) d).
  assert (forall k d, I d -> I (env k d)) as HI by (intros k d [? ?]; split; [by apply env_InvE|by apply in_temp_env]).
  eapply leads_mono; [apply (framed_result I); [apply (hash_at_keeps env refuses clock I HI p fim hashAlgo f)|by split]| |].
  - by intros d [_ [_ ?]].
  - intros r s' [[[Hi' Hx'] He] (b & Hb & ->)]. split; [split; [done|by exists f, rest]|]. split; [done|].
    exists b. split; [by exists f, rest|done].
  - intros e s' [[Hi' _] He]. done.
Qed.

Lemma add_dumped_ok x dump hb st :
  InvE (disk_of st) -> ad_store st = ad_store s -> prepared x dump (disk_of st) -> (methodsMatch = true -> digested hb) ->
  hashed_exactly (hash_result hashAlgo hb) ->
  leads (add_dumped x dump (hash_result hashAlgo hb)) st (fun p s' => destination p /\ returned s') (fun _ => thrown).
Proof using HashLibLaws0 Hname Hsource Hstore Hown Hcache Hintact known_ok known_names known_old known_new env_objects env_farm env_temp env_shape
    env_in_temp debris_apart honest.
  intros Hi Hst Hx Hd Hexh. unfold AddFromDump.add_dumped. apply leads_bind.
  eapply leads_mono; [by apply (content_hash x dump hb)| |intros e s' [Hi' He]; apply InvE_thrown; [done|by rewrite He, Hst]].
  intros r s1 ([Hi1 Hx1] & He1 & b & Hb & ->). rewrite Hst in He1. clear Hi Hx st Hst Hd.
  assert (db_of s1 = db_of s) as Hdb1 by (by rewrite He1).
  cbn [hash_result hr_hash]. apply leads_bind. unfold leads at 1, slift.
  destruct (fromParts hashMethod _ _) as [desc|e] eqn:Hparts; [|by apply InvE_thrown].
  apply leads_bind. unfold leads at 1, slift. destruct (makeFixedOutputPathFromCA storeDir name desc) as [p|e] eqn:Hp; [|by apply InvE_thrown].
  assert (destination p) as Hdest by (by exists b, desc). assert (p = own) as -> by (by apply Hown).
  pose proof (destination_wf _ Hdest) as Hwf.
  assert (wf_Hash (getHash desc)) as Hgood by (rewrite (fromParts_hash _ _ _ _ Hparts); apply hash_of_wf).
  set (dumpHash := hash_result hashAlgo hb) in *.
  assert (forall st, ad_opt st = ad_opt s1 -> db_of st = db_of s -> store_ok ds (ad_store st) -> (repair = false -> ~ valid_in s own) ->
    leads (_ ← install x dump dumpHash desc own; mret own) st (fun p s' => destination p /\ returned s') (fun _ => thrown)) as Hinstall.
  { intros st Hop Hdb Hok Hnew. apply leads_bind. eapply leads_mono; [apply (install_ok x dump dumpHash desc st Hwf Hp Hgood Hdb Hok Hnew)|..].
    - rewrite Hop. by apply InvE_Inv0.
    - by rewrite Hop.
    - done.
    - intros u s' Hr. by split.
    - done. }
  apply leads_bind. destruct repair.
  { unfold leads at 1, mret at 1, ST_ret at 1. apply leads_bind. unfold leads at 1, mret at 1, ST_ret at 1. apply Hinstall; [done|done| |done]. by rewrite He1. }
  destruct (isValidPath_quiet ds own (ad_store s) Hstore) as (v & st' & Hq & Hdb & Hok). rewrite Hq in Hcache. cbn [fst] in Hcache.
  apply leads_zoom. unfold leads at 1. rewrite He1, Hq. destruct v.
  { split; [done|]. apply InvE_returned; [done|done|by apply Hcache]. }
  apply leads_bind, leads_zoom. unfold leads at 1, isValidPathUncached, isValidPath_, from_db. cbn [ad_store ad_opt].
  case_bool_decide as Hv; cbn [ad_store ad_opt].
  - assert (valid_in s own) as Hv' by (rewrite <- Hdb; by apply (valid_Query ds), Hv; apply Hok).
    apply leads_bind, leads_zoom. unfold leads, invalidatePathInfoCacheFor, set_cache, mret, ST_ret. split; [done|]. by apply InvE_returned.
  - apply (Hinstall (mkAdding (ad_opt s1) st')); [done|done|done|]. intros _ Hv'. apply Hv. apply (valid_Query ds); [apply Hok|]. by rewrite Hdb.
Qed.

(** *** What is hashed *)

Notation buffered := (take narBufferSize source).
Notation unread := (drop narBufferSize source).

Lemma stream_exact f rest : dumped dumpMethod source f rest ->
  hashed_exactly (hash_result hashAlgo (take (narBufferSize `max` (length source - length rest)) source)).
Proof using Hexact.
  intros Hd Hm Ha g rest' Hd'. destruct (dumped_inj _ _ _ _ _ _ Hd Hd') as [<- <-]. rewrite Ha. f_equal.
  pose proof (Hexact Hm Ha f rest Hd) as Hx. rewrite Hm in Hd. destruct Hd as (Hs & _). rewrite Hs. by apply stream_archive.
Qed.

Notation addToStoreFromDump := (addToStoreFromDump env refuses clock debris interrupted counter umask preallocateContents fallocate_supported
  autoOptimiseStore dirGrantsDefaultAcl narBufferSize ds realStoreDir pid fuel now name dumpMethod hashMethod hashAlgo references repair).

Lemma from_buffer : (length source <? narBufferSize)%nat && methodsMatch = true ->
  leads (add_dumped None buffered (hash_result hashAlgo buffered)) s (fun p s' => destination p /\ returned s') (fun _ => thrown).
Proof using HashLibLaws0 Hname Hsource Hstore Hown Hexact Hcache Hintact Hfarm known_ok known_names known_old known_new env_objects env_farm env_temp env_shape
    env_in_temp debris_apart honest interrupted.
  intros [Hl Hm]%andb_true_iff. pose proof Hl as Hlt%Nat.ltb_lt. assert (buffered = source) as -> by (apply take_ge; lia).
  apply add_dumped_ok; [by split; [intros p _|]|done|done| |].
  - intros _. unfold digested. by rewrite Hm, Hl.
  - intros Hnar Ha f rest Hd. rewrite <- (stream_exact f rest Hd Hnar Ha f rest Hd), take_ge; [done|lia].
Qed.

Lemma from_temp : (length source <? narBufferSize)%nat && methodsMatch = false ->
  leads ('(tempDir, _) ← on_calls (createTempDirInStore env refuses clock interrupted counter umask realStoreDir pid fuel);
         let tempPath := tempDir ++ [ #"x"] in
         finally
           (rest ← on_calls (restore_as env refuses clock debris umask preallocateContents fallocate_supported tempPath dumpMethod
                               (canonicalRestore dirGrantsDefaultAcl dumpMethod) (buffered ++ unread));
            dumpHash ← slift (hash_stream hashAlgo (buffered ++ take (length unread - length rest) unread));
            add_dumped (Some tempPath) [] dumpHash)
           (ignoring (on_calls (deletePath env refuses clock fuel tempDir)))) s
    (fun p s' => destination p /\ returned s') (fun _ => thrown).
Proof using HashLibLaws0 Hname Hsource Hstore Hown Hexact Hcache Hintact Hfarm known_ok known_names known_old known_new env_objects env_farm env_temp env_shape
    env_in_temp env_temp_shape debris_apart honest.
  intros Hb. apply leads_bind, leads_zoom, leads_zoom. unfold createTempDirInStore.
  eapply leads_mono; [apply (createTempDirInStore_ok env refuses clock interrupted counter umask realStoreDir pid (fun d => InvE d) env_InvE)|..].
  - intros n d d' Hi [Hv _]. apply (InvE_tmp n [] d); [done|]. by rewrite app_nil_r.
  - exact env_in_temp.
  - split; [by intros p _|done].
  - intros [tempDir opened] w [Hw (n & Htemp & Hfresh)]. cbn [fst] in Htemp, Hfresh. subst tempDir. set (s1 := mkAdding _ _). cbv beta iota zeta.
    apply leads_finally. apply (leads_mono _ _ (fun p s' => destination p /\ returned s') _ (fun _ => thrown)); cycle 1.
    { intros p s' [Hp Hr]. split; [done|]. apply cleanup_returned; [|exact Hr]. rewrite <- (Hown p Hp). by apply destination_wf. }
    { intros e s'. apply cleanup_thrown. }
    rewrite take_drop. apply leads_bind, leads_zoom, leads_zoom.
    eapply leads_mono; [apply (restore_as_ok env refuses clock debris umask preallocateContents fallocate_supported (fun d => InvE d) env_InvE debris_apart (temp n) #"x")|..].
    + refine (bool_decide_unpack (good _) _). vm_compute. exact Logic.I.
    + intros d d'. apply InvE_tmp.
    + intros k d. apply env_in_temp.
    + done.
    + exact Hw.
    + apply Hfresh.
    + intros rest w' [Hw' (f & Hf & Hv)]. set (s2 := mkAdding _ _). rewrite hash_stream_ok. apply leads_bind. unfold leads at 1, slift.
      rewrite (stream_eq _ _ rest (dumped_length _ _ _ _ Hf)). apply add_dumped_ok; [done|done| | |by apply (stream_exact f)].
      * exists f, rest. split; [|done]. split; [by exists n|exact Hv].
      * intros Hm. unfold digested. rewrite Hm in *. rewrite andb_true_r in Hb. rewrite Hb. by exists f, rest.
    + intros e w' Hw'. by apply InvE_thrown.
  - intros e w Hw. by apply InvE_thrown.
Qed.

End integrity.

(** ** Concrete runs *)

(** In [bare_store], with a buffer of [n] bytes, an archive to be addressed by
    its hash. *)
Definition dump_run (n : nat) (source : bytes) : result StorePath * Adding :=
  @addToStoreFromDump prefix_HashLib (fun _ d => d) (fun _ => None) (fun _ => 5) (fun _ _ d => d) (fun _ => false) Z.of_nat 0x12 true true true false
    n [ #"nix"; #"store"] [ #"s"] 7 3 1700000000 #"foo" FileSerialisationMethod.NixArchive ContentAddressMethod.NixArchive SHA256 ∅ false source bare_store.

Definition dumped_path : StorePath := match (dump_run 10 (archive one_file)).1 with Ok p => p | Throw _ => example_path end.

Lemma one_file_ok : ok_file one_file /\ (height one_file <= narMaxDepth)%nat.
Proof. split; [constructor; vm_compute; reflexivity|vm_compute; lia]. Qed.

Lemma dumped_one f rest : dumped FileSerialisationMethod.NixArchive (archive one_file) f rest -> f = one_file /\ rest = [].
Proof.
  intros Hd. apply (dumped_inj _ _ _ _ _ _ Hd). split; [by rewrite app_nil_r|]. apply one_file_ok.
Qed.

Lemma dumped_destination p :
  @destination prefix_HashLib 10 [ #"nix"; #"store"] #"foo" FileSerialisationMethod.NixArchive ContentAddressMethod.NixArchive SHA256 ∅ (archive one_file) p ->
  p = dumped_path.
Proof.
  intros (b & desc & Hb & Hd & Hp). unfold digested in Hb.
  change (methodsMatch _ _) with true in Hb. change (length (archive one_file) <? 10)%nat with false in Hb. cbv iota in Hb.
  destruct Hb as (f & rest & Hf & ->). apply dumped_one in Hf as [-> ->].
  assert (Ok p = Ok dumped_path) as He; [|exact (f_equal (fun r => match r with Ok q => q | Throw _ => p end) He)].
  rewrite <- Hp. injection Hd as <-. vm_compute. reflexivity.
Qed.


(** What follows an archive is hashed with it as far as it fits in the buffer:
    the row then tells another size than that of the object's archive.  With a
    smaller buffer it tells the right one. *)
Lemma trailing_bytes_registered :
  let source := archive one_file ++ #"rest" in
  (exists p, (dump_run 1000 source).1 = Ok p) /\
  (row_narSize <$> ValidPaths (db (ad_store (dump_run 1000 source).2))) = [Some (Z.of_nat (length source))] /\
  (fun s => view_at (w_disk (o_world (ad_opt s))) [ #"s"; match (dump_run 1000 source).1 with Ok p => StorePath.to_string p | Throw _ => [] end])
    (dump_run 1000 source).2 = Some one_file /\
  (row_narSize <$> ValidPaths (db (ad_store (dump_run 10 source).2))) = [Some (Z.of_nat (length (archive one_file)))].
Proof. cbv zeta. split; [eexists; vm_compute; reflexivity|]. split; [|split]; vm_compute; reflexivity. Qed.

(** [lockedByUs] of an earlier attempt serves for a directory that could not
    be opened: the directory is returned unlocked. *)
Lemma unlocked_directory_returned :
  (createTempDirInStore (fun k d => if (k =? 3)%nat then update_path (take_entry 5 #"tmp-7-0") [ #"s"] d else d)
     (fun k => if (k =? 5)%nat then Some other_error else None) (fun _ => 5) (fun _ => false) Z.of_nat 0x12 [ #"s"] 7 3
     (o_world (ad_opt bare_store))).1 = Ok ([ #"s"; #"tmp-7-4"], false).
Proof. vm_compute. reflexivity. Qed.

(** [moveFile] returns although nothing was moved. *)
Lemma move_not_done :
  let '(r, w) := moveFile (fun _ d => d) (fun k => if (k =? 0)%nat then Some other_error else None) (fun _ => 5) Z.of_nat 0x12 7 3
    [ #"s"; #".links"] [ #"s"; #"x"] (o_world (ad_opt bare_store)) in
  r = Ok () /\ lookup_path (w_disk w) [ #"s"; #"x"] = None /\ is_Some (lookup_path (w_disk w) [ #"s"; #".links"]).
Proof. vm_compute. split; [reflexivity|]. split; [reflexivity|]. eexists. reflexivity. Qed.
