(* ===== verification/Settings.v ===== *)
(** * Settings: configuration files

    libutil/configuration.cc with config-impl.hh, config-global.cc and
    [loadConfFile] of libstore/globals.cc: settings of each type, the maps of
    their names, the files that assign to them, and the settings that are
    assigned before they are registered.  The file system is the parameters
    [pathExists] and [readFile]. *)

From S2P Require Export Strings Decimal StoreDir.
Local Open Scope Z_scope.

(** [tokenizeString] with the default separators. *)
Definition whitespace : bytes := [" "%char; bZ 9; bZ 10; bZ 13].
Definition tokens (s : bytes) : list bytes := tokenizeString whitespace s.
Definition newline : ascii := bZ 10.

(** ** [std::map] *)

(** [emplace] *)
Definition emplace {A} (k : bytes) (x : A) (m : gmap bytes A) : gmap bytes A :=
  match m !! k with Some _ => m | None => <[k := x]> m end.
(** The elements in the order of their keys. *)
Definition map_iter {A} (m : gmap bytes A) : list (bytes * A) :=
  omap (fun k => (fun x => (k, x)) <$> m !! k) (set_iter (dom m)).

(** ** Values *)

(** Integer types have a sign and a number of bits; a path is its string.
    Sets of paths are left out. *)
Inductive Value :=
  | VString (s : bytes)
  | VOptString (s : option bytes)
  | VBool (b : bool)
  | VInt (is_signed : bool) (bits : Z) (n : Z)
  | VStrings (l : list bytes)
  | VStringSet (X : gset bytes)
  | VStringMap (m : gmap bytes bytes)
  | VPath (p : bytes)
  | VAbsolutePath (p : bytes)
  | VOptAbsolutePath (p : option bytes)
  | VPaths (l : list bytes).

(** [boost::lexical_cast] to a signed type. *)
Class SignedCast := signed_cast : forall bits : Z, bytes -> option Z.
(** [std::to_string] *)
Definition print_int (n : Z) : bytes := if n <? 0 then #"-" ++ dec (- n) else dec n.
Class SignedCastLaws `{SignedCast} : Prop :=
  signed_cast_print : forall bits n, 0 < bits <= 64 -> - 2 ^ (bits - 1) <= n < 2 ^ (bits - 1) -> signed_cast bits (print_int n) = Some n.

Section values.
Context `{LexicalCast} `{SignedCast}.

(** Conversion to an integer type. *)
Definition to_int (is_signed : bool) (bits : Z) (n : Z) : Z :=
  if is_signed then (n + 2 ^ (bits - 1)) mod 2 ^ bits - 2 ^ (bits - 1) else n mod 2 ^ bits.

Definition toupper (c : ascii) : ascii := if in_range "a" "z" c then bZ (Zb c - 32) else c.

(** [string2IntWithUnitPrefix] of util.hh: the product is unsigned, of 64 bits. *)
Definition string2IntWithUnitPrefix (is_signed : bool) (bits : Z) (s : bytes) : result Z :=
  '(s, multiplier) ←
    match last s with
    | None => Ok (s, 1)
    | Some c =>
        let u := toupper c in
        if in_range "A" "Z" u then
          multiplier ← (if decide (u = "K"%char) then Ok (2 ^ 10) else if decide (u = "M"%char) then Ok (2 ^ 20)
                        else if decide (u = "G"%char) then Ok (2 ^ 30) else if decide (u = "T"%char) then Ok (2 ^ 40)
                        else Throw UsageError);
          Ok (removelast s, multiplier)
        else Ok (s, 1)
    end;
  n ← from_opt UsageError (if is_signed then signed_cast bits s else string2Int (2 ^ bits) s);
  Ok (to_int is_signed bits (u64 (n * multiplier))).

Definition parseAbsolutePath (str : bytes) : result bytes :=
  if decide (str = []) then Throw UsageError else canonPath_plain str.

Definition parse_bool (str : bytes) : result bool :=
  if bool_decide (str ∈ [ #"true"; #"yes"; #"1"]) then Ok true
  else if bool_decide (str ∈ [ #"false"; #"no"; #"0"]) then Ok false
  else Throw UsageError.

Definition parse_map (str : bytes) : gmap bytes bytes :=
  foldl (fun res s => match find_char "=" s with Some eq => emplace (take eq s) (drop (S eq) s) res | None => res end) ∅ (tokens str).

(** [BaseSetting<T>::parse]; [T] is the type of the value the setting has. *)
Definition parse (v : Value) (str : bytes) : result Value :=
  match v with
  | VString _ => Ok (VString str)
  | VOptString _ => Ok (VOptString (if decide (str = []) then None else Some str))
  | VBool _ => VBool <$> parse_bool str
  | VInt sg bits _ => match string2IntWithUnitPrefix sg bits str with Ok n => Ok (VInt sg bits n) | Throw _ => Throw UsageError end
  | VStrings _ => Ok (VStrings (tokens str))
  | VStringSet _ => Ok (VStringSet (list_to_set (tokens str)))
  | VStringMap _ => Ok (VStringMap (parse_map str))
  | VPath _ => if decide (str = []) then Throw UsageError else Ok (VPath str)
  | VAbsolutePath _ => VAbsolutePath <$> parseAbsolutePath str
  | VOptAbsolutePath _ =>
      if decide (str = []) then Ok (VOptAbsolutePath None) else (fun p => VOptAbsolutePath (Some p)) <$> parseAbsolutePath str
  | VPaths _ => Ok (VPaths (tokens str))
  end.

(** [BaseSetting<T>::to_string] *)
Definition to_string (v : Value) : bytes :=
  match v with
  | VString s => s
  | VOptString o => default [] o
  | VBool b => if b then #"true" else #"false"
  | VInt _ _ n => print_int n
  | VStrings l | VPaths l => concatStringsSep #" " l
  | VStringSet X => concatStringsSep #" " (set_iter X)
  | VStringMap m => foldl (fun l e => l ++ #" " ++ (e.1 ++ #"=" ++ e.2)) [] (map_iter m)
  | VPath p | VAbsolutePath p => p
  | VOptAbsolutePath o => default [] o
  end.

Definition isAppendable (v : Value) : bool :=
  match v with VStrings _ | VStringSet _ | VStringMap _ => true | _ => false end.

(** [BaseSetting<T>::appendOrSet]; what is in a map is not replaced. *)
Definition appendOrSet (v newValue : Value) (append : bool) : result Value :=
  match v, newValue with
  | VStrings l, VStrings l' => Ok (VStrings ((if append then l else []) ++ l'))
  | VPaths l, VPaths l' => Ok (VPaths ((if append then l else []) ++ l'))
  | VStringSet X, VStringSet X' => Ok (VStringSet ((if append then X else ∅) ∪ X'))
  | VStringMap m, VStringMap m' => Ok (VStringMap ((if append then m else ∅) ∪ m'))
  | _, _ => _ ← assertb (negb append); Ok newValue
  end.

(** ** Settings and configurations *)

Record AbstractSetting := mkSetting { s_name : bytes; s_aliases : gset bytes; overridden : bool; value : Value }.

Definition assign (v : Value) (s : AbstractSetting) : AbstractSetting := mkSetting (s_name s) (s_aliases s) (overridden s) v.
Definition setDefault (v : Value) (s : AbstractSetting) : AbstractSetting := if overridden s then s else assign v s.
Definition override (v : Value) (s : AbstractSetting) : AbstractSetting := mkSetting (s_name s) (s_aliases s) true v.

(** [set(value, append)], after which [overridden] is set. *)
Definition setting_set (str : bytes) (append : bool) (s : AbstractSetting) : result AbstractSetting :=
  v ← parse (value s) str;
  v ← appendOrSet (value s) v append;
  Ok (override v s).

(** A pointer to a setting is its position in [objects]. *)
Record SettingData := mkSettingData { isAlias : bool; setting : nat }.
Record Config := mkConfig { settings_ : gmap bytes SettingData; objects : list AbstractSetting; unknownSettings : gmap bytes bytes }.

Definition assign_object (i : nat) (str : bytes) (append : bool) : ST Config unit := fun c =>
  match s ← from_opt AssertFailed (objects c !! i); setting_set str append s with
  | Ok s => (Ok (), mkConfig (settings_ c) (<[i := s]> (objects c)) (unknownSettings c))
  | Throw e => (Throw e, c)
  end.

(** [Config::set] *)
Definition Config_set (name str : bytes) : ST Config bool :=
  c ← gets (fun c => c);
  match settings_ c !! name with
  | Some i => _ ← assign_object (setting i) str false; mret true
  | None =>
      if hasPrefix name #"extra-" then
        match settings_ c !! drop 6 name with
        | None => mret false
        | Some i =>
            s ← slift (from_opt AssertFailed (objects c !! setting i));
            if isAppendable (value s) then _ ← assign_object (setting i) str true; mret true else mret false
        end
      else mret false
  end.

(** Assigns what is kept for a name that was unknown. *)
Definition take_unknown (i : nat) (name : bytes) : ST Config bool :=
  c ← gets (fun c => c);
  match unknownSettings c !! name with
  | None => mret false
  | Some str =>
      _ ← assign_object i str false;
      _ ← Prelude.modify (fun c => mkConfig (settings_ c) (objects c) (delete name (unknownSettings c)));
      mret true
  end.

(** The loop over the aliases; the result are those that are warned about. *)
Fixpoint take_aliases (i : nat) (aliases : list bytes) (set : bool) : ST Config (list bytes) :=
  match aliases with
  | [] => mret []
  | alias :: aliases =>
      if set then
        u ← gets (fun c => unknownSettings c !! alias);
        warnings ← take_aliases i aliases set;
        mret (if u is Some _ then alias :: warnings else warnings)
      else set ← take_unknown i alias; take_aliases i aliases set
  end.

(** [Config::addSetting] *)
Definition addSetting (s : AbstractSetting) : ST Config (list bytes) :=
  i ← gets (fun c => length (objects c));
  _ ← Prelude.modify (fun c => mkConfig
        (foldl (fun m alias => emplace alias (mkSettingData true i) m) (emplace (s_name s) (mkSettingData false i) (settings_ c)) (set_iter (s_aliases s)))
        (objects c ++ [s]) (unknownSettings c));
  set ← take_unknown i (s_name s);
  take_aliases i (set_iter (s_aliases s)) set.

Definition Config_getSettings (overriddenOnly : bool) (res : gmap bytes bytes) (c : Config) : gmap bytes bytes :=
  foldl (fun res opt =>
    match objects c !! setting (opt.2) with
    | Some s => if negb (isAlias (opt.2)) && (negb overriddenOnly || overridden s) then emplace (opt.1) (to_string (value s)) res else res
    | None => res
    end) res (map_iter (settings_ c)).
Definition Config_resetOverridden (c : Config) : Config :=
  mkConfig (settings_ c) ((fun s => mkSetting (s_name s) (s_aliases s) false (value s)) <$> objects c) (unknownSettings c).

(** [fmt("%s = %s\n", name, value)] *)
Definition key_value (name str : bytes) : bytes := name ++ #" = " ++ str ++ [newline].
Definition Config_toKeyValue (c : Config) : bytes :=
  foldl (fun res s => if isAlias (s.2) then res ++ key_value (s.1) (from_option (fun o => to_string (value o)) [] (objects c !! setting (s.2))) else res)
    [] (map_iter (settings_ c)).

(** ** The global configuration *)

Record GlobalConfig := mkGlobalConfig { configRegistrations : list Config; g_unknown : gmap bytes bytes }.

(** [config->set] for each registered configuration until one knows the name. *)
Fixpoint set_first (name str : bytes) (configs : list Config) : result bool * list Config :=
  match configs with
  | [] => (Ok false, [])
  | c :: configs =>
      match Config_set name str c with
      | (Ok false, c) => let '(r, configs) := set_first name str configs in (r, c :: configs)
      | (r, c) => (r, c :: configs)
      end
  end.

Definition GlobalConfig_set (name str : bytes) : ST GlobalConfig bool := fun g =>
  match set_first name str (configRegistrations g) with
  | (Ok false, cs) => (Ok false, mkGlobalConfig cs (emplace name str (g_unknown g)))
  | (r, cs) => (r, mkGlobalConfig cs (g_unknown g))
  end.
Definition GlobalConfig_getSettings (overriddenOnly : bool) (res : gmap bytes bytes) (g : GlobalConfig) : gmap bytes bytes :=
  foldl (Config_getSettings overriddenOnly) res (configRegistrations g).
Definition GlobalConfig_resetOverridden (g : GlobalConfig) : GlobalConfig :=
  mkGlobalConfig (Config_resetOverridden <$> configRegistrations g) (g_unknown g).
Definition GlobalConfig_toKeyValue (g : GlobalConfig) : bytes :=
  foldl (fun res s => res ++ key_value (s.1) (s.2)) [] (map_iter (GlobalConfig_getSettings false ∅ g)).

(** [Register] *)
Definition Register (c : Config) (g : GlobalConfig) : GlobalConfig := mkGlobalConfig (configRegistrations g ++ [c]) (g_unknown g).
End values.

(** What [AbstractConfig] declares. *)
Class AbstractConfig (C : Type) := {
  config_set : bytes -> bytes -> ST C bool;
  unknown : C -> gmap bytes bytes;
  put_unknown : gmap bytes bytes -> C -> C;
  getSettings : bool -> gmap bytes bytes -> C -> gmap bytes bytes;
  resetOverridden : C -> C;
  toKeyValue : C -> bytes;
}.
#[export] Instance Config_config `{LexicalCast} `{SignedCast} : AbstractConfig Config := {|
  config_set := Config_set;
  unknown := unknownSettings;
  put_unknown u c := mkConfig (settings_ c) (objects c) u;
  getSettings := Config_getSettings;
  resetOverridden := Config_resetOverridden;
  toKeyValue := Config_toKeyValue;
|}.
#[export] Instance GlobalConfig_config `{LexicalCast} `{SignedCast} : AbstractConfig GlobalConfig := {|
  config_set := GlobalConfig_set;
  unknown := g_unknown;
  put_unknown u g := mkGlobalConfig (configRegistrations g) u;
  getSettings := GlobalConfig_getSettings;
  resetOverridden := GlobalConfig_resetOverridden;
  toKeyValue := GlobalConfig_toKeyValue;
|}.

(** ** Files *)

(** [operator/] of a path and a relative one. *)
Definition path_append (dir p : bytes) : bytes :=
  if decide (dir = []) then p else if decide (last dir = Some slash) then dir ++ p else dir ++ slash :: p.
(** [absPath(path, &dir)] of file-system.cc *)
Definition absPath (p dir : bytes) : result bytes := canonPath_plain (if is_absolute p then p else path_append dir p).

(** The lines; a last one without its end is one too.  [pos] is an
    [unsigned int]: what is read is shorter than 2^32 bytes. *)
Fixpoint lines_loop (fuel : nat) (contents : bytes) : list bytes :=
  match fuel, contents with
  | S fuel, _ :: _ => let '(line, rest) := to_sep [newline] contents in line :: lines_loop fuel (drop 1 rest)
  | _, _ => []
  end.
Definition config_lines (contents : bytes) : list bytes := lines_loop (length contents) contents.

Definition is_SystemError (e : exn) : bool := bool_decide (e = SystemError).

Section files.
Context (pathExists : bytes -> result bool) (readFile : bytes -> result bytes).

(** One line; [included] parses an included file.  What was parsed before an
    exception stays. *)
Definition parse_line (included : bytes -> bytes -> ST (list (bytes * bytes)) unit) (path line : bytes) : ST (list (bytes * bytes)) unit :=
  let line := match find_char "#" line with Some hash => take hash line | None => line end in
  match tokens line with
  | [] => mret ()
  | [_] => slift (Throw UsageError)
  | t0 :: t1 :: rest =>
      let ignoreMissing := bool_decide (t0 = #"!include") in
      if bool_decide (t0 = #"include") || ignoreMissing then
        _ ← slift (throw_if (negb (bool_decide (rest = []))) UsageError);
        p ← slift (absPath t1 (parent_path path));
        found ← slift (pathExists p);
        if found : bool then
          scatch (contents ← slift (readFile p); included contents p) is_SystemError (fun _ => mret ())
        else slift (throw_if (negb ignoreMissing) Error)
      else
        _ ← slift (throw_if (bool_decide (t1 <> #"=")) UsageError);
        Prelude.modify (fun parsed => parsed ++ [(t0, concatStringsSep #" " rest)])
  end.

(** [fuel] bounds the depth of inclusion. *)
Fixpoint parseConfigFiles (fuel : nat) (contents path : bytes) : ST (list (bytes * bytes)) unit :=
  match fuel with
  | O => slift (Throw AssertFailed)
  | S fuel => sforeach (parse_line (parseConfigFiles fuel) path) (config_lines contents)
  end.

Section config.
Context {C : Type} `{AbstractConfig C}.

Definition applyConfig (fuel : nat) (contents path : bytes) : ST C unit :=
  parsed ← slift (let '(r, l) := parseConfigFiles fuel contents path [] in _ ← r; Ok l);
  sforeach (fun e => _ ← config_set (e.1) (e.2); mret ()) parsed.

Definition warnUnknownSettings (c : C) : list bytes := set_iter (dom (unknown c)).
Definition reapplyUnknownSettings : ST C unit :=
  u ← gets unknown;
  _ ← Prelude.modify (put_unknown ∅);
  sforeach (fun e => _ ← config_set (e.1) (e.2); mret ()) (map_iter u).

(** [loadConfFile], given the names of the files and the variable NIX_CONFIG. *)
Definition applyConfigFile (fuel : nat) (path : bytes) : ST C unit :=
  scatch (contents ← slift (readFile path); applyConfig fuel contents path) is_SystemError (fun _ => mret ()).
Definition loadConfFile (fuel : nat) (nixConfFile : bytes) (nixUserConfFiles : list bytes) (nixConfEnv : option bytes) : ST C unit :=
  _ ← applyConfigFile fuel nixConfFile;
  _ ← Prelude.modify resetOverridden;
  _ ← sforeach (applyConfigFile fuel) (reverse nixUserConfFiles);
  match nixConfEnv with Some text => applyConfig fuel text #"NIX_CONFIG" | None => mret () end.
End config.
End files.

(** ** Lemmas: tokens *)

Definition word (s : bytes) : Prop := s <> [] /\ free whitespace s.

Lemma tokenize_fuel seps f1 : forall f2 s, (length s <= f1)%nat -> (length s <= f2)%nat -> tokenize_loop seps f1 s = tokenize_loop seps f2 s.
Proof.
  assert (forall s, length (skip_seps seps s) <= length s)%nat as Hskip.
  { induction s as [|c s IH]; cbn [skip_seps]; [done|]. destruct (is_sep seps c); cbn [length] in *; lia. }
  assert (forall s, length (to_sep seps s).2 <= length s)%nat as Hsep.
  { induction s as [|c s IH]; cbn [to_sep]; [done|]. destruct (is_sep seps c); [done|]. destruct (to_sep seps s) as [a b]. cbn in *. lia. }
  induction f1 as [|f1 IH]; intros f2 s H1 H2.
  - apply Nat.le_0_r, nil_length_inv in H1 as ->. by destruct f2.
  - pose proof (Hskip s) as Hs. destruct f2 as [|f2].
    { apply Nat.le_0_r, nil_length_inv in H2 as ->. done. }
    cbn [tokenize_loop]. destruct (skip_seps seps s) as [|c s']; [done|]. pose proof (Hsep s') as Hs'.
    destruct (to_sep seps s') as [a b]. cbn [snd length] in *. f_equal. apply IH; lia.
Qed.

Lemma tokens_skip s : tokens (" "%char :: s) = tokens s.
Proof.
  unfold tokens, tokenizeString. cbn [length]. rewrite (tokenize_fuel _ (length s) (S (length s)) s) by lia. done.
Qed.

Lemma word_char c s : word (c :: s) -> is_sep whitespace c = false /\ free whitespace s.
Proof. intros [_ [Hc Hs]%Forall_cons]. split; [by apply bool_decide_false|done]. Qed.

(** A word at the start; what follows it is empty or starts with a separator. *)
Lemma tokens_word w r : word w -> (r = [] \/ exists c r', r = c :: r' /\ c ∈ whitespace) -> tokens (w ++ r) = w :: tokens r.
Proof.
  intros Hw Hr. destruct w as [|c w]; [by destruct Hw|]. apply word_char in Hw as [Hc Hw]. unfold tokens at 1, tokenizeString.
  cbn [app length tokenize_loop skip_seps]. rewrite Hc, (to_sep_free _ _ _ Hw Hr). f_equal. apply tokenize_fuel; rewrite ?length_app; lia.
Qed.
Lemma tokens_one w : word w -> tokens w = [w].
Proof. intros Hw. rewrite <- (app_nil_r w) at 1. rewrite tokens_word by (done || by left). done. Qed.

Definition spaced (l : list bytes) : bytes := mjoin ((fun y => #" " ++ y) <$> l).

Lemma tokens_spaced l : Forall word l -> tokens (spaced l) = l.
Proof.
  induction 1 as [|w l Hw Hl IH]; [done|]. unfold spaced. rewrite fmap_cons. change (mjoin ((#" " ++ w) :: ?x)) with (" "%char :: w ++ mjoin x).
  rewrite tokens_skip. fold (spaced l). rewrite tokens_word; [by rewrite IH|done|]. destruct l as [|w' l]; [by left|]. right.
  exists " "%char. eexists. split; [done|]. left.
Qed.

Lemma tokens_concat l : Forall word l -> tokens (concatStringsSep #" " l) = l.
Proof.
  destruct l as [|w l]; [done|]. intros [Hw Hl]%Forall_cons. rewrite concatStringsSep_cons. fold (spaced l).
  rewrite tokens_word; [by rewrite tokens_spaced|done|]. destruct l as [|w' l]; [by left|]. right.
  exists " "%char. eexists. split; [done|]. left.
Qed.

Lemma tokenize_words seps fuel : forall s, Forall (fun w => w <> [] /\ free seps w) (tokenize_loop seps fuel s).
Proof.
  induction fuel as [|fuel IH]; intros s; cbn [tokenize_loop]; [destruct (skip_seps seps s); constructor|].
  assert (forall s, match skip_seps seps s with [] => True | c :: _ => is_sep seps c = false end) as Hskip.
  { clear. induction s as [|c s IH]; cbn [skip_seps]; [done|]. by destruct (is_sep seps c) eqn:Hc. }
  assert (forall s, free seps (to_sep seps s).1) as Hsep.
  { clear. induction s as [|c s IH]; cbn [to_sep]; [constructor|]. destruct (is_sep seps c) eqn:Hc; [constructor|].
    destruct (to_sep seps s) as [a b]. constructor; [by apply bool_decide_eq_false in Hc|done]. }
  specialize (Hskip s). destruct (skip_seps seps s) as [|c s']; [constructor|]. specialize (Hsep s'). destruct (to_sep seps s') as [a b].
  constructor; [|apply IH]. split; [done|]. constructor; [by apply bool_decide_eq_false in Hskip|done].
Qed.

(** A line keeps of a value its tokens. *)
Definition normal (s : bytes) : bytes := concatStringsSep #" " (tokens s).
Lemma tokens_normal s : tokens (normal s) = tokens s.
Proof. apply tokens_concat, tokenize_words. Qed.

(** ** Lemmas: maps *)

Lemma elem_of_map_iter {A} (m : gmap bytes A) k x : (k, x) ∈ map_iter m <-> m !! k = Some x.
Proof.
  unfold map_iter. rewrite list_elem_of_omap. split.
  - intros (k' & _ & He). destruct (m !! k') eqn:Hk; [|done]. by injection He as -> ->.
  - intros Hk. exists k. rewrite Hk. split; [|done]. apply elem_of_set_iter, elem_of_dom. by exists x.
Qed.
Lemma map_iter_keys {A} (m : gmap bytes A) : (map_iter m).*1 = set_iter (dom m).
Proof.
  unfold map_iter. assert (forall k, k ∈ set_iter (dom m) -> is_Some (m !! k)) as H by (intros k Hk; by apply elem_of_dom, elem_of_set_iter).
  induction (set_iter (dom m)) as [|k l IH]; [done|]. cbn [omap list_omap]. destruct (H k) as [x Hx]; [left|]. rewrite Hx. cbn.
  f_equal. apply IH. intros k' Hk'. apply H. by right.
Qed.
Lemma map_iter_NoDup {A} (m : gmap bytes A) : NoDup (map_iter m).*1.
Proof. rewrite map_iter_keys. apply NoDup_set_iter. Qed.
Lemma map_iter_map {A} (m : gmap bytes A) : list_to_map (map_iter m) = m.
Proof.
  apply map_eq. intros k. destruct (m !! k) as [x|] eqn:Hk.
  - apply elem_of_list_to_map_1; [apply map_iter_NoDup|by apply elem_of_map_iter].
  - apply not_elem_of_list_to_map_1. intros ([k' x] & -> & Hx)%list_elem_of_fmap. apply elem_of_map_iter in Hx. cbn in *. congruence.
Qed.

(** Distinct keys put in one after the other. *)
Lemma foldl_emplace {A} (l : list (bytes * A)) : NoDup l.*1 ->
  foldl (fun m e => emplace (e.1) (e.2) m) ∅ l = list_to_map l.
Proof.
  assert (forall m, NoDup l.*1 -> (forall k, k ∈ l.*1 -> m !! k = None) -> foldl (fun m e => emplace (e.1) (e.2) m) m l = list_to_map l ∪ m) as H.
  { induction l as [|[k x] l IH]; intros m; cbn [foldl fmap list_fmap fst snd]; [intros; cbn; by rewrite map_empty_union|].
    intros [Hk Hl]%NoDup_cons Hm. unfold emplace at 2. rewrite (Hm k) by left. rewrite IH; [|done|].
    - cbn. rewrite <- insert_union_r; [|by apply not_elem_of_list_to_map_1]. by rewrite insert_union_l.
    - intros k' Hk'. rewrite lookup_insert_ne; [apply Hm; by right|]. by intros ->. }
  intros Hn. rewrite H; [by rewrite map_union_empty|done|]. intros. apply lookup_empty.
Qed.

(** ** Lemmas: printing and parsing values *)

Definition representable (v : Value) : Prop :=
  match v with
  | VString _ | VBool _ => True
  | VOptString o => o <> Some []
  | VInt sg bits n => 0 < bits <= 64 /\ if sg then - 2 ^ (bits - 1) <= n < 2 ^ (bits - 1) else 0 <= n < 2 ^ bits
  | VStrings l | VPaths l => Forall word l
  | VStringSet X => forall s, s ∈ X -> word s
  | VStringMap m => forall k s, m !! k = Some s -> "="%char ∉ k /\ free whitespace k /\ free whitespace s
  | VPath p => p <> []
  | VAbsolutePath p => p <> [] /\ canonPath_plain p = Ok p
  | VOptAbsolutePath o => forall p, o = Some p -> p <> [] /\ canonPath_plain p = Ok p
  end.
(** Values of one type. *)
Definition same_type (v w : Value) : Prop :=
  match v, w with
  | VInt sg bits _, VInt sg' bits' _ => sg = sg' /\ bits = bits'
  | VString _, VString _ | VOptString _, VOptString _ | VBool _, VBool _ | VStrings _, VStrings _ | VStringSet _, VStringSet _
  | VStringMap _, VStringMap _ | VPaths _, VPaths _ | VPath _, VPath _ | VAbsolutePath _, VAbsolutePath _ | VOptAbsolutePath _, VOptAbsolutePath _ => True
  | _, _ => False
  end.

Section values_lemmas.
Context `{LC : LexicalCast} `{SC : SignedCast} {LCL : LexicalCastLaws} {SCL : SignedCastLaws}.

Lemma digit_not_unit c : is_digit c = true -> in_range "A" "Z" (toupper c) = false.
Proof using Type.
  intros Hc. assert (implb (is_digit c) (negb (in_range "A" "Z" (toupper c))) = true) as Hall by (clear Hc; by_chars c).
  rewrite Hc in Hall. by apply negb_true_iff in Hall.
Qed.

Lemma print_int_last n : exists c, last (print_int n) = Some c /\ is_digit c = true.
Proof using Type.
  assert (forall m p, 0 <= m -> exists c, last (p ++ dec m) = Some c /\ is_digit c = true) as Hd.
  { intros m p Hm. pose proof (dec_all m Hm) as Hall. pose proof (dec_not_nil m) as Hn. destruct (dec m) as [|c l _] using rev_ind; [done|].
    exists c. rewrite app_assoc, last_snoc. split; [done|]. by apply Forall_app in Hall as [_ Hc%Forall_inv]. }
  unfold print_int. destruct (Z.ltb_spec n 0); [apply (Hd (- n) #"-"); lia|apply (Hd n []); lia].
Qed.

Lemma to_int_in_range (sg : bool) bits n : 0 < bits <= 64 -> (if sg then - 2 ^ (bits - 1) <= n < 2 ^ (bits - 1) else 0 <= n < 2 ^ bits) ->
  to_int sg bits (u64 (n * 1)) = n.
Proof using Type.
  intros Hb Hn. rewrite Z.mul_1_r. unfold to_int, u64.
  assert (2 ^ 64 = 2 ^ (64 - bits) * 2 ^ bits) as Hp by (rewrite <- Z.pow_add_r by lia; f_equal; lia).
  assert (0 < 2 ^ bits) as Hpos by (apply Z.pow_pos_nonneg; lia). assert (0 < 2 ^ (64 - bits)) as Hpos' by (apply Z.pow_pos_nonneg; lia).
  assert ((n mod 2 ^ 64) mod 2 ^ bits = n mod 2 ^ bits) as Hmm.
  { rewrite Hp. rewrite Z.mul_comm, Z.rem_mul_r by lia. rewrite Z.mul_comm, Z_mod_plus_full. by rewrite Zmod_mod. }
  destruct sg.
  - rewrite <- Zplus_mod_idemp_l, Hmm, Zplus_mod_idemp_l. assert (2 ^ bits = 2 * 2 ^ (bits - 1)) as Hdouble by (rewrite <- Z.pow_succ_r by lia; f_equal; lia).
    rewrite Z.mod_small by lia. lia.
  - rewrite Hmm. by apply Z.mod_small.
Qed.

Lemma int_round_trip sg bits n : representable (VInt sg bits n) -> string2IntWithUnitPrefix sg bits (print_int n) = Ok n.
Proof using LCL SCL.
  intros [Hb Hn]. unfold string2IntWithUnitPrefix. destruct (print_int_last n) as (c & -> & Hc). rewrite (digit_not_unit c Hc).
  cbn [mbind result_bind]. assert ((if sg then signed_cast bits (print_int n) else string2Int (2 ^ bits) (print_int n)) = Some n) as ->.
  { destruct sg; [by apply signed_cast_print|]. unfold print_int. rewrite (proj2 (Z.ltb_ge n 0)) by lia.
    apply string2Int_dec; [done|]. apply Z.pow_le_mono_r; lia. }
  cbn [from_opt mbind result_bind]. by rewrite to_int_in_range.
Qed.

Lemma concat_spaced_map (m : gmap bytes bytes) :
  foldl (fun l e => l ++ #" " ++ (e.1 ++ #"=" ++ e.2)) [] (map_iter m) = spaced ((fun e => e.1 ++ #"=" ++ e.2) <$> map_iter m).
Proof using Type.
  assert (forall (l : list (bytes * bytes)) p, foldl (fun l e => l ++ #" " ++ (e.1 ++ #"=" ++ e.2)) p l = p ++ spaced ((fun e => e.1 ++ #"=" ++ e.2) <$> l)) as Hf; [|apply Hf].
  induction l as [|e l IH]; intros p; cbn [foldl]; [by rewrite app_nil_r|]. rewrite IH. unfold spaced. rewrite !fmap_cons, <- app_assoc. done.
Qed.

Lemma map_round_trip m : representable (VStringMap m) -> parse_map (to_string (VStringMap m)) = m.
Proof using Type.
  intros Hm. cbn [to_string]. rewrite concat_spaced_map. unfold parse_map.
  assert (forall k s, (k, s) ∈ map_iter m -> "="%char ∉ k /\ free whitespace k /\ free whitespace s) as Hall
    by (intros k s Hk%elem_of_map_iter; by apply Hm).
  rewrite tokens_spaced.
  - transitivity (foldl (fun m e => emplace (e.1) (e.2) m) (∅ : gmap bytes bytes) (map_iter m)); [|rewrite foldl_emplace by apply map_iter_NoDup; apply map_iter_map].
    generalize (∅ : gmap bytes bytes). induction (map_iter m) as [|[k s] l IH]; intros acc; [done|]. cbn [fmap list_fmap foldl fst snd].
    destruct (Hall k s) as (He & _); [left|]. change (k ++ #"=" ++ s) with (k ++ "="%char :: s). rewrite find_char_app by done.
    rewrite take_app_length, drop_S_app. apply IH. intros k' s' Hin. apply Hall. by right.
  - apply Forall_fmap, Forall_forall. intros [k s] Hk. destruct (Hall k s Hk) as (_ & Hfk & Hfs). cbn. split.
    + intros Hnil. apply (f_equal length) in Hnil. rewrite length_app in Hnil. cbn in Hnil. lia.
    + apply Forall_app. split; [done|]. constructor; [|done]. refine (bool_decide_unpack _ _). vm_compute. exact I.
Qed.

Lemma bool_round_trip b : parse_bool (if b : bool then #"true" else #"false") = Ok b.
Proof using Type. by destruct b. Qed.

(** What is printed is read back as the value, by any setting of its type. *)
Lemma parse_printed v w : representable v -> same_type w v -> parse w (to_string v) = Ok v.
Proof using LCL SCL.
  intros Hv Hw. destruct v as [s|o|b|sg bits n|l|X|m|p|p|o|l], w; try done; cbn [parse to_string].
  - destruct o as [[|c r]|]; [done|done|done].
  - by rewrite bool_round_trip.
  - destruct Hw as [-> ->]. by rewrite int_round_trip.
  - by rewrite tokens_concat.
  - rewrite tokens_concat; [do 2 f_equal; apply set_eq; intros s; by rewrite elem_of_list_to_set, elem_of_set_iter|].
    apply Forall_forall. intros s Hs%elem_of_set_iter. by apply Hv.
  - do 2 f_equal. by apply map_round_trip.
  - cbn in Hv. by rewrite decide_False.
  - destruct Hv as [Hn Hc]. unfold parseAbsolutePath. by rewrite decide_False, Hc.
  - destruct o as [q|]; [|done]. destruct (Hv q eq_refl) as [Hn Hc]. change (default [] (Some q)) with q. unfold parseAbsolutePath. by rewrite !decide_False, Hc.
  - by rewrite tokens_concat.
Qed.

(** White space that a line does not keep is in no value but a map's. *)
Definition normal_ok (v : Value) : Prop :=
  match v with VStringMap _ => True | _ => normal (to_string v) = to_string v end.

Lemma setting_set_value v s : representable v -> normal_ok v -> same_type (value s) v ->
  setting_set (normal (to_string v)) false s = Ok (override v s).
Proof using LCL SCL.
  intros Hv Hn Ht. unfold setting_set. assert (parse (value s) (normal (to_string v)) = Ok v) as ->.
  { rewrite <- (parse_printed v (value s)) by done. destruct v, (value s); try done; cbn [normal_ok] in Hn; try by rewrite Hn.
    cbn [parse]. unfold parse_map. by rewrite tokens_normal. }
  cbn [mbind result_bind]. clear Hn. destruct (value s), v; try done; cbn [appendOrSet mbind result_bind negb assertb]; try done; repeat f_equal.
  - by rewrite (left_id_L ∅ (∪)).
  - by rewrite (left_id_L ∅ (∪)).
Qed.
End values_lemmas.

(** ** Lemmas: files *)

Lemma lines_fuel f1 : forall f2 s, (length s <= f1)%nat -> (length s <= f2)%nat -> lines_loop f1 s = lines_loop f2 s.
Proof.
  assert (forall s, length (to_sep [newline] s).2 <= length s)%nat as Hsep.
  { induction s as [|c s IH]; cbn [to_sep]; [done|]. destruct (is_sep [newline] c); [done|]. destruct (to_sep [newline] s) as [a b]. cbn in *. lia. }
  induction f1 as [|f1 IH]; intros f2 s H1 H2.
  - apply Nat.le_0_r, nil_length_inv in H1 as ->. by destruct f2.
  - destruct s as [|c s]; [by destruct f2|]. destruct f2 as [|f2]; [cbn in H2; lia|]. cbn [lines_loop].
    pose proof (Hsep (c :: s)) as Hs. destruct (to_sep [newline] (c :: s)) as [a b]. cbn [snd length] in *. f_equal.
    apply IH; rewrite length_drop; cbn; lia.
Qed.

Lemma config_lines_cons l rest : newline ∉ l -> config_lines (l ++ newline :: rest) = l :: config_lines rest.
Proof.
  intros Hl. unfold config_lines. rewrite length_app. cbn [length]. rewrite Nat.add_succ_r.
  assert (to_sep [newline] (l ++ newline :: rest) = (l, newline :: rest)) as Hs.
  { apply to_sep_free; [apply Forall_forall; intros c Hc ->%list_elem_of_singleton; done|]. right. eexists _, _. split; [done|left]. }
  destruct l as [|c l]; cbn [lines_loop app] in *; rewrite Hs; f_equal; apply lines_fuel; rewrite ?length_app; cbn [drop length]; lia.
Qed.

(** A name and a value that a line can hold. *)
Definition name_ok (n : bytes) : Prop := word n /\ "#"%char ∉ n /\ n <> #"include" /\ n <> #"!include".
Definition line_ok (s : bytes) : Prop := "#"%char ∉ s /\ newline ∉ s.

Section files_lemmas.
Context (pathExists : bytes -> result bool) (readFile : bytes -> result bytes).

Lemma parse_assignment included path n s acc : name_ok n -> line_ok s ->
  parse_line pathExists readFile included path (n ++ #" = " ++ s) acc = (Ok (), acc ++ [(n, normal s)]).
Proof.
  intros (Hw & Hn & Hi & Hi') (Hs & _). unfold parse_line. rewrite (proj2 (find_char_None _ _)).
  2: { rewrite !elem_of_app. intros [?|[Hin|?]]; [done| |done]. revert Hin. refine (bool_decide_unpack _ _). vm_compute. exact I. }
  assert (tokens (n ++ #" = " ++ s) = n :: #"=" :: tokens s) as ->.
  { rewrite tokens_word; [|done|right; eexists _, _; split; [done|left]]. f_equal. change (#" = " ++ s) with (" "%char :: #"=" ++ " "%char :: s).
    rewrite tokens_skip, tokens_word; [by rewrite tokens_skip| |right; eexists _, _; split; [done|left]].
    split; [done|]. refine (bool_decide_unpack _ _). vm_compute. exact I. }
  cbv zeta. rewrite (bool_decide_false (n = #"include")), (bool_decide_false (n = #"!include")) by done. cbn [orb].
  rewrite bool_decide_false by (intros Hne; by destruct Hne). unfold throw_if. by rewrite slift_bind_Ok.
Qed.

(** What [toKeyValue] prints is parsed to what it printed, but for white space. *)
Lemma parse_key_values fuel path (l : list (bytes * bytes)) : Forall (fun e => name_ok (e.1) /\ line_ok (e.2)) l ->
  parseConfigFiles pathExists readFile (S fuel) (foldl (fun res s => res ++ key_value (s.1) (s.2)) [] l) path [] = (Ok (), prod_map id normal <$> l).
Proof.
  intros Hl. assert (foldl (fun res s => res ++ key_value (s.1) (s.2)) [] l = mjoin ((fun e => key_value (e.1) (e.2)) <$> l)) as ->.
  { assert (forall p, foldl (fun res s => res ++ key_value (s.1) (s.2)) p l = p ++ mjoin ((fun e => key_value (e.1) (e.2)) <$> l)) as H; [|apply H].
    clear Hl. induction l as [|e l IH]; intros p; cbn [foldl]; [by rewrite app_nil_r|]. rewrite IH, fmap_cons, <- app_assoc. done. }
  cbn [parseConfigFiles]. set (line := parse_line _ _ _ _).
  assert (forall acc, sforeach line (config_lines (mjoin ((fun e => key_value (e.1) (e.2)) <$> l))) acc = (Ok (), acc ++ (prod_map id normal <$> l))) as H; [|apply H].
  induction Hl as [|[n s] l [Hn Hs] Hl IH]; intros acc; [by rewrite app_nil_r|]. rewrite fmap_cons. cbn [fst snd] in *.
  change (mjoin (key_value n s :: ?x)) with (key_value n s ++ mjoin x). unfold key_value at 1. rewrite <- !app_assoc. cbn [app].
  rewrite (app_assoc n), (app_assoc (n ++ _)). rewrite config_lines_cons.
  - cbn [sforeach]. rewrite <- (app_assoc n).
    assert (line (n ++ #" = " ++ s) acc = (Ok (), acc ++ [(n, normal s)])) as Hline by by apply parse_assignment.
    rewrite (ST_bind_Ok _ _ _ _ _ Hline), IH, <- app_assoc. done.
  - rewrite !elem_of_app. intros [[Hin|Hin]|Hin].
    + destruct Hn as ([_ Hf] & _). apply (proj1 (Forall_forall _ _) Hf _ Hin). refine (bool_decide_unpack _ _). vm_compute. exact I.
    + revert Hin. refine (bool_decide_unpack _ _). vm_compute. exact I.
    + by destruct Hs as (_ & ?).
Qed.

(** A file that includes itself is parsed for ever: no depth of recursion is
    enough. *)
Lemma include_itself_diverges fuel path p acc : absPath p (parent_path path) = Ok path -> word p -> "#"%char ∉ p ->
  pathExists path = Ok true -> readFile path = Ok (#"include " ++ p) ->
  parseConfigFiles pathExists readFile fuel (#"include " ++ p) path acc = (Throw AssertFailed, acc).
Proof.
  intros Hp Hw Hh He Hr. revert acc. induction fuel as [|fuel IH]; intros acc; [done|]. cbn [parseConfigFiles].
  assert (newline ∉ #"include " ++ p) as Hnl.
  { rewrite elem_of_app. intros [Hin|Hin]; [revert Hin; refine (bool_decide_unpack _ _); vm_compute; exact I|].
    destruct Hw as [_ Hf]. apply (proj1 (Forall_forall _ _) Hf _ Hin). refine (bool_decide_unpack _ _). vm_compute. exact I. }
  assert (config_lines (#"include " ++ p) = [ #"include " ++ p]) as ->.
  { unfold config_lines. cbn [length app lit]. change (#"include " ++ p) with ("i"%char :: #"nclude " ++ p) in *. cbn [length lines_loop].
    pose proof (to_sep_free [newline] ("i"%char :: #"nclude " ++ p) []) as Hs. rewrite app_nil_r in Hs. rewrite Hs; [|..|by left].
    - cbn [drop]. by destruct (length _).
    - apply Forall_forall. intros c Hc ->%list_elem_of_singleton. done. }
  cbn [sforeach]. unfold parse_line. rewrite (proj2 (find_char_None _ _)).
  2: { rewrite elem_of_app. intros [Hin|?]; [|done]. revert Hin. refine (bool_decide_unpack _ _). vm_compute. exact I. }
  assert (tokens (#"include " ++ p) = [ #"include"; p]) as ->.
  { change (#"include " ++ p) with (#"include" ++ " "%char :: p). rewrite tokens_word; [|split; [done|]|right; eexists _, _; split; [done|left]].
    - by rewrite tokens_skip, tokens_one.
    - refine (bool_decide_unpack _ _). vm_compute. exact I. }
  cbv zeta. rewrite (bool_decide_true (#"include" = #"include")) by done. cbn [orb].
  assert (forall (f : unit -> ST (list (bytes * bytes)) unit) m, m acc = (Throw AssertFailed, acc) -> (m ≫= f) acc = (Throw AssertFailed, acc)) as Hthrow
    by (intros f m Hm; by apply ST_bind_Throw).
  apply Hthrow. rewrite (bool_decide_true ([] = [])) by done. unfold negb, throw_if.
  rewrite slift_bind_Ok, Hp, slift_bind_Ok, He, slift_bind_Ok. unfold scatch. by rewrite Hr, slift_bind_Ok, IH.
Qed.
End files_lemmas.

(** ** Lemmas: configurations *)

(** The settings and the names agree: a setting has the one name that is not
    an alias. *)
Record wf_config (c : Config) : Prop := {
  wf_object : forall i o, objects c !! i = Some o -> settings_ c !! s_name o = Some (mkSettingData false i);
  wf_name : forall n i, settings_ c !! n = Some (mkSettingData false i) -> exists o, objects c !! i = Some o /\ s_name o = n;
}.
(** Registered configurations: no name is of two of them, and none of a
    setting looks like an addition to another. *)
Definition wf_configs (cs : list Config) : Prop :=
  Forall wf_config cs /\ ForallOrdPairs (fun c c' => dom (settings_ c) ## dom (settings_ c')) cs /\
  forall c o, c ∈ cs -> o ∈ objects c -> hasPrefix (s_name o) #"extra-" = false.
(** Settings, and configurations, that are alike but for the values. *)
Definition alike (o o0 : AbstractSetting) : Prop :=
  s_name o = s_name o0 /\ s_aliases o = s_aliases o0 /\ same_type (value o) (value o0).
Definition same_shape (c c0 : Config) : Prop := settings_ c = settings_ c0 /\ Forall2 alike (objects c) (objects c0).

(** The settings of [set] have got the values they have in [c0]. *)
Definition restored (set : gset bytes) (c c0 : Config) : Config :=
  mkConfig (settings_ c) (zip_with (fun o o0 => if decide (s_name o ∈ set) then override (value o0) o else o) (objects c) (objects c0)) (unknownSettings c).

(** What the name [n] stands for. *)
Definition entry (c : Config) (n : bytes) (o : AbstractSetting) : Prop :=
  exists i, settings_ c !! n = Some (mkSettingData false i) /\ objects c !! i = Some o.

Lemma lookup_emplace {A} (m : gmap bytes A) k x k' y :
  emplace k x m !! k' = Some y <-> m !! k' = Some y \/ m !! k = None /\ k = k' /\ x = y.
Proof.
  unfold emplace. destruct (m !! k) as [z|] eqn:Hk; [naive_solver|]. destruct (decide (k = k')) as [->|Hne].
  - rewrite lookup_insert_eq. split; [intros [= ->]; by right|]. intros [?|(_ & _ & ->)]; congruence.
  - rewrite lookup_insert_ne by done. naive_solver.
Qed.
Lemma emplace_keeps {A} (m : gmap bytes A) k x k' : is_Some (m !! k') -> is_Some (emplace k x m !! k').
Proof. intros [y Hy]. exists y. apply lookup_emplace. by left. Qed.
Lemma emplace_known {A} (m : gmap bytes A) k x : is_Some (emplace k x m !! k).
Proof. unfold emplace. destruct (m !! k) eqn:Hk; [by rewrite Hk|]. by rewrite lookup_insert_eq. Qed.

Section printed.
Context `{LC : LexicalCast} `{SC : SignedCast}.

Lemma getSettings_sound c : forall res n s, Config_getSettings false res c !! n = Some s ->
  res !! n = Some s \/ exists o, entry c n o /\ s = to_string (value o).
Proof using Type.
  intros res n s. unfold Config_getSettings. assert (forall e, e ∈ map_iter (settings_ c) -> settings_ c !! (e.1) = Some (e.2)) as Hall
    by (intros [k d] Hin; by apply elem_of_map_iter). revert res.
  induction (map_iter (settings_ c)) as [|[k [b i]] l IH]; intros res; cbn [foldl]; [by left|]. intros Hs.
  apply IH in Hs as [Hs|?]; [|by right|intros e He; apply Hall; by right]. cbn [fst snd setting isAlias] in Hs.
  destruct (objects c !! i) as [o|] eqn:Ho; [|by left]. destruct b; cbn in Hs; [by left|].
  apply lookup_emplace in Hs as [?|(_ & -> & <-)]; [by left|]. right. exists o. split; [|done]. exists i. split; [|done].
  exact (Hall _ (list_elem_of_here _ _)).
Qed.

Lemma getSettings_complete c res n : is_Some (res !! n) \/ (exists o, entry c n o) -> is_Some (Config_getSettings false res c !! n).
Proof using Type.
  unfold Config_getSettings. set (f := fun _ _ => _). intros H.
  assert (is_Some (res !! n) \/ exists i o, (n, mkSettingData false i) ∈ map_iter (settings_ c) /\ objects c !! i = Some o) as Hn.
  { destruct H as [?|(o & i & Hi & Ho)]; [by left|]. right. exists i, o. by rewrite elem_of_map_iter. }
  clear H. revert res Hn. induction (map_iter (settings_ c)) as [|[k [b j]] l IH]; intros res Hn; cbn [foldl].
  - destruct Hn as [?|(i & o & Hin & _)]; [done|]. by apply elem_of_nil in Hin.
  - apply IH. unfold f at 1. cbn [fst snd setting isAlias]. destruct Hn as [Hr|(i & o & [Heq|Hin]%elem_of_cons & Ho)].
    + left. destruct (objects c !! j); [|done]. destruct b; [done|]. by apply emplace_keeps.
    + injection Heq as -> <- ->. rewrite Ho. left. apply emplace_known.
    + right. by exists i, o.
Qed.

Lemma global_settings_sound cs : forall res n s, foldl (Config_getSettings false) res cs !! n = Some s ->
  res !! n = Some s \/ exists c o, c ∈ cs /\ entry c n o /\ s = to_string (value o).
Proof using Type.
  induction cs as [|c cs IH]; intros res n s; cbn [foldl]; [by left|]. intros [Hs|(c' & o & ? & ?)]%IH.
  - apply getSettings_sound in Hs as [?|(o & ? & ?)]; [by left|]. right. exists c, o. split; [left|done].
  - right. exists c', o. split; [by right|done].
Qed.
Lemma global_settings_complete cs : forall res n, is_Some (res !! n) \/ (exists c o, c ∈ cs /\ entry c n o) ->
  is_Some (foldl (Config_getSettings false) res cs !! n).
Proof using Type.
  induction cs as [|c cs IH]; intros res n Hn; cbn [foldl].
  - destruct Hn as [?|(c & o & Hin & _)]; [done|]. by apply elem_of_nil in Hin.
  - apply IH. destruct Hn as [?|(c' & o & [->|Hin]%elem_of_cons & He)].
    + left. apply getSettings_complete. by left.
    + left. apply getSettings_complete. right. by exists o.
    + right. by exists c', o.
Qed.
End printed.

Lemma zip_with_l {A B} (f : A -> B -> A) (P : A -> B -> Prop) l k : Forall2 P l k -> (forall x y, P x y -> f x y = x) -> zip_with f l k = l.
Proof. intros Hlk Hf. induction Hlk as [|x y l k Hxy Hlk IH]; cbn; [done|]. by rewrite Hf, IH. Qed.

Section restoring.
Context `{LC : LexicalCast} `{SC : SignedCast} {LCL : LexicalCastLaws} {SCL : SignedCastLaws}.

Lemma restored_unknown_name set n c c0 : wf_config c0 -> same_shape c c0 -> settings_ c0 !! n = None -> restored ({[n]} ∪ set) c c0 = restored set c c0.
Proof using Type.
  intros Hwf [_ Ho] Hn. unfold restored. f_equal. apply list_eq. intros i. rewrite !lookup_zip_with.
  destruct (objects c !! i) as [o|] eqn:Hi; [|done]. destruct (Forall2_lookup_l _ _ _ _ _ Ho Hi) as (o0 & Hi0 & Hname & _).
  rewrite Hi0. cbn. do 2 f_equal. apply decide_ext. rewrite elem_of_union, elem_of_singleton. split; [|by right]. intros [Hs|?]; [|done].
  pose proof (wf_object _ Hwf i o0 Hi0) as Hk. rewrite <- Hname, Hs in Hk. congruence.
Qed.

Lemma Config_set_known n str c b i o o' : settings_ c !! n = Some (mkSettingData b i) -> objects c !! i = Some o ->
  setting_set str false o = Ok o' -> Config_set n str c = (Ok true, mkConfig (settings_ c) (<[i := o']> (objects c)) (unknownSettings c)).
Proof using Type.
  intros Hn Ho Hs. unfold Config_set. rewrite gets_bind, Hn. rewrite (ST_bind_Ok _ _ c () (mkConfig (settings_ c) (<[i := o']> (objects c)) (unknownSettings c))); [done|].
  unfold assign_object. cbn [setting]. rewrite Ho. cbn [from_opt mbind result_bind]. by rewrite Hs.
Qed.
Lemma Config_set_unknown n str c : settings_ c !! n = None -> hasPrefix n #"extra-" = false -> Config_set n str c = (Ok false, c).
Proof using Type. intros Hn He. unfold Config_set. by rewrite gets_bind, Hn, He. Qed.

Lemma Config_set_restores set n o0 c c0 : wf_config c0 -> same_shape c c0 -> entry c0 n o0 -> representable (value o0) -> normal_ok (value o0) ->
  Config_set n (normal (to_string (value o0))) (restored set c c0) = (Ok true, restored ({[n]} ∪ set) c c0).
Proof using LCL SCL.
  intros Hwf [Hs Ho] (i & Hi & Hi0) Hr Hn. destruct (wf_name _ Hwf n i Hi) as (o0' & Hi0' & Hname). rewrite Hi0 in Hi0'. injection Hi0' as <-.
  destruct (Forall2_lookup_r _ _ _ _ _ Ho Hi0) as (o & Hio & Hnm & Hal & Hty).
  rewrite (Config_set_known n _ _ false i (if decide (s_name o ∈ set) then override (value o0) o else o) (override (value o0) o)).
  - f_equal. unfold restored. cbn [settings_ objects unknownSettings]. f_equal. apply list_eq. intros j. destruct (decide (i = j)) as [<-|Hij].
    + rewrite list_lookup_insert_eq by (apply lookup_lt_is_Some; rewrite lookup_zip_with, Hio, Hi0; by eexists).
      rewrite lookup_zip_with, Hio, Hi0. cbn. rewrite decide_True by set_solver. done.
    + rewrite list_lookup_insert_ne by done. rewrite !lookup_zip_with. destruct (objects c !! j) as [p|] eqn:Hj; [|done].
      destruct (Forall2_lookup_l _ _ _ _ _ Ho Hj) as (p0 & Hj0 & Hpn & _). rewrite Hj0. cbn. do 2 f_equal. apply decide_ext.
      rewrite elem_of_union, elem_of_singleton. split; [by right|]. intros [Hp|?]; [|done]. exfalso. apply Hij.
      pose proof (wf_object _ Hwf j p0 Hj0) as Hk. rewrite <- Hpn, Hp, Hi in Hk. by injection Hk as ->.
  - cbn [restored settings_]. by rewrite Hs.
  - cbn [restored objects]. by rewrite lookup_zip_with, Hio, Hi0.
  - assert (same_type (value o0) (value o0)) as Hrefl by by destruct (value o0). case_decide.
    + by rewrite setting_set_value.
    + by rewrite setting_set_value.
Qed.

(** The configurations of a list, one by one. *)
Definition all_restored (set : gset bytes) (cs cs0 : list Config) : list Config := zip_with (restored set) cs cs0.

Lemma all_restored_unknown_name set n cs cs0 : Forall wf_config cs0 -> Forall2 same_shape cs cs0 -> Forall (fun c => settings_ c !! n = None) cs0 ->
  all_restored ({[n]} ∪ set) cs cs0 = all_restored set cs cs0.
Proof using Type.
  unfold all_restored. intros Hwf Hsh. induction Hsh as [|c c0 cs cs0 Hc Hcs IH]; [done|]. apply Forall_cons in Hwf as [Hw Hwf].
  intros [Hn Hns]%Forall_cons. cbn [zip_with]. by rewrite restored_unknown_name, IH.
Qed.

Lemma set_first_restores set n c0 o0 cs cs0 : wf_configs cs0 -> Forall2 same_shape cs cs0 -> c0 ∈ cs0 -> entry c0 n o0 ->
  representable (value o0) -> normal_ok (value o0) ->
  set_first n (normal (to_string (value o0))) (all_restored set cs cs0) = (Ok true, all_restored ({[n]} ∪ set) cs cs0).
Proof using LCL SCL.
  intros (Hwf & Hd & He) Hsh Hin Hen Hr Hn. assert (hasPrefix n #"extra-" = false) as Hx.
  { destruct Hen as (i & Hi & Ho). rewrite Forall_forall in Hwf. destruct (wf_name _ (Hwf c0 Hin) n i Hi) as (o & Ho' & <-).
    apply (He c0); [done|]. by apply list_elem_of_lookup_2 in Ho'. }
  clear He. unfold all_restored. induction Hsh as [|c c1 cs cs0 Hc Hcs IH]; [by apply elem_of_nil in Hin|].
  apply Forall_cons in Hwf as [Hw Hwf]. inversion Hd as [|? ? Hd1 Hds]; subst. cbn [zip_with set_first].
  assert (n ∈ dom (settings_ c0)) as Hdom by (destruct Hen as (i & Hi & _); apply elem_of_dom; by eexists).
  apply elem_of_cons in Hin as [<-|Hin].
  - rewrite Config_set_restores by done. do 2 f_equal. symmetry. apply all_restored_unknown_name; [done..|].
    eapply Forall_impl; [exact Hd1|]. intros c' Hd'. apply not_elem_of_dom. set_solver.
  - assert (settings_ c1 !! n = None) as Hc1 by (rewrite Forall_forall in Hd1; specialize (Hd1 c0 Hin); apply not_elem_of_dom; set_solver).
    rewrite Config_set_unknown; [|cbn; by rewrite (proj1 Hc)|done]. rewrite IH by done. by rewrite restored_unknown_name.
Qed.

Lemma none_restored cs cs0 : Forall2 same_shape cs cs0 -> all_restored ∅ cs cs0 = cs.
Proof using Type.
  intros Hsh. apply (zip_with_l _ same_shape); [done|]. intros c c0 [_ Ho]. unfold restored. destruct c as [m os u]. f_equal.
  apply (zip_with_l _ alike); [done|]. intros o o0 _. by rewrite decide_False by apply not_elem_of_empty.
Qed.

(** The configurations [cs], with all the values that the settings have in
    [cs0]. *)
Definition overridden_by (cs cs0 : list Config) : list Config :=
  zip_with (fun c c0 => mkConfig (settings_ c) (zip_with (fun o o0 => override (value o0) o) (objects c) (objects c0)) (unknownSettings c)) cs cs0.

Lemma all_restored_all set cs cs0 : Forall2 same_shape cs cs0 -> (forall c o, c ∈ cs0 -> o ∈ objects c -> s_name o ∈ set) ->
  all_restored set cs cs0 = overridden_by cs cs0.
Proof using Type.
  unfold all_restored, overridden_by. intros Hsh. induction Hsh as [|c c0 cs cs0 [_ Hc] Hcs IH]; [done|]. intros Hall. cbn [zip_with].
  rewrite IH by (intros c' o Hc' Ho; apply (Hall c' o); [by right|done]). f_equal. unfold restored. f_equal.
  assert (forall o, o ∈ objects c0 -> s_name o ∈ set) as Hin by (intros o; apply Hall; left).
  induction Hc as [|o o0 os os0 (Hn & _) Hos IHo]; [done|]. cbn. rewrite decide_True by (rewrite Hn; apply Hin; left). f_equal.
  apply IHo. intros p Hp. apply Hin. by right.
Qed.

Lemma apply_restores l cs cs0 u : wf_configs cs0 -> Forall2 same_shape cs cs0 -> forall set,
  (forall n s, (n, s) ∈ l -> exists c o, c ∈ cs0 /\ entry c n o /\ s = to_string (value o) /\ representable (value o) /\ normal_ok (value o)) ->
  sforeach (fun e => _ ← GlobalConfig_set (e.1) (e.2); mret ()) (prod_map id normal <$> l) (mkGlobalConfig (all_restored set cs cs0) u)
  = (Ok (), mkGlobalConfig (all_restored (list_to_set l.*1 ∪ set) cs cs0) u).
Proof using LCL SCL.
  intros Hwf Hsh. induction l as [|[n s] l IH]; intros set Hl; [by rewrite fmap_nil; cbn; rewrite (left_id_L ∅ (∪))|].
  destruct (Hl n s) as (c & o & Hc & He & -> & Hr & Hn); [left|]. rewrite fmap_cons. cbn [sforeach prod_map fst snd].
  rewrite (ST_bind_Ok _ _ _ () (mkGlobalConfig (all_restored ({[n]} ∪ set) cs cs0) u)).
  - rewrite IH by (intros n' s' Hin; apply Hl; by right). do 3 f_equal. cbn. rewrite (assoc_L (∪)). f_equal. apply (comm_L (∪)).
  - rewrite (ST_bind_Ok _ _ _ true (mkGlobalConfig (all_restored ({[n]} ∪ set) cs cs0) u)); [done|]. unfold GlobalConfig_set.
    cbn [configRegistrations g_unknown fst snd id]. by rewrite (set_first_restores _ _ _ _ _ _ Hwf Hsh Hc He Hr Hn).
Qed.

(** What a file can say of a setting. *)
Definition printable (o : AbstractSetting) : Prop :=
  name_ok (s_name o) /\ line_ok (to_string (value o)) /\ representable (value o) /\ normal_ok (value o).

End restoring.

(** ** Lemmas: registration *)

Section registration.
Context `{LC : LexicalCast} `{SC : SignedCast}.

(** Assigning to settings keeps the names. *)
Definition same_names (c c' : Config) : Prop := settings_ c' = settings_ c /\ s_name <$> objects c' = s_name <$> objects c.

Lemma same_names_wf c c' : same_names c c' -> wf_config c -> wf_config c'.
Proof using Type.
  intros [Hs Hn] Hwf. assert (forall i, s_name <$> (objects c' !! i) = s_name <$> (objects c !! i)) as Hl
    by (intros i; rewrite <- !list_lookup_fmap; by rewrite Hn).
  split; rewrite Hs.
  - intros i o Ho. specialize (Hl i). rewrite Ho in Hl. destruct (objects c !! i) as [p|] eqn:Hp; [|done]. injection Hl as ->. by apply Hwf.
  - intros n i Hi. destruct (wf_name _ Hwf n i Hi) as (o & Ho & <-). specialize (Hl i). rewrite Ho in Hl.
    destruct (objects c' !! i) as [p|]; [|done]. injection Hl as <-. by eexists.
Qed.

Lemma assign_object_names i str append c r c' : assign_object i str append c = (r, c') -> same_names c c'.
Proof using Type.
  unfold assign_object. destruct (objects c !! i) as [s|] eqn:Hi; cbn [from_opt mbind result_bind].
  - destruct (setting_set str append s) as [s'|e] eqn:Hs; intros [= <- <-]; [|done]. split; [done|]. cbn [objects].
    rewrite list_fmap_insert. apply list_insert_id. rewrite list_lookup_fmap, Hi. cbn. f_equal. unfold setting_set in Hs.
    destruct (parse (value s) str) as [v|]; cbn in Hs; [|done]. destruct (appendOrSet (value s) v append); cbn in Hs; [|done]. by injection Hs as <-.
  - by intros [= <- <-].
Qed.

Lemma take_unknown_names i n c r c' : take_unknown i n c = (r, c') -> same_names c c'.
Proof using Type.
  unfold take_unknown. rewrite gets_bind. destruct (unknownSettings c !! n) as [str|]; [|by intros [= <- <-]]. unfold mbind, ST_bind.
  destruct (assign_object i str false c) as [[[]|e] c1] eqn:Ha; apply assign_object_names in Ha; [|by intros [= <- <-]].
  intros [= <- <-]. done.
Qed.

Lemma same_names_trans c1 c2 c3 : same_names c1 c2 -> same_names c2 c3 -> same_names c1 c3.
Proof using Type. unfold same_names. intros [-> ->] [-> ->]. done. Qed.

Lemma take_aliases_names i aliases : forall set c r c', take_aliases i aliases set c = (r, c') -> same_names c c'.
Proof using Type.
  induction aliases as [|a aliases IH]; intros [] c r c'; cbn [take_aliases]; [by intros [= <- <-]..| |].
  - rewrite gets_bind. unfold mbind at 1, ST_bind at 1. destruct (take_aliases i aliases true c) as [[w|e] c1] eqn:Ht; apply IH in Ht;
      by intros [= <- <-].
  - unfold mbind, ST_bind. destruct (take_unknown i a c) as [[b|e] c1] eqn:Ht; apply take_unknown_names in Ht; [|by intros [= <- <-]].
    intros Ha%IH. by eapply same_names_trans.
Qed.

Lemma emplace_aliases i (l : list bytes) : forall (m : gmap bytes SettingData) n d,
  foldl (fun m alias => emplace alias (mkSettingData true i) m) m l !! n = Some d -> m !! n = Some d \/ d = mkSettingData true i.
Proof using Type.
  induction l as [|a l IH]; intros m n d; cbn [foldl]; [by left|]. intros [Hd|?]%IH; [|by right].
  apply lookup_emplace in Hd as [?|(_ & _ & <-)]; [by left|by right].
Qed.
Lemma emplace_aliases_keep i (l : list bytes) : forall (m : gmap bytes SettingData) n d,
  m !! n = Some d -> foldl (fun m alias => emplace alias (mkSettingData true i) m) m l !! n = Some d.
Proof using Type.
  induction l as [|a l IH]; intros m n d Hd; cbn [foldl]; [done|]. apply IH, lookup_emplace. by left.
Qed.

(** A setting with a new name may be registered, whatever is assigned to it
    then. *)
Lemma addSetting_wf s c r c' : addSetting s c = (r, c') -> settings_ c !! s_name s = None -> wf_config c -> wf_config c'.
Proof using Type.
  unfold addSetting. rewrite gets_bind, modify_bind. set (c1 := mkConfig _ _ _). intros Hr Hnew Hwf. apply (same_names_wf c1).
  - revert Hr. unfold mbind, ST_bind. destruct (take_unknown _ _ c1) as [[b|e] c2] eqn:Ht; apply take_unknown_names in Ht; [|by intros [= <- <-]].
    intros Ha%take_aliases_names. by eapply same_names_trans.
  - clear Hr c' r. split; subst c1; cbn [settings_ objects].
    + intros i o [Hi|[Hi Ho]]%lookup_app_Some.
      * apply emplace_aliases_keep, lookup_emplace. left. by apply Hwf.
      * apply list_lookup_singleton_Some in Ho as [Hz <-]. assert (i = length (objects c)) as -> by lia.
        apply emplace_aliases_keep, lookup_emplace. by right.
    + intros n i [Hi|?]%emplace_aliases; [|done]. apply lookup_emplace in Hi as [Hi|(_ & <- & [= <-])].
      * destruct (wf_name _ Hwf n i Hi) as (o & Ho & Hn). exists o. split; [|done]. by apply lookup_app_l_Some.
      * exists s. split; [|done]. by rewrite lookup_app_r, Nat.sub_diag by lia.
Qed.
End registration.

(** ** Instances *)

(** A model of the laws: digits with a sign, in range. *)
Definition digits_signed_cast : SignedCast := fun bits s =>
  '(n, s) ← (match s with c :: t => if decide (c = "-"%char) then Some (- undec t, t) else Some (undec s, s) | [] => None end);
  if forallb is_digit s && negb (bool_decide (s = [])) && (- 2 ^ (bits - 1) <=? n) && (n <? 2 ^ (bits - 1)) then Some n else None.

Lemma digits_signed_cast_laws : @SignedCastLaws digits_signed_cast.
Proof.
  intros bits n Hb Hn. unfold signed_cast, digits_signed_cast, print_int.
  assert (2 ^ (bits - 1) <= 2 ^ 63) as Hp by (apply Z.pow_le_mono_r; lia). change (2 ^ 63) with 9223372036854775808 in Hp.
  assert (forall m, 0 <= m -> (forallb is_digit (dec m) && negb (bool_decide (dec m = []))) = true) as Hd.
  { intros m Hm. rewrite (proj2 (forallb_digits _)) by (apply dec_all; lia). by rewrite bool_decide_eq_false_2 by apply dec_not_nil. }
  assert (forall m, 0 <= m -> match dec m with c :: t => if decide (c = "-"%char) then Some (- undec t, t) else Some (undec (dec m), dec m) | [] => None end
    = Some (undec (dec m), dec m)) as Hs.
  { intros m Hm. pose proof (dec_all m Hm) as Hall. pose proof (dec_not_nil m) as Hne. destruct (dec m) as [|c t]; [done|].
    rewrite decide_False; [done|]. intros ->. by apply Forall_inv in Hall. }
  destruct (Z.ltb_spec n 0) as [Hneg|Hpos].
  - change (#"-" ++ dec (- n)) with ("-"%char :: dec (- n)). cbv beta iota. rewrite decide_True by done. cbn [mbind option_bind]. rewrite Hd by lia. rewrite undec_dec by lia.
    rewrite (proj2 (Z.leb_le _ _)), (proj2 (Z.ltb_lt _ _)) by lia. cbn. f_equal. lia.
  - rewrite Hs by lia. cbn [mbind option_bind]. rewrite Hd by lia. rewrite undec_dec by lia.
    by rewrite (proj2 (Z.leb_le _ _)), (proj2 (Z.ltb_lt _ _)) by lia.
Qed.

Definition empty_config : Config := mkConfig ∅ [] ∅.
(** Two configurations, given the values of their settings. *)
Definition sample (cores : Z) (sandbox : bool) (subst : list bytes) (p : option bytes) : GlobalConfig :=
  let reg s c := snd (@addSetting digits_cast digits_signed_cast s c) in
  Register (reg (mkSetting #"cores" ∅ false (VInt false 32 cores)) (reg (mkSetting #"sandbox" {[ #"build-use-sandbox" ]} false (VBool sandbox)) empty_config))
    (Register (reg (mkSetting #"substituters" ∅ false (VStrings subst)) (reg (mkSetting #"netrc-file" ∅ false (VOptAbsolutePath p)) empty_config))
      (mkGlobalConfig [] ∅)).

Lemma empty_config_wf : wf_config empty_config.
Proof. by split. Qed.

Lemma sample_objects cores sandbox subst p : objects <$> configRegistrations (sample cores sandbox subst p)
  = [[mkSetting #"netrc-file" ∅ false (VOptAbsolutePath p); mkSetting #"substituters" ∅ false (VStrings subst)];
     [mkSetting #"sandbox" {[ #"build-use-sandbox" ]} false (VBool sandbox); mkSetting #"cores" ∅ false (VInt false 32 cores)]].
Proof. vm_compute. reflexivity. Qed.

Lemma sample_Forall (P : AbstractSetting -> Prop) cores sandbox subst p :
  Forall (Forall P) (objects <$> configRegistrations (sample cores sandbox subst p)) ->
  forall c o, c ∈ configRegistrations (sample cores sandbox subst p) -> o ∈ objects c -> P o.
Proof.
  intros H c o Hc Ho. rewrite Forall_forall in H. specialize (H (objects c)). rewrite Forall_forall in H. apply H; [|done].
  by apply list_elem_of_fmap_2.
Qed.

Lemma sample_wf cores sandbox subst p : wf_configs (configRegistrations (sample cores sandbox subst p)).
Proof.
  split_and!.
  - repeat constructor; (eapply addSetting_wf; [apply surjective_pairing|vm_compute; reflexivity|]);
      (eapply addSetting_wf; [apply surjective_pairing|vm_compute; reflexivity|exact empty_config_wf]).
  - repeat constructor. refine (bool_decide_unpack _ _). vm_compute. exact I.
  - apply sample_Forall. rewrite sample_objects. repeat constructor.
Qed.


(** ** What modelling showed *)

(** The base settings of the examples. *)
Definition one_setting (v : Value) : Config := snd (@addSetting digits_cast digits_signed_cast (mkSetting #"foo" ∅ false v) empty_config).
Definition set_all (l : list (bytes * bytes)) : ST GlobalConfig unit :=
  sforeach (fun e => _ ← @GlobalConfig_set digits_cast digits_signed_cast (e.1) (e.2); mret ()) l.
Definition late (l : list (bytes * bytes)) (v : Value) : ST GlobalConfig unit :=
  _ ← set_all l;
  _ ← Prelude.modify (Register (one_setting v));
  @reapplyUnknownSettings GlobalConfig (@GlobalConfig_config digits_cast digits_signed_cast).
Definition values (g : result unit * GlobalConfig) : list (list Value) := (fun c => value <$> objects c) <$> configRegistrations (snd g).

(** Of a setting that is registered late, the first assignment counts; of one
    that is registered, the last. *)
Lemma late_first_assignment :
  let l := [(#"foo", #"1"); (#"foo", #"2")] in
  values (late l (VInt false 32 0) (mkGlobalConfig [] ∅)) = [[VInt false 32 1]] /\
  values (set_all l (mkGlobalConfig [one_setting (VInt false 32 0)] ∅)) = [[VInt false 32 2]].
Proof. split; vm_compute; reflexivity. Qed.

(** An addition to a list that is registered late is lost, as [extra-foo] is
    before [foo]. *)
Lemma late_addition_lost :
  let l := [(#"foo", #"a"); (#"extra-foo", #"b")] in
  values (late l (VStrings []) (mkGlobalConfig [] ∅)) = [[VStrings [ #"a"]]] /\
  values (set_all l (mkGlobalConfig [one_setting (VStrings [])] ∅)) = [[VStrings [ #"a"; #"b"]]].
Proof. split; vm_compute; reflexivity. Qed.

(** [Config::toKeyValue] prints no setting that has no alias. *)
Lemma toKeyValue_without_alias v : @Config_toKeyValue (one_setting v) = [].
Proof. vm_compute. reflexivity. Qed.

(** The unit of a number may make the product wrap: 2^24 TiB are nothing. *)
Lemma unit_overflow : @string2IntWithUnitPrefix digits_cast digits_signed_cast false 64 #"16777216T" = Ok 0.
Proof. vm_compute. reflexivity. Qed.
