(* ===== verification/Schema.v ===== *)
(** * Schema: opening the store

    The constructor of [LocalStore] in local-store.cc from the big lock to the
    end, with getSchema, openDB and upgradeDBSchema: any number of processes
    open a store, and bring its database to the current schema if it is older.
    A schedule is a list of events, each a system call, a statement or a
    transaction of one process.  Of the database it is kept which tables and
    columns it has; statements act on these as the SQLite documentation says. *)

From S2P Require Export Settings.
Local Open Scope Z_scope.

Definition nixSchemaVersion : Z := 10.

(** ** The database *)

Record Database := mkDatabase {
  validPaths : bool;
  ultimate_sigs : bool;
  failedPaths : bool;
  ca_column : bool;
  indexReferrer : bool;
  migrations : option (gset bytes);
}.
(** A file that SQLite has created. *)
Definition empty_database : Database := mkDatabase false false false false false None.

(** The statements; [None] is an error. *)
Definition add_ultimate_sigs (d : Database) : option Database :=
  if validPaths d && negb (ultimate_sigs d) then Some (mkDatabase true true (failedPaths d) (ca_column d) (indexReferrer d) (migrations d)) else None.
Definition drop_failedPaths (d : Database) : option Database :=
  if failedPaths d then Some (mkDatabase (validPaths d) (ultimate_sigs d) false (ca_column d) (indexReferrer d) (migrations d)) else None.
Definition add_ca (d : Database) : option Database :=
  if validPaths d && negb (ca_column d) then Some (mkDatabase true (ultimate_sigs d) (failedPaths d) true (indexReferrer d) (migrations d)) else None.
Definition create_migrations (d : Database) : option Database :=
  match migrations d with
  | None => Some (mkDatabase (validPaths d) (ultimate_sigs d) (failedPaths d) (ca_column d) (indexReferrer d) (Some ∅))
  | Some _ => None
  end.
(** schema.sql: whatever exists is kept. *)
Definition create_schema (d : Database) : Database :=
  if validPaths d then d else mkDatabase true true (failedPaths d) true (indexReferrer d) (migrations d).
(** The only migration so far, with its entry. *)
Definition drop_index_referrer : bytes := #"20260309-drop-redundant-indexreferrer".
Definition run_migration (d : Database) : option Database :=
  m ← migrations d;
  Some (mkDatabase (validPaths d) (ultimate_sigs d) (failedPaths d) (ca_column d) false (Some ({[drop_index_referrer]} ∪ m))).

(** ** Processes *)

Inductive LockMode := ReadLock | WriteLock.
(** What the exclusive lock is for. *)
Inductive Purpose := ForSchema | ForMigrations.
Inductive Pc :=
  | Start
  | ReadSchema
  | OpenNew
  | CreateSchema
  | TruncateNew
  | WriteNew
  | TryWrite (p : Purpose)
  | Unlock (p : Purpose)
  | WaitWrite (p : Purpose)
  | Reread
  | OpenOld (n : Z)
  | To8 (n : Z)
  | To9 (n : Z)
  | To10 (n : Z)
  | Truncate
  | Write
  | WaitRead (p : Purpose)
  | OpenCurrent
  | DryRun
  | HasMigrations
  | CreateMigrations
  | ReadMigrations
  | Migrate
  | Opened
  | Failed (e : exn)
  | Gone.
Record Process := mkProcess { readOnly : bool; lock : option LockMode; pc : Pc }.
(** [schema] is the contents of that file. *)
Record State := mkState { schema : option bytes; db : option Database; procs : list Process }.

Inductive Event :=
  | Step (i : nat)
  (** [flock] drops the lock it converts before it has the new one. *)
  | Drop (i : nat)
  (** A signal: [lockFile] returns false, which nothing looks at. *)
  | Interrupt (i : nat)
  (** The process ends, however: its lock is released. *)
  | End_ (i : nat).

(** ** Operations *)

Definition compatible (m : LockMode) (l : option LockMode) : bool :=
  match m, l with _, None | ReadLock, Some ReadLock => true | _, _ => false end.
(** The lock is granted when no other process has a conflicting one. *)
Definition grantable (i : nat) (m : LockMode) (ps : list Process) : bool :=
  forallb (fun p => compatible m (lock p)) (delete i ps).

Definition set_process (i : nat) (p : Process) (s : State) : State := mkState (schema s) (db s) (<[i := p]> (procs s)).
Definition locked (i : nat) (p : Process) (l : option LockMode) (c : Pc) (s : State) : State := set_process i (mkProcess (readOnly p) l c) s.
(** An exception closes the file that is locked. *)
Definition goto (i : nat) (p : Process) (c : Pc) (s : State) : State := locked i p (match c with Failed _ => None | _ => lock p end) c s.
Definition set_schema (f : bytes) (s : State) : State := mkState (Some f) (db s) (procs s).
Definition set_db (d : Database) (s : State) : State := mkState (schema s) (Some d) (procs s).

Section opening.
Context `{SC : SignedCast}.

Definition getSchema (f : option bytes) : result Z :=
  match f with None => Ok 0 | Some f => from_opt Error (signed_cast 32 f) end.

(** [openDB] of an existing database, and what follows it. *)
Definition openDB (i : nat) (p : Process) (next : Pc) (s : State) : State :=
  match db s with Some _ => goto i p next s | None => goto i p (Failed Error) s end.
(** [db.exec], or a transaction. *)
Definition exec (i : nat) (p : Process) (stmt : Database -> option Database) (next : Pc) (s : State) : State :=
  match db s ≫= stmt with Some d => goto i p next (set_db d s) | None => goto i p (Failed SQLiteError) s end.
(** After the database has been opened: is there something to migrate? *)
Definition after_open (p : Process) : Pc := if readOnly p then Opened else DryRun.
(** What [acquireWriteLock] was called for. *)
Definition with_lock (p : Purpose) : Pc := match p with ForSchema => Reread | ForMigrations => HasMigrations end.
Definition after_downgrade (p : Process) (u : Purpose) : Pc := match u with ForSchema => after_open p | ForMigrations => Opened end.

(** The branches on the version that was read first. *)
Definition branch (p : Process) (n : Z) : Pc :=
  if readOnly p && (n <? nixSchemaVersion) then Failed Error
  else if nixSchemaVersion <? n then Failed Error
  else if n =? 0 then OpenNew
  else if n <? nixSchemaVersion then if n <? 5 then Failed Error else if n <? 6 then Failed Error else TryWrite ForSchema
  else OpenCurrent.

(** [upgradeDBSchema]: the dry run, and the parts of the call that upgrades. *)
Definition upgradeDBSchema (i : nat) (p : Process) (s : State) : option State :=
  match pc p with
  | DryRun =>
      d ← db s;
      Some (match migrations d with
            | Some m => if bool_decide (drop_index_referrer ∈ m) then goto i p Opened s else goto i p (TryWrite ForMigrations) s
            | None => goto i p (TryWrite ForMigrations) s
            end)
  | HasMigrations => d ← db s; Some (goto i p (match migrations d with Some _ => ReadMigrations | None => CreateMigrations end) s)
  | CreateMigrations => Some (exec i p create_migrations ReadMigrations s)
  | ReadMigrations =>
      d ← db s;
      m ← migrations d;
      Some (goto i p (if bool_decide (drop_index_referrer ∈ m) then WaitRead ForMigrations else Migrate) s)
  | Migrate => Some (exec i p run_migration (WaitRead ForMigrations) s)
  | _ => None
  end.

(** [None] when [flock] blocks, or the process is at an end. *)
Definition step (i : nat) (p : Process) (s : State) : option State :=
  match pc p with
  | Start =>
      if readOnly p then Some (goto i p ReadSchema s)
      else if grantable i ReadLock (procs s) then Some (locked i p (Some ReadLock) ReadSchema s) else None
  | ReadSchema => Some (match getSchema (schema s) with Ok n => goto i p (branch p n) s | Throw e => goto i p (Failed e) s end)
  | OpenNew => Some (goto i p CreateSchema (set_db (default empty_database (db s)) s))
  | CreateSchema => Some (exec i p (fun d => Some (create_schema d)) TruncateNew s)
  | TruncateNew => Some (goto i p WriteNew (set_schema [] s))
  | WriteNew => Some (goto i p (after_open p) (set_schema (print_int nixSchemaVersion) s))
  | TryWrite u =>
      Some (if grantable i WriteLock (procs s) then locked i p (Some WriteLock) (with_lock u) s else goto i p (Unlock u) s)
  | Unlock u => Some (locked i p None (WaitWrite u) s)
  | WaitWrite u => if grantable i WriteLock (procs s) then Some (locked i p (Some WriteLock) (with_lock u) s) else None
  | Reread => Some (match getSchema (schema s) with Ok n => goto i p (OpenOld n) s | Throw e => goto i p (Failed e) s end)
  | OpenOld n => Some (openDB i p (To8 n) s)
  | To8 n => Some (if n <? 8 then exec i p add_ultimate_sigs (To9 n) s else goto i p (To9 n) s)
  | To9 n => Some (if n <? 9 then exec i p drop_failedPaths (To10 n) s else goto i p (To10 n) s)
  | To10 n => Some (if n <? 10 then exec i p add_ca Truncate s else goto i p Truncate s)
  | Truncate => Some (goto i p Write (set_schema [] s))
  | Write => Some (goto i p (WaitRead ForSchema) (set_schema (print_int nixSchemaVersion) s))
  | WaitRead u => if grantable i ReadLock (procs s) then Some (locked i p (Some ReadLock) (after_downgrade p u) s) else None
  | OpenCurrent => Some (openDB i p (after_open p) s)
  | DryRun | HasMigrations | CreateMigrations | ReadMigrations | Migrate => upgradeDBSchema i p s
  | Opened | Failed _ | Gone => None
  end.

(** Calls of [flock] that convert a lock, and those that block. *)
Definition converts (c : Pc) : bool := match c with TryWrite _ | WaitWrite _ | WaitRead _ => true | _ => false end.
Definition after_wait (p : Process) : option Pc :=
  match pc p with
  | Start => Some ReadSchema
  | WaitWrite u => Some (with_lock u)
  | WaitRead u => Some (after_downgrade p u)
  | _ => None
  end.

Definition happen (e : Event) (s : State) : option State :=
  match e with
  | Step i => p ← procs s !! i; step i p s
  | Drop i => p ← procs s !! i; if converts (pc p) then Some (locked i p None (pc p) s) else None
  | Interrupt i => p ← procs s !! i; c ← after_wait p; Some (locked i p None c s)
  | End_ i => p ← procs s !! i; Some (locked i p None Gone s)
  end.
Fixpoint run (es : list Event) (s : State) : option State :=
  match es with [] => Some s | e :: es => s ← happen e s; run es s end.

(** ** Invariant *)

(** A database of schema version [n]. *)
Definition db_at (n : Z) (idx : bool) (m : option (gset bytes)) : Database := mkDatabase true (8 <=? n) (n <? 9) (10 <=? n) idx m.

Definition stored (n : Z) (f : option bytes) : Prop := 6 <= n <= 10 /\ f = Some (print_int n).
Definition at_version (n : Z) (d : option Database) : Prop := exists idx m, d = Some (db_at n idx m) /\ (n < 10 -> m = None).
(** The file and the database agree. *)
Definition agree (n : Z) (f : option bytes) (d : option Database) : Prop := stored n f /\ at_version n d.
Definition current (d : option Database) : Prop := at_version 10 d.
Definition has_table (d : option Database) : Prop := exists idx m, d = Some (db_at 10 idx (Some m)).
Definition migrated (d : option Database) : Prop := exists idx m, d = Some (db_at 10 idx (Some m)) /\ drop_index_referrer ∈ m.

(** The steps between which the two do not agree. *)
Definition midway (c : Pc) : bool := match c with To9 _ | To10 _ | Truncate | Write => true | _ => false end.

(** The lock a process has, where it is. *)
Definition lock_ok (c : Pc) (l : option LockMode) : Prop :=
  match c with
  | Start | WaitWrite _ | Failed _ | Gone => l = None
  | ReadSchema | OpenCurrent | DryRun | Opened => l = Some ReadLock
  | TryWrite _ | Unlock _ => l = Some ReadLock \/ l = None
  | WaitRead _ => l = Some WriteLock \/ l = None
  | OpenNew | CreateSchema | TruncateNew | WriteNew => False
  | _ => l = Some WriteLock
  end.
(** Where a read-only process is; it takes no lock. *)
Definition read_only_ok (c : Pc) : Prop := match c with Start | ReadSchema | OpenCurrent | Opened | Failed _ | Gone => True | _ => False end.

(** What is known of the file and the database, where a process is. *)
Definition data_ok (ro : bool) (c : Pc) (f : option bytes) (d : option Database) : Prop :=
  match c with
  | OpenOld n | To8 n => agree n f d
  | To9 n => stored n f /\ at_version (Z.max n 8) d
  | To10 n => stored n f /\ at_version (Z.max n 9) d
  | Truncate => (exists n, stored n f) /\ current d
  | Write => f = Some [] /\ current d
  | OpenCurrent | DryRun | TryWrite ForMigrations | Unlock ForMigrations | WaitWrite ForMigrations | HasMigrations | WaitRead ForSchema => current d
  | CreateMigrations => exists idx, d = Some (db_at 10 idx None)
  | ReadMigrations | Migrate => has_table d
  | WaitRead ForMigrations => migrated d
  | Opened => if ro then current d else migrated d
  | _ => True
  end.

Definition process_ok (f : option bytes) (d : option Database) (p : Process) : Prop :=
  (if readOnly p then lock p = None /\ read_only_ok (pc p) else lock_ok (pc p) (lock p) /\ forall e, pc p <> Failed e) /\
  data_ok (readOnly p) (pc p) f d.

Record inv (s : State) : Prop := {
  inv_process : forall i p, procs s !! i = Some p -> process_ok (schema s) (db s) p;
  inv_exclusive : forall i j p q, procs s !! i = Some p -> procs s !! j = Some q -> i <> j -> lock p = Some WriteLock -> lock q = None;
  inv_agree : (exists i p, procs s !! i = Some p /\ midway (pc p) = true) \/ exists n, agree n (schema s) (db s);
}.

(** What is current stays so. *)
Definition advances (d d' : option Database) : Prop := (current d -> current d') /\ (migrated d -> migrated d').

Lemma unlocked_stable f d f' d' p : process_ok f d p -> lock p = None -> advances d d' -> process_ok f' d' p.
Proof using Type.
  intros [Hl Hd] Hn [Hc Hm]. split; [done|]. destruct p as [[] l c]; cbn [readOnly lock pc] in *; subst l; destruct Hl as [Hl1 Hl2];
    destruct c as [| | | | | |[]|[]|[]| | | | | | | |[]| | | | | | | | |]; cbn [data_ok lock_ok read_only_ok] in *; try done; auto.
Qed.

Lemma grantable_lookup i m ps j q : grantable i m ps = true -> ps !! j = Some q -> i <> j -> compatible m (lock q) = true.
Proof using Type.
  unfold grantable. rewrite forallb_forall. intros Hg Hj Hij. apply Hg, list_elem_of_In.
  destruct (decide (j < i)%nat) as [Hlt|Hge].
  - apply (list_elem_of_lookup_2 _ j). by rewrite list_lookup_delete_lt.
  - apply (list_elem_of_lookup_2 _ (j - 1)). rewrite list_lookup_delete_ge by lia. by replace (S (j - 1)) with j by lia.
Qed.

(** A process goes on; if the data change, it has the exclusive lock. *)
Lemma opening_change i p p' s f d : inv s -> procs s !! i = Some p -> process_ok f d p' ->
  (f = schema s /\ d = db s) \/ (lock p = Some WriteLock /\ advances (db s) d) ->
  lock p' = None \/ lock p' = lock p \/ (exists m, lock p' = Some m /\ grantable i m (procs s) = true) ->
  midway (pc p') = true \/ (exists n, agree n f d) \/ (midway (pc p) = false /\ f = schema s /\ d = db s) ->
  inv (mkState f d (<[i := p']> (procs s))).
Proof using Type.
  intros [Hp He Ha] Hi Hok Hdata Hlock Hmid. assert (i < length (procs s))%nat as Hlen by by eapply lookup_lt_Some.
  split; cbn [schema db procs].
  - intros j q Hj. destruct (decide (i = j)) as [<-|Hij]; [rewrite list_lookup_insert_eq in Hj by done; by injection Hj as <-|].
    rewrite list_lookup_insert_ne in Hj by done. destruct Hdata as [[-> ->]|[Hw Had]]; [by eapply Hp|].
    eapply unlocked_stable; [by eapply Hp| |done]. by apply (He i j p q).
  - intros j k q r Hj Hk Hjk. destruct (decide (i = j)) as [<-|Hij].
    + rewrite list_lookup_insert_eq in Hj by done. injection Hj as <-. rewrite list_lookup_insert_ne in Hk by done.
      intros Hw. destruct Hlock as [Hl|[Hl|(m & Hl & Hg)]]; [congruence|apply (He i k p r); congruence|].
      rewrite Hw in Hl. injection Hl as <-. pose proof (grantable_lookup _ _ _ _ _ Hg Hk Hjk) as Hc. cbn in Hc. by destruct (lock r).
    + rewrite list_lookup_insert_ne in Hj by done. destruct (decide (i = k)) as [<-|Hik].
      * rewrite list_lookup_insert_eq in Hk by done. injection Hk as <-. intros Hw.
        destruct Hlock as [Hl|[Hl|(m & Hl & Hg)]]; [done|rewrite Hl; by apply (He j i q p)|].
        pose proof (grantable_lookup _ _ _ _ _ Hg Hj Hij) as Hc. rewrite Hw in Hc. by destruct m.
      * rewrite list_lookup_insert_ne in Hk by done. by apply (He j k).
  - destruct Hmid as [Hm|[Hb|(Hm & -> & ->)]]; [left; exists i, p'; by rewrite list_lookup_insert_eq by done|by right|].
    destruct Ha as [(j & q & Hj & Hq)|?]; [|by right]. left. exists j, q. rewrite list_lookup_insert_ne; [done|]. intros ->. congruence.
Qed.

Lemma agree_at_rest s i p : inv s -> procs s !! i = Some p -> lock p <> None -> midway (pc p) = false -> exists n, agree n (schema s) (db s).
Proof using Type.
  intros [Hp He [(j & q & Hj & Hq)|?]] Hi Hl Hm; [|done]. exfalso. apply Hl. apply (He j i q p); [done|done|intros ->; congruence|].
  destruct (Hp j q Hj) as [Hok _]. destruct (readOnly q); [destruct Hok as [_ Hok]|destruct Hok as [Hok _]]; by destruct (pc q).
Qed.
(** A lock that is granted excludes a process that is midway. *)
Lemma agree_granted s i p m : inv s -> procs s !! i = Some p -> grantable i m (procs s) = true -> midway (pc p) = false ->
  exists n, agree n (schema s) (db s).
Proof using Type.
  intros [Hp He [(j & q & Hj & Hq)|?]] Hi Hg Hm; [|done]. exfalso. assert (i <> j) as Hij by (intros ->; congruence).
  pose proof (grantable_lookup _ _ _ _ _ Hg Hj Hij) as Hc. destruct (Hp j q Hj) as [Hok _].
  destruct (readOnly q); [destruct Hok as [_ Hok]; by destruct (pc q)|]. destruct Hok as [Hok _].
  assert (lock q = Some WriteLock) as Hw by by destruct (pc q). rewrite Hw in Hc. by destruct m.
Qed.

Lemma not_current_advances d d' : ~ current d -> advances d d'.
Proof using Type. intros Hn. split; [done|]. intros (idx & m & -> & _). exfalso. apply Hn. exists idx, (Some m). split; [done|lia]. Qed.
Lemma at_version_not_current n d : n < 10 -> at_version n d -> ~ current d.
Proof using Type.
  intros Hn (idx & m & -> & _) (idx' & m' & Hd & _). injection Hd as _ _ Hd _ _. rewrite (proj2 (Z.leb_gt _ _)) in Hd by lia. done.
Qed.
Lemma version_current d n : 6 <= n <= 10 -> at_version n d -> current d -> n = 10.
Proof using Type. intros Hn Hv Hc. destruct (decide (n < 10)); [|lia]. exfalso. by apply (at_version_not_current n d). Qed.
Lemma advances_refl d : advances d d.
Proof using Type. by split. Qed.

Context {SCL : SignedCastLaws}.

Lemma getSchema_stored n f : stored n f -> getSchema f = Ok n.
Proof using SCL. intros [Hn ->]. unfold getSchema. rewrite signed_cast_print; [done|lia|]. change (2 ^ (32 - 1)) with 2147483648. lia. Qed.

(** Whoever reads the current version, has a current database. *)
Lemma read_current s : inv s -> getSchema (schema s) = Ok 10 -> current (db s).
Proof using SCL.
  intros [Hp _ [(j & q & Hj & Hq)|(n & Hs & Hv)]] Hr.
  - destruct (Hp j q Hj) as [_ Hd]. destruct (pc q) as [| | | | | | | | | | |n|n|n| | | | | | | | | | | |]; try done; cbn in Hd; [..|by destruct Hd|by destruct Hd];
      destruct Hd as [Hs Hv]; rewrite (getSchema_stored _ _ Hs) in Hr; by injection Hr as ->.
  - rewrite (getSchema_stored _ _ Hs) in Hr. by injection Hr as ->.
Qed.

Lemma step_read_only i l c s s' : inv s -> procs s !! i = Some (mkProcess true l c) -> step i (mkProcess true l c) s = Some s' -> inv s'.
Proof using SCL.
  intros Hinv Hi Hs. destruct (inv_process s Hinv i _ Hi) as [[Hl Hro] Hd]. cbn [readOnly lock pc] in *. subst l.
  unfold step, upgradeDBSchema in Hs. cbn [pc readOnly] in Hs.
  assert (forall c', read_only_ok c' -> midway c = false -> data_ok true c' (schema s) (db s) -> inv (goto i (mkProcess true None c) c' s)) as Hgoto.
  { intros c' Hc' Hm Hd'. replace (goto i (mkProcess true None c) c' s) with (set_process i (mkProcess true None c') s) by by destruct c'.
    apply (opening_change i (mkProcess true None c) (mkProcess true None c')); [done|done|done|by left|by left|right; right; done]. }
  destruct c; try done; injection Hs as <-.
  - by apply Hgoto.
  - destruct (getSchema (schema s)) as [n|e] eqn:Hr; [|by apply Hgoto]. unfold branch. cbn [readOnly andb]. unfold nixSchemaVersion.
    destruct (Z.ltb_spec n 10); [by apply Hgoto|]. destruct (Z.ltb_spec 10 n); [by apply Hgoto|]. assert (n = 10) as -> by lia. cbn.
    apply Hgoto; [done|done|]. by apply read_current.
  - unfold openDB. cbn in Hd. pose proof Hd as (idx & m & -> & _). by apply Hgoto.
Qed.

Section writer.
Context (i : nat) (s : State) (l : option LockMode) (c : Pc).
Context (Hinv : inv s) (Hi : procs s !! i = Some (mkProcess false l c)).

(** The data are as they were. *)
Lemma writer_goes l' c' : lock_ok c' l' -> (forall e, c' <> Failed e) -> data_ok false c' (schema s) (db s) ->
  l' = None \/ l' = l \/ (exists m, l' = Some m /\ grantable i m (procs s) = true) -> midway c' = true \/ midway c = false ->
  inv (set_process i (mkProcess false l' c') s).
Proof using Hi Hinv.
  intros Hl Hf Hd Hlock Hm. apply (opening_change i (mkProcess false l c) (mkProcess false l' c')); [done|done|done|by left|done|].
  destruct Hm; [by left|right; by right].
Qed.

(** The holder of the exclusive lock changes the data. *)
Lemma writer_writes c' f d : l = Some WriteLock -> lock_ok c' l -> (forall e, c' <> Failed e) -> data_ok false c' f d -> advances (db s) d ->
  midway c' = true \/ (exists n, agree n f d) -> inv (mkState f d (<[i := mkProcess false l c']> (procs s))).
Proof using Hi Hinv.
  intros Hw Hl Hf Hd Ha Hm. apply (opening_change i (mkProcess false l c) (mkProcess false l c')); [done|done|done|by right|right; by left|].
  destruct Hm; [by left|right; by left].
Qed.
End writer.

Lemma step_upgrade i l c s s' : inv s -> procs s !! i = Some (mkProcess false l c) -> step i (mkProcess false l c) s = Some s' ->
  (match c with OpenOld _ | To8 _ | To9 _ | To10 _ | Truncate | Write => true | _ => false end) = true -> inv s'.
Proof using Type.
  intros Hinv Hi Hs Hc. destruct (inv_process s Hinv i _ Hi) as [[Hl _] Hd]. cbn [readOnly lock pc] in *.
  assert (l = Some WriteLock) as Hw by by destruct c. unfold step, upgradeDBSchema, exec, goto, set_process, set_db, set_schema in Hs. cbn [pc readOnly lock] in Hs.
  destruct c as [| | | | | | | | | |n|n|n|n| | | | | | | | | | | |]; try done; cbn [data_ok] in Hd; injection Hs as <-.
  - pose proof Hd as [_ (idx & m & Hdb & _)]. unfold openDB. rewrite Hdb. eapply (writer_goes i s l (OpenOld n)); try done; [by right; left|by right].
  - destruct Hd as [Hst (idx & m & Hdb & Hm)]. destruct (Z.ltb_spec n 8) as [Hlt|Hge].
    + rewrite Hdb. unfold add_ultimate_sigs, db_at. cbn [mbind option_bind validPaths ultimate_sigs failedPaths ca_column indexReferrer migrations].
      rewrite (proj2 (Z.leb_gt 8 n)) by lia. cbn [andb negb]. eapply (writer_writes i s l (To8 n)); try done; [| |by left].
      * split; [done|]. rewrite Z.max_r by lia. exists idx, m. split; [|intros; apply Hm; lia]. unfold db_at.
        rewrite (proj2 (Z.ltb_lt n 9)), (proj2 (Z.leb_gt 10 n)) by lia. done.
      * apply not_current_advances, (at_version_not_current n); [lia|]. rewrite Hdb. by exists idx, m.
    + eapply (writer_goes i s l (To8 n)); try done; [|by right; left|by left]. split; [done|]. rewrite Z.max_l by lia. by exists idx, m.
  - destruct Hd as [Hst (idx & m & Hdb & Hm)]. destruct (Z.ltb_spec n 9) as [Hlt|Hge].
    + rewrite Hdb. rewrite Z.max_r in Hdb, Hm |- * by lia. unfold drop_failedPaths, db_at. cbn. eapply (writer_writes i s l (To9 n)); try done; [| |by left].
      * split; [done|]. rewrite Z.max_r by lia. exists idx, m. split; [done|]. intros; apply Hm; lia.
      * apply not_current_advances, (at_version_not_current 8); [lia|]. rewrite Hdb. exists idx, m. split; [done|]. intros; apply Hm; lia.
    + eapply (writer_goes i s l (To9 n)); try done; [|by right; left|by left]. split; [done|]. rewrite Z.max_l by lia.
      rewrite Z.max_l in Hdb, Hm by lia. by exists idx, m.
  - destruct Hd as [Hst (idx & m & Hdb & Hm)]. destruct (Z.ltb_spec n 10) as [Hlt|Hge].
    + rewrite Hdb. rewrite Z.max_r in Hdb, Hm |- * by lia. unfold add_ca, db_at. cbn. eapply (writer_writes i s l (To10 n)); try done; [| |by left].
      * split; [by exists n|]. exists idx, m. split; [done|]. lia.
      * apply not_current_advances, (at_version_not_current 9); [lia|]. rewrite Hdb. exists idx, m. split; [done|]. intros; apply Hm; lia.
    + eapply (writer_goes i s l (To10 n)); try done; [|by right; left|by left]. split; [by exists n|].
      destruct Hst as [Hst Hf]. assert (n = 10) as -> by lia. by exists idx, m.
  - destruct Hd as [_ Hd]. eapply (writer_writes i s l Truncate); try done. by left.
  - destruct Hd as [_ Hd]. eapply (writer_writes i s l Write); try done; [by left|]. right. exists 10. split; [|done].
    split; [lia|done].
Qed.

Lemma step_writer i l c s s' : inv s -> procs s !! i = Some (mkProcess false l c) -> step i (mkProcess false l c) s = Some s' -> inv s'.
Proof using SCL.
  intros Hinv Hi Hs. destruct (inv_process s Hinv i _ Hi) as [[Hl Hnf] Hd]. cbn [readOnly lock pc] in *.
  destruct (match c with OpenOld _ | To8 _ | To9 _ | To10 _ | Truncate | Write => true | _ => false end) eqn:Hc; [by eapply step_upgrade|].
  unfold step, upgradeDBSchema in Hs. cbn [pc readOnly] in Hs.
  destruct c as [| | | | | |u|u|u| |n|n|n|n| | |u| | | | | | | | |]; try done; clear Hc; cbn [data_ok lock_ok] in Hd, Hl.
  - destruct (grantable i ReadLock (procs s)) eqn:Hg; [|done]. injection Hs as <-. eapply (writer_goes i s l Start); try done; [|by right].
    right. right. by eexists.
  - destruct (agree_at_rest s i _ Hinv Hi) as (n & Hst & Hv); [cbn; by rewrite Hl|done|]. rewrite (getSchema_stored _ _ Hst) in Hs. injection Hs as <-.
    unfold branch, nixSchemaVersion. cbn [readOnly andb]. pose proof Hst as [Hn _]. rewrite (proj2 (Z.ltb_ge 10 n)), (proj2 (Z.eqb_neq n 0)) by lia.
    destruct (Z.ltb_spec n 10).
    + rewrite (proj2 (Z.ltb_ge n 5)), (proj2 (Z.ltb_ge n 6)) by lia. eapply (writer_goes i s l ReadSchema); try done; [by left|by right; left|by right].
    + assert (n = 10) as -> by lia. eapply (writer_goes i s l ReadSchema); try done; [by right; left|by right].
  - injection Hs as <-. destruct (grantable i WriteLock (procs s)) eqn:Hg.
    + eapply (writer_goes i s l (TryWrite u)); [done|done|by destruct u|by destruct u|by destruct u|right; right; by eexists|by right].
    + eapply (writer_goes i s l (TryWrite u)); [done|done|done|done|by destruct u|by right; left|by right].
  - injection Hs as <-. eapply (writer_goes i s l (Unlock u)); [done|done|done|done|by destruct u|by left|by right].
  - destruct (grantable i WriteLock (procs s)) eqn:Hg; [|done]. injection Hs as <-.
    eapply (writer_goes i s l (WaitWrite u)); [done|done|by destruct u|by destruct u|by destruct u|right; right; by eexists|by right].
  - destruct (agree_at_rest s i _ Hinv Hi) as (n & Hst & Hv); [cbn; by rewrite Hl|done|]. rewrite (getSchema_stored _ _ Hst) in Hs. injection Hs as <-.
    eapply (writer_goes i s l Reread); try done; [by right; left|by right].
  - destruct (grantable i ReadLock (procs s)) eqn:Hg; [|done]. injection Hs as <-.
    eapply (writer_goes i s l (WaitRead u)); [done|done|by destruct u|by destruct u|by destruct u|right; right; by eexists|by right].
  - injection Hs as <-. unfold openDB. pose proof Hd as (idx & m & Hdb & _). rewrite Hdb.
    eapply (writer_goes i s l OpenCurrent); try done; [by right; left|by right].
  - destruct Hd as (idx & m & Hdb & Hm). rewrite Hdb in Hs. cbn in Hs. injection Hs as <-.
    assert (inv (goto i (mkProcess false l DryRun) (TryWrite ForMigrations) s)) as Htry.
    { eapply (writer_goes i s l DryRun); try done; [by left| |by right; left|by right]. by exists idx, m. }
    destruct m as [m|]; [|exact Htry]. case_bool_decide; [|exact Htry].
    eapply (writer_goes i s l DryRun); try done; [|by right; left|by right]. by exists idx, m.
  - destruct Hd as (idx & m & Hdb & _). rewrite Hdb in Hs. cbn in Hs. injection Hs as <-. destruct m as [m|].
    + eapply (writer_goes i s l HasMigrations); try done; [|by right; left|by right]. by exists idx, m.
    + eapply (writer_goes i s l HasMigrations); try done; [|by right; left|by right]. by exists idx.
  - destruct (agree_at_rest s i _ Hinv Hi) as (n & Hst & Hv); [cbn; by rewrite Hl|done|]. destruct Hd as (idx & Hdb). unfold exec in Hs. rewrite Hdb in Hs.
    cbn in Hs. injection Hs as <-. eapply (writer_writes i s l CreateMigrations); try done.
    + by exists idx, ∅.
    + split; [intros _; exists idx, (Some ∅); split; [done|lia]|]. intros (idx' & m' & Hd' & _). rewrite Hdb in Hd'. by injection Hd'.
    + right. exists n. split; [done|]. assert (n = 10) as -> by (apply (version_current (db s)); [apply Hst|done|exists idx, None; split; [done|lia]]).
      exists idx, (Some ∅). split; [done|lia].
  - destruct Hd as (idx & m & Hdb). rewrite Hdb in Hs. cbn in Hs. injection Hs as <-. case_bool_decide.
    + eapply (writer_goes i s l ReadMigrations); try done; [by left| |by right; left|by right]. by exists idx, m.
    + eapply (writer_goes i s l ReadMigrations); try done; [|by right; left|by right]. by exists idx, m.
  - destruct (agree_at_rest s i _ Hinv Hi) as (n & Hst & Hv); [cbn; by rewrite Hl|done|]. destruct Hd as (idx & m & Hdb). unfold exec in Hs. rewrite Hdb in Hs.
    cbn in Hs. injection Hs as <-. assert (migrated (Some (db_at 10 false (Some ({[drop_index_referrer]} ∪ m))))) as Hm
      by (exists false, ({[drop_index_referrer]} ∪ m); split; [done|set_solver]).
    assert (current (Some (db_at 10 false (Some ({[drop_index_referrer]} ∪ m))))) as Hcur
      by (exists false, (Some ({[drop_index_referrer]} ∪ m)); split; [done|lia]).
    eapply (writer_writes i s l Migrate); try done; [by left|]. right. exists n. split; [done|].
    assert (n = 10) as -> by (apply (version_current (db s)); [apply Hst|done|exists idx, (Some m); split; [done|lia]]). exact Hcur.
Qed.

(** ** Schedules *)

(** No signal arrives, and no process dies between the transactions of an
    upgrade and the writing of the version. *)
Fixpoint calm (es : list Event) (s : State) : Prop :=
  match es with
  | [] => True
  | e :: es =>
      match e with
      | Interrupt _ => False
      | End_ i => forall p, procs s !! i = Some p -> midway (pc p) = false
      | _ => True
      end /\ forall s', happen e s = Some s' -> calm es s'
  end.

Lemma opening_step i p s s' : inv s -> procs s !! i = Some p -> step i p s = Some s' -> inv s'.
Proof using SCL. destruct p as [[] l c]; [apply step_read_only|apply step_writer]. Qed.

Lemma happen_inv e s s' : inv s -> calm [e] s -> happen e s = Some s' -> inv s'.
Proof using SCL.
  intros Hinv [Hc _] Hs. destruct e as [i|i|i|i]; cbn [happen] in Hs; [| |done|];
    (destruct (procs s !! i) as [p|] eqn:Hi; [|done]; cbn [mbind option_bind] in Hs).
  - by eapply opening_step.
  - destruct (converts (pc p)) eqn:Hcv; [|done]. injection Hs as <-. destruct (inv_process s Hinv i p Hi) as [Hok Hd].
    apply (opening_change i p (mkProcess (readOnly p) None (pc p))); [done|done| |by left|by left|right; right; split; [by destruct (pc p)|done]].
    split; [|done]. cbn. destruct (readOnly p); [by destruct Hok|]. destruct Hok as [Hok ?]. split; [|done]. destruct (pc p); try done; by right.
  - injection Hs as <-. apply (opening_change i p (mkProcess (readOnly p) None Gone)); [done|done| |by left|by left|right; right; split; [by apply Hc|done]].
    split; [|done]. cbn. by destruct (readOnly p).
Qed.

Lemma opening_run es : forall s s', inv s -> calm es s -> run es s = Some s' -> inv s'.
Proof using SCL.
  induction es as [|e es IH]; intros s s' Hinv Hc Hr; [by injection Hr as <-|]. cbn [run] in Hr. destruct Hc as [He Hc].
  destruct (happen e s) as [s1|] eqn:Hs; [|done]. cbn in Hr. apply (IH s1); [|by apply Hc|done]. by apply (happen_inv e s).
Qed.

(** A store that is there, and processes that are about to open it. *)
Definition store_at (n : Z) (idx : bool) (m : option (gset bytes)) (readers : list bool) : State :=
  mkState (Some (print_int n)) (Some (db_at n idx m)) ((fun ro => mkProcess ro None Start) <$> readers).

Lemma store_at_inv n idx m readers : 6 <= n <= 10 -> (n < 10 -> m = None) -> inv (store_at n idx m readers).
Proof using Type.
  intros Hn Hm. assert (forall i p, procs (store_at n idx m readers) !! i = Some p -> exists ro, p = mkProcess ro None Start) as Hall.
  { cbn. intros i p. rewrite list_lookup_fmap. destruct (readers !! i) as [ro|]; [|done]. intros [= <-]. by exists ro. }
  split.
  - intros i p Hi. destruct (Hall i p Hi) as [[] ->]; by split.
  - intros i j p q Hi _ _. by destruct (Hall i p Hi) as [ro ->].
  - right. exists n. split; [done|]. by exists idx, m.
Qed.

Lemma locked_steps s i p : inv s -> procs s !! i = Some p -> lock p <> None -> pc p = Opened \/ exists s', step i p s = Some s'.
Proof using SCL.
  intros Hinv Hi Hl. destruct (inv_process s Hinv i p Hi) as [Hok Hd]. destruct p as [[] l c]; cbn [readOnly lock pc] in *; [by destruct Hok|].
  destruct Hok as [Hok _]. unfold step, upgradeDBSchema. cbn [pc readOnly]. destruct c as [| | | | | |u|u|u| |n|n|n|n| | |u| | | | | | | | |]; cbn [lock_ok data_ok] in *; try done;
    try (right; by eexists); try by left.
  - right. assert (grantable i ReadLock (procs s) = true) as ->; [|by eexists]. destruct Hok as [Hw|?]; [|done]. unfold grantable. apply forallb_forall.
    intros q Hq%list_elem_of_In%list_elem_of_lookup. destruct Hq as [j Hj].
    assert (exists k, k <> i /\ procs s !! k = Some q) as (k & Hk & Hq).
    { destruct (decide (j < i)%nat); [rewrite list_lookup_delete_lt in Hj by done; exists j; split; [lia|done]|].
      rewrite list_lookup_delete_ge in Hj by lia. exists (S j). split; [lia|done]. }
    assert (lock q = None) as ->; [|done]. by apply (inv_exclusive s Hinv i k _ q Hi Hq).
  - right. destruct Hd as (idx & m & -> & _). by eexists.
  - right. destruct Hd as (idx & m & -> & _). by eexists.
  - right. destruct Hd as (idx & m & ->). by eexists.
Qed.

Definition finished (c : Pc) : bool := match c with Opened | Failed _ | Gone => true | _ => false end.

Lemma not_granted i m s : grantable i m (procs s) = false -> exists j q, procs s !! j = Some q /\ lock q <> None.
Proof using Type.
  intros Hg. unfold grantable in Hg. apply not_true_iff_false in Hg. rewrite forallb_forall in Hg.
  destruct (decide (Exists (fun q => lock q <> None) (procs s))) as [(q & Hq & Hl)%Exists_exists|Hn%not_Exists_Forall].
  - apply list_elem_of_lookup in Hq as [j Hj]. by exists j, q.
  - exfalso. apply Hg. intros q Hq%list_elem_of_In. assert (q ∈ procs s) as Hin by (eapply elem_of_submseteq; [exact Hq|apply sublist_submseteq, sublist_delete]).
    rewrite Forall_forall in Hn. specialize (Hn q Hin). cbn in Hn. assert (lock q = None) as -> by (destruct (lock q); [exfalso; by apply Hn|done]). by destruct m.
  - intros q. apply not_dec. destruct (lock q); [right|left]; done.
Qed.

Lemma progress s i p : inv s -> procs s !! i = Some p -> finished (pc p) = false ->
  (exists j q s', procs s !! j = Some q /\ step j q s = Some s') \/ exists j q, procs s !! j = Some q /\ pc q = Opened /\ readOnly q = false.
Proof using SCL.
  intros Hinv Hi Hf. destruct (step i p s) as [s'|] eqn:Hs; [left; by eauto|].
  assert (exists j q, procs s !! j = Some q /\ lock q <> None) as (j & q & Hj & Hl).
  { destruct (inv_process s Hinv i p Hi) as [Hok Hd]. destruct p as [ro l c]. unfold step, upgradeDBSchema in Hs. cbn [pc readOnly lock] in *.
    destruct c as [| | | | | |u|u|u| |n|n|n|n| | |u| | | | | | | | |]; try done.
    all: try (by destruct ro; [destruct Hok|destruct Hok as [? _]]).
    - destruct ro; [done|]. destruct (grantable i ReadLock (procs s)) eqn:Hg; [done|]. by eapply not_granted.
    - destruct (grantable i WriteLock (procs s)) eqn:Hg; [done|]. by eapply not_granted.
    - destruct (grantable i ReadLock (procs s)) eqn:Hg; [done|]. by eapply not_granted.
    - cbn in Hd. by destruct Hd as (idx & m & Hd & _); rewrite Hd in Hs.
    - cbn in Hd. by destruct Hd as (idx & m & Hd & _); rewrite Hd in Hs.
    - cbn in Hd. by destruct Hd as (idx & m & Hd); rewrite Hd in Hs. }
  destruct (locked_steps s j q Hinv Hj Hl) as [Ho|(s' & Hs')]; [|left; by eauto]. right. exists j, q. split_and!; [done|done|].
  destruct (inv_process s Hinv j q Hj) as [Hok _]. destruct (readOnly q); [by destruct Hok|done].
Qed.

(** Only the holder of the exclusive lock changes the data. *)
Lemma step_data s i p s' : inv s -> procs s !! i = Some p -> step i p s = Some s' ->
  (schema s' = schema s /\ db s' = db s) \/ lock p = Some WriteLock.
Proof using Type.
  intros Hinv Hi Hs. destruct (inv_process s Hinv i p Hi) as [Hok Hd]. destruct p as [ro l c]. unfold step, upgradeDBSchema, openDB in Hs. cbn [pc readOnly lock] in *.
  destruct c as [| | | | | |u|u|u| |n|n|n|n| | |u| | | | | | | | |]; try done;
    try (right; destruct ro; [by destruct Hok|by destruct Hok]).
  all: left; destruct (db s) as [d|] eqn:Hdb; repeat (case_match; simplify_eq/=; try done).
Qed.

Lemma opened_data s p : inv s -> p ∈ procs s -> pc p = Opened -> readOnly p = false ->
  lock p = Some ReadLock /\ migrated (db s) /\ schema s = Some (print_int nixSchemaVersion).
Proof using Type.
  intros Hinv [i Hi]%list_elem_of_lookup Hpc Hro. destruct (inv_process s Hinv i p Hi) as [Hok Hd]. rewrite Hro, Hpc in *. cbn in Hok, Hd.
  destruct Hok as [Hl _]. destruct (agree_at_rest s i p Hinv Hi) as (n & [Hn Hst] & Hv); [by rewrite Hl|by rewrite Hpc|].
  split_and!; [done|done|]. destruct Hd as (idx & m & Hdb & _).
  assert (n = 10) as -> by (apply (version_current (db s)); [done|done|exists idx, (Some m); split; [done|lia]]). done.
Qed.

End opening.

(** ** Examples *)

Definition steps (i k : nat) : list Event := replicate k (Step i).
Definition view (s : State) : list (option LockMode * Pc) := (fun p => (lock p, pc p)) <$> procs s.
Definition run_ : list Event -> State -> option State := @run digits_signed_cast.
Definition empty_store (readers : list bool) : State := mkState None None ((fun ro => mkProcess ro None Start) <$> readers).

Lemma steps_calm es s0 : forallb (fun e => match e with Step _ => true | _ => false end) es = true -> @calm digits_signed_cast es s0.
Proof.
  revert s0. induction es as [|[j|j|j|j] es IH]; intros s0 Hes; try discriminate Hes; [exact I|]. split; [exact I|]. intros s' _. by apply IH.
Qed.

(** Two processes upgrade a store of version 7; the first one had to give its
    lock to the second. *)
Definition upgraded : list Event := steps 0 2 ++ steps 1 2 ++ steps 0 2 ++ steps 1 16.

Lemma ran {A} (f : State -> A) es s0 a : f <$> run_ es s0 = Some a -> exists s, run_ es s0 = Some s /\ f s = a.
Proof. destruct (run_ es s0) as [s|]; [|discriminate]. intros [= <-]. by exists s. Qed.


(** A new store. *)
Lemma new_store_opened : (fun s => (view s, schema s, db s)) <$> run_ (steps 0 13) (empty_store [false])
  = Some ([(Some ReadLock, Opened)], Some #"10", Some (db_at 10 false (Some {[drop_index_referrer]}))).
Proof. vm_compute. reflexivity. Qed.

(** ** What modelling showed *)

(** The process that gave its lock waits until the other closes the store,
    though there is nothing left to upgrade. *)
Lemma waits_for_opened :
  db <$> run_ upgraded (store_at 7 true None [false; false]) = Some (Some (db_at 10 false (Some {[drop_index_referrer]}))) /\
  run_ (upgraded ++ [Step 0]) (store_at 7 true None [false; false]) = None /\
  view <$> run_ (upgraded ++ [End_ 1] ++ steps 0 10) (store_at 7 true None [false; false]) = Some [(Some ReadLock, Opened); (None, Gone)].
Proof. split_and!; vm_compute; reflexivity. Qed.

(** A process that dies after a transaction of an upgrade leaves a store that
    nobody can open: the transaction is not repeatable, and the version is
    written last. *)
Lemma interrupted_upgrade : view <$> run_ (steps 0 6 ++ [End_ 0] ++ steps 1 6 ++ steps 2 6) (store_at 7 true None [false; false; false])
  = Some [(None, Gone); (None, Failed SQLiteError); (None, Failed SQLiteError)].
Proof. vm_compute. reflexivity. Qed.

(** A store that does not exist is created under the shared lock: another
    process reads a version file that is not yet written. *)
Lemma new_store_race : view <$> run_ (steps 0 5 ++ steps 1 2) (empty_store [false; false]) = Some [(Some ReadLock, WriteNew); (None, Failed Error)].
Proof. vm_compute. reflexivity. Qed.

(** A signal while a process waits for the exclusive lock: it goes on without
    it, and two processes upgrade at the same time. *)
Lemma signal_upgrade : view <$> run_ (steps 0 2 ++ steps 1 2 ++ steps 0 2 ++ steps 1 3 ++ [Interrupt 0] ++ steps 0 2 ++ steps 1 1 ++ steps 0 1) (store_at 7 true None [false; false])
  = Some [(None, Failed SQLiteError); (Some WriteLock, To9 7)].
Proof. vm_compute. reflexivity. Qed.
