(* ===== verification/GCStore.v ===== *)
(** * GCStore: what the garbage collector needs of a store

    The operations of [Store] that libstore/gc.cc calls, as a type class, and
    their laws, in terms of which paths are valid and how they refer to each
    other; and libstore/misc.cc on top of them: [computeFSClosure] and
    [topoSortPaths].  Queries are pure: they fill the path info cache, which
    the answers do not depend on (LocalStoreGC.v). *)

From S2P Require Export PathInfo Graph.

Class GCStore (St : Type) := {
  gs_isValidPath : StorePath -> St -> result bool;
  gs_queryReferrers : StorePath -> St -> result StorePathSet;
  gs_queryPathInfo : StorePath -> St -> result ValidPathInfo;
  gs_queryValidDerivers : StorePath -> St -> result StorePathSet;
  gs_queryAllValidPaths : St -> result StorePathSet;
  gs_invalidatePathChecked : StorePath -> ST St unit;
}.

Class GCStoreLaws (St : Type) `{GCStore St} := {
  sok : St -> Prop;
  svalid : St -> StorePath -> Prop;
  (** [srefers s p q]: the valid path [p] refers to [q]. *)
  srefers : St -> StorePath -> StorePath -> Prop;
  (** [sderiver s p d]: the info of [p] names [d] as its deriver. *)
  sderiver : St -> StorePath -> StorePath -> Prop;
  (** [sderives s d p]: [p] is an output of the valid derivation [d]. *)
  sderives : St -> StorePath -> StorePath -> Prop;

  law_valid_wf s p : sok s -> svalid s p -> wf_StorePath p;
  law_refers_valid s p q : sok s -> srefers s p q -> svalid s p /\ svalid s q;
  law_derives_valid s d p : sok s -> sderives s d p -> svalid s d;
  law_isValidPath s p : sok s -> exists b, gs_isValidPath p s = Ok b /\ (b = true <-> svalid s p);
  law_queryReferrers s p : sok s -> exists X, gs_queryReferrers p s = Ok X /\ forall q, q ∈ X <-> srefers s q p;
  law_queryValidDerivers s p : sok s -> exists X, gs_queryValidDerivers p s = Ok X /\ forall d, d ∈ X <-> sderives s d p;
  law_queryAllValidPaths s : sok s -> exists X, gs_queryAllValidPaths s = Ok X /\ forall p, p ∈ X <-> svalid s p;
  law_queryPathInfo s p : sok s -> svalid s p ->
    exists info, gs_queryPathInfo p s = Ok info /\ (forall q, q ∈ references info <-> srefers s p q) /\
      (forall d, deriver info = Some d <-> sderiver s p d);
  law_queryPathInfo_invalid s p : sok s -> ~ svalid s p -> gs_queryPathInfo p s = Throw InvalidPath;
  law_invalidatePathChecked s p : sok s ->
    leads (gs_invalidatePathChecked p) s
      (fun _ s' => sok s' /\ (forall q, srefers s q p -> q = p) /\
         (forall q, svalid s' q <-> svalid s q /\ q <> p) /\
         (forall x y, srefers s' x y <-> srefers s x y /\ x <> p) /\
         (forall x d, sderiver s' x d <-> sderiver s x d /\ x <> p) /\
         (forall d x, sderives s' d x <-> sderives s d x /\ d <> p))
      (fun e s' => e = PathInUse /\ s' = s /\ exists q, srefers s q p /\ q <> p);
}.

(** ** libstore/misc.cc *)

Section misc.
Context {St : Type} `{GCStore St}.

(** The [queryDeps] of [computeFSClosure]. *)
Definition queryDeps (s : St) (flipDirection includeOutputs includeDerivers : bool) (path : StorePath) : result StorePathSet :=
  if flipDirection then
    referrers ← gs_queryReferrers path s;
    let res := referrers ∖ {[path]} in
    if includeOutputs then
      derivers ← gs_queryValidDerivers path s;
      Ok (res ∪ derivers)
    else Ok res
  else
    info ← gs_queryPathInfo path s;
    let res := references info ∖ {[path]} in
    match deriver info with
    | Some d =>
        if includeDerivers then
          v ← gs_isValidPath d s;
          Ok (if v : bool then {[d]} ∪ res else res)
        else Ok res
    | None => Ok res
    end.

(** The fuel is the number of steps [computeClosure] takes at most when it
    stays within the valid paths and the start. *)
Definition computeFSClosure (s : St) (startPaths : StorePathSet) (flipDirection includeOutputs includeDerivers : bool)
    : result StorePathSet :=
  universe ← gs_queryAllValidPaths s;
  run_closure startPaths (queryDeps s flipDirection includeOutputs includeDerivers) ∅
    (5 * size (startPaths ∪ universe) + 2).

Definition topoSortPaths (s : St) (paths : StorePathSet) : result (list StorePath) :=
  r ← topoSort (sp_iter paths)
        (fun path => catch (info ← gs_queryPathInfo path s; Ok (sp_iter (references info)))
                       (fun e => bool_decide (e = InvalidPath)) (fun _ => Ok []));
  match r with
  | inl sorted => Ok sorted
  | inr _ => Throw Error
  end.
End misc.

(** *** Correctness *)

Section misc_spec.
Context {St : Type} `{GCStoreLaws St}.

Lemma svalid_dec s p : sok s -> svalid s p \/ ~ svalid s p.
Proof using Type.
  intros Hok. destruct (law_isValidPath s p Hok) as ([] & _ & Hb); [left; by apply Hb|right]. intros Hv%Hb. done.
Qed.

(** What keeps [q] in the closure of [p]. *)
Definition closure_edge (s : St) (includeDerivers : bool) (p q : StorePath) : Prop :=
  srefers s p q \/ includeDerivers = true /\ sderiver s p q /\ svalid s p /\ svalid s q.

Lemma closure_edge_valid s b p q : sok s -> closure_edge s b p q -> svalid s p /\ svalid s q.
Proof using Type. intros Hok [Hr|(_ & _ & ? & ?)]; [by apply (law_refers_valid s)|done]. Qed.

Lemma queryDeps_valid s b p :
  sok s -> svalid s p ->
  exists X, queryDeps s false false b p = Ok X /\ (forall q, q ∈ X -> closure_edge s b p q) /\
    (forall q, closure_edge s b p q -> q <> p -> q ∈ X).
Proof using Type.
  intros Hok Hv. destruct (law_queryPathInfo s p Hok Hv) as (info & Hi & Hrefs & Hd). unfold queryDeps. rewrite Hi.
  cbn [mbind result_bind]. set (res := references info ∖ {[p]}).
  assert (forall q, q ∈ res <-> srefers s p q /\ q <> p) as Hres.
  { intros q. unfold res. rewrite elem_of_difference, elem_of_singleton, Hrefs. done. }
  assert (forall d, deriver info = Some d -> b = true -> svalid s d ->
    (forall q, q ∈ {[d]} ∪ res -> closure_edge s b p q) /\
    (forall q, closure_edge s b p q -> q <> p -> q ∈ {[d]} ∪ res)) as Hwith.
  { intros d Hdi Hb Hvd. split; intros q; rewrite elem_of_union, elem_of_singleton, Hres.
    - intros [->|[? _]]; [right; repeat (split; [done|]) | by left]. split; [by apply Hd|done].
    - intros [Hr|(_ & Hdq & _)] Hne; [by right|left]. apply Hd in Hdq. congruence. }
  assert ((forall q, sderiver s p q -> b = true -> ~ svalid s q) ->
    (forall q, q ∈ res -> closure_edge s b p q) /\ (forall q, closure_edge s b p q -> q <> p -> q ∈ res)) as Hno.
  { intros Hn. split; intros q; rewrite Hres; [intros [? _]; by left|]. intros [Hr|(Hb & Hdq & _ & Hvq)] Hne; [done|].
    by destruct (Hn q Hdq Hb). }
  destruct (deriver info) as [d|] eqn:Hdi.
  - destruct b.
    + destruct (law_isValidPath s d Hok) as ([] & -> & Hb); cbn [mbind result_bind]; eexists; (split; [done|]).
      * apply Hwith; [done..|]. by apply Hb.
      * apply Hno. intros q Hq _ Hvq. apply Hd in Hq. simplify_eq. apply Hb in Hvq. done.
    + eexists. split; [done|]. by apply Hno.
  - eexists. split; [done|]. apply Hno. intros q Hq. apply Hd in Hq. done.
Qed.

(** The closure of a valid path. *)
Lemma computeFSClosure_valid s b p :
  sok s -> svalid s p ->
  exists X, computeFSClosure s {[p]} false false b = Ok X /\ forall q, q ∈ X <-> rtc (closure_edge s b) p q.
Proof using Type.
  intros Hok Hv. unfold computeFSClosure. destruct (law_queryAllValidPaths s Hok) as (U & -> & HU).
  cbn [mbind result_bind]. set (f := queryDeps s false false b).
  assert (forall x, Closure.reached {[p]} f ∅ x <-> rtc (closure_edge s b) p x) as Hreach.
  { intros x. split.
    - induction 1 as [x Hx%elem_of_singleton _|x es y Hx IH Hes Hy _]; [by subst|].
      assert (svalid s x) as Hvx.
      { destruct (svalid_dec s x Hok) as [?|Hn]; [done|]. unfold f, queryDeps in Hes.
        rewrite law_queryPathInfo_invalid in Hes by done. discriminate. }
      destruct (queryDeps_valid s b x Hok Hvx) as (X & HX & H1 & _). unfold f in Hes. rewrite HX in Hes. injection Hes as <-.
      eapply rtc_r; [done|]. by apply H1.
    - intros Hr. revert x Hr. apply (rtc_ind_r (fun x => Closure.reached {[p]} f ∅ x)).
      + apply Closure.reached_start; set_solver.
      + intros y z Hy Hyz IH. destruct (decide (z = y)) as [->|Hne]; [done|].
        assert (svalid s y) as Hvy by apply (closure_edge_valid s b y z Hok Hyz).
        destruct (queryDeps_valid s b y Hok Hvy) as (X & HX & _ & H2).
        apply (Closure.reached_edge _ _ _ y X z IH HX); [by apply H2|set_solver]. }
  assert (forall x, Closure.reached {[p]} f ∅ x -> svalid s x) as Hvr.
  { intros x Hx%Hreach. apply rtc_inv_r in Hx as [<-|(y & _ & Hyx)]; [done|]. apply (closure_edge_valid s b y x Hok Hyx). }
  pose proof (run_closure_spec {[p]} f ∅ ({[p]} ∪ U) (5 * size ({[p]} ∪ U) + 2)) as Hrun.
  destruct (run_closure _ _ _ _) as [X|e].
  - exists X. split; [done|]. intros q. destruct Hrun as [Hrun _]; [intros x Hx%Hvr%HU; set_solver|lia|].
    rewrite Hrun, <- Hreach. set_solver.
  - destruct Hrun as (x & Hx & He); [intros x Hx%Hvr%HU; set_solver|lia|].
    destruct (queryDeps_valid s b x Hok (Hvr x Hx)) as (X & HX & _). unfold f in He. congruence.
Qed.

Lemma computeFSClosure_invalid s b p :
  sok s -> ~ svalid s p -> computeFSClosure s {[p]} false false b = Throw InvalidPath.
Proof using Type.
  intros Hok Hv. unfold computeFSClosure. destruct (law_queryAllValidPaths s Hok) as (U & -> & HU).
  cbn [mbind result_bind]. set (f := queryDeps s false false b).
  assert (f p = Throw InvalidPath) as Hp by (unfold f, queryDeps; by rewrite law_queryPathInfo_invalid).
  assert (forall x, Closure.reached {[p]} f ∅ x -> x = p) as Hreach.
  { induction 1 as [x Hx%elem_of_singleton _|x es y Hx IH Hes Hy _]; [done|]. subst x. congruence. }
  pose proof (run_closure_spec {[p]} f ∅ ({[p]} ∪ U) (5 * size ({[p]} ∪ U) + 2)) as Hrun.
  destruct (run_closure _ _ _ _) as [X|e].
  - destruct Hrun as [_ Hr]; [intros x Hx%Hreach; set_solver|lia|].
    destruct (Hr p) as [es Hes]; [apply Closure.reached_start; set_solver|]. congruence.
  - destruct Hrun as (x & Hx & Hex); [intros x Hx%Hreach; set_solver|lia|]. apply Hreach in Hx as ->. congruence.
Qed.

(** A sort that is returned lists each path before those it refers to; there
    is one when the references among the paths are acyclic. *)
Lemma topoSortPaths_spec s X :
  sok s ->
  match topoSortPaths s X with
  | Ok l =>
      NoDup l /\ (forall p, p ∈ l <-> p ∈ X) /\
      forall i j p q, l !! i = Some p -> l !! j = Some q -> srefers s p q -> p <> q -> (i < j)%nat
  | Throw e => e = Error /\ exists p, tc (fun p q => srefers s p q /\ p <> q) p p
  end.
Proof using Type.
  intros Hok. unfold topoSortPaths. set (f := fun path => catch _ _ _).
  set (c := fun p => match gs_queryPathInfo p s with Ok info => sp_iter (references info) | Throw _ => [] end).
  assert (forall p q, q ∈ c p <-> srefers s p q) as Hc.
  { intros p q. unfold c. destruct (svalid_dec s p Hok) as [Hv|Hv].
    - destruct (law_queryPathInfo s p Hok Hv) as (info & -> & Hr & _). by rewrite elem_of_sp_iter.
    - rewrite law_queryPathInfo_invalid by done. split; [by intros ?%not_elem_of_nil|].
      intros Hr. by apply (law_refers_valid s p q) in Hr as [? _]. }
  rewrite (topoSort_ext _ f (fun p => Ok (c p))).
  2: { intros p. unfold f, c. destruct (svalid_dec s p Hok) as [Hv|Hv].
       - destruct (law_queryPathInfo s p Hok Hv) as (info & -> & _). done.
       - by rewrite law_queryPathInfo_invalid. }
  pose proof (topoSort_ok (sp_iter X) c) as Ht. destruct (topoSort _ _) as [[l|cy]|]; cbn [mbind result_bind]; [| |done].
  - destruct Ht as (Hnd & Hin & Hord). split; [done|]. split; [intros p; by rewrite Hin, elem_of_sp_iter|].
    intros i j p q Hp Hq Hr Hne. apply (Hord i j p q Hp Hq). split; [by apply Hc|]. split; [done|].
    split; apply Hin; apply list_elem_of_lookup; eauto.
  - split; [done|]. exists (cy_parent cy). destruct Ht as [He Hr].
    assert (forall a b, edge (sp_iter X) c a b -> srefers s a b /\ a <> b) as Hedge.
    { intros a b (Hb%Hc & Hne & _). done. }
    eapply tc_rtc_r; [by apply tc_once, Hedge|]. eapply rtc_mono; [apply Hedge|done].
Qed.
End misc_spec.
