(* ===== verification/GC.v ===== *)
(** * GC: the garbage collector

    libstore/gc.cc [LocalStore::collectGarbage], against the interface of
    GCStore.v.  The collector shares its temporary roots with the threads that
    serve [addTempRoot] requests of other processes, and the store with those
    processes.  It runs as a sequence of atomic actions (a section under the
    lock, a query, an invalidation, a deletion from disk); before each of them
    the others run, as the next of the [rounds] says.  The roots found in the
    file system before that are an input, as is the order [readdir] lists the
    store directory in. *)

From S2P Require Export GCStore.

Inductive GCAction := gcReturnLive | gcReturnDead | gcDeleteDead | gcDeleteSpecific.
#[export] Instance GCAction_eq_dec : EqDecision GCAction.
Proof. solve_decision. Defined.

Inductive GCPaths :=
  | WholeStore
  | SpecificPaths (paths : StorePathSet) (deleteReferrers : bool).

Record GCOptions := mkGCOptions {
  action : GCAction;
  ignoreLiveness : bool;
  pathsToDelete : GCPaths;
  maxFreed : Z;
}.

Record GCSettings := mkGCSettings { keepOutputs : bool; keepDerivations : bool }.

(** What the other processes do: a client sends a line to the roots server, a
    thread of the server that waits for a deletion is woken, or the store
    changes. *)
Inductive event (St : Type) :=
  | NewRoot (line : bytes)
  | Wake (client : nat)
  | Change (f : St -> St).
Arguments NewRoot {St}.
Arguments Wake {St}.
Arguments Change {St}.

(** The variables of a collection.  [acked] are the roots the server has
    acknowledged, each with the store at that moment; [waiting] those it will
    acknowledge when the deletion in progress is over; [entries] are the names
    in the store directory. *)
Record GC (St : Type) := mkGC {
  store : St;
  entries : gset bytes;
  alive : StorePathSet;
  dead : StorePathSet;
  tempRoots : gset bytes;
  pending : option bytes;
  waiting : list StorePath;
  acked : list (StorePath * St);
  referrersCache : gmap StorePath StorePathSet;
  paths : gset bytes;
  bytesFreed : Z;
  rounds : list (list (event St));
}.
Arguments mkGC {St}.
Arguments store {St}.
Arguments entries {St}.
Arguments alive {St}.
Arguments dead {St}.
Arguments tempRoots {St}.
Arguments pending {St}.
Arguments waiting {St}.
Arguments acked {St}.
Arguments referrersCache {St}.
Arguments paths {St}.
Arguments bytesFreed {St}.
Arguments rounds {St}.

Section collector.
Context {St : Type} `{GCStore St}.
Context (storeDir linksName : bytes) (settings : GCSettings) (options : GCOptions).
(** The permanent roots and the temporary roots found at the start. *)
Context (roots : StorePathSet).
(** The bytes deleting a name of the store directory frees, and whether a
    temporary directory of it is locked. *)
Context (diskUsage : bytes -> Z) (tmpLocked : bytes -> bool).
(** Bounds the paths one traversal visits. *)
Context (fuel : nat).
Notation M := (ST (GC St)).

Definition set_store (s : St) (g : GC St) : GC St :=
  mkGC s (entries g) (alive g) (dead g) (tempRoots g) (pending g) (waiting g) (acked g) (referrersCache g) (paths g) (bytesFreed g) (rounds g).
Definition set_alive (X : StorePathSet) (g : GC St) : GC St :=
  mkGC (store g) (entries g) X (dead g) (tempRoots g) (pending g) (waiting g) (acked g) (referrersCache g) (paths g) (bytesFreed g) (rounds g).
Definition set_dead (X : StorePathSet) (g : GC St) : GC St :=
  mkGC (store g) (entries g) (alive g) X (tempRoots g) (pending g) (waiting g) (acked g) (referrersCache g) (paths g) (bytesFreed g) (rounds g).
Definition set_pending (h : option bytes) (g : GC St) : GC St :=
  mkGC (store g) (entries g) (alive g) (dead g) (tempRoots g) h (waiting g) (acked g) (referrersCache g) (paths g) (bytesFreed g) (rounds g).
Definition set_clients (T : gset bytes) (w : list StorePath) (a : list (StorePath * St)) (g : GC St) : GC St :=
  mkGC (store g) (entries g) (alive g) (dead g) T (pending g) w a (referrersCache g) (paths g) (bytesFreed g) (rounds g).
Definition set_referrersCache (c : gmap StorePath StorePathSet) (g : GC St) : GC St :=
  mkGC (store g) (entries g) (alive g) (dead g) (tempRoots g) (pending g) (waiting g) (acked g) c (paths g) (bytesFreed g) (rounds g).
Definition set_results (E P : gset bytes) (freed : Z) (g : GC St) : GC St :=
  mkGC (store g) E (alive g) (dead g) (tempRoots g) (pending g) (waiting g) (acked g) (referrersCache g) P freed (rounds g).
Definition set_rounds (r : list (list (event St))) (g : GC St) : GC St :=
  mkGC (store g) (entries g) (alive g) (dead g) (tempRoots g) (pending g) (waiting g) (acked g) (referrersCache g) (paths g) (bytesFreed g) r.

(** ** The roots server *)

(** A client thread: the root is added to the shared set, and acknowledged
    unless the path is being deleted. *)
Definition serve (g : GC St) (e : event St) : GC St :=
  match e with
  | NewRoot line =>
      match maybeParseStorePath storeDir line with
      | Ok (Some storePath) =>
          let h := hashPart storePath in
          let T := {[h]} ∪ tempRoots g in
          if bool_decide (pending g = Some h) then set_clients T (waiting g ++ [storePath]) (acked g) g
          else set_clients T (waiting g) (acked g ++ [(storePath, store g)]) g
      | _ => g
      end
  | Wake n =>
      match waiting g !! n with
      | Some storePath =>
          if bool_decide (pending g = Some (hashPart storePath)) then g
          else set_clients (tempRoots g) (delete n (waiting g)) (acked g ++ [(storePath, store g)]) g
      | None => g
      end
  | Change f => set_store (f (store g)) g
  end.

(** The others run. *)
Definition yield : M unit := fun g =>
  match rounds g with
  | [] => (Ok (), g)
  | r :: rs => (Ok (), foldl serve (set_rounds rs g) r)
  end.

(** ** Actions *)

(** Under the lock: is it a temporary root, and if not it is pending. *)
Definition checkTempRoot (h : bytes) : M bool :=
  _ ← yield;
  isRoot ← gets (fun g => bool_decide (h ∈ tempRoots g));
  _ ← (if isRoot : bool then mret () else modify (set_pending (Some h)));
  mret isRoot.

Definition ask {A} (query : St -> result A) : M A :=
  _ ← yield;
  r ← gets (fun g => query (store g));
  slift r.

Definition on_store {A} (m : ST St A) : M A := fun g => let '(r, s) := m (store g) in (r, set_store s g).
Definition invalidate (path : StorePath) : M unit := _ ← yield; on_store (gs_invalidatePathChecked path).

Definition releasePending (g : GC St) : GC St := set_pending None g.

Definition deleteFromStore (baseName : bytes) (isKnownPath : bool) : M unit :=
  _ ← slift (assertb (negb (is_absolute baseName)));
  if bool_decide (take 4 baseName = #"tmp-") && tmpLocked baseName then mret ()
  else
    _ ← yield;
    _ ← modify (fun g => set_results (entries g ∖ {[baseName]}) ({[(storeDir ++ #"/") ++ baseName]} ∪ paths g)
                           (u64 (bytesFreed g + diskUsage baseName)) g);
    freed ← gets bytesFreed;
    slift (throw_if (maxFreed options <? freed)%Z GCLimitReached).

Definition markAlive (p : StorePath) : M unit :=
  _ ← modify (fun g => set_alive ({[p]} ∪ alive g) g);
  scatch
    (let '(includeOutputs, includeDerivers) :=
       match pathsToDelete options with
       | WholeStore => (keepOutputs settings, keepDerivations settings)
       | SpecificPaths _ _ => (false, false)
       end in
     closure ← ask (fun s => computeFSClosure s {[p]} false includeOutputs includeDerivers);
     modify (fun g => set_alive (closure ∪ alive g) g))
    (fun e => bool_decide (e = InvalidPath)) (fun _ => mret ()).

Definition enqueue (q : StorePathSet * list StorePath) (path : StorePath) : StorePathSet * list StorePath :=
  if bool_decide (path ∈ q.1) then q else ({[path]} ∪ q.1, q.2 ++ [path]).

(** The referrers of a path, through [referrersCache]. *)
Definition cachedReferrers (path : StorePath) : M StorePathSet :=
  i ← gets (fun g => referrersCache g !! path);
  match i with
  | Some referrers => mret referrers
  | None =>
      referrers ← ask (gs_queryReferrers path);
      _ ← modify (fun g => set_referrersCache (<[path := referrers]> (referrersCache g)) g);
      mret referrers
  end.

(** Not among the paths that may be deleted. *)
Definition outsideSpecified (path : StorePath) : bool :=
  match pathsToDelete options with
  | SpecificPaths ps deleteReferrers => negb deleteReferrers && bool_decide (path ∉ ps)
  | WholeStore => false
  end.

Definition followsDerivers : bool :=
  match pathsToDelete options with WholeStore => keepOutputs settings | SpecificPaths _ _ => false end.

(** The traversal of the referrers: what was visited, or [None] when it was
    left at a path that must be kept. *)
Fixpoint traverse (fuel : nat) (start : StorePath) (q : StorePathSet * list StorePath) : M (option StorePathSet) :=
  match q.2 with
  | [] => mret (Some q.1)
  | path :: todo =>
      match fuel with
      | O => slift (Throw AssertFailed)
      | S fuel =>
          g ← gets id;
          if bool_decide (path ∈ alive g) then
            _ ← modify (fun g => set_alive ({[start]} ∪ alive g) g); mret None
          else if bool_decide (path ∈ dead g) then traverse fuel start (q.1, todo)
          else if bool_decide (path ∈ roots) then
            _ ← modify (fun g => set_alive ({[start]} ∪ alive g) g); _ ← markAlive path; mret None
          else if outsideSpecified path then mret None
          else
            isRoot ← checkTempRoot (hashPart path);
            if isRoot : bool then
              _ ← modify (fun g => set_alive ({[start]} ∪ alive g) g); _ ← markAlive path; mret None
            else
              valid ← ask (gs_isValidPath path);
              if valid : bool then
                referrers ← cachedReferrers path;
                let q := foldl enqueue (q.1, todo) (sp_iter referrers) in
                if followsDerivers then
                  derivers ← ask (gs_queryValidDerivers path);
                  traverse fuel start (foldl enqueue q (sp_iter derivers))
                else traverse fuel start q
              else traverse fuel start (q.1, todo)
      end
  end.

Definition shouldDelete : bool :=
  match action options with gcDeleteDead | gcDeleteSpecific => true | _ => false end.

Definition deletePath (path : StorePath) : M unit :=
  isDead ← gets (fun g => bool_decide (path ∈ dead g));
  if isDead : bool then mret ()
  else
    _ ← modify (fun g => set_dead ({[path]} ∪ dead g) g);
    if shouldDelete then
      isRoot ← checkTempRoot (hashPart path);
      if isRoot : bool then markAlive path
      else
        finally
          (scatch
             (_ ← invalidate path;
              _ ← deleteFromStore (to_string path) true;
              modify (fun g => set_referrersCache (delete path (referrersCache g)) g))
             (fun e => bool_decide (e = PathInUse)) (fun _ => mret ()))
          releasePending
    else mret ().

Definition maybeDeleteReferrersClosure (start : StorePath) : M unit :=
  finally
    (r ← traverse fuel start ({[start]}, [start]);
     match r with
     | None => mret ()
     | Some visited =>
         sorted ← ask (fun s => topoSortPaths s visited);
         sforeach deletePath sorted
     end)
    releasePending.

(** A name of the store directory. *)
Definition collectEntry (name : bytes) : M unit :=
  if bool_decide (name = #".") || bool_decide (name = #"..") || bool_decide (name = linksName) then mret ()
  else
    storePath ← slift (maybeParseStorePath storeDir ((storeDir ++ #"/") ++ name));
    match storePath with
    | Some p => maybeDeleteReferrersClosure p
    | None => deleteFromStore name false
    end.

Definition collectSpecified (i : StorePath) : M unit :=
  _ ← maybeDeleteReferrersClosure i;
  isDead ← gets (fun g => bool_decide (i ∈ dead g));
  slift (throw_if (bool_decide (action options = gcDeleteSpecific) && negb isDead) Error).

Definition collectPaths (listing : list bytes) : M unit :=
  match pathsToDelete options with
  | SpecificPaths ps _ => sforeach collectSpecified (sp_iter ps)
  | WholeStore =>
      if (maxFreed options =? 0)%Z then mret ()
      else if bool_decide (action options = gcDeleteSpecific) then slift (Throw Error)
      else sforeach collectEntry listing
  end.

Definition collect (listing : list bytes) : M unit :=
  _ ← scatch (collectPaths listing) (fun e => bool_decide (e = GCLimitReached)) (fun _ => mret ());
  match action options with
  | gcReturnLive => modify (fun g => set_results (entries g) (printStorePathSet storeDir (alive g)) (bytesFreed g) g)
  | gcReturnDead => modify (fun g => set_results (entries g) (printStorePathSet storeDir (dead g)) (bytesFreed g) g)
  | _ => mret ()
  end.
End collector.

(** ** The whole collection *)

Section collectGarbage.
Context {St : Type} `{GCStore St}.

Definition hashParts (X : StorePathSet) : gset bytes := list_to_set (hashPart <$> sp_iter X).

Definition initial (s : St) (entries : gset bytes) (tempRoots : StorePathSet) (rounds : list (list (event St))) : GC St :=
  mkGC s entries ∅ ∅ (hashParts tempRoots) None [] [] ∅ ∅ 0 rounds.

Definition collectionRoots (options : GCOptions) (rootMap tempRoots : StorePathSet) : StorePathSet :=
  (if ignoreLiveness options then ∅ else rootMap) ∪ tempRoots.

Definition collectGarbage (storeDir linksName : bytes) (settings : GCSettings) (options : GCOptions)
    (diskUsage : bytes -> Z) (tmpLocked : bytes -> bool)
    (fuel : nat) (rootMap tempRoots : StorePathSet) (listing : list bytes) (s : St) (entries : gset bytes)
    (rounds : list (list (event St))) : result unit * GC St :=
  let g := initial s entries tempRoots rounds in
  match pathsToDelete options with
  | SpecificPaths ps _ =>
      if bool_decide (ps = ∅) then (Ok (), g)
      else collect storeDir linksName settings options (collectionRoots options rootMap tempRoots) diskUsage tmpLocked fuel listing g
  | WholeStore => collect storeDir linksName settings options (collectionRoots options rootMap tempRoots) diskUsage tmpLocked fuel listing g
  end.
End collectGarbage.

(** ** Safety *)

Section safety.
Context {St : Type} `{GCStoreLaws St}.
Context (storeDir : bytes) (roots : StorePathSet).
(** The store when the roots were found. *)
Context (s0 : St).

(** Other processes may add valid paths and references, and take none away:
    the collector holds the garbage collector lock. *)
Definition event_ok (e : event St) : Prop :=
  match e with
  | Change f =>
      forall s, sok s -> sok (f s) /\ (forall p, svalid s p -> svalid (f s) p) /\
        (forall p q, srefers s p q -> srefers (f s) p q)
  | _ => True
  end.

(** The paths the collector has promised to keep, with the store at that
    moment. *)
Definition promised (g : GC St) (p : StorePath) (s : St) : Prop := (p, s) ∈ acked g \/ p ∈ roots /\ s = s0.

(** Everything reachable from a promised path that was valid is valid, with
    its references; [D] are paths known to be done with. *)
Record safe_state (D : StorePathSet) (g : GC St) : Prop := {
  ss_ok : sok (store g);
  ss_kept : forall p s q, promised g p s -> svalid s p -> rtc (srefers s) p q ->
    svalid (store g) q /\ forall q', srefers s q q' -> srefers (store g) q q';
  ss_acked : forall p s, (p, s) ∈ acked g -> hashPart p ∈ tempRoots g;
  ss_waiting : forall p, p ∈ waiting g -> hashPart p ∈ tempRoots g;
  ss_dead : D ⊆ dead g;
  ss_rounds : Forall (Forall event_ok) (rounds g);
}.

(** No root with the hash part that is pending has been acknowledged. *)
Definition window (h : bytes) (g : GC St) : Prop :=
  pending g = Some h /\ forall p s, (p, s) ∈ acked g -> hashPart p <> h.

(** Fields the invariant does not read may change. *)
Lemma safe_state_ext D (g g' : GC St) :
  store g' = store g -> acked g' = acked g -> tempRoots g' = tempRoots g -> waiting g' = waiting g ->
  rounds g' = rounds g -> dead g ⊆ dead g' -> safe_state D g -> safe_state D g'.
Proof using Type.
  intros E1 E2 E3 E4 E5 E6 [H1 H2 H3 H4 H5 H6]. split; rewrite ?E1, ?E3, ?E4, ?E5; auto.
  - unfold promised. rewrite E2. apply H2.
  - rewrite E2. apply H3.
  - by etrans.
Qed.

(** A path that is acknowledged now is promised with what it reaches. *)
Lemma acknowledge D g p T w :
  safe_state D g -> tempRoots g ⊆ T -> hashPart p ∈ T -> (forall x, x ∈ w -> hashPart x ∈ T) ->
  safe_state D (set_clients T w (acked g ++ [(p, store g)]) g).
Proof using Type.
  intros [H1 H2 H3 H4 H5 H6] HT Hp Hw. split; cbn [set_clients store acked tempRoots waiting dead rounds]; auto.
  - intros p' s q [Hin|Hr] Hv Hreach; cbn [acked set_clients] in *; [|by apply (H2 p' s); [right|..]].
    apply elem_of_app in Hin as [Hin|Hin]; [by apply (H2 p' s); [left|..]|].
    apply list_elem_of_singleton in Hin. injection Hin as -> ->. split; [|done].
    apply rtc_inv_r in Hreach as [<-|(y & _ & Hy)]; [done|]. by apply (law_refers_valid (store g) y q).
  - intros p' s [Hin|Hin]%elem_of_app; [apply HT; by eapply H3|].
    apply list_elem_of_singleton in Hin. by injection Hin as -> ->.
Qed.

Lemma serve_safe D g e : safe_state D g -> event_ok e -> safe_state D (serve storeDir g e).
Proof using Type.
  intros Hs He. pose proof Hs as [H1 H2 H3 H4 H5 H6]. destruct e as [line|n|f]; cbn [serve].
  - destruct (maybeParseStorePath storeDir line) as [[p|]|]; [|done..]. case_bool_decide.
    + split; cbn [set_clients store acked tempRoots waiting dead rounds]; auto.
      * intros p' s Hin%H3. set_solver.
      * intros x [Hx%H4|Hx]%elem_of_app; [set_solver|]. apply list_elem_of_singleton in Hx as ->. set_solver.
    + apply acknowledge; [done|set_solver|set_solver|]. intros x Hx%H4. set_solver.
  - destruct (waiting g !! n) as [p|] eqn:Hn; [|done]. case_bool_decide; [done|].
    apply acknowledge; [done|done|apply H4; by eapply list_elem_of_lookup_2|].
    intros x Hx. apply H4. eapply elem_of_submseteq; [done|]. apply sublist_submseteq, sublist_delete.
  - destruct (He (store g) H1) as (F1 & F2 & F3). split; cbn [set_store store acked tempRoots waiting dead rounds]; auto.
    intros p s q Hp Hv Hr. destruct (H2 p s q Hp Hv Hr) as [? ?]. split; auto.
Qed.

Lemma serve_window h g e : window h g -> window h (serve storeDir g e).
Proof using Type.
  intros [Hp Ha]. destruct e as [line|n|f]; cbn [serve].
  - destruct (maybeParseStorePath storeDir line) as [[p|]|]; [|done..]. case_bool_decide as Hh; [done|].
    split; [done|]. cbn [set_clients acked]. intros x s [?|Hx]%elem_of_app; [by apply (Ha x s)|].
    apply list_elem_of_singleton in Hx. injection Hx as -> ->. congruence.
  - destruct (waiting g !! n) as [p|]; [|done]. case_bool_decide as Hh; [done|].
    split; [done|]. cbn [set_clients acked]. intros x s [?|Hx]%elem_of_app; [by apply (Ha x s)|].
    apply list_elem_of_singleton in Hx. injection Hx as -> ->. congruence.
  - done.
Qed.

Lemma serve_all_safe D g r : safe_state D g -> Forall event_ok r -> safe_state D (foldl (serve storeDir) g r).
Proof using Type.
  revert g; induction r as [|e r IH]; intros g Hg Hr; [done|]. apply Forall_cons in Hr as [He Hr]. cbn [foldl].
  apply IH; [by apply serve_safe|done].
Qed.

Lemma serve_all_window h g r : window h g -> window h (foldl (serve storeDir) g r).
Proof using Type. revert g; induction r as [|e r IH]; intros g Hg; [done|]. by apply IH, serve_window. Qed.

(** *** The actions *)

(** [m] keeps the invariant, whether it returns or throws. *)
Definition safe {A} (m : ST (GC St) A) : Prop :=
  forall D g, safe_state D g -> leads m g (fun _ => safe_state D) (fun _ => safe_state D).

Lemma safe_ret {A} (a : A) : safe (mret a).
Proof using Type. by intros D g Hg. Qed.
Lemma safe_lift {A} (r : result A) : safe (slift r).
Proof using Type. intros D g Hg. by destruct r. Qed.
Lemma safe_gets {A} (f : GC St -> A) : safe (gets f).
Proof using Type. by intros D g Hg. Qed.
Lemma safe_bind {A B} (m : ST (GC St) A) (f : A -> ST (GC St) B) : safe m -> (forall a, safe (f a)) -> safe (m ≫= f).
Proof using Type.
  intros Hm Hf D g Hg. apply leads_bind. eapply leads_mono; [by apply Hm| |done]. intros a g' Hg'. by apply Hf.
Qed.
Lemma safe_catch {A} (m : ST (GC St) A) p h : safe m -> (forall e, safe (h e)) -> safe (scatch m p h).
Proof using Type.
  intros Hm Hh D g Hg. apply leads_scatch. eapply leads_mono; [by apply Hm|done|]. intros e g' Hg'.
  destruct (p e); [by apply Hh|done].
Qed.
Lemma safe_modify f : (forall D g, safe_state D g -> safe_state D (f g)) -> safe (modify f).
Proof using Type. intros Hf D g Hg. by apply Hf. Qed.
Lemma safe_finally {A} (m : ST (GC St) A) f :
  safe m -> (forall D g, safe_state D g -> safe_state D (f g)) -> safe (finally m f).
Proof using Type.
  intros Hm Hf D g Hg. apply leads_finally. eapply leads_mono; [by apply Hm|..]; intros; by apply Hf.
Qed.
Lemma safe_if {A} (b : bool) (m1 m2 : ST (GC St) A) : safe m1 -> safe m2 -> safe (if b then m1 else m2).
Proof using Type. by destruct b. Qed.
Lemma safe_foreach {A} (f : A -> ST (GC St) unit) l : (forall x, safe (f x)) -> safe (sforeach f l).
Proof using Type.
  intros Hf D g Hg. apply (leads_sforeach (fun _ => safe_state D)); [done|]. intros. by apply Hf.
Qed.

Lemma yield_safe_window D g h :
  safe_state D g -> leads (yield storeDir) g (fun _ g' => safe_state D g' /\ (window h g -> window h g')) (fun _ _ => False).
Proof using Type.
  intros Hg. unfold leads, yield. destruct (rounds g) as [|r rs] eqn:Hr; [done|].
  pose proof (ss_rounds _ _ Hg) as Hro. rewrite Hr in Hro. apply Forall_cons in Hro as [Hr1 Hrs].
  split.
  - apply serve_all_safe; [|done]. destruct Hg as [H1 H2 H3 H4 H5 H6]. by split.
  - intros Hw. by apply serve_all_window.
Qed.

Lemma safe_yield : safe (yield storeDir).
Proof using Type.
  intros D g Hg. eapply leads_mono; [by apply (yield_safe_window D g [])|by intros ? ? [? _]|done].
Qed.

Lemma safe_ask {A} (q : St -> result A) : safe (ask storeDir q).
Proof using Type.
  unfold ask. apply safe_bind; [apply safe_yield|]. intros _. apply safe_bind; [apply safe_gets|]. intros r. apply safe_lift.
Qed.

(** A path without a promise may be invalidated: another promised path that
    reaches it would still refer to it. *)
Lemma on_store_safe D g path :
  safe_state D g -> path ∉ roots -> window (hashPart path) g ->
  leads (on_store (gs_invalidatePathChecked path)) g (fun _ => safe_state D) (fun _ => safe_state D).
Proof using Type.
  intros Hg Hroot [_ Hw]. pose proof Hg as [H1 H2 H3 H4 H5 H6].
  pose proof (law_invalidatePathChecked (store g) path H1) as Hlaw. unfold leads, on_store in *.
  destruct (gs_invalidatePathChecked path (store g)) as [[u|e] s'].
  - destruct Hlaw as (L1 & L2 & L3 & L4 & _). split; cbn [set_store store acked tempRoots waiting dead rounds]; auto.
    intros p s q Hp Hv Hr.
    assert (q <> path) as Hne.
    { revert q Hr. apply (rtc_ind_r (fun q => q <> path)).
      - intros ->. destruct Hp as [Hp|[Hp _]]; [by apply (Hw path s)|done].
      - intros y q Hy Hyq IH ->. apply IH, L2. by apply (H2 p s y Hp Hv Hy). }
    destruct (H2 p s q Hp Hv Hr) as [Hq Hrefs]. split; [by apply L3|]. intros q' Hq'. apply L4. auto.
  - destruct Hlaw as (-> & -> & _). by apply (safe_state_ext D g).
Qed.

Lemma invalidate_safe D g path :
  safe_state D g -> path ∉ roots -> window (hashPart path) g ->
  leads (invalidate storeDir path) g (fun _ => safe_state D) (fun _ => safe_state D).
Proof using Type.
  intros Hg Hroot Hw. unfold invalidate. apply leads_bind.
  eapply leads_mono; [by apply (yield_safe_window D g (hashPart path))| |done].
  intros u g' [Hg' Hw']. by apply on_store_safe; auto.
Qed.

(** The check under the lock opens the window. *)
Lemma checkTempRoot_safe D g h :
  safe_state D g ->
  leads (checkTempRoot storeDir h) g (fun b g' => safe_state D g' /\ (b = false -> window h g')) (fun _ _ => False).
Proof using Type.
  intros Hg. unfold checkTempRoot. apply leads_bind.
  eapply leads_mono; [by apply (yield_safe_window D g h)| |done].
  intros u g' [Hg' _]. unfold leads, gets, modify, mbind, ST_bind, mret, ST_ret. case_bool_decide as Hin; [done|].
  split; [by apply (safe_state_ext D g')|]. intros _. split; [done|].
  intros p s Hp%(ss_acked _ _ Hg') He. by rewrite He in Hp.
Qed.

Context (settings : GCSettings) (options : GCOptions).

Ltac safe_update := apply safe_modify; intros ? ? ?; by (eapply safe_state_ext; [..|eassumption]; cbn; set_solver).

Lemma safe_markAlive p : safe (markAlive storeDir settings options p).
Proof using Type.
  unfold markAlive. apply safe_bind; [safe_update|]. intros _. apply safe_catch; [|intros; apply safe_ret].
  destruct (pathsToDelete options); (apply safe_bind; [apply safe_ask|intros; safe_update]).
Qed.

Lemma safe_cachedReferrers p : safe (cachedReferrers storeDir p).
Proof using Type.
  unfold cachedReferrers. apply safe_bind; [apply safe_gets|]. intros [X|]; [apply safe_ret|].
  apply safe_bind; [apply safe_ask|]. intros X. apply safe_bind; [safe_update|]. intros. apply safe_ret.
Qed.

Lemma releasePending_safe D g : safe_state D g -> safe_state D (releasePending g).
Proof using Type. by apply safe_state_ext. Qed.

(** What the traversal has left to look at. *)
Definition frontier (D : StorePathSet) (q : StorePathSet * list StorePath) : Prop :=
  forall x, x ∈ q.1 -> x ∈ q.2 \/ x ∈ D \/ x ∉ roots.

Lemma frontier_enqueue D q x : frontier D q -> frontier D (enqueue q x).
Proof using Type.
  intros Hf. unfold enqueue. case_bool_decide; [done|]. intros y; cbn [fst snd].
  rewrite elem_of_union, elem_of_singleton, elem_of_app, list_elem_of_singleton. intros [->|Hy]; [auto|].
  destruct (Hf y Hy); auto.
Qed.

Lemma frontier_enqueue_all D q l : frontier D q -> frontier D (foldl enqueue q l).
Proof using Type. revert q; induction l as [|x l IH]; intros q Hq; [done|]. by apply IH, frontier_enqueue. Qed.

(** Where a traversal ends. *)
Definition traversed (r : option StorePathSet) (g : GC St) : Prop :=
  exists D, safe_state D g /\ forall (V : StorePathSet) x, r = Some V -> x ∈ V -> x ∈ D \/ x ∉ roots.
Definition some_safe (_ : exn) (g : GC St) : Prop := exists D, safe_state D g.

Lemma leave_safe D g (m : ST (GC St) unit) :
  safe m -> safe_state D g -> leads (_ ← m; mret None) g traversed some_safe.
Proof using Type.
  intros Hm Hg. apply leads_bind. eapply leads_mono; [by apply Hm|..]; [|by intros; exists D].
  intros u g' Hg'. by exists D.
Qed.

Lemma frontier_pop D path todo V : frontier D (V, path :: todo) -> path ∈ D \/ path ∉ roots -> frontier D (V, todo).
Proof using Type. intros Hf Hp x Hx. destruct (Hf x Hx) as [[->|?]%elem_of_cons|?]; auto. Qed.

Lemma frontier_mono D D' q : frontier D q -> D ⊆ D' -> frontier D' q.
Proof using Type. intros Hf HD x Hx. destruct (Hf x Hx) as [?|[?|?]]; auto. Qed.

Lemma safe_modify_alive start :
  safe (modify (fun g : GC St => set_alive ({[start]} ∪ alive g) g)).
Proof using Type. safe_update. Qed.

(** Reading a query on the way. *)
Lemma ask_then {A B} (q : St -> result A) (f : A -> ST (GC St) B) D g Q E :
  safe_state D g -> (forall a g', safe_state D g' -> leads (f a) g' Q E) -> (forall e g', safe_state D g' -> E e g') ->
  leads (a ← ask storeDir q; f a) g Q E.
Proof using Type. intros Hg Hf HE. apply leads_bind. eapply leads_mono; [by apply safe_ask|..]; auto. Qed.

Lemma traverse_safe n D g start q :
  safe_state D g -> frontier D q -> leads (traverse storeDir settings options roots n start q) g traversed some_safe.
Proof using Type.
  revert D g q; induction n as [|n IH]; intros D g [V [|path todo]] Hg Hf; cbn [traverse fst snd].
  1, 3: exists D; split; [done|]; intros ? x [= <-] Hx; by destruct (Hf x Hx) as [?%not_elem_of_nil|?].
  { by exists D. }
  apply leads_bind. unfold leads at 1, gets at 1, id.
  case_bool_decide as Halive; [apply (leave_safe D); [apply safe_modify_alive|done]|].
  case_bool_decide as Hdead.
  { apply (IH ({[path]} ∪ D)).
    - destruct Hg as [H1 H2 H3 H4 H5 H6]. split; auto. set_solver.
    - eapply frontier_pop; [eapply frontier_mono; [done|set_solver]|set_solver]. }
  assert (leads (_ ← modify (fun g : GC St => set_alive ({[start]} ∪ alive g) g);
                 _ ← markAlive storeDir settings options path; mret None) g traversed some_safe) as Hleave.
  { apply leads_bind. apply (leave_safe D); [apply safe_markAlive|]. by apply (safe_modify_alive start D g). }
  case_bool_decide as Hroot; [done|]. clear Hleave. destruct (outsideSpecified options path).
  { exists D. by split; [|intros ? ? ?]. }
  assert (frontier D (V, todo)) as Hf' by (eapply frontier_pop; [done|by right]).
  apply leads_bind. eapply leads_mono; [by apply checkTempRoot_safe| |done]. intros [] g' [Hg' _].
  { apply leads_bind. apply (leave_safe D); [apply safe_markAlive|]. by apply (safe_modify_alive start D g'). }
  clear g Hg Halive Hdead. eapply ask_then; [exact Hg'| |by intros; exists D]. intros [] g Hg; [|by apply (IH D)].
  apply leads_bind. eapply leads_mono; [by apply safe_cachedReferrers| |by intros; exists D].
  intros X g2 Hg2. cbn beta in Hg2. cbv zeta. destruct (followsDerivers settings options).
  - eapply ask_then; [exact Hg2| |by intros; exists D]. intros Y g3 Hg3. apply (IH D); [done|]. by apply frontier_enqueue_all, frontier_enqueue_all.
  - apply (IH D); [done|]. by apply frontier_enqueue_all.
Qed.

Context (diskUsage : bytes -> Z) (tmpLocked : bytes -> bool).

Lemma safe_deleteFromStore baseName b : safe (deleteFromStore storeDir options diskUsage tmpLocked baseName b).
Proof using Type.
  unfold deleteFromStore. apply safe_bind; [apply safe_lift|]. intros _. apply safe_if; [apply safe_ret|].
  apply safe_bind; [apply safe_yield|]. intros _. apply safe_bind; [safe_update|]. intros _.
  apply safe_bind; [apply safe_gets|]. intros. apply safe_lift.
Qed.

Lemma deletePath_safe D g path :
  safe_state D g -> path ∈ D \/ path ∉ roots ->
  leads (deletePath storeDir settings options diskUsage tmpLocked path) g (fun _ => safe_state D) (fun _ => safe_state D).
Proof using Type.
  intros Hg Hp. unfold deletePath. apply leads_bind. unfold leads, gets at 1. case_bool_decide as Hdead; [done|].
  destruct Hp as [Hp|Hp]; [by apply (ss_dead _ _ Hg) in Hp|].
  apply leads_bind. unfold leads, modify at 1.
  assert (safe_state D (set_dead ({[path]} ∪ dead g) g)) as Hg1 by (apply (safe_state_ext D g); cbn; set_solver).
  destruct (shouldDelete options); [|done]. apply leads_bind.
  eapply leads_mono; [by apply checkTempRoot_safe| |done]. intros [] g' [Hg' Hw]; [by apply safe_markAlive|].
  apply leads_finally. apply leads_mono with (Q := fun _ => safe_state D) (E := fun _ => safe_state D);
    [|intros; by apply releasePending_safe..].
  apply leads_scatch, leads_bind. eapply leads_mono; [by apply invalidate_safe; auto|..].
  - intros u g2 Hg2. eapply leads_mono; [eapply (safe_bind (deleteFromStore _ _ _ _ _ _)); [apply safe_deleteFromStore|..|exact Hg2]|..].
    + intros _. safe_update.
    + done.
    + intros e g3 Hg3. destruct (bool_decide _); [by apply safe_ret|done].
  - intros e g2 Hg2. destruct (bool_decide _); [by apply safe_ret|done].
Qed.

Context (fuel : nat).

Lemma maybeDelete_safe D g start :
  safe_state D g ->
  leads (maybeDeleteReferrersClosure storeDir settings options roots diskUsage tmpLocked fuel start) g
    (fun _ g' => exists D, safe_state D g') some_safe.
Proof using Type.
  intros Hg. unfold maybeDeleteReferrersClosure. apply leads_finally.
  apply leads_mono with (Q := fun _ g' => exists D, safe_state D g') (E := some_safe);
    [|intros ? ? [D' ?]; exists D'; by apply releasePending_safe..].
  apply leads_bind. eapply leads_mono; [apply (traverse_safe fuel D); [done|intros x Hx; left; set_solver]| |done].
  intros [V|] g1 (D1 & Hg1 & HV); [|by exists D1].
  apply leads_bind. unfold ask. apply leads_bind.
  eapply leads_mono; [by apply safe_yield| |by intros; exists D1]. intros u g2 Hg2. cbn beta in Hg2.
  apply leads_bind. unfold leads at 1, gets at 1. pose proof (topoSortPaths_spec (store g2) V (ss_ok _ _ Hg2)) as Hs.
  destruct (topoSortPaths (store g2) V) as [l|e]; [|by exists D1]. destruct Hs as (_ & Hl & _). unfold leads at 1, slift.
  eapply leads_mono; [apply (leads_sforeach (fun _ => safe_state D1) (fun _ => safe_state D1)); [done|]|by intros; exists D1..].
  intros before x rest g3 Hsplit Hg3. apply deletePath_safe; [done|]. apply (HV V x); [done|]. apply Hl. rewrite Hsplit. set_solver.
Qed.

Lemma collect_safe D g linksName listing :
  safe_state D g ->
  leads (collect storeDir linksName settings options roots diskUsage tmpLocked fuel listing) g
    (fun _ g' => exists D, safe_state D g') some_safe.
Proof using Type.
  intros Hg. unfold collect. apply leads_bind.
  assert (forall A (f : A -> ST (GC St) unit) l,
    (forall x g D, safe_state D g -> leads (f x) g (fun _ g' => exists D, safe_state D g') some_safe) ->
    leads (sforeach f l) g (fun _ g' => exists D, safe_state D g') some_safe) as Hloop.
  { intros A f l Hf. apply (leads_sforeach (fun _ g' => exists D, safe_state D g')); [by exists D|].
    intros before x rest g1 _ [D1 Hg1]. by apply (Hf x g1 D1). }
  apply leads_mono with (Q := fun _ g' => exists D, safe_state D g') (E := some_safe); [|intros _ g1 [D1 Hg1]|done].
  - apply leads_scatch. apply leads_mono with (Q := fun _ g' => exists D, safe_state D g') (E := some_safe).
    + unfold collectPaths. destruct (pathsToDelete options) as [|ps b].
      * destruct (_ =? _)%Z; [by exists D|]. case_bool_decide; [by exists D|]. apply Hloop. intros x g1 D1 Hg1. unfold collectEntry.
        destruct (_ || _ || _); [by exists D1|]. apply leads_bind.
        destruct (maybeParseStorePath _ _) as [[p|]|e]; unfold leads at 1, slift at 1;
          [by apply (maybeDelete_safe D1)| |by exists D1].
        eapply leads_mono; [by apply safe_deleteFromStore|by intros; exists D1..].
      * apply Hloop. intros x g1 D1 Hg1. unfold collectSpecified. apply leads_bind.
        eapply leads_mono; [by apply (maybeDelete_safe D1)| |done]. intros u g2 [D2 Hg2].
        eapply leads_mono; [eapply (safe_bind (gets _)); [apply safe_gets|intros; apply safe_lift|exact Hg2]|by intros; exists D2..].
    + done.
    + intros e g1 [D1 Hg1]. case_bool_decide; by exists D1.
  - destruct (action options); try (by exists D1); exists D1; by apply (safe_state_ext D1 g1).
Qed.
End safety.

Lemma initial_safe {St} `{GCStoreLaws St} roots s es T rs :
  sok s -> Forall (Forall event_ok) rs -> safe_state roots s ∅ (initial s es T rs).
Proof.
  intros Hok Hr. split; cbn [initial store acked tempRoots waiting dead rounds]; auto; try (intros; set_solver).
  intros p s' q [Hp|[_ ->]] Hv Hreach; [by apply not_elem_of_nil in Hp|]. split; [|done].
  apply rtc_inv_r in Hreach as [<-|(y & _ & Hy)]; [done|]. by apply (law_refers_valid s y q).
Qed.

(** C3: the collector never deletes what is in use.  Whatever the other
    processes do while it runs (asking for roots at any moment, adding paths),
    and whether it returns or throws, every path reachable from a root it
    found, or from a root acknowledged by the roots server, that was valid at
    that moment is valid when the collector is done. *)
Theorem collectGarbage_safe {St} `{GCStoreLaws St} storeDir linksName settings options diskUsage tmpLocked fuel
    rootMap T listing s es rs :
  sok s -> Forall (Forall event_ok) rs ->
  let g := (collectGarbage storeDir linksName settings options diskUsage tmpLocked fuel rootMap T listing s es rs).2 in
  forall p s', (p, s') ∈ acked g \/ p ∈ collectionRoots options rootMap T /\ s' = s ->
  svalid s' p -> forall q, rtc (srefers s') p q -> svalid (store g) q.
Proof.
  intros Hok Hr g p s' Hp Hv q Hreach.
  set (roots := collectionRoots options rootMap T) in *.
  assert (exists D, safe_state roots s D g) as [D Hg]; [|by apply (ss_kept _ _ _ _ Hg p s' q)].
  pose proof (initial_safe roots s es T rs Hok Hr) as Hi.
  assert (forall c, exists D, safe_state roots s D (if c : bool then initial s es T rs
    else (collect storeDir linksName settings options roots diskUsage tmpLocked fuel listing (initial s es T rs)).2)) as Hc.
  { intros []; [by exists ∅|].
    pose proof (collect_safe storeDir roots s settings options diskUsage tmpLocked fuel ∅ _ linksName listing Hi) as Hc.
    unfold leads in Hc. by destruct (collect _ _ _ _ _ _ _ _ _ _) as [[u|e] g']. }
  unfold g, collectGarbage. destruct (pathsToDelete options) as [|ps b]; [apply (Hc false)|].
  destruct (bool_decide (ps = ∅)); [apply (Hc true)|apply (Hc false)].
Qed.

(** ** Clients of the roots server *)

Section clients.
Context {St : Type} `{GCStore St}.
Context (storeDir linksName : bytes) (settings : GCSettings) (options : GCOptions) (roots : StorePathSet).
Context (diskUsage : bytes -> Z) (tmpLocked : bytes -> bool) (fuel : nat).

(** Nothing is pending. *)
Definition idle (g : GC St) : Prop := pending g = None.
Definition keeps_idle {A} (m : ST (GC St) A) : Prop := forall g, idle g -> leads m g (fun _ => idle) (fun _ => idle).

Lemma serve_pending (g : GC St) e : pending (serve storeDir g e) = pending g.
Proof using Type.
  destruct e as [line|n|f]; cbn [serve]; [|destruct (waiting g !! n); [|done]; by case_bool_decide|done].
  destruct (maybeParseStorePath storeDir line) as [[p|]|]; [by case_bool_decide|done..].
Qed.

Lemma yield_pending (g : GC St) : exists g', yield storeDir g = (Ok (), g') /\ pending g' = pending g.
Proof using Type.
  unfold yield. destruct (rounds g) as [|r rs]; [by exists g|]. eexists. split; [done|].
  change (pending g) with (pending (set_rounds rs g)). generalize (set_rounds rs g) as g1.
  induction r as [|e r IH]; intros g1; [done|]. cbn [foldl]. by rewrite IH, serve_pending.
Qed.

Lemma maybeDelete_releases start g :
  leads (maybeDeleteReferrersClosure storeDir settings options roots diskUsage tmpLocked fuel start) g (fun _ => idle) (fun _ => idle).
Proof using Type. unfold maybeDeleteReferrersClosure. apply leads_finally. unfold leads. set (m := mbind _ _). by destruct (m g) as [[?|?] ?]. Qed.

Lemma deleteFromStore_idle_kept n b : keeps_idle (deleteFromStore storeDir options diskUsage tmpLocked n b).
Proof using Type.
  intros g Hg. unfold deleteFromStore. apply leads_bind. unfold leads at 1, slift at 1.
  destruct (assertb _) as [u|e]; [|done]. destruct (_ && _); [done|].
  apply leads_bind. destruct (yield_pending g) as (g' & Hy & Hp). unfold leads at 1. rewrite Hy.
  unfold leads, modify, gets, mbind, ST_bind, slift. by destruct (throw_if _ _); unfold idle; cbn; rewrite Hp.
Qed.

Lemma collect_releases listing : keeps_idle (collect storeDir linksName settings options roots diskUsage tmpLocked fuel listing).
Proof using Type.
  assert (forall A (f : A -> ST (GC St) unit) l, (forall x, keeps_idle (f x)) -> keeps_idle (sforeach f l)) as Hloop.
  { intros A f l Hf g Hg. apply (leads_sforeach (fun _ => idle)); [done|]. intros before x rest g' _ Hg'. by apply Hf. }
  intros g Hg. unfold collect. apply leads_bind.
  apply leads_mono with (Q := fun _ => idle) (E := fun _ => idle); [|intros u g' Hg'; by destruct (action options)|done].
  apply leads_scatch. apply leads_mono with (Q := fun _ => idle) (E := fun _ => idle); [|done|intros e g' Hg'; by case_bool_decide].
  unfold collectPaths. destruct (pathsToDelete options) as [|ps b].
  - destruct (_ =? _)%Z; [done|]. case_bool_decide; [done|]. apply Hloop; [|done]. intros n g1 Hg1. unfold collectEntry.
    destruct (_ || _ || _); [done|]. apply leads_bind.
    destruct (maybeParseStorePath _ _) as [[p|]|e]; unfold leads at 1, slift at 1;
      [apply maybeDelete_releases|by apply deleteFromStore_idle_kept|done].
  - apply Hloop; [|done]. intros x g1 Hg1. unfold collectSpecified. apply leads_bind.
    eapply leads_mono; [apply maybeDelete_releases| |done]. intros u g2 Hg2.
    unfold leads, gets, mbind, ST_bind, slift. by destruct (throw_if _ _).
Qed.
End clients.

