(* ===== verification/GCComplete.v ===== *)
(** * GCComplete: a collection deletes what is not in use

    A collection of the whole store that no other process disturbs, deleting
    (libstore/gc.cc): what is reachable from no root is deleted, and nothing
    else. *)

From S2P Require Export GC.

(** The root directory apart, base names are no absolute paths and not those
    of temporary directories. *)
Lemma valid_baseName_head s :
  valid_baseName s -> is_absolute s = false /\ bool_decide (take 4 s = #"tmp-") = false.
Proof.
  intros [Hl Hh _]. destruct s as [|c s]; [by cbn in Hl; lia|].
  cbn [take HashLen] in Hh. apply Forall_cons in Hh as [Hc _]. split.
  - unfold is_absolute. destruct (decide (c = slash)) as [->|Hne]; [by vm_compute in Hc|]. cbn. by rewrite bool_decide_false by congruence.
  - apply bool_decide_eq_false. cbn [take]. intros [= -> _]. by vm_compute in Hc.
Qed.

(** A name of the store directory is a store path exactly when the
    constructor accepts it. *)
Lemma maybeParse_entry ds name :
  Forall good ds -> exists o, maybeParseStorePath (join_path ds) ((join_path ds ++ #"/") ++ name) = Ok o /\
    forall p, o = Some p -> valid_baseName (baseName p).
Proof.
  intros Hds. unfold maybeParseStorePath.
  assert (exists r, (join_path ds ++ #"/") ++ name = slash :: r) as [r Hr].
  { destruct (head_join ds) as [r ->]. simpl. eauto. }
  rewrite parseStorePath_eq; [|done|by rewrite Hr..].
  destruct (last _) as [c|]; [|by exists None]. case_decide; [|by exists None].
  destruct (StorePath_new_cases c) as [[-> Hv]|[-> _]]; [|by exists None]. exists (Some (mkStorePath c)). split; [done|].
  by intros p [= <-].
Qed.

Section complete.
Context {St : Type} `{GCStoreLaws St}.
Context (ds : list bytes) (settings : GCSettings) (roots : StorePathSet).
Notation storeDir := (join_path ds).
(** The state at the start. *)
Context (s0 : St) (T : gset bytes) (es : gset bytes).

Definition is_root (p : StorePath) : Prop := p ∈ roots \/ hashPart p ∈ T.

(** What the traversal follows backwards: [x] is kept, so [y] is. *)
Definition keeps (x y : StorePath) : Prop :=
  srefers s0 x y \/ keepOutputs settings = true /\ sderives s0 x y /\ svalid s0 y.
(** What must be kept; what may be kept, with the derivers an alive path
    brings with it. *)
Definition needed (p : StorePath) : Prop := exists r, is_root r /\ rtc keeps r p.
Definition live (p : StorePath) : Prop :=
  exists r, is_root r /\ rtc (fun x y => keeps x y \/ closure_edge s0 (keepDerivations settings) x y) r p.

Lemma keeps_valid x y : sok s0 -> keeps x y -> svalid s0 x /\ svalid s0 y.
Proof using Type.
  intros Hok [Hr|(_ & Hd & Hv)]; [by apply (law_refers_valid s0)|]. split; [by eapply law_derives_valid|done].
Qed.

Definition may_keep (x y : StorePath) : Prop := keeps x y \/ closure_edge s0 (keepDerivations settings) x y.

Lemma live_rtc x y : live x -> rtc may_keep x y -> live y.
Proof using Type. intros (r & Hr & Hrx) Hxy. exists r. split; [done|]. by etrans. Qed.

Lemma live_keeps x y : live x -> rtc keeps x y -> live y.
Proof using Type. intros Hx Hxy. eapply live_rtc; [done|]. eapply rtc_mono; [|done]. by left. Qed.

Lemma root_live p : is_root p -> live p.
Proof using Type. intros Hp. by exists p. Qed.

(** The state between two paths of the listing. *)
Record progress (g : GC St) : Prop := {
  pr_ok0 : sok s0;
  pr_ok : sok (store g);
  pr_valid : forall p, svalid (store g) p <-> svalid s0 p /\ p ∉ dead g;
  pr_refers : forall x y, srefers (store g) x y <-> srefers s0 x y /\ x ∉ dead g;
  pr_deriver : forall x d, sderiver (store g) x d <-> sderiver s0 x d /\ x ∉ dead g;
  pr_derives : forall d x, sderives (store g) d x <-> sderives s0 d x /\ d ∉ dead g;
  pr_roots : tempRoots g = T;
  pr_rounds : rounds g = [];
  pr_alive : forall p, p ∈ alive g -> live p;
  pr_dead : forall p, p ∈ dead g -> ~ needed p;
  pr_cache : forall x X, referrersCache g !! x = Some X ->
    (forall y, y ∈ X -> srefers s0 y x) /\ (forall y, srefers s0 y x -> y ∈ X \/ y ∈ dead g);
  pr_gone : forall p, p ∈ dead g -> baseName p ∉ entries g;
  pr_entries : forall n, n ∈ es -> n ∉ entries g ->
    (exists p, p ∈ dead g /\ n = baseName p) \/ maybeParseStorePath storeDir ((storeDir ++ #"/") ++ n) = Ok None;
}.

Lemma initial_progress : sok s0 -> progress (mkGC s0 es ∅ ∅ T None [] [] ∅ ∅ 0 []).
Proof using Type.
  intros Hok. split; cbn; auto; try (intros; set_solver).
Qed.

(** Fields the invariant does not read may change. *)
Lemma progress_ext g g' :
  store g' = store g -> dead g' = dead g -> tempRoots g' = tempRoots g -> rounds g' = rounds g ->
  referrersCache g' = referrersCache g -> entries g' = entries g -> (forall p, p ∈ alive g' -> p ∈ alive g \/ live p) ->
  progress g -> progress g'.
Proof using Type.
  intros E1 E2 E3 E4 E5 E6 Ha [H0' H1 H2 H3 H4 H5 H6 H7 H8 H9 H10 H11 H12].
  split; rewrite ?E1, ?E2, ?E3, ?E4, ?E5, ?E6; auto. intros p [?|?]%Ha; auto.
Qed.

(** *** The actions, undisturbed *)

Lemma yield_idle (g : GC St) : rounds g = [] -> yield storeDir g = (Ok (), g).
Proof using Type. unfold yield. by intros ->. Qed.

Lemma ask_idle {A} (q : St -> result A) g : rounds g = [] -> ask storeDir q g = (q (store g), g).
Proof using Type. intros Hr. unfold ask. by rewrite (ST_bind_Ok _ _ _ _ _ (yield_idle g Hr)). Qed.

Lemma checkTempRoot_idle (g : GC St) h :
  rounds g = [] -> tempRoots g = T ->
  checkTempRoot storeDir h g = (Ok (bool_decide (h ∈ T)), if bool_decide (h ∈ T) then g else set_pending (Some h) g).
Proof using Type.
  intros Hr HT. unfold checkTempRoot. rewrite (ST_bind_Ok _ _ _ _ _ (yield_idle g Hr)), gets_bind, HT.
  by case_bool_decide.
Qed.

Lemma cachedReferrers_idle g x :
  progress g -> exists X g', cachedReferrers storeDir x g = (Ok X, g') /\ progress g' /\ dead g' = dead g /\
    (forall y, y ∈ X -> srefers s0 y x) /\ (forall y, srefers s0 y x -> y ∈ X \/ y ∈ dead g).
Proof using Type.
  intros Hg. unfold cachedReferrers. rewrite gets_bind. destruct (referrersCache g !! x) as [X|] eqn:Hx.
  - exists X, g. destruct (pr_cache _ Hg x X Hx). done.
  - destruct (law_queryReferrers (store g) x (pr_ok _ Hg)) as (X & HX & HqX).
    assert ((forall y, y ∈ X -> srefers s0 y x) /\ (forall y, srefers s0 y x -> y ∈ X \/ y ∈ dead g)) as [H1 H2].
    { split.
      - intros y Hy%HqX. by apply (pr_refers _ Hg) in Hy as [? _].
      - intros y Hy. destruct (decide (y ∈ dead g)); [by right|left]. apply HqX. by apply (pr_refers _ Hg). }
    rewrite (ST_bind_Ok _ _ g X g) by (rewrite ask_idle by apply Hg; by rewrite HX). rewrite modify_bind.
    eexists X, _. split; [done|]. split; [|done].
    destruct Hg as [G0 G1 G2 G3 G4 G5 G6 G7 G8 G9 G10 G11 G12]. split; auto.
    cbn [set_referrersCache referrersCache dead]. intros z Z. destruct (decide (z = x)) as [->|Hne].
    + rewrite lookup_insert_eq. by intros [= <-].
    + rewrite lookup_insert_ne by done. apply G10.
Qed.

(** *** The traversal *)

(** The paths a traversal from [start] can visit. *)
Context (start : StorePath) (U : StorePathSet).

(** Every visited path keeps the start; it is waiting, or done with, or no
    root, and what keeps it has been visited or deleted. *)
Record traversing (D : StorePathSet) (q : StorePathSet * list StorePath) : Prop := {
  tv_start : start ∈ q.1;
  tv_todo : forall x, x ∈ q.2 -> x ∈ q.1;
  tv_universe : q.1 ⊆ U;
  tv_keeps : forall x, x ∈ q.1 -> rtc keeps x start;
  tv_done : forall x, x ∈ q.1 ->
    x ∈ q.2 \/ x ∈ D \/ ~ is_root x /\ forall y, keeps y x -> y ∈ q.1 \/ y ∈ D;
}.

(** What bounds the paths still to be taken from the queue. *)
Definition to_visit (q : StorePathSet * list StorePath) : nat := (length q.2 + size (U ∖ q.1))%nat.

Lemma enqueue_facts q x :
  x ∈ U -> (to_visit (enqueue q x) <= to_visit q)%nat /\
  (forall y, y ∈ (enqueue q x).1 <-> y ∈ q.1 \/ y = x) /\
  (forall y, y ∈ (enqueue q x).2 -> y ∈ q.2 \/ y = x) /\ (forall y, y ∈ q.2 -> y ∈ (enqueue q x).2) /\
  (forall y, y ∈ (enqueue q x).1 -> y ∈ q.1 \/ y ∈ (enqueue q x).2).
Proof using Type.
  intros Hx. unfold enqueue, to_visit. case_bool_decide as Hin; cbn [fst snd]; [|split].
  - split; [done|]. split; [|naive_solver]. intros y. split; [auto|]. by intros [?| ->].
  - rewrite length_app. cbn [length]. pose proof (size_remove U q.1 x Hx Hin). lia.
  - split; [|split; [|split]]; intros y; set_solver.
Qed.

Lemma enqueue_all_facts q l :
  (forall x, x ∈ l -> x ∈ U) -> (to_visit (foldl enqueue q l) <= to_visit q)%nat /\
  (forall y, y ∈ (foldl enqueue q l).1 <-> y ∈ q.1 \/ y ∈ l) /\
  (forall y, y ∈ (foldl enqueue q l).2 -> y ∈ q.2 \/ y ∈ l) /\ (forall y, y ∈ q.2 -> y ∈ (foldl enqueue q l).2) /\
  (forall y, y ∈ (foldl enqueue q l).1 -> y ∈ q.1 \/ y ∈ (foldl enqueue q l).2).
Proof using Type.
  revert q; induction l as [|x l IH]; intros q Hl; cbn [foldl].
  - split; [done|]. split; [set_solver|]. naive_solver.
  - destruct (enqueue_facts q x (Hl x ltac:(left))) as (E1 & E2 & E3 & E4 & E5).
    destruct (IH (enqueue q x) ltac:(intros; apply Hl; by right)) as (I1 & I2 & I3 & I4 & I5).
    split; [lia|]. split; [intros y; rewrite I2, E2, elem_of_cons; tauto|].
    split; [intros y [Hy%E3|?]%I3; rewrite elem_of_cons; tauto|]. split; [auto|].
    intros y [Hy%E5|?]%I5; [|by right]. destruct Hy as [?|?]; [by left|right; auto].
Qed.

(** Visiting [x]: what keeps it is queued. *)
Lemma traversing_visit D V x todo l :
  traversing D (V, x :: todo) -> ~ is_root x -> (forall y, y ∈ l -> keeps y x /\ y ∈ U) ->
  (forall y, keeps y x -> y ∈ l \/ y ∈ D) ->
  traversing D (foldl enqueue (V, todo) l) /\ (to_visit (foldl enqueue (V, todo) l) < to_visit (V, x :: todo))%nat.
Proof using Type.
  intros [T1 T2 T3 T4 T5] Hnr Hl Hk. cbn [fst snd] in *.
  destruct (enqueue_all_facts (V, todo) l (fun y Hy => proj2 (Hl y Hy))) as (E1 & E2 & E3 & E4 & E5). cbn [fst snd] in *.
  assert (x ∈ V) as HxV by (apply T2; left).
  split; [split|].
  - apply E2. by left.
  - intros y [Hy|Hy]%E3; apply E2; [left; apply T2; by right|by right].
  - intros y [Hy|Hy]%E2; [by apply T3|by apply Hl].
  - intros y [Hy|Hy]%E2; [by apply T4|]. eapply rtc_l; [by apply Hl|by apply T4].
  - intros y Hy. destruct (E5 y Hy) as [HyV|?]; [|by left].
    assert (forall z, z ∈ V \/ z ∈ D -> z ∈ (foldl enqueue (V, todo) l).1 \/ z ∈ D) as Hz.
    { intros z [?|?]; [left; apply E2; by left|by right]. }
    destruct (decide (y = x)) as [->|Hne].
    + right; right. split; [done|]. intros z [Hz'|?]%Hk; [left; apply E2; by right|by right].
    + destruct (T5 y HyV) as [[->|?]%elem_of_cons|[?|[? Hky]]]; [done|left; auto|by right; left|]. right; right. split; auto.
  - unfold to_visit in *. cbn [fst snd length] in *. lia.
Qed.

(** A queued path that is done with is dropped. *)
Lemma traversing_drop D V x todo :
  traversing D (V, x :: todo) -> x ∈ D \/ ~ is_root x /\ (forall y, ~ keeps y x) ->
  traversing D (V, todo) /\ (to_visit (V, todo) < to_visit (V, x :: todo))%nat.
Proof using Type.
  intros [T1 T2 T3 T4 T5] Hx. cbn [fst snd] in *. split; [split; cbn [fst snd]; [done| |done..|]|].
  - intros y Hy. apply T2. by right.
  - intros y Hy. destruct (T5 y Hy) as [[->|?]%elem_of_cons|?]; [right|by left|by right].
    destruct Hx as [?|[? Hn]]; [by left|right]. split; [done|]. intros z Hz. by destruct (Hn z).
  - unfold to_visit. cbn [fst snd length]. lia.
Qed.

Context (options : GCOptions) (whole : pathsToDelete options = WholeStore).

(** Only references and derivers of live paths are marked alive. *)
Lemma markAlive_idle g p :
  progress g -> live p ->
  leads (markAlive storeDir settings options p) g (fun _ g' => progress g' /\ dead g' = dead g) (fun _ _ => False).
Proof using whole.
  intros Hg Hp. unfold markAlive. apply leads_bind. unfold leads at 1, modify at 1.
  set (g1 := set_alive ({[p]} ∪ alive g) g).
  assert (progress g1) as Hg1 by (apply (progress_ext g); [done..| |done]; cbn; set_solver).
  rewrite whole. apply leads_scatch, leads_bind. unfold leads at 1. rewrite (ask_idle _ g1 (pr_rounds _ Hg1)).
  assert (computeFSClosure (store g1) {[p]} false (keepOutputs settings) (keepDerivations settings) =
          computeFSClosure (store g1) {[p]} false false (keepDerivations settings)) as -> by done.
  destruct (svalid_dec (store g1) p (pr_ok _ Hg1)) as [Hv|Hv].
  - destruct (computeFSClosure_valid (store g1) (keepDerivations settings) p (pr_ok _ Hg1) Hv) as (X & -> & HX).
    split; [|done]. apply (progress_ext g1); try done. cbn. intros q [Hq|?]%elem_of_union; [right|by left].
    apply HX in Hq. assert (forall a b, closure_edge (store g1) (keepDerivations settings) a b ->
      closure_edge s0 (keepDerivations settings) a b) as Hedge.
    { intros a b [Hr|(Hb & Hd & Ha & Hb')]; [left; by apply (pr_refers _ Hg1) in Hr as [? _]|].
      right. split; [done|]. split; [by apply (pr_deriver _ Hg1) in Hd as [? _]|].
      split; [by apply (pr_valid _ Hg1) in Ha as [? _]|by apply (pr_valid _ Hg1) in Hb' as [? _]]. }
    eapply live_rtc; [exact Hp|]. eapply rtc_mono; [|exact Hq]. intros a b Hab. right. by apply Hedge.
  - rewrite computeFSClosure_invalid by (done || apply Hg1). by rewrite bool_decide_true.
Qed.

(** The end of a traversal. *)
Definition traversal_end (D : StorePathSet) (r : option StorePathSet) (g : GC St) : Prop :=
  progress g /\ dead g = D /\
  match r with
  | Some V => traversing D (V, [])
  | None => live start
  end.

Lemma traverse_complete n g q :
  progress g -> traversing (dead g) q -> (forall p, svalid s0 p -> p ∈ U) -> (to_visit q < n)%nat ->
  leads (traverse storeDir settings options roots n start q) g (traversal_end (dead g)) (fun _ _ => False).
Proof using whole.
  intros Hg Hq HU Hn. remember (dead g) as D eqn:HD. revert g q Hg Hq Hn HD.
  induction n as [|n IH]; intros g [V todo] Hg Hq Hn HD; [lia|]. cbn [traverse fst snd].
  destruct todo as [|x todo]; [done|]. apply leads_bind. unfold leads at 1, gets at 1, id.
  assert (rtc keeps x start) as Hxs by (apply (tv_keeps _ _ Hq), (tv_todo _ _ Hq); left).
  assert (live x -> progress (set_alive ({[start]} ∪ alive g) g)) as Hg1.
  { intros Hx. apply (progress_ext g); try done. cbn. intros p [->%elem_of_singleton|?]%elem_of_union; [right|by left].
    by eapply live_keeps. }
  case_bool_decide as Halive.
  { apply leads_bind. pose proof (pr_alive _ Hg x Halive). split; [auto|]. split; [done|]. by eapply live_keeps. }
  case_bool_decide as Hdead.
  { destruct (traversing_drop D V x todo Hq) as [Hq' Hlt]; [left; by rewrite HD|]. apply (IH g); [done..|lia|done]. }
  assert (live x -> leads (_ ← modify (fun g => set_alive ({[start]} ∪ alive g) g);
                           _ ← markAlive storeDir settings options x; mret None) g (traversal_end D) (fun _ _ => False)) as Hleave.
  { intros Hx. apply leads_bind. unfold leads at 1, modify at 1. apply leads_bind.
    eapply leads_mono; [apply markAlive_idle; auto| |done]. intros u g' [Hg' Hd]. cbn in Hd.
    split; [done|]. split; [by rewrite Hd|]. by eapply live_keeps. }
  case_bool_decide as Hroot; [apply Hleave, root_live; by left|].
  unfold outsideSpecified. rewrite whole. apply leads_bind. unfold leads at 1.
  rewrite (checkTempRoot_idle g (hashPart x) (pr_rounds _ Hg) (pr_roots _ Hg)). case_bool_decide as HT; [apply Hleave, root_live; by right|].
  assert (~ is_root x) as Hnr by (intros [?|?]; done).
  set (g1 := set_pending (Some (hashPart x)) g). assert (progress g1 /\ dead g1 = D) as [Hp1 Hd1].
  { split; [|done]. apply (progress_ext g); try done. by left. }
  clearbody g1. clear g Halive Hg1 Hleave HT Hg HD Hdead.
  apply leads_bind. unfold leads at 1. rewrite (ask_idle _ g1 (pr_rounds _ Hp1)).
  destruct (law_isValidPath (store g1) x (pr_ok _ Hp1)) as ([] & -> & Hv).
  - assert (svalid s0 x) as Hvx by (apply (pr_valid _ Hp1), Hv; done).
    apply leads_bind. unfold leads at 1.
    destruct (cachedReferrers_idle g1 x Hp1) as (X & g2 & -> & Hp2 & Hd2 & HX1 & HX2). rewrite Hd1 in Hd2, HX2. cbv zeta.
    assert (forall y, keeps y x -> y ∈ U) as HkU.
    { intros y Hy. by apply HU, (keeps_valid y x (pr_ok0 _ Hp2)). }
    unfold followsDerivers. rewrite whole. destruct (keepOutputs settings) eqn:Hko.
    + apply leads_bind. unfold leads at 1. rewrite (ask_idle _ g2 (pr_rounds _ Hp2)).
      destruct (law_queryValidDerivers (store g2) x (pr_ok _ Hp2)) as (Y & -> & HY). rewrite <- foldl_app.
      destruct (traversing_visit D V x todo (sp_iter X ++ sp_iter Y) Hq Hnr) as [Hq' Hlt].
      * intros y. rewrite elem_of_app, !elem_of_sp_iter. intros Hy.
        assert (keeps y x) as Hk; [|split; auto]. destruct Hy as [Hy|Hy]; [left; auto|right].
        apply HY, (pr_derives _ Hp2) in Hy as [Hy _]. auto.
      * intros y [Hy|(_ & Hy & _)]; rewrite elem_of_app, !elem_of_sp_iter; [destruct (HX2 y Hy); auto|].
        destruct (decide (y ∈ D)); [by right|left; right]. apply HY, (pr_derives _ Hp2). by rewrite Hd2.
      * apply IH; [done..|lia|done].
    + destruct (traversing_visit D V x todo (sp_iter X) Hq Hnr) as [Hq' Hlt].
      * intros y Hy%elem_of_sp_iter. assert (keeps y x) as Hk by (left; auto). auto.
      * intros y [Hy|(Hk & _)]; [|congruence]. rewrite elem_of_sp_iter. auto.
      * apply IH; [done..|lia|done].
  - assert (~ svalid (store g1) x) as Hv' by (by intros ?%Hv).
    destruct (traversing_drop D V x todo Hq) as [Hq' Hlt]; [|apply IH; [done..|lia|done]].
    destruct (decide (x ∈ D)); [by left|right]. split; [done|]. intros y Hy. apply Hv', (pr_valid _ Hp1). rewrite Hd1.
    split; [|done]. apply (keeps_valid y x (pr_ok0 _ Hp1) Hy).
Qed.

(** No visited path is needed: all that keeps it has been visited or deleted,
    and none of it is a root. *)
Lemma traversing_not_needed g V : progress g -> traversing (dead g) (V, []) -> forall x, x ∈ V -> ~ needed x.
Proof using Type.
  intros Hg Hq x Hx (r & Hr & Hrx).
  assert (forall x, rtc keeps r x -> x ∈ V -> x ∈ dead g) as Hall.
  { apply (rtc_ind_r (fun x => x ∈ V -> x ∈ dead g)).
    - intros Hv. destruct (tv_done _ _ Hq r Hv) as [?%not_elem_of_nil|[?|[? _]]]; done.
    - intros y z Hy Hyz IH Hz. destruct (tv_done _ _ Hq z Hz) as [?%not_elem_of_nil|[?|[_ Hk]]]; [done..|].
      exfalso. apply (pr_dead _ Hg y); [|by exists r]. destruct (Hk y Hyz) as [?|?]; auto. }
  apply (pr_dead _ Hg x); [auto|by exists r].
Qed.

(** *** The deletions *)

Context (delete_dead : action options = gcDeleteDead).
(** No limit. *)
Context (no_limit : (2 ^ 64 - 1 <= maxFreed options)%Z).
Context (diskUsage : bytes -> Z) (tmpLocked : bytes -> bool).

Lemma deleteFromStore_idle (g : GC St) n b :
  rounds g = [] -> is_absolute n = false -> bool_decide (take 4 n = #"tmp-") && tmpLocked n = false ->
  deleteFromStore storeDir options diskUsage tmpLocked n b g =
  (Ok (), set_results (entries g ∖ {[n]}) ({[(storeDir ++ #"/") ++ n]} ∪ paths g) (u64 (bytesFreed g + diskUsage n)) g).
Proof using no_limit.
  intros Hr Ha Ht. unfold deleteFromStore. rewrite Ha, Ht. cbn [negb assertb throw_if]. rewrite slift_bind_Ok.
  rewrite (ST_bind_Ok _ _ _ _ _ (yield_idle g Hr)), modify_bind, gets_bind. cbn [set_results bytesFreed].
  pose proof (u64_range (bytesFreed g + diskUsage n)). by rewrite (proj2 (Z.ltb_ge _ _)) by lia.
Qed.

Lemma needed_root p : is_root p -> needed p.
Proof using Type. intros Hp. by exists p. Qed.

(** What a deletion makes of the state. *)
Definition deleted (x : StorePath) (s' : St) (g : GC St) : GC St :=
  set_pending None (set_referrersCache (delete x (referrersCache g))
    (set_results (entries g ∖ {[baseName x]}) ({[(storeDir ++ #"/") ++ baseName x]} ∪ paths g)
       (u64 (bytesFreed g + diskUsage (baseName x)))
       (set_store s' (set_pending (Some (hashPart x)) (set_dead ({[x]} ∪ dead g) g))))).

Lemma deleted_progress g x s' :
  progress g -> ~ needed x -> sok s' ->
  (forall q, svalid s' q <-> svalid (store g) q /\ q <> x) ->
  (forall y z, srefers s' y z <-> srefers (store g) y z /\ y <> x) ->
  (forall y d, sderiver s' y d <-> sderiver (store g) y d /\ y <> x) ->
  (forall d y, sderives s' d y <-> sderives (store g) d y /\ d <> x) -> progress (deleted x s' g).
Proof using Type.
  intros [G0 G1 G2 G3 G4 G5 G6 G7 G8 G9 G10 G11 G12] Hx L1 L2 L3 L4 L5.
  assert (forall y, y ∉ {[x]} ∪ dead g <-> y ∉ dead g /\ y <> x) as Hin.
  { intros y. rewrite elem_of_union, elem_of_singleton. tauto. }
  split; cbn -[union]; try done.
  - intros p. rewrite L2, G2, Hin. tauto.
  - intros y z. rewrite L3, G3, Hin. tauto.
  - intros y z. rewrite L4, G4, Hin. tauto.
  - intros y z. rewrite L5, G5, Hin. tauto.
  - intros p [->%elem_of_singleton|?]%elem_of_union; [done|auto].
  - intros y Y [Hne HY]%lookup_delete_Some. destruct (G10 y Y HY) as [Y1 Y2]. split; [done|].
    intros z [?|?]%Y2; [by left|right]. apply elem_of_union. by right.
  - intros p [->%elem_of_singleton|Hp]%elem_of_union; rewrite elem_of_difference, elem_of_singleton; [tauto|].
    intros [? _]. by apply (G11 p).
  - intros n Hn Hgone. destruct (decide (n = baseName x)) as [->|Hne].
    + left. exists x. split; [apply elem_of_union; left; by apply elem_of_singleton|done].
    + destruct (G12 n Hn) as [(p & Hp & ->)|?]; [|left; exists p; split; [apply elem_of_union; by right|done]|by right].
      intros Hin'. apply Hgone. apply elem_of_difference. by rewrite elem_of_singleton.
Qed.

Lemma deletePath_idle g x :
  progress g -> ~ needed x -> (x ∉ dead g -> forall y, srefers s0 y x -> y = x \/ y ∈ dead g) ->
  valid_baseName (baseName x) ->
  leads (deletePath storeDir settings options diskUsage tmpLocked x) g
    (fun _ g' => progress g' /\ dead g' = {[x]} ∪ dead g) (fun _ _ => False).
Proof using delete_dead no_limit.
  intros Hg Hx Hrefs Hb. unfold deletePath. apply leads_bind. unfold leads at 1, gets at 1.
  case_bool_decide as Hdead. { split; [done|]. apply set_eq. intros y. rewrite elem_of_union, elem_of_singleton. naive_solver. }
  apply leads_bind. unfold leads at 1, modify at 1. unfold shouldDelete. rewrite delete_dead.
  apply leads_bind. unfold leads at 1. rewrite checkTempRoot_idle by apply Hg.
  rewrite bool_decide_false by (intros HT; apply Hx, needed_root; by right).
  destruct (valid_baseName_head _ Hb) as [Ha Ht].
  assert (bool_decide (take 4 (to_string x) = #"tmp-") && tmpLocked (to_string x) = false) as Ht' by (unfold to_string; by rewrite Ht).
  set (g1 := set_pending _ _). assert (rounds g1 = []) as Hr1 by apply Hg.
  apply leads_finally, leads_scatch, leads_bind. unfold invalidate.
  unfold leads at 1. rewrite (ST_bind_Ok _ _ _ _ _ (yield_idle g1 Hr1)). unfold on_store.
  change (store g1) with (store g). pose proof (law_invalidatePathChecked (store g) x (pr_ok _ Hg)) as Hlaw. unfold leads in Hlaw.
  destruct (gs_invalidatePathChecked x (store g)) as [[u|e] s'].
  - destruct Hlaw as (L1 & _ & L2 & L3 & L4 & L5).
    unfold leads at 1. rewrite (ST_bind_Ok _ _ _ _ _ (deleteFromStore_idle (set_store s' g1) (to_string x) true Hr1 Ha Ht')).
    split; [by apply (deleted_progress g x s')|done].
  - exfalso. destruct Hlaw as (_ & _ & q & Hq & Hne). apply (pr_refers _ Hg) in Hq as [Hq Hd]. destruct (Hrefs Hdead q Hq); done.
Qed.

(** *** The collection *)

Context (acyclic : forall p, ~ tc (fun p q => srefers s0 p q /\ p <> q) p p).
Context (good_ds : Forall good ds).

(** What was visited is deleted, referrers first. *)
Lemma deletions_idle g V l :
  progress g -> traversing (dead g) (V, []) -> (forall x, x ∈ V -> valid_baseName (baseName x)) ->
  topoSortPaths (store g) V = Ok l ->
  leads (sforeach (deletePath storeDir settings options diskUsage tmpLocked) l) g
    (fun _ g' => progress g' /\ (forall x, x ∈ dead g' <-> x ∈ dead g \/ x ∈ V)) (fun _ _ => False).
Proof using delete_dead no_limit.
  intros Hg Hq Hb Hs. pose proof (topoSortPaths_spec (store g) V (pr_ok _ Hg)) as Hl. rewrite Hs in Hl.
  destruct Hl as (Hnd & Hin & Hord). pose proof (traversing_not_needed g V Hg Hq) as Hnn.
  assert (forall Q1 Q2 : GC St -> Prop, (forall g', Q1 g' -> Q2 g') ->
    leads (sforeach (deletePath storeDir settings options diskUsage tmpLocked) l) g (fun _ => Q1) (fun _ _ => False) ->
    leads (sforeach (deletePath storeDir settings options diskUsage tmpLocked) l) g (fun _ => Q2) (fun _ _ => False)) as Hmono.
  { intros Q1 Q2 HQ Hl. eapply leads_mono; [exact Hl| |done]. intros u g'. apply HQ. }
  apply (Hmono (fun g' => progress g' /\ forall x, x ∈ dead g' <-> x ∈ dead g \/ x ∈ l)).
  { intros g' [Hp Hd]. split; [done|]. intros x. by rewrite Hd, Hin. }
  apply (leads_sforeach (fun before g' => progress g' /\ forall x, x ∈ dead g' <-> x ∈ dead g \/ x ∈ before)).
  { split; [done|]. intros x. rewrite elem_of_nil. tauto. }
  intros before x rest g' Hsplit [Hp Hd].
  assert (l !! length before = Some x) as Hx by (rewrite Hsplit; by apply list_lookup_middle).
  assert (x ∈ V) as HxV by (apply Hin; by eapply list_elem_of_lookup_2).
  eapply leads_mono; [apply deletePath_idle; auto| |done].
  - intros Hxd y Hy. destruct (decide (y = x)) as [->|Hne]; [by left|right]. apply Hd.
    destruct (tv_done _ _ Hq x HxV) as [?%not_elem_of_nil|[?|[_ Hk]]]; [done| |].
    + destruct Hxd. apply Hd. by left.
    + destruct (Hk y (or_introl Hy)) as [HyV|?]; [|by left]. cbn [fst] in HyV.
      destruct (decide (y ∈ dead g)) as [?|Hyd]; [by left|right].
      apply Hin, list_elem_of_lookup in HyV as [i Hi].
      assert (i < length before)%nat as Hlt by (eapply Hord; [exact Hi|exact Hx| |done]; by apply (pr_refers _ Hg)).
      rewrite Hsplit, lookup_app_l in Hi by done. by eapply list_elem_of_lookup_2.
  - intros u g2 [Hp2 Hd2]. split; [done|]. intros y. rewrite Hd2, elem_of_union, elem_of_singleton, Hd, elem_of_app, list_elem_of_singleton. tauto.
Qed.

Lemma topoSortPaths_idle g V : progress g -> exists l, topoSortPaths (store g) V = Ok l.
Proof using acyclic.
  intros Hg. pose proof (topoSortPaths_spec (store g) V (pr_ok _ Hg)) as Hs.
  destruct (topoSortPaths (store g) V) as [l|e]; [by exists l|]. destruct Hs as (_ & p & Hp). destruct (acyclic p).
  eapply tc_mono; [|exact Hp]. intros a b [Hr Hne]. by apply (pr_refers _ Hg) in Hr as [? _].
Qed.
End complete.

(** *** The whole store *)

Section whole_store.
Context {St : Type} `{GCStoreLaws St}.
Context (ds : list bytes) (good_ds : Forall good ds) (settings : GCSettings) (roots : StorePathSet).
Context (s0 : St) (T es : gset bytes).
Context (options : GCOptions) (whole : pathsToDelete options = WholeStore).
Context (delete_dead : action options = gcDeleteDead) (no_limit : (2 ^ 64 - 1 <= maxFreed options)%Z).
Context (diskUsage : bytes -> Z) (tmpLocked : bytes -> bool).
Context (acyclic : forall p, ~ tc (fun p q => srefers s0 p q /\ p <> q) p p).
(** The fuel is more than the number of paths a traversal can visit. *)
Context (valids : StorePathSet) (Hvalids : forall p, p ∈ valids <-> svalid s0 p).
Context (fuel : nat) (enough : (size valids + 1 < fuel)%nat).
Notation storeDir := (join_path ds).
Notation progress := (progress ds settings roots s0 T es).
Notation needed := (needed settings roots s0 T).
Notation live := (live settings roots s0 T).

Lemma maybeDelete_idle g start :
  progress g -> valid_baseName (baseName start) ->
  leads (maybeDeleteReferrersClosure storeDir settings options roots diskUsage tmpLocked fuel start) g
    (fun _ g' => progress g' /\ (forall x, x ∈ dead g -> x ∈ dead g') /\ (start ∈ dead g' \/ live start)) (fun _ _ => False).
Proof using whole delete_dead no_limit acyclic Hvalids enough.
  intros Hg Hb. unfold maybeDeleteReferrersClosure. apply leads_finally.
  apply leads_mono with (Q := fun _ g' => progress g' /\ (forall x, x ∈ dead g -> x ∈ dead g') /\ (start ∈ dead g' \/ live start))
    (E := fun _ _ => False); [|intros _ g' (Hp & Hd & Hs)|done].
  2: { split; [|done]. apply (progress_ext ds settings roots s0 T es g'); try done. by left. }
  set (U := {[start]} ∪ valids).
  assert (traversing settings roots s0 T start U (dead g) ({[start]}, [start])) as Hq.
  { split; cbn [fst snd].
    - by apply elem_of_singleton.
    - intros x ->%list_elem_of_singleton. by apply elem_of_singleton.
    - unfold U. apply union_subseteq_l.
    - intros x ->%elem_of_singleton. done.
    - intros x ->%elem_of_singleton. left. left. }
  apply leads_bind. eapply leads_mono; [apply (traverse_complete ds settings roots s0 T es start U options whole fuel g _ Hg Hq)| |done].
  - intros p Hp%Hvalids. unfold U. apply elem_of_union. by right.
  - unfold to_visit; cbn [fst snd length]. assert (size (U ∖ {[start]}) <= size valids)%nat; [|lia].
    apply subseteq_size. unfold U. intros x [[?|?]%elem_of_union ?]%elem_of_difference; done.
  - intros [V|] g1 (Hg1 & Hd1 & Hend).
    + destruct (topoSortPaths_idle ds settings roots s0 T es acyclic g1 V Hg1) as [l Hl].
      apply leads_bind. unfold leads at 1. rewrite ask_idle, Hl by apply Hg1. rewrite <- Hd1 in Hend.
      eapply leads_mono; [apply (deletions_idle ds settings roots s0 T es start U options delete_dead no_limit diskUsage tmpLocked g1 V l Hg1 Hend)| |done].
      * intros x Hx%(tv_universe _ _ _ _ _ _ _ _ Hend). unfold U in Hx. apply elem_of_union in Hx as [->%elem_of_singleton|Hx]; [done|].
        apply Hvalids in Hx. apply (law_valid_wf s0 x (pr_ok0 _ _ _ _ _ _ _ Hg) Hx).
      * done.
      * intros u g2 [Hg2 Hd2]. split; [done|]. split; [intros x Hx; apply Hd2; left; by rewrite Hd1|].
        left. apply Hd2. right. apply (tv_start _ _ _ _ _ _ _ _ Hend).
    + split; [done|]. split; [by rewrite Hd1|by right].
Qed.

(** A name in the store directory that is no store path is deleted. *)
Lemma deleteName_progress g n :
  progress g -> maybeParseStorePath storeDir ((storeDir ++ #"/") ++ n) = Ok None ->
  progress (set_results (entries g ∖ {[n]}) ({[(storeDir ++ #"/") ++ n]} ∪ paths g) (u64 (bytesFreed g + diskUsage n)) g).
Proof using Type.
  intros [G0 G1 G2 G3 G4 G5 G6 G7 G8 G9 G10 G11 G12] Hn. split; try done; cbn [set_results entries dead].
  - intros p Hp%G11 [? _]%elem_of_difference. done.
  - intros m Hm Hgone. destruct (decide (m = n)) as [->|Hne]; [by right|]. apply G12; [done|].
    intros Hin. apply Hgone, elem_of_difference. by rewrite elem_of_singleton.
Qed.

(** What has been dealt with after some names of the listing. *)
Definition handled (before : list bytes) (g : GC St) : Prop :=
  progress g /\ forall n p, n ∈ before -> maybeParseStorePath storeDir ((storeDir ++ #"/") ++ n) = Ok (Some p) ->
    n <> #"." -> n <> #".." -> n <> #".links" -> p ∈ dead g \/ live p.

Lemma collectEntry_idle g before n :
  handled before g -> is_absolute n = false ->
  leads (collectEntry storeDir #".links" settings options roots diskUsage tmpLocked fuel n) g
    (fun _ g' => handled (before ++ [n]) g') (fun _ _ => False).
Proof using whole delete_dead no_limit acyclic Hvalids enough good_ds.
  intros [Hg Hh] Ha. unfold collectEntry.
  assert (forall g', progress g' -> (forall x, x ∈ dead g -> x ∈ dead g') ->
    (forall p, maybeParseStorePath storeDir ((storeDir ++ #"/") ++ n) = Ok (Some p) ->
       n <> #"." -> n <> #".." -> n <> #".links" -> p ∈ dead g' \/ live p) -> handled (before ++ [n]) g') as Hnext.
  { intros g' Hg' Hd Hn. split; [done|]. intros m p [Hm| ->%list_elem_of_singleton]%elem_of_app Hp H1 H2 H3; [|auto].
    destruct (Hh m p Hm Hp H1 H2 H3); auto. }
  destruct (bool_decide (n = #".") || bool_decide (n = #"..") || bool_decide (n = #".links")) eqn:Hskip.
  { apply Hnext; [done|auto|]. intros p _ H1 H2 H3. by rewrite !bool_decide_false in Hskip. }
  apply leads_bind. unfold leads at 1, slift at 1. destruct (maybeParse_entry ds n good_ds) as (o & Ho & Hv). rewrite Ho.
  destruct o as [p|].
  - eapply leads_mono; [apply maybeDelete_idle; [done|by apply Hv]| |done]. intros u g' (Hg' & Hd & Hp).
    apply Hnext; [done|done|]. intros p' Hp' _ _ _. rewrite Ho in Hp'. by injection Hp' as <-.
  - destruct (bool_decide (take 4 n = #"tmp-") && tmpLocked n) eqn:Ht.
    + unfold leads, deleteFromStore. rewrite Ha, Ht. cbn [negb assertb throw_if]. rewrite slift_bind_Ok. apply Hnext; [done|auto|]. congruence.
    + unfold leads. rewrite deleteFromStore_idle by (done || apply Hg). apply Hnext; [by apply deleteName_progress|auto|]. congruence.
Qed.

Lemma collect_idle g listing :
  progress g -> Forall (fun n => is_absolute n = false) listing ->
  leads (collect storeDir #".links" settings options roots diskUsage tmpLocked fuel listing) g
    (fun _ g' => handled listing g') (fun _ _ => False).
Proof using whole delete_dead no_limit acyclic Hvalids enough good_ds.
  intros Hg Ha. unfold collect. apply leads_bind.
  apply leads_mono with (Q := fun _ g' => handled listing g') (E := fun _ _ => False); [|by rewrite delete_dead|done].
  apply leads_scatch. unfold collectPaths. rewrite whole, delete_dead.
  rewrite (proj2 (Z.eqb_neq _ _)) by lia. rewrite bool_decide_false by done.
  apply leads_mono with (Q := fun _ g' => handled listing g') (E := fun _ _ => False); [|done|done].
  apply (leads_sforeach handled).
  - split; [done|]. by intros n p ?%not_elem_of_nil.
  - intros before n rest g' Hl Hg'. apply collectEntry_idle; [done|]. rewrite Forall_forall in Ha. apply Ha. rewrite Hl. set_solver.
Qed.
End whole_store.

