(* ===== verification/LocalStoreGC.v ===== *)
(** * LocalStoreGC: the local store under the garbage collector

    [LocalStore] (LocalStore.v) has the laws of GCStore.v as long as its path
    info cache agrees with the database, which queries and invalidations
    keep; so the theorems on collections hold of it. *)

From S2P Require Export LocalStore GCComplete.

Section instance.
Context (storeDir : bytes).

#[export] Instance LocalStore_GCStore : GCStore LocalStore := {|
  gs_isValidPath := fun p s => (isValidPath storeDir p s).1;
  gs_queryReferrers := fun p s => (queryReferrers storeDir p s).1;
  gs_queryPathInfo := fun p s => (queryPathInfo storeDir p s).1;
  gs_queryValidDerivers := fun p s => (queryValidDerivers storeDir p s).1;
  gs_queryAllValidPaths := fun s => (queryAllValidPaths storeDir s).1;
  gs_invalidatePathChecked := invalidatePathChecked storeDir;
|}.
End instance.

Section laws.
Context (ds : list bytes).
Notation storeDir := (join_path ds).
Notation print := (printStorePath storeDir).

Definition deriver_at (d : DB) (p q : StorePath) : Prop :=
  exists r, row_at ds d p r /\ row_deriver r = Some (print q).
Definition derives_at (d : DB) (drv p : StorePath) : Prop :=
  exists r o, row_at ds d drv r /\ o ∈ DerivationOutputs d /\ o.1.1 = row_id r /\ o.2 = print p.

(** An entry of the cache agrees with the database, the registration time
    and what the references do not depend on apart. *)
Definition agrees (d : DB) (p : StorePath) (v : option ValidPathInfo) : Prop :=
  match v with
  | None => ~ valid ds d p
  | Some i =>
      valid ds d p /\ path i = p /\ (forall q, q ∈ references i <-> refers ds d p q) /\
      (forall q, deriver i = Some q <-> deriver_at d p q)
  end.
Definition coherent (s : LocalStore) : Prop :=
  store_ok ds s /\ forall p v, data (pathInfoCache s) !! p = Some v -> agrees (db s) p v.

Context (Hds : Forall good ds).

Lemma info_of_row_agrees d p r :
  db_ok ds d -> row_at ds d p r -> exists i, info_of_row storeDir d p r = Ok i /\ agrees d p (Some i).
Proof using Hds.
  intros Hok Hr. destruct (ok_rows _ _ Hok r (proj1 Hr)) as [_ (h & Hh & Hhs) Hd Hs Hc].
  destruct (parse_all_Ok ds Hds (QueryReferences d (row_id r))) as (X & HX & HpX).
  { intros s (q & -> & Hq)%(elem_of_QueryReferences ds d p); [|done..]. exists q. split; [|done].
    by apply (valid_wf ds d), (refers_valid ds _ _ _ Hq). }
  unfold info_of_row. pose proof (parseAnyPrefixed_to_string h Base16 Hh) as Hph. rewrite Hhs in Hph.
  cbn [mbind result_bind] in Hph. rewrite Hph. cbn [catch mbind result_bind].
  set (dr := match row_deriver r with Some s => _ | None => _ end).
  assert (exists o, dr = Ok o /\ forall q, o = Some q <-> row_deriver r = Some (print q)) as (o & -> & Ho).
  { unfold dr. destruct (row_deriver r) as [s|] eqn:Hrd; [|exists None; split; [done|]; naive_solver].
    destruct (Hd s eq_refl) as (q & Hq & ->). rewrite parse_print by done. exists (Some q). split; [done|].
    intros q'. split; [by intros [= ->]|]. by intros [= ->%print_inj]. }
  cbn [mbind result_bind].
  set (sg := match row_sigs r with Some s => _ | None => _ end).
  assert (exists Y, sg = Ok Y) as [Y ->].
  { unfold sg. destruct (row_sigs r) as [s|]; [|by eexists]. destruct (Hs s eq_refl) as (Y & HY & ->). exists Y. by apply tokenize_sigs. }
  cbn [mbind result_bind].
  set (cc := match row_ca r with Some s => _ | None => _ end).
  assert (exists c, cc = Ok c) as [c ->].
  { unfold cc. destruct (row_ca r) as [s|]; [|by eexists]. destruct (Hc s eq_refl) as (c & Hw & Hren). exists (Some c). by apply parseOpt_render. }
  cbn [mbind result_bind]. rewrite HX. cbn [mbind result_bind]. eexists. split; [done|].
  split; [by exists r|]. split; [done|]. cbn [references deriver]. split.
  - intros q. rewrite HpX, (elem_of_QueryReferences ds d p) by done.
    split; [by intros (q' & ->%print_inj & ?)|]. by exists q.
  - intros q. rewrite Ho. split; [intros Hq; by exists r|]. intros (r' & Hr' & Hq). by rewrite (row_at_unique ds d p r r').
Qed.

Lemma get_data (c : PathInfoCache) p : data (get c p).2 = data c /\ (get c p).1 = data c !! p.
Proof using Type. unfold get. by destruct (data c !! p) eqn:Hd. Qed.

Lemma cache_get_run p s :
  coherent s -> exists s', cache_get p s = (Ok (data (pathInfoCache s) !! p), s') /\ coherent s' /\ db s' = db s.
Proof using Type.
  intros [[Hok Hw] Hc]. unfold cache_get. destruct (get_data (pathInfoCache s) p) as [Hd Hv].
  destruct (get_spec (pathInfoCache s) p Hw) as (Hw' & _). destruct (get (pathInfoCache s) p) as [v c]. cbn [fst snd] in *.
  subst v. eexists. split; [done|]. split; [|done]. split; [done|]. cbn [pathInfoCache db]. by rewrite Hd.
Qed.

(** A query of the validity of a path. *)
Lemma isValidPath_run p s :
  coherent s -> exists b s', isValidPath storeDir p s = (Ok b, s') /\ coherent s' /\ db s' = db s /\
    (b = true <-> valid ds (db s) p).
Proof using Type.
  intros Hs. destruct (cache_get_run p s Hs) as (s' & Hg & Hs' & Hdb). unfold isValidPath. rewrite (ST_bind_Ok _ _ _ _ _ Hg).
  destruct (data (pathInfoCache s) !! p) as [v|] eqn:Hd.
  - eexists _, s'. split; [done|]. split; [done|]. split; [done|]. rewrite bool_decide_eq_true.
    pose proof (proj2 Hs p v Hd) as Ha. destruct v as [i|]; split.
    + intros _. apply Ha.
    + intros _. by eexists.
    + by intros [? [=]].
    + intros Hv. by destruct Ha.
  - eexists _, s'. split; [done|]. split; [done|]. split; [done|]. rewrite bool_decide_eq_true, Hdb.
    rewrite (valid_Query ds) by apply Hs. done.
Qed.

Lemma goodStorePath_refl p : wf_StorePath p -> goodStorePath p p = Ok true.
Proof using Type.
  intros [[Hl _ _] _]. unfold goodStorePath. rewrite bool_decide_true by done.
  assert (name p = Ok (drop 33 (baseName p))) as ->.
  { unfold name. by rewrite (proj2 (Nat.ltb_ge _ _)) by lia. }
  cbn [mbind result_bind]. case_bool_decide; [done|]. by rewrite bool_decide_true.
Qed.

(** A query of a path's info: the answer depends on the database only. *)
Lemma queryPathInfo_run p s :
  coherent s -> exists r s', queryPathInfo storeDir p s = (r, s') /\ coherent s' /\ db s' = db s /\
    match r with
    | Ok i => agrees (db s) p (Some i)
    | Throw e => e = InvalidPath /\ ~ valid ds (db s) p
    end.
Proof using Hds.
  intros Hs. destruct (cache_get_run p s Hs) as (s1 & Hg & Hs1 & Hdb). unfold queryPathInfo. rewrite (ST_bind_Ok _ _ _ _ _ Hg).
  destruct (data (pathInfoCache s) !! p) as [[i|]|] eqn:Hd.
  - eexists (Ok i), s1. split; [done|]. split; [done|]. split; [done|]. apply (proj2 Hs p (Some i) Hd).
  - eexists (Throw InvalidPath), s1. split; [done|]. split; [done|]. split; [done|]. split; [done|]. apply (proj2 Hs p None Hd).
  - assert (forall v, agrees (db s) p v -> exists s2,
      set_cache (fun c => upsert c p v) s1 = (Ok (), s2) /\ coherent s2 /\ db s2 = db s) as Hup.
    { intros v Hv. destruct Hs1 as [[Hok1 Hw1] Hc1].
      destruct (upsert_spec (pathInfoCache s1) p v Hw1) as (c & Hu & Hw & _ & Hrec). exists (mkStore (db s1) c).
      unfold set_cache. rewrite Hu. split; [done|]. split; [|done]. split; [done|]. cbn [pathInfoCache db].
      intros q w Hq. rewrite Hdb. rewrite <- (recency_lookup c q Hw), Hrec in Hq.
      unfold spec_lookup in Hq. apply elem_of_list_to_map_2 in Hq. unfold spec_upsert in Hq.
      assert (forall e, e ∈ recency (pathInfoCache s1) -> agrees (db s) e.1 e.2) as Hold.
      { intros [q' w'] He. rewrite <- Hdb. apply (Hc1 q' w'). rewrite <- (recency_lookup _ q' Hw1).
        apply elem_of_list_to_map; [|done]. rewrite recency_keys by done. apply Hw1. }
      destruct (capacity _ =? 0)%nat; [by apply (Hold (q, w))|].
      apply elem_of_app in Hq as [Hq|Hq]; [|apply list_elem_of_singleton in Hq; by injection Hq as -> ->].
      assert ((q, w) ∈ without p (recency (pathInfoCache s1))) as Hin.
      { destruct (_ <=? _)%nat; [|done]. destruct (without p _) as [|e l]; [done|]. by right. }
      unfold without in Hin. apply list_elem_of_filter in Hin as [_ Hin]. by apply (Hold (q, w)). }
    assert (queryPathInfoInternal storeDir p s1 =
      (match QueryPathInfo (db s1) (print p) with
       | None => Ok None
       | Some r => Some <$> info_of_row storeDir (db s1) p r
       end, s1)) as Hint by done.
    pose proof (so_db _ _ (proj1 Hs1)) as Hok1.
    destruct (QueryPathInfo (db s1) (print p)) as [r|] eqn:Hq.
    + assert (row_at ds (db s1) p r) as Hr by (by apply Query_Some).
      destruct (info_of_row_agrees (db s1) p r Hok1 Hr) as (i & Hi & Ha). rewrite Hdb in Ha.
      destruct (Hup (Some i) Ha) as (s2 & Hs2 & Hc2 & Hdb2). exists (Ok i), s2.
      rewrite ?Hq, ?Hi in Hint. rewrite (ST_bind_Ok _ _ _ _ _ Hint), (ST_bind_Ok _ _ _ _ _ Hs2).
      destruct Ha as (Hv & Hpi & Hrest). rewrite Hpi, goodStorePath_refl; [done|]. apply (valid_wf ds (db s)); [by rewrite <- Hdb|done].
    + assert (~ valid ds (db s) p) as Hv.
      { intros Hv%(valid_Query ds); [|by rewrite <- Hdb]. rewrite <- Hdb, Hq in Hv. by destruct Hv. }
      destruct (Hup None Hv) as (s2 & Hs2 & Hc2 & Hdb2). exists (Throw InvalidPath), s2.
      rewrite ?Hq in Hint. by rewrite (ST_bind_Ok _ _ _ _ _ Hint), (ST_bind_Ok _ _ _ _ _ Hs2).
Qed.

(** An invalidation that is not refused, and what it does to the rows. *)
Lemma invalidatePathChecked_run p s :
  store_ok ds s ->
  match invalidatePathChecked storeDir p s with
  | (Ok _, s') =>
      ~ valid ds (db s) p /\ s' = s \/
      exists r, row_at ds (db s) p r /\ InvalidatePath (db s) (print p) = Ok (db s') /\
        pathInfoCache s' = (erase (pathInfoCache s) p).2
  | (Throw _, _) => True
  end.
Proof using Hds.
  intros [Hok Hw]. unfold invalidatePathChecked, txn, isValidPath_. rewrite from_db_bind.
  case_bool_decide as Hv.
  - destruct Hv as [r Hr%Query_Some]. destruct (queryReferrers_ok ds Hds p s Hok) as (X & HX & _).
    rewrite (ST_bind_Ok _ _ _ _ _ HX). cbv zeta. destruct (negb _); cbn [throw_if]; [by rewrite slift_bind_Throw|].
    rewrite slift_bind_Ok. unfold invalidatePath. destruct (InvalidatePath (db s) (print p)) as [d'|e] eqn:Hi.
    + rewrite (set_db_bind _ _ _ _ Hi). right. by exists r.
    + rewrite (ST_bind_Throw _ _ _ e s); [done|]. unfold set_db. by rewrite Hi.
  - left. split; [|done]. intros Hv'. apply Hv. by apply (valid_Query ds).
Qed.

Lemma elem_of_DerivationOutputs d p d' r o :
  InvalidatePath d (print p) = Ok d' -> QueryPathInfo d (print p) = Some r ->
  o ∈ DerivationOutputs d' <-> o ∈ DerivationOutputs d /\ o.1.1 <> row_id r.
Proof using Type.
  unfold InvalidatePath. intros Hi Hq. rewrite Hq in Hi. destruct (bool_decide _); [done|]. injection Hi as <-.
  cbn [DerivationOutputs]. rewrite list_elem_of_filter. tauto.
Qed.

Lemma invalidate_laws p s :
  coherent s ->
  leads (invalidatePathChecked storeDir p) s
    (fun _ s' => coherent s' /\ (forall q, refers ds (db s) q p -> q = p) /\
       (forall q, valid ds (db s') q <-> valid ds (db s) q /\ q <> p) /\
       (forall x y, refers ds (db s') x y <-> refers ds (db s) x y /\ x <> p) /\
       (forall x q, deriver_at (db s') x q <-> deriver_at (db s) x q /\ x <> p) /\
       (forall d x, derives_at (db s') d x <-> derives_at (db s) d x /\ d <> p))
    (fun e s' => e = PathInUse /\ s' = s /\ exists q, refers ds (db s) q p /\ q <> p).
Proof using Hds.
  intros [Hs Hc]. pose proof (invalidatePathChecked_outcome ds Hds p s Hs) as Ho.
  pose proof (invalidatePathChecked_run p s Hs) as Hr. unfold leads.
  destruct (invalidatePathChecked storeDir p s) as [[u|e] s']; [|done].
  destruct Ho as (Hs' & Hu & Hv & Hrefs).
  enough (coherent s' /\ (forall x q, deriver_at (db s') x q <-> deriver_at (db s) x q /\ x <> p) /\
       (forall d x, derives_at (db s') d x <-> derives_at (db s) d x /\ d <> p)) as (H1 & H2 & H3) by done.
  destruct Hr as [[Hn ->]|(r & Hr & Hi & Hcache)].
  - split; [done|]. split.
    + intros x q. split; [|tauto]. intros Hd. split; [done|]. intros ->. destruct Hd as (r & Hr & _). apply Hn. by exists r.
    + intros d x. split; [|tauto]. intros Hd. split; [done|]. intros ->. destruct Hd as (r & _ & Hr & _). apply Hn. by exists r.
  - destruct (InvalidatePath_ok ds (db s) p (so_db _ _ Hs) (ex_intro _ r Hr)) as [(d' & Hd' & _ & Hat & _) _]; [done|].
    rewrite Hi in Hd'. injection Hd' as <-.
    assert (forall x q, deriver_at (db s') x q <-> deriver_at (db s) x q /\ x <> p) as Hder.
    { intros x q. unfold deriver_at. setoid_rewrite Hat. naive_solver. }
    split; [split; [done|]|split; [done|]].
    + intros x v Hx. rewrite Hcache, erase_snd in Hx by apply Hs. cbn [data] in Hx.
      apply lookup_delete_Some in Hx as [Hne Hx]. specialize (Hc x v Hx). destruct v as [i|]; cbn [agrees] in *.
      * destruct Hc as (C1 & C2 & C3 & C4). split; [by apply Hv|]. split; [done|]. split.
        -- intros q. rewrite C3, Hrefs. naive_solver.
        -- intros q. rewrite C4, Hder. naive_solver.
      * intros Hvx%Hv. tauto.
    + pose proof (Query_row_at ds (db s) p r (so_db _ _ Hs) Hr) as Hq. intros d x. unfold derives_at. split.
      * intros (r0 & o & [Hr0 Hne]%Hat & Ho%(elem_of_DerivationOutputs _ _ _ r o Hi Hq) & H1 & H2). split; [|done]. exists r0, o. naive_solver.
      * intros [(r0 & o & Hr0 & Ho & H1 & H2) Hne]. exists r0, o. split; [by apply Hat|]. split; [|done].
        apply (elem_of_DerivationOutputs _ _ _ r o Hi Hq). split; [done|]. rewrite H1. intros He.
        apply (row_id_inj ds (db s)) in He as ->; [|apply Hs|apply Hr0|apply Hr]. apply Hne. by eapply row_at_path.
Qed.

Lemma queryValidDerivers_ok p s :
  db_ok ds (db s) -> exists X, queryValidDerivers storeDir p s = (Ok X, s) /\ forall d, d ∈ X <-> derives_at (db s) d p.
Proof using Hds.
  intros Hok.
  assert (forall x, x ∈ QueryValidDerivers (db s) (print p) <-> exists d, x = print d /\ derives_at (db s) d p) as Hq.
  { intros x. unfold QueryValidDerivers. rewrite list_elem_of_fmap. split.
    - intros (r & -> & [He Hr]%list_elem_of_filter). apply Exists_exists in He as (o & Ho & H1 & H2).
      destruct (row_sp ds (db s) r Hok Hr) as (d & _ & Hd). exists d. split; [apply Hd|]. by exists r, o.
    - intros (d & -> & r & o & Hr & Ho & H1 & H2). exists r. split; [symmetry; apply Hr|].
      apply list_elem_of_filter. split; [|apply Hr]. apply Exists_exists. by exists o. }
  destruct (parse_all_Ok ds Hds (QueryValidDerivers (db s) (print p))) as (X & HX & HpX).
  { intros x (d & -> & r & o & Hr & _)%Hq. exists d. split; [|done]. apply (valid_wf ds (db s)); [done|]. by exists r. }
  exists X. split; [unfold queryValidDerivers, mbind, ST_bind, from_db, slift; by rewrite HX|].
  intros d. rewrite HpX, Hq. split; [by intros (d' & ->%print_inj & ?)|]. by exists d.
Qed.
End laws.

(** The local store has the laws. *)
#[export] Instance LocalStore_GCStoreLaws (ds : list bytes) (Hds : Forall good ds) :
  @GCStoreLaws LocalStore (LocalStore_GCStore (join_path ds)).
Proof.
  refine {|
    sok := coherent ds;
    svalid := fun s => valid ds (db s);
    srefers := fun s => refers ds (db s);
    sderiver := fun s => deriver_at ds (db s);
    sderives := fun s => derives_at ds (db s) |}; cbn.
  - intros s p [Hs _]. apply valid_wf, Hs.
  - intros s p q _. apply refers_valid.
  - intros s d p _ (r & o & Hr & _). by exists r.
  - intros s p Hs. destruct (isValidPath_run ds p s Hs) as (b & s' & -> & _ & _ & Hb). by exists b.
  - intros s p [Hs _]. destruct (queryReferrers_ok ds Hds p s (so_db _ _ Hs)) as (X & -> & HX). by exists X.
  - intros s p [Hs _]. destruct (queryValidDerivers_ok ds Hds p s (so_db _ _ Hs)) as (X & -> & HX). by exists X.
  - intros s [Hs _]. destruct (queryAllValidPaths_ok ds Hds s (so_db _ _ Hs)) as (X & -> & HX). by exists X.
  - intros s p Hs Hv. destruct (queryPathInfo_run ds Hds p s Hs) as ([i|e] & s' & -> & _ & _ & Ha); [|by destruct Ha].
    exists i. split; [done|]. destruct Ha as (_ & _ & ? & ?). done.
  - intros s p Hs Hv. destruct (queryPathInfo_run ds Hds p s Hs) as ([i|e] & s' & -> & _ & _ & Ha); [by destruct Ha|].
    by destruct Ha as [-> _].
  - intros s p Hs. by apply invalidate_laws.
Defined.


(** *** Examples *)

Notation nix_ds := [ #"nix"; #"store"].

(** The example store, opened anew. *)
Definition reopened : LocalStore := mkStore (db example_store) (new_LRUCache 65536).

Lemma reopened_coherent : coherent nix_ds reopened.
Proof.
  split; [split; [apply example_store_ok|apply new_wf]|]. intros p v Hp. cbn in Hp. by rewrite lookup_empty in Hp.
Qed.

Lemma example_valid p : valid nix_ds (db reopened) p <-> p = example_path \/ p = other_path.
Proof.
  pose proof (@registerValidPaths_outcome prefix_HashLib nix_ds 1700000000 example_infos empty_store
    (empty_store_ok _) example_infos_wf) as Hs.
  change (join_path nix_ds) with #"/nix/store" in Hs. rewrite example_registration in Hs. destruct Hs as (_ & _ & Hv & _).
  change (db reopened) with (db example_store). rewrite Hv. split.
  - intros [?%empty_invalid|(e & He & ->)]; [done|].
    apply elem_of_cons in He as [->|[->|[]%not_elem_of_nil]%elem_of_cons]; [by left|by right].
  - intros [-> | ->]; right; [exists (example_path, example_info example_path {[example_path]})|
      exists (other_path, example_info other_path {[example_path]})];
      (split; [|reflexivity]); [apply list_elem_of_here|apply list_elem_of_further, list_elem_of_here].
Qed.


Definition gc_options (a : GCAction) (ps : GCPaths) : GCOptions := mkGCOptions a false ps (2 ^ 64 - 1).
Definition gc_settings : GCSettings := mkGCSettings false false.
Definition collect_example (settings : GCSettings) (options : GCOptions) (rootMap : StorePathSet) (listing : list bytes)
    (s : LocalStore) (rounds : list (list (event LocalStore))) : result unit * GC LocalStore :=
  @collectGarbage LocalStore (LocalStore_GCStore (join_path nix_ds)) (join_path nix_ds) #".links" settings options
    (fun _ => 1%Z) (fun _ => false) 10 rootMap ∅ listing s (list_to_set listing) rounds.
Definition example_listing : list bytes :=
  [ #"."; #".."; #".links"; to_string other_path; to_string example_path; #"leftover"].

Lemma collectGarbage_safe_witness :
  valid nix_ds (db (store (collect_example gc_settings (gc_options gcDeleteDead WholeStore) {[example_path]} example_listing
    reopened [[NewRoot #"/nix/store/nonsense"]]).2)) example_path.
Proof.
  refine (@collectGarbage_safe LocalStore (LocalStore_GCStore (join_path nix_ds)) (LocalStore_GCStoreLaws nix_ds good_nix_store)
    (join_path nix_ds) #".links" gc_settings (gc_options gcDeleteDead WholeStore) (fun _ => 1%Z) (fun _ => false) 10
    {[example_path]} ∅ example_listing reopened (list_to_set example_listing) [[NewRoot #"/nix/store/nonsense"]]
    reopened_coherent _ example_path reopened _ _ example_path (rtc_refl _ _)).
  - by repeat constructor.
  - right. split; [|reflexivity]. apply elem_of_union. left. by apply elem_of_singleton.
  - apply example_valid. by left.
Defined.

(** The path without a root goes, with its directory and the leftovers; one
    more root, asked for in time, keeps it. *)
Example garbage_goes :
  let c := collect_example gc_settings (gc_options gcDeleteDead WholeStore) {[example_path]} example_listing reopened [] in
  c.1 = Ok () /\ entries c.2 = {[ #"."; #".."; #".links"; to_string example_path]} /\
  row_path <$> ValidPaths (db (store c.2)) = [printStorePath #"/nix/store" example_path].
Proof. cbv zeta. refine (bool_decide_unpack _ _). vm_compute. exact I. Qed.

(** One more root keeps the path, when it is asked for in time. *)
Example asked_in_time :
  let c := collect_example gc_settings (gc_options gcDeleteDead WholeStore) {[example_path]} example_listing reopened
             [[]; []; []; [NewRoot (printStorePath #"/nix/store" other_path)]] in
  c.1 = Ok () /\ length (ValidPaths (db (store c.2))) = 2%nat.
Proof. cbv zeta. refine (bool_decide_unpack _ _). vm_compute. exact I. Qed.

Lemma reopened_acyclic p : ~ tc (fun p q => refers nix_ds (db reopened) p q /\ p <> q) p p.
Proof.
  pose proof (@registerValidPaths_acyclic_lemma prefix_HashLib nix_ds 1700000000 example_infos empty_store example_store
    (empty_store_ok _) example_infos_wf (fun _ _ => empty_invalid _ _) (empty_acyclic _) example_registration) as Ha.
  exact (Ha p).
Qed.


(** With keep-derivations, whether the deriver of a live path is kept depends
    on the order of the directory listing. *)
Definition drv_path : StorePath := mkStorePath (replicate 32 "d"%char ++ #"-x.drv").
Definition with_drv : LocalStore :=
  (@registerValidPaths prefix_HashLib #"/nix/store" 1700000000
     [(drv_path, example_info drv_path ∅);
      (example_path, mkInfo #"/nix/store" (Some drv_path) (example_hash SHA256) ∅ 0 120 true ∅ None example_path)]
     empty_store).2.
Definition kept_with (listing : list StorePath) : list bytes :=
  row_path <$> ValidPaths (db (store (collect_example (mkGCSettings false true) (gc_options gcDeleteDead WholeStore)
    {[example_path]} (to_string <$> listing) with_drv []).2)).

Lemma keep_derivations_order :
  kept_with [example_path; drv_path] = printStorePath #"/nix/store" <$> [drv_path; example_path] /\
  kept_with [drv_path; example_path] = printStorePath #"/nix/store" <$> [example_path].
Proof. refine (bool_decide_unpack _ _). vm_compute. exact I. Qed.

(** A path that becomes a temporary root before its deletion is noted as dead
    all the same: asked to delete it, the collector reports no failure, and
    the path is still there. *)
Lemma delete_specific_silent :
  let c := collect_example gc_settings (gc_options gcDeleteSpecific (SpecificPaths {[other_path]} false)) {[example_path]} []
             reopened [[]; [NewRoot (printStorePath #"/nix/store" other_path)]] in
  c.1 = Ok () /\ other_path ∈ dead c.2 /\
  is_Some (QueryPathInfo (db (store c.2)) (printStorePath #"/nix/store" other_path)).
Proof. cbv zeta. refine (bool_decide_unpack _ _). vm_compute. exact I. Qed.
