(* ===== verification/TempRoots.v ===== *)
(** * TempRoots: the protocol of temporary roots

    [addTempRoot] and [createTempRootsFile] of libstore/gc.cc in any number of
    processes, and the collector's side of it: the global lock, the roots
    server, [findTempRoots], and the deletion of one path after the other.
    Processes, server and collector take steps from one system call to the
    next in any order; processes start and die, and the number of a dead one
    is used again. *)

From S2P Require Export StoreDir.

Section temproots.
Context (storeDir : bytes).

(** ** Contents of a temporary roots file *)

Definition line (p : StorePath) : bytes := printStorePath storeDir p ++ [NUL].

(** The loop over the contents: what stands before each NUL. *)
Fixpoint file_roots (fuel : nat) (contents : bytes) : list bytes :=
  match fuel, find_char NUL contents with
  | S fuel, Some n => take n contents :: file_roots fuel (drop (S n) contents)
  | _, _ => []
  end.
Definition read_roots (contents : bytes) : result (gset bytes) :=
  foreach (fun roots root => p ← parseStorePath storeDir root; Ok ({[hashPart p]} ∪ roots)) ∅ (file_roots (length contents) contents).

(** ** State *)

Inductive Owner := Process (pid : nat) | Collector.
#[export] Instance Owner_eq_dec : EqDecision Owner.
Proof. solve_decision. Defined.

(** A temporary roots file, with the holder of its lock. *)
Record TFile := mkTFile { content : bytes; holder : option Owner }.

(** Where a process is: between calls of [addTempRoot]; in the destructor of
    the store, before its last call; in [createTempRootsFile]; at [restart]; talking to the server; writing to its
    file, with the shared global lock or ([via]) after the acknowledgement of
    a collection. *)
Inductive At :=
  | Ready
  | RemoveFile
  | Begin (p : StorePath)
  | Loop (p : StorePath)
  | UnlinkStale (p : StorePath)
  | OpenFile (p : StorePath)
  | LockIt (p : StorePath)
  | Size (p : StorePath)
  | Restart (p : StorePath)
  | Connect (p : StorePath)
  | Send (p : StorePath)
  | Receive (p : StorePath)
  | Write (p : StorePath) (written rest : bytes) (via : option nat).

(** [registered] are the roots [addTempRoot] has returned for (the code does
    not keep them), each with the collection, if any, that began between its
    acknowledgement and the end of its record in the file. *)
Record Client := mkClient { at_ : At; fd : option nat; registered : list (StorePath * option nat) }.

(** A connection to the server of the collection [c_gen].  A client sends a
    line and waits for the answer, so that at most one exchange goes on: the
    line was sent, the server's thread has it in hand, or it has answered. *)
Inductive Exchange := Quiet | Sent (p : StorePath) | Handled (p : StorePath) | Answered.
Record Conn := mkConn { c_gen : nat; exchange : Exchange }.

Record Files := mkFiles { temproots : gmap nat nat; inodes : gmap nat TFile; next_ino : nat }.
Record Server := mkServer {
  gen : nat; listening : bool; serving : bool;
  tempRoots : gset bytes; pending : option bytes; conns : gmap nat Conn;
}.

(** Where the collector is; [todo] are the names of the directory it is to
    read at least. *)
Inductive Phase :=
  | Idle
  | Acquire
  | StartServer
  | OpenDir
  | Scan (todo : gset nat)
  | OpenIt (pid : nat) (todo : gset nat)
  | TestFile (pid ino : nat) (todo : gset nat)
  | UnlinkFile (pid ino : nat) (todo : gset nat)
  | TokenFile (ino : nat) (todo : gset nat)
  | ReadFile (pid ino : nat) (todo : gset nat)
  | Deleting
  | StopListening
  | StopServing
  | ReleaseLock.

Record State := mkState {
  files : Files; readers : gset nat; exclusive : bool;
  clients : gmap nat Client; server : Server; phase : Phase;
}.

Definition set_files (f : Files) (s : State) : State := mkState f (readers s) (exclusive s) (clients s) (server s) (phase s).
Definition set_readers (r : gset nat) (s : State) : State := mkState (files s) r (exclusive s) (clients s) (server s) (phase s).
Definition set_client (pid : nat) (c : Client) (s : State) : State :=
  mkState (files s) (readers s) (exclusive s) (<[pid := c]> (clients s)) (server s) (phase s).
Definition set_server (v : Server) (s : State) : State := mkState (files s) (readers s) (exclusive s) (clients s) v (phase s).
Definition set_phase (ph : Phase) (s : State) : State := mkState (files s) (readers s) (exclusive s) (clients s) (server s) ph.
Definition set_inode (ino : nat) (f : TFile) (s : State) : State :=
  set_files (mkFiles (temproots (files s)) (<[ino := f]> (inodes (files s))) (next_ino (files s))) s.
Definition unlink (pid : nat) (s : State) : State :=
  set_files (mkFiles (delete pid (temproots (files s))) (inodes (files s)) (next_ino (files s))) s.
Definition set_conns (k : gmap nat Conn) (s : State) : State :=
  let v := server s in set_server (mkServer (gen v) (listening v) (serving v) (tempRoots v) (pending v) k) s.
Definition set_pending (h : option bytes) (s : State) : State :=
  let v := server s in set_server (mkServer (gen v) (listening v) (serving v) (tempRoots v) h (conns v)) s.
Definition add_roots (hs : gset bytes) (s : State) : State :=
  let v := server s in set_server (mkServer (gen v) (listening v) (serving v) (hs ∪ tempRoots v) (pending v) (conns v)) s.
Definition goto (pid : nat) (c : Client) (a : At) (s : State) : State := set_client pid (mkClient a (fd c) (registered c)) s.

(** ** System calls *)

(** An exclusive [flock] that does not wait. *)
Definition lock (o : Owner) (ino : nat) (s : State) : option State :=
  f ← inodes (files s) !! ino;
  match holder f with None => Some (set_inode ino (mkTFile (content f) (Some o)) s) | Some _ => None end.
Definition close_file (o : Owner) (ino : nat) (s : State) : State :=
  match inodes (files s) !! ino with
  | Some f => if decide (holder f = Some o) then set_inode ino (mkTFile (content f) None) s else s
  | None => s
  end.
(** [openLockFile(fnTempRoots, true)] *)
Definition open_create (pid : nat) (s : State) : nat * State :=
  let f := files s in
  match temproots f !! pid with
  | Some ino => (ino, s)
  | None => (next_ino f, set_files (mkFiles (<[pid := next_ino f]> (temproots f)) (<[next_ino f := mkTFile [] None]> (inodes f)) (S (next_ino f))) s)
  end.
(** [writeFull(fd, "d")] at the start of the file *)
Definition write_token (ino : nat) (s : State) : State :=
  match inodes (files s) !! ino with Some f => set_inode ino (mkTFile (#"d" ++ drop 1 (content f)) (holder f)) s | None => s end.
Definition append (ino : nat) (b : bytes) (s : State) : State :=
  match inodes (files s) !! ino with Some f => set_inode ino (mkTFile (content f ++ b) (holder f)) s | None => s end.
(** Whether the server has its end of a connection. *)
Definition connected (k : Conn) (s : State) : bool := serving (server s) && (c_gen k =? gen (server s))%nat.

(** ** [addTempRoot] *)

(** A root that was acknowledged by a collection, and another has begun since. *)
Definition overtaken_by (via : option nat) (s : State) : option nat :=
  match via with
  | Some g => if decide (g = gen (server s)) then None else Some (gen (server s))
  | None => None
  end.

(** [n] is how much a call of [write] writes, [ok] whether [unlink] succeeds. *)
Definition client_step (n : nat) (ok : bool) (pid : nat) (s : State) : option State :=
  c ← clients s !! pid;
  match at_ c with
  | Ready => None
  | RemoveFile => Some (goto pid c Ready (if ok then unlink pid s else s))
  | Begin p => Some (goto pid c (match fd c with Some _ => Restart p | None => Loop p end) s)
  | Loop p => Some (goto pid c (match temproots (files s) !! pid with Some _ => UnlinkStale p | None => OpenFile p end) s)
  | UnlinkStale p => Some (goto pid c (OpenFile p) (if ok then unlink pid s else s))
  | OpenFile p =>
      let '(ino, s) := open_create pid s in
      let s := match fd c with Some old => close_file (Process pid) old s | None => s end in
      Some (set_client pid (mkClient (LockIt p) (Some ino) (registered c)) s)
  | LockIt p =>
      ino ← fd c;
      s ← lock (Process pid) ino s;
      Some (goto pid c (Size p) s)
  | Size p =>
      ino ← fd c;
      f ← inodes (files s) !! ino;
      Some (goto pid c (if decide (content f = []) then Restart p else Loop p) s)
  | Restart p =>
      Some (if exclusive s then goto pid c (match conns (server s) !! pid with Some _ => Send p | None => Connect p end) s
            else goto pid c (Write p [] (line p) None) (set_readers ({[pid]} ∪ readers s) s))
  | Connect p =>
      Some (if listening (server s)
            then goto pid c (Send p) (set_conns (<[pid := mkConn (gen (server s)) Quiet]> (conns (server s))) s)
            else goto pid c (Restart p) s)
  | Send p =>
      k ← conns (server s) !! pid;
      Some (if connected k s then goto pid c (Receive p) (set_conns (<[pid := mkConn (c_gen k) (Sent p)]> (conns (server s))) s)
            else goto pid c (Restart p) (set_conns (delete pid (conns (server s))) s))
  | Receive p =>
      k ← conns (server s) !! pid;
      match exchange k with
      | Answered => Some (goto pid c (Write p [] (line p) (Some (c_gen k))) (set_conns (<[pid := mkConn (c_gen k) Quiet]> (conns (server s))) s))
      | _ => if connected k s then None else Some (goto pid c (Restart p) (set_conns (delete pid (conns (server s))) s))
      end
  | Write p written rest via =>
      ino ← fd c;
      let b := take (S n) rest in
      let s := append ino b s in
      Some match drop (S n) rest with
           | [] => set_client pid (mkClient Ready (fd c) (registered c ++ [(p, overtaken_by via s)])) (set_readers (readers s ∖ {[pid]}) s)
           | rest' => goto pid c (Write p (written ++ b) rest' via) s
           end
  end.

(** The thread of the server for a connection: it reads a line, and answers
    when the path is not being deleted. *)
Definition server_handles (pid : nat) (s : State) : option State :=
  k ← conns (server s) !! pid;
  match exchange k with
  | Sent p => if connected k s then Some (add_roots {[hashPart p]} (set_conns (<[pid := mkConn (c_gen k) (Handled p)]> (conns (server s))) s)) else None
  | _ => None
  end.
Definition server_answers (pid : nat) (s : State) : option State :=
  k ← conns (server s) !! pid;
  match exchange k with
  | Handled p =>
      if connected k s && negb (bool_decide (pending (server s) = Some (hashPart p)))
      then Some (set_conns (<[pid := mkConn (c_gen k) Answered]> (conns (server s))) s)
      else None
  | _ => None
  end.

(** ** The collector *)

(** What it does between two reads of the directory ([Yield] is what [readdir]
    returns) and while it deletes: a path is made pending when it is visited
    and again when it is its turn, and nothing else is deleted while it is.
    What the files say is known to the server at once, where [findTempRoots]
    hands it over at its end; nothing is pending before. *)
Inductive Decision := Go | Yield (pid : nat) | SetPending (h : bytes) | ClearPending | Finish.

Definition collector_step (d : Decision) (ok : bool) (s : State) : option State :=
  match phase s, d with
  | Idle, Go => Some (set_phase Acquire s)
  | Acquire, Go =>
      if negb (bool_decide (readers s = ∅)) then None
      else
        let v := server s in
        Some (mkState (files s) (readers s) true (clients s) (mkServer (S (gen v)) false false ∅ None (conns v)) StartServer)
  | StartServer, Go =>
      let v := server s in
      Some (set_phase OpenDir (set_server (mkServer (gen v) true true (tempRoots v) (pending v) (conns v)) s))
  | OpenDir, Go => Some (set_phase (Scan (dom (temproots (files s)))) s)
  | Scan todo, Yield pid => if decide (is_Some (temproots (files s) !! pid)) then Some (set_phase (OpenIt pid todo) s) else None
  | Scan todo, Go => if decide (todo ∩ dom (temproots (files s)) = ∅) then Some (set_phase Deleting s) else None
  | OpenIt pid todo, Go =>
      Some (set_phase (match temproots (files s) !! pid with Some ino => TestFile pid ino todo | None => Scan (todo ∖ {[pid]}) end) s)
  | TestFile pid ino todo, Go =>
      Some match lock Collector ino s with
           | Some s => set_phase (UnlinkFile pid ino todo) s
           | None => set_phase (ReadFile pid ino todo) s
           end
  | UnlinkFile pid ino todo, Go => Some (set_phase (TokenFile ino (todo ∖ {[pid]})) (if ok then unlink pid s else s))
  | TokenFile ino todo, Go => Some (set_phase (Scan todo) (close_file Collector ino (write_token ino s)))
  | ReadFile pid ino todo, Go =>
      f ← inodes (files s) !! ino;
      Some match read_roots (content f) with
           | Ok hs => set_phase (Scan (todo ∖ {[pid]})) (add_roots hs s)
           | Throw _ => set_phase StopListening s
           end
  | Deleting, SetPending h =>
      if bool_decide (h ∈ tempRoots (server s)) then None else Some (set_pending (Some h) s)
  | Deleting, ClearPending => Some (set_pending None s)
  | Deleting, Finish => Some (set_phase StopListening (set_pending None s))
  | StopListening, Go =>
      let v := server s in
      Some (set_phase StopServing (set_server (mkServer (gen v) false (serving v) (tempRoots v) (pending v) (conns v)) s))
  | StopServing, Go =>
      let v := server s in
      Some (set_phase ReleaseLock (set_server (mkServer (gen v) (listening v) false (tempRoots v) (pending v) (conns v)) s))
  | ReleaseLock, Go => Some (mkState (files s) (readers s) false (clients s) (server s) Idle)
  | _, _ => None
  end.

(** ** Events *)

(** The collector and the processes take their turns; processes are started,
    die, call [addTempRoot], and destroy their store, after which they may
    open it again; and the server reads a line of a process that has died. *)

Inductive Event :=
  | Spawn (pid : nat)
  | Die (pid : nat)
  | AddTempRoot (pid : nat) (p : StorePath)
  | Destroy (pid : nat)
  | ClientStep (n : nat) (ok : bool) (pid : nat)
  | ServerHandles (pid : nat)
  | ServerAnswers (pid : nat)
  | LateLine (p : StorePath)
  | CollectorStep (d : Decision) (ok : bool).

Definition event (e : Event) (s : State) : option State :=
  match e with
  | Spawn pid => match clients s !! pid with Some _ => None | None => Some (set_client pid (mkClient Ready None []) s) end
  | Die pid =>
      let f := files s in
      let v := server s in
      Some (mkState (mkFiles (temproots f) ((fun x => if decide (holder x = Some (Process pid)) then mkTFile (content x) None else x) <$> inodes f) (next_ino f))
              (readers s ∖ {[pid]}) (exclusive s) (delete pid (clients s))
              (mkServer (gen v) (listening v) (serving v) (tempRoots v) (pending v) (delete pid (conns v))) (phase s))
  | AddTempRoot pid p => c ← clients s !! pid; match at_ c with Ready => Some (goto pid c (Begin p) s) | _ => None end
  | ClientStep n ok pid => client_step n ok pid s
  | Destroy pid =>
      c ← clients s !! pid;
      match at_ c, fd c with
      | Ready, Some ino =>
          Some (set_client pid (mkClient RemoveFile None []) (close_file (Process pid) ino (set_conns (delete pid (conns (server s))) s)))
      | Ready, None => Some (set_client pid (mkClient Ready None []) (set_conns (delete pid (conns (server s))) s))
      | _, _ => None
      end
  | ServerHandles pid => server_handles pid s
  | ServerAnswers pid => server_answers pid s
  | LateLine p => if serving (server s) then Some (add_roots {[hashPart p]} s) else None
  | CollectorStep d ok => collector_step d ok s
  end.

Fixpoint run (evs : list Event) (s : State) : option State :=
  match evs with [] => Some s | e :: evs => event e s ≫= run evs end.
Definition start : State := mkState (mkFiles ∅ ∅ 0) ∅ false ∅ (mkServer 0 false false ∅ None ∅) Idle.

(** The file of a process is in the directory. *)
Definition linked (s : State) (pid : nat) (c : Client) : Prop := exists ino, fd c = Some ino /\ temproots (files s) !! pid = Some ino.
End temproots.

(** ** Invariant *)

(** A root the collection knows and is not deleting. *)
Definition safe (h : bytes) (s : State) : Prop := h ∈ tempRoots (server s) /\ pending (server s) <> Some h.

Definition root_of (a : At) : option StorePath :=
  match a with
  | Ready | RemoveFile => None
  | Begin p | Loop p | UnlinkStale p | OpenFile p | LockIt p | Size p | Restart p | Connect p | Send p | Receive p | Write p _ _ _ => Some p
  end.
(** Whether the file of the process is the one it will keep, and whether the
    process may have none. *)
Definition settled (a : At) : bool :=
  match a with RemoveFile | Loop _ | UnlinkStale _ | OpenFile _ | LockIt _ | Size _ => false | _ => true end.
Definition fileless (a : At) : bool :=
  match a with Ready | RemoveFile | Begin _ | Loop _ | UnlinkStale _ | OpenFile _ => true | _ => false end.
Definition locked (a : At) : bool := match a with Size _ => true | _ => settled a end.
Definition written_of (a : At) : bytes := match a with Write _ w _ _ => w | _ => [] end.

(** The names the collector has yet to see before it may delete. *)
Definition unseen (ph : Phase) (pid ino : nat) : Prop :=
  match ph with
  | Scan todo | OpenIt _ todo | TokenFile _ todo => pid ∈ todo
  | TestFile q i todo | ReadFile q i todo => pid ∈ todo /\ pid <> q \/ pid = q /\ ino = i
  | UnlinkFile q _ todo => pid ∈ todo /\ pid <> q
  | Deleting => False
  | _ => True
  end.
Definition collector_lock (ph : Phase) : option nat :=
  match ph with UnlinkFile _ ino _ | TokenFile ino _ => Some ino | _ => None end.

Definition via_ok (p : StorePath) (via : option nat) (pid : nat) (s : State) : Prop :=
  match via with
  | None => pid ∈ readers s
  | Some g => g <= gen (server s) /\ (g = gen (server s) -> safe (hashPart p) s)
  end.
Definition exchange_ok (k : Conn) (a : At) (s : State) : Prop :=
  match exchange k with
  | Quiet => True
  | Sent p => a = Receive p
  | Handled p => a = Receive p /\ (c_gen k = gen (server s) -> hashPart p ∈ tempRoots (server s))
  | Answered => exists p, a = Receive p /\ (c_gen k = gen (server s) -> safe (hashPart p) s)
  end.
Definition conn_ok (pid : nat) (k : Conn) (s : State) : Prop :=
  c_gen k <= gen (server s) /\ exists c, clients s !! pid = Some c /\ exchange_ok k (at_ c) s.
Definition seen (pid : nat) (c : Client) (s : State) : Prop :=
  forall p l ino, (p, l) ∈ registered c -> fd c = Some ino -> temproots (files s) !! pid = Some ino ->
  l = Some (gen (server s)) \/ safe (hashPart p) s \/ unseen (phase s) pid ino.

Record files_ok (f : Files) : Prop := {
  fo_links pid ino : temproots f !! pid = Some ino -> is_Some (inodes f !! ino);
  fo_fresh ino : is_Some (inodes f !! ino) -> ino < next_ino f;
}.

Section invariant.
Context (ds : list bytes) (Hds : Forall good ds).
#[local] Set Default Proof Using "All".
Notation line := (line (join_path ds)).
Notation event := (event (join_path ds)).
Notation run := (run (join_path ds)).
Notation client_step := (client_step (join_path ds)).
Notation collector_step := (collector_step (join_path ds)).

Definition records (c : Client) : bytes := concat (line ∘ fst <$> registered c) ++ written_of (at_ c).

Record client_ok (pid : nat) (c : Client) (s : State) : Prop := {
  co_wf p : root_of (at_ c) = Some p \/ p ∈ (registered c).*1 -> wf_StorePath p;
  co_write p w r via : at_ c = Write p w r via -> line p = w ++ r /\ r <> [] /\ via_ok p via pid s;
  co_none : fd c = None -> registered c = [] /\ fileless (at_ c) = true;
  co_removed : at_ c = RemoveFile -> fd c = None;
  co_exists ino : fd c = Some ino -> is_Some (inodes (files s) !! ino);
  co_unsettled : settled (at_ c) = false -> registered c = [];
  co_locked ino f : fd c = Some ino -> locked (at_ c) = true -> inodes (files s) !! ino = Some f -> holder f = Some (Process pid);
  co_content ino f : fd c = Some ino -> settled (at_ c) = true -> inodes (files s) !! ino = Some f -> content f = records c;
}.

Record Inv (s : State) : Prop := {
  inv_files : files_ok (files s);
  inv_readers : exclusive s = true -> readers s = ∅;
  inv_lock : exclusive s = false -> phase s = Idle \/ phase s = Acquire;
  inv_collector ino : collector_lock (phase s) = Some ino -> exists f, inodes (files s) !! ino = Some f /\ holder f = Some Collector;
  inv_pending : phase s <> Deleting -> pending (server s) = None;
  inv_client pid c : clients s !! pid = Some c -> client_ok pid c s;
  inv_seen pid c : clients s !! pid = Some c -> seen pid c s;
  inv_conn pid k : conns (server s) !! pid = Some k -> conn_ok pid k s;
}.

(** What the steps of a process leave alone. *)
Record frame (pid : nat) (s s' : State) : Prop := {
  fr_held ino f o : o <> Process pid -> inodes (files s) !! ino = Some f -> holder f = Some o -> inodes (files s') !! ino = Some f;
  fr_inodes ino : is_Some (inodes (files s) !! ino) -> is_Some (inodes (files s') !! ino);
  fr_links q : q <> pid -> temproots (files s') !! q = temproots (files s) !! q;
  fr_files : files_ok (files s) -> files_ok (files s');
  fr_gen : gen (server s') = gen (server s);
  fr_roots : tempRoots (server s) ⊆ tempRoots (server s');
  fr_pending : pending (server s') = pending (server s);
  fr_phase : phase s' = phase s;
  fr_exclusive : exclusive s' = exclusive s;
  fr_readers q : q <> pid -> q ∈ readers s -> q ∈ readers s';
  fr_quiet : exclusive s = true -> readers s' ⊆ readers s;
  fr_clients q : q <> pid -> clients s' !! q = clients s !! q;
  fr_conns q : q <> pid -> conns (server s') !! q = conns (server s) !! q;
}.

(** What keeps the facts about one process. *)
Record keeps_client (pid : nat) (s s' : State) : Prop := {
  kc_held ino f : inodes (files s) !! ino = Some f -> holder f = Some (Process pid) -> inodes (files s') !! ino = Some f;
  kc_inodes ino : is_Some (inodes (files s) !! ino) -> is_Some (inodes (files s') !! ino);
  kc_readers : pid ∈ readers s -> pid ∈ readers s';
  kc_gen : gen (server s) <= gen (server s');
  kc_roots : gen (server s') = gen (server s) -> tempRoots (server s) ⊆ tempRoots (server s');
  kc_safe h : gen (server s') = gen (server s) -> safe h s -> safe h s';
}.

Lemma settled_locked a : settled a = true -> locked a = true.
Proof. by destruct a. Qed.

Lemma client_ok_kept pid c s s' : keeps_client pid s s' -> client_ok pid c s -> client_ok pid c s'.
Proof.
  intros K []. split; try done.
  - intros p w r via Ha. destruct (co_write0 _ _ _ _ Ha) as (H1 & H2 & Hv). split_and!; try done. destruct via as [g|]; simpl in *.
    + destruct Hv as [Hg Hs]. pose proof (kc_gen _ _ _ K). split; [lia|]. intros ->.
      assert (gen (server s') = gen (server s)) as E by lia. apply (kc_safe _ _ _ K); [done|]. by apply Hs.
    + by apply (kc_readers _ _ _ K).
  - intros ino Hf. apply (kc_inodes _ _ _ K). by apply co_exists0.
  - intros ino f Hf Hl Hi. destruct (co_exists0 _ Hf) as [f0 Hf0]. pose proof (co_locked0 _ _ Hf Hl Hf0) as Hh.
    rewrite (kc_held _ _ _ K _ _ Hf0 Hh) in Hi. by injection Hi as <-.
  - intros ino f Hf Hl Hi. destruct (co_exists0 _ Hf) as [f0 Hf0]. pose proof (co_locked0 _ _ Hf (settled_locked _ Hl) Hf0) as Hh.
    rewrite (kc_held _ _ _ K _ _ Hf0 Hh) in Hi. injection Hi as <-. by eapply co_content0.
Qed.

Lemma conn_ok_kept pid k s s' : keeps_client pid s s' -> clients s' !! pid = clients s !! pid -> conn_ok pid k s -> conn_ok pid k s'.
Proof.
  intros K Hc [Hg (c & Hp & He)]. pose proof (kc_gen _ _ _ K). split; [lia|]. exists c. rewrite Hc. split; [done|].
  unfold exchange_ok in *. destruct (exchange k) as [|p|p|]; [done|done| |].
  - destruct He as [-> He]. split; [done|]. intros E. apply (kc_roots _ _ _ K); [lia|]. apply He. lia.
  - destruct He as (p & -> & He). exists p. split; [done|]. intros E. apply (kc_safe _ _ _ K); [lia|]. apply He. lia.
Qed.

Lemma frame_keeps pid s s' q : frame pid s s' -> q <> pid -> keeps_client q s s'.
Proof.
  intros [] Hq. split; eauto; [|lia|].
  - intros ino f Hi Hh. eapply fr_held0; [|done..]. congruence.
  - intros h _ [Hi Hp]. split; [set_solver|congruence].
Qed.

Lemma Inv_frame pid s s' : frame pid s s' -> Inv s ->
  (forall c, clients s' !! pid = Some c -> client_ok pid c s' /\ seen pid c s') ->
  (forall k, conns (server s') !! pid = Some k -> conn_ok pid k s') -> Inv s'.
Proof.
  intros F [] Hc Hk. pose proof (frame_keeps pid s s') as FK. split.
  - by apply (fr_files _ _ _ F).
  - rewrite (fr_exclusive _ _ _ F). intros E. pose proof (fr_quiet _ _ _ F E). set_solver.
  - by rewrite (fr_exclusive _ _ _ F), (fr_phase _ _ _ F).
  - rewrite (fr_phase _ _ _ F). intros ino Hi. destruct (inv_collector0 _ Hi) as (f & Hf & Hh). exists f. split; [|done].
    by eapply (fr_held _ _ _ F); [|done..].
  - by rewrite (fr_phase _ _ _ F), (fr_pending _ _ _ F).
  - intros q c Hq. destruct (decide (q = pid)) as [->|Hne]; [by apply Hc|].
    rewrite (fr_clients _ _ _ F) in Hq by done. eapply client_ok_kept; [by apply FK|]. by apply inv_client0.
  - intros q c Hq. destruct (decide (q = pid)) as [->|Hne]; [by apply Hc|].
    rewrite (fr_clients _ _ _ F) in Hq by done. intros p l ino Hr Hf Hl. rewrite (fr_links _ _ _ F) in Hl by done.
    rewrite (fr_gen _ _ _ F), (fr_phase _ _ _ F). destruct (inv_seen0 _ _ Hq _ _ _ Hr Hf Hl) as [?|[Hs|?]]; [by left| |by auto].
    right. left. apply (kc_safe _ _ _ (FK q F Hne)); [apply (fr_gen _ _ _ F)|done].
  - intros q k Hq. destruct (decide (q = pid)) as [->|Hne]; [by apply Hk|].
    rewrite (fr_conns _ _ _ F) in Hq by done. eapply conn_ok_kept; [by apply FK|by apply (fr_clients _ _ _ F)|by apply inv_conn0].
Qed.
(** ** What the calls leave alone *)

Lemma frame_refl pid s : frame pid s s.
Proof. by split. Qed.
Lemma frame_trans pid s1 s2 s3 : frame pid s1 s2 -> frame pid s2 s3 -> frame pid s1 s3.
Proof.
  intros F G. split.
  - intros ino f o Ho Hi Hh. eapply (fr_held _ _ _ G); [done| |done]. by eapply (fr_held _ _ _ F).
  - intros ino Hi. by apply (fr_inodes _ _ _ G), (fr_inodes _ _ _ F).
  - intros q Hq. by rewrite (fr_links _ _ _ G), (fr_links _ _ _ F).
  - intros Hf. by apply (fr_files _ _ _ G), (fr_files _ _ _ F).
  - by rewrite (fr_gen _ _ _ G), (fr_gen _ _ _ F).
  - etrans; [apply (fr_roots _ _ _ F)|apply (fr_roots _ _ _ G)].
  - by rewrite (fr_pending _ _ _ G), (fr_pending _ _ _ F).
  - by rewrite (fr_phase _ _ _ G), (fr_phase _ _ _ F).
  - by rewrite (fr_exclusive _ _ _ G), (fr_exclusive _ _ _ F).
  - intros q Hq Hr. by apply (fr_readers _ _ _ G), (fr_readers _ _ _ F).
  - intros E. etrans; [apply (fr_quiet _ _ _ G); by rewrite (fr_exclusive _ _ _ F)|by apply (fr_quiet _ _ _ F)].
  - intros q Hq. by rewrite (fr_clients _ _ _ G), (fr_clients _ _ _ F).
  - intros q Hq. by rewrite (fr_conns _ _ _ G), (fr_conns _ _ _ F).
Qed.

Lemma frame_client pid c s : frame pid s (set_client pid c s).
Proof. split; try done. intros q Hq. cbn. by rewrite lookup_insert_ne. Qed.
Lemma frame_goto pid c a s s' : frame pid s s' -> frame pid s (goto pid c a s').
Proof. intros F. eapply frame_trans; [exact F|apply frame_client]. Qed.
Lemma frame_unlink pid s : frame pid s (unlink pid s).
Proof.
  split; try done.
  - intros q Hq. cbn. by rewrite lookup_delete_ne.
  - intros [Hl Hf]. split; cbn in *; [|done]. intros q ino H. apply lookup_delete_Some in H as [_ H]. eauto.
Qed.
Lemma frame_conns pid k s : (forall q, q <> pid -> k !! q = conns (server s) !! q) -> frame pid s (set_conns k s).
Proof. by split. Qed.
Lemma frame_conn pid k s : frame pid s (set_conns (<[pid := k]> (conns (server s))) s).
Proof. apply frame_conns. intros q Hq. by rewrite lookup_insert_ne. Qed.
Lemma frame_disconnect pid s : frame pid s (set_conns (delete pid (conns (server s))) s).
Proof. apply frame_conns. intros q Hq. by rewrite lookup_delete_ne. Qed.
Lemma frame_roots pid hs s : frame pid s (add_roots hs s).
Proof. split; try done. cbn. set_solver. Qed.

(** Writing to a file that nobody else has locked. *)
Lemma frame_inode pid ino f f' s :
  inodes (files s) !! ino = Some f -> (holder f = None \/ holder f = Some (Process pid)) -> frame pid s (set_inode ino f' s).
Proof.
  intros Hi Hh. split; try done; cbn.
  - intros i g o Ho Hg Hgo. rewrite lookup_insert_ne; [done|]. intros ->. rewrite Hi in Hg. injection Hg as <-. destruct Hh; congruence.
  - intros i Hs. destruct (decide (i = ino)) as [->|]; [rewrite lookup_insert_eq|rewrite lookup_insert_ne]; eauto.
  - intros [Hl Hf]. split; cbn in *.
    + intros q i H. destruct (decide (i = ino)) as [->|]; [rewrite lookup_insert_eq|rewrite lookup_insert_ne]; eauto.
    + intros i H. destruct (decide (i = ino)) as [->|]; [apply Hf; eauto|]. rewrite lookup_insert_ne in H by done. eauto.
Qed.

Lemma frame_close pid ino s : frame pid s (close_file (Process pid) ino s).
Proof.
  unfold close_file. destruct (inodes (files s) !! ino) as [f|] eqn:E; [|apply frame_refl].
  case_decide; [|apply frame_refl]. eapply frame_inode; eauto.
Qed.
Lemma frame_lock pid ino s s' : lock (Process pid) ino s = Some s' -> frame pid s s'.
Proof.
  unfold lock. intros H. apply bind_Some in H as (f & Hi & H). destruct (holder f) eqn:E; [done|]. injection H as <-.
  eapply frame_inode; eauto.
Qed.
Lemma frame_append pid ino f b s : inodes (files s) !! ino = Some f -> holder f = Some (Process pid) -> frame pid s (append ino b s).
Proof. intros Hi Hh. unfold append. rewrite Hi. eapply frame_inode; eauto. Qed.
Lemma frame_open pid s : files_ok (files s) -> frame pid s (open_create pid s).2.
Proof.
  intros Hok. unfold open_create. destruct (temproots (files s) !! pid) eqn:E; [apply frame_refl|]. pose proof (fo_fresh _ Hok) as Hf.
  assert (forall i g, inodes (files s) !! i = Some g -> i <> next_ino (files s)) as Hne.
  { intros i g H. specialize (Hf i (mk_is_Some _ _ H)). lia. }
  split; try done; cbn.
  - intros i g o _ Hg _. rewrite lookup_insert_ne; [done|]. symmetry. by eapply Hne.
  - intros i [g Hg]. rewrite lookup_insert_ne; [eauto|]. symmetry. by eapply Hne.
  - intros q Hq. by rewrite lookup_insert_ne.
  - intros [Hl _]. split; cbn in *.
    + intros q i H. destruct (decide (i = next_ino (files s))) as [->|]; [rewrite lookup_insert_eq; eauto|rewrite lookup_insert_ne by done].
      apply lookup_insert_Some in H as [[_ H]|[_ H]]; [congruence|eauto].
    + intros i H. destruct (decide (i = next_ino (files s))) as [->|]; [lia|]. rewrite lookup_insert_ne in H by done. specialize (Hf _ H). lia.
Qed.
Lemma frame_readers pid r s :
  (forall q, q <> pid -> q ∈ readers s -> q ∈ r) -> (exclusive s = true -> r ⊆ readers s) -> frame pid s (set_readers r s).
Proof. by split. Qed.

Lemma close_inode o ino s i g : inodes (files (close_file o ino s)) !! i = Some g -> exists g', inodes (files s) !! i = Some g'.
Proof.
  unfold close_file. destruct (inodes (files s) !! ino) as [f|] eqn:E; [|eauto]. case_decide; [|eauto]. cbn.
  destruct (decide (i = ino)) as [->|]; [eauto|]. rewrite lookup_insert_ne by done. eauto.
Qed.
(** ** Steps of a process *)

Lemma Inv_quiet pid c k s : Inv s -> clients s !! pid = Some c -> (forall p, at_ c <> Receive p) ->
  conns (server s) !! pid = Some k -> c_gen k <= gen (server s) /\ exchange k = Quiet.
Proof.
  intros HI Hc Ha Hk. destruct (inv_conn _ HI _ _ Hk) as [Hg (c' & Hc' & He)]. split; [done|].
  rewrite Hc in Hc'. injection Hc' as <-. unfold exchange_ok in He. destruct (exchange k); [done|..].
  - by apply Ha in He.
  - by destruct He as [He%Ha _].
  - by destruct He as (? & He%Ha & _).
Qed.

Lemma frame_safe pid s s' h : frame pid s s' -> safe h s -> safe h s'.
Proof. intros F [Hi Hp]. split; [by apply (fr_roots _ _ _ F)|by rewrite (fr_pending _ _ _ F)]. Qed.

Lemma seen_frame pid c c' s s' :
  frame pid s s' -> fd c' = fd c -> registered c' = registered c ->
  (forall ino, temproots (files s') !! pid = Some ino -> temproots (files s) !! pid = Some ino) -> seen pid c s -> seen pid c' s'.
Proof.
  intros F Hf Hr Hl Hs p l ino. rewrite Hf, Hr. intros H1 H2 H3. rewrite (fr_gen _ _ _ F), (fr_phase _ _ _ F).
  destruct (Hs _ _ _ H1 H2 (Hl _ H3)) as [?|[?|?]]; [auto|right; left|auto]. by eapply frame_safe.
Qed.

(** A step within a call, with the same file. *)
Lemma Inv_move pid c a s s1 :
  Inv s -> clients s !! pid = Some c -> frame pid s s1 -> inodes (files s1) = inodes (files s) ->
  (forall ino, temproots (files s1) !! pid = Some ino -> temproots (files s) !! pid = Some ino) ->
  (forall p, root_of a = Some p -> root_of (at_ c) = Some p) ->
  (forall p w r via, a = Write p w r via -> line p = w ++ r /\ r <> [] /\ via_ok p via pid s1) ->
  (fd c = None -> fileless a = true) ->
  (settled a = false -> registered c = []) ->
  (a = RemoveFile -> fd c = None) ->
  (forall ino, fd c = Some ino -> locked a = true -> locked (at_ c) = true) ->
  (forall ino f, fd c = Some ino -> settled a = true -> inodes (files s) !! ino = Some f -> content f = concat (line ∘ fst <$> registered c) ++ written_of a) ->
  (forall k, conns (server s1) !! pid = Some k -> c_gen k <= gen (server s1) /\ exchange_ok k a s1) ->
  Inv (goto pid c a s1).
Proof.
  intros HI Hc F Hi Hl Hroot Hw Hn Hu Hd Hk Hco Hx. pose proof (inv_client _ HI _ _ Hc) as [].
  apply (Inv_frame pid s); [by apply frame_goto|done|..].
  - intros c'. cbn. rewrite lookup_insert_eq. intros [= <-]. split.
    + split; cbn.
      * intros p [Hp|Hp]; apply co_wf0; auto.
      * done.
      * intros E. destruct (co_none0 E). auto.
      * done.
      * rewrite Hi. done.
      * done.
      * rewrite Hi. eauto.
      * rewrite Hi. done.
    + eapply (seen_frame pid c); [by apply frame_goto|done|done|done|by apply (inv_seen _ HI)].
  - intros k Hk'. destruct (Hx _ Hk') as [Hg He]. split; [done|]. eexists. cbn. by rewrite lookup_insert_eq.
Qed.

(** ... that does not touch the connection, in a state where it is quiet. *)
Lemma quiet_conns pid c a s s1 :
  Inv s -> clients s !! pid = Some c -> (forall p, at_ c <> Receive p) -> server s1 = server s ->
  forall k, conns (server s1) !! pid = Some k -> c_gen k <= gen (server s1) /\ exchange_ok k a s1.
Proof. intros HI Hc Ha ->. intros k Hk. destruct (Inv_quiet _ _ _ _ HI Hc Ha Hk) as [Hg He]. split; [done|]. unfold exchange_ok. by rewrite He. Qed.

Lemma line_nonempty p : line p <> [].
Proof. unfold TempRoots.line. by destruct (printStorePath _ p). Qed.

Ltac move_own HI Hc Ea :=
  pose proof (co_none _ _ _ (inv_client _ HI _ _ Hc)) as Hnone; pose proof (co_unsettled _ _ _ (inv_client _ HI _ _ Hc)) as Huns;
  pose proof (co_content _ _ _ (inv_client _ HI _ _ Hc)) as Hcont; unfold records in Hcont; rewrite Ea in Hnone, Huns, Hcont; cbn in Hnone, Huns, Hcont.

(** The branches of [client_step] that go from one place to another. *)
Ltac moves HI Hc Ea F :=
  eapply Inv_move; [exact HI|exact Hc|apply F|try done|try done|rewrite ?Ea; try done|try done|try done|try done|try done|rewrite ?Ea; try done|try done|
    try (apply (quiet_conns _ _ _ _ _ HI Hc); [by rewrite Ea|done])].

Lemma client_step_moves n ok pid s s' c :
  Inv s -> clients s !! pid = Some c -> client_step n ok pid s = Some s' ->
  match at_ c with OpenFile _ | LockIt _ | Write _ _ _ _ => True | _ => Inv s' end.
Proof.
  intros HI Hc H. unfold TempRoots.client_step in H. rewrite Hc in H. cbn [mbind option_bind] in H.
  destruct (at_ c) as [| |p|p|p|p|p|p|p|p|p|p|p w r via] eqn:Ea; try done; move_own HI Hc Ea.
  - (* RemoveFile *) injection H as <-. pose proof (co_removed _ _ _ (inv_client _ HI _ _ Hc) Ea) as Hrem.
    destruct ok; [moves HI Hc Ea frame_unlink|moves HI Hc Ea frame_refl]; try (intros i; rewrite Hrem; done).
    cbn. by setoid_rewrite lookup_delete_eq.
  - (* Begin *) injection H as <-. destruct (fd c) eqn:Ef; moves HI Hc Ea frame_refl; rewrite ?Ef; eauto; try done; by intros _; apply Hnone.
  - (* Loop *) injection H as <-. destruct (temproots (files s) !! pid) eqn:Et; moves HI Hc Ea frame_refl.
  - (* UnlinkStale *) injection H as <-. destruct ok; [moves HI Hc Ea frame_unlink|moves HI Hc Ea frame_refl].
    cbn. by setoid_rewrite lookup_delete_eq.
  - (* Size *) apply bind_Some in H as (ino & Hf & H). apply bind_Some in H as (f & Hi & H). injection H as <-. case_decide as He.
    + moves HI Hc Ea frame_refl; [by rewrite Hf|]. intros i g Hf' _ Hg. rewrite Hf in Hf'. injection Hf' as <-.
      rewrite Hi in Hg. injection Hg as <-. by rewrite He, Huns.
    + moves HI Hc Ea frame_refl; by rewrite Hf.
  - (* Restart *) injection H as <-. destruct (exclusive s) eqn:Ex.
    + destruct (conns (server s) !! pid); moves HI Hc Ea frame_refl; intros E; by apply Hnone.
    + assert (frame pid s (set_readers ({[pid]} ∪ readers s) s)) as F by (apply frame_readers; [set_solver|congruence]).
      moves HI Hc Ea F; [|by intros E; apply Hnone]. intros q w r via [= <- <- <- <-]. split; [done|]. split; [apply line_nonempty|]. cbn. set_solver.
  - (* Connect *) injection H as <-. destruct (listening (server s)).
    + moves HI Hc Ea frame_conn; [by intros E; apply Hnone|]. cbn. rewrite lookup_insert_eq. by intros k [= <-].
    + moves HI Hc Ea frame_refl. intros E; by apply Hnone.
  - (* Send *) apply bind_Some in H as (k & Hk & H). injection H as <-. destruct (Inv_quiet _ _ _ _ HI Hc ltac:(by rewrite Ea) Hk) as [Hg He].
    destruct (connected k s).
    + moves HI Hc Ea frame_conn; [by intros E; apply Hnone|]. cbn. rewrite lookup_insert_eq. by intros k' [= <-].
    + moves HI Hc Ea frame_disconnect; [by intros E; apply Hnone|]. cbn. rewrite lookup_delete_eq. done.
  - (* Receive *) apply bind_Some in H as (k & Hk & H). destruct (inv_conn _ HI _ _ Hk) as [Hg (c' & Hc' & He)].
    rewrite Hc in Hc'. injection Hc' as <-. unfold exchange_ok in He. rewrite Ea in He. destruct (exchange k) as [|q|q|].
    4: { injection H as <-. destruct He as (q & [= <-] & He). moves HI Hc Ea frame_conn; [|by intros E; apply Hnone|].
         - intros q w r via [= <- <- <- <-]. split; [done|]. split; [apply line_nonempty|]. done.
         - cbn. rewrite lookup_insert_eq. by intros k' [= <-]. }
    all: destruct (connected k s); [done|]; injection H as <-; moves HI Hc Ea frame_disconnect; [by intros E; apply Hnone|].
    all: cbn; rewrite lookup_delete_eq; done.
Qed.
Lemma quiet_conn_ok pid c c' s s' :
  Inv s -> clients s !! pid = Some c -> (forall p, at_ c <> Receive p) -> server s' = server s -> clients s' !! pid = Some c' ->
  forall k, conns (server s') !! pid = Some k -> conn_ok pid k s'.
Proof.
  intros HI Hc Ha Es Hc' k Hk. destruct (quiet_conns _ _ (at_ c') _ _ HI Hc Ha Es _ Hk) as [Hg He].
  split; [done|]. by exists c'.
Qed.

Lemma open_exists pid s ino s' : files_ok (files s) -> open_create pid s = (ino, s') -> is_Some (inodes (files s') !! ino).
Proof.
  intros Hok. unfold open_create. destruct (temproots (files s) !! pid) as [i|] eqn:E; intros [= <- <-].
  - by apply (fo_links _ Hok _ _ E).
  - cbn. rewrite lookup_insert_eq. eauto.
Qed.
Lemma open_same pid s ino s' : open_create pid s = (ino, s') -> server s' = server s.
Proof. unfold open_create. by destruct (temproots (files s) !! pid); intros [= <- <-]. Qed.
Lemma close_same o ino s : server (close_file o ino s) = server s.
Proof. unfold close_file. destruct (inodes (files s) !! ino); [|done]. by case_decide. Qed.

Lemma OpenFile_Inv n ok pid s s' c p :
  Inv s -> clients s !! pid = Some c -> at_ c = OpenFile p -> client_step n ok pid s = Some s' -> Inv s'.
Proof.
  intros HI Hc Ea H. unfold TempRoots.client_step in H. rewrite Hc in H. cbn [mbind option_bind] in H. rewrite Ea in H.
  move_own HI Hc Ea. destruct (open_create pid s) as [ino s1] eqn:Eo. injection H as <-.
  pose proof (frame_open pid s (inv_files _ HI)) as F1. rewrite Eo in F1. cbn in F1.
  pose proof (open_exists _ _ _ _ (inv_files _ HI) Eo) as He.
  set (s2 := match fd c with Some old => close_file (Process pid) old s1 | None => s1 end).
  assert (frame pid s1 s2 /\ server s2 = server s1) as [F2 Es2].
  { subst s2. destruct (fd c); [split; [apply frame_close|apply close_same]|split; [apply frame_refl|done]]. }
  assert (frame pid s s2) as F by (eapply frame_trans; eassumption).
  apply (Inv_frame pid s); [eapply frame_trans; [exact F|apply frame_client]|done|..].
  - intros c'. cbn. rewrite lookup_insert_eq. intros [= <-]. rewrite Huns by done. split; [split; cbn; try done|intros ? ? ? Hn; by apply elem_of_nil in Hn].
    + intros q [[= <-]|Hq]; [|by apply elem_of_nil in Hq]. apply (co_wf _ _ _ (inv_client _ HI _ _ Hc)). left. by rewrite Ea.
    + intros i [= <-]. by apply (fr_inodes _ _ _ F2).
  - eapply (quiet_conn_ok pid c); [done|done|by rewrite Ea|cbn; by rewrite Es2, (open_same _ _ _ _ Eo)|by apply lookup_insert_eq].
Qed.

Lemma LockIt_Inv n ok pid s s' c p :
  Inv s -> clients s !! pid = Some c -> at_ c = LockIt p -> client_step n ok pid s = Some s' -> Inv s'.
Proof.
  intros HI Hc Ea H. unfold TempRoots.client_step in H. rewrite Hc in H. cbn [mbind option_bind] in H. rewrite Ea in H.
  move_own HI Hc Ea. apply bind_Some in H as (ino & Hf & H). apply bind_Some in H as (s1 & Hl & H). injection H as <-.
  pose proof (frame_lock _ _ _ _ Hl) as F. unfold lock in Hl. apply bind_Some in Hl as (f & Hi & Hl). destruct (holder f); [done|].
  injection Hl as Es. pose proof (inv_client _ HI _ _ Hc) as HC.
  apply (Inv_frame pid s); [by apply frame_goto|done|..].
  - intros c'. cbn. rewrite lookup_insert_eq. intros [= <-]. split; [split; cbn; try done|].
    + intros q [[= <-]|Hq]; apply (co_wf _ _ _ HC); [left; by rewrite Ea|by right].
    + intros i Hi'. apply (fr_inodes _ _ _ F). by apply (co_exists _ _ _ HC).
    + intros i g Hi' _. rewrite Hf in Hi'. injection Hi' as <-. rewrite <- Es. cbn. rewrite lookup_insert_eq. by intros [= <-].
    + intros q l i. cbn. rewrite Huns by done. intros Hn. by apply elem_of_nil in Hn.
  - eapply (quiet_conn_ok pid c); [done|done|by rewrite Ea|by rewrite <- Es|by apply lookup_insert_eq].
Qed.

(** A process that has written [b] to its file. *)
Lemma written_ok pid c c' s s' ino f b :
  client_ok pid c s -> fd c = Some ino -> settled (at_ c) = true -> inodes (files s) !! ino = Some f ->
  fd c' = Some ino -> settled (at_ c') = true -> inodes (files s') !! ino = Some (mkTFile (content f ++ b) (holder f)) ->
  records c' = records c ++ b ->
  (forall p, root_of (at_ c') = Some p \/ p ∈ (registered c').*1 -> root_of (at_ c) = Some p \/ p ∈ (registered c).*1) ->
  (forall p w r via, at_ c' = Write p w r via -> line p = w ++ r /\ r <> [] /\ via_ok p via pid s') -> client_ok pid c' s'.
Proof.
  intros HC Hf Hs Hi Hf' Hs' Hi' Hrec Hroot Hw. split; try done.
  - intros p Hp. by apply (co_wf _ _ _ HC), Hroot.
  - congruence.
  - intros E. by rewrite E in Hs'.
  - intros i E. rewrite Hf' in E. injection E as <-. eauto.
  - congruence.
  - intros i g E _ Hg. rewrite Hf' in E. injection E as <-. rewrite Hi' in Hg. injection Hg as <-.
    exact (co_locked _ _ _ HC _ _ Hf (settled_locked _ Hs) Hi).
  - intros i g E _ Hg. rewrite Hf' in E. injection E as <-. rewrite Hi' in Hg. injection Hg as <-.
    cbn. by rewrite (co_content _ _ _ HC _ _ Hf Hs Hi), Hrec.
Qed.

Lemma append_same ino b s :
  server (append ino b s) = server s /\ readers (append ino b s) = readers s /\ temproots (files (append ino b s)) = temproots (files s).
Proof. unfold append. by destruct (inodes (files s) !! ino). Qed.

(** A root is registered with what protects it from the collection. *)
Lemma registered_seen pid c p w r via s s1 :
  Inv s -> frame pid s s1 -> clients s !! pid = Some c -> at_ c = Write p w r via ->
  server s1 = server s -> temproots (files s1) = temproots (files s) ->
  seen pid (mkClient Ready (fd c) (registered c ++ [(p, overtaken_by via s1)])) s1.
Proof.
  intros HI F Hc Ea Esv Etr q l i. cbn. rewrite Etr, Esv. intros Hq Hfi Ht. rewrite (fr_phase _ _ _ F). apply elem_of_app in Hq as [Hq|Hq].
  { destruct (inv_seen _ HI _ _ Hc _ _ _ Hq Hfi Ht) as [?|[?|?]]; [by left| |by right; right]. right. left. by eapply frame_safe. }
  apply list_elem_of_singleton in Hq as [= -> ->]. destruct (co_write _ _ _ (inv_client _ HI _ _ Hc) _ _ _ _ Ea) as (_ & _ & Hvia).
  destruct via as [g|]; cbn in Hvia.
  - cbn. rewrite Esv. case_decide as Eg; [|by left]. right. left. by eapply frame_safe, Hvia.
  - right. right. destruct (exclusive s) eqn:Ex; [pose proof (inv_readers _ HI Ex); set_solver|].
    by destruct (inv_lock _ HI Ex) as [->| ->].
Qed.

Lemma Write_Inv n ok pid s s' c p w r via :
  Inv s -> clients s !! pid = Some c -> at_ c = Write p w r via -> client_step n ok pid s = Some s' -> Inv s'.
Proof.
  intros HI Hc Ea H. unfold TempRoots.client_step in H. rewrite Hc in H. cbn [mbind option_bind] in H. rewrite Ea in H.
  apply bind_Some in H as (ino & Hf & H). injection H as H. pose proof (inv_client _ HI _ _ Hc) as HC.
  assert (settled (at_ c) = true) as Hs by (by rewrite Ea).
  destruct (co_exists _ _ _ HC _ Hf) as [f Hi]. pose proof (co_locked _ _ _ HC _ _ Hf (settled_locked _ Hs) Hi) as Hh.
  destruct (co_write _ _ _ HC _ _ _ _ Ea) as (Hline & _ & Hvia). pose proof (take_drop (S n) r) as Hr.
  assert (records c = concat (line ∘ fst <$> registered c) ++ w) as Hrec by (unfold records; by rewrite Ea).
  set (b := take (S n) r) in *. pose proof (frame_append pid ino f b s Hi Hh) as F.
  assert (inodes (files (append ino b s)) !! ino = Some (mkTFile (content f ++ b) (holder f))) as Hi'.
  { unfold append. rewrite Hi. cbn. by rewrite lookup_insert_eq. }
  destruct (append_same ino b s) as (Esv & Erd & Etr). set (s1 := append ino b s) in *. clearbody s1.
  destruct (drop (S n) r) as [|x r'] eqn:Ed; subst s'.
  - rewrite app_nil_r in Hr. apply (Inv_frame pid s); [|done| |].
    + eapply frame_trans; [eapply frame_trans; [exact F|apply (frame_readers pid (readers s1 ∖ {[pid]}))]|apply frame_client]; set_solver.
    + intros c'. cbn. rewrite lookup_insert_eq. intros [= <-]. split; [|exact (registered_seen _ _ _ _ _ _ _ _ HI F Hc Ea Esv Etr)].
      eapply (written_ok pid c _ s); try done; cbn.
      * rewrite Hrec. unfold records. cbn. by rewrite fmap_app, concat_app, app_nil_r, <- app_assoc, Hr, <- Hline, <- (app_nil_r (line p)).
      * intros q [?|Hq]; [done|]. rewrite fmap_app in Hq. apply elem_of_app in Hq as [Hq|Hq%list_elem_of_singleton]; [by right|left]. by rewrite Ea, Hq.
    + eapply (quiet_conn_ok pid c); [done|done|by rewrite Ea|done|by apply lookup_insert_eq].
  - apply (Inv_frame pid s); [by apply frame_goto|done|..].
    + intros c'. cbn. rewrite lookup_insert_eq. intros [= <-]. split.
      * eapply (written_ok pid c _ s); try done; cbn.
        { rewrite Hrec. unfold records. cbn. by rewrite app_assoc. }
        { by rewrite Ea. }
        intros q w0 r0 v [= <- <- <- <-]. rewrite Hline, <- Hr. split; [by rewrite app_assoc|]. split; [done|].
        destruct via as [g|]; cbn in *; [rewrite Esv|by rewrite Erd]. destruct Hvia as [? Hsf]. split; [done|].
        intros Eg. apply (frame_safe pid s); [by apply frame_goto|by apply Hsf].
      * eapply (seen_frame pid c); [by apply frame_goto|done|done|cbn; by rewrite Etr|by apply (inv_seen _ HI)].
    + eapply (quiet_conn_ok pid c); [done|done|by rewrite Ea|done|by apply lookup_insert_eq].
Qed.

Lemma client_step_Inv n ok pid s s' : Inv s -> client_step n ok pid s = Some s' -> Inv s'.
Proof.
  intros HI H. destruct (clients s !! pid) as [c|] eqn:Hc; [|by unfold TempRoots.client_step in H; rewrite Hc in H].
  pose proof (client_step_moves _ _ _ _ _ _ HI Hc H) as Hm.
  destruct (at_ c) eqn:Ea; try exact Hm; [eapply OpenFile_Inv|eapply LockIt_Inv|eapply Write_Inv]; eauto.
Qed.

(** ** Processes start, call, and end; the server *)

(** A process that has no file. *)
Lemma Inv_fresh pid a s s' :
  Inv s -> frame pid s s' -> clients s' !! pid = Some (mkClient a None []) -> a = Ready \/ a = RemoveFile ->
  conns (server s') !! pid = None -> Inv s'.
Proof.
  intros HI F Hc Ha Hk. apply (Inv_frame pid s); [done|done|..].
  - rewrite Hc. intros c [= <-]. split; [split; cbn; try done|].
    + intros p [Hp|Hp]; [by destruct Ha as [->| ->]|by apply elem_of_nil in Hp].
    + intros p w r via ->. by destruct Ha.
    + intros _. split; [done|]. by destruct Ha as [->| ->].
    + intros p l ino Hp. by apply elem_of_nil in Hp.
  - by rewrite Hk.
Qed.

Lemma Spawn_Inv pid s s' : Inv s -> event (Spawn pid) s = Some s' -> Inv s'.
Proof.
  intros HI H. cbn in H. destruct (clients s !! pid) eqn:Hc; [done|]. injection H as <-.
  eapply Inv_fresh; [exact HI|apply frame_client|cbn; apply lookup_insert_eq|by left|]. cbn.
  destruct (conns (server s) !! pid) eqn:Hk; [|done]. destruct (inv_conn _ HI _ _ Hk) as [_ (c' & Hc' & _)]. congruence.
Qed.

Lemma Die_Inv pid s s' : Inv s -> event (Die pid) s = Some s' -> Inv s'.
Proof.
  intros HI H. cbn in H. injection H as <-. eapply (Inv_frame pid s); [|done|cbn; by rewrite lookup_delete_eq|cbn; by rewrite lookup_delete_eq].
  split; try done; cbn.
  - intros ino f o Ho Hi Hh. rewrite lookup_fmap, Hi. cbn. rewrite decide_False; [done|]. congruence.
  - intros ino Hi. rewrite lookup_fmap. by apply fmap_is_Some.
  - intros [Hl Hf]. split; cbn.
    + intros q ino H. rewrite lookup_fmap. apply fmap_is_Some. eauto.
    + intros ino H. rewrite lookup_fmap in H. apply fmap_is_Some in H. eauto.
  - set_solver.
  - set_solver.
  - intros q Hq. by rewrite lookup_delete_ne.
  - intros q Hq. by rewrite lookup_delete_ne.
Qed.

Lemma Destroy_Inv pid s s' : Inv s -> event (Destroy pid) s = Some s' -> Inv s'.
Proof.
  intros HI H. cbn in H. apply bind_Some in H as (c & Hc & H). destruct (at_ c); try done. destruct (fd c) as [ino|]; injection H as <-.
  - eapply Inv_fresh; [exact HI| |cbn; apply lookup_insert_eq|by right|cbn; rewrite close_same; apply lookup_delete_eq].
    eapply frame_trans; [|apply frame_client]. eapply frame_trans; [apply frame_disconnect|apply frame_close].
  - eapply Inv_fresh; [exact HI| |cbn; apply lookup_insert_eq|by left|cbn; apply lookup_delete_eq].
    eapply frame_trans; [apply frame_disconnect|apply frame_client].
Qed.

Lemma AddTempRoot_Inv pid p s s' : wf_StorePath p -> Inv s -> event (AddTempRoot pid p) s = Some s' -> Inv s'.
Proof.
  intros Hp HI H. cbn in H. apply bind_Some in H as (c & Hc & H). destruct (at_ c) eqn:Ea; try done. injection H as <-.
  pose proof (inv_client _ HI _ _ Hc) as HC. move_own HI Hc Ea.
  apply (Inv_frame pid s); [apply frame_goto, frame_refl|done|..].
  - intros c'. cbn. rewrite lookup_insert_eq. intros [= <-]. split.
    + split; cbn; try done.
      * intros q [[= <-]|Hq]; [done|]. apply (co_wf _ _ _ HC). by right.
      * apply (co_exists _ _ _ HC).
      * intros ino f Hf _. apply (co_locked _ _ _ HC); [done|by rewrite Ea].
    + eapply (seen_frame pid c); [apply frame_goto, frame_refl|done|done|done|by apply (inv_seen _ HI)].
  - eapply (quiet_conn_ok pid c); [done|done|by rewrite Ea|done|by apply lookup_insert_eq].
Qed.

(** A step of the server on the connection of a process. *)
Lemma Inv_server pid s s' :
  Inv s -> frame pid s s' -> files s' = files s -> readers s' = readers s -> clients s' = clients s ->
  (forall k, conns (server s') !! pid = Some k -> conn_ok pid k s') -> Inv s'.
Proof.
  intros HI F Hf Hr Hc Hk. apply (Inv_frame pid s); [done|done| |done]. rewrite Hc. intros c Hp. split.
  - eapply client_ok_kept; [|by apply (inv_client _ HI)]. split; rewrite ?Hf, ?Hr; try done.
    + by rewrite (fr_gen _ _ _ F).
    + intros _. apply (fr_roots _ _ _ F).
    + intros h _. by apply (frame_safe pid).
  - eapply (seen_frame pid c); [exact F|done|done|by rewrite Hf|by apply (inv_seen _ HI)].
Qed.

Lemma server_handles_Inv pid s s' : Inv s -> server_handles pid s = Some s' -> Inv s'.
Proof.
  intros HI H. unfold server_handles in H. apply bind_Some in H as (k & Hk & H). destruct (exchange k) as [|p|p|] eqn:Ee; try done.
  destruct (connected k s); [|done]. injection H as <-. destruct (inv_conn _ HI _ _ Hk) as [Hg (c & Hc & He)].
  unfold exchange_ok in He. rewrite Ee in He.
  apply (Inv_server pid s); [done|eapply frame_trans; [apply frame_conn|apply frame_roots]|done..|].
  cbn. rewrite lookup_insert_eq. intros k' [= <-]. split; [done|]. exists c. split; [done|]. cbn. split; [done|]. set_solver.
Qed.

Lemma server_answers_Inv pid s s' : Inv s -> server_answers pid s = Some s' -> Inv s'.
Proof.
  intros HI H. unfold server_answers in H. apply bind_Some in H as (k & Hk & H). destruct (exchange k) as [|p|p|] eqn:Ee; try done.
  destruct (connected k s); [|done]. cbn in H. case_bool_decide as Hp; [done|]. injection H as <-.
  destruct (inv_conn _ HI _ _ Hk) as [Hg (c & Hc & He)]. unfold exchange_ok in He. rewrite Ee in He. destruct He as [Ha He].
  apply (Inv_server pid s); [done|apply frame_conn|done..|].
  cbn. rewrite lookup_insert_eq. intros k' [= <-]. split; [done|]. exists c. split; [done|]. exists p. split; [done|]. intros E. split; [by apply He|done].
Qed.

Lemma LateLine_Inv p s s' : Inv s -> event (LateLine p) s = Some s' -> Inv s'.
Proof.
  intros HI H. cbn in H. destruct (serving (server s)); [|done]. injection H as <-.
  (* No process is concerned: take one that does not run. *)
  pose (pid := fresh (dom (clients s))). assert (clients s !! pid = None) as Hn by (apply not_elem_of_dom, is_fresh).
  apply (Inv_server pid s); [done|apply frame_roots|done..|]. cbn. intros k Hk.
  destruct (inv_conn _ HI _ _ Hk) as [_ (c & Hc & _)]. congruence.
Qed.
(** ** Reading a file *)

Lemma print_no_NUL p : wf_StorePath p -> NUL ∉ printStorePath (join_path ds) p.
Proof.
  intros Hp. apply wf_StorePath_good in Hp as Hg. unfold printStorePath. rewrite !not_elem_of_app.
  pose proof (NUL_join ds Hds). destruct Hg as (_ & _ & _ & _ & Hn). split; [|done]. split; [done|].
  by intros [=]%list_elem_of_singleton.
Qed.

Lemma file_roots_lines ps w fuel :
  (forall p, p ∈ ps -> wf_StorePath p) -> NUL ∉ w -> length (concat (line <$> ps) ++ w) <= fuel ->
  file_roots fuel (concat (line <$> ps) ++ w) = printStorePath (join_path ds) <$> ps.
Proof.
  intros Hps Hw. revert fuel. induction ps as [|p ps IH]; intros fuel Hl; cbn in *.
  - apply find_char_None in Hw. destruct fuel; cbn; [done|]. by rewrite Hw.
  - unfold TempRoots.line in Hl |- *. rewrite <- !app_assoc in *. cbn [app] in *. rewrite length_app in Hl. cbn in Hl.
    destruct fuel as [|fuel]; [lia|]. cbn [file_roots].
    rewrite find_char_app by (apply print_no_NUL, Hps; set_solver). rewrite take_app_length, drop_S_app. f_equal.
    apply IH; [set_solver|]. unfold TempRoots.line. lia.
Qed.

Lemma read_roots_lines ps w hs :
  (forall p, p ∈ ps -> wf_StorePath p) -> NUL ∉ w -> read_roots (join_path ds) (concat (line <$> ps) ++ w) = Ok hs ->
  forall p, p ∈ ps -> hashPart p ∈ hs.
Proof.
  intros Hps Hw. unfold read_roots. rewrite file_roots_lines by done. generalize (∅ : gset bytes) as acc.
  assert (forall ps acc, (forall p, p ∈ ps -> wf_StorePath p) ->
    foreach (fun roots root => p ← parseStorePath (join_path ds) root; Ok ({[hashPart p]} ∪ roots)) acc (printStorePath (join_path ds) <$> ps) = Ok hs ->
    acc ⊆ hs /\ forall p, p ∈ ps -> hashPart p ∈ hs) as H; [|intros acc Hr; by apply (H ps acc)].
  clear -Hds. intros ps. induction ps as [|p ps IH]; intros acc Hps; cbn [fmap list_fmap foreach].
  - intros [= ->]. split; [done|]. intros p Hp. by apply elem_of_nil in Hp.
  - rewrite parse_print; [|exact Hds|apply Hps; left]. cbn. intros Hr. apply IH in Hr as [Ha Hp]; [|set_solver].
    split; [set_solver|]. intros q [->|Hq]%elem_of_cons; [set_solver|by apply Hp].
Qed.

(** What a process has registered is what its file says. *)
Lemma registered_read pid c s ino f hs p l :
  client_ok pid c s -> fd c = Some ino -> inodes (files s) !! ino = Some f -> read_roots (join_path ds) (content f) = Ok hs ->
  (p, l) ∈ registered c -> hashPart p ∈ hs.
Proof.
  intros HC Hf Hi Hr Hp. assert (settled (at_ c) = true) as Hs.
  { destruct (settled (at_ c)) eqn:E; [done|]. rewrite (co_unsettled _ _ _ HC E) in Hp. by apply elem_of_nil in Hp. }
  rewrite (co_content _ _ _ HC _ _ Hf Hs Hi) in Hr. unfold records in Hr. rewrite list_fmap_compose in Hr.
  eapply (read_roots_lines (registered c).*1); [| |exact Hr|].
  - intros q Hq. apply (co_wf _ _ _ HC). by right.
  - destruct (at_ c) as [| | | | | | | | | | | |q w r via] eqn:Ea; cbn; try apply not_elem_of_nil.
    destruct (co_write _ _ _ HC _ _ _ _ Ea) as (Hl & Hne & _). unfold TempRoots.line in Hl.
    destruct (exists_last Hne) as (r' & x & ->). rewrite app_assoc in Hl. apply app_inj_tail in Hl as [Hl _].
    intros Hn. apply (print_no_NUL q); [apply (co_wf _ _ _ HC); left; by rewrite Ea|]. rewrite Hl. set_solver.
  - apply list_elem_of_fmap. by exists (p, l).
Qed.

(** ** Steps of the collector *)

Record collects (s s' : State) : Prop := {
  cl_held ino f pid : inodes (files s) !! ino = Some f -> holder f = Some (Process pid) -> inodes (files s') !! ino = Some f;
  cl_inodes ino : is_Some (inodes (files s) !! ino) -> is_Some (inodes (files s') !! ino);
  cl_links pid ino : temproots (files s') !! pid = Some ino -> temproots (files s) !! pid = Some ino;
  cl_files : files_ok (files s) -> files_ok (files s');
  cl_readers : readers s' = readers s;
  cl_clients : clients s' = clients s;
  cl_conns : conns (server s') = conns (server s);
  cl_gen : gen (server s') = gen (server s);
  cl_roots : tempRoots (server s) ⊆ tempRoots (server s');
  cl_safe h : safe h s -> safe h s';
}.

Lemma Inv_collects s s' : Inv s -> collects s s' -> phase s <> Idle -> phase s <> Acquire -> exclusive s' = true ->
  (forall ino, collector_lock (phase s') = Some ino -> exists f, inodes (files s') !! ino = Some f /\ holder f = Some Collector) ->
  (phase s' <> Deleting -> pending (server s') = None) ->
  (forall pid c p l ino, clients s !! pid = Some c -> (p, l) ∈ registered c -> fd c = Some ino -> temproots (files s') !! pid = Some ino ->
    unseen (phase s) pid ino -> safe (hashPart p) s' \/ unseen (phase s') pid ino) -> Inv s'.
Proof.
  intros HI L Hp1 Hp2 Hx Hc Hp Hs. assert (forall pid, keeps_client pid s s') as K.
  { intros pid. split.
    - intros ino f Hi Hh. by eapply (cl_held _ _ L).
    - apply (cl_inodes _ _ L).
    - by rewrite (cl_readers _ _ L).
    - by rewrite (cl_gen _ _ L).
    - intros _. apply (cl_roots _ _ L).
    - intros h _. apply (cl_safe _ _ L). }
  split; try done.
  - by apply (cl_files _ _ L), (inv_files _ HI).
  - intros _. rewrite (cl_readers _ _ L). destruct (exclusive s) eqn:E; [by apply (inv_readers _ HI)|].
    by destruct (inv_lock _ HI E).
  - congruence.
  - intros pid c. rewrite (cl_clients _ _ L). intros Hq. eapply client_ok_kept; [by apply K|by apply (inv_client _ HI)].
  - intros pid c. rewrite (cl_clients _ _ L). intros Hq p l ino Hr Hf Ht. rewrite (cl_gen _ _ L).
    destruct (inv_seen _ HI _ _ Hq _ _ _ Hr Hf (cl_links _ _ L _ _ Ht)) as [?|[?|Hu]]; [by left|right; left; by apply (cl_safe _ _ L)|].
    right. by eapply Hs.
  - intros pid k. rewrite (cl_conns _ _ L). intros Hk. eapply conn_ok_kept; [by apply K|by rewrite (cl_clients _ _ L)|by apply (inv_conn _ HI)].
Qed.
Lemma collects_refl s : collects s s.
Proof. by split. Qed.
Lemma collects_trans s1 s2 s3 : collects s1 s2 -> collects s2 s3 -> collects s1 s3.
Proof.
  intros F G. split.
  - intros ino f pid Hi Hh. eapply (cl_held _ _ G); [|done]. by eapply (cl_held _ _ F).
  - intros ino Hi. by apply (cl_inodes _ _ G), (cl_inodes _ _ F).
  - intros pid ino Ht. by apply (cl_links _ _ F), (cl_links _ _ G).
  - intros Hf. by apply (cl_files _ _ G), (cl_files _ _ F).
  - by rewrite (cl_readers _ _ G), (cl_readers _ _ F).
  - by rewrite (cl_clients _ _ G), (cl_clients _ _ F).
  - by rewrite (cl_conns _ _ G), (cl_conns _ _ F).
  - by rewrite (cl_gen _ _ G), (cl_gen _ _ F).
  - etrans; [apply (cl_roots _ _ F)|apply (cl_roots _ _ G)].
  - intros h Hs. by apply (cl_safe _ _ G), (cl_safe _ _ F).
Qed.
Lemma collects_phase ph s s' : collects s s' -> collects s (set_phase ph s').
Proof. intros L. eapply collects_trans; [exact L|by split]. Qed.
Lemma collects_unlink pid s : collects s (unlink pid s).
Proof.
  split; try done.
  - intros q ino H. cbn in H. by apply lookup_delete_Some in H as [_ H].
  - apply (fr_files pid s), frame_unlink.
Qed.
Lemma collects_roots hs s : collects s (add_roots hs s).
Proof. split; try done; cbn; [set_solver|]. intros h [Hi Hp]. split; [cbn; set_solver|done]. Qed.
Lemma collects_inode ino f f' s :
  inodes (files s) !! ino = Some f -> (forall pid, holder f <> Some (Process pid)) -> collects s (set_inode ino f' s).
Proof.
  intros Hi Hh. split; try done; cbn.
  - intros i g pid Hg Hgo. rewrite lookup_insert_ne; [done|]. intros ->. rewrite Hi in Hg. injection Hg as <-. by eapply Hh.
  - intros i Hs. destruct (decide (i = ino)) as [->|]; [rewrite lookup_insert_eq|rewrite lookup_insert_ne]; eauto.
  - intros [Hl Hf]. split; cbn in *.
    + intros q i H. destruct (decide (i = ino)) as [->|]; [rewrite lookup_insert_eq|rewrite lookup_insert_ne]; eauto.
    + intros i H. destruct (decide (i = ino)) as [->|]; [apply Hf; eauto|]. rewrite lookup_insert_ne in H by done. eauto.
Qed.
Lemma collects_release ino f s : inodes (files s) !! ino = Some f -> holder f = Some Collector -> collects s (close_file Collector ino (write_token ino s)).
Proof.
  intros Hi Hh. unfold write_token. rewrite Hi. set (g := mkTFile _ (holder f)).
  eapply (collects_trans _ (set_inode ino g s)); [by eapply collects_inode; [exact Hi|congruence]|].
  unfold close_file. cbn. rewrite lookup_insert_eq. rewrite decide_True by done.
  eapply collects_inode; [cbn; apply lookup_insert_eq|]. cbn. congruence.
Qed.
Lemma collects_server v s :
  conns v = conns (server s) -> gen v = gen (server s) -> tempRoots v = tempRoots (server s) ->
  (forall h, h ∈ tempRoots v -> pending (server s) <> Some h -> pending v <> Some h) -> collects s (set_server v s).
Proof. intros Hc Hg Ht Hp. split; try done; cbn; [by rewrite Ht|]. intros h [Hi Hn]. split; cbn; [by rewrite Ht|]. apply Hp; [by rewrite Ht|done]. Qed.

(** A process that has registered roots holds its file. *)
Lemma registered_holds pid c s ino p l :
  client_ok pid c s -> (p, l) ∈ registered c -> fd c = Some ino -> exists f, inodes (files s) !! ino = Some f /\ holder f = Some (Process pid).
Proof.
  intros HC Hp Hf. destruct (co_exists _ _ _ HC _ Hf) as [f Hi]. exists f. split; [done|]. apply (co_locked _ _ _ HC _ _ Hf); [|done].
  apply settled_locked. destruct (settled (at_ c)) eqn:E; [done|]. rewrite (co_unsettled _ _ _ HC E) in Hp. by apply elem_of_nil in Hp.
Qed.

Lemma collector_busy s : Inv s -> phase s <> Idle -> phase s <> Acquire -> exclusive s = true.
Proof. intros HI H1 H2. destruct (exclusive s) eqn:E; [done|]. by destruct (inv_lock _ HI E). Qed.

(** The collection begins, and ends. *)
Lemma Inv_outside s s' : Inv s ->
  files s' = files s -> readers s' = readers s -> clients s' = clients s -> conns (server s') = conns (server s) ->
  (server s' = server s \/ gen (server s) < gen (server s')) ->
  (exclusive s' = true -> readers s = ∅) -> (exclusive s' = false -> phase s' = Idle \/ phase s' = Acquire) -> pending (server s') = None ->
  collector_lock (phase s') = None -> (forall pid ino, unseen (phase s') pid ino) -> Inv s'.
Proof.
  intros HI Hf Hr Hc Hk Hv Hx Hl Hp Hcl Hu. assert (forall pid, keeps_client pid s s') as K.
  { intros pid. split; rewrite ?Hf, ?Hr; try done.
    - destruct Hv as [->|]; lia.
    - destruct Hv as [->|]; [done|lia].
    - intros h Hg. destruct Hv as [E|]; [|lia]. unfold safe. by rewrite E. }
  split.
  - rewrite Hf. apply (inv_files _ HI).
  - by rewrite Hr.
  - done.
  - by rewrite Hcl.
  - done.
  - intros pid c. rewrite Hc. intros Hq. eapply client_ok_kept; [by apply K|by apply (inv_client _ HI)].
  - intros pid c _ p l ino _ _ _. auto.
  - intros pid k. rewrite Hk. intros Hq. eapply conn_ok_kept; [by apply K|by rewrite Hc|by apply (inv_conn _ HI)].
Qed.
Definition outside (ph : Phase) : bool :=
  match ph with Idle | Acquire | StartServer | OpenDir | StopListening | StopServing | ReleaseLock => true | _ => false end.

Lemma collector_outside d ok s s' : outside (phase s) = true -> Inv s -> collector_step d ok s = Some s' -> Inv s'.
Proof.
  intros Ho HI H. unfold TempRoots.collector_step in H. pose proof (inv_readers _ HI) as Hr.
  pose proof (collector_busy _ HI) as Hb. pose proof (inv_pending _ HI) as Hp.
  destruct (phase s) eqn:Ep, d; try done.
  - injection H as <-. apply (Inv_outside s); try done; [by left|cbn; tauto|by apply Hp].
  - case_bool_decide as Hrd; [|done]. injection H as <-. apply (Inv_outside s); try done. right. cbn. lia.
  - injection H as <-. apply (Inv_collects s); try done; try (by rewrite Ep); try (by apply Hb); try (by intros _; apply Hp); intros; by right.
  - injection H as <-. apply (Inv_collects s); try done; try (by rewrite Ep); try (by apply Hb); try (by intros _; apply Hp).
    intros pid c p l ino _ _ _ Ht _. right. by apply elem_of_dom.
  - injection H as <-. apply (Inv_collects s); try done; try (by rewrite Ep); try (by apply Hb); try (by intros _; apply Hp); intros; by right.
  - injection H as <-. apply (Inv_collects s); try done; try (by rewrite Ep); try (by apply Hb); try (by intros _; apply Hp); intros; by right.
  - injection H as <-. apply (Inv_outside s); try done; [by left|by left|by apply Hp].
Qed.

Definition deleting (ph : Phase) : bool := match ph with Deleting => true | _ => false end.

Lemma collector_deleting d ok s s' : phase s = Deleting -> Inv s -> collector_step d ok s = Some s' -> Inv s'.
Proof.
  intros Ep HI H. unfold TempRoots.collector_step in H. rewrite Ep in H. pose proof (collector_busy _ HI ltac:(by rewrite Ep) ltac:(by rewrite Ep)) as Hb.
  destruct d as [|?|h| |]; try done.
  - case_bool_decide as Hh; [done|]. injection H as <-.
    apply (Inv_collects s); try done; cbn; rewrite ?Ep; try done. apply collects_server; try done. cbn. intros h' Hh' _. congruence.
  - injection H as <-. apply (Inv_collects s); try done; cbn; rewrite ?Ep; try done. by apply collects_server.
  - injection H as <-. apply (Inv_collects s); try done; cbn; rewrite ?Ep; try done. by apply collects_phase, collects_server.
Qed.

Lemma collector_scanning d ok s s' :
  outside (phase s) = false -> deleting (phase s) = false -> Inv s -> collector_step d ok s = Some s' -> Inv s'.
Proof.
  intros Ho Hd HI H. unfold TempRoots.collector_step in H.
  assert (phase s <> Idle /\ phase s <> Acquire) as [H1 H2] by (by split; intros E; rewrite E in Ho).
  pose proof (collector_busy _ HI H1 H2) as Hb.
  assert (pending (server s) = None) as Hp by (apply (inv_pending _ HI); by intros E; rewrite E in Hd).
  pose proof (inv_collector _ HI) as Hcl.
  destruct (phase s) as [| | | |todo|pid todo|pid ino todo|pid ino todo|ino todo|pid ino todo| | | |] eqn:Ep; try done; destruct d as [|q|?| |]; try done.
  - (* Scan, the end of the directory *) case_decide as Ht; [|done]. injection H as <-.
    apply (Inv_collects s); rewrite ?Ep; try done.
    cbn. intros pid c p l ino _ _ _ Hl Hi. apply elem_of_dom_2 in Hl. set_solver.
  - (* Scan *) case_decide as Ht; [|done]. injection H as <-.
    apply (Inv_collects s); rewrite ?Ep; try done. cbn. auto.
  - (* OpenIt *) injection H as <-. apply (Inv_collects s); rewrite ?Ep; try done; [by destruct (_ !! pid)|].
    cbn. intros q c p l ino _ _ _ Hl Hi. right. destruct (decide (q = pid)) as [->|]; [rewrite Hl; by right|]. destruct (_ !! pid); [by left|]. set_solver.
  - (* TestFile *) injection H as <-. unfold lock. destruct (inodes (files s) !! ino) as [f|] eqn:Ei; cbn; [destruct (holder f) eqn:Eh|].
    + apply (Inv_collects s); rewrite ?Ep; try done. cbn. auto.
    + apply (Inv_collects s); rewrite ?Ep; try done; [apply collects_phase; eapply collects_inode; [exact Ei|congruence]| |].
      * cbn. intros i [= <-]. rewrite lookup_insert_eq. eauto.
      * cbn. intros q c p l i Hc Hr Hf _ [?|[-> ->]]; [by right|]. exfalso.
        destruct (registered_holds _ _ _ _ _ _ (inv_client _ HI _ _ Hc) Hr Hf) as (g & Hg & Hh). congruence.
    + apply (Inv_collects s); rewrite ?Ep; try done. cbn. auto.
  - (* UnlinkFile *) injection H as <-. apply (Inv_collects s); rewrite ?Ep; try done.
    + destruct ok; [apply collects_phase, collects_unlink|apply collects_phase, collects_refl].
    + by destruct ok.
    + cbn. intros i [= <-]. destruct (Hcl ino eq_refl) as (f & Hf & Hh). exists f. by destruct ok.
    + by destruct ok.
    + cbn. intros q c p l i _ _ _ _ [Hi Hq]. right. set_solver.
  - (* TokenFile *) injection H as <-. destruct (Hcl ino eq_refl) as (f & Hf & Hh).
    assert (collects s (close_file Collector ino (write_token ino s))) as L by (by eapply collects_release).
    apply (Inv_collects s); rewrite ?Ep; try done; [by apply collects_phase| | |cbn; auto]; unfold close_file, write_token; rewrite Hf; cbn;
      rewrite lookup_insert_eq; cbn; by case_decide.
  - (* ReadFile *) apply bind_Some in H as (f & Hi & H). destruct (read_roots (join_path ds) (content f)) as [hs|e] eqn:Er; injection H as <-.
    + apply (Inv_collects s); rewrite ?Ep; try done; [by apply collects_phase, collects_roots|].
      cbn. intros q c p l i Hc Hr Hf _ [[H3 H4]|[-> ->]]; [right; set_solver|]. left.
      split; cbn; [|by rewrite Hp]. apply elem_of_union_l. eapply registered_read; [by apply (inv_client _ HI)|done..].
    + apply (Inv_collects s); rewrite ?Ep; try done. cbn. auto.
Qed.

Lemma temproots_event e s s' :
  match e with AddTempRoot _ p => wf_StorePath p | _ => True end -> Inv s -> event e s = Some s' -> Inv s'.
Proof.
  intros He HI H. destruct e as [pid|pid|pid p|pid|n ok pid|pid|pid|p|d ok].
  - by eapply Spawn_Inv.
  - by eapply Die_Inv.
  - by eapply AddTempRoot_Inv.
  - by eapply Destroy_Inv.
  - by eapply client_step_Inv.
  - by eapply server_handles_Inv.
  - by eapply server_answers_Inv.
  - by eapply LateLine_Inv.
  - cbn in H. destruct (outside (phase s)) eqn:Eo; [by eapply collector_outside|].
    destruct (deleting (phase s)) eqn:Ed; [|by eapply collector_scanning]. eapply collector_deleting; [|done..]. by destruct (phase s).
Qed.

Definition well_formed (e : Event) : Prop := match e with AddTempRoot _ p => wf_StorePath p | _ => True end.

Lemma temproots_start : Inv TempRoots.start.
Proof.
  split; try done; cbn.
  - split; cbn; intros *; [by rewrite lookup_empty|]. rewrite lookup_empty. by intros [].
  - by left.
Qed.
Lemma temproots_run evs s s' : Forall well_formed evs -> Inv s -> run evs s = Some s' -> Inv s'.
Proof.
  revert s. induction evs as [|e evs IH]; intros s Hw HI H; cbn in H; [by simplify_eq|].
  apply bind_Some in H as (s1 & He & H). apply Forall_cons in Hw as [Hw Hws]. eapply IH; [done| |exact H]. by eapply temproots_event.
Qed.

Lemma Inv_protected s pid c h :
  Inv s -> clients s !! pid = Some c -> pending (server s) = Some h ->
  (forall p l, (p, l) ∈ registered c -> linked s pid c -> hashPart p = h -> l = Some (gen (server s))) /\
  (forall p w r via, at_ c = Write p w r via -> hashPart p = h -> exists g, via = Some g /\ g < gen (server s)).
Proof.
  intros HI Hc Hp. assert (phase s = Deleting) as Ep.
  { destruct (deleting (phase s)) eqn:E; [by destruct (phase s)|]. rewrite (inv_pending _ HI) in Hp; [done|]. by intros E'; rewrite E' in E. }
  assert (readers s = ∅) as Hrd by (apply (inv_readers _ HI), (collector_busy _ HI); by rewrite Ep).
  split.
  - intros p l Hr (ino & Hf & Ht) <-. destruct (inv_seen _ HI _ _ Hc _ _ _ Hr Hf Ht) as [?|[[_ ?]|Hu]]; [done|congruence|by rewrite Ep in Hu].
  - intros p w r via Ea <-. destruct (co_write _ _ _ (inv_client _ HI _ _ Hc) _ _ _ _ Ea) as (_ & _ & Hv). destruct via as [g|]; cbn in Hv.
    + exists g. split; [done|]. destruct Hv as [Hg Hs]. destruct (decide (g = gen (server s))) as [E|]; [|lia]. by destruct (Hs E).
    + rewrite Hrd in Hv. set_solver.
Qed.
End invariant.

(** ** Properties *)

(** C4: a root is safe once [addTempRoot] has returned for it, and from the
    acknowledgement of a running collection on.  Whatever processes, server
    and collector do, and however their steps interleave, the path that is
    being deleted is not such a root of a living process, with two
    exceptions: a collection began between the acknowledgement by an earlier
    one and the end of the record, or the file of the process is no longer in
    the directory. *)
Theorem addTempRoot_safe ds evs s pid c h :
  Forall good ds -> Forall well_formed evs -> run (join_path ds) evs start = Some s -> clients s !! pid = Some c -> pending (server s) = Some h ->
  (forall p l, (p, l) ∈ registered c -> linked s pid c -> hashPart p = h -> l = Some (gen (server s))) /\
  (forall p w r via, at_ c = Write p w r via -> hashPart p = h -> exists g, via = Some g /\ g < gen (server s)).
Proof.
  intros Hds Hw Hr Hc Hp. eapply (Inv_protected ds Hds); [|done|done].
  eapply temproots_run; [exact Hds|exact Hw|by apply temproots_start|exact Hr].
Qed.

Definition turns (pid n : nat) : list Event := replicate n (ClientStep 99 true pid).
Definition collector (n : nat) : list Event := replicate n (CollectorStep Go true).
Definition example_other : StorePath := mkStorePath #"1b8m03r63zqhnjf7l5wnldhh7c134ap5-bar".

(** One root from before the collection, one that the server is told. *)
Definition two_roots : list Event :=
  [Spawn 1; AddTempRoot 1 example_path] ++ turns 1 7 ++ collector 3 ++
  [Spawn 2; AddTempRoot 2 example_other] ++ turns 2 8 ++ [ServerHandles 2; ServerAnswers 2] ++ turns 2 2 ++
  collector 1 ++ [CollectorStep (Yield 1) true] ++ collector 3 ++ [CollectorStep (Yield 2) true] ++ collector 4 ++ [CollectorStep (SetPending #"0") true].


Lemma observed {A} storeDir (f : State -> A) evs v : f <$> run storeDir evs start = Some v -> exists s, run storeDir evs start = Some s /\ f s = v.
Proof. destruct (run storeDir evs start) as [s|]; [|done]. cbn. intros [= E]. by exists s. Qed.

Lemma example_other_wf : wf_StorePath example_other.
Proof.
  destruct (StorePath_new_cases (baseName example_other)) as [[_ Hv]|[H _]]; [done|].
  vm_compute in H. discriminate H.
Qed.

Lemma addTempRoot_safe_witness : exists s c, run #"/nix/store" two_roots start = Some s /\ clients s !! 2 = Some c /\
  registered c = [(example_other, None)] /\
  (forall p l, (p, l) ∈ registered c -> linked s 2 c -> hashPart p = #"0" -> l = Some (gen (server s))) /\
  (forall p w r via, at_ c = Write p w r via -> hashPart p = #"0" -> exists g, via = Some g /\ g < gen (server s)).
Proof.
  destruct (observed #"/nix/store" (fun s => (clients s !! 2, pending (server s))) two_roots
              (Some (mkClient Ready (Some 1) [(example_other, None)]), Some #"0")) as (s & Hr & E); [vm_compute; reflexivity|].
  injection E as Hc Hp. exists s, (mkClient Ready (Some 1) [(example_other, None)]). split; [exact Hr|]. split; [exact Hc|]. split; [reflexivity|].
  apply (addTempRoot_safe [ #"nix"; #"store"] two_roots s 2); [exact good_nix_store| |exact Hr|exact Hc|exact Hp].
  unfold two_roots. repeat first [exact I|exact example_wf|exact example_other_wf|apply Forall_app; split|constructor].
Defined.

Definition two_collections : list Event :=
  [Spawn 1; AddTempRoot 1 example_other] ++ turns 1 5 ++ collector 3 ++ turns 1 3 ++ [ServerHandles 1; ServerAnswers 1] ++ turns 1 1 ++
  collector 1 ++ [CollectorStep (Yield 1) true] ++ collector 4 ++ [CollectorStep Finish true] ++ collector 7 ++
  [CollectorStep (Yield 1) true] ++ collector 4 ++ turns 1 1 ++ [CollectorStep (SetPending (hashPart example_other)) true].
(** The first exception is real: a root is acknowledged by one collection,
    the next one reads the files before it is written, and deletes the path
    although [addTempRoot] has returned. *)
Lemma overtaken_root_deleted : exists s, run #"/nix/store" two_collections start = Some s /\
  clients s !! 1 = Some (mkClient Ready (Some 0) [(example_other, Some 2)]) /\ temproots (files s) !! 1 = Some 0 /\
  pending (server s) = Some (hashPart example_other).
Proof.
  destruct (observed #"/nix/store" (fun s => (clients s !! 1, temproots (files s) !! 1, pending (server s))) two_collections
      (Some (mkClient Ready (Some 0) [(example_other, Some 2)]), Some 0, Some (hashPart example_other))) as (s & Hr & E); [vm_compute; reflexivity|].
  injection E as Hc Ht Hp. exists s. split; [exact Hr|]. split; [exact Hc|]. split; [exact Ht|exact Hp].
Qed.

Definition number_used_again : list Event :=
  [Spawn 1; AddTempRoot 1 example_path] ++ turns 1 7 ++ [Die 1] ++ collector 4 ++ [CollectorStep (Yield 1) true] ++ collector 1 ++
  [Spawn 1; AddTempRoot 1 example_other] ++ turns 1 9 ++ [ServerHandles 1; ServerAnswers 1] ++ turns 1 2 ++
  collector 4 ++ [CollectorStep Finish true] ++ collector 8 ++ [CollectorStep (SetPending (hashPart example_other)) true].
(** So is the second: the collector has opened the file of a dead process when
    a new process with its number replaces the file and registers a root; the
    collector then locks the old file and unlinks the new one. *)
Lemma live_file_unlinked : exists s, run #"/nix/store" number_used_again start = Some s /\
  clients s !! 1 = Some (mkClient Ready (Some 1) [(example_other, None)]) /\ temproots (files s) !! 1 = None /\
  pending (server s) = Some (hashPart example_other).
Proof.
  destruct (observed #"/nix/store" (fun s => (clients s !! 1, temproots (files s) !! 1, pending (server s))) number_used_again
      (Some (mkClient Ready (Some 1) [(example_other, None)]), None, Some (hashPart example_other))) as (s & Hr & E); [vm_compute; reflexivity|].
  injection E as Hc Ht Hp. exists s. split; [exact Hr|]. split; [exact Hc|]. split; [exact Ht|exact Hp].
Qed.
